(* ===== verification/_CoqProject ===== *)
-Q . S2P
Prelude.v
StdMap.v
Telnet.v
Vslip.v
Screen5250.v
Http.v
Pool.v
Await.v
TaskQueue.v
Stream.v
EventQueue.v
GraphqlParser.v
GraphqlGrammar.v
GraphqlExecutor.v
Worker.v
ConsoleConfig.v
TypedSchema.v
TypedExecutor.v
Subscription.v
CommandLine.v
WebClient.v
RedfishClient.v
GraphqlServer.v
IbmiConsole.v
ConsoleRouter.v
PropertyWatcher.v
FirmwareCatalogue.v
FirmwareManager.v
TelnetServer.v
TelnetClient.v
GraphqlBridge.v
FileSync.v
SpdmMessages.v
TrustStore.v
CertExchange.v
Measurements.v
I2c.v
SpdmTransport.v
RedfishProxy.v
Uart.v
JournalServer.v
ConsoleClient.v
ComponentIntegrity.v
ConsoleServer.v
