(* ===== verification/Prelude.v ===== *)
(** * Verification of the coroserver library

    coroserver is a C++23 library of coroutine-based network services on
    Boost.Asio, with example programs built on it.  This development models its
    protocol and coordination code as executable functions and step functions,
    and proves what makes that code correct.  Sources are under [src/]; wire data
    is [list byte], machine integers are [Z] with their wrap-around written out,
    maps are [gmap], exceptions and undefined behaviour are values.

    ** Parts and files

    - [Prelude.v] (this file): bytes, fixed-width integers, decimal numbers,
      searching in strings, counting in maps, the hint database [coro] and the
      shared tactics.
    - [Telnet.v]: [include/telnet_protocol.hpp].  [Module Decoder] is the class
      [Decoder] ([step] is the body of the loop of [feed]); the encoders
      ([escapeIac], [negotiation], [subnegotiation], [nawsFrame], ...) are
      functions; [Module Negotiator] is the class of that name.  [Module Peers]
      connects two negotiators by two queues of messages.
    - [Vslip.v]: [examples/obmc_console/vslip_framer.hpp].
    - [Screen5250.v]: [examples/obmc_console/screen5250.hpp],
      [stream5250_parser.hpp] and [ebcdic.hpp].  The screen is the row-major list
      of its cells; [repeat_loop] is the loop of [repeatToAddress].
    - [Http.v]: [include/utilities.hpp], [http_target_parser.hpp],
      [request_mapper.hpp], [flat_map.hpp], [http_errors.hpp] and the router and
      the dispatch of [http_server.hpp].  A handler is a function from a request
      to a response or an exception.
    - [Pool.v]: [include/connection_pool.hpp].  The operations on [hosts_] are
      functions; [step] interleaves the coroutines that run [acquire], the leases
      and the timers.
    - [Await.v]: [include/when_all.hpp], [include/when_any.hpp].  [all_step] and
      [any_step] are the ends of the spawned coroutines and their completion
      handlers, in any order.
    - [TaskQueue.v]: [include/taskqueue.hpp].  [proc] is where a coroutine is
      suspended; [step] runs it to its next suspension.
    - [Stream.v]: [include/eventmethods.hpp] and [readUntil] and [write] of
      [include/socket_streams.hpp].  Boost's [async_read_until] is the class
      [ReadUntil], with an instance that shows it can be implemented.
    - [EventQueue.v]: [include/eventqueue.hpp], on top of the transition system
      of [TaskQueue.v] and the framing of [Stream.v].  Its proofs use only the
      view of the task queue given by [step_loop] and [step_end].
    - [GraphqlParser.v]: [examples/graphql_server/include/graphql/parser.hpp] and
      [ast.hpp], in a monad of parser states and exceptions, with a program logic
      ([wp]).
    - [GraphqlGrammar.v]: an independent grammar of the documents, with printer
      and meaning.
    - [GraphqlExecutor.v]: [util.hpp], [simple_schema.hpp] and
      [simple_executor.hpp] of the same directory: variables, expansion of
      fragments, selection of fields and the executor.  A resolver is a function
      of its arguments to a value or an exception; the calls are recorded in order.
    - [StdMap.v]: [std::map] with string keys and the objects of nlohmann::json, as
      sorted association lists.
    - [TypedSchema.v]: [typed_schema.hpp]: types and root fields, loading them from
      JSON, [validateOperation].
    - [TypedExecutor.v]: [typed_executor.hpp] and [graphql_redfish_executor.cpp]:
      paths, collections fetched in batches, projection.  The provider is a
      parameter.
    - [Subscription.v]: the sessions and triggers of [typed_executor.hpp] and the
      index of [ql_dbus_property_watcher.hpp], as a transition system whose events
      run a coroutine to its next suspension.
    - [Worker.v]: [include/worker.hpp].  The threads of [WorkerPool] and the callers
      of [asyncCall] interleave at every access to what they share; the mutex and
      the condition variable are in the state.
    - [CommandLine.v]: [include/command_line_parser.hpp] and the parsing of numbers
      in [graphql_redfish_server.cpp].
    - [WebClient.v]: [include/webclient.hpp] and [readUntil] of
      [include/http_client.hpp].  The network is an oracle that sees the history of
      calls; the mailbox of [SseStream] is a transition system.
    - [RedfishClient.v]: [include/redfish_client.hpp] and
      [graphql_redfish_provider.cpp]: the coroutines that share one session token,
      and the provider's cache.
    - [GraphqlServer.v]: [graphql_redfish_server.cpp], which composes [CommandLine],
      [Http], [TypedExecutor] and [Subscription].
    - [ConsoleConfig.v]: [examples/obmc_console/console_config.hpp].
    - [IbmiConsole.v]: [ibmi_emulator.hpp] and [ibmi_console_client.cpp] of
      [examples/obmc_console/], on top of [Vslip] and [Screen5250].
    - [ConsoleRouter.v]: the router, the ring buffer and the device loop of
      [console_server_multi.cpp], with the emulator of [IbmiConsole] as one device.
    - [ConsoleServer.v]: [ConsoleInstance] and [MultiConsoleServer] of the same file and
      the D-Bus methods of [examples/obmc_console/console_dbus.hpp], which compose [ConsoleConfig], [Uart] and [ConsoleRouter]: opening a device, the
      speeds and attributes of lines, stopping, and the removal of consoles that ended.
    - [PropertyWatcher.v]: [include/dbusproperty_watcher.hpp] and the extraction of
      properties of [sdbus_calls.hpp].  Waiting coroutines, their timers and the
      notification are a transition system.
    - [FirmwareCatalogue.v] and [FirmwareManager.v]: [examples/firmware_updater/]:
      configuration, versions, choice of a candidate and download in the first, the
      manager, its installation and the polling loop in the second.
    - [TelnetServer.v] and [TelnetClient.v]: the gateway and its client of
      [examples/telnet_tls/], on top of [Telnet]: negotiation, line editor, login,
      menu, and the relay between a client and a console as a transition system of
      its two coroutines.
    - [GraphqlBridge.v]: [examples/redfish_graphql_dbus_client/], composed with
      [GraphqlServer] and [WebClient].
    - [FileSync.v]: [event_file_methods.hpp] and [file_sync.hpp] of
      [examples/event_broker/] and [include/file_watcher.hpp], on top of [Stream] and
      [EventQueue].
    - [SpdmMessages.v], [TrustStore.v], [CertExchange.v] and [Measurements.v]: the
      exchange of certificates and the reports of [examples/spdm/].  The first has
      the packed structures (class [POD]) and their serialisation, the second the
      trust store over a file system with links, the third the responder, its
      dispatcher and sessions and the requester, both against the interface
      [CertificateTrustStore], and the last PEM chains and base64 measurements.
    - [SpdmTransport.v]: the asynchronous and the blocking transport of
      [examples/spdm/include/], [TimedStreamer] of [include/socket_streams.hpp] with
      the timer that its operations share, the two TCP servers and the asynchronous
      responder, compared with the session of [CertExchange.v].
    - [ComponentIntegrity.v]: the objects of SPDM devices, the attempts to set them up
      and the methods, [spdm_requester/src/component_integrity.hpp].
    - [I2c.v]: [include/i2c_client.hpp] and [examples/i2c_service/i2c_service.cpp].
      Coroutines are finite programs over the operations of a device; [exec] runs one
      alone and [sys_step] runs it among the requests of the service.
    - [Uart.v]: [include/uart_server.hpp]; the settings of a line are computed bit by
      bit.
    - [ConsoleClient.v]: [examples/obmc_console/console_client.cpp] and the plain
      client of [include/unix_client.hpp].
    - [RedfishProxy.v]: [examples/redfishproxy/redfish_proxy.cpp], on the router of
      [Http.v] and the requests of [WebClient.v]; an operation of a destroyed client
      is undefined behaviour.
    - [JournalServer.v]: [examples/journalserver/journal_server.cpp], with the frames of
      [Http.v] and the client of [WebClient.v] at the ends of its connections.

    ** What the theorems show

    Parsing and framing: the GraphQL parser is total and bounded ([parse_total])
    and implements its grammar ([parse_correct]); telnet streams, VSLIP frames,
    event headers, HTTP targets and stored events are decoded to what was
    encoded, for every way of cutting the input into chunks ([decode_stream],
    [vslip_roundtrip], [header_roundtrip], [parse_function_roundtrip],
    [store_load_roundtrip], ...), the VSLIP decoder resynchronises, and the 5250
    parser terminates exactly on the records whose addresses are on the screen.
    Execution: fragment expansion is the unfolding of spreads and always ends
    ([expandFragments_correct]), every request is answered ([execute_total]) and
    data are what the expanded operation asks for ([execute_correct]).
    The typed side: an operation is accepted exactly when it is well typed
    ([validateOperation_correct]), what is accepted is executed without reading a
    type or field that is not there, and fails or throws only for the causes that are
    listed ([validated_safe]), and the data are the resources at the paths of the
    schema, reduced to the selections ([typed_execute_correct]).
    Routing: a request, with or without a query, reaches the first matching handler
    with its parameters bound ([dispatch_first_match]).  Coordination, for every interleaving: the pool never exceeds its
    limit, never shares a connection and loses no wake-up while no timer expires;
    the task queue loses no task and strands none; every stored event has exactly
    one delivery under way until it is acknowledged or expires, if no two are added in
    one microsecond; [when_all] and [when_any] resume when they should with the right
    result; two telnet negotiators agree after any single request; a worker pool runs every task that was added ([worker_drains]) and
    its destructor can wait for ever in one interleaving only, which is described
    ([worker_stop_iff]); at most one subscription loop runs for each key
    ([subscription_sessions]) and the event trigger loses no event
    ([event_trigger_correct]); as long as new sessions come with a token, every
    Redfish request ends, with the first response that does not refuse the token
    ([redfish_completes], [redfish_result]); a client of the console is sent output
    of the device in order, from some point of its recent history on, and without gaps
    when its socket takes every write whole ([console_history]).
    Clients and servers: the HTTP client tries as often as its settings say
    ([execute_tries]), server-sent events are cut into the frames
    that were sent ([frames_roundtrip]) and none is lost exactly as long as the
    consumer waits for each ([sse_lossless_iff]); the GraphQL endpoint answers what the executor returns
    ([graphql_endpoint]), with one executor for each host ([executor_per_host]).
    Consoles: the emulator throws on no input and shows its menu only after the
    right password ([emulator_safe]), what it
    draws is what the client shows ([display_shown]) and what is typed is what is
    entered ([typing_entered]); a configuration file is read as it was written
    ([config_roundtrip]), with its devices and sizes ([load_devices],
    [logsize_correct]).
    D-Bus and firmware: a watch calls back with every signal until it is told to
    stop ([watch_correct], [watchOnce_correct]); the best candidate is chosen
    ([selectCandidates_correct]), downloaded whole or not at all
    ([downloadFirmware_correct]) and announced ([updater_correct]); an installation
    refers to the argument of its D-Bus method after that has returned
    ([install_use_after_free]).
    Servers of consoles: an instance is destroyed only after its coroutine ended
    ([instances_removed]); a change of the speed through D-Bus ends the console
    ([baud_change_ends]); speeds and addresses are read as they are written
    ([baud_roundtrip], [stoul_hex]), and the property of the speed keeps its value
    ([baud_property]).
    Telnet: a console is opened only after an accepted login
    ([session_authenticated]), the relay is faithful in both directions
    ([relay_faithful]), and what is typed and shown at the client is what the
    gateway receives and sends, up to what the client still has to write
    ([typed_received], [console_shown]).
    The bridge shows on D-Bus what the subscriptions said last ([bridge_shows]) and
    asks the server for exactly its queries ([subscription_requested]); paths into
    JSON are followed as written ([jsonAtPath_correct]).  A modified file reaches the
    peer when no read mixes two writes ([file_synced]), reception always ends ([consume_total]) and archives are
    unpacked ([archive_received]).
    SPDM: the messages with a certificate are read from exactly the buffers that
    hold them ([push_request_exact], [pull_response_exact],
    [certificate_messages_roundtrip]); the trust store gives back what it took and
    can be searched by hash ([store_retrieve], [remove_correct], [stored_by_hash]);
    an exchange succeeds exactly when both ends accept and the responder stores
    ([exchange_correct]), a responder answers every message ([dispatch_total]) and
    its session outlives 99 failures in a row ([session_serves]); certificate chains
    and measurements are reported as they are ([derCertsToPem_correct],
    [base64_roundtrip], [measurements_reported]).  Messages sent over the
    asynchronous transport are received whole and in order, however the stream is cut,
    when no pause is too long ([messages_delivered]), inside the buffer ([receive_bounds]) and without waiting
    for ever once a header is there ([receive_returns]); what the blocking transport
    receives and sends is described exactly ([blocking_receive_iff],
    [blocking_send_iff]); the servers keep their limit ([server_bounded]) and the two
    responders agree ([asyncRun_mirrors], [get_response_agrees]).  A device is tried
    four times ([attempts_bounded]) and has a path of its own ([path_of_inj]).
    Devices: calls of the I2C service that do not share a device get the replies that
    they call for, alone or not ([requests_isolated]), commands are retried as often as they should be
    ([write_retries], [read_retries]) and an EEPROM gives back what it took
    ([eeprom_roundtrip], [integer_wire]); a serial line is set up as asked exactly
    where raw mode does not undo it ([uart_line_iff]) and gives its descriptor back
    ([open_close]).  The console client sends what is typed and leaves only at the
    escape sequence ([typed_conserved], [lines_then_escape]), and gives the terminal
    back ([session_ends]).
    The Redfish proxy keeps a contract that does not know its clients
    ([proxy_refines]) and is safe where it is not reconfigured under a request
    ([proxy_safe]); a subscriber of the journal server sees, from then on, the lines
    read while the process runs ([journal_delivered], [journal_seen]).
    Some theorems state a limit of the code where it falls
    short of its comments or of its purpose, for example
    [withdrawn_request_never_settles], [header_readahead_lost],
    [taskqueue_client_shared], [same_time_loses_event],
    [expansion_exceeds_depth], [expandPath_twice], [typed_execute_throws],
    [subscriber_stranded], [redfish_abandoned], [sse_end_lost],
    [withUrl_not_encoded], [three_is_enter], [history_cut], [relay_stuck],
    [typed_ahead_lost], [quit_drops_queue], [first_item_lost], [two_paths_flip],
    [coalesced_header], [read_past_end], [emptied_file_kept], [path_escapes_root],
    [link_limit], [removed_link_blocks], [format_ignored], [not_stored_succeeds],
    [answers_crossed], [reply_held_back], [temperature_wrong], [timeout_ignored],
    [header_only_arms_timer], [blocking_cuts], [attempts_unbounded],
    [raw_overrides], [idle_console], [blank_line_held], [used_after_free],
    [headers_dropped], [never_restarted], [install_use_after_free], [unread_at_end].

    ** Bounds and fuel

    [Screen5250.process] takes a bound on the loop of one order; one lap of the
    screen, 1920 cells, is proved enough whenever any bound is.
    [EventQueue.serve] takes a bound on its rounds; one more than the number of
    chunks is proved enough.  The parser's fuel is four times the length of the
    query and eight more, proved enough for every query: each loop and each
    recursive call consumes a token, and at most four calls nest between two
    tokens.  [expandOperation] lets as many spreads nest as there are fragments,
    proved enough because no fragment is visited inside itself.
    [to_dec] takes a bound on the number of digits: 20 for 64 bits.
    [TypedExecutor.batches] takes the number of members and [replace_loop] one more
    than the length of the path, both proved enough; [WebClient.frameProducer]
    takes one more than the number of frames.  The pictures of the emulator hold
    no repeat order, so that [IbmiConsole.client_run] needs no bound on it: zero is
    proved enough.  That the transition systems of [Worker] and [RedfishClient]
    come to rest is shown with a measure that every step decreases.
    [TelnetServer.readLine] and [menu_loop] take one more than the bytes not yet read,
    [GraphqlBridge.handleFrame] one more than the length of the frame, and
    [FileSync.recieveFile] and [receive_loop] one more than the bytes and chunks of
    the stream, proved enough by [recieve_total] and [receive_total].  The loop of
    [Measurements.derCertsToPem] takes the length of the chain, proved enough when no
    certificate is empty; [TrustStore.follow] follows forty links, as the kernel does,
    and a loop of links leads nowhere.
    The loops of [SpdmTransport] take as many turns as bytes are asked for, proved
    enough by [read_loop_returns] and [write_loop_exact]; [JournalServer.monitorJournal]
    takes one more than the lines.

    ** What is not modelled

    TLS, D-Bus, PAM, files and logging themselves, and the code of Boost.Asio and
    Boost.Beast, nlohmann::json, OpenSSL, libspdm, libssh2, sdbusplus and stdexec,
    which the sources only call: what is used of them is a parameter, an event or a
    status.  Coroutines are modelled between their suspension points, on the one
    thread of an [io_context].  Floating-point conversion ([std::stod]) is a
    parameter.

    Some exceptions are not modelled either: that of [unix_domain::endpoint] for a path
    that is too long, which leaves [createNewConnection] after it has counted the
    connection; those of the tasks of a task queue, which are taken to return an error
    code; and those of sd-bus for an object path that it refuses, in the bridge.  Where
    a theorem assumes that writes are taken whole or that a read does not mix two
    writes, its comment says so.  The renewal of a token of the Redfish proxy ends in
    an event; that requests share one is in [RedfishClient].

    Left out because they only call other code are the asynchronous ports of libspdm in
    [examples/spdm/include/async/], whose every line is about structures of that
    library that are not part of the sources; [cert_generator.hpp] but for what the
    exchange calls, which is a sequence of OpenSSL calls; the D-Bus classes under
    [spdm_requester/gen/], which a generator writes; the streams over MCTP and
    packets, the SSH clients and most of [sdbus_calls.hpp], which pass their arguments
    on; and the example programs that only show how the library is called, such as
    [examples/web_crawler/], which is not built.  Of [console_server_multi.cpp] the
    sockets with their permissions and the registration on D-Bus are left out. *)

From stdpp Require Export base tactics list option strings numbers functions relations gmap.
From Stdlib Require Export Strings.Byte.
From Stdlib Require Export ZArith Lia.

(** Components are written with [list]s of bytes for wire data and with
    [string]s for text; integers of a fixed width are [Z] with the wrap-around
    written where the code has it. *)

Declare Scope coro_scope.
Delimit Scope coro_scope with coro.
Open Scope coro_scope.

(** ** Bytes *)

Abbreviation bytes := (list byte).

#[export] Instance byte_eq_decision : EqDecision byte := Byte.byte_eq_dec.

#[export] Instance byte_countable : Countable byte :=
  inj_countable Byte.to_N Byte.of_N Byte.of_to_N.

(** The unsigned value of a byte, [static_cast<uint8_t>]. *)
Definition u8 (b : byte) : Z := Z.of_N (Byte.to_N b).

(** [static_cast<char>] of an integer: the byte with that value modulo 256. *)
Definition of_u8 (z : Z) : byte :=
  match Byte.of_N (Z.to_N (z mod 256)) with
  | Some b => b
  | None => x00
  end.

Lemma u8_range b : (0 <= u8 b < 256)%Z.
Proof. unfold u8. pose proof (Byte.to_N_bounded b). lia. Qed.

Lemma of_u8_u8 b : of_u8 (u8 b) = b.
Proof.
  unfold of_u8, u8. rewrite Z.mod_small by (pose proof (u8_range b); unfold u8 in *; lia).
  by rewrite N2Z.id, Byte.of_to_N.
Qed.

Lemma u8_of_u8 z : u8 (of_u8 z) = (z mod 256)%Z.
Proof.
  unfold of_u8, u8. pose proof (Z.mod_pos_bound z 256 ltac:(lia)) as Hz.
  destruct (Byte.of_N (Z.to_N (z mod 256))) as [b|] eqn:E.
  - apply Byte.to_of_N in E. rewrite E. lia.
  - apply Byte.of_N_None_iff in E. lia.
Qed.

#[export] Instance u8_inj : Inj (=) (=) u8.
Proof. intros a b H. by rewrite <- (of_u8_u8 a), <- (of_u8_u8 b), H. Qed.

Lemma u8_eq_iff a b : u8 a = u8 b <-> a = b.
Proof. split; [apply u8_inj | congruence]. Qed.

(** ** Machine integers *)

(** Truncation of an integer to an unsigned type of [w] bits. *)
Definition wrapu (w : Z) (z : Z) : Z := (z mod 2 ^ w)%Z.

Definition is_uint (w : Z) (z : Z) : Prop := (0 <= z < 2 ^ w)%Z.

Lemma wrapu_small w z : is_uint w z -> wrapu w z = z.
Proof. intros. by apply Z.mod_small. Qed.

Lemma wrapu_range w z : (0 <= w)%Z -> is_uint w (wrapu w z).
Proof. intros. apply Z.mod_pos_bound. lia. Qed.

(** A big-endian pair of bytes, as [(b0 << 8) | b1]. *)
Lemma be16_split (w : Z) :
  is_uint 16 w -> Z.lor (Z.shiftl (Z.shiftr w 8) 8) (Z.land w 255) = w.
Proof.
  unfold is_uint. intros Hw.
  apply Z.bits_inj_iff'. intros n Hn.
  rewrite Z.lor_spec, Z.land_spec. change 255%Z with (Z.ones 8).
  rewrite Z.testbit_ones_nonneg by lia.
  destruct (Z.ltb_spec n 8).
  - rewrite Z.shiftl_spec_low by lia. by rewrite andb_true_r.
  - rewrite Z.shiftl_spec, Z.shiftr_spec by lia.
    replace (n - 8 + 8)%Z with n by lia. rewrite andb_false_r. apply orb_false_r.
Qed.

(** ** Lists *)

Section lists.
Context {A B : Type}.
Implicit Types (l k : list A).

(** Pushing elements one at a time onto a buffer that stops growing at
    [n] elements keeps the first [n]. *)
Definition push_bounded (n : nat) (l : list A) (x : A) : list A :=
  if decide (length l < n) then l ++ [x] else l.

Lemma push_bounded_length n l x :
  length l <= n -> length (push_bounded n l x) <= n.
Proof. unfold push_bounded. case_decide; rewrite ?length_app; simpl; lia. Qed.

Lemma foldl_push_bounded n l k :
  length l <= n -> foldl (push_bounded n) l k = take n (l ++ k).
Proof.
  revert l. induction k as [|x k IH]; intros l Hl; simpl.
  - rewrite app_nil_r, take_ge; done.
  - rewrite IH by by apply push_bounded_length. unfold push_bounded. case_decide.
    + by rewrite <- app_assoc.
    + rewrite !take_app_ge by lia. by replace (n - length l) with 0 by lia.
Qed.
End lists.

(** ** Counting the entries of a map *)

Definition b2n (b : bool) : nat := if b then 1 else 0.

Definition map_count {K A : Type} `{Countable K} (P : A -> bool) (m : gmap K A) : nat :=
  size (filter (fun kv => P kv.2 = true) m).

Section map_count.

Context {K A : Type} `{Countable K}.

Implicit Types (m : gmap K A) (P : A -> bool).

Lemma map_count_empty P : map_count P (∅ : gmap K A) = 0.
Proof. unfold map_count. by rewrite map_filter_empty, map_size_empty. Qed.

Lemma map_count_insert_fresh P m i x :
  m !! i = None -> map_count P (<[i := x]> m) = map_count P m + b2n (P x).
Proof.
  intros Hi. unfold map_count. destruct (P x) eqn:Hx; simpl.
  - rewrite map_filter_insert_True by done.
    rewrite map_size_insert_None by by rewrite map_lookup_filter, Hi. lia.
  - rewrite map_filter_insert_False by (simpl; congruence). by rewrite delete_id by done.
Qed.

Lemma map_count_insert P m i x y :
  m !! i = Some y -> map_count P (<[i := x]> m) + b2n (P y) = map_count P m + b2n (P x).
Proof.
  intros Hi. rewrite <- (insert_delete_id m i y Hi) at 2. rewrite <- insert_delete_eq.
  rewrite !map_count_insert_fresh by apply lookup_delete_eq. lia.
Qed.

Lemma map_count_pos P m i x : m !! i = Some x -> P x = true -> 1 <= map_count P m.
Proof.
  intros Hi Hx. rewrite <- (insert_delete_id m i x Hi).
  rewrite map_count_insert_fresh by apply lookup_delete_eq. rewrite Hx. simpl. lia.
Qed.

Lemma map_count_two P m i j x y :
  m !! i = Some x -> m !! j = Some y -> i <> j -> P x = true -> P y = true -> 2 <= map_count P m.
Proof.
  intros Hi Hj Hij Hx Hy. rewrite <- (insert_delete_id m i x Hi).
  rewrite map_count_insert_fresh by apply lookup_delete_eq. rewrite Hx. simpl.
  enough (1 <= map_count P (delete i m)) by lia.
  apply (map_count_pos P (delete i m) j y); [by rewrite lookup_delete_ne | done].
Qed.

Lemma map_count_zero P m : (forall i x, m !! i = Some x -> P x = false) -> map_count P m = 0.
Proof.
  intros HP. unfold map_count. apply map_size_empty_iff, map_empty. intros i.
  apply map_lookup_filter_None. right. intros x Hi. simpl. by rewrite (HP i x Hi).
Qed.

End map_count.

(** The sum of a weight over the entries of a map. *)
Definition map_sum {K A : Type} `{Countable K} (f : A -> nat) (m : gmap K A) : nat := map_fold (fun _ x n => f x + n) 0 m.

Section map_sum.

Context {K A : Type} `{Countable K}.

Implicit Types (m : gmap K A) (f : A -> nat).

Lemma map_sum_insert_fresh f m i x : m !! i = None -> map_sum f (<[i := x]> m) = f x + map_sum f m.
Proof. intros Hi. unfold map_sum. apply (map_fold_insert_L (fun _ x n => f x + n)); [intros; lia|done]. Qed.

Lemma map_sum_insert f m i x y : m !! i = Some y -> map_sum f (<[i := x]> m) + f y = map_sum f m + f x.
Proof.
  intros Hi. rewrite <- (insert_delete_id m i y Hi) at 2. rewrite <- insert_delete_eq.
  rewrite !map_sum_insert_fresh by apply lookup_delete_eq. lia.
Qed.

Lemma map_sum_alter f g m i : (forall x, f (g x) <= f x) -> map_sum f (alter g i m) <= map_sum f m.
Proof.
  intros Hg. destruct (m !! i) as [y|] eqn:E.
  - replace (alter g i m) with (<[i := g y]> m).
    + pose proof (map_sum_insert f m i (g y) y E). specialize (Hg y). lia.
    + apply map_eq. intros j. destruct (decide (i = j)) as [<-|Hj];
        [by rewrite lookup_insert_eq, lookup_alter_eq, E|by rewrite lookup_insert_ne, lookup_alter_ne].
  - rewrite (map_eq (alter g i m) m); [done|]. intros j.
    destruct (decide (i = j)) as [<-|Hj]; [by rewrite lookup_alter_eq, E|by rewrite lookup_alter_ne].
Qed.

End map_sum.

(** ** Transition systems *)

Lemma rtc_preserve {A : Type} (P : A -> Prop) (R : relation A) x y :
  (forall x y, P x -> R x y -> P y) -> P x -> rtc R x y -> P y.
Proof. intros Hstep Hx Hrun. induction Hrun; eauto. Qed.

(** ** Automation *)

Create HintDb coro.

#[export] Hint Resolve u8_range wrapu_range push_bounded_length : coro.

(** Decide every conditional in sight, then close the arithmetic. *)
Ltac cases :=
  repeat first [case_decide | case_match]; simplify_eq/=; try done; try lia.

(** An existential whose witness is fixed by the last conjunct, an equation. *)
Ltac exists_eq := refine (ex_intro _ _ (conj _ eq_refl)).

(** ** Text *)

(** A C++ string literal as the bytes it stands for. *)
Definition str (s : string) : bytes := String.list_byte_of_string s.

(** [std::find_if]: the first element that satisfies the predicate and its
    index. *)
Fixpoint find_if {A : Type} (f : A -> bool) (l : list A) : option (nat * A) :=
  match l with
  | [] => None
  | x :: l => if f x then Some (0, x) else prod_map S id <$> find_if f l
  end.

Lemma find_if_Some {A : Type} (f : A -> bool) (l : list A) i x :
  find_if f l = Some (i, x) <->
  l !! i = Some x /\ f x = true /\ forall j y, j < i -> l !! j = Some y -> f y = false.
Proof.
  revert i. induction l as [|a l IH]; intros i; simpl.
  { split; [done|]. by intros (H & _ & _). }
  destruct (f a) eqn:Ha.
  - split.
    + intros [= <- <-]. split_and!; [done..|]. lia.
    + destruct i as [|i]; simpl; [by intros ([= ->] & _)|].
      intros (_ & _ & H). specialize (H 0 a ltac:(lia) eq_refl). congruence.
  - destruct i as [|i]; simpl.
    + split; [by destruct (find_if f l) as [[]|]|]. intros ([= ->] & ? & _). congruence.
    + transitivity (find_if f l = Some (i, x)).
      { destruct (find_if f l) as [[]|]; simpl; [|done]. by split; intros [= -> ->]. }
      rewrite IH. split; intros (? & ? & H); split_and!; try done.
      * intros [|j] y Hj; simpl; [by intros [= <-]|]. apply H. lia.
      * intros j y Hj. apply (H (S j)). lia.
Qed.

Lemma find_if_None {A : Type} (f : A -> bool) (l : list A) :
  find_if f l = None <-> Forall (fun x => f x = false) l.
Proof.
  induction l as [|a l IH]; simpl; [by split|]. rewrite Forall_cons, <- IH.
  destruct (f a); [by split; [|intros []]|].
  destruct (find_if f l) as [[]|]; simpl; (by split; [|intros []]) || (by split).
Qed.

(** The position of the first occurrence of [p], [std::string::find]. *)
Fixpoint find_sub (p s : bytes) : option nat :=
  if bool_decide (p `prefix_of` s) then Some 0
  else match s with [] => None | _ :: s => S <$> find_sub p s end.

Lemma find_sub_Some p s i :
  find_sub p s = Some i ->
  take (length p) (drop i s) = p /\ forall j, j < i -> ~ p `prefix_of` drop j s.
Proof.
  revert i. induction s as [|b s IH]; intros i; simpl; case_bool_decide as Hp.
  - intros [= <-]. split; [|lia]. apply prefix_nil_inv in Hp. by rewrite Hp.
  - done.
  - intros [= <-]. split; [|lia]. cbn [drop].
    destruct Hp as [k Hk]. by rewrite Hk, take_app_length.
  - destruct (find_sub p s) as [j|] eqn:E; intros [= <-].
    destruct (IH j eq_refl) as [Ht Hmin]. split; [done|].
    intros [|k] Hk; [done|]. apply Hmin. lia.
Qed.

Lemma find_sub_None p s : find_sub p s = None <-> forall j, ~ p `prefix_of` drop j s.
Proof.
  induction s as [|b s IH]; simpl; case_bool_decide as Hp.
  - split; [done|]. intros H. by destruct (H 0).
  - split; [|done]. intros _ j. by rewrite drop_nil.
  - split; [done|]. intros H. by destruct (H 0).
  - rewrite fmap_None, IH. split; [intros H [|j]; [done|apply H]|]. intros H j. apply (H (S j)).
Qed.

(** ** Decimal numbers *)

Definition digit (z : Z) : byte := of_u8 (48 + z)%Z.

Definition is_digit (b : byte) : bool := ((48 <=? u8 b) && (u8 b <=? 57))%Z.

(** [std::to_string] of an unsigned integer below [10 ^ fuel]. *)
Fixpoint to_dec (fuel : nat) (z : Z) : bytes :=
  match fuel with
  | O => []
  | S fuel => if (z <? 10)%Z then [digit z] else to_dec fuel (z / 10) ++ [digit (z mod 10)%Z]
  end.

(** The value of a sequence of decimal digits. *)
Definition of_dec (s : bytes) : Z := foldl (fun z b => 10 * z + (u8 b - 48))%Z 0%Z s.

Lemma digit_value z : (0 <= z < 10)%Z -> u8 (digit z) = (48 + z)%Z.
Proof. intros. unfold digit. rewrite u8_of_u8, Z.mod_small; lia. Qed.

Lemma digit_is_digit z : (0 <= z < 10)%Z -> is_digit (digit z) = true.
Proof. intros. unfold is_digit. rewrite digit_value by done. lia. Qed.

Lemma to_dec_digits fuel z : (0 <= z)%Z -> Forall (fun b => is_digit b = true) (to_dec fuel z).
Proof.
  revert z. induction fuel as [|fuel IH]; intros z Hz; simpl; [by constructor|].
  destruct (Z.ltb_spec z 10).
  - constructor; [by apply digit_is_digit | constructor].
  - apply Forall_app. split; [apply IH, Z.div_pos; lia|]. constructor; [|constructor].
    apply digit_is_digit, Z.mod_pos_bound. lia.
Qed.

Lemma to_dec_nonempty fuel z : fuel <> 0 -> to_dec fuel z <> [].
Proof. destruct fuel; [done|]. intros _. simpl. destruct (z <? 10)%Z; [done|]. by destruct to_dec. Qed.

Lemma of_to_dec fuel z : (0 <= z < 10 ^ Z.of_nat fuel)%Z -> of_dec (to_dec fuel z) = z.
Proof.
  revert z. induction fuel as [|fuel IH]; intros z Hz; simpl to_dec; [cbn in *; lia|].
  destruct (Z.ltb_spec z 10).
  - unfold of_dec. cbn [foldl]. rewrite digit_value; lia.
  - rewrite Nat2Z.inj_succ, Z.pow_succ_r in Hz by lia.
    unfold of_dec in *. rewrite foldl_app, IH.
    + cbn [foldl]. rewrite digit_value by (apply Z.mod_pos_bound; lia).
      pose proof (Z.div_mod z 10). lia.
    + split; [apply Z.div_pos; lia|]. apply Z.div_lt_upper_bound; lia.
Qed.
