(* ===== verification/StdMap.v ===== *)
(** * [std::map] with string keys, and the objects of [nlohmann::json]

    Both are kept in the order of their keys, which the code that walks over
    them depends on: they are association lists, sorted by [bytes_ltb]. *)

From S2P Require Import Prelude.
From Stdlib Require Import Sorting.Sorted.

(** The order of [std::string]. *)
Fixpoint bytes_ltb (a b : bytes) : bool :=
  match a, b with
  | [], [] => false
  | [], _ :: _ => true
  | _ :: _, [] => false
  | x :: a, y :: b => if (u8 x <? u8 y)%Z then true
                      else if (u8 y <? u8 x)%Z then false else bytes_ltb a b
  end.

(** [object[key] = v]. *)
Fixpoint object_set {J} (l : list (bytes * J)) (key : bytes) (v : J) : list (bytes * J) :=
  match l with
  | [] => [(key, v)]
  | (k, w) :: l' => if bytes_ltb key k then (key, v) :: l
                    else if bytes_ltb k key then (k, w) :: object_set l' key v
                    else (k, v) :: l'
  end.

(** [contains] and [operator[]] of an object. *)
Fixpoint object_get {J} (l : list (bytes * J)) (key : bytes) : option J :=
  match l with
  | [] => None
  | (k, v) :: l => if decide (k = key) then Some v else object_get l key
  end.

(** Assigning a list of members, in order. *)
Definition set_all {J} (o : list (bytes * J)) (kvs : list (bytes * J)) : list (bytes * J) :=
  foldl (fun o kv => object_set o kv.1 kv.2) o kvs.

(** [erase]. *)
Definition object_erase {J} (l : list (bytes * J)) (key : bytes) : list (bytes * J) :=
  base.filter (fun kv => kv.1 <> key) l.

(** ** Objects as ordered maps *)

Section objects.

Context {J : Type}.
Implicit Types (l : list (bytes * J)).

Lemma bytes_ltb_irrefl a : bytes_ltb a a = false.
Proof. induction a as [|x a IH]; cbn; [done|]. by rewrite Z.ltb_irrefl. Qed.

Lemma bytes_ltb_antisym a b : bytes_ltb a b = false -> bytes_ltb b a = false -> a = b.
Proof.
  revert b. induction a as [|x a IH]; intros [|y b]; cbn; try done.
  destruct (Z.ltb_spec (u8 x) (u8 y)), (Z.ltb_spec (u8 y) (u8 x)); try done.
  intros Ha Hb. assert (u8 x = u8 y) as ->%u8_inj by lia. by rewrite (IH b).
Qed.

Lemma bytes_ltb_trans a b c : bytes_ltb a b = true -> bytes_ltb b c = true -> bytes_ltb a c = true.
Proof.
  revert b c. induction a as [|x a IH]; intros [|y b] [|z c]; cbn; try done.
  destruct (Z.ltb_spec (u8 x) (u8 y)), (Z.ltb_spec (u8 y) (u8 x)), (Z.ltb_spec (u8 y) (u8 z)),
    (Z.ltb_spec (u8 z) (u8 y)), (Z.ltb_spec (u8 x) (u8 z)), (Z.ltb_spec (u8 z) (u8 x)); try lia; try done.
  apply IH.
Qed.

Lemma object_get_set l k v k' :
  object_get (object_set l k v) k' = if decide (k = k') then Some v else object_get l k'.
Proof.
  induction l as [|[k0 w] l IH]; cbn; [done|].
  destruct (bytes_ltb k k0) eqn:E1; [done|]. destruct (bytes_ltb k0 k) eqn:E2; cbn.
  - rewrite IH. destruct (decide (k = k')) as [<-|]; [|done].
    rewrite decide_False; [done|]. intros ->. by rewrite bytes_ltb_irrefl in E2.
  - rewrite (bytes_ltb_antisym k k0 E1 E2). by destruct (decide (k0 = k')).
Qed.

Definition key_lt (a b : bytes * J) : Prop := bytes_ltb a.1 b.1 = true.

Lemma object_set_bound l k v k0 :
  bytes_ltb k0 k = true -> Forall (fun kv => bytes_ltb k0 kv.1 = true) l ->
  Forall (fun kv => bytes_ltb k0 kv.1 = true) (object_set l k v).
Proof.
  intros Hk. induction 1 as [|[k1 w] l H1 Hl IH]; cbn; [by repeat constructor|].
  destruct (bytes_ltb k k1); [by repeat constructor|]. destruct (bytes_ltb k1 k); by constructor.
Qed.

Lemma object_set_sorted l k v : StronglySorted key_lt l -> StronglySorted key_lt (object_set l k v).
Proof.
  induction 1 as [|[k0 w] l Hs IH Hf]; cbn; [by repeat constructor|].
  destruct (bytes_ltb k k0) eqn:E1; [|destruct (bytes_ltb k0 k) eqn:E2].
  - constructor; [by constructor|]. constructor; [done|]. eapply Forall_impl; [exact Hf|].
    intros kv. by apply bytes_ltb_trans.
  - constructor; [done|]. by apply object_set_bound.
  - by constructor.
Qed.

Lemma object_set_last l k v :
  Forall (fun kv => bytes_ltb kv.1 k = true) l -> object_set l k v = l ++ [(k, v)].
Proof.
  induction 1 as [|[k0 w] l H0 _ IH]; cbn in *; [done|].
  destruct (bytes_ltb k k0) eqn:E.
  - pose proof (bytes_ltb_trans _ _ _ E H0) as H. by rewrite bytes_ltb_irrefl in H.
  - by rewrite H0, IH.
Qed.

(** Assigning the members of an object in their order rebuilds it. *)
Lemma set_all_sorted acc l : StronglySorted key_lt (acc ++ l) -> set_all acc l = acc ++ l.
Proof.
  revert acc. induction l as [|[k v] l IH]; intros acc Hs; cbn; [by rewrite app_nil_r|].
  assert (Hacc : Forall (fun kv => bytes_ltb kv.1 k = true) acc).
  { clear IH. induction acc as [|kv acc IHa]; [constructor|]. cbn in Hs.
    apply StronglySorted_inv in Hs as [Hs Hf]. constructor; [|by apply IHa].
    rewrite Forall_app in Hf. destruct Hf as [_ Hf]. by apply Forall_cons in Hf as [? _]. }
  unfold set_all in *. rewrite object_set_last, IH by (rewrite <- ?app_assoc; done). by rewrite <- app_assoc.
Qed.

Lemma set_all_is_sorted acc l : StronglySorted key_lt acc -> StronglySorted key_lt (set_all acc l).
Proof. revert acc. induction l as [|[k v] l IH]; intros acc H; cbn; [done|]. by apply IH, object_set_sorted. Qed.

Lemma object_set_keys (P : bytes -> Prop) l k v :
  P k -> Forall (fun kv => P kv.1) l -> Forall (fun kv => P kv.1) (object_set l k v).
Proof.
  intros Hk. induction 1 as [|[k0 w] l H0 Hl IH]; cbn; [by repeat constructor|].
  destruct (bytes_ltb k k0); [by repeat constructor|]. destruct (bytes_ltb k0 k); by constructor.
Qed.

Lemma set_all_keys (P : bytes -> Prop) acc l :
  Forall (fun kv => P kv.1) acc -> Forall (fun kv => P kv.1) l -> Forall (fun kv => P kv.1) (set_all acc l).
Proof.
  intros Ha Hl. revert acc Ha. induction Hl as [|[k v] l Hk _ IH]; intros acc Ha; cbn; [done|].
  by apply IH, object_set_keys.
Qed.

Lemma object_get_erase l k k' : object_get (object_erase l k) k' = if decide (k = k') then None else object_get l k'.
Proof.
  unfold object_erase. induction l as [|[k0 w] l IH]; [cbn; by destruct (decide _)|]. rewrite filter_cons. cbn [fst].
  destruct (decide (k0 <> k)) as [Hn|Hn]; cbn [object_get]; rewrite IH.
  - destruct (decide (k0 = k')) as [->|]; [by rewrite decide_False by congruence|done].
  - apply dec_stable in Hn as ->. by destruct (decide (k = k')).
Qed.

Lemma object_erase_sorted l k : StronglySorted key_lt l -> StronglySorted key_lt (object_erase l k).
Proof.
  unfold object_erase. induction 1 as [|[k0 w] l Hs IH Hf]; [constructor|]. rewrite filter_cons.
  destruct (decide _); [|done]. constructor; [done|]. apply Forall_forall. intros x [_ Hx]%list_elem_of_filter.
  rewrite Forall_forall in Hf. by apply Hf.
Qed.

Lemma object_get_elem l k v : object_get l k = Some v -> (k, v) ∈ l.
Proof.
  induction l as [|[k0 w] l IH]; cbn; [done|]. destruct (decide (k0 = k)) as [->|].
  - intros [= ->]. apply elem_of_cons. by left.
  - intros H. apply elem_of_cons. right. by apply IH.
Qed.

(** A new key is one entry more. *)
Lemma object_set_fresh l k v : object_get l k = None -> object_set l k v ≡ₚ (k, v) :: l.
Proof.
  induction l as [|[k0 w] l IH]; cbn; [done|]. destruct (decide (k0 = k)) as [->|Hne]; [done|]. intros H.
  destruct (bytes_ltb k k0) eqn:E1; [done|]. destruct (bytes_ltb k0 k) eqn:E2.
  - rewrite IH by done. apply Permutation_swap.
  - by rewrite (bytes_ltb_antisym k k0 E1 E2) in Hne.
Qed.

Lemma object_get_none l k : object_get l k = None -> object_erase l k = l.
Proof.
  unfold object_erase. induction l as [|[k0 w] l IH]; cbn [object_get]; [done|]. rewrite filter_cons. cbn [fst].
  destruct (decide (k0 = k)) as [|Hne]; [done|]. intros H. rewrite decide_True by done. by rewrite IH.
Qed.

(** Erasing a key of a sorted map takes one entry away. *)
Lemma object_erase_one l k v : StronglySorted key_lt l -> object_get l k = Some v -> l ≡ₚ (k, v) :: object_erase l k.
Proof.
  induction 1 as [|[k0 w] l Hs IH Hf]; cbn [object_get]; [done|]. unfold object_erase. rewrite filter_cons. cbn [fst].
  destruct (decide (k0 = k)) as [->|Hne].
  - intros [= ->]. rewrite decide_False by (intros H; by apply H).
    fold (object_erase l k). rewrite object_get_none; [done|]. destruct (object_get l k) as [u|] eqn:E; [|done].
    apply object_get_elem in E. rewrite Forall_forall in Hf. apply Hf in E. unfold key_lt in E. cbn in E.
    by rewrite bytes_ltb_irrefl in E.
  - intros H. rewrite decide_True by done. fold (object_erase l k). rewrite IH at 1 by done. apply Permutation_swap.
Qed.

Lemma sorted_keys_nodup l : StronglySorted key_lt l -> NoDup (map fst l).
Proof.
  induction 1 as [|[k v] l Hs IH Hf]; cbn; constructor; [|done]. intros Hin. apply list_elem_of_fmap in Hin as ([k' v'] & -> & Hin).
  rewrite Forall_forall in Hf. apply Hf in Hin. unfold key_lt in Hin. cbn in Hin. by rewrite bytes_ltb_irrefl in Hin.
Qed.

End objects.

(** Objects with the same keys and related values. *)
Definition same_keys {J J'} (R : J -> J' -> Prop) (a : bytes * J) (b : bytes * J') : Prop :=
  a.1 = b.1 /\ R a.2 b.2.

Lemma object_set_related {J J'} (R : J -> J' -> Prop) l l' k v v' :
  R v v' -> Forall2 (same_keys R) l l' -> Forall2 (same_keys R) (object_set l k v) (object_set l' k v').
Proof.
  intros Hv. induction 1 as [|[k1 w1] [k2 w2] l l' [Hk Hw] Hl IH]; cbn in *; [by repeat constructor|]. subst k2.
  destruct (bytes_ltb k k1); [by repeat constructor|]. destruct (bytes_ltb k1 k); by repeat constructor.
Qed.

Lemma set_all_related {J J'} (R : J -> J' -> Prop) acc acc' l l' :
  Forall2 (same_keys R) acc acc' -> Forall2 (same_keys R) l l' ->
  Forall2 (same_keys R) (set_all acc l) (set_all acc' l').
Proof.
  intros Ha Hl. revert acc acc' Ha. induction Hl as [|[k v] [k' v'] l l' [Hk Hv] _ IH]; intros acc acc' Ha; cbn in *; [done|].
  subst k'. by apply IH, object_set_related.
Qed.
