(* ===== verification/Telnet.v ===== *)
(** * The telnet layer: [include/telnet_protocol.hpp]

    [Decoder] is the incremental IAC decoder, [Encoder] the frame builders and
    payload parsers, [Negotiator] the option state machine.  [Peers] puts two
    negotiators at the ends of a pair of FIFO channels, which is how the telnet
    client and server of the repository use them. *)

From S2P Require Import Prelude.

Module cmd.
Definition se : byte := xf0.
Definition nop : byte := xf1.
Definition sb : byte := xfa.
Definition will : byte := xfb.
Definition wont : byte := xfc.
Definition doo : byte := xfd.
Definition dont : byte := xfe.
Definition iac : byte := xff.
End cmd.

Module opt.
Definition echo : byte := x01.
Definition suppressGoAhead : byte := x03.
Definition terminalType : byte := x18.
Definition naws : byte := x1f.
End opt.

Definition ttypeIs : byte := x00.
Definition ttypeSend : byte := x01.
Definition CR : byte := x0d.

Definition maxSubnegotiationSize : nat := 1024.

Inductive Event :=
  | Negotiation (verb option_ : byte)
  | Subnegotiation (option_ : byte) (payload : bytes)
  | Command (code : byte).

(** ** The decoder *)

Module Decoder.

Inductive State := data | cr | iac | verb | sbOption | sbData | sbIac.

Record t := mk {
  state_ : State;
  verb_ : byte;
  sbOption_ : byte;
  sbPayload_ : bytes;
}.

Definition init : t := mk data x00 x00 [].

Definition set_state (s : State) (d : t) : t :=
  mk s (verb_ d) (sbOption_ d) (sbPayload_ d).

(** What a call of [feed] updates: the decoder, the application bytes and the
    events appended so far. *)
Record io := mkIo { dec : t; out : bytes; events : list Event }.

Definition dataByte (c : byte) (s : io) : io :=
  if decide (c = cmd.iac) then mkIo (set_state iac (dec s)) (out s) (events s)
  else mkIo (set_state (if decide (c = CR) then cr else data) (dec s))
            (out s ++ [c]) (events s).

Definition onIac (c : byte) (s : io) : io :=
  let d := dec s in
  if decide (c = cmd.iac) then
    mkIo (set_state data d) (out s ++ [cmd.iac]) (events s)
  else if ((u8 cmd.will <=? u8 c) && (u8 c <=? u8 cmd.dont))%Z then
    mkIo (mk verb c (sbOption_ d) (sbPayload_ d)) (out s) (events s)
  else if decide (c = cmd.sb) then
    mkIo (set_state sbOption d) (out s) (events s)
  else mkIo (set_state data d) (out s) (events s ++ [Command c]).

Definition sbPush (c : byte) (d : t) : t :=
  mk (state_ d) (verb_ d) (sbOption_ d)
     (push_bounded maxSubnegotiationSize (sbPayload_ d) c).

Definition step (s : io) (c : byte) : io :=
  let d := dec s in
  match state_ d with
  | data => dataByte c s
  | cr => if decide (c = x00) then mkIo (set_state data d) (out s) (events s)
          else dataByte c s
  | iac => onIac c s
  | verb => mkIo (set_state data d) (out s) (events s ++ [Negotiation (verb_ d) c])
  | sbOption => mkIo (mk sbData (verb_ d) c []) (out s) (events s)
  | sbData => if decide (c = cmd.iac) then mkIo (set_state sbIac d) (out s) (events s)
              else mkIo (sbPush c d) (out s) (events s)
  | sbIac =>
      if decide (c = cmd.se) then
        mkIo (mk data (verb_ d) (sbOption_ d) []) (out s)
             (events s ++ [Subnegotiation (sbOption_ d) (sbPayload_ d)])
      else if decide (c = cmd.iac) then
        mkIo (set_state sbData (sbPush c d)) (out s) (events s)
      else mkIo (mk data (verb_ d) (sbOption_ d) []) (out s)
                (events s ++ [Command c])
  end.

(** [feed(in, data, events)]: the new decoder, and [data] and [events] after
    the call. *)
Definition feed (inp : bytes) (s : io) : io := foldl step s inp.

End Decoder.

(** ** Encoders and payload parsers *)

Definition escapeIac (inp : bytes) : bytes :=
  foldl (fun out ch => if decide (ch = cmd.iac) then (out ++ [ch]) ++ [ch] else out ++ [ch])
        [] inp.

Definition negotiation (verb option_ : byte) : bytes := [cmd.iac; verb; option_].

Definition subnegotiation (option_ : byte) (payload : bytes) : bytes :=
  (([cmd.iac; cmd.sb; option_] ++ escapeIac payload) ++ [cmd.iac]) ++ [cmd.se].

(** [width] and [height] are [uint16_t]. *)
Definition nawsFrame (width height : Z) : bytes :=
  subnegotiation opt.naws
    [of_u8 (Z.shiftr width 8); of_u8 (Z.land width 255);
     of_u8 (Z.shiftr height 8); of_u8 (Z.land height 255)].

Definition parseNaws (payload : bytes) : option (Z * Z) :=
  match payload with
  | [b0; b1; b2; b3] =>
      Some (wrapu 16 (Z.lor (Z.shiftl (u8 b0) 8) (u8 b1)),
            wrapu 16 (Z.lor (Z.shiftl (u8 b2) 8) (u8 b3)))
  | _ => None
  end.

Definition terminalTypeSendFrame : bytes := subnegotiation opt.terminalType [ttypeSend].

Definition terminalTypeIsFrame (name : bytes) : bytes :=
  subnegotiation opt.terminalType ([ttypeIs] ++ name).

Definition parseTerminalTypeIs (payload : bytes) : option bytes :=
  match payload with
  | [] => None
  | b :: rest => if decide (b = ttypeIs) then Some rest else None
  end.

(** ** Option negotiation *)

Record OptionState := mkOpt { enabled : bool; pending : bool }.

Definition optInit : OptionState := mkOpt false false.

Record Policy := mkPolicy { local : byte -> bool; remote : byte -> bool }.

(** [std::array<OptionState, 256>] indexed by [uint8_t]: a total function. *)
Record Negotiator := mkNeg {
  policy_ : Policy;
  us_ : byte -> OptionState;
  him_ : byte -> OptionState;
}.

Module Negotiator.

Definition init (p : Policy) : Negotiator := mkNeg p (fun _ => optInit) (fun _ => optInit).

Definition requestEnable (s : OptionState) (verb option_ : byte) : OptionState * bytes :=
  if enabled s || pending s then (s, [])
  else (mkOpt (enabled s) true, negotiation verb option_).

Definition requestDisable (s : OptionState) (verb option_ : byte) : OptionState * bytes :=
  if negb (enabled s) && negb (pending s) then (s, [])
  else (mkOpt false false, negotiation verb option_).

Definition onEnable (s : OptionState) (accepted : bool)
    (acceptVerb refuseVerb option_ : byte) : OptionState * bytes :=
  if pending s then (mkOpt true false, [])
  else if negb accepted then (s, negotiation refuseVerb option_)
  else if enabled s then (s, [])
  else (mkOpt true (pending s), negotiation acceptVerb option_).

Definition onDisable (s : OptionState) (verb option_ : byte) : OptionState * bytes :=
  if enabled s then (mkOpt false (pending s), negotiation verb option_)
  else (mkOpt (enabled s) false, []).

Definition on_us (n : Negotiator) (o : byte) (r : OptionState * bytes) : Negotiator * bytes :=
  (mkNeg (policy_ n) (<[o := r.1]> (us_ n)) (him_ n), r.2).

Definition on_him (n : Negotiator) (o : byte) (r : OptionState * bytes) : Negotiator * bytes :=
  (mkNeg (policy_ n) (us_ n) (<[o := r.1]> (him_ n)), r.2).

Definition request (n : Negotiator) (verb o : byte) : Negotiator * bytes :=
  if decide (verb = cmd.will) then on_us n o (requestEnable (us_ n o) cmd.will o)
  else if decide (verb = cmd.wont) then on_us n o (requestDisable (us_ n o) cmd.wont o)
  else if decide (verb = cmd.doo) then on_him n o (requestEnable (him_ n o) cmd.doo o)
  else if decide (verb = cmd.dont) then on_him n o (requestDisable (him_ n o) cmd.dont o)
  else (n, []).

Definition handle (n : Negotiator) (verb o : byte) : Negotiator * bytes :=
  if decide (verb = cmd.doo) then
    on_us n o (onEnable (us_ n o) (local (policy_ n) o) cmd.will cmd.wont o)
  else if decide (verb = cmd.dont) then on_us n o (onDisable (us_ n o) cmd.wont o)
  else if decide (verb = cmd.will) then
    on_him n o (onEnable (him_ n o) (remote (policy_ n) o) cmd.doo cmd.dont o)
  else if decide (verb = cmd.wont) then on_him n o (onDisable (him_ n o) cmd.dont o)
  else (n, []).

Definition localEnabled (n : Negotiator) (o : byte) : bool := enabled (us_ n o).
Definition remoteEnabled (n : Negotiator) (o : byte) : bool := enabled (him_ n o).

End Negotiator.

(** ** Two negotiators connected by FIFO channels

    [deliver] is what an endpoint does with one received frame: decode it, hand
    every [Negotiation] event to the negotiator and queue the non-empty reply. *)

Module Peers.

Definition deliver_event (acc : Negotiator * list bytes) (e : Event) : Negotiator * list bytes :=
  match e with
  | Negotiation v o =>
      let '(n, reply) := Negotiator.handle acc.1 v o in
      (n, if decide (reply = []) then acc.2 else acc.2 ++ [reply])
  | _ => acc
  end.

Definition deliver (n : Negotiator) (frame : bytes) : Negotiator * list bytes :=
  foldl deliver_event (n, [])
    (Decoder.events (Decoder.feed frame (Decoder.mkIo Decoder.init [] []))).

Record t := mk { nodeA : Negotiator; nodeB : Negotiator; toA : list bytes; toB : list bytes }.

Inductive step : t -> t -> Prop :=
  | step_A a b f qa qb a' out :
      deliver a f = (a', out) -> step (mk a b (f :: qa) qb) (mk a' b qa (qb ++ out))
  | step_B a b f qa qb b' out :
      deliver b f = (b', out) -> step (mk a b qa (f :: qb)) (mk a b' (qa ++ out) qb).

Definition quiescent (s : t) : Prop := toA s = [] /\ toB s = [].

Definition send (r : Negotiator * bytes) : Negotiator * list bytes :=
  (r.1, if decide (r.2 = []) then [] else [r.2]).

(** Endpoint A issues [request(verb, o)]. *)
Definition requestA (s : t) (verb o : byte) : t :=
  let '(a, out) := send (Negotiator.request (nodeA s) verb o) in
  mk a (nodeB s) (toA s) (toB s ++ out).

(** One scheduler: deliver to B while something is queued for it, then to A. *)
Fixpoint run (fuel : nat) (s : t) : t :=
  match fuel with
  | 0 => s
  | S fuel =>
      match toB s, toA s with
      | f :: qb, qa => let '(b, out) := deliver (nodeB s) f in run fuel (mk (nodeA s) b (qa ++ out) qb)
      | [], f :: qa => let '(a, out) := deliver (nodeA s) f in run fuel (mk a (nodeB s) qa out)
      | [], [] => s
      end
  end.

End Peers.

(** ** Facts about the decoder *)

Section decoder_facts.

Import Decoder.

Lemma feed_app a b s : feed (a ++ b) s = feed b (feed a s).
Proof. apply foldl_app. Qed.

Lemma feed_cons c a s : feed (c :: a) s = feed a (step s c).
Proof. done. Qed.

(** Feeding the pieces one after the other is feeding their concatenation. *)
Lemma feed_concat chunks s : foldl (fun s c => feed c s) s chunks = feed (concat chunks) s.
Proof.
  revert s. induction chunks as [|c chunks IH]; intros s; simpl; [done|].
  by rewrite IH, feed_app.
Qed.

Definition esc1 (c : byte) : bytes := if decide (c = cmd.iac) then [c; c] else [c].

Lemma escapeIac_concat p : escapeIac p = concat (esc1 <$> p).
Proof.
  unfold escapeIac.
  enough (forall acc, foldl (fun out ch => if decide (ch = cmd.iac) then (out ++ [ch]) ++ [ch]
                                else out ++ [ch]) acc p = acc ++ concat (esc1 <$> p)) as H
    by apply H.
  induction p as [|c p IH]; intros acc; simpl; [by rewrite app_nil_r|].
  rewrite IH. unfold esc1. case_decide; by rewrite <- !app_assoc.
Qed.

(** Reference for application data: the NUL that follows a CR is dropped. *)
Fixpoint cr_nul_strip (after_cr : bool) (p : bytes) : bytes :=
  match p with
  | [] => []
  | c :: p =>
      if after_cr && bool_decide (c = x00) then cr_nul_strip false p
      else c :: cr_nul_strip (bool_decide (c = CR)) p
  end.

(** The decoder is between commands: it expects application data. *)
Definition in_data (d : t) : bool :=
  match state_ d with data | cr => true | _ => false end.

Definition is_cr (d : t) : bool :=
  match state_ d with cr => true | _ => false end.

Lemma feed_escaped p d o ev :
  in_data d = true ->
  exists st, in_data (set_state st d) = true /\
    feed (escapeIac p) (mkIo d o ev) =
    mkIo (set_state st d) (o ++ cr_nul_strip (is_cr d) p) ev.
Proof.
  rewrite escapeIac_concat. revert d o. induction p as [|c p IH]; intros d o Hd.
  { exists (state_ d). rewrite app_nil_r. destruct d; done. }
  rewrite fmap_cons. cbn [concat]. rewrite feed_app.
  assert (exists st, in_data (set_state st d) = true /\
    is_cr (set_state st d) = (if is_cr d && bool_decide (c = x00) then false else bool_decide (c = CR)) /\
    feed (esc1 c) (mkIo d o ev) =
    mkIo (set_state st d) (o ++ if is_cr d && bool_decide (c = x00) then [] else [c]) ev)
    as (st & Hst & Hcr & ->).
  { destruct d as [[] v so sp]; try done; unfold esc1; case_decide as Hc; subst;
      unfold feed, step, dataByte; cbn -[decide]; repeat case_bool_decide; repeat case_decide;
      subst; try done; rewrite ?app_nil_r; refine (ex_intro _ _ (conj _ (conj _ eq_refl))); done. }
  destruct (IH _ (o ++ if is_cr d && bool_decide (c = x00) then [] else [c]) Hst)
    as (st' & Hst' & ->).
  exists st'. split; [done|].
  rewrite Hcr, <- app_assoc. simpl cr_nul_strip.
  by destruct (is_cr d && bool_decide (c = x00)).
Qed.

Lemma feed_sb_payload p d o ev :
  state_ d = sbData -> length (sbPayload_ d) <= maxSubnegotiationSize ->
  feed (escapeIac p) (mkIo d o ev) =
  mkIo (mk sbData (verb_ d) (sbOption_ d) (take maxSubnegotiationSize (sbPayload_ d ++ p))) o ev.
Proof.
  intros Hs Hl. rewrite <- foldl_push_bounded by done. clear Hl.
  rewrite escapeIac_concat. revert d Hs. induction p as [|c p IH]; intros [st v so sp]; simpl.
  { by intros ->. }
  intros ->. rewrite feed_app.
  assert (feed (esc1 c) (mkIo (mk sbData v so sp) o ev) =
          mkIo (sbPush c (mk sbData v so sp)) o ev) as ->.
  { unfold esc1. case_decide; subst; unfold feed, step; cbn -[decide push_bounded];
      rewrite ?decide_False by done; done. }
  by rewrite IH.
Qed.

Lemma feed_subnegotiation opt p d o ev :
  in_data d = true ->
  feed (subnegotiation opt p) (mkIo d o ev) =
  mkIo (mk data (verb_ d) opt []) o
       (ev ++ [Subnegotiation opt (take maxSubnegotiationSize p)]).
Proof.
  intros Hd. unfold subnegotiation. rewrite !feed_app.
  assert (feed [cmd.iac; cmd.sb; opt] (mkIo d o ev) = mkIo (mk sbData (verb_ d) opt []) o ev) as ->
    by (by destruct d as [[] ???]).
  by rewrite feed_sb_payload by (done || (simpl; lia)).
Qed.

Definition is_verb (v : byte) : Prop :=
  v = cmd.will \/ v = cmd.wont \/ v = cmd.doo \/ v = cmd.dont.

Lemma feed_negotiation v opt d o ev :
  is_verb v -> in_data d = true ->
  feed (negotiation v opt) (mkIo d o ev) =
  mkIo (mk data v (sbOption_ d) (sbPayload_ d)) o (ev ++ [Negotiation v opt]).
Proof. intros Hv Hd. destruct d as [[] ???], Hv as [->|[->|[->| ->]]]; done. Qed.

End decoder_facts.

(** ** Whole streams: application data interleaved with commands *)

Section streams.

Import Decoder.

(** The bytes that put an event on the wire.  The repository has no encoder for
    a bare command, which is [IAC code]. *)
Definition encode_event (e : Event) : bytes :=
  match e with
  | Negotiation v o => negotiation v o
  | Subnegotiation o p => subnegotiation o p
  | Command c => [cmd.iac; c]
  end.

Definition wf_event (e : Event) : Prop :=
  match e with
  | Negotiation v _ => is_verb v
  | Subnegotiation _ _ => True
  | Command c => ~ is_verb c /\ c <> cmd.iac /\ c <> cmd.sb
  end.

#[export] Instance is_verb_dec v : Decision (is_verb v).
Proof. unfold is_verb. apply _. Defined.

#[export] Instance wf_event_dec e : Decision (wf_event e).
Proof. destruct e; simpl; apply _. Defined.

(** What arrives: a payload over the limit is cut to its first 1024 bytes. *)
Definition clip_event (e : Event) : Event :=
  match e with
  | Subnegotiation o p => Subnegotiation o (take maxSubnegotiationSize p)
  | e => e
  end.

Definition encode_stream (items : list (bytes * Event)) (tail : bytes) : bytes :=
  concat ((fun it => escapeIac it.1 ++ encode_event it.2) <$> items) ++ escapeIac tail.

Definition is_verb_code (c : byte) : bool :=
  ((u8 cmd.will <=? u8 c) && (u8 c <=? u8 cmd.dont))%Z.

Lemma is_verb_code_spec c : is_verb_code c = true <-> is_verb c.
Proof.
  unfold is_verb_code, is_verb. rewrite <- !u8_eq_iff, andb_true_iff, !Z.leb_le.
  change (u8 cmd.will) with 251%Z. change (u8 cmd.wont) with 252%Z.
  change (u8 cmd.doo) with 253%Z. change (u8 cmd.dont) with 254%Z. lia.
Qed.

Lemma feed_event e d o ev :
  wf_event e -> in_data d = true ->
  exists d', state_ d' = data /\
    feed (encode_event e) (mkIo d o ev) = mkIo d' o (ev ++ [clip_event e]).
Proof.
  destruct e as [v opt|opt p|c]; cbn [wf_event encode_event clip_event]; intros He Hd.
  - rewrite feed_negotiation by done. by exists_eq.
  - rewrite feed_subnegotiation by done. by exists_eq.
  - destruct He as (Hv & Hi & Hs). rewrite <- is_verb_code_spec in Hv.
    exists (set_state data d). split; [done|].
    transitivity (onIac c (mkIo (set_state iac d) o ev)); [by destruct d as [[] ???]|].
    unfold onIac. rewrite decide_False by done. fold (is_verb_code c).
    rewrite (Bool.not_true_is_false _ Hv), decide_False by done. done.
Qed.

Lemma feed_stream items tail d o ev :
  Forall (fun it => wf_event it.2) items -> state_ d = data ->
  exists d', in_data d' = true /\
    feed (encode_stream items tail) (mkIo d o ev) =
    mkIo d' (o ++ concat ((fun it => cr_nul_strip false it.1) <$> items) ++ cr_nul_strip false tail)
         (ev ++ ((fun it => clip_event it.2) <$> items)).
Proof.
  unfold encode_stream. intros Hwf. revert d o ev.
  induction Hwf as [|[p e] items He Hwf IH]; intros d o ev Hd.
  all: assert (in_data d = true /\ is_cr d = false) as [Hin Hcr]
         by (by unfold in_data, is_cr; rewrite Hd).
  - simpl. destruct (feed_escaped tail d o ev Hin) as (st & Hst & ->).
    exists (set_state st d). by rewrite Hcr, app_nil_r.
  - rewrite !fmap_cons. cbn [concat fst snd]. rewrite <- !app_assoc, !feed_app.
    destruct (feed_escaped p d o ev Hin) as (st & Hst & ->). rewrite Hcr.
    destruct (feed_event e (set_state st d) (o ++ cr_nul_strip false p) ev He Hst)
      as (d' & Hd' & ->).
    rewrite <- feed_app. destruct (IH d' (o ++ cr_nul_strip false p) (ev ++ [clip_event e]) Hd')
      as (d'' & Hd'' & ->).
    exists d''. split; [done|]. by rewrite <- !app_assoc.
Qed.

Lemma cr_nul_strip_id b p :
  (forall i, p !! i = Some CR -> p !! S i <> Some x00) ->
  (b = true -> p !! 0 <> Some x00) ->
  cr_nul_strip b p = p.
Proof.
  revert b. induction p as [|c p IH]; intros b Hcr Hb; [done|]. simpl.
  destruct (b && bool_decide (c = x00)) eqn:E.
  { apply andb_true_iff in E as [-> ->%bool_decide_eq_true_1]. by destruct (Hb eq_refl). }
  f_equal. apply IH.
  - intros i. apply (Hcr (S i)).
  - intros ->%bool_decide_eq_true_1. by apply (Hcr 0).
Qed.

End streams.

(** ** Correctness of the decoder *)

(** C6: a telnet stream that interleaves application data and commands, split
    into arbitrary read chunks, decodes to exactly its events in order (payloads
    over 1024 bytes cut) and to its data with the NUL after each CR removed; the
    decoder is then ready for more data. *)
Theorem decode_stream (items : list (bytes * Event)) (tail : bytes) (chunks : list bytes) :
  Forall (fun it => wf_event it.2) items ->
  concat chunks = encode_stream items tail ->
  exists d, in_data d = true /\
    foldl (fun s c => Decoder.feed c s) (Decoder.mkIo Decoder.init [] []) chunks =
    Decoder.mkIo d
      (concat ((fun it => cr_nul_strip false it.1) <$> items) ++ cr_nul_strip false tail)
      ((fun it => clip_event it.2) <$> items).
Proof.
  intros Hwf Hc. rewrite feed_concat, Hc.
  exact (feed_stream items tail Decoder.init [] [] Hwf eq_refl).
Qed.

Lemma decode_stream_witness :
  exists d, in_data d = true /\
    foldl (fun s c => Decoder.feed c s) (Decoder.mkIo Decoder.init [] [])
      [[x61; xff; xff; xff]; [xfb; x01; x0d; x00]; [x62]] =
    Decoder.mkIo d [x61; xff; x0d; x62] [Negotiation cmd.will opt.echo].
Proof.
  apply (decode_stream [([x61; xff], Negotiation cmd.will opt.echo)] [x0d; x00; x62]
           [[x61; xff; xff; xff]; [xfb; x01; x0d; x00]; [x62]]).
  - repeat constructor.
  - vm_compute. reflexivity.
Defined.

(** Bytes sent through [escapeIac] survive the telnet layer unchanged in any
    chunking, and produce no event, provided no CR is followed by a NUL. *)
Theorem escapeIac_roundtrip (p : bytes) (chunks : list bytes) :
  (forall i, p !! i = Some CR -> p !! S i <> Some x00) ->
  concat chunks = escapeIac p ->
  exists d, in_data d = true /\
    foldl (fun s c => Decoder.feed c s) (Decoder.mkIo Decoder.init [] []) chunks =
    Decoder.mkIo d p [].
Proof.
  intros Hp Hc. rewrite feed_concat, Hc.
  destruct (feed_escaped p Decoder.init [] [] eq_refl) as (st & Hst & ->).
  eexists. split; [exact Hst|]. f_equal. by apply cr_nul_strip_id.
Qed.

Lemma escapeIac_roundtrip_witness :
  exists d, in_data d = true /\
    foldl (fun s c => Decoder.feed c s) (Decoder.mkIo Decoder.init [] []) [[x0d; xff]; [xff; x00]] =
    Decoder.mkIo d [x0d; xff; x00] [].
Proof.
  apply (escapeIac_roundtrip [x0d; xff; x00] [[x0d; xff]; [xff; x00]]).
  - intros [|[|[|i]]] Hi; (discriminate Hi || discriminate).
  - vm_compute. reflexivity.
Defined.

(** The proviso of the previous theorem is needed: [escapeIac] leaves CR NUL as
    it is and the decoder drops the NUL. *)
Lemma escapeIac_drops_nul :
  Decoder.out (Decoder.feed (escapeIac [CR; x00]) (Decoder.mkIo Decoder.init [] [])) = [CR].
Proof. reflexivity. Qed.

(** ** Payload limits *)

Section limits.

Import Decoder.

Definition wf_decoder (d : t) : Prop := length (sbPayload_ d) <= maxSubnegotiationSize.

Definition small_event (e : Event) : Prop :=
  match e with Subnegotiation _ p => length p <= maxSubnegotiationSize | _ => True end.

Definition wf_io (s : io) : Prop := wf_decoder (dec s) /\ Forall small_event (events s).

Lemma step_wf s c : wf_io s -> wf_io (step s c).
Proof.
  unfold wf_io, wf_decoder. destruct s as [[st v so sp] o ev]. simpl. intros [Hd He].
  assert (0 <= maxSubnegotiationSize) by lia.
  destruct st; unfold step, dataByte, onIac; simpl; repeat case_decide; repeat case_match;
    simpl; rewrite ?Forall_app, ?Forall_singleton; split_and?; try exact I;
    auto using push_bounded_length.
Qed.

End limits.

(** Whatever the peer sends, the decoder never buffers more than 1024 bytes
    of subnegotiation payload and never reports an event with a longer payload. *)
Theorem feed_bounded (inp : bytes) (s : Decoder.io) :
  wf_io s -> wf_io (Decoder.feed inp s).
Proof.
  unfold Decoder.feed. revert s. induction inp as [|c inp IH]; intros s Hs; simpl; auto using step_wf.
Qed.

Lemma feed_bounded_witness :
  wf_io (Decoder.feed (subnegotiation opt.naws (replicate 2000 x41)) (Decoder.mkIo Decoder.init [] [])).
Proof. apply feed_bounded. split; [vm_compute; lia | constructor]. Defined.

(** ** NAWS and TERMINAL-TYPE *)

Lemma feed_frame opt p :
  length p <= maxSubnegotiationSize ->
  Decoder.events (Decoder.feed (subnegotiation opt p) (Decoder.mkIo Decoder.init [] [])) =
  [Subnegotiation opt p].
Proof. intros Hp. rewrite feed_subnegotiation by done. simpl. by rewrite take_ge by done. Qed.

Lemma parseNaws_bytes w h :
  is_uint 16 w -> is_uint 16 h ->
  parseNaws [of_u8 (Z.shiftr w 8); of_u8 (Z.land w 255);
             of_u8 (Z.shiftr h 8); of_u8 (Z.land h 255)] = Some (w, h).
Proof.
  intros Hw Hh. unfold parseNaws. rewrite !u8_of_u8.
  assert (forall z, is_uint 16 z ->
    wrapu 16 (Z.lor (Z.shiftl (Z.shiftr z 8 mod 256) 8) (Z.land z 255 mod 256)) = z) as E.
  { intros z Hz. unfold is_uint in Hz.
    rewrite (Z.mod_small (Z.shiftr z 8)) by (rewrite Z.shiftr_div_pow2 by lia; split;
      [apply Z.div_pos; lia | apply Z.div_lt_upper_bound; lia]).
    assert (Z.land z 255 = z mod 256)%Z as Hl by (apply (Z.land_ones z 8); lia).
    rewrite Hl at 1. rewrite Z.mod_mod by lia. rewrite <- Hl, be16_split by done.
    by apply wrapu_small. }
  by rewrite !E.
Qed.

(** The window size that [nawsFrame] encodes is what the peer's decoder and
    [parseNaws] read back, for every pair of 16-bit dimensions. *)
Theorem naws_roundtrip (width height : Z) :
  is_uint 16 width -> is_uint 16 height ->
  exists payload,
    Decoder.events (Decoder.feed (nawsFrame width height) (Decoder.mkIo Decoder.init [] [])) =
      [Subnegotiation opt.naws payload] /\
    parseNaws payload = Some (width, height).
Proof.
  intros Hw Hh. eexists. split; [apply feed_frame; simpl; unfold maxSubnegotiationSize; lia|].
  by apply parseNaws_bytes.
Qed.

Lemma naws_roundtrip_witness :
  exists payload,
    Decoder.events (Decoder.feed (nawsFrame 255 65535) (Decoder.mkIo Decoder.init [] [])) =
      [Subnegotiation opt.naws payload] /\
    parseNaws payload = Some (255, 65535)%Z.
Proof. apply (naws_roundtrip 255 65535); unfold is_uint; lia. Defined.

(** The terminal name that [terminalTypeIsFrame] encodes is what the peer
    reads back, up to the 1023 name bytes the payload limit leaves room for. *)
Theorem terminal_type_roundtrip (name : bytes) :
  exists payload,
    Decoder.events (Decoder.feed (terminalTypeIsFrame name) (Decoder.mkIo Decoder.init [] [])) =
      [Subnegotiation opt.terminalType payload] /\
    parseTerminalTypeIs payload = Some (take 1023 name).
Proof.
  eexists. unfold terminalTypeIsFrame. rewrite feed_subnegotiation by done. by split.
Qed.

(** A [SEND] request is not mistaken for an [IS] answer. *)
Lemma terminal_type_send_not_is :
  exists payload,
    Decoder.events (Decoder.feed terminalTypeSendFrame (Decoder.mkIo Decoder.init [] [])) =
      [Subnegotiation opt.terminalType payload] /\ parseTerminalTypeIs payload = None.
Proof. eexists. split; reflexivity. Qed.

(** ** The option state machine *)

Section negotiator_facts.

Import Negotiator.

(** An option is never both in force and awaiting an answer. *)
Definition exclusive (s : OptionState) : Prop := enabled s && pending s = false.

Definition wf_negotiator (n : Negotiator) : Prop :=
  forall o, exclusive (us_ n o) /\ exclusive (him_ n o).

Lemma requestEnable_exclusive s v o : exclusive s -> exclusive (requestEnable s v o).1.
Proof. by destruct s as [[] []]. Qed.

Lemma requestDisable_exclusive s v o : exclusive s -> exclusive (requestDisable s v o).1.
Proof. by destruct s as [[] []]. Qed.

Lemma onEnable_exclusive s a v w o : exclusive s -> exclusive (onEnable s a v w o).1.
Proof. by destruct s as [[] []], a. Qed.

Lemma onDisable_exclusive s v o : exclusive s -> exclusive (onDisable s v o).1.
Proof. by destruct s as [[] []]. Qed.

Lemma on_us_wf n o r : wf_negotiator n -> exclusive r.1 -> wf_negotiator (on_us n o r).1.
Proof.
  intros Hn Hr o'. simpl. destruct (decide (o = o')) as [<-|Hne].
  - rewrite fn_lookup_insert. split; [done | apply Hn].
  - rewrite fn_lookup_insert_ne by done. apply Hn.
Qed.

Lemma on_him_wf n o r : wf_negotiator n -> exclusive r.1 -> wf_negotiator (on_him n o r).1.
Proof.
  intros Hn Hr o'. simpl. destruct (decide (o = o')) as [<-|Hne].
  - rewrite fn_lookup_insert. split; [apply Hn | done].
  - rewrite fn_lookup_insert_ne by done. apply Hn.
Qed.

#[local] Hint Resolve requestEnable_exclusive requestDisable_exclusive onEnable_exclusive
  onDisable_exclusive on_us_wf on_him_wf : coro.

Lemma request_wf n v o : wf_negotiator n -> wf_negotiator (request n v o).1.
Proof. intros Hn. pose proof (Hn o) as [??]. unfold request. repeat case_decide; auto with coro. Qed.

Lemma handle_wf n v o : wf_negotiator n -> wf_negotiator (handle n v o).1.
Proof. intros Hn. pose proof (Hn o) as [??]. unfold handle. repeat case_decide; auto with coro. Qed.

(** Everything an endpoint can do to its negotiator. *)
Inductive Op := Request (verb o : byte) | Handle (verb o : byte).

Definition apply_op (n : Negotiator) (op : Op) : Negotiator :=
  match op with
  | Request v o => (request n v o).1
  | Handle v o => (handle n v o).1
  end.

Definition exec (p : Policy) (ops : list Op) : Negotiator := foldl apply_op (init p) ops.

Lemma exec_snoc p ops op : exec p (ops ++ [op]) = apply_op (exec p ops) op.
Proof. apply foldl_snoc. Qed.

Lemma handle_policy n v o : policy_ (handle n v o).1 = policy_ n.
Proof. unfold handle. repeat case_decide; done. Qed.

Lemma request_policy n v o : policy_ (request n v o).1 = policy_ n.
Proof. unfold request. repeat case_decide; done. Qed.

Lemma exec_policy p ops : policy_ (exec p ops) = p.
Proof.
  induction ops as [|op ops IH] using rev_ind; [done|].
  rewrite exec_snoc. destruct op; simpl; by rewrite ?request_policy, ?handle_policy.
Qed.

(** How one operation moves the state of one option. *)
Lemma us_request n v o o' :
  us_ (request n v o).1 o' = us_ n o' \/
  (o = o' /\ v = cmd.will /\ us_ (request n v o).1 o' = (requestEnable (us_ n o) cmd.will o).1) \/
  (o = o' /\ us_ (request n v o).1 o' = (requestDisable (us_ n o) cmd.wont o).1).
Proof.
  unfold request. repeat case_decide; simpl; auto;
    (destruct (decide (o = o')) as [<-|]; [rewrite !fn_lookup_insert | rewrite !fn_lookup_insert_ne by done]);
    auto.
Qed.

Lemma us_handle n v o o' :
  us_ (handle n v o).1 o' = us_ n o' \/
  (o = o' /\ us_ (handle n v o).1 o' =
    (onEnable (us_ n o) (local (policy_ n) o) cmd.will cmd.wont o).1) \/
  (o = o' /\ us_ (handle n v o).1 o' = (onDisable (us_ n o) cmd.wont o).1).
Proof.
  unfold handle. repeat case_decide; simpl; auto;
    (destruct (decide (o = o')) as [<-|]; [rewrite !fn_lookup_insert | rewrite !fn_lookup_insert_ne by done]);
    auto.
Qed.

(** Nothing happened to an option we refuse and never announced. *)
Lemma us_untouched p o ops :
  local p o = false -> Forall (fun op => op <> Request cmd.will o) ops ->
  us_ (exec p ops) o = optInit.
Proof.
  intros Hp. induction ops as [|op ops IH] using rev_ind; [done|].
  rewrite Forall_app, Forall_singleton, exec_snoc. intros [Hops Hop]. specialize (IH Hops).
  destruct op as [v o'|v o']; simpl.
  - destruct (us_request (exec p ops) v o' o) as [->|[(<- & -> & _)|(<- & ->)]]; [done|done|].
    by rewrite IH.
  - destruct (us_handle (exec p ops) v o' o) as [->|[(<- & ->)|(<- & ->)]]; [done|..];
      rewrite ?exec_policy, IH; [by rewrite Hp | done].
Qed.

End negotiator_facts.

(** No sequence of local requests and peer messages, however hostile, leaves
    an option both enabled and awaiting an answer. *)
Theorem negotiator_exclusive (p : Policy) (ops : list Op) : wf_negotiator (exec p ops).
Proof.
  induction ops as [|op ops IH] using rev_ind; [by split|].
  rewrite exec_snoc. destruct op; simpl; auto using request_wf, handle_wf.
Qed.

(** An option outside the local policy is never performed, whatever the peer
    sends, unless this endpoint itself announced it with WILL. *)
Theorem local_policy_respected (p : Policy) (o : byte) (ops : list Op) :
  local p o = false -> Forall (fun op => op <> Request cmd.will o) ops ->
  Negotiator.localEnabled (exec p ops) o = false.
Proof. intros Hp Hops. unfold Negotiator.localEnabled. by rewrite us_untouched. Qed.

Lemma local_policy_respected_witness :
  Negotiator.localEnabled
    (exec (mkPolicy (fun _ => false) (fun _ => true))
       [Request cmd.doo opt.echo; Handle cmd.doo opt.echo; Handle cmd.doo opt.echo]) opt.echo = false.
Proof. apply local_policy_respected; [done | repeat constructor; discriminate]. Defined.

(** ** Two endpoints *)

Section peers_facts.

Import Negotiator Peers.

Lemma deliver_negotiation n v o :
  is_verb v -> deliver n (negotiation v o) = send (handle n v o).
Proof.
  intros Hv. unfold deliver. rewrite feed_negotiation by done. simpl.
  by destruct (handle n v o) as [n' [|b r]].
Qed.

(** The endpoints agree on option [o] as performed by B, and nobody waits. *)
Definition settled (o : byte) (e : bool) (s : Peers.t) : Prop :=
  quiescent s /\ him_ (nodeA s) o = mkOpt e false /\ us_ (nodeB s) o = mkOpt e false.

(** The endpoints agree on option [o] as performed by A, and nobody waits. *)
Definition offered (o : byte) (e : bool) (s : Peers.t) : Prop :=
  quiescent s /\ us_ (nodeA s) o = mkOpt e false /\ him_ (nodeB s) o = mkOpt e false.

Lemma run_steps fuel s : rtc step s (run fuel s).
Proof.
  revert s. induction fuel as [|fuel IH]; intros [a b qa qb]; [constructor|]. cbn [run toA toB nodeA nodeB].
  destruct qb as [|f qb].
  - destruct qa as [|f qa]; [constructor|].
    destruct (deliver a f) as [a' out] eqn:E.
    eapply rtc_l; [by apply step_A, E | apply IH].
  - destruct (deliver b f) as [b' out] eqn:E.
    eapply rtc_l; [by apply step_B, E | apply IH].
Qed.

(** The reply to DO and DONT at the performing end, and to WILL and WONT at the
    requesting end, in terms of the option state alone. *)
Definition us_result (b b' : Negotiator) (o : byte) (r : OptionState * bytes) : Prop :=
  us_ b' o = r.1 /\ him_ b' = him_ b /\ policy_ b' = policy_ b.

Definition him_result (a a' : Negotiator) (o : byte) (r : OptionState * bytes) : Prop :=
  him_ a' o = r.1 /\ us_ a' = us_ a /\ policy_ a' = policy_ a.

Definition frames (reply : bytes) : list bytes := if decide (reply = []) then [] else [reply].

Lemma frames_negotiation v o : frames (negotiation v o) = [negotiation v o].
Proof. done. Qed.

Lemma send_on_us n o r : exists n', send (on_us n o r) = (n', frames r.2) /\ us_result n n' o r.
Proof. eexists. split; [reflexivity|]. split_and!; simpl; by rewrite ?fn_lookup_insert. Qed.

Lemma send_on_him n o r : exists n', send (on_him n o r) = (n', frames r.2) /\ him_result n n' o r.
Proof. eexists. split; [reflexivity|]. split_and!; simpl; by rewrite ?fn_lookup_insert. Qed.

Lemma deliver_doo b o s p :
  us_ b o = s -> local (policy_ b) o = p ->
  let r := onEnable s p cmd.will cmd.wont o in
  exists b', deliver b (negotiation cmd.doo o) = (b', frames r.2) /\ us_result b b' o r.
Proof. intros <- <-. rewrite deliver_negotiation by (unfold is_verb; auto). apply send_on_us. Qed.

Lemma deliver_dont b o s :
  us_ b o = s ->
  let r := onDisable s cmd.wont o in
  exists b', deliver b (negotiation cmd.dont o) = (b', frames r.2) /\ us_result b b' o r.
Proof. intros <-. rewrite deliver_negotiation by (unfold is_verb; auto). apply send_on_us. Qed.

Lemma deliver_will a o s p :
  him_ a o = s -> remote (policy_ a) o = p ->
  let r := onEnable s p cmd.doo cmd.dont o in
  exists a', deliver a (negotiation cmd.will o) = (a', frames r.2) /\ him_result a a' o r.
Proof. intros <- <-. rewrite deliver_negotiation by (unfold is_verb; auto). apply send_on_him. Qed.

Lemma deliver_wont a o s :
  him_ a o = s ->
  let r := onDisable s cmd.dont o in
  exists a', deliver a (negotiation cmd.wont o) = (a', frames r.2) /\ him_result a a' o r.
Proof. intros <-. rewrite deliver_negotiation by (unfold is_verb; auto). apply send_on_him. Qed.

Lemma request_doo a o s :
  him_ a o = s ->
  let r := requestEnable s cmd.doo o in
  exists a', send (request a cmd.doo o) = (a', frames r.2) /\ him_result a a' o r.
Proof. intros <-. apply send_on_him. Qed.

Lemma request_dont a o s :
  him_ a o = s ->
  let r := requestDisable s cmd.dont o in
  exists a', send (request a cmd.dont o) = (a', frames r.2) /\ him_result a a' o r.
Proof. intros <-. apply send_on_him. Qed.

Lemma request_will a o s :
  us_ a o = s ->
  let r := requestEnable s cmd.will o in
  exists a', send (request a cmd.will o) = (a', frames r.2) /\ us_result a a' o r.
Proof. intros <-. apply send_on_us. Qed.

Lemma request_wont a o s :
  us_ a o = s ->
  let r := requestDisable s cmd.wont o in
  exists a', send (request a cmd.wont o) = (a', frames r.2) /\ us_result a a' o r.
Proof. intros <-. apply send_on_us. Qed.

End peers_facts.

(** One request or delivery of a negotiation frame whose option state is known. *)
Ltac peers_use lem :=
  let n := fresh "n" in let E := fresh "E" in let H1 := fresh "Hs" in
  let H2 := fresh "Ho" in let H3 := fresh "Hp" in
  edestruct lem as (n & E & H1 & H2 & H3);
  [eassumption || (etrans; [|eassumption]; congruence) || reflexivity .. |];
  cbn in H1; cbn -[negotiation] in E; rewrite E; clear E; rewrite ?frames_negotiation; cbn -[negotiation Peers.run Peers.requestA].

Ltac peers_run :=
  cbn [Peers.run Peers.toA Peers.toB Peers.nodeA Peers.nodeB app];
  lazymatch goal with
  | |- context [Peers.deliver _ (negotiation cmd.doo _)] => peers_use deliver_doo
  | |- context [Peers.deliver _ (negotiation cmd.dont _)] => peers_use deliver_dont
  | |- context [Peers.deliver _ (negotiation cmd.will _)] => peers_use deliver_will
  | |- context [Peers.deliver _ (negotiation cmd.wont _)] => peers_use deliver_wont
  end.

(** C12: a single request for an option that is settled, with nothing of it under
    way, dies out after at most four deliveries and leaves both ends agreeing,
    whichever of the four it is: after DO the option is on iff it was on or the
    performer's policy accepts it, after WILL iff it was on or the other end's policy
    accepts it, after DONT and WONT it is off. *)
Theorem request_agreement (s : Peers.t) (o : byte) (e : bool) :
  (settled o e s ->
   settled o (e || local (policy_ (Peers.nodeB s)) o) (Peers.run 4 (Peers.requestA s cmd.doo o)) /\
   settled o false (Peers.run 4 (Peers.requestA s cmd.dont o))) /\
  (offered o e s ->
   offered o (e || remote (policy_ (Peers.nodeB s)) o) (Peers.run 4 (Peers.requestA s cmd.will o)) /\
   offered o false (Peers.run 4 (Peers.requestA s cmd.wont o))).
Proof.
  destruct s as [a b qa qb]. split; intros ([[= ->] [= ->]] & Ha & Hb); simpl in Ha, Hb;
    unfold Peers.requestA; cbn [Peers.nodeA Peers.nodeB Peers.toA Peers.toB];
    [destruct (local (policy_ b) o) eqn:Hl|destruct (remote (policy_ b) o) eqn:Hl]; destruct e; split;
    (peers_use request_doo || peers_use request_dont || peers_use request_will || peers_use request_wont); repeat peers_run;
    split_and!; done || (by split).
Qed.

Lemma request_agreement_witness :
  let p := mkPolicy (fun _ => true) (fun _ => true) in
  let s := Peers.mk (Negotiator.init p) (Negotiator.init p) [] [] in
  settled opt.echo true (Peers.run 4 (Peers.requestA s cmd.doo opt.echo)) /\
  offered opt.echo true (Peers.run 4 (Peers.requestA s cmd.will opt.echo)).
Proof.
  destruct (request_agreement
           (Peers.mk (Negotiator.init (mkPolicy (fun _ => true) (fun _ => true)))
              (Negotiator.init (mkPolicy (fun _ => true) (fun _ => true))) [] []) opt.echo false) as [Hd Hw].
  split; [apply Hd|apply Hw]; by split_and!.
Defined.

(** ** Overlapping requests

    [chasing] lists the configurations of an enabling and a disabling exchange
    for the same option that run after each other.  It is closed under delivery
    in either direction. *)

Section chase.

Import Negotiator Peers.

Definition chasing (o : byte) (s : Peers.t) : Prop :=
  local (policy_ (nodeB s)) o = true /\ remote (policy_ (nodeA s)) o = true /\
  let DO := negotiation cmd.doo o in let DONT := negotiation cmd.dont o in
  let WILL := negotiation cmd.will o in let WONT := negotiation cmd.wont o in
  exists ea eb, him_ (nodeA s) o = mkOpt ea false /\ us_ (nodeB s) o = mkOpt eb false /\
  (toB s, toA s, ea, eb) ∈
    [([DO; DONT], [], false, false); ([DONT], [WILL], false, true);
     ([], [WILL; WONT], false, false); ([DONT; DO], [], true, true);
     ([DO], [WONT], true, false); ([], [WONT; WILL], true, true)].

Lemma chasing_in_flight o s : chasing o s -> length (toA s) + length (toB s) = 2.
Proof.
  intros (_ & _ & ea & eb & _ & _ & H).
  repeat (apply elem_of_cons in H as [H|H]; [by simplify_eq/=; destruct s; simplify_eq/=|]).
  by apply elem_of_nil in H.
Qed.

Lemma chasing_step o s s' : chasing o s -> step s s' -> chasing o s'.
Proof.
  intros (Hb & Ha & ea & eb & Hea & Heb & H) Hstep.
  rewrite !elem_of_cons, elem_of_nil in H.
  inversion Hstep as [a b f qa qb a' out Hd|a b f qa qb b' out Hd]; subst; cbn in Hb, Ha, Hea, Heb, H;
  destruct H as [H|[H|[H|[H|[H|[H|[]]]]]]]; injection H as ????; simplify_eq; revert Hd.
  all: lazymatch goal with
     | |- context [deliver _ (negotiation cmd.doo _)] => peers_use deliver_doo
     | |- context [deliver _ (negotiation cmd.dont _)] => peers_use deliver_dont
     | |- context [deliver _ (negotiation cmd.will _)] => peers_use deliver_will
     | |- context [deliver _ (negotiation cmd.wont _)] => peers_use deliver_wont
     end; intros [= <- <-].
  all: repeat split; cbn -[negotiation]; try congruence;
     do 2 eexists; split_and!; [eassumption..|]; rewrite !elem_of_cons; tauto.
Qed.

End chase.

(** The negotiation is not loop-free.  When an endpoint asks for an option
    both policies accept and withdraws the request before the answer arrives,
    two frames stay in flight for ever: no schedule of deliveries from there
    reaches a quiescent connection, and a delivery is always possible. *)
Theorem withdrawn_request_never_settles (pa pb : Policy) (o : byte) (s : Peers.t) :
  remote pa o = true -> local pb o = true ->
  rtc Peers.step
    (Peers.requestA (Peers.requestA (Peers.mk (Negotiator.init pa) (Negotiator.init pb) [] [])
       cmd.doo o) cmd.dont o) s ->
  length (Peers.toA s) + length (Peers.toB s) = 2 /\ exists s', Peers.step s s'.
Proof.
  intros Ha Hb Hrun.
  assert (chasing o s) as Hs.
  { eapply (rtc_preserve (chasing o)); [exact (chasing_step o) | | exact Hrun].
    clear Hrun. unfold Peers.requestA at 2. cbn [Peers.nodeA Peers.nodeB Peers.toA Peers.toB].
    peers_use request_doo. unfold Peers.requestA. cbn [Peers.nodeA]. peers_use request_dont.
    split_and!; [done | cbn; by rewrite Hp0, Hp |].
    exists false, false. split_and!; [done..|]. apply elem_of_cons. by left. }
  pose proof (chasing_in_flight o s Hs) as Hl. split; [done|].
  destruct s as [a b [|f qa] [|g qb]]; simpl in Hl; try lia.
  - destruct (Peers.deliver b g) as [b' out] eqn:E. eexists. by apply Peers.step_B.
  - destruct (Peers.deliver a f) as [a' out] eqn:E. eexists. by apply Peers.step_A.
  - destruct (Peers.deliver a f) as [a' out] eqn:E. eexists. by apply Peers.step_A.
Qed.

Lemma withdrawn_request_never_settles_witness :
  let p := mkPolicy (fun _ => true) (fun _ => true) in
  let s := Peers.requestA (Peers.requestA (Peers.mk (Negotiator.init p) (Negotiator.init p) [] [])
             cmd.doo opt.echo) cmd.dont opt.echo in
  length (Peers.toA (Peers.run 1001 s)) + length (Peers.toB (Peers.run 1001 s)) = 2 /\
  exists s', Peers.step (Peers.run 1001 s) s'.
Proof.
  intros p s. apply (withdrawn_request_never_settles p p opt.echo); [done..|]. apply run_steps.
Defined.
