(* ===== verification/Vslip.v ===== *)
(** * VSLIP framing: [examples/obmc_console/vslip_framer.hpp]

    The stateless encoder and the streaming decoder of the virtual serial line
    that carries 5250 records. *)

From S2P Require Import Prelude.

Definition END : byte := xc0.
Definition ESC : byte := xdb.
Definition ESC_END : byte := xdc.
Definition ESC_ESC : byte := xdd.

Definition encode (payload : bytes) : bytes :=
  foldl (fun frame b =>
           if decide (b = END) then (frame ++ [ESC]) ++ [ESC_END]
           else if decide (b = ESC) then (frame ++ [ESC]) ++ [ESC_ESC]
           else frame ++ [b])
        [END] payload
  ++ [END].

Record VSlipFramer := mkFramer { buf_ : bytes; escaping_ : bool }.

Definition framerInit : VSlipFramer := mkFramer [] false.

(** The framer, the caller's [out] vector and the local counter [completed]. *)
Record feed_st := mkFeed { framer : VSlipFramer; frames : list bytes; completed : nat }.

Definition feed_byte (s : feed_st) (b : byte) : feed_st :=
  let f := framer s in
  if escaping_ f then
    mkFeed (mkFramer (if decide (b = ESC_END) then buf_ f ++ [END]
                      else if decide (b = ESC_ESC) then buf_ f ++ [ESC]
                      else buf_ f) false)
           (frames s) (completed s)
  else if decide (b = END) then
    if decide (buf_ f <> []) then
      mkFeed (mkFramer [] false) (frames s ++ [buf_ f]) (S (completed s))
    else s
  else if decide (b = ESC) then mkFeed (mkFramer (buf_ f) true) (frames s) (completed s)
  else mkFeed (mkFramer (buf_ f ++ [b]) false) (frames s) (completed s).

(** [feed(raw, out)]: the framer after the call, [out] after the call and the
    number returned. *)
Definition feed (f : VSlipFramer) (raw : bytes) (out : list bytes) : VSlipFramer * list bytes * nat :=
  let s := foldl feed_byte (mkFeed f out 0) raw in
  (framer s, frames s, completed s).

Definition reset (f : VSlipFramer) : VSlipFramer := mkFramer [] false.

(** ** Facts *)

Definition stuff1 (b : byte) : bytes :=
  if decide (b = END) then [ESC; ESC_END]
  else if decide (b = ESC) then [ESC; ESC_ESC] else [b].

Lemma encode_concat p : encode p = [END] ++ concat (stuff1 <$> p) ++ [END].
Proof.
  unfold encode. rewrite app_assoc. f_equal. generalize [END].
  induction p as [|b p IH]; intros acc; simpl; [by rewrite app_nil_r|].
  rewrite IH. unfold stuff1. repeat case_decide; by rewrite <- !app_assoc.
Qed.

Lemma feed_byte_stuff b bf out n :
  foldl feed_byte (mkFeed (mkFramer bf false) out n) (stuff1 b) =
  mkFeed (mkFramer (bf ++ [b]) false) out n.
Proof.
  unfold stuff1. case_decide; [by subst|]. case_decide; [by subst|].
  simpl. unfold feed_byte. simpl. by rewrite !decide_False by done.
Qed.

Lemma foldl_stuff p bf out n :
  foldl feed_byte (mkFeed (mkFramer bf false) out n) (concat (stuff1 <$> p)) =
  mkFeed (mkFramer (bf ++ p) false) out n.
Proof.
  revert bf. induction p as [|b p IH]; intros bf; simpl; [by rewrite app_nil_r|].
  by rewrite foldl_app, feed_byte_stuff, IH, <- app_assoc.
Qed.

(** What an END byte delivers: the buffer, unless it is empty. *)
Definition flush (bf : bytes) : list bytes := if decide (bf = []) then [] else [bf].

Lemma feed_byte_end bf out n :
  feed_byte (mkFeed (mkFramer bf false) out n) END =
  mkFeed framerInit (out ++ flush bf) (n + length (flush bf)).
Proof.
  unfold feed_byte. cbn -[decide]. rewrite decide_True by done.
  destruct bf as [|b bf]; simpl; by rewrite ?app_nil_r, ?Nat.add_0_r, ?Nat.add_1_r.
Qed.

Lemma foldl_encode p bf out n :
  foldl feed_byte (mkFeed (mkFramer bf false) out n) (encode p) =
  mkFeed framerInit (out ++ flush bf ++ flush p) (n + length (flush bf ++ flush p)).
Proof.
  rewrite encode_concat, !foldl_app. cbn [foldl]. rewrite feed_byte_end. unfold framerInit.
  rewrite foldl_stuff, feed_byte_end, <- app_assoc, length_app. f_equal. simpl. lia.
Qed.

Lemma foldl_encodes ps out n :
  foldl feed_byte (mkFeed framerInit out n) (concat (encode <$> ps)) =
  mkFeed framerInit (out ++ concat (flush <$> ps)) (n + length (concat (flush <$> ps))).
Proof.
  revert out n. induction ps as [|p ps IH]; intros out n.
  { simpl. by rewrite app_nil_r, Nat.add_0_r. }
  rewrite !fmap_cons. cbn [concat]. rewrite foldl_app. unfold framerInit at 1. rewrite foldl_encode, IH.
  change (flush []) with (@nil bytes). cbn [app]. rewrite !length_app, <- app_assoc. f_equal. lia.
Qed.

Lemma flush_nonempty ps : Forall (fun p => p <> []) ps -> concat (flush <$> ps) = ps.
Proof.
  induction 1 as [|p ps Hp Hps IH]; [done|]. rewrite fmap_cons. cbn [concat]. rewrite IH.
  unfold flush. by rewrite decide_False.
Qed.

(** [feed] called on successive reads, the results accumulated in one vector. *)
Definition feed_chunks (f : VSlipFramer) (chunks : list bytes) (out : list bytes)
    : VSlipFramer * list bytes :=
  foldl (fun '(f, out) c => (feed f c out).1) (f, out) chunks.

(** The counter only counts: it does not influence the framer or the frames. *)
Definition shift (k : nat) (s : feed_st) : feed_st := mkFeed (framer s) (frames s) (completed s + k).

Lemma foldl_shift k raw s : foldl feed_byte (shift k s) raw = shift k (foldl feed_byte s raw).
Proof.
  revert s. induction raw as [|b raw IH]; intros s; simpl; [done|]. rewrite <- IH. f_equal.
  unfold feed_byte, shift. simpl. by repeat (case_decide || case_match).
Qed.

Lemma vslip_feed_app f a b out :
  (feed f (a ++ b) out).1 = (feed (feed f a out).1.1 b (feed f a out).1.2).1.
Proof.
  unfold feed. simpl. rewrite foldl_app. set (s := foldl feed_byte (mkFeed f out 0) a).
  assert (s = shift (completed s) (mkFeed (framer s) (frames s) 0)) as E by (by destruct s).
  rewrite E at 1 2. by rewrite foldl_shift.
Qed.

Lemma feed_chunks_concat chunks f out :
  feed_chunks f chunks out = (feed f (concat chunks) out).1.
Proof.
  unfold feed_chunks. revert f out. induction chunks as [|c chunks IH]; intros f out; [done|].
  cbn [concat foldl]. rewrite vslip_feed_app. destruct (feed f c out) as [[f' out'] k]. apply IH.
Qed.

(** ** Correctness of the framing *)

(** A sequence of non-empty payloads, encoded back to back and read in
    arbitrary chunks, is delivered unchanged and in order, and the framer is
    left empty. *)
Theorem vslip_roundtrip (payloads : list bytes) (chunks : list bytes) (out : list bytes) :
  Forall (fun p => p <> []) payloads ->
  concat chunks = concat (encode <$> payloads) ->
  feed_chunks framerInit chunks out = (framerInit, out ++ payloads).
Proof.
  intros Hp Hc. rewrite feed_chunks_concat, Hc. unfold feed.
  by rewrite foldl_encodes, flush_nonempty.
Qed.

Lemma vslip_roundtrip_witness :
  feed_chunks framerInit [[END; x41]; [ESC]; [ESC_END; END; END]; [x42; END]] [] =
  (framerInit, [[x41; END]; [x42]]).
Proof.
  apply (vslip_roundtrip [[x41; END]; [x42]]); [repeat constructor; discriminate|].
  vm_compute. reflexivity.
Defined.

(** The framer resynchronises.  Whatever was received before, once an END
    byte is seen outside an escape sequence the following frames are delivered
    unchanged, after at most one frame made of the garbage. *)
Theorem vslip_resync (garbage : bytes) (payloads out : list bytes) (f : VSlipFramer) :
  Forall (fun p => p <> []) payloads ->
  escaping_ (feed f garbage out).1.1 = false ->
  exists junk, length junk <= 1 /\
    (feed f (garbage ++ END :: concat (encode <$> payloads)) out).1 =
    (framerInit, (feed f garbage out).1.2 ++ junk ++ payloads).
Proof.
  intros Hp He. rewrite vslip_feed_app. destruct (feed f garbage out) as [[[bf es] fr] k]. simpl in *. subst es.
  exists (flush bf). split; [unfold flush; case_decide; simpl; lia|].
  unfold feed. cbn [foldl]. rewrite feed_byte_end, foldl_encodes. simpl.
  by rewrite flush_nonempty, <- app_assoc.
Qed.

Lemma vslip_resync_witness :
  exists junk, length junk <= 1 /\
    (feed framerInit ([ESC; x00; x01] ++ END :: concat (encode <$> [[x41]])) []).1 =
    (framerInit, [] ++ junk ++ [[x41]]).
Proof.
  apply (vslip_resync [ESC; x00; x01] [[x41]] [] framerInit); [repeat constructor; discriminate|].
  vm_compute. reflexivity.
Defined.

(** The number [feed] returns is the number of frames it appended, it only
    appends, and it never appends an empty frame. *)
Theorem vslip_feed_count (f : VSlipFramer) (raw : bytes) (out : list bytes) :
  exists new, (feed f raw out).1.2 = out ++ new /\ (feed f raw out).2 = length new /\
    Forall (fun p => p <> []) new.
Proof.
  unfold feed. simpl. induction raw as [|b raw (new & Ho & Hn & Hf)] using rev_ind.
  { exists []. by rewrite app_nil_r. }
  rewrite !foldl_app. destruct (foldl feed_byte (mkFeed f out 0) raw) as [[bf es] fr c].
  simpl in *. unfold feed_byte. simpl. destruct es; [by exists new|].
  case_decide; [case_decide|]; [|by exists new|case_decide; by exists new].
  exists (new ++ [bf]). rewrite Ho, <- app_assoc, length_app, Forall_app, Forall_singleton.
  split_and!; [done | simpl; lia | done | done].
Qed.
