(* ===== verification/Screen5250.v ===== *)
(** * The IBM 5250 display

    [Ebcdic] is [examples/obmc_console/ebcdic.hpp], [Screen5250] the 24x80 model
    of [screen5250.hpp], [Stream5250Parser] the order stream interpreter of
    [stream5250_parser.hpp].  The one loop whose exit depends on data received
    from the host, [repeatToAddress], takes an iteration budget; running out of
    it is [None]. *)

From S2P Require Import Prelude.

Open Scope Z_scope.

(** ** EBCDIC *)

(** The initialisers of [kEbcdicToAsciiTable], row by row as the source lays
    them out. *)
Definition kRow (s : string) : bytes := String.list_byte_of_string s.

Definition kEbcdicInitialisers : bytes :=
  kRow "                " ++
  kRow "                " ++
  kRow "                " ++
  kRow "                " ++
  kRow "         " ++ [x5b] ++ kRow ".<(+|" ++
  kRow "&        " ++ [x5d] ++ kRow "$*);^" ++
  kRow "-/         ,%_>?" ++
  kRow "          :#@'=" ++ [x22] ++
  kRow " abcdefghi      " ++
  kRow " jklmnopqr      " ++
  kRow " ~stuvwxyz      " ++
  kRow "                " ++
  kRow "{ABCDEFGHI      " ++
  kRow "}JKLMNOPQR      " ++
  kRow "\ STUVWXYZ      " ++
  kRow "0123456789      ".

(** [char table[256] = {...}]: missing initialisers are zero. *)
Definition kEbcdicToAsciiTable : bytes :=
  kEbcdicInitialisers ++ replicate (256 - length kEbcdicInitialisers) x00.

Definition ebcdicToAscii (e : byte) : byte :=
  default x00 (kEbcdicToAsciiTable !! Z.to_nat (u8 e)).

(** ** The screen *)

Definition ROWS : Z := 24.
Definition COLS : Z := 80.
Definition NCELLS : Z := ROWS * COLS.

Record Cell5250 := mkCell { ch : byte; attr : byte }.

Definition blank : Cell5250 := mkCell x20 x20.

Record Screen5250 := mkScreen {
  cells : list Cell5250;
  cursorRow : Z;
  cursorCol : Z;
  inputRow : Z;
  inputCol : Z;
}.

Definition screenInit : Screen5250 := mkScreen (replicate (Z.to_nat NCELLS) blank) 0 0 0 0.

Definition clamp (v lo hi : Z) : Z := if v <? lo then lo else if hi <? v then hi else v.

Definition clear (s : Screen5250) : Screen5250 :=
  mkScreen (replicate (length (cells s)) blank) 0 0 0 0.

Definition setCursor (row col : Z) (s : Screen5250) : Screen5250 :=
  mkScreen (cells s) (clamp row 0 (ROWS - 1)) (clamp col 0 (COLS - 1)) (inputRow s) (inputCol s).

Definition setInputCursor (row col : Z) (s : Screen5250) : Screen5250 :=
  mkScreen (cells s) (cursorRow s) (cursorCol s) (clamp row 0 (ROWS - 1)) (clamp col 0 (COLS - 1)).

Definition advance (s : Screen5250) : Screen5250 :=
  if COLS <=? cursorCol s + 1 then
    mkScreen (cells s) (if ROWS <=? cursorRow s + 1 then 0 else cursorRow s + 1) 0
             (inputRow s) (inputCol s)
  else mkScreen (cells s) (cursorRow s) (cursorCol s + 1) (inputRow s) (inputCol s).

(** [at(row, col)]: the index into [cells]. *)
Definition at_index (row col : Z) : nat := Z.to_nat (row * COLS + col).

(** [at(cursorRow, cursorCol) = Cell5250{c, a}]. *)
Definition write_cell (c a : byte) (s : Screen5250) : Screen5250 :=
  mkScreen (<[at_index (cursorRow s) (cursorCol s) := mkCell c a]> (cells s))
           (cursorRow s) (cursorCol s) (inputRow s) (inputCol s).

Definition putChar (c a : byte) (s : Screen5250) : Screen5250 := advance (write_cell c a s).

Fixpoint repeat_loop (fuel : nat) (target : Z) (c a : byte) (s : Screen5250) : option Screen5250 :=
  if cursorRow s * COLS + cursorCol s =? target then Some s
  else match fuel with
       | O => None
       | S fuel => repeat_loop fuel target c a (putChar c a s)
       end.

Definition repeatToAddress (fuel : nat) (toRow toCol : Z) (c a : byte) (s : Screen5250)
    : option Screen5250 :=
  repeat_loop fuel (toRow * COLS + toCol) c a s.

Definition decodeSba (b0 b1 : byte) : Z * Z := (Z.land (u8 b0) 63, Z.land (u8 b1) 63).

(** ** The order stream *)

(** The [while (i < n)] loop on the bytes not yet consumed. *)
Fixpoint order_loop (fuel : nat) (rest : bytes) (s : Screen5250) : option Screen5250 :=
  match rest with
  | [] => Some s
  | b :: rest =>
      if decide (b = x11) then
        match rest with
        | b0 :: b1 :: rest' =>
            let '(row, col) := decodeSba b0 b1 in order_loop fuel rest' (setCursor row col s)
        | _ => Some s
        end
      else if decide (b = x13) then
        order_loop fuel rest (setInputCursor (cursorRow s) (cursorCol s) s)
      else if decide (b = x1d) then
        match rest with [] => Some s | _ :: rest' => order_loop fuel rest' s end
      else if decide (b = x3c) then
        match rest with
        | b0 :: b1 :: e :: rest' =>
            let '(toRow, toCol) := decodeSba b0 b1 in
            match repeatToAddress fuel toRow toCol (ebcdicToAscii e) x20 s with
            | Some s' => order_loop fuel rest' s'
            | None => None
            end
        | _ => Some s
        end
      else if decide (b = x3f) then
        match rest with
        | b0 :: b1 :: rest' =>
            let '(toRow, toCol) := decodeSba b0 b1 in
            match repeatToAddress fuel toRow toCol x20 x20 s with
            | Some s' => order_loop fuel rest' s'
            | None => None
            end
        | _ => Some s
        end
      else if decide (b = x2b) then
        match rest with [] => Some s | _ :: rest' => order_loop fuel rest' s end
      else if decide (b = x00) then order_loop fuel rest s
      else order_loop fuel rest (putChar (ebcdicToAscii b) x20 s)
  end.

Definition process (fuel : nat) (data : bytes) (s : Screen5250) : option Screen5250 :=
  match data with
  | [] => Some s
  | cmd :: rest =>
      if decide (cmd = x40) then Some (clear s)
      else if decide (cmd = x11) then order_loop fuel rest s
      else if decide (cmd = xf3) then Some s
      else order_loop fuel data s
  end.

(** ** Geometry *)

Definition pos (s : Screen5250) : Z := cursorRow s * COLS + cursorCol s.

Record wf_screen (s : Screen5250) : Prop := {
  wf_cells : length (cells s) = Z.to_nat NCELLS;
  wf_row : 0 <= cursorRow s < ROWS;
  wf_col : 0 <= cursorCol s < COLS;
  wf_irow : 0 <= inputRow s < ROWS;
  wf_icol : 0 <= inputCol s < COLS;
}.

(** Cells passed when moving forward from [a] to [b], wrapping at the end of the
    screen. *)
Definition gap (a b : Z) : Z := if a <=? b then b - a else b - a + NCELLS.

Ltac geometry :=
  unfold gap, pos, at_index, clamp, NCELLS, ROWS, COLS in *;
  repeat first
    [ match goal with |- context [?a =? ?b] => destruct (Z.eqb_spec a b) end
    | match goal with |- context [?a <=? ?b] => destruct (Z.leb_spec a b) end
    | match goal with |- context [?a <? ?b] => destruct (Z.ltb_spec a b) end ];
  try lia.

Lemma wf_screenInit : wf_screen screenInit.
Proof. split; try done; unfold screenInit; cbn [cursorRow cursorCol inputRow inputCol]; geometry. Qed.

Lemma clamp_range v hi : 0 <= hi -> 0 <= clamp v 0 hi < hi + 1.
Proof. intros. geometry. Qed.

Lemma wf_clear s : wf_screen s -> wf_screen (clear s).
Proof.
  intros []. split; unfold clear; cbn [cells cursorRow cursorCol inputRow inputCol];
    rewrite ?length_replicate; geometry.
Qed.

Lemma wf_setCursor row col s : wf_screen s -> wf_screen (setCursor row col s).
Proof.
  intros []. split; unfold setCursor; cbn [cells cursorRow cursorCol inputRow inputCol];
    auto; apply clamp_range; unfold ROWS, COLS; lia.
Qed.

Lemma wf_setInputCursor row col s : wf_screen s -> wf_screen (setInputCursor row col s).
Proof.
  intros []. split; unfold setInputCursor; cbn [cells cursorRow cursorCol inputRow inputCol];
    auto; apply clamp_range; unfold ROWS, COLS; lia.
Qed.

Lemma wf_advance s : wf_screen s -> wf_screen (advance s).
Proof.
  intros []. unfold advance. destruct (Z.leb_spec COLS (cursorCol s + 1));
    split; cbn [cells cursorRow cursorCol inputRow inputCol]; geometry.
Qed.

Lemma wf_write_cell c a s : wf_screen s -> wf_screen (write_cell c a s).
Proof. intros []. split; cbn; rewrite ?length_insert; auto. Qed.

Lemma wf_putChar c a s : wf_screen s -> wf_screen (putChar c a s).
Proof. intros Hs. by apply wf_advance, wf_write_cell. Qed.

#[export] Hint Resolve wf_screenInit wf_clear wf_setCursor wf_setInputCursor wf_putChar : coro.

Lemma pos_range s : wf_screen s -> 0 <= pos s < NCELLS.
Proof. intros []. geometry. Qed.

Lemma pos_advance s :
  wf_screen s -> pos (advance s) = if pos s + 1 =? NCELLS then 0 else pos s + 1.
Proof.
  intros []. unfold advance, pos. destruct (Z.leb_spec COLS (cursorCol s + 1)); cbn; geometry.
Qed.

Lemma pos_putChar c a s :
  wf_screen s -> pos (putChar c a s) = if pos s + 1 =? NCELLS then 0 else pos s + 1.
Proof. intros Hs. unfold putChar. by rewrite pos_advance by by apply wf_write_cell. Qed.

Lemma advance_frame s :
  cells (advance s) = cells s /\ inputRow (advance s) = inputRow s /\ inputCol (advance s) = inputCol s.
Proof. unfold advance. by destruct (COLS <=? cursorCol s + 1). Qed.

Lemma cells_putChar c a s :
  cells (putChar c a s) = <[Z.to_nat (pos s) := mkCell c a]> (cells s).
Proof. unfold putChar. by destruct (advance_frame (write_cell c a s)) as [-> _]. Qed.

Lemma input_putChar c a s :
  inputRow (putChar c a s) = inputRow s /\ inputCol (putChar c a s) = inputCol s.
Proof. apply (proj2 (advance_frame (write_cell c a s))). Qed.

Lemma gap_putChar c a s target :
  wf_screen s -> 0 <= target < NCELLS -> pos s <> target ->
  gap (pos (putChar c a s)) target = gap (pos s) target - 1 /\ 1 <= gap (pos s) target.
Proof.
  intros Hs Ht Hne. rewrite pos_putChar by done. pose proof (pos_range s Hs). geometry.
Qed.

Lemma gap_range a b : 0 <= a < NCELLS -> 0 <= b < NCELLS -> 0 <= gap a b < NCELLS.
Proof. intros. geometry. Qed.

Lemma gap_refl a : gap a a = 0.
Proof. geometry. Qed.

(** ** Repeat to address *)

Lemma repeat_loop_spec fuel target c a s :
  wf_screen s -> 0 <= target < NCELLS -> gap (pos s) target <= Z.of_nat fuel ->
  exists s', repeat_loop fuel target c a s = Some s' /\ wf_screen s' /\ pos s' = target /\
    inputRow s' = inputRow s /\ inputCol s' = inputCol s /\
    forall k, 0 <= k < NCELLS ->
      cells s' !! Z.to_nat k =
      if gap (pos s) k <? gap (pos s) target then Some (mkCell c a) else cells s !! Z.to_nat k.
Proof.
  intros Hs Ht. revert s Hs. induction fuel as [|fuel IH]; intros s Hs Hf;
    cbn [repeat_loop]; fold (pos s); destruct (Z.eqb_spec (pos s) target) as [E|E].
  1, 3: exists s; split_and!; try done; intros k Hk;
        subst target; rewrite gap_refl; pose proof (gap_range (pos s) k (pos_range s Hs) Hk);
        destruct (Z.ltb_spec (gap (pos s) k) 0); [lia|done].
  - destruct (gap_putChar c a s target Hs Ht E). lia.
  - destruct (gap_putChar c a s target Hs Ht E) as [Hg Hg1].
    destruct (IH (putChar c a s)) as (s' & -> & Hs' & Hp' & Hi1 & Hi2 & Hc); [by auto with coro|lia|].
    destruct (input_putChar c a s) as [Hj1 Hj2].
    exists s'. split_and!; try congruence. intros k Hk. rewrite Hc, Hg, cells_putChar by done.
    rewrite pos_putChar by done. pose proof (pos_range s Hs) as Hp. pose proof (wf_cells s Hs) as Hl.
    destruct (decide (k = pos s)) as [->|Hne].
    + rewrite list_lookup_insert_eq by (rewrite Hl; lia). clear IH Hc. geometry; done.
    + rewrite list_lookup_insert_ne by lia. clear IH Hc. geometry; done.
Qed.

Lemma repeat_loop_unreachable fuel target c a s :
  wf_screen s -> ~ (0 <= target < NCELLS) -> repeat_loop fuel target c a s = None.
Proof.
  intros Hs Ht. revert s Hs. induction fuel as [|fuel IH]; intros s Hs; simpl; fold (pos s);
    pose proof (pos_range s Hs); (destruct (Z.eqb_spec (pos s) target); [lia|]); auto with coro.
Qed.

Lemma repeat_loop_wf fuel target c a s s' :
  wf_screen s -> repeat_loop fuel target c a s = Some s' -> wf_screen s'.
Proof.
  revert s. induction fuel as [|fuel IH]; intros s Hs; simpl;
    destruct (_ =? target); intros [= <-] || intros ?; eauto with coro.
Qed.

Lemma gap_budget s target :
  wf_screen s -> 0 <= target < NCELLS -> gap (pos s) target <= Z.of_nat (Z.to_nat NCELLS).
Proof. intros Hs Ht. pose proof (gap_range _ _ (pos_range s Hs) Ht). unfold NCELLS, ROWS, COLS in *. lia. Qed.

(** For an address on the screen, [repeatToAddress] returns within one lap of
    the 1920 cells, with the cursor on the address, the cells from the old cursor
    up to the address (wrapping at the end) filled, and every other cell and the
    input cursor unchanged. *)
Theorem repeatToAddress_correct (toRow toCol : Z) (c a : byte) (s : Screen5250) :
  wf_screen s -> 0 <= toRow < ROWS -> 0 <= toCol < COLS ->
  exists s', repeatToAddress (Z.to_nat NCELLS) toRow toCol c a s = Some s' /\ wf_screen s' /\
    cursorRow s' = toRow /\ cursorCol s' = toCol /\
    inputRow s' = inputRow s /\ inputCol s' = inputCol s /\
    forall k, 0 <= k < NCELLS ->
      cells s' !! Z.to_nat k =
      if gap (pos s) k <? gap (pos s) (toRow * COLS + toCol)
      then Some (mkCell c a) else cells s !! Z.to_nat k.
Proof.
  intros Hs Hr Hc. assert (0 <= toRow * COLS + toCol < NCELLS) as Ht by geometry.
  destruct (repeat_loop_spec (Z.to_nat NCELLS) _ c a s Hs Ht (gap_budget s _ Hs Ht))
    as (s' & E & Hs' & Hp & Hi & Hj & Hk).
  exists s'. split_and!; try done; pose proof (wf_row s' Hs'); pose proof (wf_col s' Hs');
    clear Hk; geometry.
Qed.

Lemma repeatToAddress_correct_witness :
  exists s', repeatToAddress (Z.to_nat NCELLS) 23 60 x2d x20 (setCursor 5 6 screenInit) = Some s' /\
    wf_screen s' /\ cursorRow s' = 23 /\ cursorCol s' = 60 /\ inputRow s' = 0 /\ inputCol s' = 0 /\
    forall k, 0 <= k < NCELLS ->
      cells s' !! Z.to_nat k =
      if gap (pos (setCursor 5 6 screenInit)) k <? gap (pos (setCursor 5 6 screenInit)) (23 * COLS + 60)
      then Some (mkCell x2d x20) else cells (setCursor 5 6 screenInit) !! Z.to_nat k.
Proof.
  apply (repeatToAddress_correct 23 60 x2d x20 (setCursor 5 6 screenInit)).
  - auto with coro.
  - unfold ROWS. lia.
  - unfold COLS. lia.
Defined.

(** ** The order stream *)

(** The addresses of the RA and EA orders that the loop reaches. *)
Fixpoint targets (rest : bytes) : list (Z * Z) :=
  match rest with
  | [] => []
  | b :: rest =>
      if decide (b = x11) then
        match rest with _ :: _ :: rest' => targets rest' | _ => [] end
      else if decide (b = x13) then targets rest
      else if decide (b = x1d) then match rest with [] => [] | _ :: rest' => targets rest' end
      else if decide (b = x3c) then
        match rest with b0 :: b1 :: _ :: rest' => decodeSba b0 b1 :: targets rest' | _ => [] end
      else if decide (b = x3f) then
        match rest with b0 :: b1 :: rest' => decodeSba b0 b1 :: targets rest' | _ => [] end
      else if decide (b = x2b) then match rest with [] => [] | _ :: rest' => targets rest' end
      else targets rest
  end.

Definition record_targets (data : bytes) : list (Z * Z) :=
  match data with
  | [] => []
  | cmd :: rest =>
      if decide (cmd = x40) then [] else if decide (cmd = x11) then targets rest
      else if decide (cmd = xf3) then [] else targets data
  end.

Definition on_screen (addr : Z * Z) : Prop := 0 <= addr.1 * COLS + addr.2 < NCELLS.

#[export] Instance on_screen_dec addr : Decision (on_screen addr).
Proof. unfold on_screen. apply _. Defined.

(** A fill either completes, keeping the screen well formed, when its address is
    on the screen, or runs out of any budget. *)
Lemma repeatToAddress_cases row col c a s :
  wf_screen s ->
  (on_screen (row, col) /\ exists s',
     repeatToAddress (Z.to_nat NCELLS) row col c a s = Some s' /\ wf_screen s') \/
  (~ on_screen (row, col) /\ forall fuel, repeatToAddress fuel row col c a s = None).
Proof.
  intros Hs. destruct (decide (on_screen (row, col))) as [Ht|Ht]; [left|right]; split; try done.
  - destruct (repeat_loop_spec (Z.to_nat NCELLS) _ c a s Hs Ht (gap_budget s _ Hs Ht))
      as (s' & E & Hs' & _). eauto.
  - intros fuel. by apply repeat_loop_unreachable.
Qed.

Lemma order_loop_total data s :
  wf_screen s ->
  Forall on_screen (targets data) ->
  exists s', order_loop (Z.to_nat NCELLS) data s = Some s' /\ wf_screen s'.
Proof.
  remember (length data) as n eqn:Hn. revert data Hn s.
  induction n as [n IH] using lt_wf_ind. intros data -> s Hs.
  assert (forall r s', (length r < length data)%nat -> wf_screen s' -> Forall on_screen (targets r) ->
            exists s'', order_loop (Z.to_nat NCELLS) r s' = Some s'' /\ wf_screen s'') as Hrec
    by eauto.
  clear IH. destruct data as [|b rest]; [by eauto|]. cbn [order_loop targets].
  repeat (case_decide; [|]); try (apply Hrec; auto with coro; simpl; lia).
  all: try (destruct rest as [|b0 rest]; [by eauto|]).
  all: try (apply Hrec; auto with coro; simpl; lia).
  all: destruct rest as [|b1 rest]; [by eauto|].
  - apply Hrec; auto with coro; simpl; lia.
  - destruct rest as [|e rest]; [by eauto|]. intros [Ht Hts]%Forall_cons.
    destruct (decodeSba b0 b1) as [row col].
    destruct (repeatToAddress_cases row col (ebcdicToAscii e) x20 s Hs) as [(_ & s' & -> & Hs')|[]];
      [|done]. apply Hrec; auto; simpl; lia.
  - intros [Ht Hts]%Forall_cons.
    destruct (decodeSba b0 b1) as [row col].
    destruct (repeatToAddress_cases row col x20 x20 s Hs) as [(_ & s' & -> & Hs')|[]]; [|done].
    apply Hrec; auto; simpl; lia.
Qed.

Lemma order_loop_some fuel data s s' :
  wf_screen s -> order_loop fuel data s = Some s' ->
  Forall on_screen (targets data) /\ wf_screen s'.
Proof.
  remember (length data) as n eqn:Hn. revert data Hn s.
  induction n as [n IH] using lt_wf_ind. intros data -> s Hs.
  assert (forall r s0, (length r < length data)%nat -> wf_screen s0 ->
            order_loop fuel r s0 = Some s' -> Forall on_screen (targets r) /\ wf_screen s') as Hrec
    by eauto.
  clear IH. destruct data as [|b rest]; [by intros [= <-]; auto|]. cbn [order_loop targets].
  repeat (case_decide; [|]); try (apply Hrec; auto with coro; simpl; lia).
  all: try (destruct rest as [|b0 rest]; [by intros [= <-]; auto|]).
  all: try (apply Hrec; auto with coro; simpl; lia).
  all: destruct rest as [|b1 rest]; [by intros [= <-]; auto|].
  - apply Hrec; auto with coro; simpl; lia.
  - destruct rest as [|e rest]; [by intros [= <-]; auto|].
    destruct (decodeSba b0 b1) as [row col]. destruct (repeatToAddress fuel row col _ _ s) as [s1|] eqn:E; [|done].
    destruct (repeatToAddress_cases row col (ebcdicToAscii e) x20 s Hs) as [[Ht _]|[_ En]]; [|by rewrite En in E].
    intros [? ?]%Hrec; [split; [by constructor|done] | simpl; lia | by eapply repeat_loop_wf].
  - destruct (decodeSba b0 b1) as [row col]. destruct (repeatToAddress fuel row col _ _ s) as [s1|] eqn:E; [|done].
    destruct (repeatToAddress_cases row col x20 x20 s Hs) as [[Ht _]|[_ En]]; [|by rewrite En in E].
    intros [? ?]%Hrec; [split; [by constructor|done] | simpl; lia | by eapply repeat_loop_wf].
Qed.

(** C15: a record is interpreted to the end, within one lap of the screen per
    fill order and leaving a well-formed screen, exactly when every RA and EA
    order it contains addresses a cell of the screen; otherwise [process] loops
    for ever, whatever the budget. *)
Theorem process_terminates_iff (data : bytes) (s : Screen5250) :
  wf_screen s ->
  (Forall on_screen (record_targets data) ->
     exists s', process (Z.to_nat NCELLS) data s = Some s' /\ wf_screen s') /\
  (~ Forall on_screen (record_targets data) -> forall fuel, process fuel data s = None).
Proof.
  intros Hs. destruct data as [|cmd rest]; cbn [process record_targets];
    [split; [by eauto | by intros [] ]|].
  assert (forall r, (Forall on_screen (targets r) ->
            exists s', order_loop (Z.to_nat NCELLS) r s = Some s' /\ wf_screen s') /\
          (~ Forall on_screen (targets r) -> forall fuel, order_loop fuel r s = None)) as Hr.
  { intros r. split; [by apply order_loop_total|]. intros Hn fuel.
    destruct (order_loop fuel r s) eqn:E; [|done]. by destruct (order_loop_some _ _ _ _ Hs E). }
  repeat case_decide; try apply Hr; (split; [by eauto with coro | by intros []]).
Qed.

Lemma process_terminates_iff_witness :
  (exists s', process (Z.to_nat NCELLS) [x11; x3c; x17; x3f; xc1; xc2] screenInit = Some s' /\ wf_screen s') /\
  (forall fuel, process fuel [x11; x3c; x18; x00; x40] screenInit = None).
Proof.
  split.
  - apply (process_terminates_iff [x11; x3c; x17; x3f; xc1; xc2] screenInit wf_screenInit).
    repeat constructor; vm_compute; congruence.
  - apply (process_terminates_iff [x11; x3c; x18; x00; x40] screenInit wf_screenInit).
    intros H. inversion H as [|? ? [_ Hlt] _]. revert Hlt. vm_compute. congruence.
Defined.

(** ** The EBCDIC table *)

(** Two rows of the table are one initialiser short, so every entry from 0x4F on
    is shifted: the letters and digits of code page 037 come out two places on. *)
Lemma ebcdic_table_short : length kEbcdicInitialisers = 254%nat.
Proof. reflexivity. Qed.

(** The EBCDIC letter A (0xC1) is displayed as C, the digit 0 (0xF0) as 2,
    and 0xFE and 0xFF become NUL, although the conversion is documented to map
    code page 037 and to return a space for unmapped bytes. *)
Theorem ebcdic_shifted :
  String.string_of_list_byte (ebcdicToAscii <$> [xc1; xc2; xc3; xf0; xf1; xf2]) = "CDE234" /\
  ebcdicToAscii <$> [xfe; xff] = [x00; x00].
Proof. by split. Qed.
