(* ===== verification/Http.v ===== *)
(** * HTTP targets and routing

    [include/utilities.hpp] (splitting), [include/http_target_parser.hpp]
    (targets, query strings and path parameters), [include/request_mapper.hpp]
    (route patterns), [include/flat_map.hpp] and the router and dispatch part of
    [include/http_server.hpp].

    [std::string_view::operator[]] and [back()] have the precondition that the
    view is not empty; a call that breaks it is [None] here. *)

From S2P Require Import Prelude.

(** ** Splitting and joining *)

(** [std::views::split] on a non-empty range: the pieces between delimiters. *)
Fixpoint split_pieces (c : byte) (cur : bytes) (s : bytes) : list bytes :=
  match s with
  | [] => [cur]
  | b :: s => if decide (b = c) then cur :: split_pieces c [] s
              else split_pieces c (cur ++ [b]) s
  end.

(** [split(input, c, skip)].  Splitting an empty range yields no piece. *)
Definition split (input : bytes) (c : byte) (skip : nat) : list bytes :=
  drop skip (match input with [] => [] | _ => split_pieces c [] input end).

(** [join(input, c)]: every piece preceded by [c]. *)
Definition join (input : list bytes) (c : byte) : bytes :=
  foldl (fun result v => result ++ (c :: v)) [] input.

Definition replaced (input : bytes) (c r : byte) : bytes :=
  (fun ch => if decide (ch = c) then r else ch) <$> input.

(** ** Targets *)

Definition slash : byte := x2f.
Definition quest : byte := x3f.
Definition ampersand : byte := x26.
Definition equals : byte := x3d.
Definition plus : byte := x2b.
Definition percent : byte := x25.
Definition lbrace : byte := x7b.
Definition rbrace : byte := x7d.

Record parameter := mkParam { pname : bytes; pvalue : bytes }.

(** The peer endpoint is carried along and never inspected. *)
Record http_function (endpoint : Type) := mkFunc {
  _name : bytes;
  _params : list parameter;
  rep : option endpoint;
}.
Arguments mkFunc {endpoint}.
Arguments _name {endpoint}.
Arguments _params {endpoint}.
Arguments rep {endpoint}.

Definition setEndpoint {endpoint} (f : http_function endpoint) (ep : endpoint) : http_function endpoint :=
  mkFunc (_name f) (_params f) (Some ep).

(** [operator[]]: the value of the first parameter of that name. *)
Definition param {endpoint} (f : http_function endpoint) (name : bytes) : bytes :=
  match find_if (fun p => bool_decide (pname p = name)) (_params f) with
  | Some (_, p) => if decide (pvalue p <> []) then pvalue p else []
  | None => []
  end.

Definition hexNibble (c : byte) : Z :=
  let z := u8 c in
  if ((48 <=? z) && (z <=? 57))%Z then (z - 48)%Z
  else if ((65 <=? z) && (z <=? 70))%Z then (z - 65 + 10)%Z
  else if ((97 <=? z) && (z <=? 102))%Z then (z - 97 + 10)%Z
  else (-1)%Z.

(** The loop on the bytes from index [i] on: [i + 2 < size] is two more bytes
    after the percent sign. *)
Fixpoint url_decode (s : bytes) : bytes :=
  match s with
  | [] => []
  | b :: s' =>
      if decide (b = plus) then x20 :: url_decode s'
      else if decide (b = percent) then
        match s' with
        | h :: l :: s'' =>
            let hi := hexNibble h in
            let lo := hexNibble l in
            if ((0 <=? hi) && (0 <=? lo))%Z
            then of_u8 (Z.lor (Z.shiftl hi 4) lo) :: url_decode s''
            else b :: url_decode s'
        | _ => b :: url_decode s'
        end
      else b :: url_decode s'
  end.

(** One [key=value] token of the query string. *)
Definition parse_param (p : bytes) : list parameter :=
  match split p equals 0 with
  | key :: value :: _ => if decide (key = []) then [] else [mkParam key (url_decode value)]
  | _ => []
  end.

Definition parse_function {endpoint} (target : bytes) : http_function endpoint :=
  if decide (slash ∈ target) then
    match split target quest 0 with
    | [] => mkFunc [] [] None
    | [func] => mkFunc func [] None
    | func :: paramstring :: _ =>
        mkFunc func (concat (parse_param <$> split paramstring ampersand 0)) None
    end
  else mkFunc target [] None.

(** [s1[0] == '{' && s1.back() == '}']. *)
Definition braced (s : bytes) : option bool :=
  match s with
  | [] => None
  | b :: _ => if decide (b = lbrace) then Some (bool_decide (last s = Some rbrace)) else Some false
  end.

(** [std::transform] over two ranges of the same length. *)
Fixpoint transform2 {A B C} (f : A -> B -> option C) (l : list A) (k : list B) : option (list C) :=
  match l, k with
  | a :: l, b :: k => c ← f a b; cs ← transform2 f l k; Some (c :: cs)
  | _, _ => Some []
  end.

(** [s1.substr(1, s1.length() - 2)] of a segment that starts with [{] and ends
    with [}]. The single character [{] cannot end with [}]. *)
Definition strip_braces (s : bytes) : bytes := take (length s - 2) (drop 1 s).

Definition path_param (s1 s2 : bytes) : option parameter :=
  b ← braced s1;
  Some (if (b : bool) then mkParam (strip_braces s1) s2 else mkParam s1 []).

Definition extract_params_from_path {endpoint} (func : http_function endpoint)
    (handlerfuncname pathfuncname : bytes) : option (http_function endpoint) :=
  let segs1 := split handlerfuncname slash 1 in
  let segs2 := split pathfuncname slash 1 in
  if decide (length segs1 <> length segs2) then Some func
  else ps ← transform2 path_param segs1 segs2;
       Some (mkFunc (_name func) (_params func ++ ps) (rep func)).

(** ** Route patterns *)

Inductive verb := verb_get | verb_put | verb_post | verb_delete | verb_other (n : nat).

#[export] Instance verb_eq_dec : EqDecision verb.
Proof. solve_decision. Defined.

Record request_mapper := mkMapper { path : bytes; method : verb }.

Definition seg_match (s1 s2 : bytes) : option bool :=
  if decide (s1 = s2) then Some true else braced s1.

(** [operator==](first, second): [first] is the registered pattern. *)
Definition mapper_eq (first second : request_mapper) : option bool :=
  if decide (method first <> method second) then Some false
  else
    let segs1 := split (path first) slash 0 in
    let segs2 := split (path second) slash 0 in
    if decide (length segs1 <> length segs2) then Some false
    else ms ← transform2 seg_match segs1 segs2; Some (forallb id ms).

(** ** The vector map *)

Section flat_map.

Context {V : Type}.

Definition flat_map_t := list (request_mapper * V).

(** [find(key)]: the index and entry of the first key equal to [key]. *)
Fixpoint flat_find (m : flat_map_t) (key : request_mapper) : option (option (nat * (request_mapper * V))) :=
  match m with
  | [] => Some None
  | e :: m =>
      b ← mapper_eq e.1 key;
      if (b : bool) then Some (Some (0, e))
      else r ← flat_find m key;
           Some (match r with Some (i, e') => Some (S i, e') | None => None end)
  end.

(** [m[key] = v]. *)
Definition flat_assign (m : flat_map_t) (key : request_mapper) (v : V) : option flat_map_t :=
  r ← flat_find m key;
  Some (match r with
        | Some (i, e) => <[i := (e.1, v)]> m
        | None => m ++ [(key, v)]
        end).

Definition flat_remove (m : flat_map_t) (key : request_mapper) : option flat_map_t :=
  r ← flat_find m key;
  Some (match r with Some (i, _) => delete i m | None => m end).

End flat_map.

(** ** Responses: [include/http_errors.hpp] *)

Record Response := mkResponse {
  status : Z;
  res_version : Z;
  content_type : bytes;
  keep_alive : bool;
  res_body : bytes;
  content_length : nat;
}.

(** Build a response, [keep_alive(false)], set the body and [prepare_payload]. *)
Definition plain_response (st ver : Z) (ctype body : bytes) : Response :=
  mkResponse st ver ctype false body (length body).

Definition make_file_not_found_error (p : bytes) (ver : Z) : Response :=
  plain_response 404 ver (str "text/plain") (str "File Not Found: " ++ p).

Definition make_internal_server_error (msg : bytes) (ver : Z) : Response :=
  plain_response 500 ver (str "text/plain") (str "Internal Server Error: " ++ msg).

Definition make_bad_request_error (msg : bytes) (ver : Z) : Response :=
  plain_response 400 ver (str "text/plain") (str "Bad Request: " ++ msg).

Definition make_unauthorized_error (msg : bytes) (ver : Z) : Response :=
  plain_response 401 ver (str "text/plain") (str "Unauthorized: " ++ msg).

Definition make_forbidden_error (msg : bytes) (ver : Z) : Response :=
  plain_response 403 ver (str "text/plain") (str "Forbidden: " ++ msg).

Definition make_success_response (data : bytes) (st ver : Z) (ctype : bytes) : Response :=
  plain_response st ver ctype data.

(** ** The router *)

(** What a handler coroutine ends with. *)
Inductive outcome := Returns (res : Response) | ThrowsStd | ThrowsOther.

Section router.

Context {endpoint Body sse_handler : Type}.

Record Request := mkRequest {
  req_method : verb;
  req_target : bytes;
  req_version : Z;
  req_body : Body;
}.

Definition handler := Request -> http_function endpoint -> outcome.

Record HttpRouter := mkRouter {
  fallback_handler : option handler;
  get_handlers : @flat_map_t handler;
  post_handlers : @flat_map_t handler;
  delete_handlers : @flat_map_t handler;
  empty_handlers : @flat_map_t handler;
  sse_handlers : gmap bytes sse_handler;
}.

Definition router_init : HttpRouter := mkRouter None [] [] [] [] ∅.

Definition handler_for_verb (r : HttpRouter) (v : verb) : @flat_map_t handler :=
  match v with
  | verb_get => get_handlers r
  | verb_put | verb_post => post_handlers r
  | verb_delete => delete_handlers r
  | verb_other _ => empty_handlers r
  end.

Definition set_handlers (r : HttpRouter) (v : verb) (m : @flat_map_t handler) : HttpRouter :=
  match v with
  | verb_get => mkRouter (fallback_handler r) m (post_handlers r) (delete_handlers r) (empty_handlers r) (sse_handlers r)
  | verb_put | verb_post => mkRouter (fallback_handler r) (get_handlers r) m (delete_handlers r) (empty_handlers r) (sse_handlers r)
  | verb_delete => mkRouter (fallback_handler r) (get_handlers r) (post_handlers r) m (empty_handlers r) (sse_handlers r)
  | verb_other _ => mkRouter (fallback_handler r) (get_handlers r) (post_handlers r) (delete_handlers r) m (sse_handlers r)
  end.

Definition add_handler (r : HttpRouter) (m : request_mapper) (h : handler) : option HttpRouter :=
  hs ← flat_assign (handler_for_verb r (method m)) m h;
  Some (set_handlers r (method m) hs).

Definition add_get_handler (r : HttpRouter) (p : bytes) (h : handler) := add_handler r (mkMapper p verb_get) h.
Definition add_post_handler (r : HttpRouter) (p : bytes) (h : handler) := add_handler r (mkMapper p verb_post) h.
Definition add_put_handler (r : HttpRouter) (p : bytes) (h : handler) := add_handler r (mkMapper p verb_put) h.
Definition add_delete_handler (r : HttpRouter) (p : bytes) (h : handler) := add_handler r (mkMapper p verb_delete) h.

Definition add_sse_handler (r : HttpRouter) (p : bytes) (h : sse_handler) : HttpRouter :=
  mkRouter (fallback_handler r) (get_handlers r) (post_handlers r) (delete_handlers r)
           (empty_handlers r) (<[p := h]> (sse_handlers r)).

Definition findSseHandler (r : HttpRouter) (p : bytes) : option sse_handler := sse_handlers r !! p.

Definition set_fallback_handler (r : HttpRouter) (h : handler) : HttpRouter :=
  mkRouter (Some h) (get_handlers r) (post_handlers r) (delete_handlers r) (empty_handlers r) (sse_handlers r).

Definition make_error_response (message : bytes) : Response :=
  plain_response 404 11 (str "text/plain") (str "Not Found " ++ message).

Definition process_request (r : HttpRouter) (req : Request) (ep : endpoint) : option outcome :=
  let httpfunc := setEndpoint (parse_function (req_target req)) ep in
  found ← flat_find (handler_for_verb r (req_method req)) (mkMapper (_name httpfunc) (req_method req));
  match found with
  | Some (_, (key, h)) =>
      func ← extract_params_from_path httpfunc (path key) (_name httpfunc);
      Some (h req func)
  | None =>
      match fallback_handler r with
      | Some h => Some (h req httpfunc)
      | None => Some (Returns (make_error_response (_name httpfunc)))
      end
  end.

(** What the server does with a request it has read. *)
Inductive served :=
  | SseStream (h : sse_handler) (f : http_function endpoint)
  | Reply (res : Response)
  | Escapes.

Definition handle_client (r : HttpRouter) (req : Request) (ep : endpoint) : option served :=
  let httpfunc := parse_function (req_target req) in
  let sse := if decide (req_method req = verb_get) then findSseHandler r (_name httpfunc) else None in
  match sse with
  | Some h => Some (SseStream h (setEndpoint httpfunc ep))
  | None =>
      o ← process_request r req ep;
      Some (match o with
            | Returns res => Reply res
            | ThrowsStd => Reply (make_internal_server_error (str "Internal Server Error") (req_version req))
            | ThrowsOther => Escapes
            end)
  end.

(** The frame that [SseWriter::write] sends for one event. *)
Definition sse_frame (data : bytes) : bytes := str "data: " ++ data ++ [x0a; x0a].

End router.

Arguments Request : clear implicits.
Arguments HttpRouter : clear implicits.
Arguments handler : clear implicits.

(** ** Splitting and joining are inverse *)

Lemma split_nonempty s c k : s <> [] -> split s c k = drop k (split_pieces c [] s).
Proof. by destruct s. Qed.

Lemma app_cons_nonempty {A} (l : list A) x k : l ++ x :: k <> [].
Proof. by destruct l. Qed.

Lemma split_pieces_end c cur p : c ∉ p -> split_pieces c cur p = [cur ++ p].
Proof.
  revert cur. induction p as [|b p IH]; intros cur Hp; simpl; [by rewrite app_nil_r|].
  apply not_elem_of_cons in Hp as [Hb Hp]. rewrite decide_False by done.
  by rewrite IH, <- app_assoc.
Qed.

Lemma split_pieces_delim c cur p s :
  c ∉ p -> split_pieces c cur (p ++ c :: s) = (cur ++ p) :: split_pieces c [] s.
Proof.
  revert cur. induction p as [|b p IH]; intros cur Hp; simpl.
  { by rewrite decide_True, app_nil_r. }
  apply not_elem_of_cons in Hp as [Hb Hp]. rewrite decide_False by done.
  by rewrite IH, <- app_assoc.
Qed.

Lemma join_concat ps c : join ps c = concat (cons c <$> ps).
Proof.
  unfold join. change (concat (cons c <$> ps)) with ([] ++ concat (cons c <$> ps)).
  generalize (@nil byte). induction ps as [|p ps IH]; intros acc; simpl; [by rewrite app_nil_r|].
  by rewrite IH, <- app_assoc.
Qed.

Lemma join_cons p ps c : join (p :: ps) c = c :: p ++ join ps c.
Proof. by rewrite !join_concat. Qed.

Lemma split_pieces_join c p ps :
  Forall (fun p => c ∉ p) (p :: ps) -> split_pieces c [] (p ++ join ps c) = p :: ps.
Proof.
  revert p. induction ps as [|q ps IH]; intros p [Hp Hps]%Forall_cons.
  - rewrite join_concat. simpl. rewrite app_nil_r. by apply split_pieces_end.
  - rewrite join_cons, split_pieces_delim by done. simpl. f_equal. by apply IH.
Qed.

(** The segments of a path: its pieces between slashes. *)
Lemma split_join c ps k :
  ps <> [] -> Forall (fun p => c ∉ p) ps -> split (join ps c) c k = drop k ([] :: ps).
Proof.
  intros Hne Hps. destruct ps as [|p ps]; [done|]. unfold split. rewrite join_cons. f_equal.
  rewrite <- join_cons. apply (split_pieces_join c [] (p :: ps)).
  constructor; [apply not_elem_of_nil|done].
Qed.

Lemma join_split_pieces c cur s :
  join (split_pieces c cur s) c = c :: cur ++ s.
Proof.
  revert cur. induction s as [|b s IH]; intros cur; simpl.
  { by rewrite join_cons. }
  case_decide as Hb.
  - rewrite join_cons, IH. by subst.
  - by rewrite IH, <- app_assoc.
Qed.

Lemma split_pieces_nonempty c s cur : split_pieces c cur s <> [].
Proof. revert cur. induction s as [|b s IH]; intros cur; simpl; [done|]. by case_decide. Qed.

Lemma split_pieces_clean c s cur : c ∉ cur -> Forall (fun p => c ∉ p) (split_pieces c cur s).
Proof.
  revert cur. induction s as [|b s IH]; intros cur Hc; simpl; [by repeat constructor|]. case_decide as Hb.
  - constructor; [done|]. apply IH, not_elem_of_nil.
  - apply IH. rewrite not_elem_of_app, list_elem_of_singleton. split; [done|congruence].
Qed.

(** Splitting on a delimiter and joining again restores the text (behind one
    delimiter), and joining delimiter-free pieces and splitting restores the
    pieces. *)
Theorem split_join_roundtrip (c : byte) (s : bytes) (ps : list bytes) :
  s <> [] -> ps <> [] -> Forall (fun p => c ∉ p) ps ->
  join (split s c 0) c = c :: s /\ split (join ps c) c 1 = ps.
Proof.
  intros Hs Hne Hps. split.
  - destruct s as [|b s]; [done|]. apply join_split_pieces.
  - by rewrite split_join.
Qed.

Lemma split_join_roundtrip_witness :
  join (split (str "a//b/") slash 0) slash = slash :: str "a//b/" /\
  split (join [str "users"; str "{id}"] slash) slash 1 = [str "users"; str "{id}"].
Proof.
  apply (split_join_roundtrip slash (str "a//b/") [str "users"; str "{id}"]);
    [discriminate..|]. repeat constructor; apply (bool_decide_unpack _); vm_compute; done.
Defined.

(** ** URL decoding *)

Definition hex_digit (z : Z) : byte :=
  if (z <? 10)%Z then of_u8 (48 + z) else of_u8 (55 + z).

Definition unreserved (b : byte) : bool :=
  let z := u8 b in
  ((48 <=? z) && (z <=? 57) || (65 <=? z) && (z <=? 90) || (97 <=? z) && (z <=? 122))%Z
  || bool_decide (b ∈ str "-_.~").

(** Reference: percent-encoding as RFC 3986 specifies it. *)
Definition pct1 (b : byte) : bytes :=
  if unreserved b then [b]
  else [percent; hex_digit (Z.shiftr (u8 b) 4); hex_digit (Z.land (u8 b) 15)].

Definition pct_encode (s : bytes) : bytes := concat (pct1 <$> s).

Lemma url_decode_pct1 b rest : url_decode (pct1 b ++ rest) = b :: url_decode rest.
Proof. destruct b; reflexivity. Qed.

Lemma url_decode_pct s rest : url_decode (pct_encode s ++ rest) = s ++ url_decode rest.
Proof.
  unfold pct_encode. induction s as [|b s IH]; [done|]. rewrite fmap_cons. cbn [concat].
  by rewrite <- app_assoc, url_decode_pct1, IH.
Qed.

Lemma url_decode_pct_encode s : url_decode (pct_encode s) = s.
Proof. rewrite <- (app_nil_r (pct_encode s)), url_decode_pct. apply app_nil_r. Qed.

Definition reserved : bytes := [quest; ampersand; equals; slash].

Lemma pct1_clean b : Forall (fun x => x ∉ reserved) (pct1 b).
Proof. apply (bool_decide_unpack _). destruct b; vm_compute; exact I. Qed.

Lemma pct_encode_clean c s : c ∈ reserved -> c ∉ pct_encode s.
Proof.
  intros Hc Hin. unfold pct_encode in Hin. apply list_elem_of_In, in_concat in Hin as (l & Hl & Hcl).
  apply list_elem_of_In, list_elem_of_fmap in Hl as (b & -> & _). apply list_elem_of_In in Hcl.
  pose proof (pct1_clean b) as H. rewrite Forall_forall in H. by apply (H c).
Qed.

Lemma url_decode_plain s :
  plus ∉ s -> percent ∉ s -> url_decode s = s.
Proof.
  induction s as [|b s IH]; [done|]. rewrite !not_elem_of_cons. intros [??] [??]. simpl.
  rewrite !decide_False by congruence. f_equal. auto.
Qed.

Lemma url_decode_length s : length (url_decode s) <= length s.
Proof.
  induction s as [s IH] using (induction_ltof1 _ (@length byte)). unfold ltof in IH.
  destruct s as [|b s]; [done|]. simpl.
  assert (length (url_decode s) <= length s) by (apply IH; simpl; lia).
  repeat case_decide; simpl; try lia. destruct s as [|h [|l s]]; simpl in *; try lia.
  assert (length (url_decode s) <= length s) by (apply IH; simpl; lia).
  destruct (_ && _)%Z; simpl; lia.
Qed.

(** Every byte string survives percent-encoding followed by [url_decode];
    text without [+] and [%] is left alone; decoding never grows the text. *)
Theorem url_decode_correct (s : bytes) :
  url_decode (pct_encode s) = s /\
  (plus ∉ s -> percent ∉ s -> url_decode s = s) /\
  length (url_decode s) <= length s.
Proof. auto using url_decode_pct_encode, url_decode_plain, url_decode_length. Qed.

(** ** Whole targets *)

(** Reference: how a client writes a query string. *)
Definition query_token (kv : bytes * bytes) : bytes := kv.1 ++ equals :: pct_encode kv.2.

Definition query_string (kvs : list (bytes * bytes)) : bytes := drop 1 (join (query_token <$> kvs) ampersand).

Definition wf_key (k : bytes) : Prop := k <> [] /\ Forall (fun c => c ∉ k) [quest; ampersand; equals].

Lemma wf_key_not_in c k : wf_key k -> c ∈ [quest; ampersand; equals] -> c ∉ k.
Proof. intros [_ H] Hc. rewrite Forall_forall in H. by apply H. Qed.

Lemma query_token_clean c kv :
  wf_key kv.1 -> c ∈ [quest; ampersand] -> c ∉ query_token kv.
Proof.
  intros Hk Hc. unfold query_token. rewrite elem_of_app, elem_of_cons.
  intros [Hin|[->|Hin]].
  - by apply (wf_key_not_in c kv.1); [|rewrite !elem_of_cons in *; tauto|].
  - revert Hc. apply (bool_decide_unpack _). vm_compute. exact I.
  - by apply (pct_encode_clean c kv.2); [unfold reserved; rewrite !elem_of_cons in *; tauto|].
Qed.

Lemma parse_param_token kv :
  wf_key kv.1 -> parse_param (query_token kv) = [mkParam kv.1 kv.2].
Proof.
  intros Hk. unfold parse_param, query_token. destruct kv as [k v]. cbn [fst snd] in *.
  assert (k <> []) as Hne by apply Hk. rewrite split_nonempty by apply app_cons_nonempty.
  rewrite split_pieces_delim by (apply wf_key_not_in; [done|set_solver]).
  rewrite split_pieces_end by (apply pct_encode_clean; unfold reserved; set_solver).
  simpl. by rewrite decide_False, url_decode_pct_encode.
Qed.

Lemma split_query kvs :
  Forall (fun kv => wf_key kv.1) kvs ->
  split (query_string kvs) ampersand 0 = query_token <$> kvs.
Proof.
  intros Hk. unfold query_string. destruct kvs as [|kv kvs]; [done|].
  rewrite fmap_cons, join_cons. cbn [drop].
  rewrite split_nonempty by (unfold query_token; rewrite <- app_assoc; apply app_cons_nonempty).
  rewrite !drop_0, split_pieces_join; [done|]. rewrite <- fmap_cons.
  apply Forall_fmap. eapply Forall_impl; [exact Hk|]. intros kv' Hkv'.
  apply query_token_clean; [done|]. set_solver.
Qed.

Lemma query_string_no_quest kvs :
  Forall (fun kv => wf_key kv.1) kvs -> quest ∉ query_string kvs.
Proof.
  intros Hk Hin. unfold query_string in Hin. apply subseteq_drop in Hin. rewrite join_concat in Hin.
  apply list_elem_of_In, in_concat in Hin as (l & Hl & Hin).
  apply list_elem_of_In, list_elem_of_fmap in Hl as (t & -> & Ht).
  apply list_elem_of_fmap in Ht as (kv & -> & Hkv). rewrite Forall_forall in Hk.
  apply list_elem_of_In, elem_of_cons in Hin as [Hin|Hin].
  - revert Hin. apply (bool_decide_unpack _). vm_compute. exact I.
  - revert Hin. apply query_token_clean; [by apply Hk|]. set_solver.
Qed.

Lemma parse_function_query {E} p kvs :
  slash ∈ p -> quest ∉ p -> Forall (fun kv => wf_key kv.1) kvs ->
  @parse_function E (p ++ quest :: query_string kvs) =
  mkFunc p ((fun kv => mkParam kv.1 kv.2) <$> kvs) None.
Proof.
  intros Hs Hq Hk. unfold parse_function. rewrite decide_True by set_solver.
  rewrite split_nonempty, drop_0, split_pieces_delim by (done || apply app_cons_nonempty).
  rewrite split_pieces_end by by apply query_string_no_quest. simpl.
  rewrite split_query by done. f_equal. induction Hk as [|kv kvs Hkv Hk IH]; [done|].
  rewrite !fmap_cons. cbn [concat]. by rewrite parse_param_token, IH.
Qed.

Lemma parse_function_plain {E} p :
  quest ∉ p -> p <> [] -> @parse_function E p = mkFunc p [] None.
Proof.
  intros Hq Hne. unfold parse_function. case_decide; [|done].
  by rewrite split_nonempty, drop_0, split_pieces_end.
Qed.

(** A request target written as a path and percent-encoded parameters is
    parsed back into exactly that path and those parameters, in order, whatever
    bytes the values contain. *)
Theorem parse_function_roundtrip (E : Type) (p : bytes) (kvs : list (bytes * bytes)) :
  slash ∈ p -> quest ∉ p -> Forall (fun kv => wf_key kv.1) kvs ->
  @parse_function E (p ++ quest :: query_string kvs) =
  mkFunc p ((fun kv => mkParam kv.1 kv.2) <$> kvs) None.
Proof. apply parse_function_query. Qed.

Lemma parse_function_roundtrip_witness :
  @parse_function unit (str "/a/b?q=x%20%26y&z=") =
  mkFunc (str "/a/b") [mkParam (str "q") (str "x &y"); mkParam (str "z") []] None.
Proof.
  apply (parse_function_roundtrip unit (str "/a/b") [(str "q", str "x &y"); (str "z", [])]).
  - apply (bool_decide_unpack _). vm_compute. exact I.
  - apply (bool_decide_unpack _). vm_compute. exact I.
  - repeat constructor; try discriminate; apply (bool_decide_unpack _); vm_compute; exact I.
Defined.

(** ** Route matching *)

Definition is_template (p : bytes) : bool := bool_decide (head p = Some lbrace /\ last p = Some rbrace).

Definition seg_matchb (p q : bytes) : bool := bool_decide (p = q) || is_template p.

(** Reference: a route matches a path when both have the same number of segments
    and each segment of the route is that of the path or a template. *)
Definition match_segs (ps qs : list bytes) : bool :=
  bool_decide (length ps = length qs) && forallb (uncurry seg_matchb) (zip ps qs).

(** A route as it should be registered: non-empty segments without slashes. *)
Definition wf_route (ps : list bytes) : Prop :=
  ps <> [] /\ Forall (fun p => p <> [] /\ slash ∉ p) ps.

Definition wf_path (qs : list bytes) : Prop := qs <> [] /\ Forall (fun q => slash ∉ q) qs.

Lemma wf_route_path ps : wf_route ps -> wf_path ps.
Proof. intros [Hne H]. split; [done|]. eapply Forall_impl; [exact H|]. by intros p []. Qed.

Lemma braced_nonempty p : p <> [] -> braced p = Some (is_template p).
Proof.
  destruct p as [|b p]; [done|]. intros _. unfold braced, is_template. case_decide as Hb.
  - subst. f_equal. apply bool_decide_ext. split; [done | by intros [_ ?]].
  - rewrite bool_decide_false; [done|]. intros [Hh _]. simpl in Hh. congruence.
Qed.

Lemma seg_match_defined p q : p <> [] \/ p = q -> seg_match p q = Some (seg_matchb p q).
Proof.
  intros H. unfold seg_match, seg_matchb. case_decide.
  - by rewrite bool_decide_true.
  - rewrite bool_decide_false by done. apply braced_nonempty. tauto.
Qed.

Lemma transform2_total {A B C} (f : A -> B -> option C) (g : A -> B -> C) l k :
  Forall2 (fun a b => f a b = Some (g a b)) l k -> transform2 f l k = Some (zip_with g l k).
Proof. induction 1 as [|a b l k Hab H IH]; simpl; [done|]. by rewrite Hab, IH. Qed.

Lemma forallb_zip {A B} (f : A -> B -> bool) l k :
  forallb id (zip_with f l k) = forallb (uncurry f) (zip l k).
Proof. revert k. induction l as [|a l IH]; intros [|b k]; simpl; try done. by rewrite IH. Qed.

Lemma route_segs_defined ps qs :
  wf_route ps -> length ps = length qs ->
  Forall2 (fun p q => seg_match p q = Some (seg_matchb p q)) ps qs.
Proof.
  intros [_ Hps] Hl. apply Forall2_same_length_lookup. split; [done|]. intros i p q Hp _.
  apply seg_match_defined. left. by apply (Forall_lookup_1 _ _ _ _ Hps Hp).
Qed.

Lemma mapper_eq_route ps qs m m' :
  wf_route ps -> wf_path qs ->
  mapper_eq (mkMapper (join ps slash) m) (mkMapper (join qs slash) m') =
  Some (bool_decide (m = m') && match_segs ps qs).
Proof.
  intros Hps [Hq Hqs]. destruct (wf_route_path ps Hps) as [Hp Hps']. unfold mapper_eq. simpl.
  case_decide as Hm; [by rewrite bool_decide_false|].
  rewrite bool_decide_true, !split_join by done. cbn [drop length andb]. unfold match_segs.
  case_decide as Hl.
  - rewrite bool_decide_false; [done|]. lia.
  - rewrite bool_decide_true by lia. simpl.
    rewrite (transform2_total _ seg_matchb); [by rewrite <- forallb_zip|].
    apply route_segs_defined; [done|lia].
Qed.

Lemma flat_find_spec {V} (m : list (request_mapper * V)) key f :
  Forall (fun e => mapper_eq e.1 key = Some (f e)) m -> flat_find m key = Some (find_if f m).
Proof.
  induction 1 as [|e m He Hm IH]; simpl; [done|]. rewrite He. simpl.
  destruct (f e); [done|]. rewrite IH. simpl. by destruct (find_if f m) as [[]|].
Qed.

(** ** Dispatch *)

Definition bind_segment (p q : bytes) : parameter :=
  if is_template p then mkParam (strip_braces p) q else mkParam p [].

Lemma extract_params_route {E} (f : http_function E) ps qs :
  wf_route ps -> wf_path qs -> length ps = length qs ->
  extract_params_from_path f (join ps slash) (join qs slash) =
  Some (mkFunc (_name f) (_params f ++ zip_with bind_segment ps qs) (rep f)).
Proof.
  intros Hps [Hq Hqs] Hl. destruct (wf_route_path ps Hps) as [Hp Hps'].
  unfold extract_params_from_path. rewrite !split_join by done. cbn [drop].
  rewrite !drop_0, decide_False by tauto.
  rewrite (transform2_total _ bind_segment); [done|].
  apply Forall2_same_length_lookup. split; [done|]. intros i p q Hpi _.
  unfold path_param. rewrite braced_nonempty by (destruct Hps as [_ Hps]; by apply (Forall_lookup_1 _ _ _ _ Hps Hpi)).
  unfold bind_segment. simpl. by destruct (is_template p).
Qed.

Lemma match_segs_length ps qs : match_segs ps qs = true -> length ps = length qs.
Proof. unfold match_segs. intros [H _]%andb_true_iff. by apply bool_decide_eq_true in H. Qed.

Section dispatch.

Context {E B S : Type}.

Abbreviation route := (list bytes * verb * handler E B)%type.

Definition entry (rt : route) : request_mapper * handler E B :=
  (mkMapper (join rt.1.1 slash) rt.1.2, rt.2).

Definition route_matches (qs : list bytes) (m : verb) (rt : route) : bool :=
  bool_decide (rt.1.2 = m) && match_segs rt.1.1 qs.

Lemma find_if_fmap {X Y} (g : X -> Y) (f : Y -> bool) (l : list X) :
  find_if f (g <$> l) = prod_map id g <$> find_if (f ∘ g) l.
Proof.
  induction l as [|x l IH]; [done|]. rewrite fmap_cons. simpl. case_match; [done|].
  rewrite IH. unfold compose. by destruct (find_if _ l) as [[]|].
Qed.

Lemma flat_find_routes (routes : list route) qs m :
  Forall (fun rt => wf_route rt.1.1) routes -> wf_path qs ->
  flat_find (entry <$> routes) (mkMapper (join qs slash) m) =
  Some (prod_map id entry <$> find_if (route_matches qs m) routes).
Proof.
  intros Hr Hq. rewrite (flat_find_spec _ _
    (fun e => default false (mapper_eq e.1 (mkMapper (join qs slash) m)))).
  - f_equal. rewrite find_if_fmap. f_equal.
    induction Hr as [|rt routes Hrt Hr IH]; [done|]. simpl.
    rewrite mapper_eq_route by done. simpl. fold (route_matches qs m rt).
    destruct (route_matches qs m rt); [done|]. by rewrite IH.
  - apply Forall_fmap. eapply Forall_impl; [exact Hr|]. intros rt Hrt.
    unfold compose. simpl. by rewrite mapper_eq_route.
Qed.

End dispatch.

(** The dispatch of a request whose target is parsed to a path and parameters, with
    well-formed routes. *)
Lemma process_request_path {E B S} (r : HttpRouter E B S) (routes : list (list bytes * verb * handler E B))
    (req : Request B) (ep : E) (qs : list bytes) (query : list parameter) :
  handler_for_verb r (req_method req) = entry <$> routes ->
  Forall (fun rt => wf_route rt.1.1) routes -> wf_path qs ->
  @parse_function E (req_target req) = mkFunc (join qs slash) query None ->
  process_request r req ep =
  match find_if (route_matches qs (req_method req)) routes with
  | Some (_, (ps, _, h)) => Some (h req (mkFunc (join qs slash) (query ++ zip_with bind_segment ps qs) (Some ep)))
  | None =>
      match fallback_handler r with
      | Some h => Some (h req (mkFunc (join qs slash) query (Some ep)))
      | None => Some (Returns (make_error_response (join qs slash)))
      end
  end.
Proof.
  intros Htbl Hr Hq Ht. unfold process_request. rewrite Ht. cbn [setEndpoint _name _params rep].
  rewrite Htbl, flat_find_routes by done. simpl.
  destruct (find_if _ routes) as [[i [[ps m] h]]|] eqn:Ef; simpl.
  - apply find_if_Some in Ef as (Hi & Hmatch & _).
    assert (wf_route ps) by (by apply (Forall_lookup_1 _ _ _ _ Hr Hi)).
    apply andb_true_iff in Hmatch as [_ Hl%match_segs_length].
    by rewrite extract_params_route.
  - by destruct (fallback_handler r).
Qed.

Lemma slash_in_path qs : wf_path qs -> slash ∈ join qs slash.
Proof. intros [Hne _]. destruct qs; [done|]. rewrite join_cons. constructor. Qed.

Lemma process_request_routes {E B S} (r : HttpRouter E B S) (routes : list (list bytes * verb * handler E B))
    (req : Request B) (ep : E) (qs : list bytes) (kvs : list (bytes * bytes)) :
  handler_for_verb r (req_method req) = entry <$> routes ->
  Forall (fun rt => wf_route rt.1.1) routes ->
  wf_path qs -> quest ∉ join qs slash -> Forall (fun kv => wf_key kv.1) kvs ->
  req_target req = join qs slash ++ quest :: query_string kvs ->
  let query := (fun kv => mkParam kv.1 kv.2) <$> kvs in
  process_request r req ep =
  match find_if (route_matches qs (req_method req)) routes with
  | Some (_, (ps, _, h)) => Some (h req (mkFunc (join qs slash) (query ++ zip_with bind_segment ps qs) (Some ep)))
  | None =>
      match fallback_handler r with
      | Some h => Some (h req (mkFunc (join qs slash) query (Some ep)))
      | None => Some (Returns (make_error_response (join qs slash)))
      end
  end.
Proof.
  intros Htbl Hr Hq Hnq Hk Ht query. apply process_request_path; [done..|].
  rewrite Ht. apply parse_function_query; [by apply slash_in_path|done..].
Qed.

(** A text is what is before its first question mark, and the rest. *)
Lemma before_quest (s : bytes) : exists p tail, s = p ++ tail /\ quest ∉ p /\ (tail = [] \/ head tail = Some quest).
Proof.
  induction s as [|b s (p & tail & -> & Hp & Ht)]; [exists [], []; split; [done|]; split; [apply not_elem_of_nil|by left]|].
  destruct (decide (b = quest)) as [->|Hb].
  - exists [], (quest :: p ++ tail). split; [done|]. split; [apply not_elem_of_nil|by right].
  - exists (b :: p), tail. split; [done|]. split; [|done]. rewrite not_elem_of_cons. by split.
Qed.

(** A path that begins with a slash is one of segments. *)
Lemma path_segments (p : bytes) : exists qs, wf_path qs /\ slash :: p = join qs slash.
Proof.
  exists (split_pieces slash [] p). split; [|by rewrite join_split_pieces]. split; [apply split_pieces_nonempty|].
  apply split_pieces_clean, not_elem_of_nil.
Qed.

Lemma parse_function_path {E} p tail :
  slash ∈ p -> quest ∉ p -> (tail = [] \/ head tail = Some quest) ->
  exists query, @parse_function E (p ++ tail) = mkFunc p query None /\ (tail = [] -> query = []).
Proof.
  intros Hs Hq Ht. assert (p <> []) by (by intros ->; apply not_elem_of_nil in Hs). destruct Ht as [->|Ht].
  { exists []. rewrite app_nil_r. split; [by apply parse_function_plain|done]. }
  destruct tail as [|b tail]; [done|]. injection Ht as ->. unfold parse_function. rewrite decide_True by set_solver.
  rewrite split_nonempty, drop_0, split_pieces_delim by (done || apply app_cons_nonempty).
  destruct (split_pieces quest [] tail) as [|q qs]; by eexists.
Qed.

(** C8: when every route of a method's table is well formed, a request is
    answered by the first registered route of its method that matches its path,
    which is its target up to a question mark; the handler sees the query parameters
    followed by one parameter per route segment, templates bound to the segment of
    the request; with no matching route the fallback handler answers, or a 404
    without one.  This holds of every target that begins with a slash: without a
    query there are no query parameters, and those of a query of keys and
    percent-encoded values are these.  No access outside a string view occurs on
    the way. *)
Theorem dispatch_first_match {E B S} (r : HttpRouter E B S) (routes : list (list bytes * verb * handler E B))
    (req : Request B) (ep : E) (rest : bytes) :
  handler_for_verb r (req_method req) = entry <$> routes ->
  Forall (fun rt => wf_route rt.1.1) routes ->
  req_target req = slash :: rest ->
  exists qs tail query,
    req_target req = join qs slash ++ tail /\ wf_path qs /\ quest ∉ join qs slash /\ (tail = [] \/ head tail = Some quest) /\
    (tail = [] -> query = []) /\
    (forall kvs, Forall (fun kv => wf_key kv.1) kvs -> tail = quest :: query_string kvs ->
       query = (fun kv => mkParam kv.1 kv.2) <$> kvs) /\
    process_request r req ep =
    match find_if (route_matches qs (req_method req)) routes with
    | Some (_, (ps, _, h)) => Some (h req (mkFunc (join qs slash) (query ++ zip_with bind_segment ps qs) (Some ep)))
    | None =>
        match fallback_handler r with
        | Some h => Some (h req (mkFunc (join qs slash) query (Some ep)))
        | None => Some (Returns (make_error_response (join qs slash)))
        end
    end.
Proof.
  intros Htbl Hr Ht. destruct (before_quest rest) as (p & tail & -> & Hp & Htail).
  destruct (path_segments p) as (qs & Hq & Hqs).
  assert (Hnq : quest ∉ join qs slash) by (rewrite <- Hqs; rewrite not_elem_of_cons; by split).
  assert (Htarget : req_target req = join qs slash ++ tail) by (rewrite Ht, <- Hqs; done).
  destruct (@parse_function_path E (join qs slash) tail (slash_in_path qs Hq) Hnq Htail) as (query & Hf & Hnone).
  exists qs, tail, query. do 5 (split; [done|]). split.
  - intros kvs Hk ->. rewrite parse_function_query in Hf by (done || by apply slash_in_path). by injection Hf as <-.
  - apply process_request_path; [done..|]. by rewrite Htarget.
Qed.

Section dispatch_examples.

Definition echo_param (name : bytes) : handler unit unit :=
  fun _ f => Returns (make_success_response (param f name) 200 11 (str "plain/text")).

Definition user_route : list bytes := [str "users"; str "{id}"].

Definition user_router (h : handler unit unit) : HttpRouter unit unit unit :=
  mkRouter None [entry (user_route, verb_get, h)] [] [] [] ∅.

Definition get_request (target : bytes) : Request unit := mkRequest verb_get target 11%Z tt.

End dispatch_examples.

Lemma dispatch_first_match_witness :
  let h := echo_param (str "id") in
  exists qs tail query,
    str "/users/al?x=1" = join qs slash ++ tail /\
    process_request (user_router h) (get_request (str "/users/al?x=1")) tt =
    match find_if (route_matches qs verb_get) [(user_route, verb_get, h)] with
    | Some (_, (ps, _, h)) => Some (h (get_request (str "/users/al?x=1")) (mkFunc (join qs slash) (query ++ zip_with bind_segment ps qs) (Some tt)))
    | None => Some (Returns (make_error_response (join qs slash)))
    end.
Proof.
  destruct (dispatch_first_match (user_router (echo_param (str "id")))
              [(user_route, verb_get, echo_param (str "id"))] (get_request (str "/users/al?x=1")) tt (str "users/al?x=1"))
    as (qs & tail & query & Ht & _ & _ & _ & _ & _ & H).
  - reflexivity.
  - repeat constructor; try discriminate; apply (bool_decide_unpack _); vm_compute; exact I.
  - reflexivity.
  - exists qs, tail, query. split; [exact Ht|exact H].
Defined.

(** The same, evaluated; and a target without a query. *)
Example dispatch_values :
  process_request (user_router (echo_param (str "id"))) (get_request (str "/users/al?x=1")) tt =
  Some (echo_param (str "id") (get_request (str "/users/al?x=1"))
          (mkFunc (str "/users/al")
             [mkParam (str "x") (str "1"); mkParam (str "users") []; mkParam (str "id") (str "al")] (Some tt))) /\
  process_request (user_router (echo_param (str "id"))) (get_request (str "/users/al")) tt =
  Some (echo_param (str "id") (get_request (str "/users/al"))
          (mkFunc (str "/users/al") [mkParam (str "users") []; mkParam (str "id") (str "al")] (Some tt))).
Proof. split; reflexivity. Qed.

Lemma find_param_app (k k' : list parameter) name :
  Forall (fun p => pname p <> name) k ->
  snd <$> find_if (fun p => bool_decide (pname p = name)) (k ++ k') =
  snd <$> find_if (fun p => bool_decide (pname p = name)) k'.
Proof.
  induction 1 as [|p k Hp Hk IH]; simpl; [done|]. rewrite bool_decide_false by done.
  rewrite <- IH. by destruct (find_if _ (k ++ k')) as [[]|].
Qed.

(** A handler that looks up a template's name receives the segment of the
    request path in that place, when no query parameter and no earlier segment
    of the route bears the same name. *)
Theorem path_param_lookup {E} (query : list parameter) (ps qs ps' qs' : list bytes)
    (name q : bytes) (nm : bytes) (ep : option E) :
  length ps = length qs ->
  Forall (fun p => pname p <> name) query ->
  Forall (fun p => pname p <> name) (zip_with bind_segment ps qs) ->
  let tmpl := lbrace :: name ++ [rbrace] in
  param (mkFunc nm (query ++ zip_with bind_segment (ps ++ tmpl :: ps') (qs ++ q :: qs')) ep) name = q.
Proof.
  intros Hl Hquery Hpre tmpl. unfold param. simpl.
  rewrite zip_with_app, app_assoc by done. simpl.
  assert (bind_segment tmpl q = mkParam name q) as ->.
  { unfold bind_segment, is_template, tmpl. rewrite bool_decide_true.
    - unfold strip_braces. simpl. rewrite length_app. simpl.
      replace (length name + 1 - 1) with (length name) by lia. by rewrite drop_0, take_app_length.
    - split; [done|]. by rewrite (app_comm_cons name), last_snoc. }
  pose proof (find_param_app (query ++ zip_with bind_segment ps qs)
    (mkParam name q :: zip_with bind_segment ps' qs') name) as H.
  rewrite Forall_app in H. specialize (H (conj Hquery Hpre)). simpl in H.
  rewrite bool_decide_true in H by done. simpl in H.
  destruct (find_if _ _) as [[i p]|]; simpl in H; [|done]. injection H as ->. simpl.
  by destruct q.
Qed.

Lemma path_param_lookup_witness :
  param (mkFunc (str "/users/al") ([mkParam (str "x") (str "1")] ++
    zip_with bind_segment ([str "users"] ++ (lbrace :: str "id" ++ [rbrace]) :: [])
      ([str "users"] ++ str "al" :: [])) (Some tt)) (str "id") = str "al".
Proof.
  apply (path_param_lookup [mkParam (str "x") (str "1")] [str "users"] [str "users"] [] []
           (str "id") (str "al") (str "/users/al") (Some tt)); [done|..];
    repeat constructor; discriminate.
Defined.

(** The query string wins over the path: with the route [/users/{id}] a
    client that appends [?id=...] chooses the value the handler reads for the
    path parameter, for every handler. *)
Theorem query_shadows_path (h : handler unit unit) :
  exists f,
    process_request (user_router h) (get_request (str "/users/alice?id=bob")) tt =
    Some (h (get_request (str "/users/alice?id=bob")) f) /\
    _name f = str "/users/alice" /\ param f (str "id") = str "bob".
Proof. eexists. by split_and!. Qed.

(** Registering a literal route after a template that matches it replaces
    the template's handler and keeps the template's path; registered the other
    way round both routes are kept and the literal one is preferred. *)
Theorem literal_after_template (h1 h2 : handler unit unit) :
  (add_get_handler (sse_handler := unit) router_init (str "/users/{id}") h1 ≫=
     (fun r => add_get_handler r (str "/users/me") h2)) =
    Some (mkRouter None [(mkMapper (str "/users/{id}") verb_get, h2)] [] [] [] ∅) /\
  (add_get_handler (sse_handler := unit) router_init (str "/users/me") h2 ≫=
     (fun r => add_get_handler r (str "/users/{id}") h1)) =
    Some (mkRouter None [(mkMapper (str "/users/me") verb_get, h2);
                         (mkMapper (str "/users/{id}") verb_get, h1)] [] [] [] ∅).
Proof. by split. Qed.

(** The root route is not safe to register: a request for [/] itself reads
    the first character of an empty string view while binding parameters, and a
    request for any other one-segment path does so while matching. *)
Theorem root_route_undefined (h : handler unit unit) (q : bytes) :
  q <> [] -> slash ∉ q -> quest ∉ q ->
  let r := mkRouter (sse_handler := unit) None [(mkMapper (str "/") verb_get, h)] [] [] [] ∅ in
  process_request r (get_request (str "/")) tt = None /\
  process_request r (get_request (slash :: q)) tt = None.
Proof.
  intros Hne Hs Hq r. split; [done|].
  unfold process_request. cbn [req_target get_request]. rewrite parse_function_plain;
    [|rewrite not_elem_of_cons; split; [discriminate|done]|done].
  cbn -[mapper_eq]. unfold mapper_eq. cbn [path method]. rewrite decide_False by (intros H; by apply H).
  replace (slash :: q) with (join [q] slash) by (by rewrite join_cons; simpl; rewrite app_nil_r).
  rewrite (split_join slash [q] 0) by (done || by constructor). simpl.
  unfold seg_match at 1. by rewrite decide_False by done.
Qed.

Lemma root_route_undefined_witness :
  process_request (mkRouter (sse_handler := unit) None
      [(mkMapper (str "/") verb_get, echo_param (str "id"))] [] [] [] ∅) (get_request (str "/x")) tt = None.
Proof.
  apply (root_route_undefined (echo_param (str "id")) (str "x")); [discriminate|..];
    apply (bool_decide_unpack _); vm_compute; exact I.
Defined.
