(* ===== verification/Pool.v ===== *)
(** * The HTTP connection pool: [include/connection_pool.hpp]

    The pool's own operations are state-passing functions on the map of hosts.
    [acquire] is a coroutine that suspends while it connects and while it waits
    for a slot; [step] interleaves any number of such coroutines, the leases they
    obtain and the timers they wait on, one uninterrupted segment of code at a
    time, which is how a single-threaded [io_context] runs them. *)

From S2P Require Import Prelude.

Record ConnectionPoolConfig := mkConfig {
  maxConnectionsPerHost : nat;
  idleTimeout : Z;
}.

Record EndpointKey := mkKey { hostOrPath : bytes; port : bytes }.

#[export] Instance EndpointKey_eq_dec : EqDecision EndpointKey.
Proof. solve_decision. Defined.

#[export] Instance EndpointKey_countable : Countable EndpointKey :=
  inj_countable' (fun k => (hostOrPath k, port k)) (fun p => mkKey p.1 p.2) ltac:(by intros []).

(** A connected [HttpClient]: the endpoint it was connected to, and its identity. *)
Record client := mkClient { peer : EndpointKey; serial : nat }.

#[export] Instance client_eq_dec : EqDecision client.
Proof. solve_decision. Defined.

Record IdleEntry := mkIdle { iclient : client; lastUsed : Z }.

(** A waiter is named by the coroutine that sleeps on it. *)
Record HostState := mkHost {
  activeCount : nat;
  idle : list IdleEntry;
  waiters : list nat;
}.

Definition hostInit : HostState := mkHost 0 [] [].

Abbreviation hosts_t := (gmap EndpointKey HostState).

(** [hosts_[key]] creates the entry it does not find. *)
Definition host (h : hosts_t) (k : EndpointKey) : HostState := default hostInit (h !! k).

(** ** Operations of the pool *)

(** Newest entry first: the source pops from the back of the vector. *)
Fixpoint extract_loop (timeout now : Z) (rev_idle : list IdleEntry) : option client * list IdleEntry :=
  match rev_idle with
  | [] => (None, [])
  | e :: rest =>
      if (now - lastUsed e <=? timeout)%Z then (Some (iclient e), rest)
      else extract_loop timeout now rest
  end.

Definition extractIdleConnection (cfg : ConnectionPoolConfig) (st : HostState) (now : Z)
    : option client * HostState :=
  let '(c, rest) := extract_loop (idleTimeout cfg) now (reverse (idle st)) in
  (c, mkHost (activeCount st) (reverse rest) (waiters st)).

(** How one turn of [acquire]'s loop ends: with an idle connection, by starting
    to connect, or by going to sleep. *)
Inductive turn := GotIdle (c : client) | Connects | Waits.

Definition acquire_turn (cfg : ConnectionPoolConfig) (h : hosts_t) (k : EndpointKey) (now : Z) (tid : nat)
    : turn * hosts_t :=
  let '(found, st) := extractIdleConnection cfg (host h k) now in
  match found with
  | Some c => (GotIdle c, <[k := mkHost (S (activeCount st)) (idle st) (waiters st)]> h)
  | None =>
      if decide (activeCount st < maxConnectionsPerHost cfg) then
        (Connects, <[k := mkHost (S (activeCount st)) (idle st) (waiters st)]> h)
      else (Waits, <[k := mkHost (activeCount st) (idle st) (waiters st ++ [tid])]> h)
  end.

(** [notifyWaiter(key)]: the waiter whose timer is cancelled. *)
Definition notifyWaiter (h : hosts_t) (k : EndpointKey) : option nat * hosts_t :=
  match h !! k with
  | Some (mkHost a i (w :: ws)) => (Some w, <[k := mkHost a i ws]> h)
  | _ => (None, h)
  end.

(** The failure branch of [createNewConnection]. *)
Definition connectFailed (h : hosts_t) (k : EndpointKey) : option nat * hosts_t :=
  let st := host h k in
  notifyWaiter (<[k := mkHost (pred (activeCount st)) (idle st) (waiters st)]> h) k.

Definition returnConnection (h : hosts_t) (k : EndpointKey) (c : option client) (valid : bool) (now : Z)
    : option nat * hosts_t :=
  match h !! k with
  | None => (None, h)
  | Some st =>
      let i := match c with
               | Some c => if valid then idle st ++ [mkIdle c now] else idle st
               | None => idle st
               end in
      notifyWaiter (<[k := mkHost (pred (activeCount st)) i (waiters st)]> h) k
  end.

(** The timeout branch of [waitForAvailableSlot]. *)
Definition dropWaiter (h : hosts_t) (k : EndpointKey) (tid : nat) : hosts_t :=
  let st := host h k in
  <[k := mkHost (activeCount st) (idle st) (filter (fun w => w <> tid) (waiters st))]> h.

Definition active (h : hosts_t) (k : EndpointKey) : nat :=
  match h !! k with Some st => activeCount st | None => 0 end.

Definition idleCount (h : hosts_t) (k : EndpointKey) : nat :=
  match h !! k with Some st => length (idle st) | None => 0 end.

(** ** The coroutines *)

(** The completion of a timer wait: none yet, queued by [cancel], or queued by
    the expiry.  [cancel] has no effect once a completion is queued. *)
Inductive wait := Pending | Aborted | Expired.

Inductive task :=
  | Connecting (k : EndpointKey)
  | Leased (k : EndpointKey) (c : client) (valid : bool)
  | Waiting (k : EndpointKey) (now : Z) (w : wait)
  | Returned (k : EndpointKey)
  | TimedOut (k : EndpointKey)
  | Failed (k : EndpointKey).

Record sys := mkSys { hosts_ : hosts_t; tasks : gmap nat task; nextSerial : nat }.

Definition sysInit : sys := mkSys ∅ ∅ 0.

Definition cancel (t : gmap nat task) (w : option nat) : gmap nat task :=
  match w with
  | None => t
  | Some tid =>
      match t !! tid with
      | Some (Waiting k now Pending) => <[tid := Waiting k now Aborted]> t
      | _ => t
      end
  end.

(** Where a coroutine is after one turn of the loop. *)
Definition after_turn (k : EndpointKey) (now : Z) (o : turn) : task :=
  match o with
  | GotIdle c => Leased k c true
  | Connects => Connecting k
  | Waits => Waiting k now Pending
  end.

Inductive event :=
  | Start (tid : nat) (k : EndpointKey) (now : Z)
  | ConnectOk (tid : nat)
  | ConnectFail (tid : nat)
  | Expire (tid : nat)
  | Resume (tid : nat)
  | MarkInvalid (tid : nat)
  | Release (tid : nat) (now : Z)
  | ReleaseClient (tid : nat)
  | Clear.

Definition run_turn (cfg : ConnectionPoolConfig) (s : sys) (tid : nat) (k : EndpointKey) (now : Z) : sys :=
  let '(o, h) := acquire_turn cfg (hosts_ s) k now tid in
  mkSys h (<[tid := after_turn k now o]> (tasks s)) (nextSerial s).

(** [clear()]: every waiter is cancelled and every host forgotten. *)
Definition clear (s : sys) : sys :=
  let ws := concat ((fun e => waiters e.2) <$> map_to_list (hosts_ s)) in
  mkSys ∅ (foldl (fun t w => cancel t (Some w)) (tasks s) ws) (nextSerial s).

(** One event; [None] when it is not enabled. *)
Definition step (cfg : ConnectionPoolConfig) (s : sys) (e : event) : option sys :=
  match e with
  | Start tid k now =>
      match tasks s !! tid with None => Some (run_turn cfg s tid k now) | Some _ => None end
  | ConnectOk tid =>
      match tasks s !! tid with
      | Some (Connecting k) =>
          Some (mkSys (hosts_ s) (<[tid := Leased k (mkClient k (nextSerial s)) true]> (tasks s))
                      (S (nextSerial s)))
      | _ => None
      end
  | ConnectFail tid =>
      match tasks s !! tid with
      | Some (Connecting k) =>
          let '(w, h) := connectFailed (hosts_ s) k in
          Some (mkSys h (cancel (<[tid := Failed k]> (tasks s)) w) (nextSerial s))
      | _ => None
      end
  | Expire tid =>
      match tasks s !! tid with
      | Some (Waiting k now Pending) =>
          Some (mkSys (hosts_ s) (<[tid := Waiting k now Expired]> (tasks s)) (nextSerial s))
      | _ => None
      end
  | Resume tid =>
      match tasks s !! tid with
      | Some (Waiting k now Aborted) => Some (run_turn cfg s tid k now)
      | Some (Waiting k now Expired) =>
          Some (mkSys (dropWaiter (hosts_ s) k tid) (<[tid := TimedOut k]> (tasks s)) (nextSerial s))
      | _ => None
      end
  | MarkInvalid tid =>
      match tasks s !! tid with
      | Some (Leased k c _) =>
          Some (mkSys (hosts_ s) (<[tid := Leased k c false]> (tasks s)) (nextSerial s))
      | _ => None
      end
  | Release tid now =>
      match tasks s !! tid with
      | Some (Leased k c valid) =>
          let '(w, h) := returnConnection (hosts_ s) k (Some c) valid now in
          Some (mkSys h (cancel (<[tid := Returned k]> (tasks s)) w) (nextSerial s))
      | _ => None
      end
  | ReleaseClient tid =>
      match tasks s !! tid with
      | Some (Leased k c _) =>
          let '(w, h) := returnConnection (hosts_ s) k None false 0 in
          Some (mkSys h (cancel (<[tid := Returned k]> (tasks s)) w) (nextSerial s))
      | _ => None
      end
  | Clear => Some (clear s)
  end.

Fixpoint run (cfg : ConnectionPoolConfig) (s : sys) (es : list event) : option sys :=
  match es with
  | [] => Some s
  | e :: es => match step cfg s e with Some s' => run cfg s' es | None => None end
  end.

(** ** Facts about the operations *)

Section pool_facts.

Context (cfg : ConnectionPoolConfig).

Definition expired (now : Z) (e : IdleEntry) : Prop := (idleTimeout cfg < now - lastUsed e)%Z.

Lemma extract_loop_spec now l :
  match extract_loop (idleTimeout cfg) now l with
  | (Some c, rest) =>
      exists dropped e, l = dropped ++ e :: rest /\ iclient e = c /\ ~ expired now e /\
        Forall (expired now) dropped
  | (None, rest) => rest = [] /\ Forall (expired now) l
  end.
Proof.
  unfold expired. induction l as [|e l IH]; simpl; [done|].
  destruct (Z.leb_spec (now - lastUsed e) (idleTimeout cfg)) as [He|He].
  - exists [], e. split_and!; auto. lia.
  - destruct (extract_loop _ now l) as [[c|] rest].
    + destruct IH as (dropped & e' & -> & ? & ? & ?). exists (e :: dropped), e'. auto.
    + destruct IH. auto.
Qed.

Lemma extractIdle_spec st now :
  match extractIdleConnection cfg st now with
  | (Some c, st') =>
      exists e dropped, idle st = idle st' ++ e :: dropped /\ iclient e = c /\ ~ expired now e /\
        Forall (expired now) dropped /\ activeCount st' = activeCount st /\ waiters st' = waiters st
  | (None, st') =>
      Forall (expired now) (idle st) /\ idle st' = [] /\
      activeCount st' = activeCount st /\ waiters st' = waiters st
  end.
Proof.
  unfold extractIdleConnection. pose proof (extract_loop_spec now (reverse (idle st))) as H.
  destruct (extract_loop _ now _) as [[c|] rest]; simpl.
  - destruct H as (dropped & e & Hl & Hc & He & Hd). exists e, (reverse dropped).
    split_and!; auto using Forall_reverse.
    apply (f_equal reverse) in Hl. rewrite reverse_involutive in Hl. rewrite Hl.
    by rewrite reverse_app, reverse_cons, <- app_assoc.
    by apply Forall_reverse.
  - destruct H as [-> H]. split_and!; try done. by apply Forall_reverse in H; rewrite ?reverse_involutive in H.
Qed.

Lemma host_insert h k st k' : host (<[k := st]> h) k' = if decide (k = k') then st else host h k'.
Proof. unfold host. rewrite lookup_insert. by case_decide. Qed.

Lemma active_host h k : active h k = activeCount (host h k).
Proof. unfold active, host. by destruct (h !! k). Qed.

Lemma idleCount_host h k : idleCount h k = length (idle (host h k)).
Proof. unfold idleCount, host. by destruct (h !! k). Qed.

(** [notifyWaiter] touches only the front of one host's waiter queue. *)
Lemma notifyWaiter_spec h k :
  let '(w, h') := notifyWaiter h k in
  (forall k', activeCount (host h' k') = activeCount (host h k') /\ idle (host h' k') = idle (host h k') /\
     waiters (host h' k') = if decide (k = k') then tail (waiters (host h k')) else waiters (host h k')) /\
  w = head (waiters (host h k)).
Proof.
  unfold notifyWaiter. destruct (h !! k) as [[a i [|w ws]]|] eqn:E.
  - split; [|unfold host; by rewrite E]. intros k'. split_and!; auto.
    case_decide; [subst; unfold host; by rewrite E|done].
  - split; [|unfold host; by rewrite E]. intros k'. rewrite host_insert.
    case_decide; [|done]. subst. unfold host. by rewrite E.
  - split; [|unfold host; by rewrite E]. intros k'. split_and!; auto.
    case_decide; [subst; unfold host; by rewrite E|done].
Qed.

(** The three ways in which a lease or an attempt gives its slot back. *)
Definition give_back (h : hosts_t) (k : EndpointKey) (new : list IdleEntry) : option nat * hosts_t :=
  notifyWaiter (<[k := mkHost (pred (activeCount (host h k))) (idle (host h k) ++ new) (waiters (host h k))]> h) k.

Lemma connectFailed_give_back h k : connectFailed h k = give_back h k [].
Proof. unfold connectFailed, give_back. by rewrite app_nil_r. Qed.

Lemma returnConnection_give_back h k c valid now :
  is_Some (h !! k) ->
  returnConnection h k c valid now =
  give_back h k (match c with Some c => if valid then [mkIdle c now] else [] | None => [] end).
Proof.
  intros [st E]. unfold returnConnection, give_back, host. rewrite E. simpl.
  destruct c, valid; by rewrite ?app_nil_r.
Qed.

Lemma give_back_spec h k new :
  let '(w, h') := give_back h k new in
  (forall k', activeCount (host h' k') = (if decide (k = k') then pred (activeCount (host h k')) else activeCount (host h k')) /\
     idle (host h' k') = (if decide (k = k') then idle (host h k') ++ new else idle (host h k')) /\
     waiters (host h' k') = if decide (k = k') then tail (waiters (host h k')) else waiters (host h k')) /\
  w = head (waiters (host h k)).
Proof.
  unfold give_back.
  pose proof (notifyWaiter_spec (<[k:=mkHost (pred (activeCount (host h k))) (idle (host h k) ++ new) (waiters (host h k))]> h) k) as H.
  destruct (notifyWaiter _ k) as [w h']. destruct H as [H ->]. split.
  - intros k'. destruct (H k') as (-> & -> & ->). rewrite host_insert. case_decide; by subst.
  - by rewrite host_insert, decide_True.
Qed.

(** ** Capacity *)

Definition active_on (k : EndpointKey) (t : task) : bool :=
  match t with
  | Connecting k' => bool_decide (k = k')
  | Leased k' _ _ => bool_decide (k = k')
  | _ => false
  end.

(** The number kept for a host is the number of connections in use or being set
    up, and together with the idle ones it respects the configured limit. *)
Definition capacity_ok (s : sys) : Prop :=
  forall k, activeCount (host (hosts_ s) k) = map_count (active_on k) (tasks s) /\
            activeCount (host (hosts_ s) k) + length (idle (host (hosts_ s) k)) <= maxConnectionsPerHost cfg.

Lemma cancel_count P t w :
  (forall k now, P (Waiting k now Aborted) = P (Waiting k now Pending)) ->
  map_count P (cancel t w) = map_count P t.
Proof.
  intros HP. unfold cancel. repeat case_match; try done.
  pose proof (map_count_insert P t n (Waiting k now Aborted) (Waiting k now Pending)) as E.
  rewrite HP in E. specialize (E ltac:(by subst)). lia.
Qed.

(** A turn of the loop by a coroutine that holds nothing yet. *)
Lemma run_turn_capacity s tid k now :
  capacity_ok s ->
  (forall k', from_option (active_on k') false (tasks s !! tid) = false) ->
  capacity_ok (run_turn cfg s tid k now).
Proof.
  intros Hs Ht. unfold run_turn, acquire_turn.
  pose proof (extractIdle_spec (host (hosts_ s) k) now) as Hx.
  destruct (extractIdleConnection cfg _ now) as [found st].
  assert (forall o k', map_count (active_on k') (<[tid := after_turn k now o]> (tasks s)) =
            map_count (active_on k') (tasks s) + b2n (active_on k' (after_turn k now o))) as Hc.
  { intros o k'. specialize (Ht k'). destruct (tasks s !! tid) as [t|] eqn:E.
    - pose proof (map_count_insert (active_on k') _ _ (after_turn k now o) _ E) as H.
      simpl in Ht. rewrite Ht in H. simpl in H. lia.
    - by apply map_count_insert_fresh. }
  destruct found as [c|]; [|case_decide]; intros k'; cbn [hosts_ tasks]; destruct (Hs k') as [Ha Hb];
    rewrite host_insert, Hc; cbn [after_turn active_on].
  - destruct Hx as (e & dropped & Hi & _ & _ & _ & Hact & _).
    case_decide; subst; simpl; [|rewrite bool_decide_false by done; simpl; lia].
    rewrite bool_decide_true by done. simpl.
    rewrite Hi, length_app in Hb. simpl in Hb. rewrite Hact. lia.
  - destruct Hx as (_ & Hi & Hact & _).
    case_decide; subst; simpl; [|rewrite bool_decide_false by done; simpl; lia].
    rewrite bool_decide_true by done. rewrite Hi. simpl. lia.
  - destruct Hx as (_ & Hi & Hact & _). case_decide; subst; simpl; [|lia].
    rewrite Hi. simpl. lia.
Qed.

(** Swapping the state of one coroutine without touching the pool. *)
Lemma update_task_capacity s tid t t' n :
  capacity_ok s -> tasks s !! tid = Some t -> (forall k, active_on k t' = active_on k t) ->
  capacity_ok (mkSys (hosts_ s) (<[tid := t']> (tasks s)) n).
Proof.
  intros Hs Ht Heq k. destruct (Hs k) as [Ha Hb]. simpl. split; [|done].
  pose proof (map_count_insert (active_on k) _ _ t' _ Ht) as H. rewrite Heq in H. lia.
Qed.

Lemma active_host_exists s tid t k :
  capacity_ok s -> tasks s !! tid = Some t -> active_on k t = true ->
  is_Some (hosts_ s !! k) /\ 1 <= activeCount (host (hosts_ s) k).
Proof.
  intros Hs Ht Hk. destruct (Hs k) as [Ha _].
  pose proof (map_count_pos (active_on k) _ _ _ Ht Hk) as Hp. rewrite <- Ha in Hp.
  split; [|done]. unfold host in Hp. by destruct (hosts_ s !! k); [|simpl in Hp; lia].
Qed.

(** A coroutine that held a slot of [k] ends and gives it back, with at most one
    connection for the idle list. *)
Lemma give_back_capacity s tid t t' k new n :
  capacity_ok s -> tasks s !! tid = Some t ->
  (forall k', active_on k' t = bool_decide (k' = k)) -> (forall k', active_on k' t' = false) ->
  length new <= 1 ->
  let '(w, h) := give_back (hosts_ s) k new in
  capacity_ok (mkSys h (cancel (<[tid := t']> (tasks s)) w) n).
Proof.
  intros Hs Ht Hk Ht' Hn.
  destruct (active_host_exists s tid t k Hs Ht) as [_ Hpos]; [by rewrite Hk, bool_decide_true|].
  pose proof (give_back_spec (hosts_ s) k new) as Hg.
  destruct (give_back _ k new) as [w h]. destruct Hg as [Hg _]. intros k'. cbn [hosts_ tasks].
  destruct (Hg k') as (-> & -> & _). destruct (Hs k') as [Ha Hb].
  rewrite cancel_count by done.
  pose proof (map_count_insert (active_on k') _ _ t' _ Ht) as H. rewrite Hk, Ht' in H. simpl in H.
  destruct (decide (k = k')) as [<-|Hne].
  - rewrite bool_decide_true in H by done. simpl in H. rewrite length_app. lia.
  - rewrite bool_decide_false in H by done. simpl in H. lia.
Qed.

Lemma step_capacity s e s' :
  capacity_ok s -> e <> Clear -> step cfg s e = Some s' -> capacity_ok s'.
Proof.
  intros Hs He. unfold step. destruct e; try (by destruct He);
    destruct (tasks s !! tid) as [[k'|k' c valid|k' now' []|k'|k'|k']|] eqn:Ht; try done;
    try (intros [= <-]; first
      [ by apply run_turn_capacity; [|rewrite Ht]
      | by eapply update_task_capacity ]).
  - rewrite connectFailed_give_back.
    pose proof (give_back_capacity s tid _ (Failed k') k' [] (nextSerial s) Hs Ht) as Hg.
    destruct (give_back _ k' _) as [w h]. intros [= <-]. apply Hg; done || (simpl; lia).
  - intros [= <-]. intros k2. destruct (Hs k2) as [Ha Hb]. simpl. unfold dropWaiter. rewrite host_insert.
    pose proof (map_count_insert (active_on k2) _ _ (TimedOut k') _ Ht) as H. simpl in H.
    case_decide; subst; simpl; lia.
  - destruct (active_host_exists s tid _ k' Hs Ht) as [Hsome _]; [by apply bool_decide_true|].
    rewrite returnConnection_give_back by done.
    pose proof (give_back_capacity s tid _ (Returned k') k' (if valid then [mkIdle c now] else [])
      (nextSerial s) Hs Ht) as Hg.
    destruct (give_back _ k' _) as [w h]. intros [= <-]. apply Hg; try done. destruct valid; simpl; lia.
  - destruct (active_host_exists s tid _ k' Hs Ht) as [Hsome _]; [by apply bool_decide_true|].
    rewrite returnConnection_give_back by done.
    pose proof (give_back_capacity s tid _ (Returned k') k' [] (nextSerial s) Hs Ht) as Hg.
    destruct (give_back _ k' _) as [w h]. intros [= <-]. apply Hg; done || (simpl; lia).
Qed.

Lemma run_invariant (P : sys -> Prop) (Q : event -> Prop) s es s' :
  (forall s e s', P s -> Q e -> step cfg s e = Some s' -> P s') ->
  P s -> Forall Q es -> run cfg s es = Some s' -> P s'.
Proof.
  intros Hstep. revert s. induction es as [|e es IH]; intros s Hs HQ; simpl; [by intros [= <-]|].
  apply Forall_cons in HQ as [He HQ]. destruct (step cfg s e) as [s1|] eqn:E; [|done].
  apply IH; [by eapply Hstep|done].
Qed.

Lemma capacity_init : capacity_ok sysInit.
Proof. intros k. simpl. split; [by rewrite map_count_empty|]. unfold host. rewrite lookup_empty. simpl. lia. Qed.

(** ** Exclusive use *)

Definition lease_of (c : client) (t : task) : bool :=
  match t with Leased _ c' _ => bool_decide (c' = c) | _ => false end.

Definition idle_occ (c : client) (l : list IdleEntry) : nat :=
  length (filter (fun e => iclient e = c) l).

Definition known (s : sys) (k : EndpointKey) (c : client) : Prop := peer c = k /\ serial c < nextSerial s.

Record exclusive_ok (s : sys) : Prop := {
  leases_known : forall tid k c v, tasks s !! tid = Some (Leased k c v) -> known s k c;
  idle_known : forall k e, e ∈ idle (host (hosts_ s) k) -> known s k (iclient e);
  used_once : forall c, map_count (lease_of c) (tasks s) + idle_occ c (idle (host (hosts_ s) (peer c))) <= 1;
}.

Lemma idle_occ_app c l l' : idle_occ c (l ++ l') = idle_occ c l + idle_occ c l'.
Proof. unfold idle_occ. by rewrite filter_app, length_app. Qed.

Lemma idle_occ_cons c e l : idle_occ c (e :: l) = b2n (bool_decide (iclient e = c)) + idle_occ c l.
Proof. unfold idle_occ. rewrite filter_cons. by repeat case_decide; case_bool_decide. Qed.

Lemma idle_occ_known s k c l :
  (forall e, e ∈ l -> known s k (iclient e)) -> ~ known s k c -> idle_occ c l = 0.
Proof.
  intros Hl Hc. induction l as [|e l IH]; [done|]. rewrite idle_occ_cons.
  rewrite bool_decide_false, IH; [done|..].
  - intros e' He'. apply Hl. by right.
  - intros <-. apply Hc, Hl. by left.
Qed.

(** Replacing a coroutine's state by one that holds no lease, or the same. *)
Lemma lease_count_drop s tid t t' c :
  tasks s !! tid = Some t \/ (tasks s !! tid = None /\ t = Returned (peer c)) ->
  map_count (lease_of c) (<[tid := t']> (tasks s)) + b2n (lease_of c t) =
  map_count (lease_of c) (tasks s) + b2n (lease_of c t').
Proof.
  intros [Ht|[Ht ->]]; [by apply map_count_insert|]. rewrite map_count_insert_fresh by done. simpl. lia.
Qed.

Definition holds_lease (t : task) : bool := match t with Leased _ _ _ => true | _ => false end.

Lemma lease_of_false c t : holds_lease t = false -> lease_of c t = false.
Proof. by destruct t. Qed.

Lemma cancel_lookup_lease t w tid k c v :
  cancel t w !! tid = Some (Leased k c v) <-> t !! tid = Some (Leased k c v).
Proof.
  unfold cancel. repeat case_match; try done. subst.
  rewrite lookup_insert. case_decide; subst; [|done]. by rewrite H0.
Qed.

(** What every step has to show: the leases and the idle entries of the new
    state come from the old one, and no connection is counted twice. *)
Lemma run_turn_exclusive s tid k now :
  exclusive_ok s -> from_option holds_lease false (tasks s !! tid) = false ->
  exclusive_ok (run_turn cfg s tid k now).
Proof.
  intros [Hl Hi Hu] Ht. unfold run_turn, acquire_turn.
  pose proof (extractIdle_spec (host (hosts_ s) k) now) as Hx.
  destruct (extractIdleConnection cfg _ now) as [found st].
  assert (forall o c, map_count (lease_of c) (<[tid := after_turn k now o]> (tasks s)) =
            map_count (lease_of c) (tasks s) + b2n (lease_of c (after_turn k now o))) as Hc.
  { intros o c. destruct (tasks s !! tid) as [t|] eqn:E.
    - pose proof (map_count_insert (lease_of c) _ _ (after_turn k now o) _ E) as H.
      rewrite (lease_of_false c t) in H by done. simpl in H. lia.
    - by apply map_count_insert_fresh. }
  destruct found as [c|].
  - destruct Hx as (e & dropped & Hidle & <- & _ & _ & _ & _).
    assert (known s k (iclient e)) as He by (apply Hi; rewrite Hidle; set_solver).
    split; cbn [hosts_ tasks nextSerial].
    + intros tid' k' c' v. rewrite lookup_insert. case_decide; [|by apply Hl].
      simpl. by intros [= <- <- <-].
    + intros k' e'. rewrite host_insert. case_decide; [subst; simpl|by apply Hi].
      intros Hin. apply Hi. rewrite Hidle. set_solver.
    + intros c'. rewrite Hc, host_insert. specialize (Hu c'). simpl. case_decide as Hk; simpl.
      * subst k. rewrite Hidle, idle_occ_app, idle_occ_cons in Hu. lia.
      * rewrite bool_decide_false by (intros <-; by destruct He). simpl. lia.
  - assert (idle st = []) as Hidle by apply Hx.
    case_decide; split; cbn [hosts_ tasks nextSerial].
    1, 4: intros tid' k' c' v; rewrite lookup_insert; case_decide; [done|by apply Hl].
    1, 3: intros k' e'; rewrite host_insert; case_decide; [simpl; rewrite Hidle; set_solver|by apply Hi].
    all: intros c'; rewrite Hc, host_insert; specialize (Hu c'); simpl;
      case_decide; simpl; rewrite ?Hidle; unfold idle_occ in *; simpl; lia.
Qed.

Lemma give_back_exclusive s tid t t' k new :
  exclusive_ok s -> tasks s !! tid = Some t -> holds_lease t' = false ->
  (forall e, e ∈ new -> known s k (iclient e)) ->
  (forall c, idle_occ c new <= b2n (lease_of c t)) ->
  let '(w, h) := give_back (hosts_ s) k new in
  exclusive_ok (mkSys h (cancel (<[tid := t']> (tasks s)) w) (nextSerial s)).
Proof.
  intros [Hl Hi Hu] Ht Ht' Hnew Hocc. pose proof (give_back_spec (hosts_ s) k new) as Hg.
  destruct (give_back _ k new) as [w h]. destruct Hg as [Hg _]. split; cbn [hosts_ tasks nextSerial].
  - intros tid' k' c v. rewrite cancel_lookup_lease, lookup_insert. case_decide; [by intros [= ->]|by apply Hl].
  - intros k' e. destruct (Hg k') as (_ & -> & _). case_decide; [subst|by apply Hi].
    rewrite elem_of_app. intros [Hin|Hin]; [by apply Hi | by apply Hnew].
  - intros c. rewrite cancel_count by done. destruct (Hg (peer c)) as (_ & -> & _).
    pose proof (map_count_insert (lease_of c) _ _ t' _ Ht) as H.
    rewrite (lease_of_false c t') in H by done. simpl in H. specialize (Hu c). specialize (Hocc c).
    case_decide; rewrite ?idle_occ_app; lia.
Qed.

Lemma update_task_exclusive s tid t t' :
  exclusive_ok s -> tasks s !! tid = Some t -> (forall c, lease_of c t' = lease_of c t) ->
  (forall k c v, t' = Leased k c v -> exists v', t = Leased k c v') ->
  exclusive_ok (mkSys (hosts_ s) (<[tid := t']> (tasks s)) (nextSerial s)).
Proof.
  intros [Hl Hi Hu] Ht Hc Hk. split; cbn [hosts_ tasks nextSerial]; [|done|].
  - intros tid' k c v. rewrite lookup_insert. case_decide; [|by apply Hl]. subst. intros [= ->].
    destruct (Hk k c v eq_refl) as [v' ->]. by apply (Hl tid' k c v').
  - intros c. specialize (Hu c). pose proof (map_count_insert (lease_of c) _ _ t' _ Ht) as H.
    rewrite Hc in H. lia.
Qed.

Lemma connect_exclusive s tid k :
  exclusive_ok s -> tasks s !! tid = Some (Connecting k) ->
  exclusive_ok (mkSys (hosts_ s) (<[tid := Leased k (mkClient k (nextSerial s)) true]> (tasks s)) (S (nextSerial s))).
Proof.
  intros [Hl Hi Hu] Ht. split; cbn [hosts_ tasks nextSerial].
  - intros tid' k' c v. rewrite lookup_insert. unfold known. simpl. case_decide.
    + intros [= <- <- <-]. simpl. split; [done|lia].
    + intros [? ?]%Hl. split; [done|lia].
  - intros k' e [? ?]%Hi. split; simpl; [done|lia].
  - intros c. specialize (Hu c).
    pose proof (map_count_insert (lease_of c) _ _ (Leased k (mkClient k (nextSerial s)) true) _ Ht) as H.
    simpl in H. case_bool_decide as Hc; simpl in H; [|lia]. subst c. simpl in *.
    assert (map_count (lease_of (mkClient k (nextSerial s))) (tasks s) = 0) as Hz.
    { apply map_count_zero. intros i t Hi'. destruct t; try done. simpl. apply bool_decide_false.
      intros ->. apply Hl in Hi' as [_ ?]. simpl in *. lia. }
    rewrite (idle_occ_known s k); [lia|auto|]. intros [_ ?]. simpl in *. lia.
Qed.

Lemma step_exclusive s e s' :
  capacity_ok s -> exclusive_ok s -> e <> Clear -> step cfg s e = Some s' -> exclusive_ok s'.
Proof.
  intros Hcap Hs He. unfold step. destruct e; try (by destruct He);
    destruct (tasks s !! tid) as [[k'|k' c valid|k' now' []|k'|k'|k']|] eqn:Ht; try done;
    try (intros [= <-]; first
      [ by apply run_turn_exclusive; [|rewrite Ht]
      | by apply connect_exclusive
      | eapply update_task_exclusive; [done|exact Ht|done|naive_solver] ]).
  - rewrite connectFailed_give_back.
    pose proof (give_back_exclusive s tid _ (Failed k') k' [] Hs Ht) as Hg.
    destruct (give_back _ k' _) as [w h]. intros [= <-]. apply Hg; [done|set_solver|done].
  - intros [= <-]. destruct (update_task_exclusive s tid _ (TimedOut k') Hs Ht) as [Hl Hi Hu]; [done..|].
    split; simpl in *; [done|..].
    + intros k2 e. unfold dropWaiter. rewrite host_insert. case_decide; subst; apply Hi.
    + intros c. specialize (Hu c). unfold dropWaiter. rewrite host_insert. case_decide; subst; exact Hu.
  - destruct (active_host_exists s tid _ k' Hcap Ht) as [Hsome _]; [by apply bool_decide_true|].
    rewrite returnConnection_give_back by done.
    pose proof (give_back_exclusive s tid _ (Returned k') k' (if valid then [mkIdle c now] else []) Hs Ht) as Hg.
    pose proof (leases_known s Hs tid k' c valid Ht) as Hkn.
    destruct (give_back _ k' _) as [w h]. intros [= <-]. apply Hg; [done|..].
    + intros e He'. destruct valid; [|set_solver]. apply list_elem_of_singleton in He' as ->. done.
    + intros c'. destruct valid; [|apply Nat.le_0_l]. unfold idle_occ. rewrite filter_cons. simpl.
      case_decide; case_bool_decide; simpl; done || lia.
  - destruct (active_host_exists s tid _ k' Hcap Ht) as [Hsome _]; [by apply bool_decide_true|].
    rewrite returnConnection_give_back by done.
    pose proof (give_back_exclusive s tid _ (Returned k') k' [] Hs Ht) as Hg.
    destruct (give_back _ k' _) as [w h]. intros [= <-]. apply Hg; [done|set_solver|].
    intros c'. apply Nat.le_0_l.
Qed.

Lemma exclusive_init : exclusive_ok sysInit.
Proof.
  split; simpl.
  - intros ????. by rewrite lookup_empty.
  - intros k e. unfold host. rewrite lookup_empty. simpl. set_solver.
  - intros c. rewrite map_count_empty. unfold host. rewrite lookup_empty. unfold idle_occ. simpl. lia.
Qed.

Lemma run_exclusive es s :
  Forall (fun e => e <> Clear) es -> run cfg sysInit es = Some s -> capacity_ok s /\ exclusive_ok s.
Proof.
  apply (run_invariant (fun s => capacity_ok s /\ exclusive_ok s)).
  - intros s1 e s2 [??] ??. split; [by eapply step_capacity|by eapply step_exclusive].
  - split; [apply capacity_init|apply exclusive_init].
Qed.

(** ** Wake-ups *)

(** Coroutines that were woken for a slot of [k] and have not retried yet. *)
Definition woken_on (k : EndpointKey) (t : task) : bool :=
  match t with Waiting k' _ Aborted => bool_decide (k = k') | _ => false end.

Definition sleeps_on (k : EndpointKey) (t : task) : bool :=
  match t with Waiting k' _ Pending => bool_decide (k = k') | _ => false end.

Record wake_ok (s : sys) : Prop := {
  queue_nodup : forall k, NoDup (waiters (host (hosts_ s) k));
  queue_sleeps : forall k tid, tid ∈ waiters (host (hosts_ s) k) <->
    from_option (sleeps_on k) false (tasks s !! tid) = true;
  queue_woken : forall k, waiters (host (hosts_ s) k) <> [] ->
    maxConnectionsPerHost cfg <= activeCount (host (hosts_ s) k) + map_count (woken_on k) (tasks s);
}.

Lemma wake_run_turn s tid k now :
  wake_ok s ->
  (tasks s !! tid = None \/ exists now', tasks s !! tid = Some (Waiting k now' Aborted)) ->
  wake_ok (run_turn cfg s tid k now).
Proof.
  intros [Hnd Hsl Hwk] Ht. unfold run_turn, acquire_turn.
  pose proof (extractIdle_spec (host (hosts_ s) k) now) as Hx.
  destruct (extractIdleConnection cfg _ now) as [found st].
  assert (activeCount st = activeCount (host (hosts_ s) k) /\ waiters st = waiters (host (hosts_ s) k)) as [Ha Hw].
  { destruct found; [destruct Hx as (?&?&_&_&_&_&?&?)|destruct Hx as (_&_&?&?)]; done. }
  clear Hx.
  assert (forall k', from_option (sleeps_on k') false (tasks s !! tid) = false) as Hnot.
  { intros k'. destruct Ht as [->|[now' ->]]; done. }
  assert (forall o k', map_count (woken_on k') (tasks s) <=
     map_count (woken_on k') (<[tid := after_turn k now o]> (tasks s)) + b2n (bool_decide (k' = k))) as Hc.
  { intros o k'. destruct Ht as [Ht|[now' Ht]].
    - rewrite map_count_insert_fresh by done. lia.
    - pose proof (map_count_insert (woken_on k') _ _ (after_turn k now o) _ Ht) as H.
      simpl in H. lia. }
  assert (forall o k' tid', o <> Waits ->
    from_option (sleeps_on k') false (<[tid := after_turn k now o]> (tasks s) !! tid') =
    from_option (sleeps_on k') false (tasks s !! tid')) as Hsame.
  { intros o k' tid' Ho. rewrite lookup_insert. case_decide; [subst|done].
    rewrite Hnot. by destruct o. }
  destruct found as [c|]; [|case_decide]; split; cbn [hosts_ tasks]; intros k';
    rewrite host_insert; specialize (Hwk k').
  1, 4: case_decide; simpl; rewrite ?Hw; subst; apply Hnd.
  1, 3: intros tid'; rewrite Hsame, <- Hsl by done; case_decide; simpl; rewrite ?Hw; by subst.
  1, 2: case_decide; simpl; rewrite ?Hw, ?Ha; subst; intros Hne; specialize (Hwk Hne).
  - specialize (Hc (GotIdle c) k'). rewrite bool_decide_true in Hc by done. simpl in Hc. lia.
  - specialize (Hc (GotIdle c) k'). rewrite bool_decide_false in Hc by done. simpl in Hc. lia.
  - specialize (Hc Connects k'). rewrite bool_decide_true in Hc by done. simpl in Hc. lia.
  - specialize (Hc Connects k'). rewrite bool_decide_false in Hc by done. simpl in Hc. lia.
  - case_decide; simpl; [subst|apply Hnd]. rewrite Hw. apply NoDup_app. split_and!; [apply Hnd|..].
    + intros x Hx ->%list_elem_of_singleton. apply Hsl in Hx. by rewrite Hnot in Hx.
    + apply NoDup_singleton.
  - intros tid'. rewrite lookup_insert. case_decide as Hk; simpl.
    + subst k'. rewrite Hw, elem_of_app, list_elem_of_singleton, Hsl. case_decide as Htid; simpl.
      * subst. rewrite Hnot, bool_decide_true by done. split; [done|by right].
      * split; [intros [?|?]; [done|congruence]|auto].
    + rewrite Hsl. case_decide; [subst; simpl|done]. rewrite Hnot, bool_decide_false; [done|congruence].
  - case_decide; simpl; [rewrite Ha in *; subst; lia|]. intros Hne. specialize (Hwk Hne).
    specialize (Hc Waits k'). rewrite bool_decide_false in Hc by done. simpl in Hc. lia.
Qed.

Lemma sleeps_on_lookup s k tid :
  from_option (sleeps_on k) false (tasks s !! tid) = true ->
  exists now, tasks s !! tid = Some (Waiting k now Pending).
Proof.
  destruct (tasks s !! tid) as [[| |k' now []| | |]|]; simpl; try done.
  intros ->%bool_decide_eq_true. eauto.
Qed.

Lemma wake_give_back s tid t t' k new n :
  wake_ok s -> tasks s !! tid = Some t ->
  (forall k', sleeps_on k' t = false /\ woken_on k' t = false) ->
  (forall k', sleeps_on k' t' = false /\ woken_on k' t' = false) ->
  let '(w, h) := give_back (hosts_ s) k new in
  wake_ok (mkSys h (cancel (<[tid := t']> (tasks s)) w) n).
Proof.
  intros [Hnd Hsl Hwk] Ht Hold Hnew.
  pose proof (give_back_spec (hosts_ s) k new) as Hg.
  destruct (give_back _ k new) as [w h]. destruct Hg as [Hg Hw].
  (* the coroutine states without the effect of the wake-up *)
  set (ts := <[tid := t']> (tasks s)).
  assert (forall k' x, from_option (sleeps_on k') false (ts !! x) =
                       from_option (sleeps_on k') false (tasks s !! x)) as Hts.
  { intros k' x. unfold ts. rewrite lookup_insert. case_decide; [subst|done].
    rewrite Ht. simpl. destruct (Hold k'), (Hnew k'). congruence. }
  assert (forall k', map_count (woken_on k') ts = map_count (woken_on k') (tasks s)) as Hct.
  { intros k'. pose proof (map_count_insert (woken_on k') _ _ t' _ Ht) as H.
    destruct (Hold k') as [_ E1], (Hnew k') as [_ E2]. rewrite E1, E2 in H. simpl in H.
    unfold ts. lia. }
  specialize (Hnd k) as Hndk. destruct (waiters (host (hosts_ s) k)) as [|x ws] eqn:Hws; subst w; simpl.
  { (* nobody sleeps *)
    split; cbn [hosts_ tasks]; intros k'; destruct (Hg k') as (Ha & _ & ->); rewrite ?Ha.
    - case_decide; [subst; rewrite Hws; constructor|apply Hnd].
    - intros x. rewrite Hts, <- Hsl. case_decide; [by subst; rewrite Hws|done].
    - case_decide; [subst; by rewrite Hws|]. rewrite Hct. apply Hwk. }
  (* the first sleeper is woken *)
  assert (exists now, ts !! x = Some (Waiting k now Pending)) as [now Hx].
  { apply (sleeps_on_lookup (mkSys h ts n)). simpl. rewrite Hts. apply Hsl. rewrite Hws. by left. }
  rewrite Hx. apply NoDup_cons in Hndk as [Hxws Hndws].
  split; cbn [hosts_ tasks]; intros k'; destruct (Hg k') as (Ha & _ & ->); rewrite ?Ha.
  - case_decide; [subst; by rewrite Hws|apply Hnd].
  - intros y. rewrite lookup_insert. case_decide as Hk.
    + subst k'. rewrite Hws. simpl. case_decide as Hy; [by subst; simpl; split|].
      rewrite Hts, <- Hsl, Hws, elem_of_cons. split; [by right|intros [?|?]; [congruence|done]].
    + case_decide as Hy; [subst; simpl|by rewrite Hts, <- Hsl].
      rewrite Hsl, <- Hts, Hx. simpl. by rewrite bool_decide_false.
  - pose proof (map_count_insert (woken_on k') _ _ (Waiting k now Aborted) _ Hx) as H. simpl in H.
    specialize (Hwk k'). rewrite Hct in H. case_decide as Hk.
    + subst k'. rewrite bool_decide_true in H by done. simpl in H. intros _. rewrite Hws in Hwk.
      specialize (Hwk ltac:(done)). lia.
    + rewrite bool_decide_false in H by done. simpl in H. intros Hne. specialize (Hwk Hne). lia.
Qed.

Lemma wake_update s tid t t' n :
  wake_ok s -> tasks s !! tid = Some t ->
  (forall k', sleeps_on k' t' = sleeps_on k' t /\ woken_on k' t' = woken_on k' t) ->
  wake_ok (mkSys (hosts_ s) (<[tid := t']> (tasks s)) n).
Proof.
  intros [Hnd Hsl Hwk] Ht Heq. split; cbn [hosts_ tasks]; [done|..].
  - intros k x. rewrite Hsl, lookup_insert. case_decide; [subst|done]. rewrite Ht. simpl.
    by destruct (Heq k) as [-> _].
  - intros k Hne. specialize (Hwk k Hne). pose proof (map_count_insert (woken_on k) _ _ t' _ Ht) as H.
    destruct (Heq k) as [_ E]. rewrite E in H. lia.
Qed.

Definition undisturbed (e : event) : Prop :=
  match e with Clear | Expire _ => False | _ => True end.

(** Timers do not fire: no coroutine is in the expired state. *)
Definition unexpired (s : sys) : Prop :=
  forall tid k now, tasks s !! tid <> Some (Waiting k now Expired).

Lemma cancel_unexpired t w :
  (forall tid k now, t !! tid <> Some (Waiting k now Expired)) ->
  forall tid k now, cancel t w !! tid <> Some (Waiting k now Expired).
Proof.
  intros Ht tid k now. unfold cancel. repeat case_match; auto.
  rewrite lookup_insert. by case_decide; auto.
Qed.

Lemma insert_unexpired (t : gmap nat task) tid t' :
  (forall x k now, t !! x <> Some (Waiting k now Expired)) ->
  (forall k now, t' <> Waiting k now Expired) ->
  forall x k now, <[tid := t']> t !! x <> Some (Waiting k now Expired).
Proof. intros Ht Ht' x k now. rewrite lookup_insert. case_decide; [intros [= E]; by eapply Ht'|apply Ht]. Qed.

Lemma step_unexpired s e s' :
  unexpired s -> undisturbed e -> step cfg s e = Some s' -> unexpired s'.
Proof.
  intros Hs He. unfold step, run_turn. destruct e; try done; repeat case_match; intros [= <-];
    unfold unexpired; cbn [tasks]; repeat apply cancel_unexpired; apply insert_unexpired; try done;
    intros ??; unfold after_turn; case_match; done.
Qed.

Lemma step_wake s e s' :
  capacity_ok s -> wake_ok s -> unexpired s -> undisturbed e -> step cfg s e = Some s' -> wake_ok s'.
Proof.
  intros Hcap Hs Hun He. unfold step. destruct e; try done;
    destruct (tasks s !! tid) as [[k'|k' c valid|k' now' []|k'|k'|k']|] eqn:Ht; try done;
    try (by destruct (Hun tid k' now'));
    try (intros [= <-]; first
      [ apply wake_run_turn; [done|by eauto]
      | by eapply wake_update; [done|exact Ht|] ]).
  - rewrite connectFailed_give_back.
    pose proof (wake_give_back s tid _ (Failed k') k' [] (nextSerial s) Hs Ht) as Hg.
    destruct (give_back _ k' _) as [w h]. intros [= <-]. by apply Hg.
  - destruct (active_host_exists s tid _ k' Hcap Ht) as [Hsome _]; [by apply bool_decide_true|].
    rewrite returnConnection_give_back by done.
    pose proof (wake_give_back s tid _ (Returned k') k' (if valid then [mkIdle c now] else []) (nextSerial s) Hs Ht) as Hg.
    destruct (give_back _ k' _) as [w h]. intros [= <-]. by apply Hg.
  - destruct (active_host_exists s tid _ k' Hcap Ht) as [Hsome _]; [by apply bool_decide_true|].
    rewrite returnConnection_give_back by done.
    pose proof (wake_give_back s tid _ (Returned k') k' [] (nextSerial s) Hs Ht) as Hg.
    destruct (give_back _ k' _) as [w h]. intros [= <-]. by apply Hg.
Qed.

Lemma wake_init : wake_ok sysInit.
Proof.
  split; intros k; unfold host; simpl; rewrite lookup_empty; simpl; [constructor| |done].
  intros tid. rewrite lookup_empty. simpl. set_solver.
Qed.

End pool_facts.

(** ** What the pool guarantees *)

(** C2: as long as [clear] is not called, however many coroutines acquire, fail
    to connect, time out and release in whatever order, the counter of a host is
    the number of its connections in use or being set up, and active plus idle
    connections never exceed the configured limit. *)
Theorem pool_capacity (cfg : ConnectionPoolConfig) (es : list event) (s : sys) (k : EndpointKey) :
  Forall (fun e => e <> Clear) es -> run cfg sysInit es = Some s ->
  active (hosts_ s) k = map_count (active_on k) (tasks s) /\
  active (hosts_ s) k + idleCount (hosts_ s) k <= maxConnectionsPerHost cfg.
Proof.
  intros Hes Hrun. rewrite active_host, idleCount_host.
  by apply (run_exclusive cfg es s Hes Hrun).
Qed.

Definition example_cfg : ConnectionPoolConfig := mkConfig 1 30.
Definition example_key : EndpointKey := mkKey (str "h") [].

(** The state an event sequence leads to, when it can happen. *)
Definition after (cfg : ConnectionPoolConfig) (es : list event) : sys :=
  default sysInit (run cfg sysInit es).

Definition legal (cfg : ConnectionPoolConfig) (es : list event) : bool :=
  match run cfg sysInit es with Some _ => true | None => false end.

Lemma run_after cfg es : legal cfg es = true -> run cfg sysInit es = Some (after cfg es).
Proof. unfold legal, after. by destruct (run cfg sysInit es). Qed.

(** One connection is leased, two more coroutines queue up, and the lease ends. *)
Definition contention : list event :=
  [Start 1 example_key 0; ConnectOk 1; Start 2 example_key 1; Start 3 example_key 2; Release 1 3].

Lemma pool_capacity_witness :
  let s := after example_cfg contention in
  active (hosts_ s) example_key = map_count (active_on example_key) (tasks s) /\
  active (hosts_ s) example_key + idleCount (hosts_ s) example_key <= 1.
Proof.
  apply (pool_capacity example_cfg contention (after example_cfg contention) example_key);
    [repeat constructor; discriminate|apply run_after; vm_compute; reflexivity].
Defined.

(** C5: a connection is never shared: two different coroutines never hold the
    same one, a held one is not in an idle list, and a coroutine that asked for
    an endpoint holds a connection to that endpoint. *)
Theorem pool_exclusive (cfg : ConnectionPoolConfig) (es : list event) (s : sys)
    (i : nat) (k : EndpointKey) (c : client) (v : bool) :
  Forall (fun e => e <> Clear) es -> run cfg sysInit es = Some s ->
  tasks s !! i = Some (Leased k c v) ->
  peer c = k /\
  (forall j k' v', tasks s !! j = Some (Leased k' c v') -> i = j) /\
  (forall k' e, e ∈ idle (host (hosts_ s) k') -> iclient e <> c).
Proof.
  intros Hes Hrun Hi. destruct (run_exclusive cfg es s Hes Hrun) as [_ [Hl Hid Hu]].
  destruct (Hl i k c v Hi) as [Hp _]. split_and!; [done|..].
  - intros j k' v' Hj. destruct (decide (i = j)) as [|Hne]; [done|]. exfalso.
    pose proof (map_count_two (lease_of c) _ _ _ _ _ Hi Hj Hne) as H.
    specialize (Hu c). simpl in H. rewrite bool_decide_true in H by done. specialize (H eq_refl eq_refl). lia.
  - intros k' e He Hc. destruct (Hid k' e He) as [Hk' _]. specialize (Hu c).
    pose proof (map_count_pos (lease_of c) _ _ _ Hi) as H. simpl in H. rewrite bool_decide_true in H by done.
    specialize (H eq_refl). rewrite Hc in Hk'. rewrite Hk' in Hu.
    apply list_elem_of_split in He as (l1 & l2 & Hsplit). rewrite Hsplit, idle_occ_app, idle_occ_cons in Hu.
    rewrite bool_decide_true in Hu by done. simpl in Hu. lia.
Qed.

Lemma pool_exclusive_witness :
  let s := after example_cfg (take 4 contention) in
  peer (mkClient example_key 0) = example_key /\
  (forall j k' v', tasks s !! j = Some (Leased k' (mkClient example_key 0) v') -> 1 = j) /\
  (forall k' e, e ∈ idle (host (hosts_ s) k') -> iclient e <> mkClient example_key 0).
Proof.
  apply (pool_exclusive example_cfg (take 4 contention) (after example_cfg (take 4 contention)) 1
           example_key (mkClient example_key 0) true);
    [repeat constructor; discriminate|apply run_after; vm_compute; reflexivity|vm_compute; reflexivity].
Defined.

(** C13: without timeouts no wake-up is lost: while a coroutine sleeps for a slot
    of a host, every free slot of that host has a coroutine that was already
    woken and is about to retry. *)
Theorem pool_no_lost_wakeup (cfg : ConnectionPoolConfig) (es : list event) (s : sys)
    (tid : nat) (k : EndpointKey) (now : Z) :
  Forall undisturbed es -> run cfg sysInit es = Some s ->
  tasks s !! tid = Some (Waiting k now Pending) ->
  maxConnectionsPerHost cfg <= active (hosts_ s) k + map_count (woken_on k) (tasks s).
Proof.
  intros Hes Hrun Ht.
  assert (capacity_ok cfg s /\ wake_ok cfg s /\ unexpired s) as (_ & Hw & _).
  { refine (run_invariant cfg (fun s => capacity_ok cfg s /\ wake_ok cfg s /\ unexpired s) undisturbed
              sysInit es s _ _ Hes Hrun).
    - intros s1 e s2 (Hc & Hw & Hu) He Hstep. assert (e <> Clear) by (by intros ->).
      split_and!; eauto using step_capacity, step_wake, step_unexpired.
    - split_and!; [apply capacity_init|apply wake_init|]. intros ???. simpl. by rewrite lookup_empty. }
  rewrite active_host. apply (queue_woken cfg s Hw). intros Hnil.
  assert (tid ∈ waiters (host (hosts_ s) k)) as Hin.
  { apply (queue_sleeps cfg s Hw). rewrite Ht. simpl. by apply bool_decide_true. }
  rewrite Hnil in Hin. by apply elem_of_nil in Hin.
Qed.

Lemma pool_no_lost_wakeup_witness :
  let s := after example_cfg contention in
  1 <= active (hosts_ s) example_key + map_count (woken_on example_key) (tasks s).
Proof.
  apply (pool_no_lost_wakeup example_cfg contention (after example_cfg contention) 3 example_key 2);
    [repeat constructor|apply run_after; vm_compute; reflexivity|vm_compute; reflexivity].
Defined.

(** A timeout can lose a wake-up.  When the timer of the first waiter fires
    just before a connection is returned, the notification goes to the expired
    timer; the second waiter stays asleep although the pool holds an idle
    connection and no slot is in use. *)
Theorem pool_timeout_loses_wakeup :
  let es := [Start 1 example_key 0; ConnectOk 1; Start 2 example_key 1; Start 3 example_key 2;
             Expire 2; Release 1 11; Resume 2] in
  let s := after example_cfg es in
  legal example_cfg es = true /\
  tasks s !! 2 = Some (TimedOut example_key) /\
  tasks s !! 3 = Some (Waiting example_key 2 Pending) /\
  active (hosts_ s) example_key = 0 /\ idleCount (hosts_ s) example_key = 1 /\
  map_count (woken_on example_key) (tasks s) = 0.
Proof. split_and!; vm_compute; reflexivity. Qed.

(** [clear] with a lease outstanding breaks the limit: afterwards the pool
    can hold more connections than configured. *)
Theorem pool_clear_breaks_limit :
  let es := [Start 1 example_key 0; ConnectOk 1; Clear; Start 2 example_key 1; ConnectOk 2;
             Release 2 2; Release 1 3] in
  let s := after example_cfg es in
  legal example_cfg es = true /\
  maxConnectionsPerHost example_cfg = 1 /\
  active (hosts_ s) example_key + idleCount (hosts_ s) example_key = 2.
Proof. split_and!; vm_compute; reflexivity. Qed.

(** An idle connection is reused exactly when one younger than the idle
    timeout exists; it is the most recently returned such one, the older entries
    stay and the expired newer ones are discarded. *)
Theorem extractIdle_newest (cfg : ConnectionPoolConfig) (st : HostState) (now : Z) :
  match extractIdleConnection cfg st now with
  | (Some c, st') =>
      exists e dropped, idle st = idle st' ++ e :: dropped /\ iclient e = c /\ ~ expired cfg now e /\
        Forall (expired cfg now) dropped /\ activeCount st' = activeCount st /\ waiters st' = waiters st
  | (None, st') => Forall (expired cfg now) (idle st) /\ idle st' = [] /\
        activeCount st' = activeCount st /\ waiters st' = waiters st
  end.
Proof. apply extractIdle_spec. Qed.
