(* ===== verification/Await.v ===== *)
(** * Waiting for several coroutines: [include/when_all.hpp], [include/when_any.hpp]

    Each of the [n] spawned coroutines ends its body once, with a value or an
    exception, and later has its completion handler run; the order in which this
    happens is arbitrary.  The vectors, the index and the counters are those the
    source shares between the coroutines.  Heterogeneous tuples are modelled at
    one value type (a sum for the tuple overloads, [unit] for [void]). *)

From S2P Require Import Prelude.

Section await.

Context {E V : Type}.

(** How a body ends, and how far a coroutine has come. *)
Inductive ending := Threw (e : E) | Gave (v : V).

Inductive status := Running | Ended (r : ending) | Reaped (r : ending).

Inductive event :=
  | End_ (i : nat) (r : ending)  (* the body of coroutine i ends *)
  | Reap (i : nat).              (* its completion handler runs *)

(** ** when_all *)

Record all_state := mkAll {
  a_status : list status;
  a_values : list (option V);
  a_errors : list (option E);
  a_remaining : nat;         (* task_barrier::remaining_ *)
  a_cancelled : bool;        (* the barrier's timer was cancelled *)
}.

Definition all_init (n : nat) : all_state :=
  mkAll (replicate n Running) (replicate n None) (replicate n None) n false.

(** [--remaining_ == 0] of [task_barrier::completion_handler]. *)
Definition all_complete (s : all_state) (i : nat) (r : ending) : all_state :=
  let remaining := pred (a_remaining s) in
  mkAll (<[i := Reaped r]> (a_status s)) (a_values s) (a_errors s) remaining
        (if decide (remaining = 0) then true else a_cancelled s).

Definition all_step (s : all_state) (e : event) : option all_state :=
  match e with
  | End_ i r =>
      match a_status s !! i with
      | Some Running =>
          Some (match r with
                | Gave v => mkAll (<[i := Ended r]> (a_status s)) (<[i := Some v]> (a_values s))
                                  (a_errors s) (a_remaining s) (a_cancelled s)
                | Threw x => mkAll (<[i := Ended r]> (a_status s)) (a_values s)
                                   (<[i := Some x]> (a_errors s)) (a_remaining s) (a_cancelled s)
                end)
      | _ => None
      end
  | Reap i =>
      match a_status s !! i with
      | Some (Ended r) => Some (all_complete s i r)
      | _ => None
      end
  end.

(** What the combined awaitable ends with. *)
Inductive outcome (R : Type) :=
  | Return (x : R)
  | Throw (e : E)            (* rethrown exception of a coroutine *)
  | ThrowNoValue             (* std::runtime_error, winner without a value *)
  | Undefined.               (* access outside a container or to an empty optional *)
Arguments Return {R}.
Arguments Throw {R}.
Arguments ThrowNoValue {R}.
Arguments Undefined {R}.

(** [check_and_rethrow_errors], then move the values out in order. *)
Fixpoint first_error (errors : list (option E)) : option E :=
  match errors with
  | [] => None
  | Some e :: _ => Some e
  | None :: errors => first_error errors
  end.

Fixpoint unwrap_values (values : list (option V)) : option (list V) :=
  match values with
  | [] => Some []
  | Some v :: values => cons v <$> unwrap_values values
  | None :: _ => None
  end.

Definition all_result (s : all_state) : outcome (list V) :=
  match first_error (a_errors s) with
  | Some e => Throw e
  | None => match unwrap_values (a_values s) with Some vs => Return vs | None => Undefined end
  end.

(** [when_all] of a vector: [None] while it is suspended. *)
Definition when_all (n : nat) (s : all_state) : option (outcome (list V)) :=
  if decide (n = 0) then Some (Return [])
  else if a_cancelled s then Some (all_result s) else None.

(** The variadic overload has no test for an empty pack. *)
Definition when_all_variadic (s : all_state) : option (outcome (list V)) :=
  if a_cancelled s then Some (all_result s) else None.

(** ** when_any *)

Record any_state := mkAny {
  y_status : list status;
  y_values : list (option V);
  y_errors : list (option E);
  y_index : nat;             (* completed_index, initially the number of tasks *)
  y_remaining : nat;
  y_completed : bool;
  y_stop : bool;             (* stop_source_->request_stop() *)
  y_cancelled : bool;
}.

Definition any_init (n : nat) : any_state :=
  mkAny (replicate n Running) (replicate n None) (replicate n None) n n false false false.

(** [race_barrier::completion_handler]. *)
Definition any_complete (s : any_state) (i : nat) (r : ending) : any_state :=
  let remaining := pred (y_remaining s) in
  mkAny (<[i := Reaped r]> (y_status s)) (y_values s) (y_errors s) (y_index s) remaining
        true (if y_completed s then y_stop s else true)
        (if decide (remaining = 0) then true else y_cancelled s).

(** [ignored] are the exceptions a body swallows: [operation_aborted] in the
    legacy overload, none elsewhere. *)
Definition any_step (ignored : E -> bool) (s : any_state) (e : event) : option any_state :=
  match e with
  | End_ i r =>
      match y_status s !! i with
      | Some Running =>
          let n := length (y_status s) in
          Some (match r with
                | Gave v =>
                    mkAny (<[i := Ended r]> (y_status s)) (<[i := Some v]> (y_values s)) (y_errors s)
                          (if decide (y_index s = n) then i else y_index s)
                          (y_remaining s) (y_completed s) (y_stop s) (y_cancelled s)
                | Threw x =>
                    mkAny (<[i := Ended r]> (y_status s)) (y_values s)
                          (if ignored x then y_errors s else <[i := Some x]> (y_errors s))
                          (y_index s) (y_remaining s) (y_completed s) (y_stop s) (y_cancelled s)
                end)
      | _ => None
      end
  | Reap i =>
      match y_status s !! i with
      | Some (Ended r) => Some (any_complete s i r)
      | _ => None
      end
  end.

(** The test the three non-legacy endings share: rethrow the winner's error. *)
Definition winner_error (s : any_state) : option E :=
  if decide (y_index s < length (y_status s)) then default None (y_errors s !! y_index s) else None.

(** [when_any_void_impl]. *)
Definition any_result_void (s : any_state) : outcome nat :=
  match winner_error s with Some e => Throw e | None => Return (y_index s) end.

(** [when_any_value_impl] and the vector of factories. *)
Definition any_result_value (s : any_state) : outcome (nat * V) :=
  match winner_error s with
  | Some e => Throw e
  | None => match default None (y_values s !! y_index s) with
            | Some v => Return (y_index s, v)
            | None => ThrowNoValue
            end
  end.

(** The vector of awaitables (legacy) dereferences [values[winner]] unchecked. *)
Definition any_result_legacy (s : any_state) : outcome (nat * V) :=
  match winner_error s with
  | Some e => Throw e
  | None => match y_values s !! y_index s with
            | Some (Some v) => Return (y_index s, v)
            | _ => Undefined
            end
  end.

Definition when_any (s : any_state) : option (outcome (nat * V)) :=
  if y_cancelled s then Some (any_result_value s) else None.

End await.

Arguments outcome : clear implicits.
Arguments Return {E R}.
Arguments Throw {E R}.
Arguments ThrowNoValue {E R}.
Arguments Undefined {E R}.
Arguments event : clear implicits.
Arguments ending : clear implicits.
Arguments status : clear implicits.
Arguments all_state : clear implicits.
Arguments any_state : clear implicits.

(** Running a list of events through a partial step function. *)
Fixpoint run_events {S Ev : Type} (step : S -> Ev -> option S) (s : S) (es : list Ev) : option S :=
  match es with
  | [] => Some s
  | e :: es => match step s e with Some s' => run_events step s' es | None => None end
  end.

Lemma run_events_snoc {S Ev : Type} (step : S -> Ev -> option S) s es e :
  run_events step s (es ++ [e]) = run_events step s es ≫= (fun s' => step s' e).
Proof.
  revert s. induction es as [|e' es IH]; intros s; simpl; [by destruct (step s e)|].
  by destruct (step s e').
Qed.

Lemma run_events_invariant {S Ev : Type} (step : S -> Ev -> option S) (P : S -> Prop) s es s' :
  (forall s e s', P s -> step s e = Some s' -> P s') ->
  P s -> run_events step s es = Some s' -> P s'.
Proof.
  intros Hstep. revert s. induction es as [|e es IH]; intros s Hs; simpl; [by intros [= <-]|].
  destruct (step s e) eqn:Es; [|done]. apply IH. by eapply Hstep.
Qed.

(** ** Bookkeeping *)

Section await_facts.

Context {E V : Type}.

Implicit Types (r : ending E V) (l : list (status E V)).

Definition ended_with (st : status E V) : option (ending E V) :=
  match st with Running => None | Ended r => Some r | Reaped r => Some r end.

Definition value_of (st : status E V) : option V :=
  match ended_with st with Some (Gave v) => Some v | _ => None end.

Definition error_of (st : status E V) : option E :=
  match ended_with st with Some (Threw e) => Some e | _ => None end.

Definition live (st : status E V) : nat := match st with Reaped _ => 0 | _ => 1 end.

Definition live_count (l : list (status E V)) : nat := sum_list_with live l.

Lemma live_count_insert l i x y :
  l !! i = Some y -> live_count (<[i := x]> l) + live y = live_count l + live x.
Proof.
  unfold live_count. revert i. induction l as [|a l IH]; intros [|i] Hi; simpl in *; try done.
  - injection Hi as ->. lia.
  - specialize (IH i Hi). lia.
Qed.

Lemma live_count_zero l : live_count l = 0 <-> exists rs, l = Reaped <$> rs.
Proof.
  split.
  - induction l as [|[| |r] l IH]; simpl; intros H; try done; [by exists []|].
    destruct (IH H) as [rs ->]. by exists (r :: rs).
  - intros [rs ->]. induction rs as [|r rs IH]; [done|exact IH].
Qed.

Lemma live_count_running n : live_count (replicate n Running) = n.
Proof. induction n as [|n IH]; simpl; [done|]. unfold live_count in *. simpl. by rewrite IH. Qed.

(** ** when_all *)

Record all_inv (s : all_state E V) : Prop := {
  all_values : a_values s = value_of <$> a_status s;
  all_errors : a_errors s = error_of <$> a_status s;
  all_remaining : a_remaining s = live_count (a_status s);
  all_cancelled : a_cancelled s = true <-> a_remaining s = 0 /\ a_status s <> [];
}.

Lemma all_inv_init n : all_inv (all_init n).
Proof.
  split; simpl; rewrite ?fmap_replicate, ?live_count_running; try done.
  split; [done|]. intros [-> H]. done.
Qed.

Lemma insert_nonnil {A} (l : list A) i x : <[i := x]> l <> [] <-> l <> [].
Proof. destruct l, i; done. Qed.

Lemma all_inv_step s e s' : all_inv s -> all_step s e = Some s' -> all_inv s'.
Proof.
  intros [Hv He Hr Hc]. unfold all_step. destruct e as [i r|i].
  - destruct (a_status s !! i) as [[| |]|] eqn:Hi; try done. intros [= <-].
    pose proof (live_count_insert _ _ (Ended r) _ Hi) as Hl. simpl in Hl.
    assert (a_status s <> []) as Hne by (intros Hnil; by rewrite Hnil in Hi).
    destruct r as [x|v]; split; simpl; rewrite ?list_fmap_insert, <- ?Hv, <- ?He;
      try (rewrite list_insert_id; [done|]; rewrite ?Hv, ?He, list_lookup_fmap, Hi; done);
      try done; try lia; rewrite Hc, insert_nonnil; done.
  - destruct (a_status s !! i) as [[|r|]|] eqn:Hi; try done. intros [= <-].
    pose proof (live_count_insert _ _ (Reaped r) _ Hi) as Hl. simpl in Hl.
    assert (a_status s <> []) as Hne by (intros Hnil; by rewrite Hnil in Hi).
    split; simpl; rewrite ?list_fmap_insert.
    + rewrite list_insert_id; [done|]. by rewrite list_lookup_fmap, Hi.
    + rewrite list_insert_id; [done|]. by rewrite list_lookup_fmap, Hi.
    + lia.
    + rewrite insert_nonnil. case_decide; [tauto|]. rewrite Hc. split; [intros [? _]; lia|tauto].
Qed.

(** Reference for the result: the exception of the first coroutine, in argument
    order, that threw, else all values in argument order. *)
Fixpoint all_spec (rs : list (ending E V)) : outcome E (list V) :=
  match rs with
  | [] => Return []
  | Threw e :: _ => Throw e
  | Gave v :: rs => match all_spec rs with Return vs => Return (v :: vs) | o => o end
  end.

Lemma all_result_spec s rs :
  a_values s = value_of <$> (Reaped <$> rs) -> a_errors s = error_of <$> (Reaped <$> rs) ->
  all_result s = all_spec rs.
Proof.
  unfold all_result. intros -> ->. induction rs as [|[e|v] rs IH]; [done..|].
  rewrite !fmap_cons. cbn [value_of error_of ended_with first_error unwrap_values all_spec]. rewrite <- IH.
  destruct (first_error (error_of <$> (Reaped <$> rs))); [done|].
  by destruct (unwrap_values (value_of <$> (Reaped <$> rs))).
Qed.

(** The endings a state has recorded are those of the events so far. *)
Lemma status_trace {S} (step : S -> event E V -> option S) (st : S -> list (status E V)) s0 es s :
  (forall i, st s0 !! i ≫= ended_with = None) ->
  (forall s e s', step s e = Some s' ->
     match e with
     | End_ i r => st s !! i = Some Running /\ st s' = <[i := Ended r]> (st s)
     | Reap i => exists r, st s !! i = Some (Ended r) /\ st s' = <[i := Reaped r]> (st s)
     end) ->
  run_events step s0 es = Some s ->
  forall i r, st s !! i ≫= ended_with = Some r <-> End_ i r ∈ es.
Proof.
  intros H0 Hstep. revert s. induction es as [|e es IH] using rev_ind; intros s.
  - intros [= <-] i r. rewrite H0. split; [done|]. by intros ?%elem_of_nil.
  - rewrite run_events_snoc. destruct (run_events step s0 es) as [s1|]; [|done]. simpl.
    intros Hs. specialize (IH s1 eq_refl). specialize (Hstep _ _ _ Hs). intros i r.
    rewrite elem_of_app, list_elem_of_singleton, <- IH. clear IH.
    destruct e as [j r'|j].
    + destruct Hstep as [Hj ->]. pose proof (lookup_lt_Some _ _ _ Hj) as Hlt.
      destruct (decide (i = j)) as [->|Hne].
      * rewrite list_lookup_insert_eq, Hj by done. simpl. split.
        -- intros [= ->]. by right.
        -- intros [?|[= ->]]; done.
      * rewrite list_lookup_insert_ne by done. split; [by left|]. intros [?|[= ? ?]]; done.
    + destruct Hstep as (r' & Hj & ->). pose proof (lookup_lt_Some _ _ _ Hj) as Hlt.
      destruct (decide (i = j)) as [->|Hne].
      * rewrite list_lookup_insert_eq, Hj by done. simpl. split; [by left|]. by intros [?|?].
      * rewrite list_lookup_insert_ne by done. split; [by left|]. by intros [?|?].
Qed.

Lemma replicate_not_ended n i : (replicate n (@Running E V) !! i) ≫= ended_with = None.
Proof.
  destruct (replicate n Running !! i) as [st|] eqn:Hi; [|done].
  by apply lookup_replicate_1 in Hi as [-> _].
Qed.

Lemma all_step_status (s : all_state E V) e s' :
  all_step s e = Some s' ->
  match e with
  | End_ i r => a_status s !! i = Some Running /\ a_status s' = <[i := Ended r]> (a_status s)
  | Reap i => exists r, a_status s !! i = Some (Ended r) /\ a_status s' = <[i := Reaped r]> (a_status s)
  end.
Proof.
  destruct e as [i r|i]; simpl; destruct (a_status s !! i) as [[]|] eqn:Hi; try done.
  - intros [= <-]. by destruct r.
  - intros [= <-]. eauto.
Qed.

Lemma all_step_length (s : all_state E V) e s' :
  all_step s e = Some s' -> length (a_status s') = length (a_status s).
Proof.
  intros Hs%all_step_status. destruct e; [destruct Hs as [_ ->]|destruct Hs as (? & _ & ->)];
    apply length_insert.
Qed.

End await_facts.

(** C9: for any number of coroutines ending and being reaped in any order,
    [when_all] stays suspended until the last completion handler has run, and
    then its result depends only on how the bodies ended, not on the order: all
    values in argument order, or the exception of the first argument that
    threw. *)
Theorem when_all_correct (E V : Type) (n : nat) (es : list (event E V)) (s : all_state E V) :
  n <> 0 -> run_events all_step (all_init n) es = Some s ->
  (when_all n s = None /\ live_count (a_status s) <> 0) \/
  exists rs, a_status s = Reaped <$> rs /\ length rs = n /\
    (forall i r, rs !! i = Some r <-> End_ i r ∈ es) /\
    when_all n s = Some (all_spec rs).
Proof.
  intros Hn Hrun.
  assert (all_inv s) as [Hv He Hr Hc].
  { eapply run_events_invariant; [exact all_inv_step|apply all_inv_init|exact Hrun]. }
  assert (length (a_status s) = n) as Hlen.
  { refine (run_events_invariant _ (fun s => length (a_status s) = n) _ _ _ _ _ Hrun).
    - intros s1 e s2 Hl Hs. by rewrite (all_step_length s1 e s2).
    - apply length_replicate. }
  unfold when_all. rewrite decide_False by done.
  destruct (a_cancelled s) eqn:Ecancel.
  - right. destruct (proj1 Hc eq_refl) as [Hz _]. rewrite Hr in Hz.
    apply live_count_zero in Hz as [rs Hrs]. exists rs.
    rewrite Hrs in Hlen, Hv, He. rewrite length_fmap in Hlen. split_and!; [done..| |].
    + intros i r. rewrite <- (status_trace all_step a_status (all_init n) es s); [| |exact all_step_status|done].
      * rewrite Hrs, list_lookup_fmap. by destruct (rs !! i); simpl.
      * apply replicate_not_ended.
    + f_equal. by apply all_result_spec.
  - left. split; [done|]. intros Hz. assert (false = true); [|done].
    apply Hc. split; [lia|]. intros Hnil. rewrite Hnil in Hlen. simpl in Hlen. lia.
Qed.

Lemma when_all_correct_witness :
  let es := [End_ 1 (Threw true); End_ 0 (Gave 7); Reap 0; Reap 1] in
  let s := default (all_init 2) (run_events all_step (all_init 2) es) in
  (when_all 2 s = None /\ live_count (a_status s) <> 0) \/
  exists rs, a_status s = Reaped <$> rs /\ length rs = 2 /\
    (forall i r, rs !! i = Some r <-> End_ i r ∈ es) /\
    when_all 2 s = Some (all_spec rs).
Proof.
  apply (when_all_correct bool nat 2 [End_ 1 (Threw true); End_ 0 (Gave 7); Reap 0; Reap 1]);
    [lia|reflexivity].
Defined.

(** The variadic [when_all()] of an empty pack: no coroutine will ever cancel the
    barrier's timer, so the caller is never resumed. *)
Lemma when_all_variadic_empty (E V : Type) (es : list (event E V)) (s : all_state E V) :
  run_events all_step (all_init 0) es = Some s -> when_all_variadic s = None.
Proof. destruct es as [|[i r|i] es]; simpl; [by intros [= <-]|done..]. Qed.

(** ** when_any *)

Section any_facts.

Context {E V : Type} (ignored : E -> bool).

(** Reference for the winner: the first body to end with a value. *)
Fixpoint first_gave (es : list (event E V)) : option (nat * V) :=
  match es with
  | [] => None
  | End_ i (Gave v) :: _ => Some (i, v)
  | _ :: es => first_gave es
  end.

Lemma first_gave_snoc es e :
  first_gave (es ++ [e]) = match first_gave es with Some w => Some w | None => first_gave [e] end.
Proof. induction es as [|[i [x|v]|i] es IH]; simpl; done. Qed.

Definition reaps (e : event E V) : bool := match e with Reap _ => true | _ => false end.

Record any_inv (n : nat) (es : list (event E V)) (s : any_state E V) : Prop := {
  any_length : length (y_status s) = n;
  any_values : y_values s = value_of <$> y_status s;
  any_errors : forall i e, y_errors s !! i = Some (Some e) -> y_status s !! i ≫= ended_with = Some (Threw e);
  any_remaining : y_remaining s = live_count (y_status s);
  any_cancelled : y_cancelled s = true <-> y_remaining s = 0 /\ y_status s <> [];
  any_stop : y_stop s = existsb reaps es;
  any_completed : y_completed s = existsb reaps es;
  any_winner : match first_gave es with
               | Some (i, v) => y_index s = i /\ y_status s !! i ≫= ended_with = Some (Gave v)
               | None => y_index s = n /\ Forall (fun o => o = None) (y_values s)
               end;
}.

Lemma any_inv_init n : any_inv n [] (any_init n).
Proof.
  split; simpl; rewrite ?length_replicate, ?fmap_replicate, ?live_count_running; try done.
  - intros i e Hi. by apply lookup_replicate_1 in Hi as [? _].
  - split; [done|]. intros [-> H]. done.
  - split; [done|]. by apply Forall_replicate.
Qed.

Lemma ended_insert (l : list (status E V)) (i : nat) (r : ending E V) (j : nat) st :
  l !! i = Some st -> (ended_with st = None \/ ended_with st = Some r) ->
  forall r', l !! j ≫= ended_with = Some r' -> <[i := Ended r]> l !! j ≫= ended_with = Some r' /\
                                            <[i := Reaped r]> l !! j ≫= ended_with = Some r'.
Proof.
  intros Hi Hst r' Hj. pose proof (lookup_lt_Some _ _ _ Hi). destruct (decide (i = j)) as [<-|Hne].
  - rewrite !list_lookup_insert_eq by done. rewrite Hi in Hj. simpl in *. destruct Hst; split; congruence.
  - by rewrite !list_lookup_insert_ne.
Qed.

Lemma any_inv_end n es s i r s' :
  any_inv n es s -> any_step ignored s (End_ i r) = Some s' -> any_inv n (es ++ [End_ i r]) s'.
Proof.
  intros [Hlen Hv He Hr Hc Hst Hco Hw]. simpl.
  destruct (y_status s !! i) as [[| |]|] eqn:Hi; try done. intros [= <-].
  pose proof (live_count_insert _ _ (Ended r) _ Hi) as Hl. simpl in Hl.
  assert (y_status s <> []) as Hne by (intros Hnil; by rewrite Hnil in Hi).
  pose proof (lookup_lt_Some _ _ _ Hi) as Hlt.
  assert (forall j e, y_errors s !! j = Some (Some e) -> <[i := Ended r]> (y_status s) !! j ≫= ended_with = Some (Threw e)) as He'.
  { intros j e Hj%He. by eapply ended_insert in Hj as [? _]; [|exact Hi|by left]. }
  destruct r as [x|v]; split; cbn [y_status y_values y_errors y_index y_remaining y_completed y_stop y_cancelled];
    rewrite ?first_gave_snoc, ?length_insert, ?existsb_app, ?insert_nonnil; simpl; rewrite ?orb_false_r;
    try done; try lia.
  - rewrite list_fmap_insert, <- Hv, list_insert_id; [done|]. by rewrite Hv, list_lookup_fmap, Hi.
  - intros j e. destruct (ignored x); [apply He'|]. intros Hj. destruct (decide (i = j)) as [<-|Hij].
    + pose proof (lookup_lt_Some _ _ _ Hj) as Hlj. rewrite length_insert in Hlj.
      rewrite list_lookup_insert_eq in Hj by done. injection Hj as <-.
      by rewrite list_lookup_insert_eq by done.
    + rewrite list_lookup_insert_ne in Hj by done. by apply He'.
  - destruct (first_gave es) as [[j v']|]; [|done]. destruct Hw as [-> Hj]. split; [done|].
    by eapply ended_insert in Hj as [? _]; [|exact Hi|by left].
  - by rewrite list_fmap_insert, Hv.
  - destruct (first_gave es) as [[j v']|].
    + destruct Hw as [-> Hj]. split.
      * assert (j < length (y_status s)) by (destruct (y_status s !! j) eqn:E1; [by eapply lookup_lt_Some|done]).
        by rewrite decide_False by lia.
      * by eapply ended_insert in Hj as [? _]; [|exact Hi|by left].
    + destruct Hw as [-> _]. rewrite Hlen, decide_True by done. split; [done|].
      by rewrite list_lookup_insert_eq by done.
Qed.

Lemma any_inv_reap n es s i s' :
  any_inv n es s -> any_step ignored s (Reap i) = Some s' -> any_inv n (es ++ [Reap i]) s'.
Proof.
  intros [Hlen Hv He Hr Hc Hst Hco Hw]. simpl.
  destruct (y_status s !! i) as [[|r|]|] eqn:Hi; try done. intros [= <-].
  pose proof (live_count_insert _ _ (Reaped r) _ Hi) as Hl. simpl in Hl.
  assert (y_status s <> []) as Hne by (intros Hnil; by rewrite Hnil in Hi).
  split; unfold any_complete;
    cbn [y_status y_values y_errors y_index y_remaining y_completed y_stop y_cancelled];
    rewrite ?first_gave_snoc, ?length_insert, ?existsb_app, ?insert_nonnil; simpl; rewrite ?orb_true_r;
    try done; try lia.
  - rewrite list_fmap_insert, <- Hv, list_insert_id; [done|]. by rewrite Hv, list_lookup_fmap, Hi.
  - intros j e Hj%He. by eapply ended_insert in Hj as [_ ?]; [|exact Hi|by right].
  - case_decide; [tauto|]. rewrite Hc. split; [intros [? _]; lia|tauto].
  - rewrite Hco, Hst. by destruct (existsb reaps es).
  - destruct (first_gave es) as [[j v']|]; [|done]. destruct Hw as [-> Hj]. split; [done|].
    by eapply ended_insert in Hj as [_ ?]; [|exact Hi|by right].
Qed.

Lemma any_inv_run n es s : run_events (any_step ignored) (any_init n) es = Some s -> any_inv n es s.
Proof.
  revert s. induction es as [|e es IH] using rev_ind; intros s.
  - intros [= <-]. apply any_inv_init.
  - rewrite run_events_snoc. destruct (run_events _ _ es) as [s1|]; [|done]. cbn [mbind option_bind].
    specialize (IH s1 eq_refl). destruct e; [by apply any_inv_end|by apply any_inv_reap].
Qed.

(** The winner's error slot is empty, so the rethrow test never fires. *)
Lemma winner_error_none n es s : any_inv n es s -> winner_error s = None.
Proof.
  intros [Hlen Hv He _ _ _ _ Hw]. unfold winner_error. case_decide as Hlt; [|done].
  destruct (y_errors s !! y_index s) as [[e|]|] eqn:Ee; simpl; try done. apply He in Ee.
  destruct (first_gave es) as [[i v]|]; destruct Hw as [Hidx Hw]; rewrite Hidx in *; [congruence|lia].
Qed.

End any_facts.

(** [when_any] resumes its caller only when every coroutine has been reaped;
    the winner is then the first body that ended with a value, wherever failures
    and later successes occurred, and the value returned is its value.  If no
    body gave a value the exceptions are dropped: the value overloads throw a
    generic error, the [void] overload returns the number of tasks as if it were
    a winner, and the legacy overload reads past the end of its vector. *)
Theorem when_any_correct (E V : Type) (ignored : E -> bool) (n : nat) (es : list (event E V)) (s : any_state E V) :
  n <> 0 -> run_events (any_step ignored) (any_init n) es = Some s ->
  (when_any s = None <-> live_count (y_status s) <> 0) /\
  match first_gave es with
  | Some (i, v) => any_result_value s = Return (i, v) /\ any_result_legacy s = Return (i, v) /\
                   any_result_void s = Return i
  | None => any_result_value s = ThrowNoValue /\ any_result_legacy s = Undefined /\
            any_result_void s = Return n
  end.
Proof.
  intros Hn Hrun. pose proof (any_inv_run ignored n es s Hrun) as Hinv.
  pose proof (winner_error_none n es s Hinv) as Herr.
  destruct Hinv as [Hlen Hv He Hr Hc Hst Hco Hw]. split.
  - assert (y_status s <> []) by (intros Hnil; rewrite Hnil in Hlen; simpl in Hlen; lia).
    unfold when_any. destruct (y_cancelled s); split; try done.
    + intros Hl. destruct Hl. rewrite <- Hr. by apply Hc.
    + intros _ Hz. assert (false = true); [|done]. apply Hc. split; [lia|done].
  - unfold any_result_value, any_result_legacy, any_result_void. rewrite Herr, Hv, list_lookup_fmap.
    destruct (first_gave es) as [[i v]|]; destruct Hw as [-> Hw].
    + unfold value_of. destruct (y_status s !! i) as [st|] eqn:Ei; simpl in *; [|done]. by rewrite Hw.
    + rewrite (proj2 (lookup_ge_None (y_status s) n)) by lia. done.
Qed.

Lemma when_any_correct_witness :
  let es := [End_ 1 (Threw true); Reap 1; End_ 0 (Gave 7); Reap 0] in
  let s := default (any_init 2) (run_events (any_step (fun _ => false)) (any_init 2) es) in
  any_result_value s = Return (0, 7).
Proof.
  apply (when_any_correct bool nat (fun _ => false) 2 [End_ 1 (Threw true); Reap 1; End_ 0 (Gave 7); Reap 0]);
    [lia|reflexivity].
Defined.

(** The stop token is requested by the first completion handler to run,
    even when that coroutine failed: a failing coroutine tells the others to
    stop although no winner exists yet. *)
Theorem when_any_stop (E V : Type) (ignored : E -> bool) (n : nat) (es : list (event E V)) (s : any_state E V) :
  run_events (any_step ignored) (any_init n) es = Some s ->
  (y_stop s = true <-> exists i, Reap i ∈ es).
Proof.
  intros Hrun. rewrite (any_stop n es s (any_inv_run ignored n es s Hrun)), existsb_exists.
  split.
  - intros ([|i] & Hin & Hr); [done|]. exists i. by apply list_elem_of_In.
  - intros [i Hin]. exists (Reap i). split; [by apply list_elem_of_In|done].
Qed.

Lemma when_any_stop_witness :
  let es := [End_ 1 (Threw true); Reap 1] in
  let s := default (any_init 2) (run_events (any_step (V := nat) (fun _ => false)) (any_init 2) es) in
  y_stop s = true <-> exists i, Reap i ∈ es.
Proof. apply (when_any_stop bool nat (fun _ => false) 2 [End_ 1 (Threw true); Reap 1]). reflexivity. Defined.
