(* ===== verification/TaskQueue.v ===== *)
(** * The task queue: [include/taskqueue.hpp]

    Tasks wait in a deque and are run on a bounded set of client connections.
    [processTasks] and [handleTask] are coroutines; [step] runs one of them from
    one suspension point to the next, or performs a call made from outside.  A
    spawned coroutine may start at any later moment.  Tasks are named by a type
    [T]; what a task does is the event that ends it. *)

From S2P Require Import Prelude.

Section taskqueue.

Context {T : Type}.

Record Client := mkClient { cid : nat; available : bool }.

(** Where a coroutine is suspended. *)
Inductive proc :=
  | Spawned                            (* processTasks, not started *)
  | Connecting (i : nat) (c : nat)     (* tryConnect, attempt i for new client c *)
  | Backoff (i : nat) (c : nat)        (* the timer after failed attempt i *)
  | RetryWait                          (* waitFor(5s) *)
  | HandlerSpawned (t : T) (c : nat)   (* handleTask, not started *)
  | Handling (t : T) (c : nat)         (* handleTask, awaiting the task *)
  | Finished.

Record state := mkState {
  taskHandlers : list T;
  clients : list Client;
  endPointSet : bool;                  (* operator bool of EndPoint: url not empty *)
  maxClients : nat;
  procs : gmap nat proc;
  nextProc : nat;
  nextClient : nat;
  added : list T;                      (* history: every task ever added *)
  ended : list (T * bool);             (* history: tasks that returned; true is no error *)
}.

Definition maxRetryCount : nat := 3.

Definition init (url_given : bool) (maxConnections : nat) : state :=
  mkState [] [] url_given maxConnections ∅ 0 0 [] [].

Definition set_proc (s : state) (p : nat) (x : proc) : state :=
  mkState (taskHandlers s) (clients s) (endPointSet s) (maxClients s) (<[p := x]> (procs s))
          (nextProc s) (nextClient s) (added s) (ended s).

Definition set_clients (s : state) (cs : list Client) : state :=
  mkState (taskHandlers s) cs (endPointSet s) (maxClients s) (procs s)
          (nextProc s) (nextClient s) (added s) (ended s).

Definition set_queue (s : state) (q : list T) : state :=
  mkState q (clients s) (endPointSet s) (maxClients s) (procs s)
          (nextProc s) (nextClient s) (added s) (ended s).

(** [co_spawn(processTasks)]. *)
Definition spawn (s : state) : state :=
  mkState (taskHandlers s) (clients s) (endPointSet s) (maxClients s)
          (<[nextProc s := Spawned]> (procs s)) (S (nextProc s)) (nextClient s) (added s) (ended s).

Definition addTask (s : state) (t : T) (front : bool) : state :=
  let processNow := bool_decide (length (taskHandlers s) < maxClients s) in
  let s' := mkState (if front then t :: taskHandlers s else taskHandlers s ++ [t]) (clients s)
                    (endPointSet s) (maxClients s) (procs s) (nextProc s) (nextClient s)
                    (added s ++ [t]) (ended s) in
  if processNow then spawn s' else s'.

Definition setEndPoint (s : state) (url_nonempty : bool) : state :=
  spawn (mkState (taskHandlers s) (clients s) url_nonempty (maxClients s) (procs s)
                 (nextProc s) (nextClient s) (added s) (ended s)).

(** [acquire()] and [release()] on the client with the given identity. *)
Definition set_available (b : bool) (c : nat) (cs : list Client) : list Client :=
  (fun x => if decide (cid x = c) then mkClient (cid x) b else x) <$> cs.

Definition getFreeClient (cs : list Client) : option (nat * list Client) :=
  match find_if available cs with
  | Some (_, x) => Some (cid x, set_available false (cid x) cs)
  | None => None
  end.

(** [getTask] with a client in hand; the handler runs as coroutine [p]. *)
Definition got_client (s : state) (p c : nat) : state :=
  match taskHandlers s with
  | [] => set_proc (set_clients s (set_available true c (clients s))) p RetryWait
  | t :: q => set_proc (set_queue s q) p (HandlerSpawned t c)
  end.

(** [processTasks] up to its first suspension. *)
Definition processTasks (s : state) (p : nat) : state :=
  if negb (endPointSet s) then set_proc s p Finished
  else match taskHandlers s with
       | [] => set_proc s p Finished
       | _ :: _ =>
           match getFreeClient (clients s) with
           | Some (c, cs) => got_client (set_clients s cs) p c
           | None =>
               if decide (length (clients s) < maxClients s) then
                 let s' := mkState (taskHandlers s) (clients s) (endPointSet s) (maxClients s) (procs s)
                             (nextProc s) (S (nextClient s)) (added s) (ended s) in
                 set_proc s' p (Connecting 0 (nextClient s))
               else set_proc s p RetryWait
           end
       end.

(** [removeClient(client)]: that client and every client that is not open. *)
Definition removeClient (c : nat) (closed : list nat) (cs : list Client) : list Client :=
  filter (fun x => cid x ∉ closed) (filter (fun x => cid x <> c) cs).

Inductive event :=
  | AddTask (t : T) (front : bool)
  | SetEndPoint (url_nonempty : bool)
  | Run (p : nat)                        (* start a spawned coroutine *)
  | ConnectOk (p : nat)
  | ConnectFail (p : nat)
  | Timer (p : nat)
  | TaskDone (p : nat)                   (* the task returned without error *)
  | TaskError (p : nat) (closed : list nat).  (* with an error; which clients are closed *)

(** The outcome of an event: not enabled, undefined behaviour, or a new state. *)
Inductive result := NotEnabled | UseAfterFree | Ok (s : state).

Definition step (s : state) (e : event) : result :=
  match e with
  | AddTask t front => Ok (addTask s t front)
  | SetEndPoint u => Ok (setEndPoint s u)
  | Run p =>
      match procs s !! p with
      | Some Spawned => Ok (processTasks s p)
      | Some (HandlerSpawned t c) =>
          if decide (c ∈ cid <$> clients s) then
            Ok (set_proc (set_clients s (set_available false c (clients s))) p (Handling t c))
          else UseAfterFree
      | _ => NotEnabled
      end
  | ConnectOk p =>
      match procs s !! p with
      | Some (Connecting _ c) =>
          Ok (got_client (set_clients s (clients s ++ [mkClient c false])) p c)
      | _ => NotEnabled
      end
  | ConnectFail p =>
      match procs s !! p with
      | Some (Connecting i c) => Ok (set_proc s p (Backoff i c))
      | _ => NotEnabled
      end
  | Timer p =>
      match procs s !! p with
      | Some (Backoff i c) =>
          Ok (set_proc s p (if decide (S i < maxRetryCount) then Connecting (S i) c else RetryWait))
      | Some RetryWait => Ok (set_proc s p Spawned)
      | _ => NotEnabled
      end
  | TaskDone p =>
      match procs s !! p with
      | Some (Handling t c) =>
          if decide (c ∈ cid <$> clients s) then
            let cs := set_available true c (clients s) in
            let s' := mkState (taskHandlers s) cs (endPointSet s) (maxClients s) (procs s)
                        (nextProc s) (nextClient s) (added s) (ended s ++ [(t, true)]) in
            Ok (match taskHandlers s with
                | [] => set_proc s' p Finished
                | t' :: q => set_proc (set_queue s' q) p (HandlerSpawned t' c)
                end)
          else UseAfterFree
      | _ => NotEnabled
      end
  | TaskError p closed =>
      match procs s !! p with
      | Some (Handling t c) =>
          Ok (set_proc (mkState (taskHandlers s) (removeClient c closed (clients s)) (endPointSet s)
                          (maxClients s) (procs s) (nextProc s) (nextClient s) (added s)
                          (ended s ++ [(t, false)])) p Spawned)
      | _ => NotEnabled
      end
  end.

Fixpoint run (s : state) (es : list event) : result :=
  match es with
  | [] => Ok s
  | e :: es => match step s e with Ok s' => run s' es | r => r end
  end.

End taskqueue.

Arguments proc : clear implicits.
Arguments state : clear implicits.
Arguments event : clear implicits.
Arguments result : clear implicits.

(** ** Tasks are conserved *)

Section conservation.

Context {T : Type}.
Implicit Types s : state T.

(** The task a coroutine carries. *)
Definition carried (x : proc T) : list T :=
  match x with HandlerSpawned t _ | Handling t _ => [t] | _ => [] end.

(** The tasks taken from the queue that have not returned yet. *)
Definition running s : list T := (map_to_list (procs s)).*2 ≫= carried.

Definition fresh_procs s : Prop := forall p, nextProc s <= p -> procs s !! p = None.

Lemma carried_fresh (m : gmap nat (proc T)) p x :
  m !! p = None -> (map_to_list (<[p := x]> m)).*2 ≫= carried ≡ₚ carried x ++ ((map_to_list m).*2 ≫= carried).
Proof. intros H. by rewrite map_to_list_insert. Qed.

Lemma carried_replace (m : gmap nat (proc T)) p x y :
  m !! p = Some x ->
  exists r, (map_to_list m).*2 ≫= carried ≡ₚ carried x ++ r /\
            (map_to_list (<[p := y]> m)).*2 ≫= carried ≡ₚ carried y ++ r.
Proof.
  intros H. exists ((map_to_list (delete p m)).*2 ≫= carried).
  rewrite <- !carried_fresh by apply lookup_delete_eq.
  by rewrite !insert_delete_eq, (insert_id m p x H).
Qed.

(** The queue, the running tasks and the ended ones are the tasks added. *)
Definition conserved s : Prop :=
  fresh_procs s /\ added s ≡ₚ taskHandlers s ++ running s ++ (ended s).*1.

(** One coroutine goes on: what it carries, the queue and the ended tasks
    together stay the same. *)
Lemma conserved_update s s' p x y :
  conserved s -> procs s !! p = Some x ->
  procs s' = <[p := y]> (procs s) -> nextProc s' = nextProc s -> added s' = added s ->
  taskHandlers s ++ carried x ++ (ended s).*1 ≡ₚ taskHandlers s' ++ carried y ++ (ended s').*1 ->
  conserved s'.
Proof.
  intros [Hf Hc] Hp Hps Hn Ha Hperm. split.
  - intros q Hq. rewrite Hn in Hq. rewrite Hps, lookup_insert_ne; [by apply Hf|].
    intros ->. by rewrite (Hf q Hq) in Hp.
  - unfold running in *. rewrite Ha, Hc, Hps.
    destruct (carried_replace (procs s) p x y Hp) as (r & -> & ->).
    trans (r ++ taskHandlers s ++ carried x ++ (ended s).*1); [solve_Permutation|].
    rewrite Hperm. solve_Permutation.
Qed.

(** A coroutine is spawned; it carries nothing. *)
Lemma conserved_spawn s : conserved s -> conserved (spawn s).
Proof.
  intros [Hf Hc]. split.
  - intros p Hp. cbn in *. rewrite lookup_insert_ne by lia. apply Hf. lia.
  - unfold running in *. cbn. rewrite carried_fresh by (apply Hf; lia). done.
Qed.

Lemma conserved_init u m : conserved (init u m).
Proof. split; [done|]. unfold running. cbn. by rewrite map_to_list_empty. Qed.

Lemma conserved_addTask s t front : conserved s -> conserved (addTask s t front).
Proof.
  intros [Hf Hc]. unfold addTask.
  match goal with |- conserved (if _ then spawn ?s' else _) => assert (conserved s') end.
  { split; [done|]. unfold running in *. cbn. rewrite Hc.
    destruct front; solve_Permutation. }
  case_bool_decide; [by apply conserved_spawn | done].
Qed.

Lemma conserved_got_client s s' p x c :
  conserved s -> procs s !! p = Some x -> carried x = [] ->
  procs s' = procs s -> nextProc s' = nextProc s -> added s' = added s ->
  taskHandlers s' = taskHandlers s -> ended s' = ended s ->
  conserved (got_client s' p c).
Proof.
  intros Hc Hp Hx Hps Hn Ha Hq He. unfold got_client.
  destruct (taskHandlers s') as [|t q] eqn:E;
    (eapply conserved_update; [exact Hc | exact Hp | cbn; by rewrite Hps | done | done |]);
    cbn; rewrite Hx, He, <- Hq, ?E; solve_Permutation.
Qed.

Lemma conserved_processTasks s p :
  conserved s -> procs s !! p = Some Spawned -> conserved (processTasks s p).
Proof.
  intros Hc Hp. unfold processTasks.
  destruct (endPointSet s); cbn; [|eapply conserved_update; [exact Hc|exact Hp|done..]].
  destruct (taskHandlers s) eqn:Hq; [eapply conserved_update; [exact Hc|exact Hp|done..|cbn; by rewrite Hq]|].
  destruct (getFreeClient (clients s)) as [[c cs]|]; [eapply conserved_got_client; [exact Hc|exact Hp|done..]|].
  case_decide; (eapply conserved_update; [exact Hc|exact Hp|done..|cbn; by rewrite Hq]).
Qed.

Lemma conserved_step s e s' : conserved s -> step s e = Ok s' -> conserved s'.
Proof.
  intros Hc H. destruct e as [t front|u|p|p|p|p|p|p closed]; cbn in H;
    try (destruct (procs s !! p) as [[]|] eqn:Hp; try done);
    try case_decide; simplify_eq;
    eauto using conserved_addTask, conserved_processTasks, conserved_got_client, conserved_spawn;
    try (eapply conserved_update; [exact Hc | exact Hp | done..|cbn; rewrite ?fmap_app; solve_Permutation]).
  destruct (taskHandlers s) as [|t' q] eqn:Hq;
    (eapply conserved_update; [exact Hc | exact Hp | done..|]); cbn;
    rewrite ?fmap_app, Hq; cbn; solve_Permutation.
Qed.

(** C7: no task is lost or duplicated: after any sequence of calls and
    completions, the tasks ever added are, with multiplicity, those in the queue,
    those some handler has taken and those that have returned. *)
Theorem taskqueue_conserved u m es s :
  run (init u m) es = Ok s ->
  added s ≡ₚ taskHandlers s ++ running s ++ (ended s).*1.
Proof.
  intros H. assert (conserved s) as []; [|done].
  assert (Hc := conserved_init u m). revert Hc H.
  generalize (init u m : state T). induction es as [|e es IH]; intros s0 Hc H; cbn in H.
  - by simplify_eq.
  - destruct (step s0 e) eqn:E; [done..|]. by eapply IH, H; eapply conserved_step, E.
Qed.

Ltac rewrite_queue :=
  repeat match goal with
         | H : taskHandlers ?s = _, H' : taskHandlers ?s = _ |- _ => rewrite H in H'; simplify_eq
         end;
  repeat match goal with H : taskHandlers _ = _ |- _ => rewrite H; clear H end;
  rewrite ?app_nil_r; solve_Permutation.

(** What a coroutine does when it goes on, and when its task ends: the view of
    the queue that its clients reason with. *)
Lemma step_loop s e s' p :
  (e = Run p \/ e = ConnectOk p \/ e = ConnectFail p \/ e = Timer p) -> step s e = Ok s' ->
  exists x y, procs s !! p = Some x /\ (forall t c, x <> Handling t c) /\
    procs s' = <[p := y]> (procs s) /\ nextProc s' = nextProc s /\
    taskHandlers s ++ carried x ≡ₚ taskHandlers s' ++ carried y.
Proof.
  intros He H. destruct (procs s !! p) as [x|] eqn:Hp.
  - exists x. destruct He as [->|[->|[->| ->]]]; cbn in H; rewrite Hp in H; destruct x; try done;
      unfold processTasks, got_client in H; repeat case_match; simplify_eq/=;
      eexists; (split_and!; [done|done|done|done|]); cbn in *; simplify_eq/=; rewrite_queue.
  - by destruct He as [->|[->|[->| ->]]]; cbn in H; rewrite Hp in H.
Qed.

Lemma step_end s e s' p t c :
  procs s !! p = Some (Handling t c) -> (e = TaskDone p \/ exists closed, e = TaskError p closed) ->
  step s e = Ok s' ->
  exists y, procs s' = <[p := y]> (procs s) /\ (forall t c, y <> Handling t c) /\ nextProc s' = nextProc s /\
    taskHandlers s ≡ₚ taskHandlers s' ++ carried y.
Proof.
  intros Hp [->|[closed ->]] H; cbn in H; rewrite Hp in H; repeat case_match; simplify_eq/=;
    eexists; (split_and!; [done|done|done|]); cbn in *; simplify_eq/=; rewrite_queue.
Qed.

(** ** No task is stranded *)

(** Events that the event loop delivers, as opposed to calls from outside. *)
Definition internal (e : event T) : bool :=
  match e with AddTask _ _ | SetEndPoint _ => false | _ => true end.

(** There is a coroutine that has not finished. *)
Definition live s : Prop := exists p x, procs s !! p = Some x /\ x <> Finished.

Definition served s : Prop := endPointSet s = true -> taskHandlers s <> [] -> live s.

Lemma live_enabled s : live s -> exists e, internal e = true /\ step s e <> NotEnabled.
Proof.
  intros (p & x & Hp & Hx). destruct x as [|i c|i c| |t c|t c|]; [..|done].
  - exists (Run p). cbn. by rewrite Hp.
  - exists (ConnectOk p). cbn. by rewrite Hp.
  - exists (Timer p). cbn. by rewrite Hp.
  - exists (Timer p). cbn. by rewrite Hp.
  - exists (Run p). cbn. rewrite Hp. by case_decide.
  - exists (TaskDone p). cbn. rewrite Hp. by case_decide.
Qed.

Lemma live_set_proc s p x : x <> Finished -> live (set_proc s p x).
Proof. intros. exists p, x. cbn. by rewrite lookup_insert_eq. Qed.

Lemma live_spawn s : live (spawn s).
Proof. exists (nextProc s), Spawned. cbn. by rewrite lookup_insert_eq. Qed.

Lemma served_set_proc s p x : x <> Finished -> served (set_proc s p x).
Proof. intros ? _ _. by apply live_set_proc. Qed.

Lemma served_got_client s p c : served (got_client s p c).
Proof. unfold got_client. destruct (taskHandlers s); by apply served_set_proc. Qed.

Lemma served_processTasks s p : served (processTasks s p).
Proof.
  unfold processTasks. destruct (endPointSet s) eqn:Eu; cbn.
  - destruct (taskHandlers s) eqn:Eq; [by intros ? ?; cbn in *|].
    destruct (getFreeClient (clients s)) as [[c cs]|]; [apply served_got_client|].
    case_decide; by apply served_set_proc.
  - intros Hu. cbn in Hu. congruence.
Qed.

Lemma served_addTask s t front : 0 < maxClients s -> served s -> served (addTask s t front).
Proof.
  intros Hm Hs. unfold addTask. case_bool_decide as Hlen.
  - intros _ _. apply live_spawn.
  - intros Hu _. cbn in Hu. apply Hs; [done|]. intros E. rewrite E in Hlen. cbn in Hlen. lia.
Qed.

Lemma served_step s e s' : 0 < maxClients s -> served s -> step s e = Ok s' -> served s'.
Proof.
  intros Hm Hs H. destruct e as [t front|u|p|p|p|p|p|p closed]; cbn in H;
    try (destruct (procs s !! p) as [[]|] eqn:Hp; try done);
    try case_decide; simplify_eq;
    auto using served_addTask, served_processTasks, served_got_client, served_set_proc.
  - intros _ _. apply live_spawn.
  - destruct (taskHandlers s) eqn:Eq; [by intros ? ?; cbn in *|by apply served_set_proc].
Qed.

Lemma maxClients_step s e s' : step s e = Ok s' -> maxClients s' = maxClients s.
Proof.
  intros H. destruct e as [t front|u|p|p|p|p|p|p closed]; cbn in H;
    try (destruct (procs s !! p) as [[]|] eqn:Hp; try done);
    unfold processTasks, got_client, addTask in *; repeat case_match; by simplify_eq.
Qed.

(** C14: no task is stranded: with an endpoint and at least one client allowed,
    as long as a task waits in the queue some coroutine of the queue has an
    event pending, whatever calls and failures came before. *)
Theorem taskqueue_no_stranded u m es s :
  0 < m -> run (init u m) es = Ok s ->
  endPointSet s = true -> taskHandlers s <> [] ->
  exists e, internal e = true /\ step s e <> NotEnabled.
Proof.
  intros Hm H Hu Hq. apply live_enabled. revert Hu Hq. fold (served s).
  assert (Hm' : 0 < maxClients (init u m : state T)) by done.
  assert (Hs : served (init u m : state T)) by (intros _ Hne; by cbn in Hne).
  revert Hm' Hs H. generalize (init u m : state T).
  induction es as [|e es IH]; intros s0 Hm' Hs H; cbn in H; [by simplify_eq|].
  destruct (step s0 e) eqn:E; [done..|].
  apply (IH s1); [by rewrite (maxClients_step _ _ _ E) | by eapply served_step | done].
Qed.

End conservation.

(** ** Witnesses and limits of the queue *)

(** A run to completion of two tasks on one client. *)
Definition busy_run : list (event nat) :=
  [AddTask 1 false; Run 0; ConnectOk 0; Run 0; AddTask 2 false; AddTask 3 true].

Lemma taskqueue_conserved_witness :
  match run (init true 1) busy_run with
  | Ok s => added s ≡ₚ taskHandlers s ++ running s ++ (ended s).*1
  | _ => False
  end.
Proof.
  destruct (run (init true 1) busy_run) as [| |s] eqn:E; [vm_compute in E; discriminate E..|].
  exact (taskqueue_conserved true 1 busy_run s E).
Defined.

Lemma taskqueue_no_stranded_witness :
  match run (init true 1) busy_run with
  | Ok s => exists e, internal e = true /\ step s e <> NotEnabled
  | _ => False
  end.
Proof.
  destruct (run (init true 1) busy_run) as [| |s] eqn:E; [vm_compute in E; discriminate E..|].
  apply (taskqueue_no_stranded true 1 busy_run s); [lia | exact E | |];
    vm_compute in E; injection E as <-; [reflexivity | discriminate].
Defined.

Definition clients_of (r : result nat) : option (list Client) :=
  match r with Ok s => Some (clients s) | _ => None end.

Definition proc_of (r : result nat) (p : nat) : option (proc nat) :=
  match r with Ok s => procs s !! p | _ => None end.

(** The limit on connections is checked before the connection attempt is
    awaited and not again after it: with room for one client, a second
    coroutine that starts while the first connects makes a second connection. *)
Theorem taskqueue_limit_exceeded :
  clients_of (run (init true 1)
    [AddTask 1 false; Run 0; SetEndPoint true; Run 1; ConnectOk 0; ConnectOk 1; Run 0])
  = Some [mkClient 0 false; mkClient 1 true].
Proof. vm_compute. reflexivity. Qed.

(** Two tasks queued behind one that runs, on the only client there is. *)
Definition shared_run : list (event nat) :=
  [AddTask 1 false; Run 0; ConnectOk 0; Run 0;       (* task 1 on client 0 *)
   AddTask 2 false; AddTask 3 false; TaskDone 0;     (* its handler takes task 2 *)
   Run 1; Run 0; Run 1].

(** A handler that has ended its task releases its client before it hands
    it to the next handler; a coroutine that runs in between takes the same
    client.  Two tasks then use one connection at the same time, and when one of
    them ends with an error its handler destroys the client that the other one
    later releases. *)
Theorem taskqueue_client_shared :
  proc_of (run (init true 2) shared_run) 0 = Some (Handling 2 0) /\
  proc_of (run (init true 2) shared_run) 1 = Some (Handling 3 0) /\
  run (init true 2) (shared_run ++ [TaskError 0 []; TaskDone 1]) = UseAfterFree.
Proof. vm_compute. done. Qed.
