(* ===== verification/Stream.v ===== *)
(** * Header framing on a byte stream: [include/eventmethods.hpp] and
    [readUntil] of [include/socket_streams.hpp]

    The bytes of a connection arrive in chunks, one per completed read of the
    socket; the end of the list of chunks is the end or the failure of the
    connection.  [async_read_until] is a function of Boost.Asio: the class
    [ReadUntil] holds what its documentation promises, and everything here is
    proved from that. *)

From S2P Require Import Prelude.

(** [async_read_until(stream, buffer, delim)] on an empty buffer: reads chunks
    until the buffer holds the delimiter, and returns the whole buffer, the
    number of bytes up to and including the first delimiter, and the chunks that
    have not been read. *)
Class ReadUntil (async_read_until : bytes -> list bytes -> option (bytes * nat * list bytes)) : Prop := {
  read_until_found d cs buf n rest :
    async_read_until d cs = Some (buf, n, rest) ->
    exists i pre, cs = pre ++ rest /\ buf = concat pre /\
      find_sub d buf = Some i /\ n = i + length d /\
      forall k, k < length pre -> find_sub d (concat (take k pre)) = None;
  read_until_eof d cs :
    async_read_until d cs = None <-> find_sub d (concat cs) = None;
}.

Definition HEDER_DELIM : bytes := [x0d; x0a; x0d; x0a].
Definition DONE : bytes := str "Done".
Definition colon : byte := x3a.

Definition makeEvent3 (id data delim : bytes) : bytes := id ++ colon :: data ++ delim.
Definition makeEvent (data : bytes) : bytes := data ++ HEDER_DELIM.

Definition parseEvent (event : bytes) : bytes * bytes :=
  match find_if (fun b => bool_decide (b = colon)) event with
  | None => (event, [])
  | Some (pos, _) => (take pos event, drop (pos + 1) event)
  end.

Section stream.

Context (async_read_until : bytes -> list bytes -> option (bytes * nat * list bytes)).

(** [readUntil(delim)]: the buffer is a local variable, so what it holds beyond
    the delimiter goes with it. *)
Definition readUntil (delim : bytes) (cs : list bytes) : option (bytes * list bytes) :=
  match async_read_until delim cs with
  | None => None
  | Some (buffer, size, rest) => Some (take size buffer, rest)
  end.

Definition readHeader (cs : list bytes) : option (bytes * list bytes) :=
  match readUntil HEDER_DELIM cs with
  | None => None
  | Some (data, rest) => Some (take (length data - length HEDER_DELIM) data, rest)
  end.

Definition readDone (cs : list bytes) : option (bytes * list bytes) :=
  match readUntil HEDER_DELIM cs with
  | None => None
  | Some (data, rest) => Some (take (length data - length HEDER_DELIM) data, rest)
  end.

(** One [async_write_some], of which the socket takes [accepted] bytes. *)
Definition write (accepted : nat) (data : bytes) : bytes := take accepted data.

Definition sendHeader (accepted : nat) (data : bytes) : bytes := write accepted (data ++ HEDER_DELIM).
Definition sendDone (accepted : nat) : bytes := sendHeader accepted DONE.

(** [n] headers, one after the other. *)
Fixpoint readHeaders (n : nat) (cs : list bytes) : option (list bytes * list bytes) :=
  match n with
  | O => Some ([], cs)
  | S n => match readHeader cs with
           | None => None
           | Some (h, cs) => prod_map (cons h) id <$> readHeaders n cs
           end
  end.

End stream.

(** ** Reading what was sent *)

Lemma find_sub_prefix d s s' i :
  find_sub d s = Some i -> s' `prefix_of` s -> length s' < i + length d -> find_sub d s' = None.
Proof.
  intros [_ Hmin]%find_sub_Some [t ->] Hlen. apply find_sub_None. intros j Hp.
  destruct (decide (d = [])) as [->|Hd].
  { cbn in Hlen. apply (Hmin 0); [lia|apply prefix_nil]. }
  assert (length d <> 0) by by destruct d.
  assert (length d <= length s' - j) by by apply prefix_length in Hp; rewrite length_drop in Hp.
  apply (Hmin j); [lia|]. rewrite drop_app_le by lia. by apply prefix_app_r.
Qed.

Lemma find_sub_app d s t i : find_sub d s = Some i -> find_sub d (s ++ t) = Some i.
Proof.
  revert i. induction s as [|b s IH]; intros i; simpl; case_bool_decide as Hp.
  - intros [= <-]. apply prefix_nil_inv in Hp. subst d. by destruct t.
  - done.
  - intros [= <-]. by rewrite bool_decide_eq_true_2 by by apply (prefix_app_r d (b :: s) t).
  - destruct (find_sub d s) as [j|] eqn:E; [|done]. intros [= <-].
    rewrite bool_decide_eq_false_2, (IH j eq_refl); [done|]. intros Hp'.
    apply find_sub_Some in E as [Ht _]. apply Hp.
    assert (Hl : length d <= length s).
    { rewrite <- Ht, length_take, length_drop. lia. }
    destruct Hp' as [k Hk].
    assert (d = take (length d) (b :: s ++ t)) as Hd by by rewrite Hk, take_app_length.
    rewrite app_comm_cons, take_app_le in Hd by (cbn; lia).
    rewrite Hd. exists (drop (length d) (b :: s)). by rewrite take_drop.
Qed.

(** A header whose first delimiter is the one that ends it. *)
Definition wf_header (h : bytes) : Prop := find_sub HEDER_DELIM (h ++ HEDER_DELIM) = Some (length h).

(** [parseEvent] undoes [makeEvent]: the id is what precedes the first colon. *)
Lemma parseEvent_makeEvent id data delim :
  colon ∉ id -> parseEvent (makeEvent3 id data delim) = (id, data ++ delim).
Proof.
  intros Hid. unfold parseEvent, makeEvent3.
  rewrite (proj2 (find_if_Some _ _ (length id) colon)).
  - rewrite take_app_length. f_equal.
    by rewrite Nat.add_1_r, cons_middle, app_assoc, drop_app_length' by (rewrite length_app; cbn; lia).
  - split_and!; [by rewrite list_lookup_middle|by apply bool_decide_eq_true|].
    intros j b Hj Hb. rewrite lookup_app_l in Hb by done. apply bool_decide_eq_false. intros ->.
    by apply Hid, list_elem_of_lookup_2 with j.
Qed.

Section framing.

Context {aru} `{ReadUntil aru}.

(** The chunk that completes the first delimiter is the last one read. *)
Lemma read_until_exact d pre c rest i :
  find_sub d (concat pre ++ c) = Some i -> length (concat pre) < i + length d ->
  aru d (pre ++ c :: rest) = Some (concat pre ++ c, i + length d, rest).
Proof.
  intros Hfind Hlt.
  assert (Hc : forall k, concat (take k pre) `prefix_of` concat pre).
  { intros k. exists (concat (drop k pre)). by rewrite <- concat_app, take_drop. }
  destruct (aru d _) as [[[buf n] rest']|] eqn:E.
  - apply read_until_found in E as (i' & pre' & Heq & -> & Hi' & -> & Hmin).
    assert (Hpre : pre' = take (length pre') (pre ++ c :: rest)) by by rewrite Heq, take_app_length.
    assert (Hrest : rest' = drop (length pre') (pre ++ c :: rest)) by by rewrite Heq, drop_app_length.
    destruct (Nat.lt_trichotomy (length pre') (S (length pre))) as [Hl|[Hl|Hl]].
    + rewrite take_app_le in Hpre by lia. exfalso. rewrite Hpre in Hi'.
      erewrite find_sub_prefix in Hi'; [done | exact Hfind | |].
      * eapply prefix_app_r, Hc.
      * pose proof (prefix_length _ _ (Hc (length pre'))). lia.
    + rewrite Hl in Hpre, Hrest.
      rewrite cons_middle, app_assoc in Hpre, Hrest.
      rewrite take_app_length' in Hpre by (rewrite length_app; cbn; lia).
      rewrite drop_app_length' in Hrest by (rewrite length_app; cbn; lia).
      subst pre' rest'. rewrite concat_app in *. cbn in *. rewrite app_nil_r in *. congruence.
    + specialize (Hmin (S (length pre)) Hl). exfalso.
      rewrite Hpre, take_take, Nat.min_l, cons_middle, app_assoc, take_app_length' in Hmin
        by (rewrite ?length_app; cbn; lia).
      rewrite concat_app in Hmin. cbn in Hmin. rewrite app_nil_r in Hmin. congruence.
  - apply read_until_eof in E. rewrite concat_app in E. cbn in E.
    rewrite app_assoc in E. by rewrite (find_sub_app _ _ _ _ Hfind) in E.
Qed.

Lemma readHeader_exact h pre c rest extra :
  wf_header h -> concat pre ++ c = h ++ HEDER_DELIM ++ extra ->
  length (concat pre) < length h + length HEDER_DELIM ->
  readHeader aru (pre ++ c :: rest) = Some (h, rest).
Proof.
  intros Hh Hc Hlt. unfold readHeader, readUntil.
  rewrite (read_until_exact HEDER_DELIM pre c rest (length h)); [|rewrite Hc, app_assoc; by apply find_sub_app|done].
  rewrite Hc, app_assoc, take_app_length' by (by rewrite length_app).
  by rewrite length_app, Nat.add_sub, take_app_length.
Qed.

(** A header that arrives in chunks of its own. *)
Lemma readHeader_message h cs rest :
  wf_header h -> Forall (fun c => c <> []) cs -> concat cs = h ++ HEDER_DELIM ->
  readHeader aru (cs ++ rest) = Some (h, rest).
Proof.
  intros Hh Hne Hcs. destruct (exists_last (l := cs)) as (pre & c & ->); [by intros ->; destruct h|].
  apply Forall_app in Hne as [_ [Hc _]%Forall_cons].
  rewrite concat_app in Hcs. cbn in Hcs. rewrite app_nil_r in Hcs.
  rewrite <- !app_assoc. cbn [app]. apply (readHeader_exact h pre c _ []); [done|by rewrite app_nil_r|].
  apply (f_equal length) in Hcs. rewrite !length_app in Hcs.
  assert (length c <> 0) by by destruct c. lia.
Qed.

(** Headers sent one after the other are read back, in order and without
    loss, however each of them is cut into chunks, as long as no chunk holds bytes of two
    of them. *)
Theorem header_roundtrip (hs : list bytes) (css : list (list bytes)) (rest : list bytes) :
  Forall wf_header hs ->
  Forall (Forall (fun c => c <> [])) css ->
  Forall2 (fun h cs => forall n, length h + 4 <= n -> concat cs = sendHeader n h) hs css ->
  readHeaders aru (length hs) (concat css ++ rest) = Some (hs, rest).
Proof.
  intros Hwf Hne Hsent. induction Hsent as [|h cs hs css Hcs _ IH]; [done|].
  apply Forall_cons in Hwf as [Hh Hwf]. apply Forall_cons in Hne as [Hcs' Hne].
  specialize (Hcs (length h + 4) ltac:(lia)). unfold sendHeader, write in Hcs.
  rewrite take_ge in Hcs by (rewrite length_app; cbn; lia).
  cbn [length readHeaders concat]. rewrite <- !app_assoc.
  rewrite (readHeader_message h) by done. by rewrite (IH Hwf Hne).
Qed.

(** What follows a header in the chunk that completes it is lost: the next
    header is looked for in the chunks after it. *)
Theorem header_readahead_lost (h extra : bytes) (rest : list bytes) :
  wf_header h -> readHeader aru ((h ++ HEDER_DELIM ++ extra) :: rest) = Some (h, rest).
Proof.
  intros Hh. apply (readHeader_exact h [] _ _ extra); [done..|]. cbn. lia.
Qed.

End framing.

(** ** A stream that keeps the promise *)

Fixpoint read_until_acc (d acc : bytes) (cs : list bytes) : option (bytes * nat * list bytes) :=
  match find_sub d acc with
  | Some i => Some (acc, i + length d, cs)
  | None => match cs with
            | [] => None
            | c :: cs => read_until_acc d (acc ++ c) cs
            end
  end.

Definition read_until_ref (d : bytes) (cs : list bytes) := read_until_acc d [] cs.

Lemma read_until_acc_found d acc cs buf n rest :
  read_until_acc d acc cs = Some (buf, n, rest) ->
  exists i pre, cs = pre ++ rest /\ buf = acc ++ concat pre /\ find_sub d buf = Some i /\
    n = i + length d /\ forall k, k < length pre -> find_sub d (acc ++ concat (take k pre)) = None.
Proof.
  revert acc. induction cs as [|c cs IH]; intros acc; cbn;
    destruct (find_sub d acc) as [i|] eqn:E; try done.
  1,2: intros [= <- <- <-]; exists i, []; cbn; rewrite app_nil_r; split_and!; [done..|lia].
  intros (i & pre & -> & -> & Hi & -> & Hmin)%IH. exists i, (c :: pre).
  cbn. rewrite <- app_assoc in Hi. rewrite <- app_assoc. split_and!; [done..|].
  intros [|k] Hk; cbn; [by rewrite app_nil_r|]. rewrite app_assoc. apply Hmin. lia.
Qed.

Lemma read_until_acc_eof d acc cs :
  read_until_acc d acc cs = None <-> find_sub d (acc ++ concat cs) = None.
Proof.
  revert acc. induction cs as [|c cs IH]; intros acc; cbn; destruct (find_sub d acc) as [i|] eqn:E.
  1,3: by rewrite (find_sub_app _ _ _ _ E).
  - by rewrite app_nil_r.
  - by rewrite IH, <- app_assoc.
Qed.

#[export] Instance read_until_ref_laws : ReadUntil read_until_ref.
Proof.
  split.
  - intros d cs buf n rest H. apply read_until_acc_found in H as (i & pre & ?). by exists i, pre.
  - intros d cs. apply read_until_acc_eof.
Qed.

Lemma header_roundtrip_witness :
  readHeaders read_until_ref 2
    [str "Files:a"; [x0d]; [x0a; x0d; x0a]; str "Done" ++ [x0d; x0a]; [x0d; x0a]]
  = Some ([str "Files:a"; str "Done"], []).
Proof.
  apply (header_roundtrip [str "Files:a"; str "Done"]
    [[str "Files:a"; [x0d]; [x0a; x0d; x0a]]; [str "Done" ++ [x0d; x0a]; [x0d; x0a]]] []).
  - repeat constructor.
  - repeat constructor; discriminate.
  - repeat constructor; intros n Hn; unfold sendHeader, write; rewrite take_ge by exact Hn; reflexivity.
Defined.

Lemma header_readahead_lost_witness :
  readHeader read_until_ref [str "A:1" ++ HEDER_DELIM ++ str "B:2" ++ HEDER_DELIM] = Some (str "A:1", []).
Proof. apply (header_readahead_lost (str "A:1") (str "B:2" ++ HEDER_DELIM) []). reflexivity. Defined.
