(* ===== verification/EventQueue.v ===== *)
(** * The event queue: [include/eventqueue.hpp]

    Events are stored under the time they were added and delivered by tasks of a
    [TaskQueue]; the peer's answer decides whether an event is forgotten or sent
    again.  The queue is also the server for the events of its peer.  The whole
    queue is a transition system on top of the one of [TaskQueue]. *)

From stdpp Require Import sorting.
From S2P Require Import Prelude Http TaskQueue Stream.

Definition comma : byte := x2c.

Definition TIMETOLIVE : Z := 60.

(** [std::string(s.data())]: the text up to the first NUL. *)
Fixpoint c_str (s : bytes) : bytes :=
  match s with
  | [] => []
  | b :: s => if decide (b = x00) then [] else b :: c_str s
  end.

Definition getEventId (event : bytes) : bytes :=
  match find_if (fun b => bool_decide (b = colon)) event with
  | Some (pos, _) => take pos event
  | None => c_str event
  end.

(** A task of the queue; a provider is named by its key in [eventProviders]. *)
Inductive qtask :=
  | SendEvent (id : Z) (provider : bytes) (event : bytes)
  | BarrierTask (event : bytes).

Record EventQueue := mkEventQueue {
  eventProviders : gset bytes;
  eventConsumers : gset bytes;
  events : gmap Z bytes;
  taskQueue : state qtask;
  lastBarrierTime : Z;
  awaitingDone : gset nat;   (* handlers suspended in the final readDone *)
}.

Definition set_taskQueue (q : EventQueue) (t : state qtask) : EventQueue :=
  mkEventQueue (eventProviders q) (eventConsumers q) (events q) t (lastBarrierTime q) (awaitingDone q).

Definition set_events (q : EventQueue) (m : gmap Z bytes) : EventQueue :=
  mkEventQueue (eventProviders q) (eventConsumers q) m (taskQueue q) (lastBarrierTime q) (awaitingDone q).

Definition eventQueueInit (url_given : bool) (maxConnections : nat) : EventQueue :=
  mkEventQueue {[ str "default" ]} {[ str "default" ]} ∅ (init url_given maxConnections) 0 ∅.

Definition addEventProvider (q : EventQueue) (eventId : bytes) : EventQueue :=
  mkEventQueue ({[ eventId ]} ∪ eventProviders q) (eventConsumers q) (events q) (taskQueue q)
               (lastBarrierTime q) (awaitingDone q).

Definition addEventConsumer (q : EventQueue) (eventId : bytes) : EventQueue :=
  mkEventQueue (eventProviders q) ({[ eventId ]} ∪ eventConsumers q) (events q) (taskQueue q)
               (lastBarrierTime q) (awaitingDone q).

Definition setQueEndPoint (q : EventQueue) (url_nonempty : bool) : EventQueue :=
  set_taskQueue q (setEndPoint (taskQueue q) url_nonempty).

(** [find] in a map of handlers, with the entry ["default"] when it fails. *)
Definition handler_key (m : gset bytes) (id : bytes) : bytes :=
  if decide (id ∈ m) then id else str "default".

Definition removeEvent (q : EventQueue) (id : Z) : EventQueue := set_events q (delete id (events q)).

(** [addEvent(event, id)]. *)
Definition addEventId (q : EventQueue) (event : bytes) (id : Z) : EventQueue :=
  let q := set_events q (<[id := event]> (events q)) in
  let provider := handler_key (eventProviders q) (getEventId event) in
  set_taskQueue q (addTask (taskQueue q) (SendEvent id provider event) false).

(** [addEvent(event)] at time [now]. *)
Definition addEvent (q : EventQueue) (event : bytes) (now : Z) : EventQueue :=
  match find_sub (str "Barrier") event with
  | Some _ => set_taskQueue q (addTask (taskQueue q) (BarrierTask event) false)
  | None => addEventId q event now
  end.

Definition beginBarrier (q : EventQueue) (now : Z) : EventQueue :=
  addEvent q (makeEvent3 (str "Barrier") (str "Begin") []) now.

Definition endBarrier (q : EventQueue) (now : Z) : EventQueue :=
  addEvent q (makeEvent3 (str "Barrier") (str "End") []) now.

Definition eventExists (q : EventQueue) (event : bytes) : bool :=
  bool_decide (Exists (fun kv => kv.2 = event) (map_to_list (events q))).

(** The conversion of an unsigned 64-bit difference to the signed count of a
    [std::chrono::milliseconds]. *)
Definition as_int64 (z : Z) : Z := if (z <? 2 ^ 63)%Z then z else (z - 2 ^ 64)%Z.

(** [duration_cast<seconds>(milliseconds(now - id)).count()]. *)
Definition time_diff (now id : Z) : Z := Z.quot (as_int64 (wrapu 64 (now - id))) 1000.

Definition expired (now id : Z) : bool := (TIMETOLIVE <? time_diff now id)%Z.

(** [events[id]] inserts an empty event when there is none. *)
Definition resendEvent (q : EventQueue) (id : Z) (provider : bytes) (now : Z) : EventQueue :=
  let event := default [] (events q !! id) in
  let q := set_events q (<[id := event]> (events q)) in
  if expired now id then removeEvent q id
  else set_taskQueue q (addTask (taskQueue q) (SendEvent id provider event) true).

(** What happens to the exchange of a handler with the peer. *)
Inductive exchange :=
  | WriteFails
  | HeaderFails
  | Replies (header : bytes) (provider_ok : bool).  (* the provider: an error or an exception *)

(** How far [sendEventHandler] gets with it. *)
Inductive progress := HandlerReturns (ok : bool) | AwaitsDone.

Definition sendEventHandler (q : EventQueue) (id : Z) (provider : bytes) (x : exchange) (now : Z)
  : EventQueue * progress :=
  match x with
  | WriteFails | HeaderFails => (resendEvent q id provider now, HandlerReturns false)
  | Replies header provider_ok =>
      if decide (header = DONE) then (removeEvent q id, HandlerReturns true)
      else if provider_ok then (removeEvent q id, AwaitsDone)
      else (resendEvent q id provider now, HandlerReturns false)
  end.

Definition barrierHandler (q : EventQueue) (event : bytes) (now : Z) : EventQueue :=
  let '(_, data) := parseEvent event in
  if decide (data = str "Begin") then
    mkEventQueue (eventProviders q) (eventConsumers q) (events q) (taskQueue q) now (awaitingDone q)
  else q.

(** ** The queue as a transition system *)

Inductive qevent :=
  | QAdd (event : bytes) (now : Z)
  | QSetEndPoint (url_nonempty : bool)
  | QLoop (e : event qtask)          (* a coroutine of the task queue goes on *)
  | QExchange (p : nat) (x : exchange) (now : Z) (closed : list nat)
  | QBarrier (p : nat) (now : Z)
  | QDone (p : nat).                 (* readDone returns, with or without an error *)

(** The events of the task queue that are not the end of a task. *)
Definition loop_event (e : event qtask) : bool :=
  match e with Run _ | ConnectOk _ | ConnectFail _ | Timer _ => true | _ => false end.

Inductive qresult := QNotEnabled | QUseAfterFree | QOk (q : EventQueue).

(** The task queue takes a step; [k] is what else changes. *)
Definition with_queue (q : EventQueue) (e : event qtask) : qresult :=
  match step (taskQueue q) e with
  | NotEnabled => QNotEnabled
  | UseAfterFree => QUseAfterFree
  | Ok t => QOk (set_taskQueue q t)
  end.

Definition set_awaiting (q : EventQueue) (s : gset nat) : EventQueue :=
  mkEventQueue (eventProviders q) (eventConsumers q) (events q) (taskQueue q) (lastBarrierTime q) s.

Definition qstep (q : EventQueue) (e : qevent) : qresult :=
  match e with
  | QAdd event now => QOk (addEvent q event now)
  | QSetEndPoint u => QOk (setQueEndPoint q u)
  | QLoop e => if loop_event e then with_queue q e else QNotEnabled
  | QExchange p x now closed =>
      match procs (taskQueue q) !! p with
      | Some (Handling (SendEvent id provider _) _) =>
          if decide (p ∈ awaitingDone q) then QNotEnabled
          else match sendEventHandler q id provider x now with
               | (q, HandlerReturns true) => with_queue q (TaskDone p)
               | (q, HandlerReturns false) => with_queue q (TaskError p closed)
               | (q, AwaitsDone) => QOk (set_awaiting q ({[ p ]} ∪ awaitingDone q))
               end
      | _ => QNotEnabled
      end
  | QBarrier p now =>
      match procs (taskQueue q) !! p with
      | Some (Handling (BarrierTask event) _) => with_queue (barrierHandler q event now) (TaskDone p)
      | _ => QNotEnabled
      end
  | QDone p =>
      if decide (p ∈ awaitingDone q)
      then with_queue (set_awaiting q (awaitingDone q ∖ {[ p ]})) (TaskDone p)
      else QNotEnabled
  end.

Fixpoint qrun (q : EventQueue) (es : list qevent) : qresult :=
  match es with
  | [] => QOk q
  | e :: es => match qstep q e with QOk q' => qrun q' es | r => r end
  end.

(** ** Persistence *)

(** [std::stoull] in base ten: white space, a sign, digits; [None] is an
    exception. *)
Definition is_space (b : byte) : bool :=
  let z := u8 b in ((z =? 32) || ((9 <=? z) && (z <=? 13)))%Z.

Fixpoint take_while (f : byte -> bool) (s : bytes) : bytes :=
  match s with [] => [] | b :: s => if f b then b :: take_while f s else [] end.

Fixpoint drop_while (f : byte -> bool) (s : bytes) : bytes :=
  match s with [] => [] | b :: s' => if f b then drop_while f s' else s end.

Definition stoull (s : bytes) : option Z :=
  let s := drop_while is_space s in
  let '(neg, s) := match s with
                   | b :: s' => if decide (b = x2d) then (true, s')
                                else if decide (b = x2b) then (false, s') else (false, s)
                   | [] => (false, s)
                   end in
  match take_while is_digit s with
  | [] => None
  | ds => if (of_dec ds <? 2 ^ 64)%Z then Some (if neg : bool then wrapu 64 (- of_dec ds) else of_dec ds)
          else None
  end.

(** The value under the key ["events"] that [store] writes: the events in the
    order of their ids. *)
Definition store_entries (l : list (Z * bytes)) : list bytes :=
  (fun kv => to_dec 20 kv.1 ++ comma :: kv.2) <$> l.

Definition id_le (a b : Z * bytes) : Prop := (a.1 <= b.1)%Z.

#[export] Instance id_le_dec a b : Decision (id_le a b).
Proof. unfold id_le. apply _. Defined.

Definition store (q : EventQueue) : list bytes :=
  store_entries (merge_sort id_le (map_to_list (events q))).

(** [load] of such a file; [None] is an exception or an access out of range. *)
Fixpoint load (q : EventQueue) (file : list bytes) : option EventQueue :=
  match file with
  | [] => Some q
  | event :: file =>
      let eventmap := split event comma 0 in
      match eventmap !! 0, eventmap !! 1 with
      | Some e0, Some e1 =>
          match stoull e0 with
          | Some id => load (addEventId q e1 id) file
          | None => None
          end
      | _, _ => None
      end
  end.

(** ** The serving side *)

(** A consumer is given the text of the event and the rest of the stream; it
    answers with success or failure (an error code, or an exception turned into
    one) and the stream after what it has read. *)
Section server.

Context (async_read_until : bytes -> list bytes -> option (bytes * nat * list bytes)).
Context (consumer : bytes -> bytes -> list bytes -> bool * list bytes).

(** What the server does with the events of a connection, in order: the consumer
    called and its argument, and the bytes written. *)
Inductive action := Consumed (key : bytes) (event : bytes) | Sent (data : bytes).

(** [parseAndHandle]: the error code (true is success), the rest of the stream,
    and the actions. *)
Definition parseAndHandle (q : EventQueue) (header : bytes) (cs : list bytes) : bool * list bytes * list action :=
  let key := handler_key (eventConsumers q) (getEventId header) in
  let event := c_str header in
  let '(ok, cs) := consumer key event cs in
  if ok then (true, cs, [Consumed key event; Sent (sendDone (length (DONE ++ HEDER_DELIM)))])
  else (false, cs, [Consumed key event]).

Definition next (q : EventQueue) (cs : list bytes) : bool * list bytes * list action :=
  match readHeader async_read_until cs with
  | None => (false, [], [])
  | Some (data, cs) => parseAndHandle q data cs
  end.

(** The loop of [operator()], with a bound on its iterations; [None] when the
    bound does not suffice. *)
Fixpoint serve (fuel : nat) (q : EventQueue) (cs : list bytes) : option (list action) :=
  match fuel with
  | O => None
  | S fuel => match next q cs with
              | (false, _, acts) => Some acts
              | (true, cs, acts) => (acts ++.) <$> serve fuel q cs
              end
  end.

End server.

(** ** Every stored event has exactly one delivery under way *)

Definition send_of (t : qtask) : option (Z * bytes) :=
  match t with SendEvent id _ event => Some (id, event) | BarrierTask _ => None end.

Definition sends (l : list qtask) : list (Z * bytes) := omap send_of l.

(** The deliveries of one coroutine; a handler that awaits the final ["Done"]
    has delivered its event. *)
Definition proc_sends (aw : gset nat) (kv : nat * proc qtask) : list (Z * bytes) :=
  if decide (kv.1 ∈ aw) then [] else sends (carried kv.2).

Definition procs_sends (aw : gset nat) (m : gmap nat (proc qtask)) : list (Z * bytes) :=
  map_to_list m ≫= proc_sends aw.

(** The deliveries that wait in the queue or are under way. *)
Definition outstanding (q : EventQueue) : list (Z * bytes) :=
  sends (taskHandlers (taskQueue q)) ++ procs_sends (awaitingDone q) (procs (taskQueue q)).

Lemma sends_app l k : sends (l ++ k) = sends l ++ sends k.
Proof. apply omap_app. Qed.

#[export] Instance sends_Proper : Proper ((≡ₚ) ==> (≡ₚ)) sends.
Proof. intros l k H. by apply omap_Permutation. Qed.

Lemma procs_sends_fresh aw m p x :
  m !! p = None -> procs_sends aw (<[p := x]> m) ≡ₚ proc_sends aw (p, x) ++ procs_sends aw m.
Proof. intros H. unfold procs_sends. by rewrite map_to_list_insert. Qed.

Lemma procs_sends_aw aw aw' m :
  (forall p, is_Some (m !! p) -> p ∈ aw <-> p ∈ aw') -> procs_sends aw m = procs_sends aw' m.
Proof.
  intros H. unfold procs_sends.
  assert (Hl : forall kv, kv ∈ map_to_list m -> proc_sends aw kv = proc_sends aw' kv).
  { intros [p x] Hin%elem_of_map_to_list. unfold proc_sends.
    apply decide_ext, H. by exists x. }
  revert Hl. induction (map_to_list m) as [|kv l IH]; intros Hl; cbn; [done|].
  rewrite (Hl kv) by apply list_elem_of_here. f_equal. apply IH. intros ? ?. by apply Hl, list_elem_of_further.
Qed.

Lemma procs_sends_replace aw aw' m p x y :
  m !! p = Some x -> (forall k, k <> p -> k ∈ aw <-> k ∈ aw') ->
  exists r, procs_sends aw m ≡ₚ proc_sends aw (p, x) ++ r /\
            procs_sends aw' (<[p := y]> m) ≡ₚ proc_sends aw' (p, y) ++ r.
Proof.
  intros Hp Haw. exists (procs_sends aw (delete p m)). split.
  - rewrite <- procs_sends_fresh by apply lookup_delete_eq. by rewrite insert_delete_id.
  - rewrite (procs_sends_aw aw aw' (delete p m)).
    + rewrite <- procs_sends_fresh by apply lookup_delete_eq. by rewrite insert_delete_eq.
    + intros k [z Hk]. apply Haw. intros ->. by rewrite lookup_delete_eq in Hk.
Qed.

(** The handlers that await the final ["Done"] are handling a delivery. *)
Definition wf_queue (q : EventQueue) : Prop :=
  fresh_procs (taskQueue q) /\
  forall p, p ∈ awaitingDone q ->
    exists id provider ev c, procs (taskQueue q) !! p = Some (Handling (SendEvent id provider ev) c).

Definition tracked (q : EventQueue) : Prop := wf_queue q /\ outstanding q ≡ₚ map_to_list (events q).

Lemma wf_update q q' p y :
  wf_queue q -> is_Some (procs (taskQueue q) !! p) ->
  procs (taskQueue q') = <[p := y]> (procs (taskQueue q)) ->
  nextProc (taskQueue q') = nextProc (taskQueue q) ->
  (forall k, k ∈ awaitingDone q' -> k ∈ awaitingDone q /\ k <> p) ->
  wf_queue q'.
Proof.
  intros [Hf Ha] [x Hp] Hps Hn Haw. split.
  - intros k Hk. rewrite Hn in Hk. rewrite Hps, lookup_insert_ne; [by apply Hf|].
    intros ->. by rewrite (Hf k Hk) in Hp.
  - intros k [Hk Hne]%Haw. rewrite Hps, lookup_insert_ne by done. by apply Ha.
Qed.

Lemma not_awaiting q p x :
  wf_queue q -> procs (taskQueue q) !! p = Some x -> (forall t c, x <> Handling t c) -> p ∉ awaitingDone q.
Proof. intros [_ Ha] Hp Hx (i & pr & ev & c & Ht)%Ha. rewrite Ht in Hp. simplify_eq.
  by destruct (Hx (SendEvent i pr ev) c). Qed.

Lemma outstanding_update q q' p x y :
  procs (taskQueue q) !! p = Some x -> procs (taskQueue q') = <[p := y]> (procs (taskQueue q)) ->
  (forall k, k <> p -> k ∈ awaitingDone q <-> k ∈ awaitingDone q') ->
  exists r, outstanding q ≡ₚ sends (taskHandlers (taskQueue q)) ++ proc_sends (awaitingDone q) (p, x) ++ r /\
            outstanding q' ≡ₚ sends (taskHandlers (taskQueue q')) ++ proc_sends (awaitingDone q') (p, y) ++ r.
Proof.
  intros Hp Hps Haw. unfold outstanding. rewrite Hps.
  destruct (procs_sends_replace (awaitingDone q) (awaitingDone q') _ p x y Hp Haw) as (r & Hr & Hr').
  exists r. by rewrite Hr, Hr'.
Qed.

Lemma proc_sends_in aw p x : p ∈ aw -> proc_sends aw (p, x) = [].
Proof. intros. unfold proc_sends. by rewrite decide_True. Qed.

Lemma proc_sends_out aw p x : p ∉ aw -> proc_sends aw (p, x) = sends (carried x).
Proof. intros. unfold proc_sends. by rewrite decide_False. Qed.

(** A new task: it is outstanding if it is a delivery, and the queue stays
    well formed. *)
Lemma outstanding_addTask q t front :
  fresh_procs (taskQueue q) -> (forall p, p ∈ awaitingDone q -> is_Some (procs (taskQueue q) !! p)) ->
  outstanding (set_taskQueue q (addTask (taskQueue q) t front)) ≡ₚ sends [t] ++ outstanding q.
Proof.
  intros Hf Ha. unfold outstanding, addTask. cbn.
  assert (Hq : sends (if front then t :: taskHandlers (taskQueue q) else taskHandlers (taskQueue q) ++ [t])
               ≡ₚ sends [t] ++ sends (taskHandlers (taskQueue q))).
  { rewrite <- sends_app. apply sends_Proper. destruct front; solve_Permutation. }
  case_bool_decide; cbn -[sends]; rewrite Hq, <- app_assoc; [|done].
  rewrite procs_sends_fresh by (apply Hf; lia). rewrite proc_sends_out; [done|].
  intros [x Hx]%Ha. by rewrite Hf in Hx by lia.
Qed.

Lemma wf_spawned q t (f : state qtask -> state qtask) :
  wf_queue q ->
  (taskQueue t = f (taskQueue q)) -> awaitingDone t = awaitingDone q ->
  (procs (f (taskQueue q)) = procs (taskQueue q) /\ nextProc (f (taskQueue q)) = nextProc (taskQueue q) \/
   procs (f (taskQueue q)) = <[nextProc (taskQueue q) := Spawned]> (procs (taskQueue q)) /\
   nextProc (f (taskQueue q)) = S (nextProc (taskQueue q))) ->
  wf_queue t.
Proof.
  intros [Hf Ha] Ht Haw Hcase. unfold wf_queue, fresh_procs. rewrite Ht, Haw.
  destruct Hcase as [[-> ->]|[-> ->]]; [done|]. split.
  - intros p Hp. rewrite lookup_insert_ne by lia. apply Hf. lia.
  - intros p (i & pr & ev & c & Hp)%Ha. exists i, pr, ev, c. rewrite lookup_insert_ne; [done|].
    intros <-. by rewrite Hf in Hp by lia.
Qed.

Lemma addTask_procs (s : state qtask) t front :
  procs (addTask s t front) = procs s /\ nextProc (addTask s t front) = nextProc s \/
  procs (addTask s t front) = <[nextProc s := Spawned]> (procs s) /\ nextProc (addTask s t front) = S (nextProc s).
Proof. unfold addTask. case_bool_decide; cbn; auto. Qed.

Lemma wf_addTask q t front : wf_queue q -> wf_queue (set_taskQueue q (addTask (taskQueue q) t front)).
Proof. intros H. eapply (wf_spawned q _ (fun s => addTask s t front)); [done..|apply addTask_procs]. Qed.

Lemma wf_setEndPoint q u : wf_queue q -> wf_queue (setQueEndPoint q u).
Proof. intros H. eapply (wf_spawned q _ (fun s => setEndPoint s u)); [done..|]. by right. Qed.

Lemma awaiting_procs q : wf_queue q -> forall p, p ∈ awaitingDone q -> is_Some (procs (taskQueue q) !! p).
Proof. intros [_ Ha] p (i & pr & ev & c & Hp)%Ha. by eexists. Qed.

Lemma with_queue_ok q e q' :
  with_queue q e = QOk q' -> exists t, step (taskQueue q) e = Ok t /\ q' = set_taskQueue q t.
Proof. unfold with_queue. destruct (step (taskQueue q) e); [done..|]. intros [= <-]. by eexists. Qed.

Lemma tracked_loop q e q' :
  tracked q -> loop_event e = true -> with_queue q e = QOk q' -> tracked q'.
Proof.
  intros [Hwf Hout] He (t & Ht & ->)%with_queue_ok.
  assert (exists p, e = Run p \/ e = ConnectOk p \/ e = ConnectFail p \/ e = Timer p) as [p He'].
  { destruct e; try done; eauto 6. }
  destruct (step_loop _ _ _ p He' Ht) as (x & y & Hp & Hx & Hps & Hn & Hperm).
  pose proof (not_awaiting _ _ _ Hwf Hp Hx) as Haw. split.
  - eapply wf_update; [exact Hwf | by eexists | exact Hps | exact Hn |].
    cbn. intros k Hk. split; [done|]. by intros ->.
  - cbn [events set_taskQueue]. rewrite <- Hout.
    destruct (outstanding_update q (set_taskQueue q t) p x y) as (r & -> & ->); [done..|].
    cbn -[sends]. rewrite !proc_sends_out by done. rewrite !app_assoc, <- !sends_app. by rewrite Hperm.
Qed.

(** The handler of [p] ends: its delivery, if it was one, is not outstanding any
    more. *)
Lemma handler_ends q p t c e aw q' :
  wf_queue q -> procs (taskQueue q) !! p = Some (Handling t c) ->
  (e = TaskDone p \/ exists closed, e = TaskError p closed) ->
  (forall k, k <> p -> k ∈ awaitingDone q <-> k ∈ aw) -> p ∉ aw ->
  with_queue (set_awaiting q aw) e = QOk q' ->
  wf_queue q' /\ events q' = events q /\
  proc_sends (awaitingDone q) (p, Handling t c) ++ outstanding q' ≡ₚ outstanding q.
Proof.
  intros Hwf Hp He Haw Hpaw (s & Hs & ->)%with_queue_ok. cbn in Hs.
  destruct (step_end _ _ _ p t c Hp He Hs) as (y & Hps & Hy & Hn & Hperm). split_and!.
  - eapply wf_update; [exact Hwf | by eexists | exact Hps | exact Hn |].
    cbn. intros k Hk. split; [|by intros ->]. apply Haw; [by intros ->|done].
  - done.
  - destruct (outstanding_update q (set_taskQueue (set_awaiting q aw) s) p (Handling t c) y) as (r & -> & ->);
      [done..|]. cbn -[sends carried]. rewrite (proc_sends_out aw) by done.
    rewrite Hperm, sends_app. solve_Permutation.
Qed.

Lemma tracked_stored q p id provider ev c :
  tracked q -> procs (taskQueue q) !! p = Some (Handling (SendEvent id provider ev) c) ->
  p ∉ awaitingDone q -> events q !! id = Some ev.
Proof.
  intros [_ Hout] Hp Haw. apply elem_of_map_to_list. rewrite <- Hout.
  apply elem_of_app. right. apply list_elem_of_bind.
  exists (p, Handling (SendEvent id provider ev) c). split; [|by apply elem_of_map_to_list].
  rewrite proc_sends_out by done. apply list_elem_of_here.
Qed.

Lemma map_to_list_take (m : gmap Z bytes) id ev :
  m !! id = Some ev -> map_to_list m ≡ₚ (id, ev) :: map_to_list (delete id m).
Proof. intros H. rewrite <- map_to_list_insert by apply lookup_delete_eq. by rewrite insert_delete_id. Qed.

Lemma tracked_removed q id ev q' :
  tracked q -> events q !! id = Some ev -> wf_queue q' -> events q' = delete id (events q) ->
  (id, ev) :: outstanding q' ≡ₚ outstanding q -> tracked q'.
Proof.
  intros [_ Hout] Hid Hwf' Hev H. split; [done|]. rewrite Hev.
  apply (Permutation_cons_inv (a := (id, ev))). by rewrite H, Hout, (map_to_list_take _ id ev).
Qed.

Lemma wf_removeEvent q id : wf_queue q -> wf_queue (removeEvent q id).
Proof. done. Qed.

Lemma set_awaiting_id q : set_awaiting q (awaitingDone q) = q.
Proof. by destruct q. Qed.

(** A failed delivery: the event is dropped, or the new delivery replaces the
    one that failed. *)
Lemma resendEvent_tracked q id provider ev now :
  tracked q -> events q !! id = Some ev ->
  let q' := resendEvent q id provider now in
  wf_queue q' /\ awaitingDone q' = awaitingDone q /\
  (exists y, procs (taskQueue q') = y /\
     forall p x, procs (taskQueue q) !! p = Some x -> y !! p = Some x) /\
  if expired now id then events q' = delete id (events q) /\ outstanding q' = outstanding q
  else events q' = events q /\ outstanding q' ≡ₚ (id, ev) :: outstanding q.
Proof.
  intros [Hwf Hout] Hid. unfold resendEvent. rewrite Hid. cbn [default from_option].
  rewrite (insert_id _ _ _ Hid).
  replace (set_events q (events q)) with q by by destruct q.
  destruct (expired now id); cbn zeta.
  - split_and!; [done|done|by eexists|done|done].
  - split_and!; [by apply wf_addTask|done| |done|].
    + eexists; split; [done|]. intros p x Hp. cbn.
      destruct (addTask_procs (taskQueue q) (SendEvent id provider ev) true) as [[-> _]|[-> _]]; [done|].
      rewrite lookup_insert_ne; [done|]. intros <-. destruct Hwf as [Hf _]. by rewrite Hf in Hp by lia.
    + by rewrite outstanding_addTask; [|apply Hwf|by apply awaiting_procs].
Qed.

Lemma tracked_exchange q p id provider ev c x now closed q' :
  tracked q -> procs (taskQueue q) !! p = Some (Handling (SendEvent id provider ev) c) ->
  p ∉ awaitingDone q ->
  match sendEventHandler q id provider x now with
  | (q, HandlerReturns true) => with_queue q (TaskDone p)
  | (q, HandlerReturns false) => with_queue q (TaskError p closed)
  | (q, AwaitsDone) => QOk (set_awaiting q ({[ p ]} ∪ awaitingDone q))
  end = QOk q' -> tracked q'.
Proof.
  intros Htr Hp Haw Hrun. pose proof (tracked_stored _ _ _ _ _ _ Htr Hp Haw) as Hid.
  pose proof Htr as [Hwf Hout].
  assert (Hresend : with_queue (resendEvent q id provider now) (TaskError p closed) = QOk q' -> tracked q').
  { intros Hq. destruct (resendEvent_tracked q id provider ev now Htr Hid) as (Hwf1 & Haw1 & (y & Hy & Hyp) & Hex).
    rewrite <- (set_awaiting_id (resendEvent q id provider now)), Haw1 in Hq.
    apply (handler_ends _ p (SendEvent id provider ev) c) in Hq as (Hwf' & Hev & Hperm);
      [|done|rewrite Hy; by apply Hyp|right; by eexists|by rewrite Haw1|done].
    rewrite proc_sends_out in Hperm by by rewrite Haw1. cbn in Hperm.
    destruct (expired now id); destruct Hex as [Hev1 Hout1].
    - eapply tracked_removed; [exact Htr|exact Hid|done|congruence|]. by rewrite Hperm, Hout1.
    - split; [done|]. rewrite Hev, Hev1, <- Hout.
      apply (Permutation_cons_inv (a := (id, ev))). by rewrite Hperm, Hout1. }
  destruct x as [| |header ok]; cbn in Hrun; [by apply Hresend..|].
  case_decide; [|destruct ok; [|by apply Hresend]].
  - rewrite <- (set_awaiting_id (removeEvent q id)) in Hrun.
    apply (handler_ends _ p (SendEvent id provider ev) c) in Hrun as (Hwf' & Hev & Hperm);
      [|done|done|by left|done|done].
    rewrite proc_sends_out in Hperm by done. by eapply tracked_removed.
  - injection Hrun as <-. eapply tracked_removed; [exact Htr|exact Hid| |done|].
    + split; [apply Hwf|]. cbn. intros k [->%elem_of_singleton|Hk]%elem_of_union; [by eauto|].
      by apply Hwf.
    + set (q' := set_awaiting _ _).
      destruct (outstanding_update q q' p _ (Handling (SendEvent id provider ev) c) Hp) as (r & -> & ->).
      * cbn. by rewrite insert_id.
      * cbn. intros k Hk. rewrite elem_of_union, elem_of_singleton. tauto.
      * rewrite (proc_sends_out (awaitingDone q)) by done.
        rewrite (proc_sends_in (awaitingDone q')) by (cbn; apply elem_of_union; left; by apply elem_of_singleton).
        cbn. solve_Permutation.
Qed.

Lemma tracked_init u m : tracked (eventQueueInit u m).
Proof. split; [split; [done|]|]; cbn; [by intros p ?%elem_of_empty|]. by rewrite map_to_list_empty. Qed.

Lemma tracked_add q ev now : tracked q -> events q !! now = None -> tracked (addEvent q ev now).
Proof.
  intros [Hwf Hout] Hnow. unfold addEvent. destruct (find_sub _ ev).
  - split; [by apply wf_addTask|].
    rewrite outstanding_addTask; [done|apply Hwf|by apply awaiting_procs].
  - unfold addEventId. set (q1 := set_events q _).
    assert (wf_queue q1) as Hwf1 by done. split; [by apply wf_addTask|].
    rewrite outstanding_addTask; [|apply Hwf1|by apply awaiting_procs].
    cbn -[outstanding]. rewrite map_to_list_insert by done. by rewrite <- Hout.
Qed.

Lemma tracked_setEndPoint q u : tracked q -> tracked (setQueEndPoint q u).
Proof.
  intros [Hwf Hout]. split; [by apply wf_setEndPoint|]. cbn [events setQueEndPoint set_taskQueue].
  rewrite <- Hout. unfold outstanding. cbn -[sends].
  rewrite procs_sends_fresh by (apply Hwf; lia). rewrite proc_sends_out; [done|].
  intros [x Hx]%(awaiting_procs q Hwf). destruct Hwf as [Hf _]. by rewrite Hf in Hx by lia.
Qed.

Lemma tracked_barrier q p event c now q' :
  tracked q -> procs (taskQueue q) !! p = Some (Handling (BarrierTask event) c) ->
  with_queue (barrierHandler q event now) (TaskDone p) = QOk q' -> tracked q'.
Proof.
  intros [Hwf Hout] Hp Hq. set (q1 := barrierHandler q event now) in *.
  assert (taskQueue q1 = taskQueue q /\ awaitingDone q1 = awaitingDone q /\ events q1 = events q) as (Ht & Ha & He).
  { subst q1. unfold barrierHandler. destruct (parseEvent event). by case_decide. }
  assert (wf_queue q1) as Hwf1 by (unfold wf_queue; by rewrite Ht, Ha).
  assert (outstanding q1 = outstanding q) as Hout1 by (unfold outstanding; by rewrite Ht, Ha).
  assert (p ∉ awaitingDone q1) as Hpa.
  { intros (i & pr & ev & c' & Hp')%Hwf1. rewrite Ht in Hp'. congruence. }
  rewrite <- (set_awaiting_id q1) in Hq.
  apply (handler_ends _ p (BarrierTask event) c) in Hq as (Hwf' & Hev & Hperm);
    [|done|by rewrite Ht|by left|done|done].
  split; [done|]. rewrite proc_sends_out in Hperm by done. cbn in Hperm.
  by rewrite Hev, He, <- Hout, Hperm, Hout1.
Qed.

Lemma tracked_done q p q' :
  tracked q -> p ∈ awaitingDone q ->
  with_queue (set_awaiting q (awaitingDone q ∖ {[ p ]})) (TaskDone p) = QOk q' -> tracked q'.
Proof.
  intros [Hwf Hout] Hp Hq. pose proof Hwf as [_ Ha]. destruct (Ha p Hp) as (i & pr & ev & c & Hproc).
  apply (handler_ends _ p (SendEvent i pr ev) c) in Hq as (Hwf' & Hev & Hperm); [|done|done|by left| |].
  - rewrite proc_sends_in in Hperm by done. split; [done|]. by rewrite Hev, <- Hout, <- Hperm.
  - intros k Hk. rewrite elem_of_difference, elem_of_singleton. tauto.
  - rewrite elem_of_difference, elem_of_singleton. tauto.
Qed.

Lemma tracked_step q e q' :
  tracked q -> (forall ev now, e = QAdd ev now -> events q !! now = None) -> qstep q e = QOk q' -> tracked q'.
Proof.
  intros Htr Hadd H. destruct e as [ev now|u|e|p x now closed|p now|p]; cbn in H.
  - simplify_eq. eapply tracked_add; [done|by eapply Hadd].
  - simplify_eq. by apply tracked_setEndPoint.
  - destruct (loop_event e) eqn:E; [|done]. by eapply tracked_loop.
  - destruct (procs (taskQueue q) !! p) as [[| | | | |[]|]|] eqn:Hp; try done.
    case_decide; [done|]. by eapply tracked_exchange.
  - destruct (procs (taskQueue q) !! p) as [[| | | | |[]|]|] eqn:Hp; try done. by eapply tracked_barrier.
  - case_decide; [|done]. by eapply tracked_done.
Qed.

(** The times at which a run adds events. *)
Definition add_times (es : list qevent) : list Z :=
  omap (fun e => match e with QAdd _ now => Some now | _ => None end) es.

(** How the stored events change: an event is added, removed, or kept. *)
Lemma events_step q e q' :
  tracked q -> qstep q e = QOk q' ->
  match e with
  | QAdd ev now => events q' = events q \/ events q' = <[now := ev]> (events q)
  | QExchange p x now closed => exists id, events q' = events q \/
      events q' = delete id (events q) /\
        ((exists header ok, x = Replies header ok /\ (header = DONE \/ ok = true)) \/ expired now id = true)
  | _ => events q' = events q
  end.
Proof.
  intros Htr H. destruct e as [ev now|u|e|p x now closed|p now|p]; cbn in H.
  - simplify_eq. unfold addEvent. destruct (find_sub _ ev); [by left|by right].
  - by simplify_eq.
  - destruct (loop_event e); [|done]. by apply with_queue_ok in H as (t & _ & ->).
  - destruct (procs (taskQueue q) !! p) as [[| | | | |[id provider ev|]|]|] eqn:Hp; try done.
    case_decide as Haw; [done|]. exists id.
    pose proof (tracked_stored _ _ _ _ _ _ Htr Hp Haw) as Hid.
    destruct (resendEvent_tracked q id provider ev now Htr Hid) as (_ & _ & _ & Hex).
    assert (Hr : forall e, with_queue (resendEvent q id provider now) e = QOk q' ->
                 events q' = events q \/ events q' = delete id (events q) /\ expired now id = true).
    { intros e (t & _ & ->)%with_queue_ok. destruct (expired now id); destruct Hex; auto. }
    destruct x as [| |header ok]; cbn in H; [by apply Hr in H as [?|[? ?]]; auto..|].
    case_decide; [|destruct ok; [|by apply Hr in H as [?|[? ?]]; auto]].
    + apply with_queue_ok in H as (t & _ & ->). right. split; [done|]. left. by eauto.
    + simplify_eq. right. split; [done|]. left. by eauto.
  - destruct (procs (taskQueue q) !! p) as [[| | | | |[]|]|] eqn:Hp; try done.
    apply with_queue_ok in H as (t & _ & ->). unfold barrierHandler.
    destruct (parseEvent event). by case_decide.
  - case_decide; [|done]. by apply with_queue_ok in H as (t & _ & ->).
Qed.

Lemma tracked_run q es q' :
  tracked q -> NoDup (add_times es) -> (forall t, t ∈ add_times es -> events q !! t = None) ->
  qrun q es = QOk q' -> tracked q'.
Proof.
  revert q. induction es as [|e es IH]; intros q Htr Hnd Hfresh H; cbn in H; [by simplify_eq|].
  destruct (qstep q e) as [| |q1] eqn:E; [done..|].
  assert (Hadd : forall ev now, e = QAdd ev now -> events q !! now = None).
  { intros ev now ->. apply Hfresh. cbn. apply list_elem_of_here. }
  pose proof (tracked_step _ _ _ Htr Hadd E) as Htr1. pose proof (events_step _ _ _ Htr E) as Hev.
  assert (Hsub : forall t, t ∈ add_times es -> t ∈ add_times (e :: es)).
  { intros t Ht. destruct e; cbn; try done. by apply list_elem_of_further. }
  apply (IH q1 Htr1); [| |done].
  - destruct e; cbn in Hnd; try done. by apply NoDup_cons in Hnd as [_ ?].
  - intros t Ht. pose proof (Hfresh t (Hsub t Ht)) as Hn.
    destruct e as [ev now|u|e|p x now closed|p now|p]; try (by rewrite Hev).
    + destruct Hev as [-> | ->]; [done|]. rewrite lookup_insert_ne; [done|].
      intros ->. cbn in Hnd. by apply NoDup_cons in Hnd as [[] _].
    + destruct Hev as [id [-> | [-> _]]]; [done|]. rewrite lookup_delete_None. by right.
Qed.

(** C3: every stored event has exactly one delivery waiting in the queue or under
    way, with the event's text, and there is no other delivery: after any run in
    which no two events are added in the same microsecond. *)
Theorem eventqueue_tracked u m es q :
  NoDup (add_times es) -> qrun (eventQueueInit u m) es = QOk q ->
  outstanding q ≡ₚ map_to_list (events q).
Proof.
  intros Hnd H. eapply tracked_run; [apply tracked_init|exact Hnd| |exact H].
  intros t _. apply lookup_empty.
Qed.

(** An event is forgotten only because the peer answered "Done", because the
    provider served the peer's answer, or because the event had expired when
    its delivery failed. *)
Theorem eventqueue_forgets u m es q e q' id ev :
  NoDup (add_times es) -> qrun (eventQueueInit u m) es = QOk q -> qstep q e = QOk q' ->
  events q !! id = Some ev -> events q' !! id = None ->
  exists p x now closed, e = QExchange p x now closed /\
    ((exists header ok, x = Replies header ok /\ (header = DONE \/ ok = true)) \/ expired now id = true).
Proof.
  intros Hnd Hrun Hstep Hid Hnone.
  assert (tracked q) as Htr.
  { eapply tracked_run; [apply tracked_init|exact Hnd| |exact Hrun]. intros t _. apply lookup_empty. }
  pose proof (events_step _ _ _ Htr Hstep) as Hev.
  destruct e as [ev' now|u'|e|p x now closed|p now|p]; try (rewrite Hev in Hnone; congruence).
  - destruct Hev as [Hev|Hev]; rewrite Hev in Hnone; [congruence|].
    apply lookup_insert_None in Hnone as [? _]. congruence.
  - destruct Hev as [id' [Hev|[Hev Hwhy]]]; rewrite Hev in Hnone; [congruence|].
    apply lookup_delete_None in Hnone as [->|?]; [|congruence]. by exists p, x, now, closed.
Qed.

(** A run that sends an event, loses the connection, and sends it again. *)
Definition retry_run : list qevent :=
  [QAdd (str "Files:a" ++ HEDER_DELIM) 1000; QLoop (Run 0); QLoop (ConnectOk 0); QLoop (Run 0);
   QAdd (str "Files:b" ++ HEDER_DELIM) 2000; QExchange 0 WriteFails 3000 []; QLoop (Run 0);
   QLoop (ConnectOk 0); QLoop (Run 0)].

Lemma eventqueue_tracked_witness :
  match qrun (eventQueueInit true 1) retry_run with
  | QOk q => outstanding q ≡ₚ map_to_list (events q)
  | _ => False
  end.
Proof.
  destruct (qrun (eventQueueInit true 1) retry_run) as [| |q] eqn:E; [vm_compute in E; discriminate E..|].
  apply (eventqueue_tracked true 1 retry_run q); [|exact E].
  apply (bool_decide_unpack _). vm_compute. exact I.
Defined.

Lemma eventqueue_forgets_witness :
  match qrun (eventQueueInit true 1) retry_run with
  | QOk q => match qstep q (QExchange 0 (Replies DONE false) 4000 []) with
             | QOk q' => exists p x now closed,
                 QExchange 0 (Replies DONE false) 4000 [] = QExchange p x now closed /\
                 ((exists header ok, x = Replies header ok /\ (header = DONE \/ ok = true)) \/ expired now 1000 = true)
             | _ => False
             end
  | _ => False
  end.
Proof.
  destruct (qrun (eventQueueInit true 1) retry_run) as [| |q] eqn:E; [vm_compute in E; discriminate E..|].
  destruct (qstep q (QExchange 0 (Replies DONE false) 4000 [])) as [| |q'] eqn:E';
    [vm_compute in E; injection E as <-; vm_compute in E'; discriminate E'..|].
  apply (eventqueue_forgets true 1 retry_run q _ q' 1000 (str "Files:a" ++ HEDER_DELIM));
    [apply (bool_decide_unpack _); vm_compute; exact I | exact E | exact E' | |];
    vm_compute in E; injection E as <-; vm_compute in E'; injection E' as <-; reflexivity.
Defined.

(** The time to live: the id of an event is a time in microseconds but the
    difference is read as milliseconds, so that an event whose delivery fails is
    dropped 61 milliseconds after it was added. *)
Theorem ttl_in_microseconds now id :
  is_uint 63 now -> is_uint 63 id ->
  expired now id = bool_decide (61000 <= now - id)%Z.
Proof.
  unfold is_uint, expired, time_diff, as_int64, wrapu, TIMETOLIVE. intros Hn Hi.
  destruct (decide (id <= now)%Z).
  - rewrite Z.mod_small by lia. destruct (Z.ltb_spec (now - id) (2 ^ 63)); [|lia].
    rewrite Z.quot_div_nonneg by lia.
    case_bool_decide; destruct (Z.ltb_spec 60 ((now - id) / 1000)); try done; exfalso.
    + pose proof (Z.div_le_lower_bound (now - id) 1000 61). lia.
    + pose proof (Z.div_lt_upper_bound (now - id) 1000 61). lia.
  - rewrite bool_decide_eq_false_2 by lia.
    rewrite <- (Z.mod_add _ 1) by lia. rewrite Z.mod_small by lia.
    destruct (Z.ltb_spec (now - id + 1 * 2 ^ 64) (2 ^ 63)); [lia|].
    apply Z.ltb_ge. rewrite <- (Z.opp_involutive (_ - _)), Z.quot_opp_l by lia.
    enough (0 <= Z.quot (- (now - id + 1 * 2 ^ 64 - 2 ^ 64)) 1000)%Z by lia. apply Z.quot_pos; lia.
Qed.

Lemma ttl_in_microseconds_witness :
  expired 1700000000061000 1700000000000000 = bool_decide (61000 <= 61000)%Z.
Proof. apply (ttl_in_microseconds 1700000000061000 1700000000000000); split; vm_compute; congruence. Defined.

(** An event whose text holds the word "Barrier" anywhere is not stored and
    not sent. *)
Theorem barrier_diverts q ev now pre post :
  ev = pre ++ str "Barrier" ++ post ->
  events (addEvent q ev now) = events q /\
  taskQueue (addEvent q ev now) = addTask (taskQueue q) (BarrierTask ev) false.
Proof.
  intros ->. unfold addEvent. destruct (find_sub _ _) eqn:E; [done|]. exfalso.
  apply (proj1 (find_sub_None _ _) E (length pre)). rewrite drop_app_length. by apply prefix_app_r.
Qed.

Lemma barrier_diverts_witness :
  events (addEvent (eventQueueInit true 1) (str "Modified:/etc/Barrier.conf") 5) = ∅ /\
  taskQueue (addEvent (eventQueueInit true 1) (str "Modified:/etc/Barrier.conf") 5)
    = addTask (init true 1) (BarrierTask (str "Modified:/etc/Barrier.conf")) false.
Proof.
  exact (barrier_diverts (eventQueueInit true 1) (str "Modified:/etc/Barrier.conf") 5
           (str "Modified:/etc/") (str ".conf") eq_refl).
Defined.

(** Two events added in the same microsecond share one entry: the
    acknowledgement of the first forgets both, and when the delivery of the
    second then fails it is repeated with an empty text. *)
Theorem same_time_loses_event :
  match qrun (eventQueueInit true 1)
    [QAdd (str "Files:a") 7; QAdd (str "Files:b") 7; QLoop (Run 0); QLoop (ConnectOk 0); QLoop (Run 0);
     QExchange 0 (Replies DONE true) 8 []; QLoop (Run 0); QExchange 0 WriteFails 9 []] with
  | QOk q => outstanding q = [(7%Z, [])] /\ map_to_list (events q) = [(7%Z, [])]
  | _ => False
  end.
Proof. vm_compute. done. Qed.

(** ** Storing and loading *)

Lemma take_while_all f s : Forall (fun b => f b = true) s -> take_while f s = s.
Proof. induction 1 as [|b s Hb _ IH]; cbn; [done|]. by rewrite Hb, IH. Qed.

Lemma stoull_to_dec id : is_uint 64 id -> stoull (to_dec 20 id) = Some id.
Proof.
  unfold is_uint. intros Hid. pose proof (to_dec_digits 20 id ltac:(lia)) as Hd.
  pose proof (of_to_dec 20 id ltac:(cbn; lia)) as Hv.
  pose proof (to_dec_nonempty 20 id ltac:(done)) as Hne.
  destruct (to_dec 20 id) as [|b s]; [done|].
  pose proof (Forall_inv Hd) as Hb. cbn beta in Hb.
  unfold stoull. cbn [drop_while].
  replace (is_space b) with false by (unfold is_digit, is_space in *; lia).
  rewrite !decide_False by (intros ->; vm_compute in Hb; discriminate).
  rewrite take_while_all by done. cbv iota. rewrite Hv. by rewrite (proj2 (Z.ltb_lt _ _)) by lia.
Qed.

Lemma to_dec_no_comma id : (0 <= id)%Z -> comma ∉ to_dec 20 id.
Proof.
  intros H Hin. pose proof (to_dec_digits 20 id H) as Hd. rewrite Forall_forall in Hd.
  by apply Hd in Hin.
Qed.

(** The text of an event up to its first comma. *)
Definition cut (ev : bytes) : bytes := take_while (fun b => negb (bool_decide (b = comma))) ev.

Lemma split_pieces_head c cur s :
  split_pieces c cur s !! 0 = Some (cur ++ take_while (fun b => negb (bool_decide (b = c))) s).
Proof.
  revert cur. induction s as [|b s IH]; intros cur; cbn; [by rewrite app_nil_r|].
  destruct (decide (b = c)) as [->|Hb].
  - rewrite bool_decide_eq_true_2 by done. cbn. by rewrite app_nil_r.
  - rewrite IH, bool_decide_eq_false_2 by done. cbn. by rewrite <- app_assoc.
Qed.

Lemma load_entries q l :
  Forall (fun kv => is_uint 64 kv.1) l ->
  load q (store_entries l) = Some (foldl (fun q kv => addEventId q (cut kv.2) kv.1) q l).
Proof.
  intros Hl. revert q. induction Hl as [|[id ev] l Hid _ IH]; intros q; [done|].
  cbn -[split to_dec stoull addEventId].
  assert (Hs : split (to_dec 20 id ++ comma :: ev) comma 0 = to_dec 20 id :: split_pieces comma [] ev).
  { rewrite split_nonempty by apply app_cons_nonempty. rewrite drop_0.
    apply split_pieces_delim, to_dec_no_comma, Hid. }
  rewrite Hs. cbn -[stoull to_dec addEventId]. rewrite split_pieces_head, stoull_to_dec by done. apply IH.
Qed.

Lemma events_foldl q (l : list (Z * bytes)) id :
  NoDup l.*1 ->
  events (foldl (fun q kv => addEventId q (cut kv.2) kv.1) q l) !! id
  = match (list_to_map l : gmap Z bytes) !! id with Some ev => Some (cut ev) | None => events q !! id end.
Proof.
  revert q. induction l as [|[k ev] l IH]; intros q Hnd; [done|].
  cbn in Hnd. apply NoDup_cons in Hnd as [Hk Hnd].
  cbn -[addEventId]. rewrite IH by done. destruct (decide (k = id)) as [<-|Hne].
  - rewrite lookup_insert_eq. rewrite (not_elem_of_list_to_map_1 l k) by done. cbn. apply lookup_insert_eq.
  - rewrite lookup_insert_ne by done. destruct (list_to_map l !! id); [done|]. cbn. by apply lookup_insert_ne.
Qed.

(** Loading what was stored gives back every event under its id, cut at its
    first comma (an event without one comes back whole). *)
Theorem store_load_roundtrip (q : EventQueue) (u : bool) (m : nat) :
  (forall id ev, events q !! id = Some ev -> is_uint 64 id) ->
  exists q', load (eventQueueInit u m) (store q) = Some q' /\ events q' = cut <$> events q.
Proof.
  intros Hid. unfold store. set (l := merge_sort id_le (map_to_list (events q))).
  assert (Hl : l ≡ₚ map_to_list (events q)) by apply merge_sort_Permutation.
  eexists. split; [apply load_entries|].
  - apply Forall_forall. intros [id ev] Hin. apply (Hid id ev), elem_of_map_to_list. by rewrite <- Hl.
  - apply map_eq. intros id. rewrite lookup_fmap, events_foldl.
    + rewrite (list_to_map_proper l (map_to_list (events q)));
        [rewrite list_to_map_to_list; by destruct (events q !! id)| |done].
      rewrite Hl. apply NoDup_fst_map_to_list.
    + rewrite Hl. apply NoDup_fst_map_to_list.
Qed.

Definition stored_queue : EventQueue :=
  addEventId (addEventId (eventQueueInit true 1) (str "Copy:a,b") 12) (str "Files:c") 7.

Lemma store_load_roundtrip_witness :
  exists q', load (eventQueueInit true 1) (store stored_queue) = Some q' /\ events q' = cut <$> events stored_queue.
Proof.
  apply (store_load_roundtrip stored_queue true 1). intros id ev H.
  unfold stored_queue in H. cbn in H. rewrite !lookup_insert in H.
  destruct (decide (7 = id)%Z) as [<-|_]; [split; vm_compute; congruence|].
  destruct (decide (12 = id)%Z) as [<-|_]; [split; vm_compute; congruence|].
  rewrite lookup_empty in H. discriminate.
Defined.

Example store_load_comma :
  cut <$> [str "Copy:a,b"; str "Files:c"] = [str "Copy:a"; str "Files:c"].
Proof. reflexivity. Qed.

(** ** Serving *)

Section serving.

Context {aru} `{ReadUntil aru}.

Lemma readHeader_shorter cs h rest : readHeader aru cs = Some (h, rest) -> length rest < length cs.
Proof.
  unfold readHeader, readUntil. destruct (aru HEDER_DELIM cs) as [[[buf n] r]|] eqn:E; [|done].
  intros [= _ <-]. apply read_until_found in E as (i & pre & -> & -> & Hi & _).
  destruct pre; [done|]. rewrite length_app. cbn. lia.
Qed.

Lemma readHeader_empty : readHeader aru [] = None.
Proof.
  unfold readHeader, readUntil. destruct (aru HEDER_DELIM []) as [[[buf n] r]|] eqn:E; [|done].
  apply read_until_found in E as (i & pre & Hpre & -> & Hi & _).
  symmetry in Hpre. apply app_nil in Hpre as [-> _]. done.
Qed.

Lemma serve_S consumer fuel q cs :
  serve aru consumer (S fuel) q cs
  = match next aru consumer q cs with
    | (false, _, acts) => Some acts
    | (true, cs, acts) => (acts ++.) <$> serve aru consumer fuel q cs
    end.
Proof. done. Qed.

Lemma serve_fuel consumer q fuel cs :
  (forall key ev cs, length (consumer key ev cs).2 <= length cs) -> length cs < fuel ->
  exists acts, serve aru consumer fuel q cs = Some acts.
Proof.
  intros Hc. revert cs. induction fuel as [|fuel IH]; intros cs Hlt; [lia|]. cbn. unfold next.
  destruct (readHeader aru cs) as [[h rest]|] eqn:E; [|by eexists].
  apply readHeader_shorter in E. unfold parseAndHandle.
  set (key := handler_key _ _). specialize (Hc key (c_str h) rest).
  destruct (consumer key (c_str h) rest) as [[] cs']; cbn in Hc; [|by eexists].
  destruct (IH cs') as [acts ->]; [lia|]. by eexists.
Qed.

(** The loop that serves a connection ends: each round reads at least one
    chunk, so that it takes at most one round more than there are chunks. *)
Theorem serve_terminates consumer q cs :
  (forall key ev cs, length (consumer key ev cs).2 <= length cs) ->
  exists acts, serve aru consumer (S (length cs)) q cs = Some acts.
Proof. intros Hc. apply serve_fuel; [done|lia]. Qed.

(** What one event makes the server do. *)
Definition handled (q : EventQueue) (h : bytes) : list action :=
  [Consumed (handler_key (eventConsumers q) (getEventId h)) (c_str h); Sent (DONE ++ HEDER_DELIM)].

(** A peer that sends its events one at a time has each of them handed, in
    order, to the consumer registered for its id (or to the default one), and
    gets one "Done" for each. *)
Theorem serve_correct consumer q (hs : list bytes) (css : list (list bytes)) :
  (forall key ev cs, consumer key ev cs = (true, cs)) ->
  Forall wf_header hs ->
  Forall (Forall (fun c => c <> [])) css ->
  Forall2 (fun h cs => concat cs = h ++ HEDER_DELIM) hs css ->
  serve aru consumer (S (length hs)) q (concat css) = Some (concat (handled q <$> hs)).
Proof.
  intros Hc Hwf Hne Hsent. induction Hsent as [|h cs hs css Hcs Hsent IH].
  { cbn. unfold next. by rewrite readHeader_empty. }
  apply Forall_cons in Hwf as [Hh Hwf]. apply Forall_cons in Hne as [Hcs' Hne].
  cbn [length concat]. rewrite serve_S, fmap_cons. unfold next.
  rewrite (readHeader_message h); [|done..]. unfold parseAndHandle. rewrite Hc.
  by rewrite (IH Hwf Hne).
Qed.

End serving.

(** A consumer that reads one chunk after its header, the file it announces. *)
Definition file_consumer (key ev : bytes) (cs : list bytes) : bool * list bytes :=
  if decide (key = str "Files") then (true, drop 1 cs) else (false, cs).

Definition served_queue : EventQueue := addEventConsumer (eventQueueInit true 1) (str "Files").

Lemma serve_terminates_witness :
  exists acts, serve read_until_ref file_consumer 4 served_queue
    [str "Files:a" ++ HEDER_DELIM; str "data"; str "Stop" ++ HEDER_DELIM] = Some acts.
Proof.
  apply (serve_terminates file_consumer served_queue
    [str "Files:a" ++ HEDER_DELIM; str "data"; str "Stop" ++ HEDER_DELIM]).
  intros key ev cs. unfold file_consumer. case_decide; cbn [snd]; rewrite ?length_drop; lia.
Defined.

Lemma serve_correct_witness :
  serve read_until_ref (fun _ _ cs => (true, cs)) 3 served_queue
    [str "Files:a"; HEDER_DELIM; str "Other:b" ++ HEDER_DELIM]
  = Some (concat (handled served_queue <$> [str "Files:a"; str "Other:b"])).
Proof.
  apply (serve_correct (fun _ _ cs => (true, cs)) served_queue [str "Files:a"; str "Other:b"]
           [[str "Files:a"; HEDER_DELIM]; [str "Other:b" ++ HEDER_DELIM]]);
    [reflexivity | repeat constructor | repeat constructor; discriminate | repeat constructor].
Defined.

Example handled_keys :
  concat (handled served_queue <$> [str "Files:a"; str "Other:b"])
  = [Consumed (str "Files") (str "Files:a"); Sent (str "Done" ++ HEDER_DELIM);
     Consumed (str "default") (str "Other:b"); Sent (str "Done" ++ HEDER_DELIM)].
Proof. vm_compute. reflexivity. Qed.
