(* ===== verification/GraphqlParser.v ===== *)
(** * The GraphQL parser: [examples/graphql_server/include/graphql/parser.hpp]
    with the syntax tree of [ast.hpp] and the results of [error.hpp]

    The tokenizer and the recursive-descent parser, statement by statement, in a
    monad of states and exceptions.  The loops and the recursion of the parser
    are bounded by fuel; running out of it is a result of its own, [NoFuel], and
    [parse_total] below shows that the fuel [parse] starts with is always
    enough.  Floating-point numbers are a parameter: a type and the function
    [std::stod], [None] being its exception. *)

From S2P Require Import Prelude StdMap.

Set Warnings "-register-all".

(** ** The syntax tree *)

Section ast.

Context {double : Type}.

(** The values of [nlohmann::json] that the parser builds; the members of an
    object are in the order of their keys. *)
Inductive json :=
  | JNull
  | JBool (b : bool)
  | JInt (z : Z)
  | JFloat (d : double)
  | JString (s : bytes)
  | JArray (l : list json)
  | JObject (l : list (bytes * json)).

Inductive Kind :=
  | KInt | KFloat | KString | KBoolean | KNull | KEnum | KList | KObject | KVariable.

Record Value := mkValue { vkind : Kind; value : json }.

Record Argument := mkArgument { aname : bytes; avalue : Value }.

Record Directive := mkDirective { dname : bytes; darguments : list Argument }.

Inductive FieldSelection := mkField {
  fname : bytes;
  alias : bytes;
  fragmentSpreadName : bytes;
  farguments : list Argument;
  fdirectives : list Directive;
  fselections : list FieldSelection;
}.

Record FragmentDefinition := mkFragment {
  frname : bytes;
  typeCondition : bytes;
  frdirectives : list Directive;
  frselections : list FieldSelection;
}.

Record VariableDefinition := mkVariable {
  varname : bytes;
  typeName : bytes;
  nonNull : bool;
  isList : bool;
  defaultValue : option Value;
}.

Inductive OperationType := Query | Mutation | Subscription.

Record Operation := mkOperation {
  otype : OperationType;
  oname : bytes;
  variableDefinitions : list VariableDefinition;
  odirectives : list Directive;
  oselections : list FieldSelection;
  fragments : gmap bytes FragmentDefinition;
}.

End ast.

Arguments json : clear implicits.
Arguments Value : clear implicits.
Arguments Argument : clear implicits.
Arguments Directive : clear implicits.
Arguments FieldSelection : clear implicits.
Arguments FragmentDefinition : clear implicits.
Arguments VariableDefinition : clear implicits.
Arguments Operation : clear implicits.

(** ** Tokens *)

Inductive TokenType :=
  | TEnd | TName | TInt | TFloat | TString | TDollar | TBang | TColon | TEquals | TAt | TSpread
  | TLeftParen | TRightParen | TLeftBrace | TRightBrace | TLeftBracket | TRightBracket | TComma.

#[export] Instance TokenType_eq_dec : EqDecision TokenType.
Proof. solve_decision. Defined.

Record Token := mkToken { type : TokenType; text : bytes; position : nat }.

(** The character classes of the "C" locale. *)
Definition between (lo hi : Z) (b : byte) : bool := ((lo <=? u8 b) && (u8 b <=? hi))%Z.
Definition isdigit (b : byte) : bool := between 48 57 b.
Definition isalpha (b : byte) : bool := between 65 90 b || between 97 122 b.
Definition isalnum (b : byte) : bool := isalpha b || isdigit b.
Definition isspace (b : byte) : bool := between 9 13 b || bool_decide (u8 b = 32%Z).

Definition is_ch (b : byte) (c : byte) : bool := bool_decide (b = c).

(** The part of the input that has not been read, and its position. *)
Record Tokenizer := mkTokenizer { input : bytes; at_position : nat }.

(** [peek(offset)], a NUL past the end. *)
Definition peek (s : bytes) (offset : nat) : byte := default x00 (s !! offset).

(** [skipIgnored]; [comment] is whether the inner loop, over a comment, runs. *)
Fixpoint skipIgnored (comment : bool) (s : bytes) (pos : nat) : Tokenizer :=
  match s with
  | [] => mkTokenizer [] pos
  | ch :: s' =>
      if comment && negb (is_ch ch x0a || is_ch ch x0d) then skipIgnored true s' (S pos)
      else if isspace ch || is_ch ch x2c then skipIgnored false s' (S pos)
      else if is_ch ch x23 then skipIgnored true s' (S pos)
      else mkTokenizer s pos
  end.

(** The number of leading characters that satisfy [f]. *)
Fixpoint span (f : byte -> bool) (s : bytes) : nat :=
  match s with
  | [] => 0
  | b :: s => if f b then S (span f s) else 0
  end.

(** A token of [n] characters at the start of [s]. *)
Definition take_token (ty : TokenType) (s : bytes) (pos n : nat) : Token * Tokenizer :=
  (mkToken ty (take n s) pos, mkTokenizer (drop n s) (pos + n)).

Definition readName (s : bytes) (pos : nat) : Token * Tokenizer :=
  take_token TName s pos (1 + span (fun ch => isalnum ch || is_ch ch x5f) (drop 1 s)).

Definition readNumber (s : bytes) (pos : nat) : Token * Tokenizer :=
  let n := if is_ch (peek s 0) x2d then 1 else 0 in
  let n := n + span isdigit (drop n s) in
  let '(ty, n) :=
    if is_ch (peek s n) x2e && isdigit (peek s (n + 1))
    then (TFloat, n + 1 + span isdigit (drop (n + 1) s)) else (TInt, n) in
  let '(ty, n) :=
    if is_ch (peek s n) x65 || is_ch (peek s n) x45 then
      let n := n + 1 in
      let n := if is_ch (peek s n) x2b || is_ch (peek s n) x2d then n + 1 else n in
      (TFloat, n + span isdigit (drop n s))
    else (ty, n) in
  take_token ty s pos n.

(** ** Exceptions *)

(** [std::to_string] of a position. *)
Definition to_string (n : nat) : bytes := to_dec (S n) (Z.of_nat n).

(** The message every exception of the parser carries. *)
Definition error_at (message : bytes) (n : nat) : bytes := message ++ str " at position " ++ to_string n.

Definition unescape (escaped : byte) : byte :=
  if is_ch escaped x62 then x08
  else if is_ch escaped x66 then x0c
  else if is_ch escaped x6e then x0a
  else if is_ch escaped x72 then x0d
  else if is_ch escaped x74 then x09
  else escaped.

(** The loop of [readString] from after the opening quote at [start]. *)
Fixpoint readString (s : bytes) (pos start : nat) (result : bytes) : (Token * Tokenizer) + bytes :=
  match s with
  | [] => inr (error_at (str "Unterminated string") start)
  | ch :: s =>
      if is_ch ch x22 then inl (mkToken TString result start, mkTokenizer s (S pos))
      else if is_ch ch x5c then
        match s with
        | [] => inr (error_at (str "Unterminated escape sequence") (S pos))
        | escaped :: s => readString s (S (S pos)) start (result ++ [unescape escaped])
        end
      else readString s (S pos) start (result ++ [ch])
  end.

Definition punctuation (ch : byte) : option TokenType :=
  if is_ch ch x24 then Some TDollar
  else if is_ch ch x21 then Some TBang
  else if is_ch ch x3a then Some TColon
  else if is_ch ch x3d then Some TEquals
  else if is_ch ch x40 then Some TAt
  else if is_ch ch x28 then Some TLeftParen
  else if is_ch ch x29 then Some TRightParen
  else if is_ch ch x7b then Some TLeftBrace
  else if is_ch ch x7d then Some TRightBrace
  else if is_ch ch x5b then Some TLeftBracket
  else if is_ch ch x5d then Some TRightBracket
  else if is_ch ch x2c then Some TComma
  else None.

(** [Tokenizer::next]. *)
Definition next (t : Tokenizer) : (Token * Tokenizer) + bytes :=
  let t := skipIgnored false (input t) (at_position t) in
  let s := input t in
  let pos := at_position t in
  match s with
  | [] => inl (mkToken TEnd [] pos, t)
  | ch :: s' =>
      if isalpha ch || is_ch ch x5f then inl (readName s pos)
      else if isdigit ch || (is_ch ch x2d && isdigit (peek s 1)) then inl (readNumber s pos)
      else match punctuation ch with
           | Some ty => inl (take_token ty s pos 1)
           | None =>
               if is_ch ch x22 then readString s' (S pos) pos []
               else if is_ch ch x2e && is_ch (peek s 1) x2e && is_ch (peek s 2) x2e
                    then inl (take_token TSpread s pos 3)
               else inr (error_at (str "Unexpected character '" ++ [ch] ++ str "'") pos)
           end
  end.

(** ** The parser's monad *)

Record pstate := mkP { tokenizer : Tokenizer; current : Token }.

Inductive res (A : Type) := Ret (a : A) (st : pstate) | Throw (what : bytes) | NoFuel.
Arguments Ret {A}.
Arguments Throw {A}.
Arguments NoFuel {A}.

Definition M (A : Type) := pstate -> res A.

Definition ret {A} (a : A) : M A := fun st => Ret a st.

Definition bind {A B} (m : M A) (f : A -> M B) : M B :=
  fun st => match m st with Ret a st => f a st | Throw e => Throw e | NoFuel => NoFuel end.

Definition nofuel {A} : M A := fun _ => NoFuel.

Declare Scope parser_scope.
Notation "x ← m ; k" := (bind m (fun x => k))
  (at level 20, m at level 100, k at level 200, only parsing) : parser_scope.
Notation "m ;; k" := (bind m (fun _ => k)) (at level 100, k at level 200, only parsing) : parser_scope.
Local Open Scope parser_scope.

(** [throwError(message)]. *)
Definition throwError {A} (message : bytes) : M A :=
  fun st => Throw (error_at message (position (current st))).

Definition advance : M unit :=
  fun st => match next (tokenizer st) with
            | inl (tok, t) => Ret tt (mkP t tok)
            | inr e => Throw e
            end.

(** [current.type] and [current.text]. *)
Definition cur_type : M TokenType := fun st => Ret (type (current st)) st.
Definition cur_text : M bytes := fun st => Ret (text (current st)) st.

Definition expect (ty : TokenType) (message : bytes) : M Token :=
  fun st => if decide (type (current st) = ty)
            then (advance ;; ret (current st)) st
            else throwError message st.

Definition accept (ty : TokenType) : M bool :=
  fun st => if decide (type (current st) = ty) then (advance ;; ret true) st else Ret false st.

Definition isName (t : bytes) : M bool :=
  fun st => Ret (bool_decide (type (current st) = TName /\ text (current st) = t)) st.

Definition kMaxDepth : nat := 20.

(** ** Values *)

(** [std::stoll]: the text of an integer token always holds digits; [None] is
    [std::out_of_range]. *)
Definition stoll (s : bytes) : option Z :=
  let z := match s with
           | b :: ds => if is_ch b x2d then (- of_dec ds)%Z else of_dec s
           | [] => 0%Z
           end in
  if ((- 2 ^ 63 <=? z) && (z <? 2 ^ 63))%Z then Some z else None.

Section parser.

Context {double : Type} (stod : bytes -> option double).

Fixpoint parseValue (fuel : nat) : M (Value double) :=
  match fuel with
  | O => nofuel
  | S fuel =>
      ty ← cur_type;
      v ← cur_text;
      match ty with
      | TDollar =>
          advance;;
          tok ← expect TName (str "Expected variable name after '$'");
          ret (mkValue KVariable (JObject [(str "$variable", JString (text tok))]))
      | TString => advance;; ret (mkValue KString (JString v))
      | TInt => advance;; ret (mkValue KInt (match stoll v with Some z => JInt z | None => JString v end))
      | TFloat => advance;; ret (mkValue KFloat (match stod v with Some d => JFloat d | None => JString v end))
      | TLeftBracket => parseListValue fuel
      | TLeftBrace => parseObjectValue fuel
      | TName =>
          advance;;
          if decide (v = str "true") then ret (mkValue KBoolean (JBool true))
          else if decide (v = str "false") then ret (mkValue KBoolean (JBool false))
          else if decide (v = str "null") then ret (mkValue KNull JNull)
          else ret (mkValue KEnum (JString v))
      | _ => throwError (str "Expected value")
      end
  end
with parseListValue (fuel : nat) : M (Value double) :=
  match fuel with
  | O => nofuel
  | S fuel =>
      expect TLeftBracket (str "Expected '[' to start list value");;
      result ← list_loop fuel [];
      expect TRightBracket (str "Expected ']' to end list value");;
      ret (mkValue KList (JArray result))
  end
with list_loop (fuel : nat) (result : list (json double)) : M (list (json double)) :=
  match fuel with
  | O => nofuel
  | S fuel =>
      ty ← cur_type;
      if decide (ty = TRightBracket) then ret result
      else
        v ← parseValue fuel;
        accept TComma;;
        list_loop fuel (result ++ [value v])
  end
with parseObjectValue (fuel : nat) : M (Value double) :=
  match fuel with
  | O => nofuel
  | S fuel =>
      expect TLeftBrace (str "Expected '{' to start object value");;
      result ← object_loop fuel [];
      expect TRightBrace (str "Expected '}' to end object value");;
      ret (mkValue KObject (JObject result))
  end
with object_loop (fuel : nat) (result : list (bytes * json double)) : M (list (bytes * json double)) :=
  match fuel with
  | O => nofuel
  | S fuel =>
      ty ← cur_type;
      if decide (ty = TRightBrace) then ret result
      else
        tok ← expect TName (str "Expected field name in object value");
        expect TColon (str "Expected ':' after object field name");;
        v ← parseValue fuel;
        accept TComma;;
        object_loop fuel (object_set result (text tok) (value v))
  end.

(** ** Arguments and directives *)

Fixpoint arguments_loop (fuel : nat) (arguments : list (Argument double)) : M (list (Argument double)) :=
  match fuel with
  | O => nofuel
  | S fuel =>
      ty ← cur_type;
      if decide (ty = TRightParen) then ret arguments
      else
        tok ← expect TName (str "Expected argument name in field arguments");
        expect TColon (str "Expected ':' after argument name");;
        v ← parseValue fuel;
        accept TComma;;
        arguments_loop fuel (arguments ++ [mkArgument (text tok) v])
  end.

Definition parseArguments (fuel : nat) : M (list (Argument double)) :=
  expect TLeftParen (str "Expected '(' to start arguments");;
  arguments ← arguments_loop fuel [];
  expect TRightParen (str "Expected ')' after arguments");;
  ret arguments.

Definition parseDirective (fuel : nat) : M (Directive double) :=
  expect TAt (str "Expected '@' to start directive");;
  tok ← expect TName (str "Expected directive name");
  ty ← cur_type;
  if decide (ty = TLeftParen) then
    arguments ← parseArguments fuel;
    ret (mkDirective (text tok) arguments)
  else ret (mkDirective (text tok) []).

Fixpoint directives_loop (fuel : nat) (directives : list (Directive double)) : M (list (Directive double)) :=
  match fuel with
  | O => nofuel
  | S fuel =>
      ty ← cur_type;
      if decide (ty = TAt) then
        d ← parseDirective fuel;
        directives_loop fuel (directives ++ [d])
      else ret directives
  end.

Definition parseDirectives (fuel : nat) : M (list (Directive double)) := directives_loop fuel [].

(** ** Selection sets *)

Fixpoint parseSelectionSet (fuel : nat) (depth : nat) : M (list (FieldSelection double)) :=
  match fuel with
  | O => nofuel
  | S fuel =>
      if decide (kMaxDepth <= depth) then
        throwError (str "Query exceeds maximum nesting depth of " ++ to_string kMaxDepth)
      else
        expect TLeftBrace (str "Expected '{' to start selection set");;
        fields ← selection_loop fuel depth [];
        expect TRightBrace (str "Expected '}' to end selection set");;
        ret fields
  end
with selection_loop (fuel : nat) (depth : nat) (fields : list (FieldSelection double))
  : M (list (FieldSelection double)) :=
  match fuel with
  | O => nofuel
  | S fuel =>
      ty ← cur_type;
      if decide (ty = TRightBrace) then ret fields
      else if decide (ty = TSpread) then
        spread ← parseFragmentSpread fuel depth;
        selection_loop fuel depth (fields ++ spread)
      else
        f ← parseField fuel depth;
        selection_loop fuel depth (fields ++ [f])
  end
with parseField (fuel : nat) (depth : nat) : M (FieldSelection double) :=
  match fuel with
  | O => nofuel
  | S fuel =>
      fieldName ← expect TName (str "Expected field name in selection set");
      colon ← accept TColon;
      tok ← (if colon : bool then expect TName (str "Expected field name after alias") else ret fieldName);
      ty ← cur_type;
      arguments ← (if decide (ty = TLeftParen) then parseArguments fuel else ret []);
      directives ← parseDirectives fuel;
      ty ← cur_type;
      selections ← (if decide (ty = TLeftBrace) then parseSelectionSet fuel (depth + 1) else ret []);
      ret (mkField (text tok) (if colon then text fieldName else []) [] arguments directives selections)
  end
with parseFragmentSpread (fuel : nat) (depth : nat) : M (list (FieldSelection double)) :=
  match fuel with
  | O => nofuel
  | S fuel =>
      expect TSpread (str "Expected '...'");;
      on ← isName (str "on");
      if on : bool then parseInlineFragment fuel depth
      else
        tok ← expect TName (str "Expected fragment name after '...'");
        parseDirectives fuel;;
        ret [mkField [] [] (text tok) [] [] []]
  end
with parseInlineFragment (fuel : nat) (depth : nat) : M (list (FieldSelection double)) :=
  match fuel with
  | O => nofuel
  | S fuel =>
      on ← isName (str "on");
      (if on : bool then
         advance;; expect TName (str "Expected inline fragment type condition");; ret tt
       else ret tt);;
      parseDirectives fuel;;
      parseSelectionSet fuel depth
  end.

(** ** Definitions and documents *)

(** [skipTypeReference]: the type's name, [nonNull] and [isList]. *)
Definition skipTypeReference : M (bytes * bool * bool) :=
  bracket ← accept TLeftBracket;
  name ← (if bracket : bool then
             tok ← expect TName (str "Expected type name in variable definition");
             expect TRightBracket (str "Expected ']' in type reference");;
             ret (text tok)
           else
             tok ← expect TName (str "Expected type name in variable definition");
             ret (text tok));
  bang ← accept TBang;
  ret (name, bang, bracket).

Fixpoint variables_loop (fuel : nat) (defs : list (VariableDefinition double))
  : M (list (VariableDefinition double)) :=
  match fuel with
  | O => nofuel
  | S fuel =>
      ty ← cur_type;
      if decide (ty = TRightParen) then ret defs
      else
        expect TDollar (str "Expected '$' in variable definition");;
        tok ← expect TName (str "Expected variable name in definition");
        expect TColon (str "Expected ':' after variable name");;
        tr ← skipTypeReference;
        eq ← accept TEquals;
        dv ← (if eq : bool then v ← parseValue fuel; ret (Some v) else ret None);
        accept TComma;;
        variables_loop fuel (defs ++ [mkVariable (text tok) tr.1.1 tr.1.2 tr.2 dv])
  end.

Definition parseVariableDefinitions (fuel : nat) : M (list (VariableDefinition double)) :=
  expect TLeftParen (str "Expected '(' to start variable definitions");;
  defs ← variables_loop fuel [];
  expect TRightParen (str "Expected ')' after variable definitions");;
  ret defs.

Definition parseFragmentDefinition (fuel : nat) : M (FragmentDefinition double) :=
  expect TName (str "Expected 'fragment' keyword");;
  name ← expect TName (str "Expected fragment name");
  on ← isName (str "on");
  (if on : bool then ret tt else throwError (str "Expected 'on' in fragment definition"));;
  advance;;
  cond ← expect TName (str "Expected type condition in fragment definition");
  directives ← parseDirectives fuel;
  selections ← parseSelectionSet fuel 0;
  ret (mkFragment (text name) (text cond) directives selections).

(** The keyword of an operation. *)
Definition operation_type (t : bytes) : option OperationType :=
  if decide (t = str "query") then Some Query
  else if decide (t = str "mutation") then Some Mutation
  else if decide (t = str "subscription") then Some Subscription
  else None.

Definition parseOperationDefinition (fuel : nat) : M (Operation double) :=
  ty ← cur_type;
  t ← cur_text;
  head ← (match ty with
           | TLeftBrace => ret (Query, [], [], [])
           | TName =>
               match operation_type t with
               | None => throwError (str "Expected operation type or selection set")
               | Some op =>
                   advance;;
                   ty ← cur_type;
                   t ← cur_text;
                   name ← (if decide (ty = TName) then advance;; ret t else ret []);
                   ty ← cur_type;
                   defs ← (if decide (ty = TLeftParen) then parseVariableDefinitions fuel else ret []);
                   directives ← parseDirectives fuel;
                   ret (op, name, defs, directives)
               end
           | _ => throwError (str "Expected operation definition")
           end);
  selections ← parseSelectionSet fuel 0;
  let '(op, name, defs, directives) := head in
  ret (mkOperation op name defs directives selections ∅).

Fixpoint fragments_loop (fuel : nat) (frs : gmap bytes (FragmentDefinition double))
  : M (gmap bytes (FragmentDefinition double)) :=
  match fuel with
  | O => nofuel
  | S fuel =>
      fragment ← isName (str "fragment");
      if fragment : bool then
        frag ← parseFragmentDefinition fuel;
        fragments_loop fuel (<[frname frag := frag]> frs)
      else ret frs
  end.

Definition parseDocument (fuel : nat) : M (Operation double) :=
  operation ← parseOperationDefinition fuel;
  frs ← fragments_loop fuel (fragments operation);
  ty ← cur_type;
  (if decide (ty = TEnd) then ret tt else throwError (str "Unexpected token after operation"));;
  ret (mkOperation (otype operation) (oname operation) (variableDefinitions operation)
         (odirectives operation) (oselections operation) frs).

(** [Impl(query)] and [parseDocument]. *)
Definition run_parser (fuel : nat) (query : bytes) : res (Operation double) :=
  (advance;; parseDocument fuel) (mkP (mkTokenizer query 0) (mkToken TEnd [] 0)).

(** Enough for every query: see [parse_total]. *)
Definition parse_fuel (query : bytes) : nat := 4 * length query + 8.

(** [tryParse]: the operation, or the message of the exception; [None] would be a
    parser that does not return. *)
Definition tryParse (query : bytes) : option (Operation double + bytes) :=
  match run_parser (parse_fuel query) query with
  | Ret op _ => Some (inl op)
  | Throw e => Some (inr e)
  | NoFuel => None
  end.

Definition validate (query : bytes) : option (bool * bytes) :=
  match run_parser (parse_fuel query) query with
  | Ret _ _ => Some (true, [])
  | Throw e => Some (false, e)
  | NoFuel => None
  end.

End parser.

(** ** The nesting of selections *)

Fixpoint field_depth {double} (f : FieldSelection double) : nat :=
  S (list_max (map field_depth (fselections f))).

Definition fields_depth {double} (l : list (FieldSelection double)) : nat := list_max (map field_depth l).

Lemma fields_depth_app {double} (l k : list (FieldSelection double)) :
  fields_depth (l ++ k) = Nat.max (fields_depth l) (fields_depth k).
Proof. unfold fields_depth. by rewrite map_app, list_max_app. Qed.

Lemma fields_depth_one {double} (f : FieldSelection double) :
  fields_depth [f] = S (fields_depth (fselections f)).
Proof. destruct f. unfold fields_depth. cbn. lia. Qed.

(** ** The tokenizer reads its input from left to right *)

(** An exception's message names a position in a query of [N] characters. *)
Definition is_error (N : nat) (e : bytes) : Prop := exists m n, e = error_at m n /\ n <= N.

(** The tokenizer has an input of [N] characters. *)
Definition wf_tokenizer (N : nat) (t : Tokenizer) : Prop := at_position t + length (input t) = N.

Lemma skipIgnored_spec N c s pos :
  pos + length s = N ->
  wf_tokenizer N (skipIgnored c s pos) /\ length (input (skipIgnored c s pos)) <= length s /\
  forall ch s', input (skipIgnored c s pos) = ch :: s' -> is_ch ch x2c = false.
Proof.
  unfold wf_tokenizer. revert c pos. induction s as [|b s IH]; intros c pos HN; cbn in *; [done|].
  destruct (c && _); [edestruct (IH true (S pos)) as (? & ? & ?); [lia|split_and!; [done|lia|done]]|].
  destruct (isspace b || is_ch b x2c) eqn:E;
    [edestruct (IH false (S pos)) as (? & ? & ?); [lia|split_and!; [done|lia|done]]|].
  destruct (is_ch b x23); [edestruct (IH true (S pos)) as (? & ? & ?); [lia|split_and!; [done|lia|done]]|].
  cbn. split_and!; [done|lia|]. intros ch s' [= <- <-]. by apply orb_false_iff in E as [_ ?].
Qed.

Lemma span_length f s : span f s <= length s.
Proof. induction s as [|b s IH]; cbn; [done|]. destruct (f b); lia. Qed.

Lemma span_le f n s : n <= length s -> n + span f (drop n s) <= length s.
Proof. intros H. pose proof (span_length f (drop n s)) as Hs. rewrite length_drop in Hs. lia. Qed.

Lemma peek_in s n b : peek s n = b -> b <> x00 -> n < length s.
Proof. unfold peek. intros <- H. apply lookup_lt_is_Some. by destruct (s !! n); [|done]. Qed.

Lemma is_ch_true b c : is_ch b c = true <-> b = c.
Proof. apply bool_decide_eq_true. Qed.

Lemma peek_is s n c : is_ch (peek s n) c = true -> c <> x00 -> n < length s.
Proof. intros H%is_ch_true ?. by eapply peek_in. Qed.

(** What [next] promises: a token that starts in the input, and progress unless
    it is the end; a comma is never a token. *)
Definition next_ok (N : nat) (s : bytes) (r : (Token * Tokenizer) + bytes) : Prop :=
  match r with
  | inl (tok, t) =>
      wf_tokenizer N t /\ position tok <= N /\ type tok <> TComma /\
      (type tok = TEnd /\ input t = [] \/ type tok <> TEnd /\ length (input t) < length s)
  | inr e => is_error N e
  end.

Lemma take_token_ok N ty s pos n :
  pos + length s = N -> 0 < n <= length s -> ty <> TEnd -> ty <> TComma ->
  next_ok N s (inl (take_token ty s pos n)).
Proof.
  intros HN Hn Hty Hc. unfold next_ok, take_token, wf_tokenizer. cbn. rewrite length_drop.
  split_and!; [lia|lia|done|]. right. split; [done|lia].
Qed.

Lemma readNumber_ok N s pos :
  pos + length s = N -> isdigit (peek s 0) || (is_ch (peek s 0) x2d && isdigit (peek s 1)) = true ->
  next_ok N s (inl (readNumber s pos)).
Proof.
  intros HN H0. unfold readNumber.
  set (n0 := if is_ch (peek s 0) x2d then 1 else 0).
  assert (Hn0 : n0 <= length s).
  { subst n0. destruct (is_ch (peek s 0) x2d) eqn:E; [|lia]. by apply peek_is in E. }
  set (n1 := n0 + span isdigit (drop n0 s)).
  assert (Hn1 : n1 <= length s) by by apply span_le.
  assert (Hpos : 0 < n1).
  { subst n1 n0. destruct (is_ch (peek s 0) x2d); [lia|]. cbn in H0. rewrite orb_false_r in H0.
    unfold peek in H0. destruct s as [|b s]; [by vm_compute in H0|]. cbn in H0 |- *. rewrite H0. lia. }
  set (p2 := if is_ch (peek s n1) x2e && isdigit (peek s (n1 + 1)) then _ else _).
  assert (Hp2 : 0 < p2.2 <= length s /\ (p2.1 = TFloat \/ p2.1 = TInt)).
  { subst p2. destruct (is_ch (peek s n1) x2e) eqn:E; cbn; [|by auto].
    apply peek_is in E; [|done]. destruct (isdigit (peek s (n1 + 1))); cbn; [|by auto].
    split; [|by auto]. split; [lia|]. apply span_le. lia. }
  destruct p2 as [ty n2]. cbn in Hp2. destruct Hp2 as [Hn2 Hty].
  set (p3 := if is_ch (peek s n2) x65 || _ then _ else _).
  assert (Hp3 : 0 < p3.2 <= length s /\ (p3.1 = TFloat \/ p3.1 = TInt)).
  { subst p3. destruct (is_ch (peek s n2) x65 || is_ch (peek s n2) x45) eqn:E; cbn; [|by auto].
    assert (n2 < length s) by (apply orb_true_iff in E as [E|E]; by apply peek_is in E).
    split; [|by auto]. destruct (is_ch (peek s (n2 + 1)) x2b || is_ch (peek s (n2 + 1)) x2d) eqn:E'.
    - assert (n2 + 1 < length s) by (apply orb_true_iff in E' as [E'|E']; by apply peek_is in E').
      split; [lia|]. apply span_le. lia.
    - split; [lia|]. apply span_le. lia. }
  destruct p3 as [ty3 n3]. cbn in Hp3. destruct Hp3 as [Hn3 Hty3].
  by apply take_token_ok; [done|done|destruct Hty3 as [-> | ->]..].
Qed.

Lemma readString_ok N s0 s pos start result :
  pos + length s = N -> start <= N -> length s < length s0 ->
  next_ok N s0 (readString s pos start result).
Proof.
  assert (exists n, length s <= n) as [n Hn] by by exists (length s).
  revert s pos result Hn. induction n as [|n IH]; intros s pos result Hn HN Hst Hs;
    destruct s as [|b s]; cbn in *; try lia; try by exists (str "Unterminated string"), start.
  destruct (is_ch b x22).
  { unfold next_ok, wf_tokenizer. cbn. split_and!; [lia|done|done|]. right. split; [done|lia]. }
  destruct (is_ch b x5c); [|apply IH; lia].
  destruct s as [|e s]; cbn in *; [|apply IH; lia].
  exists (str "Unterminated escape sequence"), (S pos). split; [done|lia].
Qed.

Lemma punctuation_not_end ch ty : punctuation ch = Some ty -> ty <> TEnd.
Proof. unfold punctuation. intros H ->. by repeat case_match. Qed.

Lemma punctuation_comma ch : is_ch ch x2c = false -> punctuation ch <> Some TComma.
Proof. intros Hc H. unfold punctuation in H. rewrite Hc in H. by repeat case_match. Qed.

Lemma next_spec N t : wf_tokenizer N t -> next_ok N (input t) (next t).
Proof.
  unfold wf_tokenizer. intros HN. unfold next.
  destruct (skipIgnored_spec N false (input t) (at_position t) HN) as (Hw & Hlen & Hcomma).
  destruct (skipIgnored false (input t) (at_position t)) as [s pos]. cbn in *.
  unfold wf_tokenizer in Hw. cbn in Hw.
  assert (Hmono : forall r, next_ok N s r -> next_ok N (input t) r).
  { intros [[tok t']|e]; [|done]. intros (? & ? & ? & [?|[? ?]]); (split_and!; [done..|]); [by left|].
    right. split; [done|lia]. }
  destruct s as [|ch s']; cbn in Hw.
  { unfold next_ok, wf_tokenizer. cbn. split_and!; [lia..|done|by left]. }
  apply Hmono. destruct (isalpha ch || is_ch ch x5f).
  { apply take_token_ok; [done| |done|done]. pose proof (span_le (fun c => isalnum c || is_ch c x5f) 1 (ch :: s')).
    cbn in *. lia. }
  destruct (isdigit ch || _) eqn:E; [by apply readNumber_ok|].
  destruct (punctuation ch) as [ty|] eqn:Ep.
  { apply take_token_ok; [done|cbn; lia|by eapply punctuation_not_end|].
    intros ->. by apply (punctuation_comma ch); [eapply Hcomma|]. }
  destruct (is_ch ch x22); [apply readString_ok; cbn in *; lia|].
  destruct (is_ch ch x2e && _ && _) eqn:Ed; [|exists (str "Unexpected character '" ++ [ch] ++ str "'"), pos; split; [reflexivity|lia]].
  apply andb_true_iff in Ed as [_ Hd]. apply peek_is in Hd; [|done]. by apply take_token_ok; [|lia|..].
Qed.

(** ** A program logic for the parser

    [wp N m st Q]: from [st] the computation [m] returns, without running out of
    fuel, either a value and a state that satisfy [Q], or the message of an
    exception that names a position in the query, which has [N] characters. *)

Definition wf (N : nat) (st : pstate) : Prop :=
  wf_tokenizer N (tokenizer st) /\ position (current st) <= N /\
  (type (current st) = TEnd -> input (tokenizer st) = []).

(** How much there is left to read: every token that is consumed decreases it. *)
Definition left (st : pstate) : nat :=
  length (input (tokenizer st)) + if decide (type (current st) = TEnd) then 0 else 1.

Section wp.

Context (N : nat).

Definition wp {A} (m : M A) (st : pstate) (Q : A -> pstate -> Prop) : Prop :=
  match m st with
  | Ret a st' => wf N st' /\ Q a st'
  | Throw e => is_error N e
  | NoFuel => False
  end.

Lemma wp_ret {A} (a : A) st (Q : A -> pstate -> Prop) : wf N st -> Q a st -> wp (ret a) st Q.
Proof. done. Qed.

Lemma wp_bind {A B} (m : M A) (f : A -> M B) st Q :
  wp m st (fun a st' => wf N st' -> wp (f a) st' Q) -> wp (bind m f) st Q.
Proof. unfold wp, bind. destruct (m st); [|done..]. intros [Hwf H]. by apply H. Qed.

Lemma wp_mono {A} (m : M A) st (Q Q' : A -> pstate -> Prop) :
  wp m st Q -> (forall a st', wf N st' -> Q a st' -> Q' a st') -> wp m st Q'.
Proof. unfold wp. destruct (m st); [|done..]. intros [Hwf Hq] HQ. split; [done|]. by apply HQ. Qed.

(** Sequencing with the specification of the first computation. *)
Lemma wp_seq {A B} (m : M A) (f : A -> M B) st Q Q' :
  wp m st Q -> (forall a st', wf N st' -> Q a st' -> wp (f a) st' Q') -> wp (bind m f) st Q'.
Proof. intros Hm Hf. apply wp_bind. eapply wp_mono; [exact Hm|]. auto. Qed.

Lemma wp_throw {A} msg st (Q : A -> pstate -> Prop) : wf N st -> wp (throwError msg) st Q.
Proof. intros (_ & Hp & _). by exists msg, (position (current st)). Qed.

Lemma wp_advance st :
  wf N st ->
  wp advance st (fun _ st' => left st' <= left st /\ (type (current st) <> TEnd -> left st' < left st)).
Proof.
  intros (Ht & Hp & He). unfold wp, advance. pose proof (next_spec N _ Ht) as Hn.
  destruct (next (tokenizer st)) as [[tok t]|e]; [|done].
  destruct Hn as (Ht' & Hp' & _ & Hcase). unfold wf, left. cbn. split; [split_and!; [done..|]|].
  - intros E. by destruct Hcase as [[_ ?]|[? _]].
  - destruct Hcase as [[-> ->]|[Hne Hlt]]; [rewrite decide_True by done|rewrite (decide_False (P := type tok = _)) by done].
    + cbn. split; [lia|]. intros. rewrite decide_False by done. lia.
    + case_decide as E; [by rewrite (He E) in Hlt; cbn in Hlt; lia|]. split; lia.
Qed.

Lemma wp_cur_type st : wf N st -> wp cur_type st (fun ty st' => st' = st /\ ty = type (current st)).
Proof. done. Qed.

Lemma wp_cur_text st : wf N st -> wp cur_text st (fun t st' => st' = st /\ t = text (current st)).
Proof. done. Qed.

Lemma wp_isName t st : wf N st -> wp (isName t) st (fun b st' => st' = st /\ (b = true -> type (current st) = TName)).
Proof. intros. split; [done|]. split; [done|]. by intros [? _]%bool_decide_eq_true. Qed.

Lemma wp_expect ty msg st :
  wf N st -> ty <> TEnd -> wp (expect ty msg) st (fun _ st' => left st' < left st).
Proof.
  intros Hwf Hty. unfold wp, expect. case_decide as E.
  - apply (wp_seq advance (fun _ => ret (current st)) st _ _ (wp_advance st Hwf)).
    intros _ st' Hwf' [_ Hlt]. apply wp_ret; [done|]. apply Hlt. congruence.
  - by apply (wp_throw (A := Token)).
Qed.

Lemma wp_accept ty st :
  wf N st -> ty <> TEnd ->
  wp (accept ty) st (fun b st' => left st' <= left st /\ (b = true -> left st' < left st)).
Proof.
  intros Hwf Hty. unfold wp, accept. case_decide as E.
  - apply (wp_seq advance (fun _ => ret true) st _ _ (wp_advance st Hwf)).
    intros _ st' Hwf' [? Hlt]. apply wp_ret; [done|]. split; [done|]. intros _. apply Hlt. congruence.
  - done.
Qed.

(** Computations that run only in some case. *)
Lemma wp_when {A} P `{Decision P} (m : M A) a st (R : A -> Prop) :
  wf N st -> (P -> wp m st (fun x st' => left st' <= left st /\ R x)) -> R a ->
  wp (if decide P then m else ret a) st (fun x st' => left st' <= left st /\ R x).
Proof. intros Hwf Hm Ha. case_decide; [by apply Hm|]. by apply wp_ret. Qed.

Lemma wp_if {A} (b : bool) (m : M A) a st (R : A -> Prop) :
  wf N st -> (b = true -> wp m st (fun x st' => left st' <= left st /\ R x)) -> R a ->
  wp (if b then m else ret a) st (fun x st' => left st' <= left st /\ R x).
Proof. intros Hwf Hm Ha. destruct b; [by apply Hm|]. by apply wp_ret. Qed.

Lemma wp_le {A} (m : M A) st :
  wp m st (fun x st' => left st' < left st) -> wp m st (fun x st' => left st' <= left st /\ True).
Proof. intros Hm. eapply wp_mono; [exact Hm|]. cbv beta. intros. split; [lia|done]. Qed.

Lemma left_pos st : type (current st) <> TEnd -> 0 < left st.
Proof. intros. unfold left. rewrite decide_False by done. lia. Qed.

End wp.

(** One step of a computation: a primitive or a call with a known specification,
    then its continuation. *)
Ltac wp_prim :=
  first [ apply wp_advance; assumption
        | apply wp_cur_type; assumption | apply wp_cur_text; assumption | apply wp_isName; assumption
        | apply wp_expect; [assumption | discriminate]
        | apply wp_accept; [assumption | discriminate] ].

Ltac wp_next :=
  eapply wp_seq; [wp_prim | cbv beta; intros ? ? ? ?; destruct_and?; subst].

(** The arithmetic of the tokens that have been consumed. *)
Ltac tokens :=
  repeat match goal with
         | H : type _ <> TEnd -> _ |- _ => specialize (H ltac:(congruence))
         | H : ?b = true -> _, H' : ?b = true |- _ => specialize (H H')
         | H : true = true -> _ |- _ => specialize (H eq_refl)
         end; lia.

Ltac wp_done := apply wp_ret; [assumption|]; try tokens.

Section specs.

Context {double : Type} (stod : bytes -> option double) (N : nat).

(** The computation consumes at least one token; it consumes none or more. *)
Abbreviation reads m st := (wp N m st (fun _ st' => left st' < left st)).
Abbreviation reads_some m st := (wp N m st (fun _ st' => left st' <= left st)).

(** A call whose specification is [H]. *)
Ltac wp_call H :=
  eapply wp_seq; [apply H; [assumption | tokens] | cbv beta; intros ? ? ? ?; destruct_and?].

Lemma values_spec fuel :
  (forall st, wf N st -> 4 * left st + 2 <= fuel -> reads (parseValue stod fuel) st) /\
  (forall st, wf N st -> 4 * left st + 1 <= fuel -> reads (parseListValue stod fuel) st) /\
  (forall st l, wf N st -> 4 * left st + 3 <= fuel -> reads_some (list_loop stod fuel l) st) /\
  (forall st, wf N st -> 4 * left st + 1 <= fuel -> reads (parseObjectValue stod fuel) st) /\
  (forall st l, wf N st -> 4 * left st + 3 <= fuel -> reads_some (object_loop stod fuel l) st).
Proof.
  induction fuel as [|fuel (IHv & IHl & IHll & IHo & IHol)]; [split_and!; intros; lia|].
  split_and!.
  - intros st Hwf Hf. cbn [parseValue]. wp_next. wp_next.
    destruct (type (current st)) eqn:E; try (by apply wp_throw).
    1-3,4: wp_next; repeat case_decide; wp_done.
    + wp_next. wp_next. wp_done.
    + apply IHo; [done|lia].
    + apply IHl; [done|lia].
  - intros st Hwf Hf. cbn [parseListValue]. wp_next. wp_call IHll. wp_next. wp_done.
  - intros st l Hwf Hf. cbn [list_loop]. wp_next. case_decide; [wp_done|].
    wp_call IHv. wp_next. eapply wp_mono; [apply IHll; [done|tokens]|]. cbn. intros. lia.
  - intros st Hwf Hf. cbn [parseObjectValue]. wp_next. wp_call IHol. wp_next. wp_done.
  - intros st l Hwf Hf. cbn [object_loop]. wp_next. case_decide; [wp_done|].
    wp_next. wp_next. wp_call IHv. wp_next. eapply wp_mono; [apply IHol; [done|tokens]|]. cbn. intros. lia.
Qed.

Lemma parseValue_spec fuel st : wf N st -> 4 * left st + 2 <= fuel -> reads (parseValue stod fuel) st.
Proof. apply values_spec. Qed.

Lemma arguments_loop_spec fuel st l :
  wf N st -> 4 * left st + 1 <= fuel -> reads_some (arguments_loop stod fuel l) st.
Proof.
  revert st l. induction fuel as [|fuel IH]; intros st l Hwf Hf; [lia|]. cbn [arguments_loop].
  wp_next. case_decide; [wp_done|]. wp_next. wp_next. wp_call parseValue_spec. wp_next.
  eapply wp_mono; [apply IH; [done|tokens]|]. cbn. intros. lia.
Qed.

Lemma parseArguments_spec fuel st :
  wf N st -> 4 * left st <= fuel -> reads (parseArguments stod fuel) st.
Proof. intros Hwf Hf. unfold parseArguments. wp_next. wp_call arguments_loop_spec. wp_next. wp_done. Qed.

Lemma parseDirective_spec fuel st :
  wf N st -> 4 * left st <= fuel -> reads (parseDirective stod fuel) st.
Proof.
  intros Hwf Hf. unfold parseDirective. wp_next. wp_next. wp_next.
  case_decide; [wp_call parseArguments_spec|]; wp_done.
Qed.

Lemma parseDirectives_spec fuel st :
  wf N st -> 4 * left st + 1 <= fuel -> reads_some (parseDirectives stod fuel) st.
Proof.
  unfold parseDirectives. generalize (@nil (Directive double)). revert st.
  induction fuel as [|fuel IH]; intros st l Hwf Hf; [lia|]. cbn [directives_loop].
  wp_next. case_decide; [|wp_done]. wp_call parseDirective_spec.
  eapply wp_mono; [apply IH; [done|tokens]|]. cbn. intros. lia.
Qed.

(** Selections that fit below [depth] levels. *)
Abbreviation fits depth l := (fields_depth l + depth <= kMaxDepth).

Lemma selections_spec fuel :
  (forall st d, wf N st -> 4 * left st + 1 <= fuel ->
     wp N (parseSelectionSet stod fuel d) st (fun l st' => left st' < left st /\ fits d l)) /\
  (forall st d l, wf N st -> d < kMaxDepth -> fits d l -> 4 * left st + 3 <= fuel ->
     wp N (selection_loop stod fuel d l) st (fun l st' => left st' <= left st /\ fits d l)) /\
  (forall st d, wf N st -> d < kMaxDepth -> 4 * left st + 2 <= fuel ->
     wp N (parseField stod fuel d) st (fun f st' => left st' < left st /\ fits d [f])) /\
  (forall st d, wf N st -> d < kMaxDepth -> 4 * left st + 2 <= fuel ->
     wp N (parseFragmentSpread stod fuel d) st (fun l st' => left st' < left st /\ fits d l)) /\
  (forall st d, wf N st -> 4 * left st + 2 <= fuel ->
     wp N (parseInlineFragment stod fuel d) st (fun l st' => left st' < left st /\ fits d l)).
Proof.
  induction fuel as [|fuel (IHss & IHl & IHf & IHs & IHi)]; [split_and!; intros; lia|].
  split_and!.
  - intros st d Hwf Hf. cbn [parseSelectionSet]. case_decide; [by apply wp_throw|].
    wp_next. eapply wp_seq; [apply IHl; [done|lia|cbn; lia|lia]|]. cbv beta. intros l st2 Hwf2 [? ?].
    wp_next. apply wp_ret; [done|]. split; [lia|done].
  - intros st d l Hwf Hd Hl Hf. cbn [selection_loop]. wp_next.
    case_decide; [by apply wp_ret|]. case_decide.
    + eapply wp_seq; [by apply IHs; [| |lia]|]. cbv beta. intros l' st2 Hwf2 [? ?].
      eapply wp_mono; [apply IHl; [done|done|rewrite fields_depth_app; lia|lia]|]. cbv beta.
      intros ? ? ? [? ?]. split; [lia|done].
    + eapply wp_seq; [by apply IHf; [| |lia]|]. cbv beta. intros f st2 Hwf2 [? ?].
      eapply wp_mono; [apply IHl; [done|done|rewrite fields_depth_app; lia|lia]|]. cbv beta.
      intros ? ? ? [? ?]. split; [lia|done].
  - intros st d Hwf Hd Hf. cbn [parseField]. wp_next. wp_next.
    eapply wp_seq; [apply (wp_if N _ _ _ _ (fun _ => True)); [done| |done]|].
    { intros _. by apply wp_le, wp_expect. }
    cbv beta. intros tok st3 Hwf3 [? _]. wp_next.
    eapply wp_seq; [apply (wp_when N _ _ _ _ (fun _ => True)); [done| |done]|].
    { intros _. apply wp_le, parseArguments_spec; [done|tokens]. }
    cbv beta. intros args st4 Hwf4 [? _]. wp_call parseDirectives_spec. wp_next.
    eapply wp_seq; [apply (wp_when N _ _ _ _ (fun l => fields_depth l + (d + 1) <= kMaxDepth)); [done| |cbn; lia]|].
    { intros _. eapply wp_mono; [apply IHss; [done|tokens]|]. cbv beta. intros ? ? ? [? ?]. split; [lia|done]. }
    cbv beta. intros sel st5 Hwf5 [? ?]. apply wp_ret; [done|]. split; [tokens|].
    rewrite fields_depth_one. cbn [fselections]. lia.
  - intros st d Hwf Hd Hf. cbn [parseFragmentSpread]. wp_next. wp_next.
    destruct (_ : bool).
    + eapply wp_mono; [apply IHi; [done|tokens]|]. cbv beta. intros ? ? ? [? ?]. split; [tokens|done].
    + wp_next. wp_call parseDirectives_spec. apply wp_ret; [done|]. split; [tokens|]. cbn. lia.
  - intros st d Hwf Hf. cbn [parseInlineFragment]. wp_next.
    eapply wp_seq; [apply (wp_if N _ _ _ _ (fun _ => True)); [done| |done]|].
    { intros _. wp_next. wp_next. apply wp_ret; [done|]. split; [tokens|done]. }
    cbv beta. intros _ st2 Hwf2 [? _]. wp_call parseDirectives_spec.
    eapply wp_mono; [apply IHss; [done|tokens]|]. cbv beta. intros ? ? ? [? ?]. split; [tokens|done].
Qed.

Lemma parseSelectionSet_spec fuel st d :
  wf N st -> 4 * left st + 1 <= fuel ->
  wp N (parseSelectionSet stod fuel d) st (fun l st' => left st' < left st /\ fits d l).
Proof. apply selections_spec. Qed.

Lemma skipTypeReference_spec st : wf N st -> reads skipTypeReference st.
Proof.
  intros Hwf. unfold skipTypeReference. wp_next.
  eapply (wp_seq N _ _ _ (fun _ st' => left st' < left st)).
  - destruct (_ : bool); wp_next; [wp_next|]; wp_done.
  - cbv beta. intros. wp_next. wp_done.
Qed.

Lemma variables_loop_spec fuel st l :
  wf N st -> 4 * left st + 1 <= fuel -> reads_some (variables_loop stod fuel l) st.
Proof.
  revert st l. induction fuel as [|fuel IH]; intros st l Hwf Hf; [lia|]. cbn [variables_loop].
  wp_next. case_decide; [wp_done|]. wp_next. wp_next. wp_next.
  eapply wp_seq; [by apply skipTypeReference_spec|]. cbv beta. intros. wp_next.
  eapply wp_seq; [apply (wp_if N _ _ _ _ (fun _ => True)); [done| |done]|].
  { intros _. wp_call parseValue_spec. apply wp_ret; [done|]. split; [tokens|done]. }
  cbv beta. intros dv st6 Hwf6 [? _]. wp_next.
  eapply wp_mono; [apply IH; [done|tokens]|]. cbv beta. intros. tokens.
Qed.

Lemma parseVariableDefinitions_spec fuel st :
  wf N st -> 4 * left st <= fuel -> reads (parseVariableDefinitions stod fuel) st.
Proof.
  intros Hwf Hf. unfold parseVariableDefinitions. wp_next. wp_call variables_loop_spec. wp_next. wp_done.
Qed.

(** A fragment stored under its name, whose selections are within the limit. *)
Definition fragment_ok (name : bytes) (fr : FragmentDefinition double) : Prop :=
  frname fr = name /\ fits 0 (frselections fr).

Lemma parseFragmentDefinition_spec fuel st :
  wf N st -> 4 * left st <= fuel ->
  wp N (parseFragmentDefinition stod fuel) st (fun fr st' => left st' < left st /\ fragment_ok (frname fr) fr).
Proof.
  intros Hwf Hf. unfold parseFragmentDefinition. wp_next. wp_next. wp_next.
  destruct (_ : bool); [|by eapply wp_bind, wp_throw].
  apply wp_bind, wp_ret; [done|]. intros _. wp_next. wp_next. wp_call parseDirectives_spec.
  eapply wp_seq; [apply parseSelectionSet_spec; [done|tokens]|]. cbv beta. intros sel st7 Hwf7 [? ?].
  apply wp_ret; [done|]. split; [tokens|]. split; [done|]. cbn [frselections]. lia.
Qed.

Lemma fragments_loop_spec fuel st frs :
  wf N st -> 4 * left st + 1 <= fuel -> map_Forall fragment_ok frs ->
  wp N (fragments_loop stod fuel frs) st (fun frs _ => map_Forall fragment_ok frs).
Proof.
  revert st frs. induction fuel as [|fuel IH]; intros st frs Hwf Hf Hfrs; [lia|]. cbn [fragments_loop].
  wp_next. destruct (_ : bool); [|by apply wp_ret].
  eapply wp_seq; [apply parseFragmentDefinition_spec; [done|tokens]|]. cbv beta. intros fr st2 Hwf2 [? ?].
  apply IH; [done|tokens|]. by apply map_Forall_insert_2.
Qed.

Lemma parseOperationDefinition_spec fuel st :
  wf N st -> 4 * left st + 1 <= fuel ->
  wp N (parseOperationDefinition stod fuel) st
    (fun op st' => left st' <= left st /\ fits 0 (oselections op) /\ fragments op = ∅).
Proof.
  intros Hwf Hf. unfold parseOperationDefinition. wp_next. wp_next.
  eapply (wp_seq N _ _ _ (fun _ st' => left st' <= left st)).
  - destruct (type (current st)) eqn:E; try by apply wp_throw.
    + destruct (operation_type _); [|by apply wp_throw]. wp_next. wp_next. wp_next.
      eapply wp_seq; [apply (wp_when N _ _ _ _ (fun _ => True)); [done| |done]|].
      { intros _. wp_next. apply wp_ret; [done|]. split; [tokens|done]. }
      cbv beta. intros name st3 Hwf3 [? _]. wp_next.
      eapply wp_seq; [apply (wp_when N _ _ _ _ (fun _ => True)); [done| |done]|].
      { intros _. apply wp_le, parseVariableDefinitions_spec; [done|tokens]. }
      cbv beta. intros defs st4 Hwf4 [? _]. wp_call parseDirectives_spec. wp_done.
    + wp_done.
  - cbv beta. intros [[[op name] defs] dirs] st2 Hwf2 ?.
    eapply wp_seq; [apply parseSelectionSet_spec; [done|tokens]|]. cbv beta. intros sel st3 Hwf3 [? ?].
    apply wp_ret; [done|]. split_and!; [tokens|done|done].
Qed.

Lemma parseDocument_spec fuel st :
  wf N st -> 4 * left st + 1 <= fuel ->
  wp N (parseDocument stod fuel) st
    (fun op st' => fits 0 (oselections op) /\ map_Forall fragment_ok (fragments op)).
Proof.
  intros Hwf Hf. unfold parseDocument.
  eapply wp_seq; [by apply parseOperationDefinition_spec|]. cbv beta. intros op st2 Hwf2 (? & ? & Hfr).
  eapply wp_seq; [apply fragments_loop_spec; [done|tokens|]|].
  { rewrite Hfr. apply map_Forall_empty. }
  cbv beta. intros frs st3 Hwf3 Hfrs. wp_next. case_decide; [|by apply wp_bind, wp_throw].
  apply wp_bind, wp_ret; [done|]. intros _. by apply wp_ret.
Qed.

End specs.

(** What a result of [tryParse] is worth: an operation, and every fragment under
    its own name, whose fields are nested at most [kMaxDepth] deep, or a message
    that ends with a position in the query. *)
Definition parsed_ok {double} (query : bytes) (r : Operation double + bytes) : Prop :=
  match r with
  | inl op => fields_depth (oselections op) <= kMaxDepth /\
      map_Forall (fun name fr => frname fr = name /\ fields_depth (frselections fr) <= kMaxDepth) (fragments op)
  | inr e => exists m n, e = m ++ str " at position " ++ to_string n /\ n <= length query
  end.

(** Every query is answered, within the fuel. *)
Lemma tryParse_ok {double} (stod : bytes -> option double) (query : bytes) :
  exists r, tryParse stod query = Some r /\ parsed_ok query r.
Proof.
  unfold tryParse, run_parser, bind, advance. cbn [tokenizer].
  assert (Hwf : wf_tokenizer (length query) (mkTokenizer query 0)) by done.
  pose proof (next_spec _ _ Hwf) as Hn. destruct (next _) as [[tok t]|e].
  - destruct Hn as (Ht & Hp & _ & Hcase). cbn in Hcase.
    assert (Hst : wf (length query) (mkP t tok)).
    { split_and!; [done..|]. cbn. intros E. by destruct Hcase as [[_ ?]|[? _]]. }
    assert (Hleft : left (mkP t tok) <= length query).
    { unfold left. cbn. destruct Hcase as [[-> ->]|[? ?]]; [rewrite decide_True by done; cbn; lia|]. rewrite decide_False by done. lia. }
    pose proof (parseDocument_spec stod (length query) (parse_fuel query) (mkP t tok) Hst) as H.
    unfold wp in H. destruct (parseDocument stod (parse_fuel query) (mkP t tok)) as [op st|e|].
    + exists (inl op). split; [done|]. destruct H as (_ & Hsel & Hfr); [unfold parse_fuel; lia|].
      split; [lia|]. eapply map_Forall_impl; [exact Hfr|]. intros k fr [? ?]. split; [done|lia].
    + exists (inr e). split; [done|]. apply H. unfold parse_fuel. lia.
    + destruct H. unfold parse_fuel. lia.
  - by exists (inr e).
Qed.

(** C4: the parser is total and bounded: on every query it returns, with an
    operation or an error; the fields of the operation and of its fragments are
    nested at most twenty deep; and an error names a position in the query. *)
Theorem parse_total {double} (stod : bytes -> option double) (query : bytes) :
  exists r, tryParse stod query = Some r /\ parsed_ok query r.
Proof. apply tryParse_ok. Qed.

(** Queries nested [n] deep. *)
Definition nested_inline (n : nat) : bytes :=
  str "{" ++ concat (repeat (str "... on T {") n) ++ str "a" ++ concat (repeat (str "}") n) ++ str "}".

Definition nested_fields (n : nat) : bytes :=
  str "{" ++ concat (repeat (str "a{") n) ++ str "a" ++ concat (repeat (str "}") n) ++ str "}".

(** The parser rejects [... { }] without a type condition, and the limit on
    nesting, which stops fields twenty deep, does not see inline fragments: a
    query that nests them sixty deep is accepted. *)
Theorem inline_fragments_unlimited :
  tryParse (double := bytes) Some (str "{ ... { a } }")
    = Some (inr (str "Expected fragment name after '...' at position 6")) /\
  tryParse (double := bytes) Some (nested_inline 60)
    = Some (inl (mkOperation Query [] [] [] [mkField (str "a") [] [] [] [] []] ∅)) /\
  tryParse (double := bytes) Some (nested_fields 20)
    = Some (inr (str "Query exceeds maximum nesting depth of 20 at position 40")).
Proof. vm_compute. done. Qed.
