(* ===== verification/GraphqlGrammar.v ===== *)
(** * A grammar for GraphQL documents, and the parser's agreement with it

    A specification of the language that [GraphqlParser] reads, independent of
    the parser: a syntax with its printed form and its meaning as the tree of
    [ast.hpp].  [parse_correct] shows that the parser accepts the printed form of
    every well-formed document and returns its meaning.  Floating-point literals
    are left out of the grammar. *)

From S2P Require Import Prelude StdMap GraphqlParser.

Set Warnings "-register-all".

(** ** Syntax *)

Inductive vexp :=
  | EVar (n : bytes)
  | EStr (s : bytes)
  | EInt (z : Z)
  | EBool (b : bool)
  | ENull
  | EEnum (n : bytes)
  | EList (l : list vexp)
  | EObj (l : list (bytes * vexp)).

Definition args := list (bytes * vexp).

Record dexp := mkD { d_name : bytes; d_args : args }.

Inductive sel :=
  | EField (alias : option bytes) (name : bytes) (a : args) (ds : list dexp) (sels : list sel)
  | ESpread (name : bytes) (ds : list dexp)
  | EInline (cond : bytes) (ds : list dexp) (sels : list sel).

Record vdef := mkVd { vd_name : bytes; vd_type : bytes; vd_nonnull : bool; vd_list : bool; vd_default : option vexp }.

Record fdef := mkFd { fd_name : bytes; fd_cond : bytes; fd_dirs : list dexp; fd_sels : list sel }.

Record doc := mkDoc {
  o_type : OperationType;
  o_name : option bytes;
  o_vars : list vdef;
  o_dirs : list dexp;
  o_sels : list sel;
  o_frags : list fdef;
}.

(** ** Tokens and their printed form *)

Definition tok := (TokenType * bytes)%type.

Definition tname (n : bytes) : tok := (TName, n).
Definition p_dollar : tok := (TDollar, str "$").
Definition p_bang : tok := (TBang, str "!").
Definition p_colon : tok := (TColon, str ":").
Definition p_equals : tok := (TEquals, str "=").
Definition p_at : tok := (TAt, str "@").
Definition p_spread : tok := (TSpread, str "...").
Definition p_lparen : tok := (TLeftParen, str "(").
Definition p_rparen : tok := (TRightParen, str ")").
Definition p_lbrace : tok := (TLeftBrace, str "{").
Definition p_rbrace : tok := (TRightBrace, str "}").
Definition p_lbracket : tok := (TLeftBracket, str "[").
Definition p_rbracket : tok := (TRightBracket, str "]").

(** The decimal form of an integer of at most 64 bits. *)
Definition int_text (z : Z) : bytes := if (z <? 0)%Z then x2d :: to_dec 20 (- z) else to_dec 20 z.

Fixpoint vtoks (e : vexp) : list tok :=
  match e with
  | EVar n => [p_dollar; tname n]
  | EStr s => [(TString, s)]
  | EInt z => [(TInt, int_text z)]
  | EBool b => [tname (if b then str "true" else str "false")]
  | ENull => [tname (str "null")]
  | EEnum n => [tname n]
  | EList l => p_lbracket :: flat_map vtoks l ++ [p_rbracket]
  | EObj l => p_lbrace :: flat_map (fun kv => tname kv.1 :: p_colon :: vtoks kv.2) l ++ [p_rbrace]
  end.

Definition atoks (a : args) : list tok := flat_map (fun kv => tname kv.1 :: p_colon :: vtoks kv.2) a.

Definition paren (a : args) : list tok := match a with [] => [] | _ => p_lparen :: atoks a ++ [p_rparen] end.

Definition dtoks (ds : list dexp) : list tok := flat_map (fun d => p_at :: tname (d_name d) :: paren (d_args d)) ds.

Definition braced_toks (l : list tok) : list tok := p_lbrace :: l ++ [p_rbrace].

Fixpoint stoks (s : sel) : list tok :=
  match s with
  | EField alias name a ds sels =>
      (match alias with Some al => [tname al; p_colon] | None => [] end) ++
      tname name :: paren a ++ dtoks ds ++
      (match sels with [] => [] | _ => braced_toks (flat_map stoks sels) end)
  | ESpread name ds => p_spread :: tname name :: dtoks ds
  | EInline cond ds sels => p_spread :: tname (str "on") :: tname cond :: dtoks ds ++ braced_toks (flat_map stoks sels)
  end.

Definition vdtoks (vd : vdef) : list tok :=
  p_dollar :: tname (vd_name vd) :: p_colon ::
  (if vd_list vd then [p_lbracket; tname (vd_type vd); p_rbracket] else [tname (vd_type vd)]) ++
  (if vd_nonnull vd then [p_bang] else []) ++
  (match vd_default vd with Some e => p_equals :: vtoks e | None => [] end).

Definition fdtoks (fd : fdef) : list tok :=
  tname (str "fragment") :: tname (fd_name fd) :: tname (str "on") :: tname (fd_cond fd) ::
  dtoks (fd_dirs fd) ++ braced_toks (flat_map stoks (fd_sels fd)).

Definition keyword (ty : OperationType) : bytes :=
  match ty with Query => str "query" | Mutation => str "mutation" | Subscription => str "subscription" end.

Definition doctoks (d : doc) : list tok :=
  tname (keyword (o_type d)) ::
  (match o_name d with Some n => [tname n] | None => [] end) ++
  (match o_vars d with [] => [] | vs => p_lparen :: flat_map vdtoks vs ++ [p_rparen] end) ++
  dtoks (o_dirs d) ++ braced_toks (flat_map stoks (o_sels d)) ++ flat_map fdtoks (o_frags d).

(** The text of a string literal: quotes and backslashes are escaped. *)
Definition escape (s : bytes) : bytes :=
  flat_map (fun b => if is_ch b x22 || is_ch b x5c then [x5c; b] else [b]) s.

Definition print_tok (t : tok) : bytes :=
  match t.1 with TString => x22 :: escape t.2 ++ [x22] | _ => t.2 end.

(** Each token is preceded by a space. *)
Definition print_toks (l : list tok) : bytes := flat_map (fun t => x20 :: print_tok t) l.

Definition print (d : doc) : bytes := print_toks (doctoks d).

(** ** Meaning *)

Section meaning.

Context {double : Type}.

Fixpoint veval (e : vexp) : Value double :=
  match e with
  | EVar n => mkValue KVariable (JObject [(str "$variable", JString n)])
  | EStr s => mkValue KString (JString s)
  | EInt z => mkValue KInt (JInt z)
  | EBool b => mkValue KBoolean (JBool b)
  | ENull => mkValue KNull JNull
  | EEnum n => mkValue KEnum (JString n)
  | EList l => mkValue KList (JArray (map (fun e => value (veval e)) l))
  | EObj l => mkValue KObject (JObject (foldl (fun o kv => object_set o kv.1 kv.2) []
                                          (map (fun kv => (kv.1, value (veval kv.2))) l)))
  end.

Definition aeval (a : args) : list (Argument double) := map (fun kv => mkArgument kv.1 (veval kv.2)) a.

Definition deval (d : dexp) : Directive double := mkDirective (d_name d) (aeval (d_args d)).

Fixpoint seval (s : sel) : list (FieldSelection double) :=
  match s with
  | EField alias name a ds sels =>
      [mkField name (default [] alias) [] (aeval a) (map deval ds) (flat_map seval sels)]
  | ESpread name _ => [mkField [] [] name [] [] []]
  | EInline _ _ sels => flat_map seval sels
  end.

Definition vdeval (vd : vdef) : VariableDefinition double :=
  mkVariable (vd_name vd) (vd_type vd) (vd_nonnull vd) (vd_list vd) (veval <$> vd_default vd).

Definition fdeval (fd : fdef) : FragmentDefinition double :=
  mkFragment (fd_name fd) (fd_cond fd) (map deval (fd_dirs fd)) (flat_map seval (fd_sels fd)).

(** A later fragment of the same name replaces an earlier one. *)
Definition meaning (d : doc) : Operation double :=
  mkOperation (o_type d) (default [] (o_name d)) (map vdeval (o_vars d)) (map deval (o_dirs d))
    (flat_map seval (o_sels d))
    (foldl (fun m fd => <[fd_name fd := fdeval fd]> m) ∅ (o_frags d)).

End meaning.

(** ** Well-formed documents *)

Definition is_name (n : bytes) : bool :=
  match n with
  | [] => false
  | b :: n => (isalpha b || is_ch b x5f) && forallb (fun c => isalnum c || is_ch c x5f) n
  end.

Fixpoint wf_v (e : vexp) : bool :=
  match e with
  | EVar n => is_name n
  | EStr _ | EBool _ | ENull => true
  | EInt z => ((- 2 ^ 63 <=? z) && (z <? 2 ^ 63))%Z
  | EEnum n => is_name n && negb (bool_decide (n ∈ [str "true"; str "false"; str "null"]))
  | EList l => forallb wf_v l
  | EObj l => forallb (fun kv => is_name kv.1 && wf_v kv.2) l
  end.

Definition wf_args (a : args) : bool := forallb (fun kv => is_name kv.1 && wf_v kv.2) a.

Definition wf_d (d : dexp) : bool := is_name (d_name d) && wf_args (d_args d).

(** [wf_sel d s]: a selection at nesting depth [d]. *)
Fixpoint wf_sel (d : nat) (s : sel) : bool :=
  match s with
  | EField alias name a ds sels =>
      (match alias with Some al => is_name al | None => true end) && is_name name && wf_args a &&
      forallb wf_d ds &&
      (match sels with [] => true | _ => bool_decide (S d < kMaxDepth) end) && forallb (wf_sel (S d)) sels
  | ESpread name ds => is_name name && negb (bool_decide (name = str "on")) && forallb wf_d ds
  | EInline cond ds sels => is_name cond && forallb wf_d ds && forallb (wf_sel d) sels
  end.

Definition wf_vd (vd : vdef) : bool :=
  is_name (vd_name vd) && is_name (vd_type vd) && match vd_default vd with Some e => wf_v e | None => true end.

Definition wf_fd (fd : fdef) : bool :=
  is_name (fd_name fd) && is_name (fd_cond fd) && forallb wf_d (fd_dirs fd) && forallb (wf_sel 0) (fd_sels fd).

Definition wf_doc (d : doc) : bool :=
  match o_name d with Some n => is_name n | None => true end && forallb wf_vd (o_vars d) &&
  forallb wf_d (o_dirs d) && forallb (wf_sel 0) (o_sels d) && forallb wf_fd (o_frags d).

(** ** The tokenizer reads printed tokens back *)

Definition punct_toks : list tok :=
  [p_dollar; p_bang; p_colon; p_equals; p_at; p_spread; p_lparen; p_rparen; p_lbrace; p_rbrace;
   p_lbracket; p_rbracket].

Definition wf_tok (t : tok) : Prop :=
  (t.1 = TName /\ is_name t.2 = true) \/
  (exists z, t = (TInt, int_text z) /\ (- 2 ^ 63 <= z < 2 ^ 63)%Z) \/
  t.1 = TString \/ t ∈ punct_toks.

(** What follows a token: a space or the end of the input. *)
Definition after (s : bytes) : Prop := s = [] \/ exists s', s = x20 :: s'.

Lemma after_print l : after (print_toks l).
Proof. destruct l as [|t l]; [by left|]. right. by eexists. Qed.

Lemma span_after f s : after s -> f x20 = false -> span f s = 0.
Proof. intros [->|[s' ->]] H; cbn; [done|]. by rewrite H. Qed.

Lemma span_app f s rest :
  forallb f s = true -> after rest -> f x20 = false -> span f (s ++ rest) = length s.
Proof.
  intros Hs Ha Hf. induction s as [|b s IH]; cbn in *; [by apply span_after|].
  apply andb_true_iff in Hs as [-> Hs]. by rewrite IH.
Qed.

Lemma peek_after s rest n : after rest -> n = length s -> peek (s ++ rest) n = x00 \/ peek (s ++ rest) n = x20.
Proof.
  intros Ha ->. unfold peek. rewrite lookup_app_r, Nat.sub_diag by lia.
  destruct Ha as [->|[s' ->]]; cbn; auto.
Qed.

Lemma take_token_app ty x rest pos :
  take_token ty (x ++ rest) pos (length x) = (mkToken ty x pos, mkTokenizer rest (pos + length x)).
Proof. unfold take_token. by rewrite take_app_length, drop_app_length. Qed.

Definition lexed (t : tok) (rest : bytes) (pos : nat) (r : (Token * Tokenizer) + bytes) : Prop :=
  exists p pos', r = inl (mkToken t.1 t.2 p, mkTokenizer rest pos').

Lemma next_skips s pos : next (mkTokenizer (x20 :: s) pos) = next (mkTokenizer s (S pos)).
Proof. reflexivity. Qed.

(** The first character of a token is not skipped. *)
Definition starts (b : byte) : bool := negb (isspace b || is_ch b x2c || is_ch b x23).

Lemma skip_starts b s pos : starts b = true -> skipIgnored false (b :: s) pos = mkTokenizer (b :: s) pos.
Proof. unfold starts. cbn. destruct (isspace b || is_ch b x2c), (is_ch b x23); done. Qed.

Lemma name_starts b : isalpha b || is_ch b x5f = true -> starts b = true.
Proof. destruct b; vm_compute; done. Qed.

Lemma next_name n rest pos : is_name n = true -> after rest -> lexed (tname n) rest pos (next (mkTokenizer (n ++ rest) pos)).
Proof.
  intros Hn Ha. destruct n as [|b n]; [done|]. cbn in Hn. apply andb_true_iff in Hn as [Hb Hn].
  unfold next. cbn [input at_position app]. rewrite skip_starts by by apply name_starts.
  cbn [input at_position]. rewrite Hb. unfold readName.
  change (drop 1 (b :: n ++ rest)) with (n ++ rest).
  rewrite span_app by done. rewrite app_comm_cons.
  replace (1 + length n) with (length (b :: n)) by done. rewrite take_token_app. by eexists _, _.
Qed.

Lemma digit_props b : is_digit b = true ->
  starts b = true /\ isalpha b || is_ch b x5f = false /\ isdigit b = true /\ is_ch b x2d = false.
Proof. destruct b; vm_compute; done. Qed.

Lemma digits_forallb ds : Forall (fun b => is_digit b = true) ds -> forallb isdigit ds = true.
Proof. induction 1 as [|b ds Hb _ IH]; cbn; [done|]. rewrite IH. by destruct (digit_props b Hb) as (_ & _ & -> & _). Qed.

Lemma readNumber_int (neg : bool) ds rest pos :
  ds <> [] -> Forall (fun b => is_digit b = true) ds -> after rest ->
  readNumber ((if neg then [x2d] else []) ++ ds ++ rest) pos
  = (mkToken TInt ((if neg then [x2d] else []) ++ ds) pos,
     mkTokenizer rest (pos + length ((if neg then [x2d] else []) ++ ds))).
Proof.
  intros Hne Hd Ha. set (sg := if neg then [x2d] else []). unfold readNumber.
  assert (Hn0 : (if is_ch (peek (sg ++ ds ++ rest) 0) x2d then 1 else 0) = length sg).
  { subst sg. destruct neg; [done|]. destruct ds as [|b ds]; [done|]. cbn.
    apply Forall_cons in Hd as [Hb _]. by destruct (digit_props b Hb) as (_ & _ & _ & ->). }
  rewrite Hn0, drop_app_length, span_app by (by apply digits_forallb || done).
  rewrite <- length_app, app_assoc.
  assert (Hp : forall n, n = length (sg ++ ds) ->
    is_ch (peek ((sg ++ ds) ++ rest) n) x2e = false /\
    is_ch (peek ((sg ++ ds) ++ rest) n) x65 || is_ch (peek ((sg ++ ds) ++ rest) n) x45 = false).
  { intros n Hn. by destruct (peek_after (sg ++ ds) rest n Ha Hn) as [-> | ->]. }
  destruct (Hp _ eq_refl) as [-> He]. cbn [andb]. cbv iota beta. rewrite He. cbv iota beta. apply take_token_app.
Qed.

Lemma next_int z rest pos :
  (- 2 ^ 63 <= z < 2 ^ 63)%Z -> after rest -> lexed (TInt, int_text z) rest pos (next (mkTokenizer (int_text z ++ rest) pos)).
Proof.
  intros Hz Ha. set (neg := (z <? 0)%Z). set (ds := to_dec 20 (if neg then - z else z)).
  assert (Hd : Forall (fun b => is_digit b = true) ds).
  { apply to_dec_digits. subst neg. destruct (Z.ltb_spec z 0); lia. }
  assert (Hne : ds <> []) by by apply to_dec_nonempty.
  replace (int_text z) with ((if neg then [x2d] else []) ++ ds)
    by (unfold int_text; fold neg; subst ds; by destruct neg).
  pose proof (readNumber_int neg ds rest pos Hne Hd Ha) as Hr.
  destruct ds as [|b ds]; [done|]. pose proof (Forall_inv Hd) as Hb. cbn beta in Hb.
  destruct (digit_props b Hb) as (Hs & Ha' & Hdig & _). rewrite <- app_assoc.
  unfold next. cbn [input at_position]. destruct neg; cbn [app] in *.
  - rewrite skip_starts by done. cbn [input at_position]. cbn -[readNumber isdigit]. rewrite Hdig. cbn -[readNumber].
    rewrite Hr. by eexists _, _.
  - rewrite skip_starts by done. cbn [input at_position]. rewrite Ha', Hdig. cbn [orb]. rewrite Hr. by eexists _, _.
Qed.

Lemma escape_cons b s : escape (b :: s) = (if is_ch b x22 || is_ch b x5c then [x5c; b] else [b]) ++ escape s.
Proof. done. Qed.

Lemma readString_escape s rest pos start acc :
  exists pos', readString (escape s ++ x22 :: rest) pos start acc
               = inl (mkToken TString (acc ++ s) start, mkTokenizer rest pos').
Proof.
  revert pos acc. induction s as [|b s IH]; intros pos acc.
  { cbn. rewrite app_nil_r. by eexists. }
  rewrite escape_cons. destruct (is_ch b x22 || is_ch b x5c) eqn:E; cbn -[is_ch escape].
  - replace (unescape b) with b by by apply orb_true_iff in E as [->%is_ch_true| ->%is_ch_true].
    change (is_ch x5c x22) with false. change (is_ch x5c x5c) with true. cbv iota.
    destruct (IH (S (S pos)) (acc ++ [b])) as [pos' ->]. exists pos'. by rewrite <- app_assoc.
  - apply orb_false_iff in E as [-> ->].
    destruct (IH (S pos) (acc ++ [b])) as [pos' ->]. exists pos'. by rewrite <- app_assoc.
Qed.

Lemma next_string s rest pos : lexed (TString, s) rest pos (next (mkTokenizer (x22 :: escape s ++ x22 :: rest) pos)).
Proof.
  unfold next. cbn [input at_position]. rewrite skip_starts by done. cbn -[readString].
  destruct (readString_escape s rest (S pos) pos []) as [pos' ->]. by eexists _, _.
Qed.

Lemma next_punct t rest pos : t ∈ punct_toks -> lexed t rest pos (next (mkTokenizer (print_tok t ++ rest) pos)).
Proof.
  intros Ht. unfold punct_toks in Ht. rewrite !elem_of_cons, elem_of_nil in Ht.
  repeat destruct Ht as [->|Ht]; try done; by eexists _, _.
Qed.

Lemma next_print t rest pos :
  wf_tok t -> after rest -> lexed t rest pos (next (mkTokenizer (x20 :: print_tok t ++ rest) pos)).
Proof.
  intros Ht Ha. rewrite next_skips. destruct Ht as [[Hty Hn]|[(z & -> & Hz)|[Hty|Hp]]].
  - destruct t as [ty n]. cbn in Hty, Hn. subst ty. by apply next_name.
  - by apply next_int.
  - destruct t as [ty s]. cbn in Hty. subst ty. unfold print_tok. cbn -[next escape].
    rewrite <- app_assoc. apply next_string.
  - by apply next_punct.
Qed.

(** ** The parser on a sequence of tokens *)

(** The parser's state when the tokens [l] are left. *)
Inductive at_tokens : pstate -> list tok -> Prop :=
  | at_end st : type (current st) = TEnd -> at_tokens st []
  | at_token st ty x l st' :
      type (current st) = ty -> text (current st) = x -> ty <> TEnd -> ty <> TComma ->
      advance st = Ret tt st' -> at_tokens st' l -> at_tokens st ((ty, x) :: l).

Lemma wf_tok_type t : wf_tok t -> t.1 <> TEnd /\ t.1 <> TComma.
Proof.
  intros [[-> _]|[(z & -> & _)|[-> |Hp]]]; [done..|].
  unfold punct_toks in Hp. rewrite !elem_of_cons, elem_of_nil in Hp.
  repeat destruct Hp as [->|Hp]; done.
Qed.

Lemma at_print l t0 pos :
  Forall wf_tok l -> exists st, advance (mkP (mkTokenizer (print_toks l) pos) t0) = Ret tt st /\ at_tokens st l.
Proof.
  intros Hl. revert t0 pos. induction Hl as [|t l Ht _ IH]; intros t0 pos.
  - eexists. split; [reflexivity|]. by constructor.
  - destruct (next_print t (print_toks l) pos Ht (after_print l)) as (p & pos' & Hn).
    change (print_toks (t :: l)) with (x20 :: print_tok t ++ print_toks l).
    eexists. split; [unfold advance; cbn [tokenizer]; by rewrite Hn|].
    destruct t as [ty x], (wf_tok_type _ Ht) as [? ?].
    destruct (IH (mkToken ty x p) pos') as (st' & Hadv & Hat).
    econstructor; [done..|exact Hadv|exact Hat].
Qed.

Definition head_type (l : list tok) : TokenType := match l with [] => TEnd | t :: _ => t.1 end.
Definition head_text (l : list tok) : bytes := match l with [] => [] | t :: _ => t.2 end.

Lemma at_head st l : at_tokens st l -> type (current st) = head_type l.
Proof. by destruct 1. Qed.

Lemma at_head_text st l : at_tokens st l -> l <> [] -> text (current st) = head_text l.
Proof. by destruct 1. Qed.

Lemma at_not_comma st l : at_tokens st l -> head_type l <> TComma.
Proof. by destruct 1. Qed.

(** [gives m l a l']: on the tokens [l], [m] returns [a] and leaves [l']. *)
Definition gives {A} (m : M A) (l : list tok) (a : A) (l' : list tok) : Prop :=
  forall st, at_tokens st l -> exists st', m st = Ret a st' /\ at_tokens st' l'.

Lemma gives_ret {A} (a : A) l : gives (ret a) l a l.
Proof. intros st Hst. by exists st. Qed.

Lemma gives_bind {A B} (m : M A) (f : A -> M B) l a l1 b l2 :
  gives m l a l1 -> gives (f a) l1 b l2 -> gives (bind m f) l b l2.
Proof.
  intros Hm Hf st Hst. destruct (Hm st Hst) as (st1 & E & Hst1). unfold bind. rewrite E. by apply Hf.
Qed.

Lemma gives_advance t l : gives advance (t :: l) tt l.
Proof. intros st Hst. inversion Hst; subst. by eexists. Qed.

Lemma gives_expect {B} ty x msg (f : Token -> M B) l b l' :
  (forall tok, text tok = x -> gives (f tok) l b l') ->
  gives (bind (expect ty msg) f) ((ty, x) :: l) b l'.
Proof.
  intros Hf st Hst. inversion Hst as [|? ? ? ? st1 Hty Hx ? ? Hadv Hst1]; subst.
  unfold bind at 1, expect. rewrite decide_True by done. unfold bind, ret. rewrite Hadv. by apply Hf.
Qed.

Lemma gives_cur_type {B} (f : TokenType -> M B) l b l' :
  gives (f (head_type l)) l b l' -> gives (bind cur_type f) l b l'.
Proof. intros Hf st Hst. unfold bind, cur_type. rewrite (at_head _ _ Hst). by apply Hf. Qed.

Lemma gives_cur_text {B} (f : bytes -> M B) t l b l' :
  gives (f t.2) (t :: l) b l' -> gives (bind cur_text f) (t :: l) b l'.
Proof. intros Hf st Hst. unfold bind, cur_text. rewrite (at_head_text _ _ Hst) by done. by apply Hf. Qed.

Lemma gives_accept {B} ty (f : bool -> M B) x l b l' :
  gives (f true) l b l' -> gives (bind (accept ty) f) ((ty, x) :: l) b l'.
Proof.
  intros Hf st Hst. inversion Hst as [|? ? ? ? st1 Hty Hx ? ? Hadv Hst1]; subst.
  unfold bind at 1, accept. rewrite decide_True by done. unfold bind, ret. rewrite Hadv. by apply Hf.
Qed.

Lemma gives_accept_not {B} ty (f : bool -> M B) l b l' :
  head_type l <> ty -> gives (f false) l b l' -> gives (bind (accept ty) f) l b l'.
Proof.
  intros Hne Hf st Hst. unfold bind, accept. rewrite (at_head _ _ Hst), decide_False by done. by apply Hf.
Qed.

Lemma gives_comma {B} (f : bool -> M B) l b l' :
  gives (f false) l b l' -> gives (bind (accept TComma) f) l b l'.
Proof.
  intros Hf st Hst. pose proof (at_not_comma _ _ Hst).
  unfold bind, accept. rewrite (at_head _ _ Hst), decide_False by done. by apply Hf.
Qed.

Lemma gives_isName {B} n (f : bool -> M B) t l b l' :
  gives (f (bool_decide (t.1 = TName /\ t.2 = n))) (t :: l) b l' -> gives (bind (isName n) f) (t :: l) b l'.
Proof.
  intros Hf st Hst. unfold bind, isName.
  rewrite (at_head _ _ Hst), (at_head_text _ _ Hst) by done. by apply Hf.
Qed.

(** ** Values *)

Section parsing.

Context {double : Type} (stod : bytes -> option double).

Lemma stoll_int_text z : (- 2 ^ 63 <= z < 2 ^ 63)%Z -> stoll (int_text z) = Some z.
Proof.
  intros Hz. unfold stoll, int_text.
  destruct (Z.ltb_spec z 0).
  - cbn [is_ch]. rewrite (proj2 (is_ch_true x2d x2d) eq_refl). rewrite of_to_dec by (cbn; lia).
    rewrite Z.opp_involutive. destruct (Z.leb_spec (- 2 ^ 63) z), (Z.ltb_spec z (2 ^ 63)); lia || done.
  - pose proof (to_dec_digits 20 z ltac:(lia)) as Hd. pose proof (to_dec_nonempty 20 z ltac:(done)) as Hne.
    pose proof (of_to_dec 20 z ltac:(cbn; lia)) as Hv. destruct (to_dec 20 z) as [|b ds]; [done|].
    destruct (digit_props b (Forall_inv Hd)) as (_ & _ & _ & ->). rewrite Hv.
    destruct (Z.leb_spec (- 2 ^ 63) z), (Z.ltb_spec z (2 ^ 63)); lia || done.
Qed.

Lemma vtoks_head e l :
  vtoks e <> [] /\ head_type (vtoks e ++ l) <> TRightBracket /\ head_type (vtoks e ++ l) <> TRightBrace /\
  head_type (vtoks e ++ l) <> TRightParen.
Proof. by destruct e. Qed.

Definition entries (l : list (bytes * vexp)) : list (bytes * json double) :=
  map (fun kv => (kv.1, value (veval kv.2))) l.

Lemma values_parse fuel :
  (forall e rest, wf_v e = true -> 4 * length (vtoks e ++ rest) + 2 <= fuel ->
     gives (parseValue stod fuel) (vtoks e ++ rest) (veval e) rest) /\
  (forall l rest, wf_v (EList l) = true -> 4 * length (vtoks (EList l) ++ rest) + 1 <= fuel ->
     gives (parseListValue stod fuel) (vtoks (EList l) ++ rest) (veval (EList l)) rest) /\
  (forall l acc rest, forallb wf_v l = true -> 4 * length (flat_map vtoks l ++ p_rbracket :: rest) + 3 <= fuel ->
     gives (list_loop stod fuel acc) (flat_map vtoks l ++ p_rbracket :: rest)
       (acc ++ map (fun e => value (veval e)) l) (p_rbracket :: rest)) /\
  (forall l rest, wf_v (EObj l) = true -> 4 * length (vtoks (EObj l) ++ rest) + 1 <= fuel ->
     gives (parseObjectValue stod fuel) (vtoks (EObj l) ++ rest) (veval (EObj l)) rest) /\
  (forall l acc rest, wf_args l = true -> 4 * length (atoks l ++ p_rbrace :: rest) + 3 <= fuel ->
     gives (object_loop stod fuel acc) (atoks l ++ p_rbrace :: rest)
       (foldl (fun o kv => object_set o kv.1 kv.2) acc (entries l)) (p_rbrace :: rest)).
Proof.
  induction fuel as [|fuel (IHv & IHL & IHl & IHO & IHo)]; [split_and!; intros; lia|]. split_and!.
  - intros e rest He Hf. cbn [parseValue]. apply gives_cur_type.
    destruct e as [n|s|z|b| |n|l|l]; cbn [vtoks app head_type fst] in *; apply gives_cur_text; cbn [snd].
    + eapply gives_bind; [apply gives_advance|]. apply gives_expect. intros tok ->. apply gives_ret.
    + eapply gives_bind; [apply gives_advance|]. apply gives_ret.
    + eapply gives_bind; [apply gives_advance|]. rewrite stoll_int_text by (cbn in He; lia). apply gives_ret.
    + eapply gives_bind; [apply gives_advance|]. destruct b; apply gives_ret.
    + eapply gives_bind; [apply gives_advance|]. apply gives_ret.
    + eapply gives_bind; [apply gives_advance|]. cbn in He. apply andb_true_iff in He as [_ He].
      apply negb_true_iff, bool_decide_eq_false in He. rewrite !not_elem_of_cons in He.
      destruct He as (? & ? & ? & _). rewrite !decide_False by done. apply gives_ret.
    + apply (IHL l rest He). cbn [vtoks app length] in *. lia.
    + apply (IHO l rest He). cbn [vtoks app length] in *. lia.
  - intros l rest Hl Hf. cbn [parseListValue vtoks app] in *. apply gives_expect. intros _ _.
    rewrite <- app_assoc in *. cbn [app length] in *.
    eapply gives_bind; [apply (IHl l [] rest Hl); lia|]. apply gives_expect. intros _ _. apply gives_ret.
  - intros l acc rest Hl Hf. cbn [list_loop]. apply gives_cur_type.
    destruct l as [|e l]; cbn [flat_map map app] in *.
    + rewrite app_nil_r. apply gives_ret.
    + cbn [forallb] in Hl. apply andb_true_iff in Hl as [He Hl]. rewrite <- app_assoc in *.
      destruct (vtoks_head e (flat_map vtoks l ++ p_rbracket :: rest)) as (Hne & Hh & _).
      rewrite decide_False by done.
      assert (length (vtoks e) <> 0) by by destruct (vtoks e). rewrite length_app in Hf.
      eapply gives_bind; [apply IHv; [done|rewrite length_app; lia]|]. apply gives_comma.
      specialize (IHl l (acc ++ [value (veval e)]) rest Hl ltac:(lia)). by rewrite <- app_assoc in IHl.
  - intros l rest Hl Hf. cbn [parseObjectValue vtoks app] in *. apply gives_expect. intros _ _.
    rewrite <- app_assoc in *. cbn [app length] in *.
    eapply gives_bind; [apply (IHo l [] rest Hl); unfold atoks; lia|].
    apply gives_expect. intros _ _. apply gives_ret.
  - intros l acc rest Hl Hf. cbn [object_loop]. apply gives_cur_type.
    destruct l as [|[k e] l]; cbn [atoks flat_map map app fst snd entries foldl head_type] in *.
    + apply gives_ret.
    + cbn [wf_args forallb fst snd] in Hl. apply andb_true_iff in Hl as [[_ He]%andb_true_iff Hl].
      rewrite <- app_assoc in *. cbn [length] in Hf.
      rewrite decide_False by done.
      apply gives_expect. intros tok ->. apply gives_expect. intros _ _. rewrite length_app in Hf.
      eapply gives_bind; [apply IHv; [done|rewrite length_app; lia]|]. apply gives_comma.
      apply IHo; [done|]. unfold atoks. lia.
Qed.

Lemma parseValue_parse fuel e rest :
  wf_v e = true -> 4 * length (vtoks e ++ rest) + 2 <= fuel ->
  gives (parseValue stod fuel) (vtoks e ++ rest) (veval e) rest.
Proof. apply values_parse. Qed.

(** ** Arguments and directives *)

Lemma arguments_parse fuel a acc rest :
  wf_args a = true -> 4 * length (atoks a ++ p_rparen :: rest) + 1 <= fuel ->
  gives (arguments_loop stod fuel acc) (atoks a ++ p_rparen :: rest) (acc ++ aeval a) (p_rparen :: rest).
Proof.
  revert a acc. induction fuel as [|fuel IH]; intros a acc Ha Hf; [lia|].
  cbn [arguments_loop]. apply gives_cur_type.
  destruct a as [|[k e] a]; cbn [atoks flat_map app fst snd aeval map head_type] in *.
  - rewrite app_nil_r. apply gives_ret.
  - cbn [wf_args forallb fst snd] in Ha. apply andb_true_iff in Ha as [[_ He]%andb_true_iff Ha].
    rewrite <- app_assoc in *. cbn [length] in Hf. rewrite decide_False by done.
    apply gives_expect. intros tok ->. apply gives_expect. intros _ _. rewrite length_app in Hf.
    eapply gives_bind; [apply parseValue_parse; [done|rewrite length_app; lia]|]. apply gives_comma.
    specialize (IH a (acc ++ [mkArgument k (veval e)]) Ha ltac:(unfold atoks; lia)).
    by rewrite <- app_assoc in IH.
Qed.

Lemma parseArguments_parse fuel a rest :
  wf_args a = true -> 4 * length (p_lparen :: atoks a ++ p_rparen :: rest) <= fuel ->
  gives (parseArguments stod fuel) (p_lparen :: atoks a ++ p_rparen :: rest) (aeval a) rest.
Proof.
  intros Ha Hf. unfold parseArguments. apply gives_expect. intros _ _. cbn [length] in Hf.
  eapply gives_bind; [apply (arguments_parse fuel a [] rest Ha); lia|].
  apply gives_expect. intros _ _. apply gives_ret.
Qed.

(** Arguments that may be missing. *)
Lemma paren_parse fuel a rest :
  wf_args a = true -> head_type rest <> TLeftParen -> 4 * length (paren a ++ rest) <= fuel ->
  gives (if decide (head_type (paren a ++ rest) = TLeftParen) then parseArguments stod fuel else ret [])
        (paren a ++ rest) (aeval a) rest.
Proof.
  intros Ha Hh Hf. destruct a as [|kv a]; cbn [paren app] in *.
  - rewrite decide_False by done. apply gives_ret.
  - rewrite decide_True by done. rewrite <- app_assoc in *. cbn [app] in *. by apply parseArguments_parse.
Qed.

Lemma paren_head a rest ty :
  head_type rest <> ty -> TLeftParen <> ty -> head_type (paren a ++ rest) <> ty.
Proof. by destruct a. Qed.

Lemma dtoks_head ds rest ty : head_type rest <> ty -> TAt <> ty -> head_type (dtoks ds ++ rest) <> ty.
Proof. by destruct ds. Qed.

Lemma parseDirective_parse fuel d rest :
  wf_d d = true -> head_type rest <> TLeftParen ->
  4 * length (p_at :: tname (d_name d) :: paren (d_args d) ++ rest) <= fuel ->
  gives (parseDirective stod fuel) (p_at :: tname (d_name d) :: paren (d_args d) ++ rest) (deval d) rest.
Proof.
  intros Hd Hh Hf. apply andb_true_iff in Hd as [_ Ha]. cbn [length] in Hf.
  unfold parseDirective. apply gives_expect. intros _ _. apply gives_expect. intros tok ->.
  apply gives_cur_type. pose proof (paren_parse fuel (d_args d) rest Ha Hh ltac:(lia)) as H.
  unfold deval. case_decide; [|].
  - eapply gives_bind; [exact H|]. apply gives_ret.
  - destruct (d_args d); [|done]. apply gives_ret.
Qed.

Lemma directives_parse fuel ds acc rest :
  forallb wf_d ds = true -> head_type rest <> TAt -> head_type rest <> TLeftParen ->
  4 * length (dtoks ds ++ rest) + 1 <= fuel ->
  gives (directives_loop stod fuel acc) (dtoks ds ++ rest) (acc ++ map deval ds) rest.
Proof.
  intros Hds Hat Hp. revert ds acc Hds. induction fuel as [|fuel IH]; intros ds acc Hds Hf; [lia|].
  cbn [directives_loop]. apply gives_cur_type. destruct ds as [|d ds].
  - cbn [dtoks flat_map app map]. rewrite decide_False, app_nil_r by done. apply gives_ret.
  - cbn [dtoks flat_map app map forallb head_type fst] in *. rewrite decide_True by done.
    apply andb_true_iff in Hds as [Hd Hds]. rewrite <- app_assoc in *. fold (dtoks ds) in *.
    cbn [length] in Hf.
    eapply gives_bind; [apply parseDirective_parse; [done|by apply dtoks_head|cbn [length]; lia]|].
    rewrite length_app in Hf.
    specialize (IH ds (acc ++ [deval d]) Hds ltac:(lia)). by rewrite <- app_assoc in IH.
Qed.

Lemma parseDirectives_parse fuel ds rest :
  forallb wf_d ds = true -> head_type rest <> TAt -> head_type rest <> TLeftParen ->
  4 * length (dtoks ds ++ rest) + 1 <= fuel ->
  gives (parseDirectives stod fuel) (dtoks ds ++ rest) (map deval ds) rest.
Proof. intros. by apply (directives_parse fuel ds [] rest). Qed.

(** ** Selections *)

(** What may follow a selection. *)
Definition follow (l : list tok) : Prop :=
  head_type l <> TLeftParen /\ head_type l <> TAt /\ head_type l <> TLeftBrace /\ head_type l <> TColon.

Lemma follow_sels sels rest : follow (flat_map stoks sels ++ p_rbrace :: rest).
Proof.
  destruct sels as [|s sels]; [by split_and!|].
  destruct s as [[al|] name a ds ss|name ds|cond ds ss]; by split_and!.
Qed.

Definition opt_braces (sels : list sel) : list tok :=
  match sels with [] => [] | _ => braced_toks (flat_map stoks sels) end.

Lemma opt_braces_head sels rest ty :
  head_type rest <> ty -> TLeftBrace <> ty -> head_type (opt_braces sels ++ rest) <> ty.
Proof. by destruct sels. Qed.

Definition alias_toks (alias : option bytes) : list tok :=
  match alias with Some al => [tname al; p_colon] | None => [] end.

(** The statements proved together by induction on the fuel. *)
Definition set_parses (fuel : nat) : Prop := forall sels d rest,
  d < kMaxDepth -> forallb (wf_sel d) sels = true ->
  4 * length (braced_toks (flat_map stoks sels) ++ rest) + 1 <= fuel ->
  gives (parseSelectionSet stod fuel d) (braced_toks (flat_map stoks sels) ++ rest) (flat_map seval sels) rest.

Definition loop_parses (fuel : nat) : Prop := forall sels acc d rest,
  d < kMaxDepth -> forallb (wf_sel d) sels = true ->
  4 * length (flat_map stoks sels ++ p_rbrace :: rest) + 3 <= fuel ->
  gives (selection_loop stod fuel d acc) (flat_map stoks sels ++ p_rbrace :: rest)
    (acc ++ flat_map seval sels) (p_rbrace :: rest).

Definition field_parses (fuel : nat) : Prop := forall alias name a ds sels d rest,
  wf_sel d (EField alias name a ds sels) = true -> follow rest ->
  4 * length (stoks (EField alias name a ds sels) ++ rest) + 2 <= fuel ->
  gives (parseField stod fuel d) (stoks (EField alias name a ds sels) ++ rest)
    (mkField name (default [] alias) [] (aeval a) (map deval ds) (flat_map seval sels)) rest.

Definition inline_parses (fuel : nat) : Prop := forall cond ds sels d rest,
  d < kMaxDepth -> forallb wf_d ds = true -> forallb (wf_sel d) sels = true ->
  4 * length (tname (str "on") :: tname cond :: dtoks ds ++ braced_toks (flat_map stoks sels) ++ rest) + 2 <= fuel ->
  gives (parseInlineFragment stod fuel d)
    (tname (str "on") :: tname cond :: dtoks ds ++ braced_toks (flat_map stoks sels) ++ rest)
    (flat_map seval sels) rest.

Definition spread_parses (fuel : nat) : Prop := forall s d rest,
  d < kMaxDepth -> wf_sel d s = true -> head_type (stoks s) = TSpread -> follow rest ->
  4 * length (stoks s ++ rest) + 2 <= fuel ->
  gives (parseFragmentSpread stod fuel d) (stoks s ++ rest) (seval s) rest.

Lemma set_step fuel : loop_parses fuel -> set_parses (S fuel).
Proof.
  intros IHl sels d rest Hd Hs Hf. cbn [parseSelectionSet]. rewrite decide_False by lia.
  unfold braced_toks in *. cbn [app length] in *. rewrite <- app_assoc in *. cbn [app] in *.
  apply gives_expect. intros _ _.
  eapply gives_bind; [apply (IHl sels [] d rest Hd Hs); lia|]. apply gives_expect. intros _ _. apply gives_ret.
Qed.

Lemma field_step fuel : set_parses fuel -> field_parses (S fuel).
Proof.
  intros IHs alias name a ds sels d rest Hwf (Hp & Hat & Hb & Hc) Hf. cbn [parseField].
  cbn [wf_sel] in Hwf. apply andb_true_iff in Hwf as [[[[[_ _]%andb_true_iff Ha]%andb_true_iff Hds]%andb_true_iff
    Hdepth]%andb_true_iff Hsels].
  cbn [stoks] in *. fold (alias_toks alias) in *. fold (opt_braces sels) in *.
  assert (Hlen : 4 * length (paren a ++ dtoks ds ++ opt_braces sels ++ rest) + 1 <= fuel).
  { rewrite !length_app in *. cbn [length] in Hf. rewrite !length_app in Hf. lia. }
  rewrite <- !app_assoc. cbn [app]. rewrite <- !app_assoc.
  enough (H : forall fieldName tok (c : bool), text tok = name -> (if c then text fieldName else []) = default [] alias ->
    gives (bind cur_type (fun ty =>
      bind (if decide (ty = TLeftParen) then parseArguments stod fuel else ret []) (fun arguments =>
      bind (parseDirectives stod fuel) (fun directives =>
      bind cur_type (fun ty =>
      bind (if decide (ty = TLeftBrace) then parseSelectionSet stod fuel (d + 1) else ret []) (fun selections =>
      ret (mkField (text tok) (if c then text fieldName else []) [] arguments directives selections)))))))
      (paren a ++ dtoks ds ++ opt_braces sels ++ rest)
      (mkField name (default [] alias) [] (aeval a) (map deval ds) (flat_map seval sels)) rest).
  - destruct alias as [al|]; cbn [alias_toks app].
    + apply gives_expect. intros fn Hfn. apply gives_accept. cbv iota. apply gives_expect. intros tok Htok.
      by apply (H fn tok true).
    + apply gives_expect. intros fn Hfn. apply gives_accept_not.
      { apply paren_head; [apply dtoks_head; [apply opt_braces_head|]|]; done. }
      cbv iota. eapply gives_bind; [apply gives_ret|]. by apply (H fn fn false).
  - intros fn tok c -> ->. apply gives_cur_type.
    eapply gives_bind; [apply paren_parse; [done|apply dtoks_head; [apply opt_braces_head|]; done|lia]|].
    rewrite length_app in Hlen.
    eapply gives_bind; [apply parseDirectives_parse; [done|by apply opt_braces_head..|lia]|].
    apply gives_cur_type. rewrite length_app in Hlen. destruct sels as [|s sels].
    + cbn [opt_braces app]. rewrite decide_False by done. eapply gives_bind; [apply gives_ret|]. apply gives_ret.
    + cbn [opt_braces] in *. apply bool_decide_eq_true in Hdepth. rewrite Nat.add_1_r.
      rewrite decide_True by done. eapply gives_bind; [apply IHs; [done|done|lia]|]. apply gives_ret.
Qed.

Lemma inline_step fuel : set_parses fuel -> inline_parses (S fuel).
Proof.
  intros IHs cond ds sels d rest Hd Hds Hsels Hf. cbn [parseInlineFragment]. cbn [length] in Hf.
  apply gives_isName. rewrite bool_decide_eq_true_2 by done.
  eapply gives_bind; [eapply gives_bind; [apply gives_advance|]; apply gives_expect; intros _ _; apply gives_ret|].
  eapply gives_bind; [apply parseDirectives_parse; [done|done|done|lia]|].
  rewrite length_app in Hf. apply IHs; [done|done|lia].
Qed.

Lemma spread_step fuel : inline_parses fuel -> spread_parses (S fuel).
Proof.
  intros IHi s d rest Hd Hwf Hh (Hp & Hat & Hb & Hc) Hf. cbn [parseFragmentSpread].
  destruct s as [[al|] name a ds sels|name ds|cond ds sels]; try done; cbn [stoks app seval length] in *.
  - cbn [wf_sel] in Hwf. apply andb_true_iff in Hwf as [[_ Hon]%andb_true_iff Hds].
    apply negb_true_iff, bool_decide_eq_false in Hon.
    apply gives_expect. intros _ _. apply gives_isName. rewrite bool_decide_eq_false_2 by (by intros [_ ?]).
    apply gives_expect. intros tok ->. eapply gives_bind; [apply parseDirectives_parse; [done|done|done|lia]|].
    apply gives_ret.
  - cbn [wf_sel] in Hwf. apply andb_true_iff in Hwf as [[_ Hds]%andb_true_iff Hsels].
    apply gives_expect. intros _ _. apply gives_isName. rewrite bool_decide_eq_true_2 by done.
    rewrite <- app_assoc in *. apply IHi; [done|done|done|]. cbn [length]. lia.
Qed.

Lemma loop_step fuel : loop_parses fuel -> field_parses fuel -> spread_parses fuel -> loop_parses (S fuel).
Proof.
  intros IHl IHf IHs sels acc d rest Hd Hsels Hf. cbn [selection_loop]. apply gives_cur_type.
  destruct sels as [|s sels]; cbn [flat_map app] in *.
  { rewrite app_nil_r. apply gives_ret. }
  cbn [forallb] in Hsels. apply andb_true_iff in Hsels as [Hs Hsels]. rewrite <- app_assoc in *.
  assert (Hne : length (stoks s) <> 0) by by destruct s as [[al|] name a ds ss|name ds|cond ds ss].
  pose proof (follow_sels sels rest) as Hfollow. rewrite length_app in Hf.
  assert (Hnext : gives (selection_loop stod fuel d (acc ++ seval s)) (flat_map stoks sels ++ p_rbrace :: rest)
    (acc ++ seval s ++ flat_map seval sels) (p_rbrace :: rest)).
  { rewrite app_assoc. apply IHl; [done|done|lia]. }
  destruct (decide (head_type (stoks s) = TSpread)) as [Hsp|Hsp].
  - assert (Hh : head_type (stoks s ++ flat_map stoks sels ++ p_rbrace :: rest) = TSpread)
      by by destruct s as [[al|] name a ds ss|name ds|cond ds ss].
    rewrite Hh, decide_False, decide_True by done.
    eapply gives_bind; [apply IHs; [done|done|done|done|rewrite length_app; lia]|]. exact Hnext.
  - destruct s as [alias name a ds ss|name ds|cond ds ss]; try done.
    assert (Hh : head_type (stoks (EField alias name a ds ss) ++ flat_map stoks sels ++ p_rbrace :: rest) = TName)
      by by destruct alias.
    rewrite Hh, !decide_False by done.
    eapply gives_bind; [apply IHf; [done|done|rewrite length_app; lia]|]. exact Hnext.
Qed.

Lemma selections_parse fuel :
  set_parses fuel /\ loop_parses fuel /\ field_parses fuel /\ spread_parses fuel /\ inline_parses fuel.
Proof.
  induction fuel as [|fuel (? & ? & ? & ? & ?)].
  - split_and!; repeat intro; lia.
  - split_and!; [by apply set_step|by apply loop_step|by apply field_step|by apply spread_step|by apply inline_step].
Qed.

Lemma parseSelectionSet_parse fuel : set_parses fuel.
Proof. apply selections_parse. Qed.

(** ** Variables, fragments and documents *)

Definition type_toks (vd : vdef) : list tok :=
  if vd_list vd then [p_lbracket; tname (vd_type vd); p_rbracket] else [tname (vd_type vd)].
Definition bang_toks (vd : vdef) : list tok := if vd_nonnull vd then [p_bang] else [].
Definition default_toks (vd : vdef) : list tok :=
  match vd_default vd with Some e => p_equals :: vtoks e | None => [] end.

Lemma skipTypeReference_parse vd rest :
  head_type rest <> TBang ->
  gives skipTypeReference (type_toks vd ++ bang_toks vd ++ rest) (vd_type vd, vd_nonnull vd, vd_list vd) rest.
Proof.
  intros Hh. unfold skipTypeReference, type_toks.
  assert (Hbang : forall (name : bytes) (b : bool), gives (bind (accept TBang) (fun bang => ret (name, bang, b)))
    (bang_toks vd ++ rest) (name, vd_nonnull vd, b) rest).
  { intros name b. unfold bang_toks. destruct (vd_nonnull vd); cbn [app].
    - apply gives_accept, gives_ret.
    - apply gives_accept_not; [done|]. apply gives_ret. }
  destruct (vd_list vd); cbn [app].
  - apply gives_accept. eapply gives_bind; [|apply Hbang].
    apply gives_expect. intros tok ->. apply gives_expect. intros _ _. apply gives_ret.
  - apply gives_accept_not; [done|]. eapply gives_bind; [|apply Hbang].
    apply gives_expect. intros tok ->. apply gives_ret.
Qed.

Lemma variables_parse fuel vs acc rest :
  forallb wf_vd vs = true -> 4 * length (flat_map vdtoks vs ++ p_rparen :: rest) + 1 <= fuel ->
  gives (variables_loop stod fuel acc) (flat_map vdtoks vs ++ p_rparen :: rest)
    (acc ++ map vdeval vs) (p_rparen :: rest).
Proof.
  revert vs acc. induction fuel as [|fuel IH]; intros vs acc Hvs Hf; [lia|].
  cbn [variables_loop]. apply gives_cur_type. destruct vs as [|vd vs]; cbn [flat_map map app] in *.
  { rewrite decide_True, app_nil_r by done. apply gives_ret. }
  cbn [forallb] in Hvs. apply andb_true_iff in Hvs as [[_ Hd]%andb_true_iff Hvs].
  unfold vdtoks in *. fold (type_toks vd) (bang_toks vd) (default_toks vd) in *. fold vdtoks in *.
  cbn [app head_type fst length] in *. rewrite <- !app_assoc in *. rewrite decide_False by done.
  set (more := flat_map vdtoks vs ++ p_rparen :: rest) in *.
  assert (Hmore : head_type more = TDollar \/ head_type more = TRightParen).
  { subst more. destruct vs; cbn; auto. }
  rewrite !length_app in Hf.
  assert (Hnext : gives (variables_loop stod fuel (acc ++ [vdeval vd])) more (acc ++ vdeval vd :: map vdeval vs)
                    (p_rparen :: rest)).
  { specialize (IH vs (acc ++ [vdeval vd]) Hvs). rewrite <- app_assoc in IH. apply IH. fold more. lia. }
  apply gives_expect. intros _ _. apply gives_expect. intros tok ->. apply gives_expect. intros _ _.
  eapply gives_bind; [apply skipTypeReference_parse|].
  { unfold default_toks. destruct (vd_default vd); [done|]. cbn [app]. by destruct Hmore as [-> | ->]. }
  cbn [fst snd]. unfold vdeval, default_toks in *. destruct (vd_default vd) as [e|]; cbn [app length] in *.
  - apply gives_accept. cbv iota.
    eapply gives_bind; [eapply gives_bind; [apply parseValue_parse; [done|rewrite length_app; lia]|apply gives_ret]|].
    apply gives_comma. exact Hnext.
  - apply gives_accept_not; [by destruct Hmore as [-> | ->]|]. cbv iota.
    eapply gives_bind; [apply gives_ret|]. apply gives_comma. exact Hnext.
Qed.

Lemma parseFragmentDefinition_parse fuel fd rest :
  wf_fd fd = true -> 4 * length (fdtoks fd ++ rest) <= fuel ->
  gives (parseFragmentDefinition stod fuel) (fdtoks fd ++ rest) (fdeval fd) rest.
Proof.
  intros Hfd Hf. unfold wf_fd in Hfd.
  apply andb_true_iff in Hfd as [[[_ _]%andb_true_iff Hds]%andb_true_iff Hsels].
  unfold fdtoks, parseFragmentDefinition, fdeval in *. cbn [app length] in *. rewrite <- app_assoc in *.
  apply gives_expect. intros _ _. apply gives_expect. intros n ->.
  apply gives_isName. rewrite bool_decide_eq_true_2 by done. cbv iota.
  eapply gives_bind; [apply gives_ret|]. eapply gives_bind; [apply gives_advance|].
  apply gives_expect. intros c ->.
  eapply gives_bind; [apply parseDirectives_parse; [done|done|done|lia]|].
  rewrite length_app in Hf.
  eapply gives_bind; [apply parseSelectionSet_parse; [by unfold kMaxDepth; lia|done|lia]|]. apply gives_ret.
Qed.

Lemma fragments_parse fuel fds m :
  forallb wf_fd fds = true -> 4 * length (flat_map fdtoks fds) + 1 <= fuel ->
  gives (fragments_loop stod fuel m) (flat_map fdtoks fds)
    (foldl (fun m fd => <[fd_name fd := fdeval fd]> m) m fds) [].
Proof.
  revert fds m. induction fuel as [|fuel IH]; intros fds m Hfds Hf; [lia|]. cbn [fragments_loop].
  destruct fds as [|fd fds]; cbn [flat_map foldl] in *.
  - intros st Hst. exists st. split; [|done]. unfold bind, isName.
    by rewrite bool_decide_eq_false_2 by (rewrite (at_head _ _ Hst); by intros [? _]).
  - cbn [forallb] in Hfds. apply andb_true_iff in Hfds as [Hfd Hfds]. rewrite length_app in Hf.
    change (fdtoks fd ++ flat_map fdtoks fds) with
      (tname (str "fragment") :: drop 1 (fdtoks fd) ++ flat_map fdtoks fds) at 1.
    apply gives_isName. rewrite bool_decide_eq_true_2 by done. cbv iota.
    assert (length (fdtoks fd) <> 0) by done.
    eapply gives_bind; [apply (parseFragmentDefinition_parse fuel fd (flat_map fdtoks fds) Hfd);
                        rewrite length_app; lia|].
    cbn [fdeval frname]. apply IH; [done|lia].
Qed.

Definition name_toks (d : doc) : list tok := match o_name d with Some n => [tname n] | None => [] end.
Definition var_toks (d : doc) : list tok :=
  match o_vars d with [] => [] | vs => p_lparen :: flat_map vdtoks vs ++ [p_rparen] end.

Lemma var_toks_head d rest ty : head_type rest <> ty -> TLeftParen <> ty -> head_type (var_toks d ++ rest) <> ty.
Proof. unfold var_toks. by destruct (o_vars d). Qed.

Lemma parseVariableDefinitions_parse fuel d rest :
  forallb wf_vd (o_vars d) = true -> head_type rest <> TLeftParen -> 4 * length (var_toks d ++ rest) <= fuel ->
  gives (if decide (head_type (var_toks d ++ rest) = TLeftParen) then parseVariableDefinitions stod fuel else ret [])
    (var_toks d ++ rest) (map vdeval (o_vars d)) rest.
Proof.
  intros Hvs Hh Hf. unfold var_toks in *. destruct (o_vars d) as [|vd vs].
  - cbn [app]. rewrite decide_False by done. apply gives_ret.
  - revert Hvs Hf. generalize (vd :: vs). intros l Hvs Hf. cbn [app length head_type fst] in *.
    rewrite decide_True by done. rewrite <- app_assoc in *. cbn [app] in *.
    unfold parseVariableDefinitions. apply gives_expect. intros _ _.
    eapply gives_bind; [apply (variables_parse fuel l [] rest Hvs); lia|].
    apply gives_expect. intros _ _. apply gives_ret.
Qed.

Lemma operation_keyword ty : operation_type (keyword ty) = Some ty.
Proof. by destruct ty. Qed.

Lemma parseDocument_parse fuel d :
  wf_doc d = true -> 4 * length (doctoks d) + 1 <= fuel ->
  gives (parseDocument stod fuel) (doctoks d) (meaning d) [].
Proof.
  intros Hwf Hf. unfold wf_doc in Hwf.
  apply andb_true_iff in Hwf as [[[[_ Hvs]%andb_true_iff Hds]%andb_true_iff Hsels]%andb_true_iff Hfds].
  unfold doctoks in *. fold (name_toks d) (var_toks d) in *.
  set (frs := flat_map fdtoks (o_frags d)) in *.
  set (sels := braced_toks (flat_map stoks (o_sels d)) ++ frs) in *. cbn [length] in Hf.
  unfold parseDocument, meaning.
  eapply gives_bind; [|eapply gives_bind; [apply fragments_parse; [exact Hfds|]|]].
  - unfold parseOperationDefinition. apply gives_cur_type. apply gives_cur_text. cbn [head_type fst snd tname].
    rewrite operation_keyword. rewrite length_app in Hf. eapply gives_bind.
    + eapply gives_bind; [apply gives_advance|]. apply gives_cur_type.
      assert (Hname : forall (k : bytes -> M (OperationType * bytes * list (VariableDefinition double) * list (Directive double))) r,
        (gives (k (default [] (o_name d))) (var_toks d ++ dtoks (o_dirs d) ++ sels) r sels) ->
        gives (bind cur_text (fun t => bind (if decide (head_type (name_toks d ++ var_toks d ++ dtoks (o_dirs d) ++ sels) = TName)
          then bind advance (fun _ => ret t) else ret []) k))
          (name_toks d ++ var_toks d ++ dtoks (o_dirs d) ++ sels) r sels).
      { intros k r Hk. unfold name_toks. destruct (o_name d) as [n|]; cbn [app].
        - apply gives_cur_text. cbn [snd tname head_type fst]. rewrite decide_True by done.
          eapply gives_bind; [eapply gives_bind; [apply gives_advance|apply gives_ret]|]. exact Hk.
        - intros st Hst. unfold bind at 1, cur_text.
          rewrite decide_False by (apply var_toks_head; [apply dtoks_head|]; done). by apply Hk. }
      apply Hname. apply gives_cur_type. rewrite !length_app in Hf.
      eapply gives_bind; [apply parseVariableDefinitions_parse; [done|by apply dtoks_head|rewrite !length_app; lia]|].
      eapply gives_bind; [apply parseDirectives_parse; [done|done|done|rewrite length_app; lia]|]. apply gives_ret.
    + rewrite !length_app in Hf.
      eapply gives_bind; [apply parseSelectionSet_parse; [by unfold kMaxDepth; lia|done|fold sels; lia]|]. apply gives_ret.
  - subst sels. rewrite !length_app in Hf. fold frs. lia.
  - apply gives_cur_type. cbn [head_type]. rewrite decide_True by done.
    eapply gives_bind; [apply gives_ret|]. apply gives_ret.
Qed.
End parsing.

(** ** The tokens of a document are those the tokenizer reads back *)

Lemma wf_tname n : is_name n = true -> wf_tok (tname n).
Proof. intros. by left. Qed.

Lemma wf_punct t : t ∈ punct_toks -> wf_tok t.
Proof. intros. by right; right; right. Qed.

Lemma Forall_flat_map {A B} (P : B -> Prop) (f : A -> list B) (g : A -> bool) l :
  (forall x, g x = true -> Forall P (f x)) -> forallb g l = true -> Forall P (flat_map f l).
Proof.
  intros Hf. induction l as [|x l IH]; cbn; intros Hl; [by constructor|].
  apply andb_true_iff in Hl as [Hx Hl]. apply Forall_app. auto.
Qed.

(** Tokens of the fixed part of the grammar. *)
Ltac wf_toks :=
  repeat first [ assumption | apply Forall_app; split | apply Forall_cons; split | apply Forall_nil_2
               | apply wf_punct; unfold punct_toks; apply (bool_decide_unpack _); vm_compute; exact I
               | apply wf_tname; solve [assumption | reflexivity] ].

Lemma vtoks_wf : forall e, wf_v e = true -> Forall wf_tok (vtoks e).
Proof.
  fix vtoks_wf 1. intros e. destruct e as [n|s|z|b| |n|l|l]; cbn [wf_v vtoks]; intros H.
  - wf_toks.
  - wf_toks. by right; right; left.
  - wf_toks. right; left. exists z. split; [done|]. lia.
  - destruct b; wf_toks.
  - wf_toks.
  - apply andb_true_iff in H as [H _]. wf_toks.
  - wf_toks. induction l as [|e l IH]; cbn in *; [by constructor|].
    apply andb_true_iff in H as [He Hl]. apply Forall_app. split; [by apply vtoks_wf|by apply IH].
  - wf_toks. induction l as [|[k e] l IH]; cbn in *; [by constructor|].
    apply andb_true_iff in H as [[Hk He]%andb_true_iff Hl]. wf_toks; [by apply vtoks_wf|by apply IH].
Qed.

Lemma atoks_wf a : wf_args a = true -> Forall wf_tok (atoks a).
Proof.
  apply Forall_flat_map. intros [k e] [Hk He]%andb_true_iff. cbn in *. wf_toks. by apply vtoks_wf.
Qed.

Lemma paren_wf a : wf_args a = true -> Forall wf_tok (paren a).
Proof. intros Ha. pose proof (atoks_wf a Ha). destruct a; cbn [paren]; wf_toks. Qed.

Lemma dtoks_wf ds : forallb wf_d ds = true -> Forall wf_tok (dtoks ds).
Proof. apply Forall_flat_map. intros d [Hn Ha]%andb_true_iff. wf_toks. by apply paren_wf. Qed.

Lemma braced_wf l : Forall wf_tok l -> Forall wf_tok (braced_toks l).
Proof. intros. unfold braced_toks. wf_toks. Qed.

Lemma stoks_wf : forall s d, wf_sel d s = true -> Forall wf_tok (stoks s).
Proof.
  fix stoks_wf 1. intros s d.
  destruct s as [alias name a ds sels|name ds|cond ds sels]; cbn [wf_sel stoks]; intros H.
  - assert (Hsels : forall d, forallb (wf_sel d) sels = true -> Forall wf_tok (flat_map stoks sels)).
    { clear -stoks_wf. intros d. induction sels as [|x l IH]; cbn; [constructor|].
      intros [Hx Hl]%andb_true_iff. apply Forall_app. split; [exact (stoks_wf x d Hx)|exact (IH Hl)]. }
    clear stoks_wf.
    apply andb_true_iff in H as [[[[[Hal Hn]%andb_true_iff Ha]%andb_true_iff Hds]%andb_true_iff _]%andb_true_iff Hss].
    specialize (Hsels _ Hss). pose proof (braced_wf _ Hsels). pose proof (paren_wf a Ha).
    pose proof (dtoks_wf ds Hds). destruct alias, sels; wf_toks.
  - clear stoks_wf. apply andb_true_iff in H as [[Hn _]%andb_true_iff Hds]. wf_toks. by apply dtoks_wf.
  - assert (Hsels : forall d, forallb (wf_sel d) sels = true -> Forall wf_tok (flat_map stoks sels)).
    { clear -stoks_wf. intros d. induction sels as [|x l IH]; cbn; [constructor|].
      intros [Hx Hl]%andb_true_iff. apply Forall_app. split; [exact (stoks_wf x d Hx)|exact (IH Hl)]. }
    clear stoks_wf. apply andb_true_iff in H as [[Hc Hds]%andb_true_iff Hss].
    specialize (Hsels _ Hss). pose proof (braced_wf _ Hsels). pose proof (dtoks_wf ds Hds). wf_toks.
Qed.

Lemma sels_wf sels : forallb (wf_sel 0) sels = true -> Forall wf_tok (flat_map stoks sels).
Proof. apply Forall_flat_map. intros s. apply stoks_wf. Qed.

Lemma vdtoks_wf vd : wf_vd vd = true -> Forall wf_tok (vdtoks vd).
Proof.
  intros [[Hn Ht]%andb_true_iff Hd]%andb_true_iff. unfold vdtoks.
  destruct (vd_list vd), (vd_nonnull vd), (vd_default vd); wf_toks; by apply vtoks_wf.
Qed.

Lemma fdtoks_wf fd : wf_fd fd = true -> Forall wf_tok (fdtoks fd).
Proof.
  intros [[[Hn Hc]%andb_true_iff Hds]%andb_true_iff Hs]%andb_true_iff. unfold fdtoks.
  pose proof (dtoks_wf _ Hds). pose proof (sels_wf _ Hs). wf_toks.
Qed.

Lemma doctoks_wf d : wf_doc d = true -> Forall wf_tok (doctoks d).
Proof.
  intros [[[[Hn Hvs]%andb_true_iff Hds]%andb_true_iff Hs]%andb_true_iff Hf]%andb_true_iff. unfold doctoks.
  apply Forall_cons. split; [apply wf_tname; by destruct (o_type d)|].
  apply Forall_app. split; [destruct (o_name d); wf_toks|].
  apply Forall_app. split.
  { pose proof (Forall_flat_map wf_tok vdtoks wf_vd _ vdtoks_wf Hvs). destruct (o_vars d); wf_toks. }
  apply Forall_app. split; [by apply dtoks_wf|].
  apply Forall_app. split; [by apply braced_wf, sels_wf|]. eapply Forall_flat_map; [apply fdtoks_wf|done].
Qed.

Lemma print_toks_length l : length l <= length (print_toks l).
Proof. unfold print_toks. induction l as [|t l IH]; cbn; [done|]. rewrite length_app. lia. Qed.

(** C1: the parser implements the grammar: the printed form of every well-formed
    document is accepted and gives the operation that the document means, with its
    variables, directives, arguments, values, selections and fragments. *)
Theorem parse_correct {double} (stod : bytes -> option double) (d : doc) :
  wf_doc d = true -> tryParse stod (print d) = Some (inl (meaning d)).
Proof.
  intros Hwf. unfold tryParse, run_parser. unfold bind.
  destruct (at_print (doctoks d) (mkToken TEnd [] 0) 0 (doctoks_wf d Hwf)) as (st & Hadv & Hst).
  unfold print. rewrite Hadv.
  destruct (parseDocument_parse stod (parse_fuel (print_toks (doctoks d))) d Hwf) with st as (st' & -> & _); [|done..].
  pose proof (print_toks_length (doctoks d)). unfold parse_fuel. lia.
Qed.

Definition sample_doc : doc :=
  mkDoc Query (Some (str "Q")) [mkVd (str "a") (str "Int") true true (Some (EInt (-3)))] [mkD (str "d") []]
    [EField (Some (str "x")) (str "user")
       [(str "id", EList [EInt 3; EStr (str "a\b")]); (str "o", EObj [(str "b", ENull); (str "a", EVar (str "a"))])]
       [] [EField None (str "n") [] [] []; ESpread (str "F") []; EInline (str "T") [] [EField None (str "z") [] [] []]]]
    [mkFd (str "F") (str "U") [] [EField None (str "w") [] [] []]].

Lemma parse_correct_witness :
  tryParse (double := bytes) Some (print sample_doc) = Some (inl (meaning sample_doc)).
Proof. apply (parse_correct (double := bytes) Some sample_doc). reflexivity. Defined.

Example print_sample :
  print sample_doc = str " query Q ( $ a : [ Int ] ! = -3 ) @ d { x : user ( id : [ 3 " ++ [x22] ++ str "a\\b" ++ [x22]
    ++ str " ] o : { b : null a : $ a } ) { n ... F ... on T { z } } } fragment F on U { w }".
Proof. reflexivity. Qed.
