(* ===== verification/GraphqlExecutor.v ===== *)
(** * Executing GraphQL operations: [util.hpp], [simple_schema.hpp] and
    [simple_executor.hpp] of [examples/graphql_server/include/graphql/]

    Variables, fragment expansion, field selection and the executor, on the tree
    that [GraphqlParser] builds.  Exceptions are values.  Resolvers are a
    parameter, functions of the arguments that return a value or throw; the calls
    are recorded in the order in which they are awaited. *)

From Stdlib Require Import Sorting.Sorted.
From S2P Require Import Prelude StdMap GraphqlParser GraphqlGrammar.

(** The result of code that may throw [std::exception]; [Unfinished] is a
    recursion that was cut off. *)
Inductive outcome (A : Type) := Done (a : A) | Throws (what : bytes) | Unfinished.
Arguments Done {A}.
Arguments Throws {A}.
Arguments Unfinished {A}.

Definition obind {A B} (m : outcome A) (f : A -> outcome B) : outcome B :=
  match m with Done a => f a | Throws e => Throws e | Unfinished => Unfinished end.

Declare Scope exec_scope.
Notation "x ← m ; k" := (obind m (fun x => k))
  (at level 20, m at level 100, k at level 200, only parsing) : exec_scope.
Local Open Scope exec_scope.

(** A loop that pushes one result per element; the first exception ends it. *)
Fixpoint traverse {A B} (f : A -> outcome B) (l : list A) : outcome (list B) :=
  match l with
  | [] => Done []
  | x :: l => y ← f x; ys ← traverse f l; Done (y :: ys)
  end.

(** ** Objects *)

Section executor.

Context {double : Type}.

(** What the exceptions of [nlohmann::json] say: [get] on a value that is not a
    string, and [key()] on an iterator that is not over an object. *)
Context (type_error invalid_iterator : bytes).

Implicit Types (j : json double).

(** ** Variables and arguments *)

(** The value of the only member when it is named ["$variable"]. *)
Definition variable_of {J} (l : list (bytes * J)) : option J :=
  match l with
  | [(k, v)] => if decide (k = str "$variable") then Some v else None
  | _ => None
  end.

Fixpoint resolveVariables (value : json double) (variables : list (bytes * json double)) : outcome (json double) :=
  match value with
  | JObject l =>
      match variable_of l with
      | Some (JString variableName) => Done (default JNull (object_get variables variableName))
      | Some _ => Throws type_error
      | None =>
          kvs ← traverse (fun kv => v ← resolveVariables kv.2 variables; Done (kv.1, v)) l;
          Done (JObject (foldl (fun o kv => object_set o kv.1 kv.2) [] kvs))
      end
  | JArray l =>
      items ← traverse (fun item => resolveVariables item variables) l;
      Done (JArray items)
  | _ => Done value
  end.

Definition argumentsToJson (arguments : list (Argument double)) (variables : list (bytes * json double))
  : outcome (list (bytes * json double)) :=
  kvs ← traverse (fun a => v ← resolveVariables (value (avalue a)) variables; Done (aname a, v)) arguments;
  Done (set_all [] kvs).

Definition initialVariables (operation : Operation double) : list (bytes * json double) :=
  set_all [] (map (fun d => (varname d, match defaultValue d with Some v => value v | None => JNull end))
                  (variableDefinitions operation)).

(** ** Fragments *)

(** [expandFragments(selections, fragments, visited)] on one selection: the
    selections that replace it.  [fuel] bounds how deep spreads nest. *)
Fixpoint expand (fuel : nat) (frs : gmap bytes (FragmentDefinition double)) (visited : gset bytes)
  : FieldSelection double -> outcome (list (FieldSelection double)) :=
  fix expand_one (sel : FieldSelection double) : outcome (list (FieldSelection double)) :=
    match sel with
    | mkField name al spread arguments directives selections =>
        if decide (spread <> []) then
          if decide (spread ∈ visited) then Throws (str "Circular fragment reference: " ++ spread)
          else match frs !! spread with
               | None => Throws (str "Unknown fragment: " ++ spread)
               | Some fr =>
                   match fuel with
                   | O => Unfinished
                   | S fuel =>
                       parts ← traverse (expand fuel frs ({[ spread ]} ∪ visited)) (frselections fr);
                       Done (concat parts)
                   end
               end
        else
          parts ← traverse expand_one selections;
          Done [mkField name al spread arguments directives (concat parts)]
    end.

Definition expandFragments (fuel : nat) (frs : gmap bytes (FragmentDefinition double)) (visited : gset bytes)
  (selections : list (FieldSelection double)) : outcome (list (FieldSelection double)) :=
  parts ← traverse (expand fuel frs visited) selections; Done (concat parts).

(** [expandFragments(operation)]; a chain of spreads is at most as long as there
    are fragments. *)
Definition expandOperation (operation : Operation double) : outcome (Operation double) :=
  sels ← expandFragments (size (fragments operation)) (fragments operation) ∅ (oselections operation);
  Done (mkOperation (otype operation) (oname operation) (variableDefinitions operation)
          (odirectives operation) sels (fragments operation)).

(** ** Selecting fields of a result *)

Definition output_name (f : FieldSelection double) : bytes :=
  if decide (alias f = []) then fname f else alias f.

(** One selection on an object; [rec] is [filterFields] on the selections below. *)
Fixpoint filter_one (sel : FieldSelection double) (data : json double) : json double :=
  match fselections sel with
  | [] => data
  | _ =>
      (fix on_data (data : json double) : json double :=
         match data with
         | JArray l => JArray (map on_data l)
         | JObject l =>
             JObject (foldl (fun o s => match object_get l (fname s) with
                                        | None => o
                                        | Some v => object_set o (output_name s) (filter_one s v)
                                        end) [] (fselections sel))
         | _ => data
         end) data
  end.

(** [filterFields(data, selections)]. *)
Definition filterFields (data : json double) (selections : list (FieldSelection double)) : json double :=
  filter_one (mkField [] [] [] [] [] selections) data.

(** ** The executor *)

(** A resolver is given the arguments (the context is always an empty object). *)
Abbreviation resolver := (list (bytes * json double) -> json double + bytes).

Record SimpleType := mkType {
  tname : bytes;
  tfields : gmap bytes resolver;
}.

Record SimpleSchema := mkSchema {
  types : gmap bytes SimpleType;
  queries : gmap bytes resolver;
  mutations : gmap bytes resolver;
}.

Definition addType (s : SimpleSchema) (typeName : bytes) (type : SimpleType) : SimpleSchema :=
  mkSchema (<[typeName := type]> (types s)) (queries s) (mutations s).

Definition addQuery (s : SimpleSchema) (queryName : bytes) (r : resolver) : SimpleSchema :=
  mkSchema (types s) (<[queryName := r]> (queries s)) (mutations s).

Definition addMutation (s : SimpleSchema) (mutationName : bytes) (r : resolver) : SimpleSchema :=
  mkSchema (types s) (queries s) (<[mutationName := r]> (mutations s)).

Definition getQuery (s : SimpleSchema) (name : bytes) : option resolver := queries s !! name.

Definition getMutation (s : SimpleSchema) (name : bytes) : option resolver := mutations s !! name.

Definition getType (s : SimpleSchema) (name : bytes) : option SimpleType := types s !! name.

(** A call of a resolver: the field's name and the arguments. *)
Definition call := (bytes * list (bytes * json double))%type.

(** [result[name] = v] on a result that is null at first. *)
Definition set_member (result : json double) (name : bytes) (v : json double) : json double :=
  match result with
  | JObject l => JObject (object_set l name v)
  | _ => JObject [(name, v)]
  end.

(** The loop of [executeQuery] and of [executeMutation]: the calls made and how
    it ends. *)
Fixpoint execute_fields (get : bytes -> option resolver) (unknown : bytes)
  (variables : list (bytes * json double)) (fields : list (FieldSelection double)) (result : json double)
  : list call * outcome (json double) :=
  match fields with
  | [] => ([], Done result)
  | field :: fields =>
      match get (fname field) with
      | None => ([], Throws (unknown ++ fname field))
      | Some f =>
          match argumentsToJson (farguments field) variables with
          | Throws e => ([], Throws e)
          | Unfinished => ([], Unfinished)
          | Done parsedArgs =>
              let fieldArgs := set_all variables parsedArgs in
              match f fieldArgs with
              | inr e => ([(fname field, fieldArgs)], Throws e)
              | inl r =>
                  let r := filterFields r (fselections field) in
                  let '(calls, o) := execute_fields get unknown variables fields
                                       (set_member result (output_name field) r) in
                  ((fname field, fieldArgs) :: calls, o)
              end
          end
      end
  end.

Definition executeQuery (s : SimpleSchema) (operation : Operation double) (variables : list (bytes * json double)) :=
  execute_fields (getQuery s) (str "Unknown query field: ") variables (oselections operation) JNull.

Definition executeMutation (s : SimpleSchema) (operation : Operation double) (variables : list (bytes * json double)) :=
  execute_fields (getMutation s) (str "Unknown mutation field: ") variables (oselections operation) JNull.

(** The loop over the variables of the request: [begin() == end()] for null and
    for an empty array, [key()] throws on anything else that is not an object. *)
Definition merge_variables (vars : list (bytes * json double)) (given : json double)
  : outcome (list (bytes * json double)) :=
  match given with
  | JObject l => Done (set_all vars l)
  | JNull | JArray [] => Done vars
  | _ => Throws invalid_iterator
  end.

Definition error_response (message : bytes) : json double :=
  JObject [(str "errors", JArray [JObject [(str "message", JString message)]])].

(** What follows the parser inside the [try] block. *)
Definition execute_operation (s : SimpleSchema) (operation : Operation double) (given : json double)
  : list call * outcome (json double) :=
  match expandOperation operation with
  | Throws e => ([], Throws e)
  | Unfinished => ([], Unfinished)
  | Done operation =>
      match merge_variables (initialVariables operation) given with
      | Throws e => ([], Throws e)
      | Unfinished => ([], Unfinished)
      | Done variables =>
          match otype operation with
          | Query => executeQuery s operation variables
          | Mutation => executeMutation s operation variables
          | Subscription => ([], Throws (str "Subscriptions are not yet supported"))
          end
      end
  end.

(** [execute(query, variables)]: the calls made and the response; [None] would be
    an execution that does not end. *)
Definition execute (stod : bytes -> option double) (s : SimpleSchema) (query : bytes) (given : json double)
  : option (list call * json double) :=
  match tryParse stod query with
  | None => None
  | Some (inr errorMsg) => Some ([], error_response errorMsg)
  | Some (inl operation) =>
      match execute_operation s operation given with
      | (calls, Done data) => Some (calls, JObject [(str "data", data)])
      | (calls, Throws e) => Some (calls, error_response e)
      | (_, Unfinished) => None
      end
  end.

End executor.

Arguments SimpleSchema : clear implicits.
Arguments SimpleType : clear implicits.

(** ** Expansion of fragments against a reference *)

Section expansion.

Context {double : Type}.
Implicit Types (f : FieldSelection double) (frs : gmap bytes (FragmentDefinition double)).

(** Induction on a selection and those below it. *)
Lemma FieldSelection_rect' (P : FieldSelection double -> Prop) :
  (forall n a s args ds sels, Forall P sels -> P (mkField n a s args ds sels)) -> forall f, P f.
Proof.
  intros H. fix IH 1. intros [n a s args ds sels]. apply H.
  induction sels as [|x sels IHs]; constructor; [apply IH | exact IHs].
Qed.

Fixpoint traverse_opt {A B} (f : A -> option B) (l : list A) : option (list B) :=
  match l with
  | [] => Some []
  | x :: l => match f x, traverse_opt f l with Some y, Some ys => Some (y :: ys) | _, _ => None end
  end.

(** The reference: spreads are replaced by the selections of their fragments, at
    most [n] inside one another, and nothing is remembered. *)
Fixpoint unfold_spreads (n : nat) frs : FieldSelection double -> option (list (FieldSelection double)) :=
  fix one (sel : FieldSelection double) :=
    match sel with
    | mkField name al spread arguments directives selections =>
        if decide (spread <> []) then
          match frs !! spread, n with
          | Some fr, S n => (fun parts => concat parts) <$> traverse_opt (unfold_spreads n frs) (frselections fr)
          | _, _ => None
          end
        else (fun parts => [mkField name al spread arguments directives (concat parts)])
               <$> traverse_opt one selections
    end.

Lemma traverse_opt_Some {A B} (f : A -> option B) l ys :
  traverse_opt f l = Some ys <-> Forall2 (fun x y => f x = Some y) l ys.
Proof.
  revert ys. induction l as [|x l IH]; intros ys; cbn.
  - split; [intros [= <-]; constructor|]. by inversion 1.
  - split.
    + destruct (f x) eqn:E, (traverse_opt f l) eqn:E'; try done. intros [= <-].
      constructor; [done|]. by apply IH.
    + inversion 1 as [|? ? ? ys' Hx Hl]; subst. by rewrite Hx, (proj2 (IH ys') Hl).
Qed.

Lemma traverse_Done {A B} (f : A -> outcome B) l ys :
  traverse f l = Done ys <-> Forall2 (fun x y => f x = Done y) l ys.
Proof.
  revert ys. induction l as [|x l IH]; intros ys; cbn.
  - split; [intros [= <-]; constructor|]. by inversion 1.
  - split.
    + destruct (f x) eqn:E; cbn; try done. destruct (traverse f l) eqn:E'; cbn; try done.
      intros [= <-]. constructor; [done|]. by apply IH.
    + inversion 1 as [|? ? ? ys' Hx Hl]; subst. rewrite Hx. cbn. by rewrite (proj2 (IH ys') Hl).
Qed.

Lemma traverse_finished {A B} (f : A -> outcome B) l :
  Forall (fun x => f x <> Unfinished) l -> traverse f l <> Unfinished.
Proof.
  induction 1 as [|x l Hx _ IH]; cbn; [done|]. destruct (f x); cbn; try done. by destruct (traverse f l).
Qed.

Lemma Forall2_strengthen {A B} (P : A -> Prop) (R R' : A -> B -> Prop) l k :
  Forall P l -> (forall x y, P x -> R x y -> R' x y) -> Forall2 R l k -> Forall2 R' l k.
Proof. intros Hl HR. induction 1; constructor; apply Forall_cons in Hl as [? ?]; auto. Qed.

(** A selection that is only a spread. *)
Definition spread_of (s : bytes) : FieldSelection double := mkField [] [] s [] [] [].

Lemma unfold_spread n frs na al s args ds sels :
  s <> [] -> unfold_spreads n frs (mkField na al s args ds sels) = unfold_spreads n frs (spread_of s).
Proof. intros Hs. destruct n; cbn; rewrite !decide_True by done; done. Qed.

Lemma unfold_mono n m frs f out : n <= m -> unfold_spreads n frs f = Some out -> unfold_spreads m frs f = Some out.
Proof.
  revert m f out. induction n as [n IHn] using lt_wf_ind. intros m f. revert m.
  induction f as [na al s args ds sels IHf] using FieldSelection_rect'. intros m out Hnm H.
  destruct (decide (s <> [])) as [Hs|Hs].
  - destruct n as [|n]; [cbn in H; rewrite decide_True in H by done; by destruct (frs !! s)|].
    destruct m as [|m]; [lia|]. cbn in *. rewrite decide_True in * by done.
    destruct (frs !! s) as [fr|]; [|done]. apply fmap_Some in H as (parts & Hp & ->).
    apply fmap_Some. exists parts. split; [|done]. apply traverse_opt_Some in Hp. apply traverse_opt_Some.
    eapply Forall2_impl; [exact Hp|]. intros x y Hxy. apply (IHn n); [lia|lia|done].
  - assert (Hstep : forall k, unfold_spreads k frs (mkField na al s args ds sels)
      = (fun parts => [mkField na al s args ds (concat parts)]) <$> traverse_opt (unfold_spreads k frs) sels).
    { intros k. destruct k; cbn; by rewrite decide_False by done. }
    rewrite Hstep in *. apply fmap_Some in H as (parts & Hp & ->).
    apply fmap_Some. exists parts. split; [|done]. apply traverse_opt_Some in Hp. apply traverse_opt_Some.
    eapply Forall2_strengthen; [exact IHf| |exact Hp]. cbn. intros x y Hx Hxy. by apply Hx.
Qed.

Lemma expand_field fuel frs V na al s args ds sels :
  s = [] -> expand fuel frs V (mkField na al s args ds sels)
  = obind (traverse (expand fuel frs V) sels) (fun parts => Done [mkField na al s args ds (concat parts)]).
Proof. intros ->. by destruct fuel. Qed.

Lemma expand_spread fuel frs V na al s args ds sels :
  s <> [] -> expand fuel frs V (mkField na al s args ds sels)
  = if decide (s ∈ V) then Throws (str "Circular fragment reference: " ++ s)
    else match frs !! s with
         | None => Throws (str "Unknown fragment: " ++ s)
         | Some fr =>
             match fuel with
             | O => Unfinished
             | S fuel => obind (traverse (expand fuel frs ({[ s ]} ∪ V)) (frselections fr)) (fun parts => Done (concat parts))
             end
         end.
Proof. intros Hs. destruct fuel; cbn; by rewrite decide_True by done. Qed.

Lemma unfold_field n frs na al s args ds sels :
  s = [] -> unfold_spreads n frs (mkField na al s args ds sels)
  = (fun parts => [mkField na al s args ds (concat parts)]) <$> traverse_opt (unfold_spreads n frs) sels.
Proof. intros ->. by destruct n. Qed.

Lemma expand_sound fuel frs V f out : expand fuel frs V f = Done out -> unfold_spreads fuel frs f = Some out.
Proof.
  revert V f out. induction fuel as [|fuel IH]; intros V f; induction f as [na al s args ds sels IHf]
    using FieldSelection_rect'; intros out H; destruct (decide (s = [])) as [Hs|Hs].
  1,3: rewrite expand_field in H by done; rewrite unfold_field by done;
    destruct (traverse _ sels) as [parts| |] eqn:E; try done; cbn in H; injection H as <-;
    apply traverse_Done in E; apply fmap_Some; exists parts; split; [|done]; apply traverse_opt_Some;
    eapply Forall2_strengthen; [exact IHf| |exact E]; cbn; intros x y Hx Hxy; by apply Hx.
  - rewrite expand_spread in H by done. destruct (decide (s ∈ V)); [done|]. by destruct (frs !! s).
  - rewrite expand_spread in H by done. destruct (decide (s ∈ V)); [done|].
    cbn. rewrite decide_True by done. destruct (frs !! s) as [fr|]; [|done].
    destruct (traverse _ (frselections fr)) as [parts| |] eqn:E; try done. cbn in H. injection H as <-.
    apply traverse_Done in E. apply fmap_Some. exists parts. split; [|done]. apply traverse_opt_Some.
    eapply Forall2_impl; [exact E|]. intros x y. apply IH.
Qed.

(** The least bound under which a spread unfolds. *)
Lemma least_unfolding n frs s out :
  unfold_spreads n frs (spread_of s) = Some out ->
  exists m, m <= n /\ unfold_spreads m frs (spread_of s) = Some out /\
    forall k, k < m -> unfold_spreads k frs (spread_of s) = None.
Proof.
  induction n as [|n IH]; intros H.
  - exists 0. split_and!; [done|done|lia].
  - destruct (unfold_spreads n frs (spread_of s)) as [out'|] eqn:E.
    + assert (out' = out) as ->.
      { apply (unfold_mono n (S n)) in E; [|lia]. rewrite H in E. by simplify_eq. }
      destruct (IH eq_refl) as (m & ? & ? & ?). exists m. split_and!; [lia|done|done].
    + exists (S n). split_and!; [done|done|]. intros k Hk.
      destruct (unfold_spreads k frs (spread_of s)) eqn:Ek; [|done].
      apply (unfold_mono k n) in Ek; [|lia]. congruence.
Qed.

Lemma visited_room (fuel : nat) frs (V : gset bytes) (s : bytes) (fr : FragmentDefinition double) :
  V ⊆ dom frs -> size frs <= fuel + size V -> s ∉ V -> frs !! s = Some fr ->
  exists fuel', fuel = S fuel' /\ {[ s ]} ∪ V ⊆ dom frs /\ size frs <= fuel' + size ({[ s ]} ∪ V).
Proof.
  intros HV Hsz Hs Hfr.
  assert (Hsub : {[ s ]} ∪ V ⊆ dom frs).
  { apply union_least; [|done]. apply singleton_subseteq_l. by apply elem_of_dom_2 in Hfr. }
  assert (Hsize : size ({[ s ]} ∪ V) = S (size V)).
  { rewrite size_union, size_singleton; [done|]. by apply disjoint_singleton_l. }
  pose proof (subseteq_size _ _ Hsub) as Hle. rewrite size_dom, Hsize in Hle.
  destruct fuel as [|fuel']; [lia|]. exists fuel'. rewrite Hsize. split_and!; [done|done|lia].
Qed.

Lemma expand_finished (fuel : nat) frs (V : gset bytes) f :
  V ⊆ dom frs -> size frs <= fuel + size V -> expand fuel frs V f <> Unfinished.
Proof.
  revert V f. induction fuel as [fuel IH] using lt_wf_ind. intros V f HV Hsz.
  induction f as [na al s args ds sels IHf] using FieldSelection_rect'.
  destruct (decide (s = [])) as [Hs|Hs].
  - rewrite expand_field by done. pose proof (traverse_finished _ _ IHf) as H.
    by destruct (traverse _ sels).
  - rewrite expand_spread by done. destruct (decide (s ∈ V)) as [|Hv]; [done|].
    destruct (frs !! s) as [fr|] eqn:Hfr; [|done].
    destruct (visited_room fuel frs V s fr HV Hsz Hv Hfr) as (fuel' & -> & HV' & Hsz').
    assert (H : traverse (expand fuel' frs ({[ s ]} ∪ V)) (frselections fr) <> Unfinished).
    { apply traverse_finished, Forall_forall. intros x _. apply IH; [lia|done|done]. }
    by destruct (traverse _ (frselections fr)).
Qed.

Lemma expand_complete (n fuel : nat) frs (V : gset bytes) f out :
  unfold_spreads n frs f = Some out ->
  (forall v, v ∈ V -> unfold_spreads n frs (spread_of v) = None) ->
  V ⊆ dom frs -> size frs <= fuel + size V -> expand fuel frs V f = Done out.
Proof.
  revert fuel V f out. induction n as [n IHn] using lt_wf_ind. intros fuel V f. revert fuel V.
  induction f as [na al s args ds sels IHf] using FieldSelection_rect'. intros fuel V out H Hnone HV Hsz.
  destruct (decide (s = [])) as [Hs|Hs].
  - rewrite unfold_field in H by done. rewrite expand_field by done.
    apply fmap_Some in H as (parts & Hp & ->). apply traverse_opt_Some in Hp.
    assert (Ht : traverse (expand fuel frs V) sels = Done parts).
    { apply traverse_Done. eapply Forall2_strengthen; [exact IHf| |exact Hp].
      cbn. intros x y Hx Hxy. by apply Hx. }
    by rewrite Ht.
  - rewrite unfold_spread in H by done.
    assert (Hv : s ∉ V) by (intros Hv; rewrite (Hnone s Hv) in H; done).
    destruct (least_unfolding n frs s out H) as (m & Hm & Hout & Hleast).
    destruct m as [|m]; cbn in Hout; rewrite decide_True in Hout by done;
      destruct (frs !! s) as [fr|] eqn:Hfr; try done.
    apply fmap_Some in Hout as (parts & Hp & ->). apply traverse_opt_Some in Hp.
    destruct (visited_room fuel frs V s fr HV Hsz Hv Hfr) as (fuel' & -> & HV' & Hsz').
    rewrite expand_spread, decide_False, Hfr by done.
    assert (Ht : traverse (expand fuel' frs ({[ s ]} ∪ V)) (frselections fr) = Done parts).
    { apply traverse_Done. eapply Forall2_impl; [exact Hp|]. cbn. intros x y Hxy.
      apply (IHn m); [lia|done| |done|done].
      intros v [->%elem_of_singleton|Hv']%elem_of_union; [apply Hleast; lia|].
      specialize (Hnone v Hv'). destruct (unfold_spreads m frs (spread_of v)) eqn:E; [|done].
      apply (unfold_mono m n) in E; [|lia]. congruence. }
    by rewrite Ht.
Qed.

Lemma expandFragments_finished frs (sels : list (FieldSelection double)) :
  expandFragments (size frs) frs ∅ sels <> Unfinished.
Proof.
  unfold expandFragments. assert (H : traverse (expand (size frs) frs ∅) sels <> Unfinished).
  { apply traverse_finished, Forall_forall. intros x _. apply expand_finished; [apply empty_subseteq|lia]. }
  by destruct (traverse _ sels).
Qed.

(** A list of selections under the reference. *)
Definition unfold_all (n : nat) frs (sels : list (FieldSelection double)) : option (list (FieldSelection double)) :=
  (fun parts => concat parts) <$> traverse_opt (unfold_spreads n frs) sels.

(** C11: expansion is the unfolding of the spreads: with its set of visited
    fragments [expandFragments] returns [out] exactly when replacing spreads by
    their fragments, over and over, comes to an end with [out]; in every other
    case, a cycle or an unknown fragment, it throws. *)
Theorem expandFragments_correct frs (sels : list (FieldSelection double)) :
  (forall out, expandFragments (size frs) frs ∅ sels = Done out <-> exists n, unfold_all n frs sels = Some out) /\
  expandFragments (size frs) frs ∅ sels <> Unfinished.
Proof.
  split; [|apply expandFragments_finished]. unfold expandFragments, unfold_all. intros out. split.
    + destruct (traverse _ sels) as [parts| |] eqn:E; try done. cbn. intros [= <-].
      exists (size frs). apply fmap_Some. exists parts. split; [|done]. apply traverse_opt_Some.
      apply traverse_Done in E. eapply Forall2_impl; [exact E|]. intros x y. apply expand_sound.
    + intros [n (parts & Hp & ->)%fmap_Some]. apply traverse_opt_Some in Hp.
      assert (Ht : traverse (expand (size frs) frs ∅) sels = Done parts); [|by rewrite Ht].
      apply traverse_Done. eapply Forall2_impl; [exact Hp|]. intros x y Hxy.
      apply (expand_complete n); [done|by intros v ?%elem_of_empty|apply empty_subseteq|lia].
Qed.

(** Selections without spreads, all the way down. *)
Fixpoint no_spread f : bool :=
  bool_decide (fragmentSpreadName f = []) && forallb no_spread (fselections f).

Lemma forallb_concat {A} (p : A -> bool) (ls : list (list A)) :
  Forall (fun l => forallb p l = true) ls -> forallb p (concat ls) = true.
Proof. induction 1; cbn; [done|]. by rewrite forallb_app, H, IHForall. Qed.

Lemma unfold_no_spread n frs f out : unfold_spreads n frs f = Some out -> forallb no_spread out = true.
Proof.
  revert f out. induction n as [n IHn] using lt_wf_ind. intros f.
  induction f as [na al s args ds sels IHf] using FieldSelection_rect'. intros out H.
  destruct (decide (s = [])) as [Hs|Hs].
  - rewrite unfold_field in H by done. apply fmap_Some in H as (parts & Hp & ->). subst s. cbn.
    rewrite andb_true_r. apply forallb_concat. apply traverse_opt_Some in Hp.
    revert IHf. induction Hp as [|x y l k Hxy _ IH]; intros Hf; [constructor|].
    apply Forall_cons in Hf as [Hx Hf]. constructor; [by apply Hx|by apply IH].
  - destruct n as [|n]; cbn in H; rewrite decide_True in H by done; destruct (frs !! s) as [fr|]; try done.
    apply fmap_Some in H as (parts & Hp & ->). apply forallb_concat. apply traverse_opt_Some in Hp.
    induction Hp as [|x y l k Hxy _ IH]; constructor; [|done]. apply (IHn n) in Hxy; [done|lia].
Qed.

Lemma expanded_no_spread fuel frs V sels out :
  expandFragments fuel frs V sels = Done out -> forallb no_spread out = true.
Proof.
  unfold expandFragments. destruct (traverse _ sels) as [parts| |] eqn:E; try done. cbn. intros [= <-].
  apply forallb_concat. apply traverse_Done in E.
  induction E as [|x y l k Hxy _ IH]; constructor; [|done]. by eapply unfold_no_spread, expand_sound.
Qed.

End expansion.

(** ** Variables are substituted *)

Section variables.

Context {double : Type} (type_error : bytes) (vars : list (bytes * json double)).

(** A literal with its variables replaced: the specification. *)
Fixpoint instantiate (e : vexp) : json double :=
  match e with
  | EVar n => default JNull (object_get vars n)
  | EList l => JArray (map instantiate l)
  | EObj l => JObject (set_all [] (map (fun kv => (kv.1, instantiate kv.2)) l))
  | EStr s => JString s
  | EInt z => JInt z
  | EBool b => JBool b
  | ENull => JNull
  | EEnum n => JString n
  end.

Lemma variable_not_name k : is_name k = true -> k <> str "$variable".
Proof. by intros H ->. Qed.

Lemma variable_of_names {J} (l : list (bytes * J)) :
  Forall (fun kv => kv.1 <> str "$variable") l -> variable_of l = None.
Proof. destruct l as [|[k v] [|]]; intros H; cbn; try done. rewrite decide_False; [done|]. by apply Forall_inv in H. Qed.

(** Resolving the variables of an argument substitutes them in the literal
    and leaves everything else as it is; an unknown variable becomes null. *)
Theorem resolveVariables_correct (e : vexp) :
  wf_v e = true -> resolveVariables type_error (value (veval e)) vars = Done (instantiate e).
Proof.
  revert e. fix IH 1. intros e. destruct e as [n|s|z|b| |n|l|l]; intros He; try reflexivity.
  - cbn [veval value resolveVariables instantiate].
    assert (Ht : traverse (fun item => resolveVariables type_error item vars)
              (map (fun e => value (veval e)) l) = Done (map instantiate l)); [|by rewrite Ht].
    apply traverse_Done. cbn in He. induction l as [|x l IHl]; cbn in *; [constructor|].
    apply andb_true_iff in He as [Hx Hl]. constructor; [exact (IH x Hx)|exact (IHl Hl)].
  - cbn [veval value resolveVariables instantiate].
    assert (Hrel : Forall2 (same_keys (fun j j' => resolveVariables type_error j vars = Done j'))
      (map (fun kv => (kv.1, value (veval (double := double) kv.2))) l) (map (fun kv => (kv.1, instantiate kv.2)) l)).
    { cbn in He. induction l as [|[k x] l IHl]; cbn in *; [constructor|].
      apply andb_true_iff in He as [[_ Hx]%andb_true_iff Hl]. constructor; [split; [reflexivity|exact (IH x Hx)]|exact (IHl Hl)]. }
    clear IH. fold (set_all [] (map (fun kv => (kv.1, value (veval (double := double) kv.2))) l)).
    set (o := set_all [] (map (fun kv => (kv.1, value (veval (double := double) kv.2))) l)).
    set (o' := set_all [] (map (fun kv => (kv.1, instantiate kv.2)) l)).
    assert (Hkeys : Forall (fun kv => kv.1 <> str "$variable") o).
    { apply (set_all_keys (fun k => k <> str "$variable")); [constructor|]. cbn in He. clear -He.
      induction l as [|[k x] l IHl]; cbn in *; [constructor|].
      apply andb_true_iff in He as [[Hk _]%andb_true_iff Hl]. constructor; [by apply variable_not_name|by apply IHl]. }
    rewrite (variable_of_names o Hkeys).
    assert (Hoo : Forall2 (same_keys (fun j j' => resolveVariables type_error j vars = Done j')) o o')
      by (apply set_all_related; [constructor|exact Hrel]).
    assert (Ht : traverse (fun kv => obind (resolveVariables type_error kv.2 vars) (fun v => Done (kv.1, v))) o = Done o').
    { apply traverse_Done. eapply Forall2_impl; [exact Hoo|]. intros [k j] [k' j'] [Hk Hj]. cbn in *. subst. by rewrite Hj. }
    rewrite Ht. cbn [obind]. fold (set_all [] o'). rewrite (set_all_sorted [] o'); [done|].
    apply set_all_is_sorted. constructor.
Qed.
End variables.

Lemma resolveVariables_correct_witness :
  resolveVariables (double := bytes) (str "type error")
    (value (veval (EObj [(str "n", EVar (str "who")); (str "a", EList [EInt 1; EVar (str "none")])])))
    [(str "who", JString (str "me"))]
  = Done (instantiate [(str "who", JString (str "me"))]
            (EObj [(str "n", EVar (str "who")); (str "a", EList [EInt 1; EVar (str "none")])])).
Proof. apply (resolveVariables_correct (double := bytes)). reflexivity. Defined.

Example instantiate_sample :
  instantiate (double := bytes) [(str "who", JString (str "me"))]
    (EObj [(str "n", EVar (str "who")); (str "a", EList [EInt 1; EVar (str "none")])])
  = JObject [(str "a", JArray [JInt 1; JNull]); (str "n", JString (str "me"))].
Proof. vm_compute. reflexivity. Qed.

(** ** Selected fields *)

Section selection.

Context {double : Type}.

Lemma filter_one_fields (s : FieldSelection double) (v : json double) : filter_one s v = filterFields v (fselections s).
Proof. by destruct s. Qed.

(** The last selection that is reported under [name] and found in the object. *)
Definition selected (l : list (bytes * json double)) (sels : list (FieldSelection double)) (name : bytes)
  : option (nat * FieldSelection double) :=
  find_if (fun s => bool_decide (output_name s = name) && bool_decide (is_Some (object_get l (fname s)))) (reverse sels).

(** The object that [filterFields] builds has under each name the value of
    the field selected under that name (the last such selection that the data
    has), itself reduced to the selections below; names that no selection gives
    are absent; lists are filtered item by item. *)
Theorem filterFields_correct (sels : list (FieldSelection double)) :
  sels <> [] ->
  (forall l, exists o, filterFields (JObject l) sels = JObject o /\
     forall name, object_get o name =
       match selected l sels name with
       | Some (_, s) => (fun v => filterFields v (fselections s)) <$> object_get l (fname s)
       | None => None
       end) /\
  (forall l, filterFields (JArray l) sels = JArray (map (fun j => filterFields j sels) l)).
Proof.
  intros Hne. destruct sels as [|s0 sels0]; [done|]. clear Hne. split; [|done]. intros l.
  eexists. split; [reflexivity|]. intros name. cbn [fselections].
  generalize (s0 :: sels0) as sels. clear s0 sels0. intros sels.
  induction sels as [|s sels IH] using rev_ind; [done|].
  rewrite foldl_snoc. unfold selected in *. rewrite reverse_app. cbn [reverse rev_append app find_if].
  destruct (object_get l (fname s)) as [v|] eqn:E.
  - rewrite object_get_set. rewrite filter_one_fields.
    rewrite (bool_decide_eq_true_2 (is_Some (Some v))) by by eexists. rewrite andb_true_r.
    destruct (decide (output_name s = name)) as [Hn|Hn].
    + rewrite bool_decide_eq_true_2 by done. by rewrite E.
    + rewrite bool_decide_eq_false_2 by done. rewrite IH. by destruct (find_if _ (reverse sels)) as [[]|].
  - rewrite (bool_decide_eq_false_2 (is_Some None)) by (by intros []). rewrite andb_false_r, IH.
    by destruct (find_if _ (reverse sels)) as [[]|].
Qed.
End selection.

Lemma filterFields_correct_witness :
  (forall l, exists o, filterFields (double := bytes) (JObject l) [mkField (str "id") (str "x") [] [] [] []] = JObject o /\
     forall name, object_get o name =
       match selected l [mkField (str "id") (str "x") [] [] [] []] name with
       | Some (_, s) => (fun v => filterFields v (fselections s)) <$> object_get l (fname s)
       | None => None
       end) /\
  (forall l, filterFields (double := bytes) (JArray l) [mkField (str "id") (str "x") [] [] [] []]
     = JArray (map (fun j => filterFields j [mkField (str "id") (str "x") [] [] [] []]) l)).
Proof. apply (filterFields_correct (double := bytes)). discriminate. Defined.

(** ** Execution *)

Section execution.

Context {double : Type} (type_error invalid_iterator : bytes).
Implicit Types (fields : list (FieldSelection double)) (vars : list (bytes * json double)).

(** The arguments given to a field's resolver, and the field's part of the
    result. *)
Definition field_args vars (f : FieldSelection double) : outcome (list (bytes * json double)) :=
  obind (argumentsToJson type_error (farguments f) vars) (fun a => Done (set_all vars a)).

Definition answer (get : bytes -> option (list (bytes * json double) -> json double + bytes)) vars
  (f : FieldSelection double) : option (json double) :=
  match get (fname f), field_args vars f with
  | Some r, Done a => match r a with inl j => Some (filterFields j (fselections f)) | inr _ => None end
  | _, _ => None
  end.

Definition member (data : json double) (name : bytes) : option (json double) :=
  match data with JObject l => object_get l name | _ => None end.

Lemma member_set r name v name' :
  member (set_member r name v) name' = if decide (name = name') then Some v else member r name'.
Proof. destruct r; cbn; try (by destruct (decide (name = name'))). apply object_get_set. Qed.

(** The last field that is reported under a name. *)
Definition reported fields (name : bytes) : option (nat * FieldSelection double) :=
  find_if (fun f => bool_decide (output_name f = name)) (reverse fields).

(** One round of the loop. *)
Lemma execute_fields_cons get unknown vars f fields r0 calls d :
  execute_fields type_error get unknown vars (f :: fields) r0 = (calls, Done d) ->
  exists a j calls', field_args vars f = Done a /\ answer get vars f = Some j /\ calls = (fname f, a) :: calls' /\
    execute_fields type_error get unknown vars fields (set_member r0 (output_name f) j) = (calls', Done d).
Proof.
  cbn. unfold answer, field_args. destruct (get (fname f)) as [r|]; [|done].
  destruct (argumentsToJson type_error (farguments f) vars) as [pa| |]; try done. cbn.
  destruct (r (set_all vars pa)) as [j|e]; [|done].
  destruct (execute_fields _ _ _ _ fields _) as [calls' o] eqn:E. intros [= <- ->].
  by eexists _, _, calls'.
Qed.

Lemma execute_fields_data get unknown vars fields r0 calls d :
  execute_fields type_error get unknown vars fields r0 = (calls, Done d) ->
  Forall2 (fun f c => c.1 = fname f /\ field_args vars f = Done c.2) fields calls /\
  forall name, member d name = match reported fields name with
                               | Some (_, f) => answer get vars f
                               | None => member r0 name
                               end.
Proof.
  revert r0 calls. induction fields as [|f fields IH]; intros r0 calls H.
  { cbn in H. injection H as <- <-. by split; [constructor|]. }
  apply execute_fields_cons in H as (a & j & calls' & Ha & Hj & -> & H). apply IH in H as [Hc Hm].
  split; [by constructor|]. intros name. rewrite Hm. unfold reported. rewrite reverse_cons.
  induction (reverse fields) as [|g gs IHg]; cbn in *.
  - rewrite member_set. destruct (decide (output_name f = name)) as [Hn|Hn].
    + by rewrite bool_decide_eq_true_2.
    + by rewrite bool_decide_eq_false_2.
  - destruct (bool_decide (output_name g = name)); [done|].
    destruct (find_if _ gs) as [[]|], (find_if _ (gs ++ [f])) as [[]|]; cbn in *; try done.
Qed.

Lemma resolve_finished value vars : resolveVariables type_error value vars <> Unfinished.
Proof.
  revert value. fix IH 1. intros value. destruct value as [| | | | |l|l]; cbn; try done.
  - assert (H : traverse (fun item => resolveVariables type_error item vars) l <> Unfinished).
    { apply traverse_finished. induction l as [|x l IHl]; constructor; [exact (IH x)|exact IHl]. }
    by destruct (traverse _ l).
  - destruct (variable_of l) as [[]|]; try done.
    assert (H : traverse (fun kv => obind (resolveVariables type_error kv.2 vars) (fun v => Done (kv.1, v))) l <> Unfinished).
    { apply traverse_finished. induction l as [|[k x] l IHl]; constructor; [|exact IHl].
      pose proof (IH x). cbn. by destruct (resolveVariables type_error x vars). }
    by destruct (traverse _ l).
Qed.

Lemma arguments_finished args vars : argumentsToJson type_error args vars <> Unfinished.
Proof.
  unfold argumentsToJson.
  assert (H : traverse (fun a => obind (resolveVariables type_error (value (avalue a)) vars) (fun v => Done (aname a, v))) args
              <> Unfinished).
  { apply traverse_finished, Forall_forall. intros a _. pose proof (resolve_finished (value (avalue a)) vars).
    by destruct (resolveVariables type_error (value (avalue a)) vars). }
  by destruct (traverse _ args).
Qed.

(** The calls made are those of a prefix of the fields, in order. *)
Lemma execute_fields_calls get unknown vars fields r0 :
  let '(calls, o) := execute_fields type_error get unknown vars fields r0 in
  o <> Unfinished /\ calls.*1 `prefix_of` (fname <$> fields).
Proof.
  revert r0. induction fields as [|f fields IH]; intros r0; cbn; [by split|].
  destruct (get (fname f)) as [r|]; [|by split; [|apply prefix_nil]].
  pose proof (arguments_finished (farguments f) vars).
  destruct (argumentsToJson type_error (farguments f) vars) as [pa| |]; [|by split; [|apply prefix_nil]|done].
  destruct (r (set_all vars pa)) as [j|e]; cbn; [|split; [done|apply prefix_cons, prefix_nil]].
  specialize (IH (set_member r0 (output_name f) (filterFields j (fselections f)))).
  destruct (execute_fields _ _ _ _ fields _) as [calls o]. destruct IH. by split; [|apply prefix_cons].
Qed.

(** C16: [execute] answers every request, also those with circular fragments: with
    a single error and its message, or with data; the resolvers that were called
    are those of the first fields of the expanded operation, in order, and none if
    the query does not parse or its fragments cannot be expanded. *)
Theorem execute_total stod (s : SimpleSchema double) (query : bytes) (given : json double) :
  exists calls resp, execute type_error invalid_iterator stod s query given = Some (calls, resp) /\
    ((exists m, resp = error_response m) \/ (exists data, resp = JObject [(str "data", data)])) /\
    (calls = [] \/ exists op op', tryParse stod query = Some (inl op) /\ expandOperation op = Done op' /\
                     calls.*1 `prefix_of` (fname <$> oselections op')).
Proof.
  unfold execute. destruct (tryParse_ok stod query) as (r & -> & _). destruct r as [op|e]; [|by eauto 8].
  unfold execute_operation. destruct (expandOperation op) as [op'| |] eqn:Eo; [|by eauto 8|].
  2:{ unfold expandOperation in Eo. pose proof (expandFragments_finished (fragments op) (oselections op)) as Hf.
      by destruct (expandFragments _ _ _ _). }
  destruct (merge_variables _ _ _) as [vars| |] eqn:Em; [|by eauto 8|by destruct given as [| | | | |[]|]].
  unfold executeQuery, executeMutation.
  destruct (otype op'); [| |by eauto 8].
  - pose proof (execute_fields_calls (getQuery s) (str "Unknown query field: ") vars (oselections op') JNull) as H.
    destruct (execute_fields _ _ _ _ _ _) as [calls [d|e|]]; destruct H as [? Hp]; [|..|done];
      eexists calls, _; (split; [done|]); split; eauto 8.
  - pose proof (execute_fields_calls (getMutation s) (str "Unknown mutation field: ") vars (oselections op') JNull) as H.
    destruct (execute_fields _ _ _ _ _ _) as [calls [d|e|]]; destruct H as [? Hp]; [|..|done];
      eexists calls, _; (split; [done|]); split; eauto 8.
Qed.

(** The resolvers for the fields at the top of an operation. *)
Definition root_resolver (s : SimpleSchema double) (op : Operation double) :=
  match otype op with Query => getQuery s | _ => getMutation s end.

Lemma execute_operation_data (s : SimpleSchema double) op given calls d :
  execute_operation type_error invalid_iterator s op given = (calls, Done d) ->
  exists op' vars, expandOperation op = Done op' /\ otype op' <> Subscription /\
    merge_variables invalid_iterator (initialVariables op') given = Done vars /\
    exists unknown, execute_fields type_error (root_resolver s op') unknown vars (oselections op') JNull = (calls, Done d).
Proof.
  unfold execute_operation, executeQuery, executeMutation, root_resolver.
  destruct (expandOperation op) as [op'| |]; try done.
  destruct (merge_variables _ _ _) as [vars| |] eqn:Em; try done.
  destruct (otype op') eqn:Et; intros H; [..|done]; exists op', vars; rewrite Et; eauto 6.
Qed.

(** C10: when [execute] answers with data, the query parses and its fragments
    expand; the resolver of each field of the expanded operation has been called
    once, in the order of the fields, with the defaults of the variables overridden
    by the variables of the request and these by the field's own arguments; and the
    data has under each name the answer, reduced to the selections below, of the
    last field reported under that name, and no other member. *)
Theorem execute_correct stod (s : SimpleSchema double) (query : bytes) (given : json double) calls data :
  execute type_error invalid_iterator stod s query given = Some (calls, JObject [(str "data", data)]) ->
  exists op op' vars, tryParse stod query = Some (inl op) /\ expandOperation op = Done op' /\
    otype op' <> Subscription /\ merge_variables invalid_iterator (initialVariables op') given = Done vars /\
    Forall2 (fun f c => c.1 = fname f /\ field_args vars f = Done c.2) (oselections op') calls /\
    forall name, member data name = match reported (oselections op') name with
                                    | Some (_, f) => answer (root_resolver s op') vars f
                                    | None => None
                                    end.
Proof.
  unfold execute. destruct (tryParse stod query) as [[op|e]|]; [|done|done].
  destruct (execute_operation _ _ s op given) as [cs o] eqn:E. destruct o as [d|e|]; [|done|done].
  intros [= -> ->]. apply execute_operation_data in E as (op' & vars & Ho & Ht & Hm & unknown & H).
  apply execute_fields_data in H as [Hc Hd]. exists op, op', vars. by split_and!.
Qed.
End execution.

Lemma execute_correct_witness :
  let s := addQuery (mkSchema ∅ ∅ ∅) (str "user") (fun a => inl (JObject [(str "args", JObject a); (str "id", JInt 7)])) in
  let query := str "query($id: Int = 3) { me: user(name: $who) { ...F } } fragment F on User { key: args id }" in
  let given := JObject [(str "who", JString (str "x"))] in
  exists op op' vars, tryParse (double := bytes) Some query = Some (inl op) /\ expandOperation op = Done op' /\
    otype op' <> Subscription /\ merge_variables [] (initialVariables op') given = Done vars /\
    Forall2 (fun f c => c.1 = fname f /\ field_args [] vars f = Done c.2) (oselections op')
      [(str "user", [(str "id", JInt 3); (str "name", JString (str "x")); (str "who", JString (str "x"))])] /\
    forall name, member (JObject [(str "me", JObject [(str "id", JInt 7); (str "key", JObject
        [(str "id", JInt 3); (str "name", JString (str "x")); (str "who", JString (str "x"))])])]) name
      = match reported (oselections op') name with
        | Some (_, f) => answer [] (root_resolver s op') vars f
        | None => None
        end.
Proof. apply (execute_correct (double := bytes) [] []). vm_compute. reflexivity. Defined.

(** ** The limit on nesting *)

(** A query with two fragments, each nested twenty deep, the first of which
    spreads the second at its innermost field. *)
Definition nested_fragment (n : nat) (name body : bytes) : bytes :=
  str "fragment " ++ name ++ str " on T {" ++ concat (repeat (str "a{") n) ++ body ++ concat (repeat (str "}") n) ++ str "} ".

Definition deep_query : bytes :=
  str "{ ...A } " ++ nested_fragment 19 (str "A") (str "...B") ++ nested_fragment 19 (str "B") (str "a").

(** The limit on nesting does not survive expansion: the parser accepts a query
    whose fields, once its fragments are expanded, are nested thirty-nine deep, and
    [expandFragments], which a comment in the parser relies on, does not reject it. *)
Theorem expansion_exceeds_depth :
  match tryParse (double := bytes) Some deep_query with
  | Some (inl op) => match expandOperation op with
                     | Done op' => fields_depth (oselections op') = 39
                     | _ => False
                     end
  | _ => False
  end.
Proof. vm_compute. reflexivity. Qed.
