(* ===== verification/Worker.v ===== *)
(** * Worker threads: [include/worker.hpp]

    [WorkerPool] and [asyncCall].  The threads are interleaved: one [event] is a
    stretch of code between two accesses to what the threads share, and the mutex
    and the condition variable are part of the state.  What a task does, besides
    returning or throwing, is left open; handlers posted to the [io_context] run on
    its one thread. *)

From S2P Require Import Prelude.

Section worker.

(** The result of a task, and [RetType{}]. *)
Context {R : Type} (RetType0 : R).

(** ** Tasks *)

Inductive ending := Returned (r : R) | ThrewStd | ThrewOther.

Inductive error_code := success | operation_canceled.

(** How a function came into the queue: by a call of [addTask], by [asyncCall] or
    by its overload for tasks without a result. *)
Inductive kind := Plain | AsyncCall | AsyncCallVoid.

Record call := mkCall { cid : nat; ckind : kind }.

(** A [std::function], which may be empty. *)
Definition function := option call.

(** A handler posted to the [io_context]: the call whose promise it sets, and what
    it sets it to. *)
Definition post : Type := nat * (error_code * option R).

(** The function that is queued, when the task inside ends: the handlers it posts,
    or [None] if an exception leaves it. *)
Definition asyncCall (c : call) (e : ending) : option (list post) :=
  match ckind c, e with
  | _, ThrewOther => None
  | Plain, Returned _ => Some []
  | Plain, ThrewStd => None
  | AsyncCall, Returned ret => Some [(cid c, (success, Some ret))]
  | AsyncCall, ThrewStd => Some [(cid c, (operation_canceled, Some RetType0))]
  | AsyncCallVoid, Returned _ => Some [(cid c, (success, None))]
  | AsyncCallVoid, ThrewStd => Some [(cid c, (operation_canceled, None))]
  end.

(** ** The pool *)

(** Where a thread is in [run]. *)
Inductive pc :=
  | Loop                     (* at the test of the loop *)
  | WantLock                 (* about to lock the mutex, also inside [wait] *)
  | CheckPred                (* holds it, about to test the predicate of [wait] *)
  | GoSleep                  (* holds it, the predicate was false *)
  | Asleep                   (* waits for a notification *)
  | Woken                    (* holds it, [wait] has returned *)
  | TakeTask                 (* holds it, no stop was requested *)
  | Unlock (task : function) (* about to leave the scope of the lock *)
  | Running (c : call)
  | Exited.

(** How far the destructor is. *)
Inductive phase := Alive | Stopped | Notified | Joined.

Record pool := mkPool {
  task_queue : list function;
  mutex : option nat;
  stop : bool;
  threads : list pc;
  dtor : phase;
  started : list function;       (* taken from the queue *)
  ended : list (call * ending);
  posted : list post;            (* waiting in the [io_context] *)
  resumed : list post;           (* coroutines resumed *)
}.

Definition init (num_threads : nat) : pool := mkPool [] None false (replicate num_threads Loop) Alive [] [] [] [].

Definition set_thread (s : pool) (i : nat) (p : pc) : pool :=
  mkPool (task_queue s) (mutex s) (stop s) (<[i := p]> (threads s)) (dtor s) (started s) (ended s) (posted s) (resumed s).

Definition set_mutex (s : pool) (m : option nat) : pool :=
  mkPool (task_queue s) m (stop s) (threads s) (dtor s) (started s) (ended s) (posted s) (resumed s).

Definition wake (p : pc) : pc := match p with Asleep => WantLock | _ => p end.

(** [condition.notify_all()]: those asleep have to lock the mutex again. *)
Definition notify_all (s : pool) : pool :=
  mkPool (task_queue s) (mutex s) (stop s) (map wake (threads s))
    (dtor s) (started s) (ended s) (posted s) (resumed s).

Definition addTask (s : pool) (task : function) : pool :=
  notify_all (mkPool (task_queue s ++ [task]) (mutex s) (stop s) (threads s) (dtor s) (started s) (ended s)
                (posted s) (resumed s)).

Inductive event :=
  | Step (i : nat)                   (* thread [i] goes on *)
  | TaskEnds (i : nat) (e : ending)  (* the task of thread [i] ends *)
  | Wakeup (i : nat)                 (* a spurious wake-up *)
  | AddTask (task : function)
  | RequestStop | NotifyAll | Join   (* the destructor *)
  | IoRun.                           (* the [io_context] runs a handler *)

Inductive result := Ok (s : pool) | NotEnabled | Undefined | Terminated.

(** One step of [run] in thread [i]. *)
Definition thread_step (s : pool) (i : nat) (p : pc) : result :=
  match p with
  | Loop => Ok (set_thread s i (if stop s then Exited else WantLock))
  | WantLock => match mutex s with
                | None => Ok (set_thread (set_mutex s (Some i)) i CheckPred)
                | Some _ => NotEnabled
                end
  | CheckPred => Ok (set_thread s i (if bool_decide (task_queue s <> []) || stop s then Woken else GoSleep))
  | GoSleep => Ok (set_thread (set_mutex s None) i Asleep)
  | Asleep => NotEnabled
  | Woken => Ok (set_thread s i (if stop s then Unlock None else TakeTask))
  | TakeTask =>
      match task_queue s with
      | [] => Undefined
      | task :: q => Ok (mkPool q (mutex s) (stop s) (<[i := Unlock task]> (threads s)) (dtor s)
                           (started s ++ [task]) (ended s) (posted s) (resumed s))
      end
  | Unlock task => Ok (set_thread (set_mutex s None) i (match task with Some c => Running c | None => Exited end))
  | Running _ => NotEnabled
  | Exited => NotEnabled
  end.

Definition set_dtor (s : pool) (st : bool) (d : phase) : pool :=
  mkPool (task_queue s) (mutex s) st (threads s) d (started s) (ended s) (posted s) (resumed s).

Definition exited (p : pc) : bool := match p with Exited => true | _ => false end.

(** The body of [addTask] is one event: it holds the mutex throughout. *)
Definition step (s : pool) (e : event) : result :=
  match e with
  | Step i => match threads s !! i with Some p => thread_step s i p | None => NotEnabled end
  | TaskEnds i e =>
      match threads s !! i with
      | Some (Running c) =>
          match asyncCall c e with
          | None => Terminated
          | Some ps => Ok (mkPool (task_queue s) (mutex s) (stop s) (<[i := Loop]> (threads s)) (dtor s)
                             (started s) (ended s ++ [(c, e)]) (posted s ++ ps) (resumed s))
          end
      | _ => NotEnabled
      end
  | Wakeup i => match threads s !! i with Some Asleep => Ok (set_thread s i WantLock) | _ => NotEnabled end
  | AddTask task => match mutex s, dtor s with None, Alive => Ok (addTask s task) | _, _ => NotEnabled end
  | RequestStop => match dtor s with Alive => Ok (set_dtor s true Stopped) | _ => NotEnabled end
  | NotifyAll => match dtor s with Stopped => Ok (notify_all (set_dtor s (stop s) Notified)) | _ => NotEnabled end
  | Join => match dtor s with
            | Notified => if forallb exited (threads s) then Ok (set_dtor s (stop s) Joined) else NotEnabled
            | _ => NotEnabled
            end
  | IoRun => match posted s with
             | [] => NotEnabled
             | p :: ps => Ok (mkPool (task_queue s) (mutex s) (stop s) (threads s) (dtor s) (started s) (ended s)
                                ps (resumed s ++ [p]))
             end
  end.

Fixpoint run (s : pool) (es : list event) : result :=
  match es with
  | [] => Ok s
  | e :: es => match step s e with Ok s' => run s' es | r => r end
  end.

End worker.

Arguments pool : clear implicits.
Arguments ending : clear implicits.
Arguments event : clear implicits.
Arguments result : clear implicits.

(** ** What holds in every interleaving *)

Section facts.

Context {R : Type} (RetType0 : R).
Implicit Types (s : pool R) (es : list (event R)).

(** The thread is inside the scope of the lock. *)
Definition holds (p : pc) : bool :=
  match p with CheckPred | GoSleep | Woken | TakeTask | Unlock _ => true | _ => false end.

(** What a thread relies on at a point of [run]. *)
Definition pc_ok (q : list function) (stop : bool) (started : list function) (p : pc) : Prop :=
  match p with
  | GoSleep | Asleep => stop = true \/ q = []
  | Woken => stop = true \/ q <> []
  | TakeTask => q <> []
  | Unlock None | Exited => stop = true \/ None ∈ started
  | _ => True
  end.

Record inv (s : pool R) : Prop := {
  inv_holder : forall i p, threads s !! i = Some p -> holds p = true -> mutex s = Some i;
  inv_mutex : forall i, mutex s = Some i -> exists p, threads s !! i = Some p /\ holds p = true;
  inv_pc : forall i p, threads s !! i = Some p -> pc_ok (task_queue s) (stop s) (started s) p;
  inv_stop : stop s = false <-> dtor s = Alive;
}.

Lemma init_inv n : inv (init n).
Proof.
  split; cbn.
  - intros i p [-> _]%lookup_replicate. done.
  - done.
  - intros i p [-> _]%lookup_replicate. done.
  - done.
Qed.

(** A thread goes on and takes or gives back the mutex; the queue, the stop and the
    tasks started may change as long as the other threads do not mind. *)
Lemma inv_move s s' i p p' :
  inv s -> threads s !! i = Some p -> threads s' = <[i := p']> (threads s) -> dtor s' = dtor s -> stop s' = stop s ->
  mutex s' = (if holds p' then Some i else if holds p then None else mutex s) ->
  (holds p' = true -> holds p = true \/ mutex s = None) ->
  pc_ok (task_queue s') (stop s') (started s') p' ->
  (forall j q, i <> j -> threads s !! j = Some q -> pc_ok (task_queue s) (stop s) (started s) q ->
     (holds p = true -> holds q = false) -> pc_ok (task_queue s') (stop s') (started s') q) ->
  inv s'.
Proof.
  intros Hs Hi Ht Hd Hst Hm Hfree Hp' Hothers.
  assert (Hexcl : forall j q, i <> j -> threads s !! j = Some q -> holds p = true -> holds q = false).
  { intros j q Hij Hj Hp. destruct (holds q) eqn:E; [|done].
    pose proof (inv_holder s Hs _ _ Hj E). pose proof (inv_holder s Hs _ _ Hi Hp). congruence. }
  split.
  - intros j q. rewrite Ht, Hm. intros [(<- & <- & _)|[Hij Hj]]%list_lookup_insert_Some Hq; [by rewrite Hq|].
    pose proof (inv_holder s Hs _ _ Hj Hq) as Hmj.
    destruct (holds p) eqn:Ep; [by rewrite (Hexcl j q) in Hq|].
    destruct (holds p'); [|done]. destruct (Hfree eq_refl); [done|congruence].
  - intros j. rewrite Ht, Hm. intros Hmj. destruct (decide (i = j)) as [<-|Hij].
    + exists p'. split; [apply list_lookup_insert_Some; left; split_and!; [done|done|by eapply lookup_lt_Some]|].
      destruct (holds p') eqn:E; [done|]. destruct (holds p) eqn:E2; [done|].
      apply (inv_mutex s Hs) in Hmj as (q & Hq & ?). rewrite Hi in Hq. congruence.
    + rewrite list_lookup_insert_ne by done. destruct (holds p'); [congruence|]. destruct (holds p); [done|].
      by apply (inv_mutex s Hs).
  - intros j q. rewrite Ht. intros [(<- & <- & _)|[Hij Hj]]%list_lookup_insert_Some; [done|].
    apply (Hothers j); eauto using inv_pc.
  - rewrite Hd, Hst. apply (inv_stop s Hs).
Qed.

Lemma thread_step_inv s s' i p : inv s -> threads s !! i = Some p -> thread_step s i p = Ok s' -> inv s'.
Proof.
  intros Hs Hi H. pose proof (inv_pc s Hs _ _ Hi) as Hok.
  destruct p; cbn in H; simplify_eq.
  - apply (inv_move s _ i Loop (if stop s then Exited else WantLock)); cbn; try done;
      [by destruct (stop s)|by destruct (stop s)|destruct (stop s); [by left|done]].
  - destruct (mutex s) eqn:E; simplify_eq.
    apply (inv_move s _ i WantLock CheckPred); cbn; auto.
  - apply (inv_move s _ i CheckPred (if bool_decide (task_queue s <> []) || stop s then Woken else GoSleep)); cbn; try done.
    + rewrite (inv_holder s Hs _ _ Hi) by done. by destruct (_ || _).
    + by left.
    + destruct (bool_decide (task_queue s <> [])) eqn:E, (stop s); cbn; [by left|right|by left|right].
      * by apply bool_decide_eq_true in E.
      * apply bool_decide_eq_false in E. by apply dec_stable.
  - apply (inv_move s _ i GoSleep Asleep); cbn; auto.
  - apply (inv_move s _ i Woken (if stop s then Unlock None else TakeTask)); cbn; try done.
    + rewrite (inv_holder s Hs _ _ Hi) by done. by destruct (stop s).
    + by left.
    + destruct (stop s); cbn in *; [by left|]. by destruct Hok.
  - destruct (task_queue s) as [|task q] eqn:Eq; simplify_eq.
    apply (inv_move s _ i TakeTask (Unlock task)); cbn; try done.
    + by apply (inv_holder s Hs _ _ Hi).
    + by left.
    + destruct task; [done|]. right. set_solver.
    + rewrite Eq. intros j p Hij Hj Hp Hh. specialize (Hh eq_refl).
      destruct p as [| | | | | | |[]| |]; cbn in *; try done; destruct Hp; try done; try (by left). right. set_solver.
  - apply (inv_move s _ i (Unlock task) (match task with Some c => Running c | None => Exited end)); cbn; try done;
      by destruct task.
Qed.

Lemma holds_wake p : holds (wake p) = holds p.
Proof. by destruct p. Qed.

(** Whoever is notified is no longer asleep; the others stay where they are. *)
Lemma inv_wake s s' :
  inv s -> threads s' = map wake (threads s) -> mutex s' = mutex s -> (stop s' = false <-> dtor s' = Alive) ->
  (forall i p, threads s !! i = Some p -> p <> Asleep ->
     pc_ok (task_queue s) (stop s) (started s) p -> pc_ok (task_queue s') (stop s') (started s') p) ->
  inv s'.
Proof.
  intros Hs Ht Hm Hst Hpc.
  assert (Hl : forall i q, threads s' !! i = Some q -> exists p, threads s !! i = Some p /\ q = wake p).
  { intros i q. rewrite Ht. fold (fmap (M := list) wake (threads s)). rewrite list_lookup_fmap.
    intros (p & ? & ?)%fmap_Some. eauto. }
  split; [| | |done].
  - intros i q (p & Hp & ->)%Hl. rewrite holds_wake, Hm. by apply (inv_holder s Hs).
  - intros i. rewrite Hm. intros (p & Hp & Hh)%(inv_mutex s Hs). exists (wake p). rewrite Ht, holds_wake. split; [|done].
    fold (fmap (M := list) wake (threads s)). by rewrite list_lookup_fmap, Hp.
  - intros i q (p & Hp & ->)%Hl. pose proof (inv_pc s Hs _ _ Hp) as Hok.
    assert (Hp' : p <> Asleep -> pc_ok (task_queue s') (stop s') (started s') p) by eauto.
    destruct p; cbn in *; try done; by apply Hp'.
Qed.

Lemma step_inv s s' e : inv s -> step RetType0 s e = Ok s' -> inv s'.
Proof.
  intros Hs H. destruct e as [i|i e|i|task| | | |]; cbn in H.
  - destruct (threads s !! i) as [p|] eqn:Hi; [|done]. by eapply thread_step_inv.
  - destruct (threads s !! i) as [[| | | | | | | |c|]|] eqn:Hi; try done.
    destruct (asyncCall RetType0 c e); simplify_eq. apply (inv_move s _ i (Running c) Loop); by cbn.
  - destruct (threads s !! i) as [[| | | | | | | | |]|] eqn:Hi; simplify_eq. apply (inv_move s _ i Asleep WantLock); by cbn.
  - destruct (mutex s) eqn:Hm, (dtor s) eqn:Hd; simplify_eq.
    apply (inv_wake s); cbn; [done|done|done|apply (inv_stop s Hs)|].
    intros i p Hi Hp Hok. assert (holds p = false).
    { destruct (holds p) eqn:E; [|done]. pose proof (inv_holder s Hs _ _ Hi E). congruence. }
    by destruct p; cbn in *.
  - destruct (dtor s) eqn:Hd; simplify_eq. destruct Hs as [Hh Hm Hp Hst]. split; cbn; [done|done| |done].
    intros i p Hi. specialize (Hp i p Hi). destruct p as [| | | | | | |[]| |]; cbn in *; auto.
  - destruct (dtor s) eqn:Hd; simplify_eq. apply (inv_wake s); cbn; [done|done|done| |done].
    split; [|done]. intros ?%(inv_stop s Hs). congruence.
  - destruct (dtor s) eqn:Hd; try done. destruct (forallb _ _); simplify_eq. destruct Hs as [Hh Hm Hp Hst].
    split; cbn; [done|done|done|]. split; [|done]. intros ?%Hst. congruence.
  - destruct (posted s); simplify_eq. by destruct Hs.
Qed.

Lemma run_inv s es s' : inv s -> run RetType0 s es = Ok s' -> inv s'.
Proof.
  revert s. induction es as [|e es IH]; cbn; intros s Hs H; [by simplify_eq|].
  destruct (step RetType0 s e) eqn:E; try done. eauto using step_inv.
Qed.

(** [task_queue.front()] is never called on an empty queue. *)
Lemma step_defined s e : inv s -> step RetType0 s e <> Undefined.
Proof.
  intros Hs H. destruct e as [i|i e|i|task| | | |]; cbn in H.
  - destruct (threads s !! i) as [p|] eqn:Hi; [|done]. pose proof (inv_pc s Hs _ _ Hi) as Hok.
    destruct p; cbn in *; try done; [by destruct (mutex s)|]. by destruct (task_queue s).
  - destruct (threads s !! i) as [[| | | | | | | |c|]|]; try done. by destruct (asyncCall RetType0 c e).
  - by destruct (threads s !! i) as [[]|].
  - by destruct (mutex s), (dtor s).
  - by destruct (dtor s).
  - by destruct (dtor s).
  - destruct (dtor s); try done. by destruct (forallb _ _).
  - by destruct (posted s).
Qed.

(** In every interleaving of the threads, the callers of [addTask], the
    destructor and the [io_context], at most one thread is inside the scope of the
    lock, no task is taken from an empty queue, and while the pool is not being
    destroyed no worker sleeps, or is about to, when a task is waiting. *)
Theorem worker_safe n es :
  run RetType0 (init n) es <> Undefined /\
  forall s, run RetType0 (init n) es = Ok s ->
    (forall i j p q, threads s !! i = Some p -> threads s !! j = Some q -> holds p = true -> holds q = true -> i = j) /\
    (dtor s = Alive -> task_queue s <> [] -> Forall (fun p => p <> Asleep /\ p <> GoSleep) (threads s)).
Proof.
  split.
  - generalize (init_inv n). generalize (init (R := R) n) as s. induction es as [|e es IH]; intros s Hs H; [done|].
    cbn in H. pose proof (step_defined s e Hs). destruct (step RetType0 s e) eqn:E; try done. eapply IH; [|done]. by eapply step_inv.
  - intros s H. apply run_inv in H; [|apply init_inv]. split.
    + intros i j p q Hi Hj Hp Hq. pose proof (inv_holder s H _ _ Hi Hp). pose proof (inv_holder s H _ _ Hj Hq). congruence.
    + intros Hd Hq. apply Forall_lookup. intros i p Hi. pose proof (inv_pc s H _ _ Hi) as Hok.
      apply (inv_stop s H) in Hd. destruct p; try done; destruct Hok; congruence.
Qed.

(** ** No task is lost, and every call is answered *)

(** The functions added, in order. *)
Definition added (es : list (event R)) : list function :=
  omap (fun e => match e with AddTask f => Some f | _ => None end) es.

(** The call a thread has taken and not yet ended. *)
Definition current (p : pc) : option call :=
  match p with Unlock task => task | Running c => Some c | _ => None end.

Definition answers (ce : call * ending R) : list (post (R := R)) := default [] (asyncCall RetType0 ce.1 ce.2).

Record conserved (s : pool R) (fs : list function) : Prop := {
  cons_order : started s ++ task_queue s = fs;
  cons_calls : omap id (started s) ≡ₚ omap current (threads s) ++ (ended s).*1;
  cons_posts : resumed s ++ posted s = concat (map answers (ended s));
}.

(** The call of one thread in exchange for another. *)
Lemma omap_insert {A B} (f : A -> option B) (l : list A) i x y :
  l !! i = Some x -> option_list (f x) ++ omap f (<[i := y]> l) ≡ₚ option_list (f y) ++ omap f l.
Proof.
  revert i. induction l as [|z l IH]; intros [|i] H; simplify_eq/=.
  - destruct (f x), (f y); cbn; solve_Permutation || done.
  - specialize (IH i H). destruct (f z) as [w|]; [|done].
    rewrite <- !Permutation_middle. by rewrite IH.
Qed.

Lemma same_current (l : list pc) i p p' :
  l !! i = Some p -> current p' = current p -> omap current (<[i := p']> l) ≡ₚ omap current l.
Proof. intros Hi Hc. pose proof (omap_insert current l i p p' Hi) as H. rewrite Hc in H. by apply Permutation_app_inv_l in H. Qed.

Lemma conserved_move s s' i p p' fs :
  conserved s fs -> threads s !! i = Some p -> threads s' = <[i := p']> (threads s) -> current p' = current p ->
  started s' = started s -> task_queue s' = task_queue s -> ended s' = ended s -> posted s' = posted s ->
  resumed s' = resumed s -> conserved s' fs.
Proof.
  intros [H1 H2 H3] Hi Ht Hc Hst Hq He Hp Hr. split; rewrite ?Hst, ?Hq, ?He, ?Hp, ?Hr, ?Ht; [done| |done].
  by rewrite (same_current _ _ _ _ Hi Hc).
Qed.

Lemma conserved_thread s s' i p fs :
  conserved s fs -> threads s !! i = Some p -> thread_step s i p = Ok s' -> conserved s' fs.
Proof.
  intros Hc Hi H. destruct p; cbn in H; simplify_eq.
  - eapply conserved_move; [exact Hc|exact Hi|done|by destruct (stop s)|done..].
  - destruct (mutex s); simplify_eq. eapply conserved_move; [exact Hc|exact Hi|done..].
  - eapply conserved_move; [exact Hc|exact Hi|done|by destruct (_ || _)|done..].
  - eapply conserved_move; [exact Hc|exact Hi|done..].
  - eapply conserved_move; [exact Hc|exact Hi|done|by destruct (stop s)|done..].
  - destruct (task_queue s) as [|task q] eqn:Eq; simplify_eq. destruct Hc as [H1 H2 H3]. split; cbn; [|..|done].
    + rewrite <- app_assoc. by rewrite Eq in H1.
    + rewrite omap_app, H2. pose proof (omap_insert current _ _ _ (Unlock task) Hi) as Ho. cbn in Ho. rewrite Ho.
      by destruct task; cbn; rewrite ?app_nil_r, ?(Permutation_app_comm _ [_]).
  - eapply conserved_move; [exact Hc|exact Hi|done|by destruct task|done..].
Qed.

Lemma current_wake (l : list pc) : omap current (map wake l) = omap current l.
Proof.
  induction l as [|p l IH]; [done|]. cbn [map omap list_omap].
  replace (current (wake p)) with (current p) by by destruct p. by destruct (current p); rewrite <- IH.
Qed.

Lemma worker_conserved_step s s' e fs : conserved s fs -> step RetType0 s e = Ok s' -> conserved s' (fs ++ added [e]).
Proof.
  intros Hc H. destruct e as [i|i e|i|task| | | |]; cbn in *; rewrite ?app_nil_r.
  - destruct (threads s !! i) as [p|] eqn:Hi; [|done]. by eapply conserved_thread.
  - destruct (threads s !! i) as [[| | | | | | | |c|]|] eqn:Hi; try done.
    destruct (asyncCall RetType0 c e) as [ps|] eqn:Ea; simplify_eq. destruct Hc as [H1 H2 H3]. split; cbn; [done| |].
    + pose proof (omap_insert current _ _ _ Loop Hi) as Ho. cbn in Ho. rewrite H2, <- Ho, fmap_app. cbn.
      by rewrite (Permutation_app_comm _ [c]), Permutation_middle.
    + rewrite map_app, concat_app, <- H3. unfold answers. cbn. rewrite Ea. cbn. by rewrite app_nil_r, app_assoc.
  - destruct (threads s !! i) as [[| | | | | | | | |]|] eqn:Hi; simplify_eq. eapply conserved_move; [exact Hc|exact Hi|done..].
  - destruct (mutex s), (dtor s); simplify_eq. destruct Hc as [H1 H2 H3]. split; cbn; [by rewrite app_assoc, H1| |done].
    by rewrite H2, current_wake.
  - destruct (dtor s); simplify_eq. by destruct Hc.
  - destruct (dtor s); simplify_eq. destruct Hc as [H1 H2 H3]. split; cbn; [done| |done].
    by rewrite H2, current_wake.
  - destruct (dtor s); try done. destruct (forallb _ _); simplify_eq. by destruct Hc.
  - destruct (posted s) eqn:E; simplify_eq. destruct Hc as [H1 H2 H3]. split; cbn; [done|done|].
    by rewrite <- app_assoc, <- H3, E.
Qed.

Lemma conserved_run s es s' fs : conserved s fs -> run RetType0 s es = Ok s' -> conserved s' (fs ++ added es).
Proof.
  revert s fs. induction es as [|e es IH]; cbn; intros s fs Hs H; [simplify_eq; by rewrite app_nil_r|].
  destruct (step RetType0 s e) eqn:E; try done. eapply worker_conserved_step in E; [|exact Hs].
  eapply IH in E; [|exact H]. revert E. rewrite <- app_assoc. unfold added. cbn. by destruct e.
Qed.

Lemma init_conserved n : conserved (init n) [].
Proof. split; cbn; [done| |done]. induction n; cbn; done. Qed.

(** Tasks are started in the order in which they were added, each once; those
    started are the ones that threads have in hand and the ones that have ended; and
    what the coroutines are resumed with is, in the order in which the tasks ended,
    for each [asyncCall] the value of its task, or [operation_canceled] if the task
    threw. *)
Theorem worker_conserved n es s :
  run RetType0 (init n) es = Ok s ->
  started s ++ task_queue s = added es /\
  omap id (started s) ≡ₚ omap current (threads s) ++ (ended s).*1 /\
  resumed s ++ posted s = concat (map answers (ended s)).
Proof. intros H. eapply conserved_run in H; [|apply init_conserved]. by destruct H. Qed.

(** ** The pool works off its queue *)

(** What the threads do by themselves; a task ends as its wrapper lets it. *)
Definition internal (e : event R) : bool := match e with Step _ | TaskEnds _ _ => true | _ => false end.

Definition weight (p : pc) : nat :=
  match p with
  | Exited | Asleep => 0
  | GoSleep | TakeTask | Unlock None => 1
  | Woken => 2 | CheckPred => 3 | WantLock => 4 | Loop => 5 | Running _ => 6 | Unlock (Some _) => 7
  end.

(** A bound on the steps left. *)
Definition work (s : pool R) : nat := sum_list (map weight (threads s)) + 10 * length (task_queue s).

Lemma sum_insert (l : list pc) i p p' :
  l !! i = Some p -> sum_list (map weight (<[i := p']> l)) + weight p = sum_list (map weight l) + weight p'.
Proof. revert i. induction l as [|x l IH]; intros [|i] H; simplify_eq/=; [lia|]. specialize (IH i H). lia. Qed.

Lemma work_decreases s s' e : internal e = true -> step RetType0 s e = Ok s' -> work s' < work s.
Proof.
  intros Hi H. destruct e as [i|i e| | | | | |]; try done; cbn in H.
  - destruct (threads s !! i) as [p|] eqn:Ei; [|done]. pose proof (fun p' => sum_insert _ _ _ p' Ei) as Hsum.
    unfold work. destruct p; cbn in H; simplify_eq; cbn.
    + specialize (Hsum (if stop s then Exited else WantLock)). destruct (stop s); cbn in *; lia.
    + destruct (mutex s); simplify_eq. cbn. specialize (Hsum CheckPred). cbn in *. lia.
    + specialize (Hsum (if bool_decide (task_queue s <> []) || stop s then Woken else GoSleep)).
      destruct (_ || _); cbn in *; lia.
    + specialize (Hsum Asleep). cbn in *. lia.
    + specialize (Hsum (if stop s then Unlock None else TakeTask)). destruct (stop s); cbn in *; lia.
    + destruct (task_queue s) as [|task q]; simplify_eq. cbn. specialize (Hsum (Unlock task)).
      destruct task; cbn in *; lia.
    + specialize (Hsum (match task with Some c => Running c | None => Exited end)). destruct task; cbn in *; lia.
  - destruct (threads s !! i) as [[| | | | | | | |c|]|] eqn:Ei; try done.
    destruct (asyncCall RetType0 c e); simplify_eq. pose proof (sum_insert _ _ _ Loop Ei). unfold work. cbn in *. lia.
Qed.

Lemma work_bound s es s' : forallb internal es = true -> run RetType0 s es = Ok s' -> length es + work s' <= work s.
Proof.
  revert s. induction es as [|e es IH]; cbn; intros s Hi H; [by simplify_eq|].
  apply andb_true_iff in Hi as [He Hi]. destruct (step RetType0 s e) as [s1| | |] eqn:E; try done.
  pose proof (work_decreases _ _ _ He E). specialize (IH s1 Hi H). lia.
Qed.

(** Nothing can happen by itself. *)
Definition quiet (s : pool R) : Prop := forall e, internal e = true -> step RetType0 s e = NotEnabled.

Definition idle (p : pc) : bool := match p with Asleep | Exited => true | _ => false end.

Lemma thread_progress s i p :
  inv s -> threads s !! i = Some p -> idle p = false -> (p = WantLock -> mutex s = None) ->
  exists e s', internal e = true /\ step RetType0 s e = Ok s'.
Proof.
  intros Hs Hi Hp Hm. pose proof (inv_pc s Hs _ _ Hi) as Hok. destruct p; try done.
  8: exists (TaskEnds i (Returned RetType0)); cbn; rewrite Hi; destruct c as [? []]; cbn; eauto.
  all: exists (Step i); cbn; rewrite Hi; cbn.
  2: rewrite Hm by done.
  6: destruct (task_queue s); [done|].
  all: eauto.
Qed.

(** Unless every thread is asleep or gone, one can go on. *)
Lemma progress s :
  inv s -> Forall (fun p => idle p = true) (threads s) \/ exists e s', internal e = true /\ step RetType0 s e = Ok s'.
Proof.
  intros Hs. destruct (decide (Forall (fun p => idle p = true) (threads s))) as [|Hn]; [by left|right].
  apply not_Forall_Exists in Hn; [|apply _]. apply Exists_exists in Hn as (p & [i Hi]%list_elem_of_lookup & Hp).
  apply not_true_is_false in Hp. destruct (mutex s) as [j|] eqn:Em; [|by eauto using thread_progress].
  destruct (inv_mutex s Hs j Em) as (q & Hj & Hh). apply (thread_progress s j q); [done|done|by destruct q|by intros ->].
Qed.

Lemma idle_quiet s : Forall (fun p => idle p = true) (threads s) -> quiet s.
Proof.
  intros Ht e He. rewrite Forall_lookup in Ht. destruct e as [i|i e| | | | | |]; try done; cbn;
    destruct (threads s !! i) as [p|] eqn:Hi; try done; specialize (Ht i p Hi); by destruct p.
Qed.

Lemma quiet_idle s : inv s -> quiet s -> Forall (fun p => idle p = true) (threads s).
Proof. intros Hs Hq. destruct (progress s Hs) as [|(e & s' & He & H)]; [done|]. by rewrite Hq in H. Qed.

Lemma run_to_quiet s : inv s -> exists es s', forallb internal es = true /\ run RetType0 s es = Ok s' /\ quiet s'.
Proof.
  induction s as [s IH] using (induction_ltof1 _ work). unfold ltof in IH. intros Hs.
  destruct (progress s Hs) as [Ht|(e & s1 & He & H)]; [exists [], s; eauto using idle_quiet|].
  destruct (IH s1) as (es & s' & Hes & Hr & Hq); [by eapply work_decreases|by eapply step_inv|].
  exists (e :: es), s'. cbn. by rewrite He, Hes, H.
Qed.

Lemma step_threads s s' e : step RetType0 s e = Ok s' -> length (threads s') = length (threads s).
Proof.
  intros H. destruct e as [i|i e|i|task| | | |]; cbn in H; repeat case_match; simplify_eq; cbn;
    rewrite ?length_insert, ?length_map; try done.
  destruct p; cbn in H; repeat case_match; simplify_eq; cbn; by rewrite ?length_insert.
Qed.

Lemma run_threads s es s' : run RetType0 s es = Ok s' -> length (threads s') = length (threads s).
Proof.
  revert s. induction es as [|e es IH]; cbn; intros s H; [by simplify_eq|].
  destruct (step RetType0 s e) as [s1| | |] eqn:E; try done. apply IH in H. by apply step_threads in E; rewrite H.
Qed.

(** C20: a pool with a thread works off its queue: by themselves the threads make
    only a bounded number of steps, and when they have made them, as long as the
    pool is not being destroyed and no empty function was added, every task that
    was added has run and ended. *)
Theorem worker_drains n es s :
  0 < n -> None ∉ added es -> run RetType0 (init n) es = Ok s ->
  (forall es' s', forallb internal es' = true -> run RetType0 s es' = Ok s' -> length es' <= work s) /\
  (quiet s -> dtor s = Alive -> task_queue s = [] /\ omap id (added es) ≡ₚ (ended s).*1).
Proof.
  intros Hn Hadd H. split; [intros es' s' Hi H'; pose proof (work_bound _ _ _ Hi H'); lia|].
  intros Hq Hd. assert (Hs : inv s) by (eapply run_inv; [apply init_inv|exact H]).
  assert (Hlen : length (threads s) = n) by (eapply run_threads in H; cbn in H; by rewrite H, length_replicate).
  eapply conserved_run in H; [|apply init_conserved]. destruct H as [H1 H2 _]. cbn in H1.
  pose proof (quiet_idle s Hs Hq) as Ht. pose proof (proj2 (inv_stop s Hs) Hd) as Hst.
  assert (Hasleep : Forall (fun p => p = Asleep) (threads s)).
  { apply Forall_lookup. intros i p Hi. rewrite Forall_lookup in Ht. pose proof (Ht i p Hi). destruct p; try done.
    destruct (inv_pc s Hs _ _ Hi) as [?|Hin]; [congruence|]. destruct Hadd. rewrite <- H1. set_solver. }
  assert (Hempty : task_queue s = []).
  { destruct (threads s) as [|p ts] eqn:E; [cbn in Hlen; lia|]. apply Forall_cons in Hasleep as [-> _].
    destruct (inv_pc s Hs 0 Asleep) as [?|?]; [by rewrite E|congruence|done]. }
  split; [done|]. rewrite Hempty, app_nil_r in H1. rewrite <- H1, H2.
  replace (omap current (threads s)) with ([] : list call); [done|].
  symmetry. clear -Hasleep. by induction Hasleep as [|? ? ->].
Qed.

(** ** Stopping *)

Definition sleepy (p : pc) : bool := match p with Asleep | GoSleep => true | _ => false end.

(** After a stop a thread sleeps only if it did, or was about to, before. *)
Lemma sleepy_before s s' e i q :
  internal e = true -> stop s = true -> step RetType0 s e = Ok s' -> threads s' !! i = Some q -> sleepy q = true ->
  stop s' = true /\ dtor s' = dtor s /\ exists p, threads s !! i = Some p /\ sleepy p = true.
Proof.
  intros He Hst H Hi Hq. destruct e as [j|j e| | | | | |]; try done; cbn in H.
  - destruct (threads s !! j) as [p|] eqn:Hj; [|done].
    destruct p; cbn in H; rewrite ?Hst, ?orb_true_r in H; repeat case_match; simplify_eq; cbn in *; (split; [done|split; [done|]]);
      apply list_lookup_insert_Some in Hi as [(<- & <- & _)|[_ Hi]]; eauto; done.
  - repeat case_match; simplify_eq. cbn in *. split; [done|split; [done|]].
    apply list_lookup_insert_Some in Hi as [(<- & <- & _)|[_ Hi]]; [done|eauto].
Qed.

Lemma internal_dtor s s' e : internal e = true -> step RetType0 s e = Ok s' -> dtor s' = dtor s /\ stop s' = stop s.
Proof.
  intros He H. destruct e as [j|j e| | | | | |]; try done; cbn in H.
  - destruct (threads s !! j) as [p|]; [|done]. by destruct p; cbn in H; repeat case_match; simplify_eq.
  - by repeat case_match; simplify_eq.
Qed.

Lemma run_internal s es s' :
  forallb internal es = true -> run RetType0 s es = Ok s' -> stop s = true ->
  dtor s' = dtor s /\ forall i q, threads s' !! i = Some q -> sleepy q = true ->
    exists p, threads s !! i = Some p /\ sleepy p = true.
Proof.
  revert s. induction es as [|e es IH]; cbn; intros s Hi H Hst; [simplify_eq; eauto|].
  apply andb_true_iff in Hi as [He Hi]. destruct (step RetType0 s e) as [s1| | |] eqn:E; try done.
  destruct (internal_dtor _ _ _ He E) as [Hd1 Hst1]. rewrite Hst in Hst1.
  destruct (IH s1 Hi H Hst1) as [Hd Hs]. split; [congruence|]. intros i q Hq Hsq.
  destruct (Hs i q Hq Hsq) as (p & Hp & Hsp). by eapply sleepy_before in Hp as (_ & _ & ?).
Qed.

(** A thread that is asleep is not woken by the others. *)
Lemma stays_asleep s es s' i :
  forallb internal es = true -> run RetType0 s es = Ok s' -> threads s !! i = Some Asleep -> threads s' !! i = Some Asleep.
Proof.
  revert s. induction es as [|e es IH]; cbn; intros s Hi H Ha; [by simplify_eq|].
  apply andb_true_iff in Hi as [He Hi]. destruct (step RetType0 s e) as [s1| | |] eqn:E; try done.
  apply (IH s1 Hi H). destruct e as [j|j e| | | | | |]; try done; cbn in E; destruct (decide (i = j)) as [<-|Hij].
  - by rewrite Ha in E.
  - destruct (threads s !! j) as [p|]; [|done].
    by destruct p; cbn in E; repeat case_match; simplify_eq; cbn; rewrite list_lookup_insert_ne by done.
  - by rewrite Ha in E.
  - repeat case_match; simplify_eq. cbn. by rewrite list_lookup_insert_ne by done.
Qed.

Lemma join_blocked s : dtor s = Notified -> quiet s -> inv s ->
  step RetType0 s Join = NotEnabled -> exists i, threads s !! i = Some Asleep.
Proof.
  intros Hd Hq Hs H. cbn in H. rewrite Hd in H. destruct (forallb exited (threads s)) eqn:E; [done|].
  pose proof (quiet_idle s Hs Hq) as Ht. clear -E Ht. induction Ht as [|p ts Hp _ IH]; cbn in E; [done|].
  destruct p; try done; [by exists 0|]. destruct (IH E) as [i Hi]. by exists (S i).
Qed.

Lemma blocked_run s s1 :
  inv s -> step RetType0 s NotifyAll = Ok s1 -> (exists i, threads s !! i = Some GoSleep) ->
  exists es s', forallb internal es = true /\ run RetType0 s1 es = Ok s' /\ quiet s' /\ step RetType0 s' Join = NotEnabled.
Proof.
  intros Hs H1 [i Hi]. pose proof (step_inv _ _ _ Hs H1) as Hs1.
  assert (threads s1 !! i = Some GoSleep /\ dtor s1 = Notified /\ stop s1 = true) as (Hi1 & Hd1 & Hst1).
  { cbn in H1. destruct (dtor s) eqn:Hd; simplify_eq. cbn. split_and!; [|done|].
    - fold (fmap (M := list) wake (threads s)). by rewrite list_lookup_fmap, Hi.
    - destruct (stop s) eqn:E; [done|]. apply (inv_stop s Hs) in E. congruence. }
  assert (H2 : exists s2, step RetType0 s1 (Step i) = Ok s2 /\ threads s2 !! i = Some Asleep).
  { cbn. rewrite Hi1. cbn. eexists. split; [done|]. cbn.
    apply list_lookup_insert_eq. by eapply lookup_lt_Some. }
  destruct H2 as (s2 & H2 & Ha). pose proof (step_inv _ _ _ Hs1 H2) as Hs2.
  destruct (internal_dtor _ _ (Step i) eq_refl H2) as [Hd2 Hst2].
  destruct (run_to_quiet s2 Hs2) as (es & s' & Hes & Hr & Hq). exists (Step i :: es), s'.
  split; [done|]. cbn [run]. rewrite H2. split; [done|]. split; [done|].
  pose proof (stays_asleep _ _ _ _ Hes Hr Ha) as Ha'.
  destruct (run_internal _ _ _ Hes Hr) as [Hd' _]; [congruence|]. cbn. rewrite Hd', Hd2, Hd1.
  destruct (forallb exited (threads s')) eqn:E; [|done]. rewrite forallb_forall in E.
  specialize (E Asleep). rewrite <- list_elem_of_In in E. by specialize (E (list_elem_of_lookup_2 _ _ _ Ha')).
Qed.

(** The destructor, which requests the stop and notifies without holding the
    mutex, can wait for ever for a thread, all tasks ended and without a spurious
    wake-up, exactly when a thread has found the predicate of [wait] false before
    the stop and is not yet asleep when [notify_all] is called; otherwise every
    thread comes to its end. *)
Theorem worker_stop_iff n es s s1 :
  run RetType0 (init n) es = Ok s -> step RetType0 s NotifyAll = Ok s1 ->
  ((exists es' s', forallb internal es' = true /\ run RetType0 s1 es' = Ok s' /\ quiet s' /\
                   step RetType0 s' Join = NotEnabled)
   <-> exists i, threads s !! i = Some GoSleep).
Proof.
  intros H H1. assert (Hs : inv s) by (eapply run_inv; [apply init_inv|exact H]).
  split; [|by apply blocked_run]. intros (es' & s' & Hes & Hr & Hq & Hj).
  pose proof (step_inv _ _ _ Hs H1) as Hs1. cbn in H1. destruct (dtor s) eqn:Hd; simplify_eq.
  assert (Hst : stop s = true) by (destruct (stop s) eqn:E; [done|]; apply (inv_stop s Hs) in E; congruence).
  destruct (run_internal _ _ _ Hes Hr Hst) as [Hd' Hb]. cbn in Hd'.
  destruct (join_blocked s' Hd' Hq (run_inv _ _ _ Hs1 Hr) Hj) as [i Ha].
  destruct (Hb i Asleep Ha eq_refl) as (p & Hp & Hsp). exists i. cbn in Hp.
  fold (fmap (M := list) wake (threads s)) in Hp. rewrite list_lookup_fmap in Hp.
  apply fmap_Some in Hp as (p0 & Hp0 & ->). by destruct p0.
Qed.
End facts.

Lemma worker_conserved_witness :
  let c := mkCall 0 AsyncCall in
  [Some c] ++ [] = [Some c] /\ [c] ≡ₚ [] ++ [c] /\
  [] ++ [(0, (operation_canceled, Some 7))] = concat (map (answers 7) [(c, ThrewStd)]).
Proof.
  apply (worker_conserved 7 1 (AddTask (Some (mkCall 0 AsyncCall)) :: repeat (Step 0) 6 ++ [TaskEnds 0 ThrewStd])
    (mkPool [] None false [Loop] Alive [Some (mkCall 0 AsyncCall)] [(mkCall 0 AsyncCall, ThrewStd)]
       [(0, (operation_canceled, Some 7))] [])).
  reflexivity.
Defined.

Lemma worker_drains_witness :
  let s := mkPool [] None false [Asleep] Alive [Some (mkCall 0 AsyncCall)] [(mkCall 0 AsyncCall, Returned 3)]
             [(0, (success, Some 3))] [] in
  quiet 7 s /\ task_queue s = [] /\ [mkCall 0 AsyncCall] ≡ₚ (ended s).*1.
Proof.
  intros s. assert (Hq : quiet 7 s) by (apply idle_quiet; repeat constructor). split; [exact Hq|].
  apply (worker_drains 7 1 (AddTask (Some (mkCall 0 AsyncCall)) :: repeat (Step 0) 6 ++ TaskEnds 0 (Returned 3) ::
                            repeat (Step 0) 4)).
  - lia.
  - cbn. intros [|[]%not_elem_of_nil]%elem_of_cons. discriminate.
  - reflexivity.
  - exact Hq.
  - reflexivity.
Defined.

(** A run in which the destructor waits for ever. *)
Lemma worker_stop_iff_witness :
  (exists es' s', forallb internal es' = true /\
     run 7 (mkPool [] (Some 0) true [GoSleep] Notified [] [] [] []) es' = Ok s' /\ quiet 7 s' /\
     step 7 s' Join = NotEnabled)
  <-> exists i, [GoSleep] !! i = Some GoSleep.
Proof.
  apply (worker_stop_iff 7 1 [Step 0; Step 0; Step 0; RequestStop] (mkPool [] (Some 0) true [GoSleep] Stopped [] [] [] []));
    reflexivity.
Defined.
