(* ===== verification/ConsoleConfig.v ===== *)
(** * Console server configuration: [examples/obmc_console/console_config.hpp]

    The INI-like file of the console server, the devices it describes and the
    numbers in it.  [std::getline], [operator>>] and [std::stoi] are modelled as
    the standard library defines them; exceptions are values.  The file system and
    the order in which an [unordered_map] is walked are parameters. *)

From S2P Require Import Prelude.

(** ** What is used of the standard library *)

Inductive exn := invalid_argument | out_of_range.

(** The result of code that may throw. *)
Definition result (A : Type) : Type := A + exn.

Definition rbind {A B} (m : result A) (f : A -> result B) : result B :=
  match m with inl a => f a | inr e => inr e end.

Declare Scope config_scope.
Notation "x ← m ; k" := (rbind m (fun x => k))
  (at level 20, m at level 100, k at level 200, only parsing) : config_scope.
Local Open Scope config_scope.

(** Calls of [std::getline] until it fails; [cur] has been read of the next line.
    A last line without delimiter counts when it is not empty. *)
Fixpoint getlines (delim : byte) (cur : bytes) (s : bytes) : list bytes :=
  match s with
  | [] => if decide (cur = []) then [] else [cur]
  | c :: s => if decide (c = delim) then cur :: getlines delim [] s else getlines delim (cur ++ [c]) s
  end.

(** [isspace] in the "C" locale. *)
Definition isspace (b : byte) : bool := ((u8 b =? 32) || (9 <=? u8 b) && (u8 b <=? 13))%Z.

(** The longest prefix that satisfies [p], and the rest. *)
Fixpoint span {A} (p : A -> bool) (l : list A) : list A * list A :=
  match l with
  | [] => ([], [])
  | x :: l' => if p x then let '(a, b) := span p l' in (x :: a, b) else ([], l)
  end.

Definition skip {A} (p : A -> bool) (l : list A) : list A := (span p l).2.

(** Calls of [>> word] until it fails. *)
Fixpoint words (cur : bytes) (s : bytes) : list bytes :=
  match s with
  | [] => if decide (cur = []) then [] else [cur]
  | c :: s => if isspace c then (if decide (cur = []) then words [] s else cur :: words [] s)
              else words (cur ++ [c]) s
  end.

(** The value of a sequence of digits. *)
Definition of_digits (base : Z) (s : bytes) : Z := foldl (fun z b => base * z + (u8 b - 48))%Z 0%Z s.

Definition is_digit_of (base : Z) (b : byte) : bool := ((48 <=? u8 b) && (u8 b <? 48 + base))%Z.

(** An optional sign: whether the number is negative, and the rest. *)
Definition sign (s : bytes) : bool * bytes :=
  match s with
  | c :: s' => if decide (c = "-"%byte) then (true, s') else if decide (c = "+"%byte) then (false, s') else (false, s)
  | [] => (false, [])
  end.

(** [std::stoi(s, nullptr, base)] for base 8 or 10. *)
Definition stoi (base : Z) (s : bytes) : result Z :=
  let '(neg, s) := sign (skip isspace s) in
  let '(ds, _) := span (is_digit_of base) s in
  if decide (ds = []) then inr invalid_argument
  else let z := if neg then (- of_digits base ds)%Z else of_digits base ds in
       if ((- 2 ^ 31 <=? z) && (z <? 2 ^ 31))%Z then inl z else inr out_of_range.

(** [iss >> value] for a [size_t]: the value, the rest of the stream, and whether
    the stream is still good.  A negative number wraps; one that is too large gives
    the largest value and fails, as does the absence of digits, which gives zero. *)
Definition extract_size (s : bytes) : Z * bytes * bool :=
  let '(neg, s) := sign (skip isspace s) in
  let '(ds, rest) := span (is_digit_of 10) s in
  if decide (ds = []) then (0%Z, rest, false)
  else let z := of_digits 10 ds in
       if (z <? 2 ^ 64)%Z then (wrapu 64 (if neg then - z else z)%Z, rest, true) else (2 ^ 64 - 1, rest, false)%Z.

(** [iss >> unit] for a [char] that is zero at first. *)
Definition extract_char (s : bytes) (good : bool) : byte :=
  if good then match skip isspace s with c :: _ => c | [] => x00 end else x00.

(** The trimming of [" \t"] at both ends. *)
Definition blank (b : byte) : bool := bool_decide (b = " "%byte \/ b = x09).

Definition trim (s : bytes) : bytes := rev (skip blank (rev (skip blank s))).

(** ** Configuration *)

Record BaseDeviceConfig := mkBase {
  name : bytes;
  device : bytes;
  socketPath : bytes;
  baudRate : Z;
  socketMode : Z;
  socketGroup : bytes;
}.

Record ConsoleSshPtyConfig := mkSsh {
  remoteHost : bytes;
  remoteUser : bytes;
  remotePassword : bytes;
  sshKeyPath : bytes;
  remotePort : Z;
  remoteShell : bytes;
  connectTimeout : Z;
}.

Inductive DeviceSpecificConfig :=
  | ConsoleUartConfig
  | ConsoleVuartConfig (lpcAddress : bytes) (sirq : Z)
  | ConsolePtyConfig (shellPath : bytes) (shellArgs : list bytes)
  | ConsoleIbmiEmulatorConfig
  | SshPty (c : ConsoleSshPtyConfig).

Record MuxConfig := mkMux { enabled : bool; muxIndex : Z; muxGpios : list bytes }.

Record DeviceConfig := mkDevice { base : BaseDeviceConfig; specific : DeviceSpecificConfig; mux : MuxConfig }.

Record ConsoleConfig := mkConfig { logsize : bytes; logfile : bytes; devices : list DeviceConfig }.

(** [getDeviceTypeString]. *)
Definition getDeviceTypeString (d : DeviceConfig) : bytes :=
  match specific d with
  | ConsoleUartConfig => str "UART"
  | ConsoleVuartConfig _ _ => str "VUART"
  | ConsolePtyConfig _ _ => str "PTY"
  | ConsoleIbmiEmulatorConfig => str "IBMI_EMULATOR"
  | SshPty _ => str "SSH_PTY"
  end.

Definition getLogsizeBytes (logsize : bytes) : Z :=
  let '(value, rest, good) := extract_size logsize in
  let unit := extract_char rest good in
  if decide (unit = "k"%byte \/ unit = "K"%byte) then wrapu 64 (value * 1024)
  else if decide (unit = "m"%byte \/ unit = "M"%byte) then wrapu 64 (value * 1024 * 1024)
  else if decide (unit = "g"%byte \/ unit = "G"%byte) then wrapu 64 (value * 1024 * 1024 * 1024)
  else value.

(** [getDevice(name)]. *)
Definition getDevice (c : ConsoleConfig) (n : bytes) : option DeviceConfig :=
  snd <$> find_if (fun d => bool_decide (name (base d) = n)) (devices c).

Abbreviation values := (gmap bytes bytes).

(** [values.count(key) ? values.at(key) : dflt]. *)
Definition value_or (v : values) (key : string) (dflt : bytes) : bytes := default dflt (v !! str key).

(** The same for a number. *)
Definition number_or (v : values) (key : string) (b : Z) (dflt : Z) : result Z :=
  match v !! str key with Some s => stoi b s | None => inl dflt end.

Definition createSpecificConfig (typeStr : bytes) (v : values) : result DeviceSpecificConfig :=
  if decide (typeStr = str "vuart" \/ typeStr = str "VUART") then
    sirq ← number_or v "sirq" 10 4;
    inl (ConsoleVuartConfig (value_or v "lpc-address" (str "0x3f8")) sirq)
  else if decide (typeStr = str "pty" \/ typeStr = str "PTY") then
    inl (ConsolePtyConfig (value_or v "shell-path" (str "/bin/sh"))
           (match v !! str "shell-args" with Some args => words [] args | None => [] end))
  else if decide (typeStr = str "ibmi-emulator" \/ typeStr = str "IBMI-EMULATOR") then
    inl ConsoleIbmiEmulatorConfig
  else if decide (typeStr = str "ssh-pty" \/ typeStr = str "SSH-PTY" \/ typeStr = str "SSH_PTY") then
    port ← number_or v "remote-port" 10 22;
    timeout ← number_or v "connect-timeout" 10 30;
    inl (SshPty (mkSsh (value_or v "remote-host" []) (value_or v "remote-user" []) (value_or v "remote-password" [])
                  (value_or v "ssh-key-path" []) port (value_or v "remote-shell" (str "/bin/bash")) timeout))
  else inl ConsoleUartConfig.

Definition createMuxConfig (v : values) : result MuxConfig :=
  idx ← number_or v "mux-index" 10 0;
  inl (mkMux (bool_decide (is_Some (v !! str "mux-index") \/ is_Some (v !! str "mux-gpios"))) idx
         (match v !! str "mux-gpios" with Some gpios => map trim (getlines "," [] gpios) | None => [] end)).

(** ** The file *)

(** What the loop over the lines keeps. *)
Record parsing := mkParsing {
  currentSection : bytes;
  globalValues : values;
  sections : gmap bytes values;
}.

Definition parse_line (p : parsing) (line : bytes) : parsing :=
  match line with
  | [] => p
  | c :: _ =>
      if decide (c = "#"%byte) then p
      else if decide (c = "["%byte /\ last line = Some "]"%byte) then
        mkParsing (take (length line - 2) (drop 1 line)) (globalValues p) (sections p)
      else match span (fun b => bool_decide (b <> "="%byte)) line with
           | (_, []) => p
           | (key, _ :: value) =>
               let key := trim key in
               let value := trim value in
               if decide (currentSection p = []) then
                 mkParsing (currentSection p) (<[key := value]> (globalValues p)) (sections p)
               else
                 mkParsing (currentSection p) (globalValues p)
                   (<[currentSection p := <[key := value]> (default ∅ (sections p !! currentSection p))]> (sections p))
           end
  end.

Definition parse_file (text : bytes) : parsing :=
  foldl parse_line (mkParsing [] ∅ ∅) (getlines x0a [] text).

(** The device of a file without sections. *)
Definition simple_device (v : values) : result DeviceConfig :=
  baud ← number_or v "local-tty-baud" 10 115200;
  mode ← number_or v "socket-mode" 8 438;
  spec ← createSpecificConfig (value_or v "device-type" (str "uart")) v;
  mux ← createMuxConfig v;
  inl (mkDevice (mkBase (str "default") (value_or v "device" (str "/dev/ttyS0"))
                   (value_or v "socket-path" (str "/tmp/obmc-console.sock")) baud (wrapu 32 mode)
                   (value_or v "socket-group" [])) spec mux).

(** The device of a section ["console." ++ n]. *)
Definition section_device (n : bytes) (v : values) : result DeviceConfig :=
  baud ← number_or v "local-tty-baud" 10 115200;
  mode ← number_or v "socket-mode" 8 438;
  spec ← createSpecificConfig (value_or v "device-type" (str "uart")) v;
  mux ← createMuxConfig v;
  inl (mkDevice (mkBase n (value_or v "device" [])
                   (value_or v "socket-path" (str "/tmp/obmc-console-" ++ n ++ str ".sock")) baud (wrapu 32 mode)
                   (value_or v "socket-group" [])) spec mux).

(** [sectionName.find("console.") != 0] and [substr(8)]. *)
Definition console_name (sectionName : bytes) : option bytes :=
  if decide (str "console." `prefix_of` sectionName) then Some (drop 8 sectionName) else None.

(** The loop over the sections, in the order [l]. *)
Fixpoint load_sections (l : list (bytes * values)) : result (list DeviceConfig) :=
  match l with
  | [] => inl []
  | (s, v) :: l =>
      match console_name s with
      | None => load_sections l
      | Some n => d ← section_device n v; ds ← load_sections l; inl (d :: ds)
      end
  end.

Section load.

(** The order in which [sections] is walked. *)
Context (walk : gmap bytes values -> list (bytes * values)).

(** [loadFromFile]: [None] if the file cannot be opened. *)
Definition loadFromFile (file : option bytes) : result (option ConsoleConfig) :=
  match file with
  | None => inl None
  | Some text =>
      let p := parse_file text in
      ds ← (if decide (sections p = ∅) then d ← simple_device (globalValues p); inl [d]
            else load_sections (walk (sections p)));
      inl (Some (mkConfig (value_or (globalValues p) "logsize" (str "256k"))
                   (value_or (globalValues p) "logfile" (str "/var/log/obmc-console.log")) ds))
  end.

End load.

(** ** Splitting and trimming *)

Lemma span_split {A} (p : A -> bool) (a b : list A) :
  Forall (fun x => p x = true) a -> (forall x b', b = x :: b' -> p x = false) -> span p (a ++ b) = (a, b).
Proof.
  induction 1 as [|x a Hx Ha IH]; intros Hb; cbn.
  - destruct b as [|x b]; [done|]. cbn. by rewrite (Hb x b).
  - by rewrite Hx, IH.
Qed.

Lemma skip_app {A} (p : A -> bool) (a b : list A) : Forall (fun x => p x = true) a -> skip p (a ++ b) = skip p b.
Proof.
  unfold skip. induction 1 as [|x a Hx Ha IH]; [done|]. cbn. rewrite Hx. by destruct (span p (a ++ b)).
Qed.

Lemma skip_none {A} (p : A -> bool) (l : list A) : (forall x, head l = Some x -> p x = false) -> skip p l = l.
Proof. unfold skip. destruct l as [|x l]; intros H; [done|]. cbn. by rewrite H. Qed.

(** Text that trimming leaves alone. *)
Definition trimmed (s : bytes) : Prop :=
  (forall c, head s = Some c -> blank c = false) /\ (forall c, last s = Some c -> blank c = false).

Lemma trim_padded l s r :
  trimmed s -> Forall (fun c => blank c = true) l -> Forall (fun c => blank c = true) r -> trim (l ++ s ++ r) = s.
Proof.
  intros [Hh Hl] Hl' Hr. unfold trim. rewrite skip_app by done. destruct s as [|c s].
  - cbn. rewrite <- (app_nil_r r), skip_app by done. done.
  - rewrite (skip_none _ ((c :: s) ++ r)) by (intros x [= <-]; by apply Hh).
    rewrite rev_app_distr, skip_app by (by apply Forall_rev).
    rewrite skip_none; [apply rev_involutive|]. intros x Hx. apply Hl.
    rewrite <- Hx. rewrite <- (rev_involutive (c :: s)) at 1. destruct (rev (c :: s)) as [|y l0]; [done|].
    cbn. by rewrite last_snoc.
Qed.

(** Lines that are terminated one by one are read back; so is a last line that is
    not. *)
Lemma getlines_line d cur l s : d ∉ l -> getlines d cur (l ++ d :: s) = (cur ++ l) :: getlines d [] s.
Proof.
  revert cur. induction l as [|c l IH]; intros cur H; cbn.
  - rewrite decide_True by done. by rewrite app_nil_r.
  - apply not_elem_of_cons in H as [H1 H2]. rewrite decide_False by done. rewrite IH by done. by rewrite <- app_assoc.
Qed.

Lemma getlines_last d cur l : d ∉ l -> getlines d cur l = if decide (cur ++ l = []) then [] else [cur ++ l].
Proof.
  revert cur. induction l as [|c l IH]; intros cur H; cbn; [by rewrite app_nil_r|].
  apply not_elem_of_cons in H as [H1 H2]. rewrite decide_False by done. rewrite IH by done. by rewrite <- app_assoc.
Qed.

Lemma getlines_lines d ls l :
  Forall (fun x => d ∉ x) ls -> d ∉ l ->
  getlines d [] (concat (map (fun x => x ++ [d]) ls) ++ l) = ls ++ (if decide (l = []) then [] else [l]).
Proof.
  intros Hls Hl. induction Hls as [|x ls Hx Hls IH]; cbn.
  - rewrite getlines_last by done. done.
  - rewrite <- !app_assoc. cbn. by rewrite getlines_line, IH.
Qed.

(** ** Files as they are written *)

Inductive item :=
  | Header (s : bytes)
  | Entry (k v : bytes) (l1 l2 l3 l4 : bytes)   (* with the blanks around key and value *)
  | Comment (s : bytes)
  | Blank.

Definition print_item (i : item) : bytes :=
  match i with
  | Header s => ["["%byte] ++ s ++ ["]"%byte]
  | Entry k v l1 l2 l3 l4 => l1 ++ k ++ l2 ++ ["="%byte] ++ l3 ++ v ++ l4
  | Comment s => "#"%byte :: s
  | Blank => []
  end.

Definition all_blank (s : bytes) : Prop := Forall (fun c => blank c = true) s.

Definition wf_item (i : item) : Prop :=
  (x0a ∉ print_item i) /\
  match i with
  | Entry k v l1 l2 l3 l4 =>
      trimmed k /\ trimmed v /\ ("="%byte ∉ k) /\ all_blank l1 /\ all_blank l2 /\ all_blank l3 /\ all_blank l4 /\
      (forall c, head (l1 ++ k) = Some c -> c <> "#"%byte /\ c <> "["%byte)
  | _ => True
  end.

(** The entries of a file under the section they are in. *)
Fixpoint entries (cur : bytes) (its : list item) : list (bytes * bytes * bytes) :=
  match its with
  | [] => []
  | Header s :: its => entries s its
  | Entry k v _ _ _ _ :: its => (cur, k, v) :: entries cur its
  | _ :: its => entries cur its
  end.

(** The last entry for a key in a section. *)
Definition last_value (es : list (bytes * bytes * bytes)) (s k : bytes) : option bytes :=
  (fun e => e.2.2) <$> find_if (fun e => bool_decide (e.1 = (s, k))) (reverse es).

(** What was read for a key of a section, or outside of sections. *)
Definition value_of (p : parsing) (s k : bytes) : option bytes :=
  if decide (s = []) then globalValues p !! k else sections p !! s ≫= (fun v => v !! k).

Lemma last_value_snoc es s k v s' k' :
  last_value (es ++ [(s, k, v)]) s' k' = if decide ((s, k) = (s', k')) then Some v else last_value es s' k'.
Proof.
  unfold last_value. rewrite reverse_snoc. cbn. destruct (decide ((s, k) = (s', k'))) as [E|E].
  - by rewrite bool_decide_eq_true_2.
  - rewrite bool_decide_eq_false_2 by done. by destruct (find_if _ (reverse es)) as [[]|].
Qed.

(** What has been read of a file so far. *)
Record reads (p : parsing) (cur : bytes) (es : list (bytes * bytes * bytes)) : Prop := {
  reads_cur : currentSection p = cur;
  reads_values : forall s k, value_of p s k = last_value es s k;
  reads_sections : forall s, is_Some (sections p !! s) <-> s <> [] /\ exists k v, (s, k, v) ∈ es;
}.

Lemma parse_header p s : parse_line p (print_item (Header s)) = mkParsing s (globalValues p) (sections p).
Proof.
  cbn. rewrite decide_False by done. rewrite decide_True; [|split; [done|by rewrite app_comm_cons, last_snoc]]. f_equal.
  rewrite length_app. cbn. rewrite drop_0, take_app_le by lia. apply take_ge. lia.
Qed.

Lemma parse_entry p k v l1 l2 l3 l4 :
  wf_item (Entry k v l1 l2 l3 l4) ->
  parse_line p (print_item (Entry k v l1 l2 l3 l4)) =
    if decide (currentSection p = []) then
      mkParsing (currentSection p) (<[k := v]> (globalValues p)) (sections p)
    else mkParsing (currentSection p) (globalValues p)
           (<[currentSection p := <[k := v]> (default ∅ (sections p !! currentSection p))]> (sections p)).
Proof.
  intros (_ & Hk & Hv & Heq & H1 & H2 & H3 & H4 & Hc). cbn [print_item].
  assert (Hne : forall l, all_blank l -> "="%byte ∉ l).
  { intros l Hl Hin. unfold all_blank in Hl. rewrite Forall_forall in Hl. specialize (Hl _ Hin). done. }
  assert (Hspan : span (fun b => bool_decide (b <> "="%byte)) (l1 ++ k ++ l2 ++ ["="%byte] ++ l3 ++ v ++ l4)
                  = (l1 ++ k ++ l2, ["="%byte] ++ l3 ++ v ++ l4)).
  { replace (l1 ++ k ++ l2 ++ ["="%byte] ++ l3 ++ v ++ l4) with ((l1 ++ k ++ l2) ++ ["="%byte] ++ l3 ++ v ++ l4)
      by (by rewrite <- !app_assoc). apply span_split.
    - apply Forall_forall. intros x Hx. apply bool_decide_eq_true_2. intros ->.
      rewrite !elem_of_app in Hx. destruct Hx as [?|[?|?]]; [by apply (Hne l1)|done|by apply (Hne l2)].
    - intros x b' [= <- _]. done. }
  destruct (l1 ++ k ++ l2 ++ ["="%byte] ++ l3 ++ v ++ l4) as [|c line] eqn:E.
  { by destruct l1, k, l2. }
  assert (Hcc : c <> "#"%byte /\ c <> "["%byte).
  { rewrite (app_assoc l1 k) in E. destruct (l1 ++ k) as [|c' r] eqn:E'; [|injection E as -> _; by apply Hc].
    destruct l2 as [|b l2]; injection E as <- _; [done|]. apply Forall_inv in H2. by split; intros ->. }
  destruct Hcc. unfold parse_line. rewrite decide_False by done. rewrite decide_False by (by intros []).
  rewrite Hspan. cbn. by rewrite !trim_padded.
Qed.

Lemma parse_other p i :
  match i with Comment _ | Blank => True | _ => False end -> parse_line p (print_item i) = p.
Proof. by destruct i. Qed.

Lemma reads_entry p cur es k v l1 l2 l3 l4 :
  reads p cur es -> wf_item (Entry k v l1 l2 l3 l4) ->
  reads (parse_line p (print_item (Entry k v l1 l2 l3 l4))) cur (es ++ [(cur, k, v)]).
Proof.
  intros [Hc Hv Hs] Hwf. rewrite parse_entry, Hc by done. split.
  - by destruct (decide (cur = [])).
  - intros s' k'. rewrite last_value_snoc, <- Hv. unfold value_of.
    destruct (decide (cur = [])) as [->|Hcur]; cbn; destruct (decide (s' = [])) as [->|Hs'].
    + destruct (decide (k = k')) as [<-|Hk]; [by rewrite lookup_insert_eq, decide_True|].
      by rewrite lookup_insert_ne, decide_False by congruence.
    + by rewrite decide_False by congruence.
    + by rewrite decide_False by congruence.
    + destruct (decide (cur = s')) as [<-|Hn].
      * rewrite lookup_insert_eq. cbn. destruct (decide (k = k')) as [<-|Hk]; [by rewrite lookup_insert_eq, decide_True|].
        rewrite lookup_insert_ne, decide_False by congruence. by destruct (sections p !! cur).
      * by rewrite lookup_insert_ne, decide_False by congruence.
  - intros s'. setoid_rewrite elem_of_app. setoid_rewrite list_elem_of_singleton.
    destruct (decide (cur = [])) as [->|Hcur]; cbn.
    + rewrite Hs. clear. naive_solver.
    + destruct (decide (cur = s')) as [<-|Hn].
      * rewrite lookup_insert_eq. split; [|done]. eauto 10.
      * rewrite lookup_insert_ne, Hs by done. clear -Hn. naive_solver.
Qed.

Lemma reads_items its p cur es :
  Forall wf_item its -> reads p cur es ->
  exists cur', reads (foldl parse_line p (map print_item its)) cur' (es ++ entries cur its).
Proof.
  intros Hwf. revert p cur es. induction Hwf as [|i its Hi Hwf IH]; intros p cur es Hr; cbn.
  { exists cur. by rewrite app_nil_r. }
  destruct i as [s|k v l1 l2 l3 l4|s|].
  - apply IH. rewrite parse_header. by destruct Hr.
  - cbn [entries]. destruct (IH (parse_line p (print_item (Entry k v l1 l2 l3 l4))) cur (es ++ [(cur, k, v)])) as [cur' H];
      [by apply reads_entry|].
    exists cur'. by rewrite <- app_assoc in H.
  - by apply IH.
  - by apply IH.
Qed.

(** C21: a configuration file is read as it is written: for every key of every
    section, and outside of sections, the value kept is the one of the last line
    for it, without the blanks around it; comments, blank lines and the way the
    last line ends do not matter; a section exists when it has an entry. *)
Theorem config_roundtrip its i :
  Forall wf_item (its ++ [i]) ->
  let text := concat (map (fun l => l ++ [x0a]) (map print_item its)) ++ print_item i in
  (forall s k, value_of (parse_file text) s k = last_value (entries [] (its ++ [i])) s k) /\
  (forall s, is_Some (sections (parse_file text) !! s) <-> s <> [] /\ exists k v, (s, k, v) ∈ entries [] (its ++ [i])).
Proof.
  intros Hwf text.
  assert (Hp : parse_file text = foldl parse_line (mkParsing [] ∅ ∅) (map print_item (its ++ [i]))).
  { unfold parse_file, text. rewrite map_app. apply Forall_app in Hwf as [H1 [[H2 _] _]%Forall_cons].
    rewrite getlines_lines; [|apply Forall_map; eapply Forall_impl; [exact H1|by intros ? []]|done].
    rewrite !foldl_app. cbn. by destruct (decide (print_item i = [])) as [E|]; cbn; [rewrite E|]. }
  rewrite Hp. destruct (reads_items (its ++ [i]) (mkParsing [] ∅ ∅) [] [] Hwf) as [cur' [_ Hv Hs]]; [|done].
  split; [done| |].
  - intros s k. unfold value_of, last_value. cbn. destruct (decide (s = [])); by rewrite lookup_empty.
  - intros s. cbn. rewrite lookup_empty. split; [by intros []|]. intros (_ & k & v & []%not_elem_of_nil).
Qed.

(** ** Devices *)

Lemma console_name_Some s n : console_name s = Some n <-> s = str "console." ++ n.
Proof.
  unfold console_name. destruct (decide (str "console." `prefix_of` s)) as [[r ->]|Hn].
  - rewrite drop_app_length' by done. split; [by intros [= ->]|]. intros H%app_inv_head. by subst.
  - split; [done|]. intros ->. destruct Hn. by exists n.
Qed.

Lemma section_device_name n v d : section_device n v = inl d -> name (base d) = n.
Proof.
  unfold section_device. destruct (number_or v "local-tty-baud" _ _); [|done]. cbn.
  destruct (number_or v "socket-mode" _ _); [|done]. cbn.
  destruct (createSpecificConfig _ v); [|done]. cbn. destruct (createMuxConfig v); [|done]. cbn. by intros [= <-].
Qed.

(** The loop, whatever the order: it throws when the device of some section does,
    and otherwise finds each device under its name. *)
Lemma load_sections_spec l :
  NoDup l.*1 ->
  match load_sections l with
  | inl ds => forall n d, (snd <$> find_if (fun d => bool_decide (name (base d) = n)) ds) = Some d <->
                exists v, (str "console." ++ n, v) ∈ l /\ section_device n v = inl d
  | inr e => exists n v, (str "console." ++ n, v) ∈ l /\ section_device n v = inr e
  end.
Proof.
  induction l as [|[s v] l IH]; intros Hnd; cbn [load_sections].
  { intros n d. cbn. split; [done|]. by intros (v & []%not_elem_of_nil & _). }
  apply NoDup_cons in Hnd as [Hs Hnd]. specialize (IH Hnd). destruct (console_name s) as [n0|] eqn:En.
  - apply console_name_Some in En as ->. destruct (section_device n0 v) as [d0|e] eqn:Ed; cbn.
    2:{ exists n0, v. split; [by constructor|done]. }
    destruct (load_sections l) as [ds|e]; cbn.
    2:{ destruct IH as (n & v' & Hin & H). exists n, v'. split; [by constructor|done]. }
    intros n d. rewrite (section_device_name _ _ _ Ed). destruct (decide (n0 = n)) as [<-|Hn].
    + rewrite bool_decide_eq_true_2 by done. cbn. split; [intros [= <-]; exists v; split; [by constructor|done]|].
      intros (v' & [[=->]|Hin]%elem_of_cons & Hd); [congruence|]. destruct Hs.
      apply list_elem_of_fmap. by exists (str "console." ++ n0, v').
    + rewrite bool_decide_eq_false_2 by done. specialize (IH n d).
      destruct (find_if _ ds) as [[j d']|]; cbn in *; rewrite IH; setoid_rewrite elem_of_cons; split;
        try (intros (v' & Hin & Hd); exists v'; by split; [right|]);
        (intros (v' & [[= E _]|Hin] & Hd); [by destruct Hn|by exists v']).
  - assert (Hne : forall n v', (str "console." ++ n, v') ∈ (s, v) :: l <-> (str "console." ++ n, v') ∈ l).
    { intros n v'. rewrite elem_of_cons. split; [|by right]. intros [[= E ->]|]; [|done].
      symmetry in E. apply console_name_Some in E. congruence. }
    destruct (load_sections l); setoid_rewrite Hne; exact IH.
Qed.

Section loading.

Context (walk : gmap bytes values -> list (bytes * values)).
Hypothesis walk_all : forall m, walk m ≡ₚ map_to_list m.

(** With sections, a configuration is loaded, whatever the order in which the
    sections are walked: loading throws exactly when a number in a console section
    cannot be converted, and otherwise the device found under a name is the one
    its section describes, and there is none for other names. *)
Theorem load_devices text :
  sections (parse_file text) <> ∅ ->
  match loadFromFile walk (Some text) with
  | inl (Some c) => forall n d, getDevice c n = Some d <->
                      exists v, sections (parse_file text) !! (str "console." ++ n) = Some v /\ section_device n v = inl d
  | inl None => False
  | inr e => exists n v, sections (parse_file text) !! (str "console." ++ n) = Some v /\ section_device n v = inr e
  end.
Proof.
  intros Hne. unfold loadFromFile. rewrite decide_False by done. set (m := sections (parse_file text)).
  assert (Hnd : NoDup (walk m).*1) by (rewrite walk_all; apply NoDup_fst_map_to_list).
  assert (Hin : forall s v, (s, v) ∈ walk m <-> m !! s = Some v).
  { intros s v. rewrite walk_all. apply elem_of_map_to_list. }
  pose proof (load_sections_spec (walk m) Hnd) as H. destruct (load_sections (walk m)) as [ds|e]; cbn.
  - intros n d. unfold getDevice. cbn. rewrite (H n d). by setoid_rewrite Hin.
  - by setoid_rewrite Hin in H.
Qed.
End loading.

Definition sample_text : bytes :=
  str "logsize = 1m" ++ [x0a] ++ str "[console.host]" ++ [x0a] ++ str "device=/dev/ttyS0" ++ [x0a] ++
  str "# comment" ++ [x0a] ++ str "  local-tty-baud =  9600 " ++ [x0a] ++ str "[general]" ++ [x0a] ++ str "a=b".

Lemma load_devices_witness :
  sections (parse_file sample_text) <> ∅ /\
  match loadFromFile map_to_list (Some sample_text) with
  | inl (Some c) => forall n d, getDevice c n = Some d <->
                      exists v, sections (parse_file sample_text) !! (str "console." ++ n) = Some v /\
                                section_device n v = inl d
  | inl None => False
  | inr e => exists n v, sections (parse_file sample_text) !! (str "console." ++ n) = Some v /\ section_device n v = inr e
  end.
Proof.
  assert (H : sections (parse_file sample_text) <> ∅).
  { intros E. assert (E' : sections (parse_file sample_text) !! str "general" = None) by (by rewrite E, lookup_empty).
    vm_compute in E'. discriminate. }
  split; [exact H|]. apply (load_devices map_to_list); [reflexivity|exact H].
Defined.

Example sample_loaded :
  loadFromFile map_to_list (Some sample_text) =
    inl (Some (mkConfig (str "1m") (str "/var/log/obmc-console.log")
      [mkDevice (mkBase (str "host") (str "/dev/ttyS0") (str "/tmp/obmc-console-host.sock") 9600 438 [])
         ConsoleUartConfig (mkMux false 0 [])])).
Proof. vm_compute. reflexivity. Qed.


(** Discharges the parts of [wf_item] on a concrete line. *)
Ltac solve_wf_part :=
  first
    [ exact I
    | refine (bool_decide_unpack _ _); vm_compute; exact I
    | split; let c := fresh in let H := fresh in intros c H; vm_compute in H;
      first [discriminate H | injection H as <-; reflexivity]
    | let c := fresh in let H := fresh in intros c H; vm_compute in H; injection H as <-; split; discriminate ].

Lemma config_roundtrip_witness :
  let its := [Comment (str " c"); Header (str "console.a"); Entry (str "k") (str "v w") [" "%byte] [] [x09] []] in
  let text := concat (map (fun l => l ++ [x0a]) (map print_item its)) ++ print_item Blank in
  (forall s k, value_of (parse_file text) s k = last_value (entries [] (its ++ [Blank])) s k) /\
  (forall s, is_Some (sections (parse_file text) !! s) <-> s <> [] /\ exists k v, (s, k, v) ∈ entries [] (its ++ [Blank])).
Proof.
  intros its. apply (config_roundtrip its Blank). unfold its. cbn [app].
  repeat (apply Forall_cons; split); try apply Forall_nil; unfold wf_item; split_and?; solve_wf_part.
Defined.

(** ** The size of the log *)

(** The factor of a unit. *)
Definition factor (u : byte) : Z :=
  if decide (u = "k"%byte \/ u = "K"%byte) then 1024
  else if decide (u = "m"%byte \/ u = "M"%byte) then 1024 ^ 2
  else if decide (u = "g"%byte \/ u = "G"%byte) then 1024 ^ 3 else 1.

Lemma is_digit_of_10 b : is_digit_of 10 b = is_digit b.
Proof. unfold is_digit_of, is_digit. lia. Qed.

Lemma digit_not_special b : is_digit b = true -> isspace b = false /\ b <> "-"%byte /\ b <> "+"%byte.
Proof. by destruct b. Qed.

(** A number followed by something else. *)
Lemma extract_digits fuel n rest :
  fuel <> 0 -> (0 <= n < 10 ^ Z.of_nat fuel)%Z -> (forall c r, rest = c :: r -> is_digit c = false) ->
  extract_size (to_dec fuel n ++ rest) =
    if (n <? 2 ^ 64)%Z then (n, rest, true) else ((2 ^ 64 - 1)%Z, rest, false).
Proof.
  intros Hf Hn Hr. pose proof (to_dec_nonempty fuel n Hf) as Hne. pose proof (to_dec_digits fuel n ltac:(lia)) as Hd.
  pose proof (of_to_dec fuel n Hn) as Hv. unfold extract_size.
  destruct (to_dec fuel n) as [|c ds]; [done|].
  destruct (digit_not_special c) as (Hs & Hm & Hp); [by apply Forall_inv in Hd|].
  rewrite skip_none by (cbn; by intros x [= <-]). unfold sign. cbn [app]. rewrite !decide_False by done.
  change (c :: ds ++ rest) with ((c :: ds) ++ rest). rewrite span_split.
  - rewrite decide_False by done. change (of_digits 10 (c :: ds)) with (of_dec (c :: ds)). rewrite Hv.
    destruct (Z.ltb_spec n (2 ^ 64)) as [Hlt|Hge]; [|done]. by rewrite wrapu_small by (unfold is_uint; lia).
  - eapply Forall_impl; [exact Hd|]. intros x. by rewrite is_digit_of_10.
  - intros x b' ->. rewrite is_digit_of_10. by apply (Hr x b').
Qed.

(** The size of the log is the number times the factor of the unit, which may
    be separated by white space, at 64 bits: a product that is too large wraps
    around, a number that is too large gives the largest value and its unit is not
    read. *)
Theorem logsize_correct n sp u rest :
  (0 <= n < 10 ^ 30)%Z -> Forall (fun c => isspace c = true) sp -> isspace u = false -> is_digit u = false ->
  getLogsizeBytes (to_dec 30 n ++ sp ++ u :: rest) = (if (n <? 2 ^ 64)%Z then wrapu 64 (n * factor u) else 2 ^ 64 - 1)%Z /\
  getLogsizeBytes (to_dec 30 n ++ sp) = (if (n <? 2 ^ 64)%Z then n else 2 ^ 64 - 1)%Z.
Proof.
  intros Hn Hsp Hu Hud.
  assert (Hnd : forall x, isspace x = true -> is_digit x = false) by (by intros []).
  unfold getLogsizeBytes. split.
  - rewrite extract_digits; [|done|exact Hn|].
    2:{ intros c r E. destruct Hsp; injection E as <- _; [done|by apply Hnd]. }
    destruct (Z.ltb_spec n (2 ^ 64)); [|done]. unfold extract_char. rewrite skip_app by done.
    rewrite skip_none by (cbn; by intros x [= <-]). unfold factor.
    destruct (decide (u = "k"%byte \/ u = "K"%byte)); [done|].
    destruct (decide (u = "m"%byte \/ u = "M"%byte)); [f_equal; lia|].
    destruct (decide (u = "g"%byte \/ u = "G"%byte)); [f_equal; lia|]. rewrite Z.mul_1_r. symmetry. apply wrapu_small. unfold is_uint. lia.
  - rewrite extract_digits; [|done|exact Hn|].
    2:{ intros c r E. destruct Hsp; [done|]. injection E as <- _. by apply Hnd. }
    destruct (n <? 2 ^ 64)%Z; [|done]. unfold extract_char. rewrite <- (app_nil_r sp), skip_app by done. done.
Qed.

Lemma logsize_correct_witness :
  getLogsizeBytes (to_dec 30 (2 ^ 34 + 1) ++ [" "%byte] ++ "G"%byte :: []) = (1024 ^ 3)%Z /\
  getLogsizeBytes (to_dec 30 (2 ^ 34 + 1) ++ [" "%byte]) = (2 ^ 34 + 1)%Z.
Proof.
  apply (logsize_correct (2 ^ 34 + 1) [" "%byte] "G"%byte []); [lia|repeat constructor|reflexivity|reflexivity].
Defined.
