(* ===== verification/TypedSchema.v ===== *)
(** * The typed schema: [typed_schema.hpp] of [examples/graphql_server/include/graphql/]

    Object types and root fields, loading them from JSON, and the validation of an
    operation against them.  Error messages are values that [message] renders.
    What is used of nlohmann::json ([at], [value], [get] and iteration) is written
    out as its documentation describes it; the text of its exceptions is a
    parameter. *)

From S2P Require Import Prelude StdMap GraphqlParser GraphqlExecutor.

(** ** Errors *)

Inductive gql_error :=
  | OnlyQueries
  | UnknownRootField (field : bytes)
  | UnknownQueryField (field : bytes)
  | UnknownSubscriptionField (field : bytes)
  | UnknownObjectType (type : bytes)
  | UnknownFieldOn (field type : bytes)
  | ScalarSelections (field : bytes)
  | UnknownArgument (argument field : bytes)
  | MissingArgument (argument field : bytes)
  | NoRedfishPath (field : bytes)
  | ExpectedLink (field : bytes)
  | ExpectedLinkMembers (field : bytes)
  | ExpectedArray (field : bytes)
  | ExpectedMembers (field : bytes)
  | ProviderError (what : bytes).

Definition message (e : gql_error) : bytes :=
  match e with
  | OnlyQueries => str "Only query and subscription operations are supported"
  | UnknownRootField f => str "Unknown field: " ++ f
  | UnknownQueryField f => str "Unknown query field: " ++ f
  | UnknownSubscriptionField f => str "Unknown subscription field: " ++ f
  | UnknownObjectType t => str "Unknown object type: " ++ t
  | UnknownFieldOn f t => str "Unknown field '" ++ f ++ str "' on type '" ++ t ++ str "'"
  | ScalarSelections f => str "Scalar field cannot have sub-selections: " ++ f
  | UnknownArgument a f => str "Unknown argument '" ++ a ++ str "' on field '" ++ f ++ str "'"
  | MissingArgument a f => str "Missing required argument '" ++ a ++ str "' on field '" ++ f ++ str "'"
  | NoRedfishPath f => str "No redfishPath defined for field: " ++ f
  | ExpectedLink f => str "Expected collection link object for field '" ++ f ++ str "'"
  | ExpectedLinkMembers f => str "Expected Members array in collection link for '" ++ f ++ str "'"
  | ExpectedArray f => str "Expected array for field '" ++ f ++ str "'"
  | ExpectedMembers f => str "Expected collection Members array for '" ++ f ++ str "'"
  | ProviderError w => w
  end.

(** ** The schema *)

Record ArgumentSpec := mkArgumentSpec {
  asname : bytes;
  astype : bytes;
  required : bool;
  asdefault : bytes;
}.

Record FieldSpec := mkFieldSpec {
  fsname : bytes;
  responseKey : bytes;
  returnType : bytes;
  fsisList : bool;
  scalar : bool;
  fsarguments : list ArgumentSpec;
  redfishPath : bytes;
  expandMembers : bool;
  collectionLink : bool;
}.

Record ObjectSpec := mkObjectSpec { osname : bytes; fields : gmap bytes FieldSpec }.

Record DbusWatcher := mkWatcher {
  dbusObject : bytes;
  dbusInterface : bytes;
  dbusProperty : bytes;
  graphqlFields : list bytes;
}.

Record TypedSchema := mkTypedSchema {
  rootQueries : gmap bytes FieldSpec;
  rootSubscriptions : gmap bytes FieldSpec;
  objects : gmap bytes ObjectSpec;
  dbusWatchers : list DbusWatcher;
}.

Definition emptySchema : TypedSchema := mkTypedSchema ∅ ∅ ∅ [].

Definition addObject (s : TypedSchema) (o : ObjectSpec) : TypedSchema :=
  mkTypedSchema (rootQueries s) (rootSubscriptions s) (<[osname o := o]> (objects s)) (dbusWatchers s).

Definition addRootQuery (s : TypedSchema) (f : FieldSpec) : TypedSchema :=
  mkTypedSchema (<[fsname f := f]> (rootQueries s)) (rootSubscriptions s) (objects s) (dbusWatchers s).

Definition addRootSubscription (s : TypedSchema) (f : FieldSpec) : TypedSchema :=
  mkTypedSchema (rootQueries s) (<[fsname f := f]> (rootSubscriptions s)) (objects s) (dbusWatchers s).

Definition addDbusWatcher (s : TypedSchema) (w : DbusWatcher) : TypedSchema :=
  mkTypedSchema (rootQueries s) (rootSubscriptions s) (objects s) (dbusWatchers s ++ [w]).

Definition getDbusWatchers (s : TypedSchema) : list DbusWatcher := dbusWatchers s.
Definition getRootQueryField (s : TypedSchema) (n : bytes) : option FieldSpec := rootQueries s !! n.
Definition getRootSubscriptionField (s : TypedSchema) (n : bytes) : option FieldSpec := rootSubscriptions s !! n.
Definition getObject (s : TypedSchema) (n : bytes) : option ObjectSpec := objects s !! n.

(** ** Loading *)

(** The exceptions of nlohmann::json that loading can meet. *)
Inductive json_error (double : Type) :=
  | Not_string (j : json double)
  | Not_boolean (j : json double)
  | Not_number (j : json double)
  | Not_array (j : json double)
  | Not_object (j : json double)
  | No_key (k : bytes).
Arguments Not_string {double}.
Arguments Not_boolean {double}.
Arguments Not_number {double}.
Arguments Not_array {double}.
Arguments Not_object {double}.
Arguments No_key {double}.

Section loading.

Context {double : Type}.
Implicit Types (j : json double).

Definition parsed (A : Type) : Type := A + json_error double.

Definition jbind {A B} (m : parsed A) (f : A -> parsed B) : parsed B :=
  match m with inl a => f a | inr e => inr e end.

Local Notation "x ← m ; k" := (jbind m (fun x => k)) (at level 20, m at level 100, k at level 200, only parsing).

Fixpoint jtraverse {A B} (f : A -> parsed B) (l : list A) : parsed (list B) :=
  match l with
  | [] => inl []
  | x :: l => y ← f x; ys ← jtraverse f l; inl (y :: ys)
  end.

(** [j.at(key)]. *)
Definition jat j (key : string) : parsed (json double) :=
  match j with
  | JObject l => match object_get l (str key) with Some v => inl v | None => inr (No_key (str key)) end
  | _ => inr (Not_object j)
  end.

(** [get<std::string>()], [get<bool>()] and [get<std::vector<std::string>>()]. *)
Definition get_string j : parsed bytes := match j with JString s => inl s | _ => inr (Not_string j) end.
Definition get_bool j : parsed bool := match j with JBool b => inl b | _ => inr (Not_boolean j) end.
Definition get_strings j : parsed (list bytes) :=
  match j with JArray l => jtraverse get_string l | _ => inr (Not_array j) end.

(** [j.value(key, dflt)]. *)
Definition jvalue {A} (get : json double -> parsed A) j (key : string) (dflt : A) : parsed A :=
  match j with
  | JObject l => match object_get l (str key) with Some v => get v | None => inl dflt end
  | _ => inr (Not_object j)
  end.

(** What a range-based [for] walks over. *)
Definition items j : list (json double) :=
  match j with JArray l => l | JObject l => map snd l | JNull => [] | _ => [j] end.

Definition string_at j (key : string) : parsed bytes := v ← jat j key; get_string v.

(** The arguments of a field of an object type. *)
Definition load_argument (a : json double) : parsed ArgumentSpec :=
  n ← string_at a "name"; t ← string_at a "typeName"; r ← jvalue get_bool a "required" false;
  inl (mkArgumentSpec n t r []).

(** The arguments of a root field, which may have a default. *)
Definition load_root_argument (a : json double) : parsed ArgumentSpec :=
  n ← string_at a "name"; t ← string_at a "typeName"; r ← jvalue get_bool a "required" false;
  d ← jvalue get_string a "default" []; inl (mkArgumentSpec n t r d).

Definition load_object_field (f : json double) : parsed FieldSpec :=
  n ← string_at f "name"; k ← string_at f "responseKey"; t ← string_at f "returnType";
  l ← jvalue get_bool f "isList" false; sc ← jvalue get_bool f "scalar" false;
  cl ← jvalue get_bool f "collectionLink" false;
  args ← jvalue inl f "arguments" (JArray []); args ← jtraverse load_argument (items args);
  inl (mkFieldSpec n k t l sc args [] false cl).

(** The lambda [loadFields]. *)
Definition load_root_field (f : json double) : parsed FieldSpec :=
  n ← string_at f "name"; k ← jvalue get_string f "responseKey" []; t ← string_at f "returnType";
  l ← jvalue get_bool f "isList" false; sc ← jvalue get_bool f "scalar" false;
  path ← jvalue get_string f "redfishPath" []; ex ← jvalue get_bool f "expandMembers" false;
  args ← jvalue inl f "arguments" (JArray []); args ← jtraverse load_root_argument (items args);
  inl (mkFieldSpec n k t l sc args path ex false).

Definition loadFields (arr : json double) : parsed (list FieldSpec) := jtraverse load_root_field (items arr).

Definition load_object (obj : json double) : parsed ObjectSpec :=
  n ← string_at obj "name"; fs ← jat obj "fields"; fs ← jtraverse load_object_field (items fs);
  inl (mkObjectSpec n (foldl (fun m f => <[fsname f := f]> m) ∅ fs)).

Definition load_watcher (entry : json double) : parsed DbusWatcher :=
  o ← jvalue get_string entry "dbusObject" []; i ← string_at entry "dbusInterface";
  p ← jvalue get_string entry "dbusProperty" []; fs ← jat entry "graphqlFields"; fs ← get_strings fs;
  inl (mkWatcher o i p fs).

Definition load_schema (doc : json double) : parsed TypedSchema :=
  objs ← jat doc "objects"; objs ← jtraverse load_object (items objs);
  qs ← jvalue inl doc "queries" (JArray []); qs ← loadFields qs;
  subs ← jvalue inl doc "subscriptions" (JArray []); subs ← loadFields subs;
  ws ← jvalue inl doc "dbusWatchers" (JArray []); ws ← jtraverse load_watcher (items ws);
  inl (foldl addDbusWatcher (foldl addRootSubscription (foldl addRootQuery (foldl addObject emptySchema objs) qs) subs) ws).

(** [fromJson], with the text of the exceptions. *)
Definition fromJson (what : json_error double -> bytes) (doc : json double) : TypedSchema + bytes :=
  match load_schema doc with
  | inl s => inl s
  | inr e => inr (str "Schema JSON parse error: " ++ what e)
  end.

End loading.

(** ** Validation *)

Section validation.

Context {double : Type} (s : TypedSchema).
Implicit Types (sel : FieldSelection double).

(** The first error; [None] is success. *)
Fixpoint first_error {A} (f : A -> option gql_error) (l : list A) : option gql_error :=
  match l with
  | [] => None
  | x :: l => match f x with Some e => Some e | None => first_error f l end
  end.

Definition validateArguments sel (fs : FieldSpec) : option gql_error :=
  match first_error (fun a => if bool_decide (aname a ∈ map asname (fsarguments fs)) then None
                              else Some (UnknownArgument (aname a) (fname sel))) (farguments sel) with
  | Some e => Some e
  | None =>
      let seenArguments : gset bytes := list_to_set (map aname (farguments sel)) in
      first_error (fun spec => if required spec && bool_decide (asname spec ∉ seenArguments)
                               then Some (MissingArgument (asname spec) (fname sel)) else None) (fsarguments fs)
  end.

(** One selection of [validateSelections], on the object type [o] named [t]. *)
Fixpoint validate_selection (o : ObjectSpec) (t : bytes) sel : option gql_error :=
  match fields o !! fname sel with
  | None => Some (UnknownFieldOn (fname sel) t)
  | Some fs =>
      match validateArguments sel fs with
      | Some e => Some e
      | None =>
          if scalar fs then
            match fselections sel with [] => None | _ => Some (ScalarSelections (fname sel)) end
          else
            match getObject s (returnType fs) with
            | None => Some (UnknownObjectType (returnType fs))
            | Some o' => first_error (validate_selection o' (returnType fs)) (fselections sel)
            end
      end
  end.

Definition validateSelections (sels : list (FieldSelection double)) (t : bytes) : option gql_error :=
  match getObject s t with
  | None => Some (UnknownObjectType t)
  | Some o => first_error (validate_selection o t) sels
  end.

(** The root field of a selection, by the type of the operation. *)
Definition root_field (ty : OperationType) (n : bytes) : option FieldSpec :=
  match ty with Subscription => getRootSubscriptionField s n | _ => getRootQueryField s n end.

Definition validate_root (ty : OperationType) sel : option gql_error :=
  match root_field ty (fname sel) with
  | None => Some (UnknownRootField (fname sel))
  | Some fs =>
      match validateArguments sel fs with
      | Some e => Some e
      | None =>
          if scalar fs then
            match fselections sel with [] => None | _ => Some (ScalarSelections (fname sel)) end
          else validateSelections (fselections sel) (returnType fs)
      end
  end.

Definition validateOperation (op : Operation double) : option gql_error :=
  match otype op with
  | Mutation => Some OnlyQueries
  | _ => first_error (validate_root (otype op)) (oselections op)
  end.

End validation.

(** ** Typing rules *)

Section typing.

Context {double : Type} (s : TypedSchema).
Implicit Types (sel : FieldSelection double).

(** Every argument is declared and every required one is given. *)
Definition args_ok sel (fs : FieldSpec) : Prop :=
  (forall a, a ∈ farguments sel -> exists spec, spec ∈ fsarguments fs /\ asname spec = aname a) /\
  (forall spec, spec ∈ fsarguments fs -> required spec = true -> exists a, a ∈ farguments sel /\ aname a = asname spec).

(** The selection [sel] makes sense on the object type [t]. *)
Inductive typed : bytes -> FieldSelection double -> Prop :=
  | typed_scalar t o sel fs :
      getObject s t = Some o -> fields o !! fname sel = Some fs -> args_ok sel fs ->
      scalar fs = true -> fselections sel = [] -> typed t sel
  | typed_object t o sel fs :
      getObject s t = Some o -> fields o !! fname sel = Some fs -> args_ok sel fs ->
      scalar fs = false -> is_Some (getObject s (returnType fs)) ->
      Forall (typed (returnType fs)) (fselections sel) -> typed t sel.

(** The selection makes sense at the root of an operation. *)
Definition typed_root (ty : OperationType) sel : Prop :=
  exists fs, root_field s ty (fname sel) = Some fs /\ args_ok sel fs /\
    if scalar fs then fselections sel = []
    else is_Some (getObject s (returnType fs)) /\ Forall (typed (returnType fs)) (fselections sel).

Lemma first_error_None {A} (f : A -> option gql_error) l : first_error f l = None <-> Forall (fun x => f x = None) l.
Proof.
  induction l as [|x l IH]; cbn; [by split; [constructor|]|].
  rewrite Forall_cons, <- IH. destruct (f x); split; [done|by intros []|by split|by intros []].
Qed.

Lemma validateArguments_None sel fs : validateArguments sel fs = None <-> args_ok sel fs.
Proof.
  unfold validateArguments, args_ok.
  assert (H1 : first_error (fun a => if bool_decide (aname a ∈ map asname (fsarguments fs)) then None
                              else Some (UnknownArgument (aname a) (fname sel))) (farguments sel) = None
    <-> (forall a, a ∈ farguments sel -> exists spec, spec ∈ fsarguments fs /\ asname spec = aname a)).
  { rewrite first_error_None, Forall_forall. apply forall_proper. intros a. apply forall_proper. intros _.
    destruct (bool_decide_reflect (aname a ∈ map asname (fsarguments fs))) as [H|H].
    - split; [|done]. intros _. apply list_elem_of_fmap in H as (spec & -> & H). eauto.
    - split; [done|]. intros (spec & Hin & E). destruct H. rewrite <- E. by apply list_elem_of_fmap_2. }
  destruct (first_error _ (farguments sel)) as [e|]; [split; [done|]; intros [H _]; by apply H1 in H|].
  rewrite first_error_None, Forall_forall. split.
  - intros H. split; [by apply H1|]. intros spec Hin Hr. specialize (H spec Hin). rewrite Hr in H. cbn in H.
    destruct (bool_decide_reflect (asname spec ∉ (list_to_set (map aname (farguments sel)) : gset bytes))) as [|Hn]; [done|].
    apply dec_stable in Hn. apply elem_of_list_to_set, list_elem_of_fmap in Hn as (a & E & Ha). eauto.
  - intros [_ H] spec Hin. destruct (required spec) eqn:Hr; [|done]. cbn.
    rewrite bool_decide_eq_false_2; [done|]. intros Hn. destruct (H spec Hin Hr) as (a & Ha & E).
    apply Hn, elem_of_list_to_set. rewrite <- E. by apply list_elem_of_fmap_2.
Qed.

Lemma validate_selection_None o t sel :
  getObject s t = Some o -> validate_selection s o t sel = None <-> typed t sel.
Proof.
  revert o t. induction sel as [n al sp args ds sels IH] using FieldSelection_rect'. intros o t Ho.
  cbn [validate_selection fname fselections]. set (sel := mkField n al sp args ds sels).
  assert (Hinv : typed t sel -> exists fs, fields o !! n = Some fs /\ args_ok sel fs /\
    if scalar fs then sels = [] else is_Some (getObject s (returnType fs)) /\ Forall (typed (returnType fs)) sels).
  { inversion 1 as [? o' ? fs Ho' Hf Ha Hs Hn|? o' ? fs Ho' Hf Ha Hs Hn Hsub]; subst; exists fs;
      replace o' with o in Hf by congruence; by rewrite Hs. }
  destruct (fields o !! n) as [fs|] eqn:Hf; [|split; [done|]; intros (fs & ? & _)%Hinv; done].
  destruct (validateArguments sel fs) as [e|] eqn:Ea.
  { split; [done|]. intros (fs' & E & Ha & _)%Hinv. simplify_eq. apply validateArguments_None in Ha. congruence. }
  apply validateArguments_None in Ea. destruct (scalar fs) eqn:Es.
  { destruct sels as [|x l]; [split; [|done]; intros _; by eapply typed_scalar|].
    split; [done|]. intros (fs' & E & _ & H)%Hinv. simplify_eq. by rewrite Es in H. }
  destruct (getObject s (returnType fs)) as [o'|] eqn:Ho'.
  2:{ split; [done|]. intros (fs' & E & _ & H)%Hinv. simplify_eq. rewrite Es, Ho' in H. by destruct H as [[] _]. }
  rewrite first_error_None. assert (Hall : Forall (fun x => validate_selection s o' (returnType fs) x = None) sels <->
                                    Forall (typed (returnType fs)) sels).
  { rewrite !Forall_forall in *. split; intros H x Hx; by apply (IH x Hx o' (returnType fs) Ho'), H. }
  rewrite Hall. split.
  - intros H. eapply typed_object; eauto.
  - intros (fs' & E & _ & H)%Hinv. simplify_eq. rewrite Es in H. by destruct H.
Qed.

Lemma validateSelections_None sels t :
  validateSelections s sels t = None <-> is_Some (getObject s t) /\ Forall (typed t) sels.
Proof.
  unfold validateSelections. destruct (getObject s t) as [o|] eqn:Ho.
  - rewrite first_error_None, !Forall_forall. split.
    + intros H. split; [done|]. intros x Hx. by apply (validate_selection_None o), H.
    + intros [_ H] x Hx. by apply (validate_selection_None o), H.
  - split; [done|]. by intros [[] _].
Qed.

Lemma validate_typed (op : Operation double) :
  validateOperation s op = None <-> otype op <> Mutation /\ Forall (typed_root (otype op)) (oselections op).
Proof.
  assert (H : forall ty sel, validate_root s ty sel = None <-> typed_root ty sel).
  { intros ty sel. unfold validate_root, typed_root. destruct (root_field s ty (fname sel)) as [fs|].
    2:{ split; [done|]. by intros (? & ? & _). }
    destruct (validateArguments sel fs) as [e|] eqn:Ea.
    { split; [done|]. intros (fs' & [= <-] & Ha & _). apply validateArguments_None in Ha. congruence. }
    apply validateArguments_None in Ea. destruct (scalar fs) eqn:Es.
    - destruct (fselections sel) eqn:E.
      + split; [|done]. intros _. exists fs. by rewrite Es.
      + split; [done|]. intros (fs' & [= <-] & _ & Hx). by rewrite Es in Hx.
    - rewrite validateSelections_None. split.
      + intros Hx. exists fs. by rewrite Es.
      + intros (fs' & [= <-] & _ & Hx). by rewrite Es in Hx. }
  unfold validateOperation. destruct (otype op).
  - rewrite first_error_None, !Forall_forall. setoid_rewrite H. split; [by intros Hx; split|by intros []].
  - split; [done|]. by intros [].
  - rewrite first_error_None, !Forall_forall. setoid_rewrite H. split; [by intros Hx; split|by intros []].
Qed.

(** C17: the validation of an operation decides the typing rules: it succeeds
    exactly on queries and subscriptions whose root fields exist, whose selections
    exist on their object types all the way down, with objects where the schema
    has objects and nothing below scalars, and whose arguments are declared and
    complete. *)
Theorem validateOperation_correct (op : Operation double) :
  validateOperation s op = None <-> otype op <> Mutation /\ Forall (typed_root (otype op)) (oselections op).
Proof. apply validate_typed. Qed.
End typing.

(** ** Schemas as they are written *)

Section writing.

Context {double : Type}.

Record schema_doc := mkDoc {
  dobjects : list (bytes * list FieldSpec);
  dqueries : list FieldSpec;
  dsubscriptions : list FieldSpec;
  dwatchers : list DbusWatcher;
}.

Abbreviation jstr s := (JString (double := double) s).

Definition write_argument (a : ArgumentSpec) : json double :=
  JObject [(str "default", jstr (asdefault a)); (str "name", jstr (asname a)); (str "required", JBool (required a));
           (str "typeName", jstr (astype a))].

Definition write_field (f : FieldSpec) : json double :=
  JObject [(str "arguments", JArray (map write_argument (fsarguments f))); (str "collectionLink", JBool (collectionLink f));
           (str "expandMembers", JBool (expandMembers f)); (str "isList", JBool (fsisList f));
           (str "name", jstr (fsname f)); (str "redfishPath", jstr (redfishPath f));
           (str "responseKey", jstr (responseKey f)); (str "returnType", jstr (returnType f));
           (str "scalar", JBool (scalar f))].

Definition write_object (o : bytes * list FieldSpec) : json double :=
  JObject [(str "fields", JArray (map write_field o.2)); (str "name", jstr o.1)].

Definition write_watcher (w : DbusWatcher) : json double :=
  JObject [(str "dbusInterface", jstr (dbusInterface w)); (str "dbusObject", jstr (dbusObject w));
           (str "dbusProperty", jstr (dbusProperty w));
           (str "graphqlFields", JArray (map (fun s => jstr s) (graphqlFields w)))].

Definition write_schema (d : schema_doc) : json double :=
  JObject [(str "dbusWatchers", JArray (map write_watcher (dwatchers d)));
           (str "objects", JArray (map write_object (dobjects d)));
           (str "queries", JArray (map write_field (dqueries d)));
           (str "subscriptions", JArray (map write_field (dsubscriptions d)))].

(** What a field of an object type and a root field can express in a file. *)
Definition object_field (f : FieldSpec) : FieldSpec :=
  mkFieldSpec (fsname f) (responseKey f) (returnType f) (fsisList f) (scalar f)
    (map (fun a => mkArgumentSpec (asname a) (astype a) (required a) []) (fsarguments f)) [] false (collectionLink f).

Definition root_field_of (f : FieldSpec) : FieldSpec :=
  mkFieldSpec (fsname f) (responseKey f) (returnType f) (fsisList f) (scalar f) (fsarguments f) (redfishPath f)
    (expandMembers f) false.

Lemma jtraverse_map {A B C} (g : A -> B) (f : B -> parsed (double := double) C) (h : A -> C) l :
  (forall x, f (g x) = inl (h x)) -> jtraverse f (map g l) = inl (map h l).
Proof. intros H. induction l as [|x l IH]; cbn; [done|]. by rewrite H, IH. Qed.

Lemma load_object_field_written f : load_object_field (write_field f) = inl (object_field f).
Proof.
  transitivity (jbind (jtraverse load_argument (map write_argument (fsarguments f)))
    (fun args => inl (mkFieldSpec (fsname f) (responseKey f) (returnType f) (fsisList f) (scalar f) args [] false
                        (collectionLink f)))); [reflexivity|].
  by rewrite (jtraverse_map _ _ (fun a => mkArgumentSpec (asname a) (astype a) (required a) [])).
Qed.

Lemma load_root_field_written f : load_root_field (write_field f) = inl (root_field_of f).
Proof.
  transitivity (jbind (jtraverse load_root_argument (map write_argument (fsarguments f)))
    (fun args => inl (mkFieldSpec (fsname f) (responseKey f) (returnType f) (fsisList f) (scalar f) args (redfishPath f)
                        (expandMembers f) false))); [reflexivity|].
  rewrite (jtraverse_map _ _ id); [by rewrite map_id|by intros []].
Qed.

Lemma load_object_written o :
  load_object (write_object o) =
    inl (mkObjectSpec o.1 (foldl (fun m f => <[fsname f := f]> m) ∅ (map object_field o.2))).
Proof.
  transitivity (jbind (jtraverse load_object_field (map write_field o.2))
    (fun fs => inl (mkObjectSpec o.1 (foldl (fun m f => <[fsname f := f]> m) ∅ fs)))); [reflexivity|].
  by rewrite (jtraverse_map _ _ object_field) by apply load_object_field_written.
Qed.

Lemma load_watcher_written w : load_watcher (write_watcher w) = inl w.
Proof.
  transitivity (jbind (jtraverse get_string (map (fun s => jstr s) (graphqlFields w)))
    (fun fs => inl (mkWatcher (dbusObject w) (dbusInterface w) (dbusProperty w) fs))); [reflexivity|].
  rewrite (jtraverse_map _ _ id); [by rewrite map_id; destruct w|done].
Qed.

(** The last element with a given key. *)
Definition last_named {A} (key : A -> bytes) (l : list A) (n : bytes) : option A :=
  snd <$> find_if (fun x => bool_decide (key x = n)) (reverse l).

Lemma last_named_snoc {A} (key : A -> bytes) l x n :
  last_named key (l ++ [x]) n = if decide (key x = n) then Some x else last_named key l n.
Proof.
  unfold last_named. rewrite reverse_snoc. cbn. destruct (decide (key x = n)).
  - by rewrite bool_decide_eq_true_2.
  - rewrite bool_decide_eq_false_2 by done. by destruct (find_if _ (reverse l)) as [[]|].
Qed.

Lemma lookup_inserted {A} (key : A -> bytes) (l : list A) n :
  foldl (fun m x => <[key x := x]> m) (∅ : gmap bytes A) l !! n = last_named key l n.
Proof.
  induction l as [|x l IH] using rev_ind; [apply lookup_empty|].
  rewrite foldl_snoc, last_named_snoc. destruct (decide (key x = n)) as [<-|Hn]; [by rewrite lookup_insert_eq|].
  by rewrite lookup_insert_ne.
Qed.

Lemma add_objects s os :
  foldl addObject s os =
    mkTypedSchema (rootQueries s) (rootSubscriptions s) (foldl (fun m o => <[osname o := o]> m) (objects s) os) (dbusWatchers s).
Proof. revert s. induction os as [|o os IH]; intros s; [by destruct s|]. cbn. by rewrite IH. Qed.

Lemma add_queries s fs :
  foldl addRootQuery s fs =
    mkTypedSchema (foldl (fun m f => <[fsname f := f]> m) (rootQueries s) fs) (rootSubscriptions s) (objects s) (dbusWatchers s).
Proof. revert s. induction fs as [|o os IH]; intros s; [by destruct s|]. cbn. by rewrite IH. Qed.

Lemma add_subscriptions s fs :
  foldl addRootSubscription s fs =
    mkTypedSchema (rootQueries s) (foldl (fun m f => <[fsname f := f]> m) (rootSubscriptions s) fs) (objects s) (dbusWatchers s).
Proof. revert s. induction fs as [|o os IH]; intros s; [by destruct s|]. cbn. by rewrite IH. Qed.

Lemma add_watchers s ws :
  foldl addDbusWatcher s ws = mkTypedSchema (rootQueries s) (rootSubscriptions s) (objects s) (dbusWatchers s ++ ws).
Proof.
  revert s. induction ws as [|o os IH]; intros s; cbn; [by destruct s; rewrite app_nil_r|]. rewrite IH. cbn. by rewrite <- app_assoc.
Qed.

(** A schema is loaded as it is written: every root query, root subscription,
    object type and field of an object type is found under its name (the last one
    when a name occurs twice), with everything that a file can say about it, and
    the watchers are kept in order. *)
Theorem schema_roundtrip what (d : schema_doc) :
  exists s, fromJson what (write_schema d) = inl s /\
    (forall n, getRootQueryField s n = last_named fsname (map root_field_of (dqueries d)) n) /\
    (forall n, getRootSubscriptionField s n = last_named fsname (map root_field_of (dsubscriptions d)) n) /\
    (forall t n, (getObject s t ≫= fun o => fields o !! n) =
       (last_named fst (dobjects d) t ≫= fun o => last_named fsname (map object_field o.2) n)) /\
    getDbusWatchers s = dwatchers d.
Proof.
  assert (H : load_schema (write_schema d) =
    jbind (jtraverse load_object (map write_object (dobjects d))) (fun objs =>
    jbind (jtraverse load_root_field (map write_field (dqueries d))) (fun qs =>
    jbind (jtraverse load_root_field (map write_field (dsubscriptions d))) (fun subs =>
    jbind (jtraverse load_watcher (map write_watcher (dwatchers d))) (fun ws =>
    inl (foldl addDbusWatcher (foldl addRootSubscription (foldl addRootQuery (foldl addObject emptySchema objs) qs) subs) ws))))))
    by reflexivity.
  rewrite (jtraverse_map _ _ _ _ load_object_written), !(jtraverse_map _ _ _ _ load_root_field_written),
    (jtraverse_map _ _ id _ load_watcher_written), map_id in H. unfold fromJson. rewrite H. cbn [jbind].
  eexists. split; [done|]. rewrite add_watchers, add_subscriptions, add_queries, add_objects. cbn.
  split_and!; [intros n; apply lookup_inserted..| |done]. intros t n. unfold getObject. cbn.
  rewrite lookup_inserted. clear H. induction (dobjects d) as [|o os IH] using rev_ind; [done|].
  rewrite map_app. cbn. rewrite !last_named_snoc. cbn. destruct (decide (o.1 = t)); [|exact IH].
  cbn. apply lookup_inserted.
Qed.
End writing.
