(* ===== verification/TypedExecutor.v ===== *)
(** * The typed executor: [typed_executor.hpp] of [examples/graphql_server/include/graphql/]
    and [graphql_redfish_executor.cpp]

    Queries against Redfish resources, driven by the typed schema: paths with
    arguments, collections fetched in batches, and the projection of what was
    fetched.  [Err] is an error of [Result], [Exn] an exception.  The provider is a
    parameter, what it answers for each target while an operation is executed;
    [when_all], whose result does not depend on the order in which its tasks end
    (see [Await]), is the list of their results. *)

From S2P Require Import Prelude StdMap GraphqlParser GraphqlGrammar GraphqlExecutor TypedSchema.
From Stdlib Require Import Sorting.Sorted.

Inductive tres (A : Type) := Ok (a : A) | Err (e : gql_error) | Exn (what : bytes).
Arguments Ok {A}.
Arguments Err {A}.
Arguments Exn {A}.

Definition tbind {A B} (m : tres A) (f : A -> tres B) : tres B :=
  match m with Ok a => f a | Err e => Err e | Exn w => Exn w end.

Declare Scope typed_scope.
Notation "x ← m ; k" := (tbind m (fun x => k))
  (at level 20, m at level 100, k at level 200, only parsing) : typed_scope.
Local Open Scope typed_scope.

(** A loop that returns the first error. *)
Fixpoint ttraverse {A B} (f : A -> tres B) (l : list A) : tres (list B) :=
  match l with
  | [] => Ok []
  | x :: l => y ← f x; ys ← ttraverse f l; Ok (y :: ys)
  end.

(** A loop that skips the elements with an error. *)
Fixpoint tskip {A B} (f : A -> tres B) (l : list A) : tres (list B) :=
  match l with
  | [] => Ok []
  | x :: l => match f x with
              | Ok y => ys ← tskip f l; Ok (y :: ys)
              | Err _ => tskip f l
              | Exn w => Exn w
              end
  end.

(** [result.find(placeholder, pos)] and [result.replace] in a loop: [before] is
    what lies before [pos]. *)
Fixpoint replace_loop (fuel : nat) (placeholder value before rest : bytes) : bytes :=
  match fuel with
  | O => before ++ rest
  | S fuel =>
      match find_sub placeholder rest with
      | None => before ++ rest
      | Some i => replace_loop fuel placeholder value (before ++ take i rest ++ value)
                    (drop (i + length placeholder) rest)
      end
  end.

Definition replace_all (placeholder value s : bytes) : bytes :=
  replace_loop (S (length s)) placeholder value [] s.

Section executor.

Context {double : Type} (s : TypedSchema).

(** The provider's [get] and [getFresh]. *)
Context (get getFresh : bytes -> json double + bytes).

(** What the exceptions of nlohmann::json say. *)
Context (what : json_error double -> bytes) (type_error invalid_iterator : bytes).

Implicit Types (sel : FieldSelection double) (j source : json double).

Definition provided (r : json double + bytes) : tres (json double) :=
  match r with inl j => Ok j | inr e => Err (ProviderError e) end.

(** [j.contains(key)] and [j[key]]. *)
Definition jfind j (key : bytes) : option (json double) :=
  match j with JObject l => object_get l key | _ => None end.

Definition as_string j : tres bytes := match j with JString t => Ok t | _ => Exn (what (Not_string j)) end.

(** ** Projection *)

(** The loop of [projectObject]; [pf] is [projectField]. *)
Fixpoint project_loop (pf : FieldSelection double -> FieldSpec -> json double -> tres (json double))
  (o : ObjectSpec) (t : bytes) source (sels : list (FieldSelection double)) (result : list (bytes * json double))
  : tres (json double) :=
  match sels with
  | [] => Ok (JObject result)
  | sel :: sels =>
      match fields o !! fname sel with
      | None => Err (UnknownFieldOn (fname sel) t)
      | Some fs =>
          v ← pf sel fs source;
          project_loop pf o t source sels (object_set result (output_name sel) v)
      end
  end.

Definition project_object (pf : FieldSelection double -> FieldSpec -> json double -> tres (json double))
  source (t : bytes) (sels : list (FieldSelection double)) : tres (json double) :=
  match getObject s t with
  | None => Err (UnknownObjectType t)
  | Some o => match sels with [] => Ok source | _ => project_loop pf o t source sels [] end
  end.

(** [?$expand] asks for the members of a collection in one response. *)
Definition expand_suffix : bytes := str "?$expand=*($levels=1)".

Fixpoint projectField sel (fs : FieldSpec) source : tres (json double) :=
  match jfind source (responseKey fs) with
  | None => Ok JNull
  | Some value =>
      if scalar fs then Ok value
      else if fsisList fs then
        if collectionLink fs then
          match jfind value (str "@odata.id") with
          | None => Err (ExpectedLink (fname sel))
          | Some id =>
              url ← as_string id;
              coll ← provided (getFresh (url ++ expand_suffix));
              match jfind coll (str "Members") with
              | Some (JArray members) =>
                  items ← tskip (fun m => project_object projectField m (returnType fs) (fselections sel)) members;
                  Ok (JArray items)
              | _ => Err (ExpectedLinkMembers (fname sel))
              end
          end
        else
          match value with
          | JArray l =>
              items ← ttraverse (fun item => project_object projectField item (returnType fs) (fselections sel)) l;
              Ok (JArray items)
          | _ => Err (ExpectedArray (fname sel))
          end
      else project_object projectField value (returnType fs) (fselections sel)
  end.

Definition projectObject := project_object projectField.

(** ** Paths *)

(** The defaults of the schema, overridden by the arguments that are not null. *)
Definition resolved_arguments (args : list (bytes * json double)) (fs : FieldSpec) : list (bytes * json double) :=
  set_all
    (set_all [] (map (fun a => (asname a, JString (asdefault a)))
                     (List.filter (fun a => bool_decide (asdefault a <> [])) (fsarguments fs))))
    (List.filter (fun kv => match kv.2 with JNull => false | _ => true end) args).

Fixpoint expand_loop (resolved : list (bytes * json double)) (result : bytes) : tres bytes :=
  match resolved with
  | [] => Ok result
  | (k, v) :: resolved =>
      value ← as_string v;
      expand_loop resolved (replace_all (str "{" ++ k ++ str "}") value result)
  end.

Definition expandPath (pathTemplate : bytes) (args : list (bytes * json double)) (fs : FieldSpec) : tres bytes :=
  expand_loop (resolved_arguments args fs) pathTemplate.

Definition resolveArguments sel (variables : list (bytes * json double)) : tres (list (bytes * json double)) :=
  match argumentsToJson type_error (farguments sel) variables with
  | Done a => Ok a
  | Throws w => Exn w
  | Unfinished => Exn []
  end.

(** ** Root fields *)

(** [fetchAndProject]: [None] for a member that is skipped. *)
Definition fetchAndProject (memberId returnType : bytes) (sels : list (FieldSelection double))
  : tres (option (json double)) :=
  match getFresh memberId with
  | inr _ => Ok None
  | inl item => match projectObject item returnType sels with
                | Ok j => Ok (Some j)
                | Err _ => Ok None
                | Exn w => Exn w
                end
  end.

Definition kBatchSize : nat := 3.

(** The loop over the batches; [fuel] bounds their number. *)
Fixpoint batches (fuel : nat) (memberIds : list bytes) (returnType : bytes) (sels : list (FieldSelection double))
  : tres (list (json double)) :=
  match fuel, memberIds with
  | S fuel, _ :: _ =>
      outcomes ← ttraverse (fun id => fetchAndProject id returnType sels) (take kBatchSize memberIds);
      rest ← batches fuel (drop kBatchSize memberIds) returnType sels;
      Ok (omap id outcomes ++ rest)
  | _, _ => Ok []
  end.

(** The links of the members that have one. *)
Definition member_ids (members : list (json double)) : tres (list bytes) :=
  ttraverse as_string (omap (fun m => jfind m (str "@odata.id")) members).

Definition resolveByPath sel (fs : FieldSpec) (variables : list (bytes * json double)) (fresh : bool)
  : tres (json double) :=
  if decide (redfishPath fs = []) then Err (NoRedfishPath (fsname fs))
  else
    args ← resolveArguments sel variables;
    target ← expandPath (redfishPath fs) args fs;
    let target := if expandMembers fs && fsisList fs then target ++ expand_suffix else target in
    payload ← provided (if fresh then getFresh target else get target);
    if fsisList fs then
      match jfind payload (str "Members") with
      | Some (JArray members) =>
          if expandMembers fs then
            items ← tskip (fun m => projectObject m (returnType fs) (fselections sel)) members;
            Ok (JArray items)
          else
            memberIds ← member_ids members;
            items ← batches (length memberIds) memberIds (returnType fs) (fselections sel);
            Ok (JArray items)
      | _ => Err (ExpectedMembers (fsname fs))
      end
    else if scalar fs then Ok payload
    else projectObject payload (returnType fs) (fselections sel).

(** ** Operations *)

(** The loop of [executeSelections] and of [executeSubscriptionSelections]. *)
Fixpoint selections_loop (field_of : bytes -> option FieldSpec) (unknown : bytes -> gql_error) (fresh : bool)
  (sels : list (FieldSelection double)) (variables result : list (bytes * json double)) : tres (json double) :=
  match sels with
  | [] => Ok (JObject result)
  | sel :: sels =>
      match field_of (fname sel) with
      | None => Err (unknown (fname sel))
      | Some fs =>
          v ← resolveByPath sel fs variables fresh;
          selections_loop field_of unknown fresh sels variables (object_set result (output_name sel) v)
      end
  end.

Definition executeSelections (sels : list (FieldSelection double)) (variables : list (bytes * json double)) :=
  selections_loop (getRootQueryField s) UnknownQueryField false sels variables [].

Definition executeSubscriptionSelections (sels : list (FieldSelection double)) (variables : list (bytes * json double)) :=
  selections_loop (getRootSubscriptionField s) UnknownSubscriptionField true sels variables [].

(** The response for the result of an operation. *)
Definition response (r : json double + gql_error) : json double :=
  match r with
  | inl data => JObject [(str "data", data)]
  | inr e => error_response (message e)
  end.

(** [execute(query, variables)]: [None] would be an execution that does not end;
    an exception may leave it. *)
Definition execute (stod : bytes -> option double) (query : bytes) (given : json double)
  : option (json double + bytes) :=
  match tryParse stod query with
  | None => None
  | Some (inr e) => Some (inl (error_response e))
  | Some (inl op) =>
      match expandOperation op with
      | Unfinished => None
      | Throws w => Some (inr w)
      | Done op =>
          match validateOperation s op with
          | Some e => Some (inl (response (inr e)))
          | None =>
              match merge_variables invalid_iterator (initialVariables op) given with
              | Unfinished => None
              | Throws w => Some (inr w)
              | Done variables =>
                  match executeSelections (oselections op) variables with
                  | Ok data => Some (inl (response (inl data)))
                  | Err e => Some (inl (response (inr e)))
                  | Exn w => Some (inr w)
                  end
              end
          end
      end
  end.

End executor.

(** ** Loops *)

Lemma tskip_no_Err {A B} (f : A -> tres B) l e : tskip f l <> Err e.
Proof. induction l as [|x l IH]; cbn; [done|]. destruct (f x); [|done|done]. by destruct (tskip f l). Qed.

Lemma ttraverse_app {A B} (f : A -> tres B) l k :
  ttraverse f (l ++ k) = tbind (ttraverse f l) (fun a => tbind (ttraverse f k) (fun b => Ok (a ++ b))).
Proof.
  induction l as [|x l IH]; cbn; [by destruct (ttraverse f k)|]. destruct (f x); cbn; [|done|done].
  rewrite IH. destruct (ttraverse f l); cbn; [|done|done]. by destruct (ttraverse f k).
Qed.

(** ** Validated operations do not go wrong *)

Section safety.

Context {double : Type} (s : TypedSchema) (get getFresh : bytes -> json double + bytes).
Context (what : json_error double -> bytes) (type_error : bytes).
Implicit Types (sel : FieldSelection double).

Abbreviation pfield := (projectField s getFresh what).

(** Something that the provider gave. *)
Definition given (j : json double) : Prop := exists target, get target = inl j \/ getFresh target = inl j.

(** Errors that validation does not rule out: the provider reports one, a root field
    of the schema has no path, or data do not have the shape the schema gives them: a
    linked collection is not a link, a list is not one, or a collection that the
    provider gave has no members. *)
Inductive fault : gql_error -> Prop :=
  | fault_provider target e : get target = inr e \/ getFresh target = inr e -> fault (ProviderError e)
  | fault_path ty n fs : root_field s ty n = Some fs -> redfishPath fs = [] -> fault (NoRedfishPath (fsname fs))
  | fault_link n (v : json double) : jfind v (str "@odata.id") = None -> fault (ExpectedLink n)
  | fault_array n (v : json double) : (forall l, v <> JArray l) -> fault (ExpectedArray n)
  | fault_link_members n j : given j -> (forall l, jfind j (str "Members") <> Some (JArray l)) -> fault (ExpectedLinkMembers n)
  | fault_members n j : given j -> (forall l, jfind j (str "Members") <> Some (JArray l)) -> fault (ExpectedMembers n).

(** Exceptions that it does not rule out: a value that is used as a text, an argument
    in a path, a link or the name of a variable, is not one. *)
Definition thrown (w : bytes) : Prop := w = type_error \/ exists j, (forall t, j <> JString t) /\ w = what (Not_string j).

Definition good {A} (r : tres A) : Prop := match r with Ok _ => True | Err e => fault e | Exn w => thrown w end.

Lemma good_bind {A B} (m : tres A) (f : A -> tres B) : good m -> (forall a, m = Ok a -> good (f a)) -> good (tbind m f).
Proof. destruct m; cbn; auto. Qed.

Lemma good_traverse {A B} (f : A -> tres B) l : (forall x, x ∈ l -> good (f x)) -> good (ttraverse f l).
Proof.
  induction l as [|x l IH]; intros H; cbn; [done|]. apply good_bind; [apply H; left|]. intros y _.
  apply good_bind; [|done]. apply IH. intros z Hz. apply H. by right.
Qed.

(** Of what is skipped only the exceptions matter. *)
Definition quiet {A} (r : tres A) : Prop := match r with Exn w => thrown w | _ => True end.

Lemma good_quiet {A} (r : tres A) : good r -> quiet r.
Proof. by destruct r. Qed.

Lemma good_skip {A B} (f : A -> tres B) l : (forall x, x ∈ l -> quiet (f x)) -> good (tskip f l).
Proof.
  induction l as [|x l IH]; intros H; cbn; [done|]. assert (Hl : good (tskip f l)) by (apply IH; intros z Hz; apply H; by right).
  assert (Hx : quiet (f x)) by (apply H; left). destruct (f x); [by apply good_bind|done|done].
Qed.

Lemma good_string (j : json double) : good (as_string what j).
Proof. destruct j eqn:E; try exact I; right; exists j; subst j; (split; [discriminate|done]). Qed.

Lemma good_fetched target : good (provided (getFresh target)).
Proof. unfold provided. destruct (getFresh target) eqn:E; [done|]. apply (fault_provider target). by right. Qed.

(** Projecting the selection on an object of a type it makes sense on. *)
Definition field_safe sel : Prop :=
  forall t o fs source, getObject s t = Some o -> fields o !! fname sel = Some fs -> typed s t sel -> good (pfield sel fs source).

Lemma project_loop_safe o t source sels result :
  Forall field_safe sels -> getObject s t = Some o -> Forall (typed s t) sels -> good (project_loop pfield o t source sels result).
Proof.
  intros Hsafe Ho Ht. revert result. induction Hsafe as [|sel sels Hsel _ IH]; intros result; cbn; [done|].
  apply Forall_cons in Ht as [Hsel' Ht]. destruct (fields o !! fname sel) as [fs|] eqn:Hf.
  - apply good_bind; [by eapply Hsel|]. intros v _. by apply IH.
  - inversion Hsel' as [? o' ? fs Ho'|? o' ? fs Ho']; subst; congruence.
Qed.

Lemma project_object_safe source t sels :
  Forall field_safe sels -> is_Some (getObject s t) -> Forall (typed s t) sels -> good (project_object s pfield source t sels).
Proof.
  intros Hsafe [o Ho] Ht. unfold project_object. rewrite Ho. destruct sels as [|x l]; [done|]. by apply project_loop_safe.
Qed.

Lemma projectField_safe sel : field_safe sel.
Proof.
  induction sel as [n al sp args ds sels IH] using FieldSelection_rect'. intros t o fs source Ho Hf Ht.
  cbn [projectField fname fselections] in *. destruct (jfind source (responseKey fs)) as [v|]; [|done].
  destruct (scalar fs) eqn:Es; [done|].
  assert (is_Some (getObject s (returnType fs)) /\ Forall (typed s (returnType fs)) sels) as [Hr Hs].
  { inversion Ht as [? o' ? fs' Ho' Hf' Ha Hsc Hn|? o' ? fs' Ho' Hf' Ha Hsc Hn Hsub]; subst; cbn in *;
      assert (o' = o) as -> by congruence; assert (fs' = fs) as -> by congruence; [congruence|done]. }
  destruct (fsisList fs); [|by apply project_object_safe].
  destruct (collectionLink fs).
  - destruct (jfind v (str "@odata.id")) as [j|] eqn:El; [|by apply (fault_link n v)].
    apply good_bind; [apply good_string|]. intros url _. apply good_bind; [apply good_fetched|]. intros coll Hcoll.
    assert (Hg : given coll) by (eexists; right; by destruct (getFresh (url ++ expand_suffix)) eqn:E; [injection Hcoll as <-|]).
    destruct (jfind coll (str "Members")) as [[| | | | |members|]|] eqn:Em; try (by apply (fault_link_members n coll); [|congruence]).
    apply good_bind; [|done]. apply good_skip. intros m _. by apply good_quiet, project_object_safe.
  - destruct v as [| | | | |l|] eqn:Ev; try (by apply (fault_array n v); congruence). apply good_bind; [|done]. apply good_traverse. intros m _. by apply project_object_safe.
Qed.

Lemma projectObject_safe source t sels :
  is_Some (getObject s t) -> Forall (typed s t) sels -> good (projectObject s getFresh what source t sels).
Proof. apply project_object_safe, Forall_forall. intros x _. apply projectField_safe. Qed.

(** What a selection asks of the objects of a list: typed selections, or none. *)
Definition list_ok (t : bytes) (sels : list (FieldSelection double)) : Prop :=
  (is_Some (getObject s t) /\ Forall (typed s t) sels) \/ sels = [].

Lemma projectObject_quiet source t sels : list_ok t sels -> quiet (projectObject s getFresh what source t sels).
Proof.
  intros [[Ho Ht]| ->]; [by apply good_quiet, projectObject_safe|]. unfold projectObject, project_object. by destruct (getObject s t).
Qed.

Lemma fetch_safe id t sels : list_ok t sels -> good (fetchAndProject s getFresh what id t sels).
Proof.
  intros Ht. unfold fetchAndProject. destruct (getFresh id) as [item|]; [|done].
  pose proof (projectObject_quiet item t sels Ht). by destruct (projectObject _ _ _ _ _ _).
Qed.

Lemma batches_safe fuel ids t sels : list_ok t sels -> good (batches s getFresh what fuel ids t sels).
Proof.
  intros Ht. revert ids. induction fuel as [|fuel IH]; intros ids; [done|]. destruct ids as [|x ids]; [done|]. cbn [batches].
  apply good_bind; [apply good_traverse; intros id _; by apply fetch_safe|]. intros os _. by apply good_bind.
Qed.

Lemma expand_loop_safe resolved r : good (expand_loop what resolved r).
Proof.
  revert r. induction resolved as [|[k v] l IH]; intros r; [done|]. cbn [expand_loop]. apply good_bind; [apply good_string|].
  intros t _. apply IH.
Qed.

Lemma traverse_throws {A B} (f : A -> outcome B) l (P : bytes -> Prop) w :
  Forall (fun x => forall w, f x = Throws w -> P w) l -> traverse f l = Throws w -> P w.
Proof.
  induction 1 as [|x l Hx _ IH]; cbn [traverse]; [done|]. destruct (f x) as [y|w'|] eqn:E; cbn [obind]; [|intros [= <-]; by apply Hx|done].
  destruct (traverse f l); cbn [obind]; [done|intros [= <-]; by apply IH|done].
Qed.

Lemma resolve_throws (value : json double) vars : forall w, resolveVariables type_error value vars = Throws w -> w = type_error.
Proof.
  revert value. fix IH 1. intros value w. destruct value as [| | | | |l|l]; cbn; try done.
  - intros H. apply (traverse_throws (fun item => resolveVariables type_error item vars) l (fun w => w = type_error)).
    { clear H. induction l as [|x l IHl]; constructor; [exact (IH x)|exact IHl]. }
    by destruct (traverse _ l); cbn [obind] in H; [|injection H as <-|].
  - destruct (variable_of l) as [[]|]; try (by intros [= <-]); try done. intros H.
    apply (traverse_throws (fun kv => obind (resolveVariables type_error kv.2 vars) (fun v => Done (kv.1, v))) l (fun w => w = type_error)).
    { clear H. induction l as [|[k x] l IHl]; constructor; [|exact IHl]. intros w'. pose proof (IH x) as Hx. cbn.
      destruct (resolveVariables type_error x vars); cbn; [done|intros [= <-]; by apply Hx|done]. }
    by destruct (traverse _ l); cbn [obind] in H; [|injection H as <-|].
Qed.

Lemma arguments_safe sel vars : good (resolveArguments type_error sel vars).
Proof.
  unfold resolveArguments. pose proof (arguments_finished type_error (farguments sel) vars) as Hf.
  destruct (argumentsToJson _ _ _) as [a|w|] eqn:E; [done| |done]. left. unfold argumentsToJson in E.
  match goal with H : obind (traverse ?f ?l) _ = _ |- _ => apply (traverse_throws f l (fun w => w = type_error)); [|by destruct (traverse f l); cbn [obind] in H; [|injection H as <-|]] end.
  apply Forall_forall. intros x _ w'. cbn. destruct (resolveVariables _ _ _) eqn:Er; cbn; [done|intros [= <-]; by apply resolve_throws in Er|done].
Qed.

Lemma resolveByPath_safe ty n sel fs vars fresh :
  root_field s ty n = Some fs ->
  (if scalar fs then fselections sel = []
   else is_Some (getObject s (returnType fs)) /\ Forall (typed s (returnType fs)) (fselections sel)) ->
  good (resolveByPath s get getFresh what type_error sel fs vars fresh).
Proof.
  intros Hroot Ht. unfold resolveByPath. destruct (decide (redfishPath fs = [])); [by eapply fault_path|].
  apply good_bind; [apply arguments_safe|]. intros a _. apply good_bind; [apply expand_loop_safe|]. intros target _.
  cbv zeta. set (full := if expandMembers fs && fsisList fs then _ else _).
  apply good_bind.
  { unfold provided. destruct fresh; [destruct (getFresh full) eqn:E|destruct (get full) eqn:E]; try done; apply (fault_provider full); by auto. }
  intros payload Hpay. destruct (fsisList fs) eqn:El.
  - assert (Hl : list_ok (returnType fs) (fselections sel)) by (destruct (scalar fs); [by right|by left]).
    assert (Hg : given payload)
      by (exists full; destruct fresh; [right|left]; (destruct (_ full) eqn:E; [by injection Hpay as <-|done])).
    destruct (jfind payload (str "Members")) as [[| | | | |members|]|] eqn:Em; try (by apply (fault_members _ payload); [|congruence]).
    destruct (expandMembers fs).
    + apply good_bind; [|done]. apply good_skip. intros m _. by apply projectObject_quiet.
    + apply good_bind; [apply good_traverse; intros m _; apply good_string|]. intros ids _. apply good_bind; [by apply batches_safe|done].
  - destruct (scalar fs); [done|]. destruct Ht. by apply projectObject_safe.
Qed.

Lemma selections_loop_safe ty field_of unknown fresh sels vars result :
  (forall n, field_of n = root_field s ty n) -> Forall (typed_root s ty) sels ->
  good (selections_loop s get getFresh what type_error field_of unknown fresh sels vars result).
Proof.
  intros Hf Ht. revert result. induction Ht as [|sel sels (fs & Hr & _ & Hsel) _ IH]; intros result; cbn; [done|].
  rewrite Hf, Hr. apply good_bind; [by eapply resolveByPath_safe|]. intros v _. apply IH.
Qed.

End safety.

(** ** Paths *)

(** A template: text without braces, and placeholders. *)
Inductive piece := Lit (l : bytes) | Hole (n : bytes).

Definition no_brace (l : bytes) : Prop := ("{"%byte ∉ l) /\ ("}"%byte ∉ l).

Definition wf_piece (p : piece) : Prop := match p with Lit l => no_brace l | Hole n => no_brace n end.

Definition placeholder (n : bytes) : bytes := str "{" ++ n ++ str "}".

Definition print_piece (p : piece) : bytes := match p with Lit l => l | Hole n => placeholder n end.

Definition print_pieces (ps : list piece) : bytes := concat (map print_piece ps).

Lemma print_pieces_app ps qs : print_pieces (ps ++ qs) = print_pieces ps ++ print_pieces qs.
Proof. unfold print_pieces. by rewrite map_app, concat_app. Qed.

Lemma prefix_closing (k n rest : bytes) :
  "}"%byte ∉ k -> "}"%byte ∉ n -> (k ++ ["}"%byte]) `prefix_of` (n ++ "}"%byte :: rest) -> k = n.
Proof.
  revert n. induction k as [|c k IH]; intros [|d n] Hk Hn [r E]; cbn in E; simplify_eq; [done|..].
  - destruct Hn. left.
  - destruct Hk. left.
  - f_equal. apply IH; [set_solver|set_solver|by exists r].
Qed.

(** A placeholder is found only where one was printed. *)
Lemma placeholder_at k ps j :
  no_brace k -> Forall wf_piece ps -> placeholder k `prefix_of` drop j (print_pieces ps) ->
  exists ps1 ps2, ps = ps1 ++ Hole k :: ps2 /\ j = length (print_pieces ps1).
Proof.
  intros Hk Hps. revert j. induction Hps as [|p ps Hp Hps IH]; intros j H.
  { change (print_pieces []) with ([] : bytes) in H. rewrite drop_nil in H. by destruct H. }
  change (print_pieces (p :: ps)) with (print_piece p ++ print_pieces ps) in H.
  destruct (decide (length (print_piece p) <= j)) as [Hle|Hgt].
  - rewrite drop_app_ge in H by done. apply IH in H as (ps1 & ps2 & -> & Hj). exists (p :: ps1), ps2. split; [done|].
    change (print_pieces (p :: ps1)) with (print_piece p ++ print_pieces ps1). rewrite length_app. lia.
  - rewrite drop_app_le in H by lia.
    assert (Hc : print_piece p !! j = Some "{"%byte).
    { destruct (drop j (print_piece p)) as [|c r] eqn:E.
      { apply (f_equal length) in E. rewrite length_drop in E. cbn in E. lia. }
      destruct H as [r' H]. cbn in H. injection H as <- _.
      rewrite <- (take_drop j (print_piece p)), E. rewrite lookup_app_r; rewrite length_take_le; try lia.
      by rewrite Nat.sub_diag. }
    destruct p as [l|n]; cbn in Hc, Hp.
    { apply list_elem_of_lookup_2 in Hc. by destruct Hp. }
    destruct j as [|j].
    + destruct H as [r H]. cbn in H. injection H as H.
      assert (k = n) as ->; [|by exists [], ps]. apply (prefix_closing k n (print_pieces ps)); [apply Hk|apply Hp|].
      exists r. rewrite <- H, <- app_assoc. done.
    + cbn in Hc. apply lookup_app_Some in Hc as [Hc|[_ Hc]]; [by apply list_elem_of_lookup_2 in Hc; destruct Hp|].
      by destruct (j - length n) as [|[]].
Qed.

(** Replacing one placeholder by its value. *)
Definition fill (k v : bytes) (p : piece) : piece :=
  match p with Lit l => Lit l | Hole n => if decide (n = k) then Lit v else Hole n end.

Lemma fill_other k v ps : (forall ps1 ps2, ps <> ps1 ++ Hole k :: ps2) -> map (fill k v) ps = ps.
Proof.
  induction ps as [|p ps IH]; intros H; [done|]. cbn. rewrite IH.
  - f_equal. destruct p as [l|n]; [done|]. cbn. destruct (decide (n = k)) as [->|]; [|done]. by destruct (H [] ps).
  - intros ps1 ps2 ->. by apply (H (p :: ps1) ps2).
Qed.

Lemma hole_prefix k ps rest : placeholder k `prefix_of` print_pieces (Hole k :: ps) ++ rest.
Proof. exists (print_pieces ps ++ rest). change (print_pieces (Hole k :: ps)) with (placeholder k ++ print_pieces ps). by rewrite <- app_assoc. Qed.

Lemma replace_pieces fuel k v before ps :
  no_brace k -> Forall wf_piece ps -> length (print_pieces ps) < fuel ->
  replace_loop fuel (placeholder k) v before (print_pieces ps) = before ++ print_pieces (map (fill k v) ps).
Proof.
  intros Hk. revert before ps. induction fuel as [|fuel IH]; intros before ps Hps Hf; [lia|]. cbn [replace_loop].
  destruct (find_sub (placeholder k) (print_pieces ps)) as [i|] eqn:E.
  - apply find_sub_Some in E as [Hpre Hmin].
    assert (Hpre' : placeholder k `prefix_of` drop i (print_pieces ps))
      by (rewrite <- Hpre at 1; apply prefix_take).
    destruct (placeholder_at k ps i Hk Hps Hpre') as (ps1 & ps2 & -> & ->).
    apply Forall_app in Hps as [Hps1 [_ Hps2]%Forall_cons].
    rewrite print_pieces_app. change (print_pieces (Hole k :: ps2)) with (placeholder k ++ print_pieces ps2).
    rewrite take_app_length, drop_app_ge, Nat.add_sub_swap, Nat.sub_diag by lia. cbn [Nat.add].
    rewrite drop_app_length. rewrite IH; [|done|].
    + rewrite map_app. cbn [map fill]. rewrite decide_True by done.
      rewrite (fill_other k v ps1).
      * rewrite print_pieces_app. change (print_pieces (Lit v :: map (fill k v) ps2)) with (v ++ print_pieces (map (fill k v) ps2)).
        by rewrite <- !app_assoc.
      * intros qs1 qs2 ->. apply (Hmin (length (print_pieces qs1))).
        -- rewrite print_pieces_app, length_app. unfold placeholder in *. cbn. unfold print_pieces. cbn. rewrite length_app. lia.
        -- rewrite !print_pieces_app, <- !app_assoc, drop_app_length. apply hole_prefix.
    + rewrite print_pieces_app, length_app in Hf. cbn in Hf. unfold print_pieces in *. cbn in Hf. rewrite length_app in Hf. lia.
  - rewrite fill_other; [done|]. intros ps1 ps2 ->. rewrite find_sub_None in E. apply (E (length (print_pieces ps1))).
    rewrite print_pieces_app, drop_app_length. rewrite <- (app_nil_r (print_pieces _)). apply hole_prefix.
Qed.

Section paths.

Context {double : Type} (what : json_error double -> bytes).

(** A piece with the arguments put in. *)
Definition subst_piece (resolved : list (bytes * json double)) (p : piece) : bytes :=
  match p with
  | Lit l => l
  | Hole n => match object_get resolved n with Some (JString v) => v | _ => placeholder n end
  end.

(** Names and values that are strings without braces. *)
Definition plain (kv : bytes * json double) : Prop := no_brace kv.1 /\ exists v, kv.2 = JString v /\ no_brace v.

Lemma expand_loop_correct resolved ps :
  Forall plain resolved -> Forall wf_piece ps ->
  expand_loop what resolved (print_pieces ps) = Ok (concat (map (subst_piece resolved) ps)).
Proof.
  intros Hr. revert ps. induction Hr as [|[k j] resolved (Hk & v & Hj & Hv) _ IH]; intros ps Hps.
  { done. }
  cbn in Hj. subst j. cbn [expand_loop as_string tbind]. unfold replace_all.
  change (str "{" ++ k ++ str "}") with (placeholder k). rewrite replace_pieces by (done || lia). cbn [app]. rewrite IH.
  - f_equal. f_equal. rewrite map_map. apply map_ext. intros [l|n]; [done|]. cbn.
    destruct (decide (n = k)) as [->|Hn]; [by rewrite decide_True|]. rewrite (decide_False (P := k = n)) by congruence. done.
  - apply Forall_map. eapply Forall_impl; [exact Hps|]. intros [l|n] Hp; [done|]. cbn. by destruct (decide (n = k)).
Qed.

Lemma set_all_get {J} (acc l : list (bytes * J)) k :
  object_get (set_all acc l) k = match last_named fst l k with Some kv => Some kv.2 | None => object_get acc k end.
Proof.
  induction l as [|[k' v] l IH] using rev_ind; [done|]. unfold set_all in *. rewrite foldl_snoc, object_get_set, IH.
  rewrite last_named_snoc. cbn. by destruct (decide (k' = k)).
Qed.

(** A path template is expanded by putting the value of every argument in the
    place of its placeholder, all at once, and leaving the other placeholders as
    they are, as long as names and values have no braces; the value of an argument
    is the one given, unless it is null, and else the default of the schema if
    there is one. *)
Theorem expandPath_correct (ps : list piece) args (fs : FieldSpec) :
  Forall wf_piece ps -> Forall plain (resolved_arguments args fs) ->
  expandPath what (print_pieces ps) args fs = Ok (concat (map (subst_piece (resolved_arguments args fs)) ps)) /\
  forall n, object_get (resolved_arguments args fs) n =
    match last_named fst (List.filter (fun kv => match kv.2 with JNull => false | _ => true end) args) n with
    | Some kv => Some kv.2
    | None => (fun kv => kv.2) <$> last_named fst (map (fun a => (asname a, JString (asdefault a)))
                (List.filter (fun a => bool_decide (asdefault a <> [])) (fsarguments fs))) n
    end.
Proof.
  intros Hps Hr. split; [by apply expand_loop_correct|]. intros n. unfold resolved_arguments.
  rewrite !set_all_get. destruct (last_named fst (List.filter _ args) n); [done|]. by destruct (last_named fst (map _ _) n).
Qed.
End paths.

Lemma expandPath_correct_witness :
  let fs := mkFieldSpec (str "f") [] [] false false
              [mkArgumentSpec (str "systemId") [] false (str "system"); mkArgumentSpec (str "id") [] true []] [] false false in
  let ps := [Lit (str "/redfish/"); Hole (str "systemId"); Lit (str "/"); Hole (str "id"); Hole (str "x")] in
  let args := [(str "id", JString (str "7")); (str "systemId", JNull)] in
  expandPath (double := bytes) (fun _ => []) (print_pieces ps) args fs = Ok (str "/redfish/system/7{x}") /\
  forall n, object_get (resolved_arguments args fs) n =
    match last_named fst (List.filter (fun kv => match kv.2 with JNull => false | _ => true end) args) n with
    | Some kv => Some kv.2
    | None => (fun kv => kv.2) <$> last_named fst (map (fun a => (asname a, JString (asdefault a)))
                (List.filter (fun a => bool_decide (asdefault a <> [])) (fsarguments fs))) n
    end.
Proof.
  intros fs ps args. apply (expandPath_correct (double := bytes) (fun _ => []) ps args fs).
  - repeat constructor; refine (bool_decide_unpack _ _); vm_compute; exact I.
  - change (resolved_arguments args fs) with [(str "id", JString (double := bytes) (str "7")); (str "systemId", JString (str "system"))].
    repeat (apply Forall_cons; split); [..|by apply Forall_nil]; (split; [split; refine (bool_decide_unpack _ _); vm_compute; exact I|]);
      eexists; (split; [reflexivity|split; refine (bool_decide_unpack _ _); vm_compute; exact I]).
Defined.

(** A value with braces is expanded again. *)
Theorem expandPath_twice :
  expandPath (double := bytes) (fun _ => []) (str "/{a}") [(str "a", JString (str "{b}")); (str "b", JString (str "x"))]
    (mkFieldSpec [] [] [] false false [] [] false false) = Ok (str "/x").
Proof. vm_compute. reflexivity. Qed.

(** ** Batches *)

Section batches.

Context {double : Type} (s : TypedSchema) (getFresh : bytes -> json double + bytes) (what : json_error double -> bytes).

Lemma batches_enough fuel ids t sels :
  length ids <= fuel ->
  batches s getFresh what fuel ids t sels =
    tbind (ttraverse (fun id => fetchAndProject s getFresh what id t sels) ids) (fun os => Ok (omap id os)).
Proof.
  revert ids. induction fuel as [|fuel IH]; intros ids Hf; [by destruct ids; [|cbn in Hf; lia]|].
  destruct ids as [|x ids]; [done|]. cbn [batches].
  set (f := fun id => fetchAndProject s getFresh what id t sels).
  replace (ttraverse f (x :: ids)) with (ttraverse f (take kBatchSize (x :: ids) ++ drop kBatchSize (x :: ids)))
    by (by rewrite take_drop).
  rewrite ttraverse_app.
  destruct (ttraverse f (take kBatchSize (x :: ids))) as [os|e|w]; cbn [tbind]; [|done|done].
  rewrite IH by (rewrite length_drop; cbn in *; lia).
  fold f. destruct (ttraverse f (drop kBatchSize (x :: ids))) as [os'|e|w]; cbn [tbind]; [|done|done]. by rewrite omap_app.
Qed.

End batches.

(** ** What a query asks for *)

Section resources.

Context {double : Type} (s : TypedSchema) (get getFresh : bytes -> json double + bytes).
Implicit Types (sel : FieldSelection double) (source v : json double) (vars : list (bytes * json double)).

(** [k] has what [ans] makes of the elements of [l] that it makes something of, in
    their order. *)
Inductive picks {A B} (ans : A -> B -> Prop) : list A -> list B -> Prop :=
  | picks_nil : picks ans [] []
  | picks_take x y l k : ans x y -> picks ans l k -> picks ans (x :: l) (y :: k)
  | picks_skip x l k : (forall y, ~ ans x y) -> picks ans l k -> picks ans (x :: l) k.

(** The members that the selections make of an object of type [o], one for each. *)
Fixpoint members_of (ans : FieldSelection double -> FieldSpec -> json double -> json double -> Prop)
  (o : ObjectSpec) source (sels : list (FieldSelection double)) (kvs : list (bytes * json double)) : Prop :=
  match sels, kvs with
  | [], [] => True
  | sel :: sels, kv :: kvs =>
      kv.1 = output_name sel /\ (exists fs, fields o !! fname sel = Some fs /\ ans sel fs source kv.2) /\
      members_of ans o source sels kvs
  | _, _ => False
  end.

(** [v] shows an object of type [t]: all of it without selections, and else an
    object with what each selection asks for; of two with one name the last counts. *)
Definition shows_with (ans : FieldSelection double -> FieldSpec -> json double -> json double -> Prop)
  (t : bytes) (sels : list (FieldSelection double)) source v : Prop :=
  exists o, getObject s t = Some o /\
    ((sels = [] /\ v = source) \/
     (sels <> [] /\ exists kvs, members_of ans o source sels kvs /\ v = JObject (set_all [] kvs))).

(** The resource with its members in the place of links to them. *)
Definition with_members (url : bytes) : bytes := url ++ str "?$expand=*($levels=1)".

(** [v] is what the selection asks for of an object that has the field: null when the
    response key is not there, the value of a scalar, and the objects a value holds or,
    for a linked collection, those members of the collection, as it is now, that have
    everything that is asked for. *)
Fixpoint answers sel (fs : FieldSpec) source v : Prop :=
  match jfind source (responseKey fs) with
  | None => v = JNull
  | Some value =>
      if scalar fs then v = value
      else if fsisList fs then
        exists items, v = JArray items /\
        if collectionLink fs then
          exists url coll members, jfind value (str "@odata.id") = Some (JString url) /\
            getFresh (with_members url) = inl coll /\ jfind coll (str "Members") = Some (JArray members) /\
            picks (fun m => shows_with answers (returnType fs) (fselections sel) m) members items
        else
          exists l, value = JArray l /\ Forall2 (fun m => shows_with answers (returnType fs) (fselections sel) m) l items
      else shows_with answers (returnType fs) (fselections sel) value v
  end.

Definition shows := shows_with answers.

(** The text that an argument gives: a string, or a variable that holds one. *)
Definition text_of vars (value : json double) : option bytes :=
  match value with
  | JString t => Some t
  | JObject [(k, JString n)] =>
      if decide (k = str "$variable") then match object_get vars n with Some (JString t) => Some t | _ => None end else None
  | _ => None
  end.

(** The text for a placeholder: what the last argument of that name gives, or the
    default of the schema, where there is one. *)
Definition chosen vars sel (fs : FieldSpec) (n : bytes) : option bytes :=
  match last_named aname (farguments sel) n with
  | Some a => match text_of vars (value (avalue a)) with Some t => Some t | None => asdefault <$> last_named asname (List.filter (fun a => bool_decide (asdefault a <> [])) (fsarguments fs)) n end
  | None => asdefault <$> last_named asname (List.filter (fun a => bool_decide (asdefault a <> [])) (fsarguments fs)) n
  end.

Definition piece_text (text : bytes -> option bytes) (p : piece) : bytes :=
  match p with Lit l => l | Hole n => match text n with Some t => t | None => placeholder n end end.

(** [target] is the path of the field with its placeholders replaced, as long as no
    name and no text has braces. *)
Definition target_for vars sel (fs : FieldSpec) (target : bytes) : Prop :=
  forall ps, redfishPath fs = print_pieces ps -> Forall wf_piece ps ->
    (forall n t, chosen vars sel fs n = Some t -> no_brace n /\ no_brace t) ->
    target = concat (map (piece_text (chosen vars sel fs)) ps).

(** [v] is the resource that a root field stands for. *)
Definition stands_for vars sel (fs : FieldSpec) v : Prop :=
  exists target payload, target_for vars sel fs target /\
    get (if expandMembers fs && fsisList fs then with_members target else target) = inl payload /\
    if fsisList fs then
      exists members items, jfind payload (str "Members") = Some (JArray members) /\ v = JArray items /\
      if expandMembers fs then picks (shows (returnType fs) (fselections sel)) members items
      else exists links, omap (fun m => jfind m (str "@odata.id")) members = map JString links /\
             picks (fun link v => exists item, getFresh link = inl item /\ shows (returnType fs) (fselections sel) item v) links items
    else if scalar fs then v = payload
    else shows (returnType fs) (fselections sel) payload v.

(** *** Projection *)

Context (what : json_error double -> bytes) (type_error : bytes).

Definition pf := projectField s getFresh what.

(** Projecting the selection gives what it asks for, and has an error only where there
    is nothing to give. *)
Definition exact sel : Prop :=
  forall fs source, match pf sel fs source with Ok v => answers sel fs source v | Err _ => forall v, ~ answers sel fs source v | Exn _ => True end.

Lemma project_loop_answers o t source sels result :
  Forall exact sels ->
  match project_loop pf o t source sels result with
  | Ok v => exists kvs, members_of answers o source sels kvs /\ v = JObject (set_all result kvs)
  | Err _ => forall kvs, ~ members_of answers o source sels kvs
  | Exn _ => True
  end.
Proof.
  intros Hs. revert result. induction Hs as [|sel sels Hsel _ IH]; intros result; cbn [project_loop]; [by exists []|].
  destruct (fields o !! fname sel) as [fs|] eqn:Ef.
  2:{ intros [|kv kvs]; cbn; [tauto|]. intros (_ & (fs & Hf & _) & _). congruence. }
  specialize (Hsel fs source). destruct (pf sel fs source) as [v|e|w]; cbn [tbind]; [|intros [|kv kvs]; cbn; [tauto|]|done].
  - specialize (IH (object_set result (output_name sel) v)). destruct (project_loop _ _ _ _ _ _) as [j|e|w]; [|intros [|kv kvs]; cbn; [tauto|]|done].
    + destruct IH as (kvs & Hk & ->). exists ((output_name sel, v) :: kvs). cbn. split; [|done]. eauto.
    + intros (_ & _ & Hk). by apply (IH kvs).
  - intros (_ & (fs' & Hf & Ha) & _). assert (fs' = fs) as -> by congruence. by apply (Hsel kv.2).
Qed.

Lemma project_object_answers source t sels :
  Forall exact sels ->
  match project_object s pf source t sels with
  | Ok v => shows t sels source v | Err _ => forall v, ~ shows t sels source v | Exn _ => True
  end.
Proof.
  intros Hs. unfold project_object. destruct (getObject s t) as [o|] eqn:Ho; [|intros v (o & Ho' & _); congruence].
  destruct sels as [|sel sels]; [exists o; eauto|].
  pose proof (project_loop_answers o t source (sel :: sels) [] Hs) as H.
  destruct (project_loop _ _ _ _ _ _) as [v|e|w]; [|intros v (o' & Ho' & [[? _]|(_ & kvs & Hk & _)])|done].
  - exists o. split; [done|]. by right.
  - done.
  - assert (o' = o) as -> by congruence. by apply (H kvs).
Qed.

Lemma tskip_picks {A B} (f : A -> tres B) (ans : A -> B -> Prop) l k :
  (forall x, match f x with Ok y => ans x y | Err _ => forall y, ~ ans x y | Exn _ => True end) -> tskip f l = Ok k -> picks ans l k.
Proof.
  intros Hf. revert k. induction l as [|x l IH]; intros k; cbn; [intros [= <-]; constructor|]. specialize (Hf x).
  destruct (f x) as [y|e|w]; [|intros H; apply picks_skip; auto|done].
  destruct (tskip f l) as [ys|e|w]; cbn; [intros [= <-]|done|done]. apply picks_take; auto.
Qed.

Lemma ttraverse_answers {A B} (f : A -> tres B) (ans : A -> B -> Prop) l :
  (forall x, match f x with Ok y => ans x y | Err _ => forall y, ~ ans x y | Exn _ => True end) ->
  match ttraverse f l with Ok k => Forall2 ans l k | Err _ => forall k, ~ Forall2 ans l k | Exn _ => True end.
Proof.
  intros Hf. induction l as [|x l IH]; cbn; [constructor|]. specialize (Hf x).
  destruct (f x) as [y|e|w]; cbn; [|intros k (y & k' & Hy & _)%Forall2_cons_inv_l; by apply (Hf y)|done].
  destruct (ttraverse f l) as [ys|e|w]; cbn; [by constructor|intros k (y' & k' & _ & Hk & _)%Forall2_cons_inv_l; by apply (IH k')|done].
Qed.

Lemma projectField_exact sel : exact sel.
Proof.
  induction sel as [n al sp args ds sels IH] using FieldSelection_rect'. intros fs source.
  unfold pf. cbn [projectField answers fname fselections]. fold pf.
  destruct (jfind source (responseKey fs)) as [value|]; [|done]. destruct (scalar fs); [done|].
  assert (Hobj : forall m, match project_object s pf m (returnType fs) sels with
    | Ok v => shows (returnType fs) sels m v | Err _ => forall v, ~ shows (returnType fs) sels m v | Exn _ => True end)
    by (intros m; by apply project_object_answers).
  destruct (fsisList fs); [|apply Hobj]. destruct (collectionLink fs).
  - destruct (jfind value (str "@odata.id")) as [id|] eqn:Ei; [|intros v (i & _ & url & coll & ms & [=] & _)].
    destruct id as [| | | |t| |]; cbn [as_string tbind]; try exact I.
    destruct (getFresh (t ++ expand_suffix)) as [coll|e] eqn:Eg; cbn [provided tbind].
    2:{ intros v (i & _ & url & coll & ms & [= <-] & Hg & _). unfold with_members in Hg. fold expand_suffix in Hg. congruence. }
    destruct (jfind coll (str "Members")) as [[| | | | |members|]|] eqn:Em;
      try (intros v (i & _ & url & coll' & ms & [= <-] & Hg & Hm & _); unfold with_members in Hg; fold expand_suffix in Hg; congruence).
    destruct (tskip _ members) as [items|e|w] eqn:Et; cbn [tbind]; [|by apply tskip_no_Err in Et|done].
    exists items. split; [done|]. exists t, coll, members. split_and!; try done. by apply (tskip_picks _ _ _ _ Hobj).
  - destruct value as [| | | | |l|]; try (intros v (i & _ & l' & [=] & _)).
    pose proof (ttraverse_answers (fun m => project_object s pf m (returnType fs) sels) (shows (returnType fs) sels) l Hobj) as H.
    fold pf in H. change (projectField s getFresh what) with pf.
    destruct (ttraverse _ l) as [items|e|w]; cbn [tbind]; [eauto 6| |done].
    intros v (i & _ & l' & [= <-] & Hl). by apply (H i).
Qed.

Lemma projectObject_exact t sels source :
  match projectObject s getFresh what source t sels with
  | Ok v => shows t sels source v | Err _ => forall v, ~ shows t sels source v | Exn _ => True
  end.
Proof. apply project_object_answers, Forall_forall. intros x _. apply projectField_exact. Qed.

Lemma batches_picks t sels ids os :
  ttraverse (fun id => fetchAndProject s getFresh what id t sels) ids = Ok os ->
  picks (fun link v => exists item, getFresh link = inl item /\ shows t sels item v) ids (omap id os).
Proof.
  revert os. induction ids as [|i ids IH]; intros os; cbn [ttraverse]; [intros [= <-]; constructor|].
  unfold fetchAndProject at 1. destruct (getFresh i) as [item|e] eqn:Eg.
  - pose proof (projectObject_exact t sels item) as H. destruct (projectObject _ _ _ _ _ _) as [v|e|w]; cbn [tbind]; [| |done];
      destruct (ttraverse _ ids) as [os'|e'|w]; cbn [tbind]; try done; intros [= <-]; cbn.
    + apply picks_take; eauto.
    + apply picks_skip; [|by apply IH]. intros y (item' & Hg & Hy). assert (item' = item) as -> by congruence. by apply (H y).
  - cbn [tbind]. destruct (ttraverse _ ids) as [os'|e'|w]; cbn [tbind]; try done; intros [= <-]; cbn.
    apply picks_skip; [|by apply IH]. intros y (item' & Hg & _). congruence.
Qed.

(** *** Targets *)

Lemma last_named_map {A B} (f : A -> B) (key : B -> bytes) (l : list A) n :
  last_named key (map f l) n = f <$> last_named (fun a => key (f a)) l n.
Proof.
  induction l as [|x l IH] using rev_ind; [done|]. rewrite map_app. cbn [map]. rewrite !last_named_snoc, IH.
  by destruct (decide (key (f x) = n)).
Qed.

Lemma last_named_Forall2 {A B} (key : A -> bytes) (key' : B -> bytes) (R : A -> B -> Prop) l k n :
  (forall x y, R x y -> key x = key' y) -> Forall2 R l k ->
  match last_named key l n, last_named key' k n with Some x, Some y => R x y | None, None => True | _, _ => False end.
Proof.
  intros Hk. revert k. induction l as [|x l IH] using rev_ind; intros k H; [by apply Forall2_nil_inv_l in H as ->|].
  apply Forall2_app_inv_l in H as (k1 & k2 & H1 & (y & k3 & Hxy & ->%Forall2_nil_inv_l & ->)%Forall2_cons_inv_l & ->).
  rewrite !last_named_snoc, (Hk x y Hxy). destruct (decide (key' y = n)); [done|]. by apply IH.
Qed.

Lemma object_get_absent {J} (l : list (bytes * J)) k : Forall (fun kv => bytes_ltb k kv.1 = true) l -> object_get l k = None.
Proof. induction 1 as [|[k' v] l H _ IH]; [done|]. cbn in *. rewrite decide_False; [done|]. intros ->. by rewrite bytes_ltb_irrefl in H. Qed.

(** In an object every key is there once. *)
Lemma last_named_sorted {J} (p : bytes * J -> bool) l n :
  StronglySorted key_lt l ->
  last_named fst (List.filter p l) n =
    match object_get l n with Some v => if p (n, v) then Some (n, v) else None | None => None end.
Proof.
  induction l as [|[k v] l IH]; intros Hs; [done|]. apply StronglySorted_inv in Hs as [Hs Hf]. specialize (IH Hs). cbn [List.filter object_get].
  assert (Hc : forall x (l' : list (bytes * J)), last_named fst (x :: l') n = match last_named fst l' n with Some y => Some y | None => if decide (x.1 = n) then Some x else None end).
  { intros x l'. induction l' as [|y l' IHl] using rev_ind; [apply (last_named_snoc fst [])|].
    change (x :: l' ++ [y]) with ((x :: l') ++ [y]). rewrite !last_named_snoc, IHl. by destruct (decide (y.1 = n)). }
  destruct (decide (k = n)) as [->|Hn].
  - rewrite (object_get_absent l n Hf) in IH. destruct (p (n, v)); [|done]. rewrite Hc, IH. cbn. by rewrite decide_True.
  - destruct (p (k, v)); [|done]. rewrite Hc, IH. cbn. rewrite decide_False by done. destruct (object_get l n) as [v'|]; [|done]. by destruct (p (n, v')).
Qed.

Lemma object_get_in {J} (l : list (bytes * J)) k (v : J) : StronglySorted key_lt l -> (k, v) ∈ l -> object_get l k = Some v.
Proof.
  induction 1 as [|[k' v'] l Hs IH Hf]; [by intros ?%not_elem_of_nil|]. cbn. intros [[= -> ->]|Hin]%elem_of_cons; [by rewrite decide_True|].
  rewrite Forall_forall in Hf. pose proof (Hf _ Hin) as Hlt. unfold key_lt in Hlt. cbn in Hlt. rewrite decide_False; [by apply IH|].
  intros ->. by rewrite bytes_ltb_irrefl in Hlt.
Qed.

Lemma resolve_text vars (value j : json double) :
  resolveVariables type_error value vars = Done j ->
  match j with JString t => text_of vars value = Some t | JNull => text_of vars value = None | _ => True end.
Proof.
  destruct value as [|b|z|d|t|l|l]; cbn [resolveVariables text_of]; try (by intros [= <-]).
  - destruct (traverse _ l); cbn; [|done|done]. by intros [= <-].
  - destruct l as [|[k v] [|kv l]]; cbn [variable_of].
    + by intros [= <-].
    + destruct (decide (k = str "$variable")).
      * destruct v as [| | | |n| |]; try done. intros [= <-]. by destruct (object_get vars n) as [[]|].
      * destruct (traverse _ _); cbn [obind]; [|done|done]. intros [= <-]. done.
    + destruct (traverse _ _); cbn [obind]; [|done|done]. intros [= <-]. by destruct v.
Qed.

Lemma traverse_Forall2 {A B} (f : A -> outcome B) l ys : traverse f l = Done ys -> Forall2 (fun x y => f x = Done y) l ys.
Proof. apply traverse_Done. Qed.

Lemma resolved_chosen vars sel fs args :
  resolveArguments type_error sel vars = Ok args ->
  Forall (fun kv => exists t, kv.2 = JString t) (resolved_arguments args fs) ->
  forall n, object_get (resolved_arguments args fs) n = JString <$> chosen vars sel fs n.
Proof.
  intros Ha Hs n. assert (Hstr : forall j, object_get (resolved_arguments args fs) n = Some j -> exists t, j = JString t).
  { intros j Hj%object_get_elem. rewrite Forall_forall in Hs. exact (Hs _ Hj). }
  unfold resolveArguments, argumentsToJson in Ha.
  destruct (traverse _ (farguments sel)) as [kvs|w|] eqn:Et; cbn [obind] in Ha; [|done|done].
  injection Ha as <-. apply traverse_Forall2 in Et.
  apply (last_named_Forall2 aname fst _ _ _ n) in Et as Hn.
  2:{ intros a kv. destruct (resolveVariables _ _ _); cbn; [by intros [= <-]|done|done]. }
  unfold resolved_arguments in *. rewrite !set_all_get in *.
  rewrite last_named_sorted in * by (apply set_all_is_sorted; constructor). rewrite set_all_get in *.
  rewrite last_named_map in *. cbn [fst] in *. unfold chosen.
  destruct (last_named aname (farguments sel) n) as [a|], (last_named fst kvs n) as [[k v]|]; try done.
  - destruct (resolveVariables type_error (value (avalue a)) vars) as [v'|w|] eqn:Er; cbn in Hn; [|done|done]. injection Hn as <- <-.
    apply resolve_text in Er. cbn [snd] in *. destruct v' as [|b|z|d|t|l|l].
    2-7: cbn in *; destruct (Hstr _ eq_refl) as [t' [=]]; subst.
    + rewrite Er. cbn. by destruct (last_named asname _ n).
    + by rewrite Er.
  - cbn. by destruct (last_named asname _ n).
Qed.

Lemma expand_loop_strings resolved result target :
  expand_loop what resolved result = Ok target -> Forall (fun kv : bytes * json double => exists t, kv.2 = JString t) resolved.
Proof.
  revert result. induction resolved as [|[k v] l IH]; intros result; cbn [expand_loop]; [constructor|].
  destruct v; cbn [as_string tbind]; try done. intros H. constructor; [by eexists|by eapply IH].
Qed.

Lemma expandPath_target vars sel fs args target :
  resolveArguments type_error sel vars = Ok args -> expandPath what (redfishPath fs) args fs = Ok target -> target_for vars sel fs target.
Proof.
  intros Ha He ps Hps Hwf Hbr. unfold expandPath in He. pose proof (expand_loop_strings _ _ _ He) as Hs.
  pose proof (resolved_chosen vars sel fs args Ha Hs) as Hr. rewrite Hps, (expand_loop_correct what _ ps) in He; [|clear He|done].
  - injection He as <-. f_equal. apply map_ext. intros [l|n]; [done|]. cbn. rewrite Hr. by destruct (chosen vars sel fs n).
  - rewrite Forall_forall in *. intros [k v] Hk. destruct (Hs _ Hk) as [t Ht]. cbn in Ht. subst v.
    assert (Hg : object_get (resolved_arguments args fs) k = Some (JString t)).
    { apply object_get_in; [|done]. apply set_all_is_sorted, set_all_is_sorted. constructor. }
    rewrite Hr in Hg. destruct (chosen vars sel fs k) as [t'|] eqn:Ec; [|done]. injection Hg as ->.
    destruct (Hbr k t Ec). split; [done|]. by exists t.
Qed.

(** *** Root fields *)

Lemma member_links members ids :
  member_ids what members = Ok ids -> omap (fun m => jfind m (str "@odata.id")) members = map JString ids.
Proof.
  unfold member_ids. revert ids. induction (omap _ members) as [|j js IH]; intros ids; cbn [ttraverse]; [by intros [= <-]|].
  destruct j; cbn [as_string tbind]; try done. destruct (ttraverse _ js) as [ys|e|w]; cbn [tbind]; [|done|done].
  intros [= <-]. cbn. f_equal. by apply IH.
Qed.

Lemma resolveByPath_stands vars sel fs v :
  resolveByPath s get getFresh what type_error sel fs vars false = Ok v -> stands_for vars sel fs v.
Proof.
  unfold resolveByPath. destruct (decide (redfishPath fs = [])); [done|].
  destruct (resolveArguments type_error sel vars) as [args|e|w] eqn:Ea; cbn [tbind]; [|done|done].
  destruct (expandPath what (redfishPath fs) args fs) as [target|e|w] eqn:Et; cbn [tbind]; [|done|done].
  cbv zeta. change (target ++ expand_suffix) with (with_members target).
  destruct (get _) as [payload|e] eqn:Eg; cbn [provided tbind]; [|done]. intros H.
  exists target, payload. split_and!; [by eapply expandPath_target|done|]. destruct (fsisList fs).
  - destruct (jfind payload (str "Members")) as [[| | | | |members|]|] eqn:Em; try done. exists members.
    destruct (expandMembers fs).
    + destruct (tskip _ members) as [items|e|w] eqn:Ek; cbn [tbind] in H; [|done|done]. injection H as <-. exists items. split_and!; try done.
      refine (tskip_picks _ _ _ _ _ Ek). intros x. apply projectObject_exact.
    + destruct (member_ids what members) as [ids|e|w] eqn:Ei; cbn [tbind] in H; [|done|done].
      rewrite batches_enough in H by done. destruct (ttraverse _ ids) as [os|e|w] eqn:Eo; cbn [tbind] in H; [|done|done].
      injection H as <-. exists (omap id os). split_and!; try done. exists ids. split; [by apply member_links|by apply batches_picks].
  - destruct (scalar fs); [by injection H as <-|]. pose proof (projectObject_exact (returnType fs) (fselections sel) payload) as He. by rewrite H in He.
Qed.

End resources.

(** ** Collections and operations *)

Section operations.

Context {double : Type} (s : TypedSchema) (get getFresh : bytes -> json double + bytes).
Context (what : json_error double -> bytes) (type_error invalid_iterator : bytes).
Implicit Types (sel : FieldSelection double).

(** Fetching the members of a collection three at a time is the same as
    fetching them one after the other: every member that can be fetched and
    projected is in the result, in the order of the collection, and the batches
    suffice for every number of members. *)
Theorem batches_sequential ids t sels :
  batches s getFresh what (length ids) ids t sels =
    tbind (ttraverse (fun id => fetchAndProject s getFresh what id t sels) ids) (fun os => Ok (omap id os)).
Proof. by apply batches_enough. Qed.

Lemma selections_loop_data sels vars result d :
  selections_loop s get getFresh what type_error (getRootQueryField s) UnknownQueryField false sels vars result = Ok d ->
  exists l, d = JObject l /\
    forall name, match reported sels name with
                 | Some (_, sel) => exists fs v, getRootQueryField s (fname sel) = Some fs /\
                                      stands_for s get getFresh vars sel fs v /\ object_get l name = Some v
                 | None => object_get l name = object_get result name
                 end.
Proof.
  revert result. induction sels as [|sel sels IH]; intros result; cbn [selections_loop]; [intros [= <-]; by exists result|].
  destruct (getRootQueryField s (fname sel)) as [fs|] eqn:Ef; [|done].
  destruct (resolveByPath _ _ _ _ _ sel fs vars false) as [v|e|w] eqn:Er; cbn [tbind]; [|done|done].
  intros (l & -> & H)%IH. exists l. split; [done|]. intros name. specialize (H name). unfold reported in *. rewrite reverse_cons.
  apply resolveByPath_stands in Er. rewrite object_get_set in H. clear IH.
  induction (reverse sels) as [|g gs IHg]; cbn in *.
  - destruct (decide (output_name sel = name)); [rewrite bool_decide_eq_true_2 by done; eauto|by rewrite bool_decide_eq_false_2].
  - destruct (bool_decide (output_name g = name)); [done|].
    destruct (find_if _ gs) as [[]|], (find_if _ (gs ++ [sel])) as [[]|]; cbn in *; by auto.
Qed.

End operations.

(** A small schema: one query and its object type. *)
Definition sample_schema : TypedSchema :=
  addRootQuery
    (addObject emptySchema
       (mkObjectSpec (str "System") {[ str "name" := mkFieldSpec (str "name") (str "Name") (str "String") false true [] [] false false ]}))
    (mkFieldSpec (str "system") [] (str "System") false false [mkArgumentSpec (str "id") (str "ID") true []]
       (str "/redfish/v1/Systems/{id}") false false).

Definition sample_get (target : bytes) : json bytes + bytes :=
  if decide (target = str "/redfish/v1/Systems/1") then inl (JObject [(str "Name", JString (str "host"))])
  else inr (str "no such resource").

Definition sample_run (query : bytes) : option (json bytes + bytes) :=
  execute sample_schema sample_get sample_get (fun _ => str "type must be string") [] [] Some query (JObject []).

Example sample_data :
  sample_run (str "{ it: system(id: " ++ [x22] ++ str "1" ++ [x22] ++ str ") { n: name } }") =
    Some (inl (JObject [(str "data", JObject [(str "it", JObject [(str "n", JString (str "host"))])])])).
Proof. vm_compute. reflexivity. Qed.

(** Exceptions leave [execute], which its comment excludes: for a query with
    fragments that include one another, and for an argument that is not a string. *)
Theorem typed_execute_throws :
  sample_run (str "{ ...A } fragment A on T { ...A }") = Some (inr (str "Circular fragment reference: A")) /\
  sample_run (str "{ system(id: 1) { name } }") = Some (inr (str "type must be string")).
Proof. split; vm_compute; reflexivity. Qed.


