(* ===== verification/Subscription.v ===== *)
(** * Subscriptions: the sessions and triggers of [typed_executor.hpp], and
    [ql_dbus_property_watcher.hpp]

    Subscribers with the same query, variables and trigger share one session, whose
    loop fetches, broadcasts and waits for its trigger.  One [event] runs a
    coroutine from one suspension point to the next, on the one thread of the
    [io_context]; fetching, the callbacks of the subscribers and the timers are
    events.  A fetched result is a number that stands for the event sent. *)

From S2P Require Import Prelude StdMap TypedSchema.

(** ** Sessions *)

(** [TimerTrigger] and [EventTrigger]. *)
Inductive trigger := Timer | EventT.

#[export] Instance trigger_eq_dec : EqDecision trigger.
Proof. solve_decision. Defined.

(** Where [runSubscriptionLoop] is suspended. *)
Inductive loop_pc :=
  | Spawned
  | Fetching                                          (* in [executeSubscriptionSelections] *)
  | Calling (e : nat) (i : nat) (failed : list nat)   (* in the callback of subscriber number [i] *)
  | TimerWait                                         (* in [TimerTrigger::wait] *)
  | TimerDone (ok : bool)                             (* its timer has expired or was cancelled *)
  | Phase1                                            (* in [EventTrigger::wait], no event yet *)
  | Woken                                             (* its timer was cancelled *)
  | Window                                            (* the collection window *)
  | Ended.

Record session := mkSession {
  skey : bytes;
  kind : trigger;
  pending : bool;
  cancelled : bool;
  subscribers : list nat;
  nextSubscriberId : nat;
  lastResult : option nat;
  loop : loop_pc;
  sfields : list bytes;      (* the names of the selections of the operation *)
  moved : bool;              (* [subscribers] has changed since the broadcast began *)
  stale : bool;              (* an event has fired since the last fetch began *)
  fetches : nat;             (* fetches begun *)
  windows : nat;             (* collection windows that are over *)
}.

(** Where a coroutine in [executeSubscription] is. *)
Inductive sub_pc := Waiting | Disconnected | Gone.

Record state := mkState {
  activeSubscriptions : gmap bytes nat;
  sessions : gmap nat session;
  coroutines : gmap (nat * nat) sub_pc;
  replays : gmap (nat * nat) nat;           (* last results being sent to those who joined *)
  delivered : list (nat * nat * nat);       (* session, subscriber, event: callbacks started *)
}.

Definition init : state := mkState ∅ ∅ ∅ ∅ [].

(** Record updates. *)
Definition set_loop (x : session) (l : loop_pc) : session :=
  mkSession (skey x) (kind x) (pending x) (cancelled x) (subscribers x) (nextSubscriberId x) (lastResult x) l (sfields x)
    (moved x) (stale x) (fetches x) (windows x).

Definition set_subscribers (x : session) (l : list nat) : session :=
  mkSession (skey x) (kind x) (pending x) (cancelled x) l (nextSubscriberId x) (lastResult x) (loop x) (sfields x)
    true (stale x) (fetches x) (windows x).

Definition set_pending (x : session) (b : bool) : session :=
  mkSession (skey x) (kind x) b (cancelled x) (subscribers x) (nextSubscriberId x) (lastResult x) (loop x) (sfields x)
    (moved x) (stale x) (fetches x) (windows x).

Definition set_session (s : state) (i : nat) (x : session) : state :=
  mkState (activeSubscriptions s) (<[i := x]> (sessions s)) (coroutines s) (replays s) (delivered s).

(** ** Triggers *)

(** [trigger->cancel()]; a [TimerTrigger] has no flag, here it only records the
    call. *)
Definition cancel (x : session) : session :=
  mkSession (skey x) (kind x) (pending x) true (subscribers x) (nextSubscriberId x) (lastResult x)
    (match kind x, loop x with Timer, TimerWait => TimerDone false | EventT, Phase1 => Woken | _, l => l end)
    (sfields x) (moved x) (stale x) (fetches x) (windows x).

(** [EventTrigger::fire]. *)
Definition fire (x : session) : session :=
  mkSession (skey x) (kind x) true (cancelled x) (subscribers x) (nextSubscriberId x) (lastResult x)
    (match loop x with Phase1 => Woken | l => l end) (sfields x) (moved x) true (fetches x) (windows x).

(** [trigger->wait()], up to its first suspension. *)
Definition wait (x : session) : session :=
  match kind x with
  | Timer => set_loop x TimerWait
  | EventT => if pending x then set_loop (set_pending x false) Window else set_loop x Phase1
  end.

(** ** The loop *)

Definition begin_fetch (x : session) : session :=
  mkSession (skey x) (kind x) (pending x) (cancelled x) (subscribers x) (nextSubscriberId x) (lastResult x) Fetching
    (sfields x) (moved x) false (S (fetches x)) (windows x).

(** The end of [runSubscriptionLoop]. *)
Definition end_loop (s : state) (i : nat) (x : session) : state :=
  mkState (delete (skey x) (activeSubscriptions s)) (<[i := set_loop x Ended]> (sessions s)) (coroutines s) (replays s)
    (delivered s).

(** The condition of the loop. *)
Definition loop_test (s : state) (i : nat) (x : session) : state :=
  if decide (subscribers x = []) then end_loop s i x else set_session s i (begin_fetch x).

(** [std::find_if] and [erase]. *)
Fixpoint erase_id (id : nat) (l : list nat) : list nat :=
  match l with
  | [] => []
  | j :: l => if decide (j = id) then l else j :: erase_id id l
  end.

(** [removeSubscriber]. *)
Definition removeSubscriber (s : state) (i id : nat) : state :=
  match sessions s !! i with
  | Some x =>
      if decide (id ∈ subscribers x) then
        mkState (activeSubscriptions s)
          (<[i := set_subscribers x (erase_id id (subscribers x))]> (sessions s))
          (match coroutines s !! (i, id) with
           | Some Waiting => <[(i, id) := Disconnected]> (coroutines s)
           | _ => coroutines s
           end) (replays s) (delivered s)
      else s
  | None => s
  end.

(** After the broadcast: the subscribers that failed are removed. *)
Definition after_broadcast (s : state) (i : nat) (failed : list nat) : state :=
  let s := foldl (fun s id => removeSubscriber s i id) s failed in
  match sessions s !! i with
  | Some x => if decide (subscribers x = []) then end_loop s i x else set_session s i (wait x)
  | None => s
  end.

(** The next callback, or the end of the broadcast. *)
Definition broadcast (s : state) (i : nat) (x : session) (e n : nat) (failed : list nat) : state :=
  match subscribers x !! n with
  | Some id => mkState (activeSubscriptions s) (<[i := set_loop x (Calling e n failed)]> (sessions s)) (coroutines s)
                 (replays s) (delivered s ++ [(i, id, e)])
  | None => after_broadcast (set_session s i x) i failed
  end.

(** ** Subscribing *)

(** [executeSubscription] from the key on, up to the wait for the disconnection;
    [i] is the address of a session that may have to be made. *)
Definition subscribe (s : state) (i : nat) (key : bytes) (k : trigger) (fs : list bytes) : state :=
  let '(i, x, new) :=
    match activeSubscriptions s !! key ≫= (fun i => (fun x => (i, x)) <$> sessions s !! i) with
    | Some (i, x) => (i, x, false)
    | None => (i, mkSession key k false false [] 1 None Spawned fs false false 0 0, true)
    end in
  let id := nextSubscriberId x in
  let x' := mkSession (skey x) (kind x) (pending x) (cancelled x) (subscribers x ++ [id]) (S id) (lastResult x) (loop x)
              (sfields x) true (stale x) (fetches x) (windows x) in
  mkState (<[key := i]> (activeSubscriptions s)) (<[i := x']> (sessions s)) (<[(i, id) := Waiting]> (coroutines s))
    (match lastResult x with
     | Some e => if (new : bool) then replays s else <[(i, id) := e]> (replays s)
     | None => replays s
     end) (delivered s).

(** [operationReferencesAnyField] and [notifyFieldsChanged]. *)
Definition references (x : session) (names : list bytes) : bool :=
  existsb (fun f => bool_decide (f ∈ names)) (sfields x).

Definition notifyFieldsChanged (s : state) (names : list bytes) : state :=
  mkState (activeSubscriptions s)
    (map_imap (fun i x => Some (if bool_decide (activeSubscriptions s !! skey x = Some i) &&
                                  bool_decide (kind x = EventT) && references x names then fire x else x)) (sessions s))
    (coroutines s) (replays s) (delivered s).

(** ** Events *)

Inductive event :=
  | Subscribe (i : nat) (key : bytes) (k : trigger) (fs : list bytes)
  | LoopStart (i : nat)
  | Fetched (i e : nat)
  | Called (i : nat) (ok : bool)          (* a callback of the broadcast returns *)
  | TimerExpires (i : nat)
  | Resume (i : nat)                      (* after a timer of a trigger was cancelled, or expired *)
  | WindowExpires (i : nat)
  | Replayed (i id : nat) (ok : bool)     (* the callback with the last result returns *)
  | SubResume (i id : nat)                (* a disconnected subscriber goes on *)
  | FieldsChanged (names : list bytes).

Inductive result := Ok (s : state) | NotEnabled | Undefined.

(** The destructor of [SubscriberCleanupGuard]. *)
Definition cleanup (s : state) (i id : nat) : state :=
  let s := removeSubscriber s i id in
  match sessions s !! i with
  | Some x => if decide (subscribers x = []) then set_session s i (cancel x) else s
  | None => s
  end.

Definition window_over (x : session) : session :=
  mkSession (skey x) (kind x) (pending x) (cancelled x) (subscribers x) (nextSubscriberId x) (lastResult x) (loop x)
    (sfields x) (moved x) (stale x) (fetches x) (S (windows x)).

(** One step of the loop of session [i], which is suspended at [loop x]. *)
Definition loop_step (s : state) (i : nat) (x : session) (e : event) : result :=
  match e, loop x with
  | LoopStart _, Spawned => Ok (loop_test s i x)
  | Fetched _ v, Fetching =>
      let x := mkSession (skey x) (kind x) (pending x) (cancelled x) (subscribers x) (nextSubscriberId x) (Some v) (loop x)
                 (sfields x) false (stale x) (fetches x) (windows x) in
      Ok (broadcast s i x v 0 [])
  | Called _ ok, Calling v n failed =>
      if moved x then Undefined
      else match subscribers x !! n with
           | Some id => Ok (broadcast s i x v (S n) (if ok then failed else failed ++ [id]))
           | None => Undefined
           end
  | TimerExpires _, TimerWait => Ok (set_session s i (set_loop x (TimerDone true)))
  | Resume _, TimerDone ok => Ok (if ok then loop_test s i x else end_loop s i x)
  | Resume _, Woken => Ok (if cancelled x then end_loop s i x
                           else set_session s i (set_loop (set_pending x false) Window))
  | WindowExpires _, Window => Ok (if cancelled x then end_loop s i (window_over x) else loop_test s i (window_over x))
  | _, _ => NotEnabled
  end.

Definition step (s : state) (e : event) : result :=
  match e with
  | Subscribe i key k fs =>
      match sessions s !! i with
      | None => Ok (subscribe s i key k fs)
      | Some _ => NotEnabled
      end
  | LoopStart i | Fetched i _ | Called i _ | TimerExpires i | Resume i | WindowExpires i =>
      match sessions s !! i with Some x => loop_step s i x e | None => NotEnabled end
  | Replayed i id ok =>
      match replays s !! (i, id) with
      | Some v => Ok (mkState (activeSubscriptions s) (sessions s)
                        (match coroutines s !! (i, id) with
                         | Some Waiting => if (ok : bool) then coroutines s else <[(i, id) := Disconnected]> (coroutines s)
                         | _ => coroutines s
                         end) (delete (i, id) (replays s)) (delivered s ++ [(i, id, v)]))
      | None => NotEnabled
      end
  | SubResume i id =>
      match coroutines s !! (i, id) with
      | Some Disconnected =>
          Ok (cleanup (mkState (activeSubscriptions s) (sessions s) (<[(i, id) := Gone]> (coroutines s)) (replays s)
                         (delivered s)) i id)
      | _ => NotEnabled
      end
  | FieldsChanged names => Ok (notifyFieldsChanged s names)
  end.

Fixpoint run (s : state) (es : list event) : result :=
  match es with
  | [] => Ok s
  | e :: es => match step s e with Ok s' => run s' es | r => r end
  end.

(** [getSubscriptionStats]: loops, subscribers, and those that share a loop. *)
Definition getSubscriptionStats (s : state) : nat * nat * nat :=
  let loops := size (activeSubscriptions s) in
  let total := sum_list (map (fun ki => match sessions s !! ki.2 with Some x => length (subscribers x) | None => 0 end)
                             (map_to_list (activeSubscriptions s))) in
  (loops, total, if decide (loops < total) then total - loops else 0).

(** ** What holds of every run *)

(** An event that has fired since the last fetch began is pending. *)
Definition noted (x : session) : Prop := stale x = true -> pending x = true.

(** What holds where the loop is. *)
Definition trigger_ok (x : session) : Prop :=
  match loop x with
  | Spawned => noted x /\ fetches x = 0 /\ windows x = 0
  | Fetching | Calling _ _ _ => noted x /\ (kind x = EventT -> fetches x = S (windows x))
  | TimerWait => kind x = Timer
  | TimerDone ok => kind x = Timer /\ (ok = false -> cancelled x = true)
  | Phase1 => kind x = EventT /\ stale x = false /\ pending x = false /\ fetches x = S (windows x)
  | Woken | Window => kind x = EventT /\ fetches x = S (windows x)
  | Ended => kind x = EventT -> fetches x <= S (windows x)
  end.

Record ok (x : session) : Prop := {
  ok_nodup : NoDup (subscribers x);
  ok_fresh : Forall (fun id => id < nextSubscriberId x) (subscribers x);
  ok_ended : loop x = Ended -> subscribers x = [] \/ cancelled x = true;
  ok_trigger : trigger_ok x;
}.

Record wf (s : state) : Prop := {
  wf_active : forall k i, activeSubscriptions s !! k = Some i ->
                exists x, sessions s !! i = Some x /\ skey x = k /\ loop x <> Ended;
  wf_live : forall i x, sessions s !! i = Some x -> loop x <> Ended -> activeSubscriptions s !! skey x = Some i;
  wf_ok : forall i x, sessions s !! i = Some x -> ok x;
}.

Lemma init_wf : wf init.
Proof. split; cbn; intros *; by rewrite lookup_empty. Qed.

(** A session changes, and goes on or stays ended. *)
Lemma set_session_wf s i x x' :
  wf s -> sessions s !! i = Some x -> skey x' = skey x -> (loop x' = Ended <-> loop x = Ended) -> ok x' ->
  wf (set_session s i x').
Proof.
  intros [Ha Hl Ho] Hi Hk He Hx. split; cbn.
  - intros k j Hj. destruct (Ha k j Hj) as (y & Hy & <- & Hn). destruct (decide (i = j)) as [<-|Hij].
    + exists x'. rewrite lookup_insert_eq. split_and!; [done|congruence|]. rewrite He. congruence.
    + exists y. by rewrite lookup_insert_ne.
  - intros j y. destruct (decide (i = j)) as [<-|Hij].
    + rewrite lookup_insert_eq. intros [= <-] Hn. rewrite Hk. apply (Hl i x Hi). by rewrite <- He.
    + rewrite lookup_insert_ne by done. apply Hl.
  - intros j y. destruct (decide (i = j)) as [<-|Hij].
    + rewrite lookup_insert_eq. by intros [= <-].
    + rewrite lookup_insert_ne by done. apply Ho.
Qed.

Lemma end_loop_wf s i x x0 :
  wf s -> sessions s !! i = Some x0 -> skey x = skey x0 -> loop x0 <> Ended -> ok (set_loop x Ended) ->
  wf (end_loop s i x).
Proof.
  intros [Ha Hl Ho] Hi Hk Hn Hx. pose proof (Hl i x0 Hi Hn) as Hact. rewrite <- Hk in Hact. split; cbn.
  - intros k j Hj. apply lookup_delete_Some in Hj as [Hne Hj]. destruct (Ha k j Hj) as (y & Hy & <- & Hy').
    exists y. destruct (decide (i = j)) as [<-|Hij]; [congruence|]. by rewrite lookup_insert_ne.
  - intros j y. destruct (decide (i = j)) as [<-|Hij]; [rewrite lookup_insert_eq; by intros [= <-]|].
    rewrite lookup_insert_ne by done. intros Hy Hye. pose proof (Hl j y Hy Hye) as Hj.
    rewrite lookup_delete_ne; [done|]. congruence.
  - intros j y. destruct (decide (i = j)) as [<-|Hij]; [rewrite lookup_insert_eq; by intros [= <-]|].
    rewrite lookup_insert_ne by done. apply Ho.
Qed.

Lemma erase_id_sublist id l : erase_id id l `sublist_of` l.
Proof. induction l as [|j l IH]; cbn; [done|]. destruct (decide (j = id)); by constructor. Qed.

Lemma ok_remove x l :
  ok x -> l `sublist_of` subscribers x -> ok (set_subscribers x l).
Proof.
  intros [H1 H2 H3 H4] Hl. split; cbn; [by eapply sublist_NoDup| | |done].
  - rewrite Forall_forall in *. intros y Hy. by eapply H2, elem_of_sublist.
  - intros [Hn|?]%H3; [left|by right]. rewrite Hn in Hl. by apply sublist_nil_r in Hl.
Qed.

Lemma removeSubscriber_wf s i id : wf s -> wf (removeSubscriber s i id).
Proof.
  intros Hs. unfold removeSubscriber. destruct (sessions s !! i) as [x|] eqn:Hi; [|done].
  destruct (decide (id ∈ subscribers x)); [|done].
  assert (H : wf (set_session s i (set_subscribers x (erase_id id (subscribers x))))).
  { apply (set_session_wf s i x); [done|done|done|done|]. apply ok_remove; [by eapply wf_ok|apply erase_id_sublist]. }
  by destruct H.
Qed.

Lemma removeSubscriber_loop s i id j x' :
  sessions (removeSubscriber s i id) !! j = Some x' ->
  exists x, sessions s !! j = Some x /\ skey x' = skey x /\ loop x' = loop x.
Proof.
  unfold removeSubscriber. destruct (sessions s !! i) as [x|] eqn:Hi; [|eauto].
  destruct (decide (id ∈ subscribers x)); [|eauto]. cbn. destruct (decide (i = j)) as [<-|Hij].
  - rewrite lookup_insert_eq. intros [= <-]. eauto.
  - rewrite lookup_insert_ne by done. eauto.
Qed.

Lemma removeAll_wf s i ids : wf s -> wf (foldl (fun s id => removeSubscriber s i id) s ids).
Proof. revert s. induction ids as [|id ids IH]; intros s Hs; [done|]. cbn. by apply IH, removeSubscriber_wf. Qed.

Lemma removeAll_loop s i ids j x' :
  sessions (foldl (fun s id => removeSubscriber s i id) s ids) !! j = Some x' ->
  exists x, sessions s !! j = Some x /\ skey x' = skey x /\ loop x' = loop x.
Proof.
  revert s. induction ids as [|id ids IH]; intros s H; [eauto|]. cbn in H.
  apply IH in H as (x1 & H1 & Hk & Hl). apply removeSubscriber_loop in H1 as (x & H2 & Hk' & Hl').
  exists x. split_and!; [done|congruence|congruence].
Qed.

(** The loop is in a round. *)
Definition in_round (x : session) : Prop := match loop x with Fetching | Calling _ _ _ => True | _ => False end.

Lemma wait_ok x : ok x -> in_round x -> ok (wait x).
Proof.
  intros [H1 H2 _ H4] Hr. unfold trigger_ok, noted, in_round in *. unfold wait. destruct (kind x) eqn:Ek.
  - by split; cbn.
  - assert (Hx : (stale x = true -> pending x = true) /\ fetches x = S (windows x)) by (destruct (loop x); naive_solver).
    destruct Hx as [Hn Hf]. destruct (pending x) eqn:Ep; split; try done; unfold trigger_ok; cbn; split_and!; try done.
    by destruct (stale x); [specialize (Hn eq_refl)|].
Qed.

Lemma ended_ok x : ok x -> subscribers x = [] \/ cancelled x = true -> (kind x = EventT -> fetches x <= S (windows x)) ->
  ok (set_loop x Ended).
Proof. intros [H1 H2 _ _] Hc Hf. by split. Qed.

(** The test of the loop, with the counts of a loop that may fetch. *)
Lemma loop_test_wf s i x x0 :
  wf s -> sessions s !! i = Some x0 -> skey x = skey x0 -> loop x0 <> Ended ->
  NoDup (subscribers x) -> Forall (fun id => id < nextSubscriberId x) (subscribers x) ->
  (kind x = EventT -> fetches x = windows x) -> wf (loop_test s i x).
Proof.
  intros Hs Hi Hk Hn H1 H2 Hf. unfold loop_test. destruct (decide (subscribers x = [])) as [He|He].
  - apply (end_loop_wf s i x x0); [done..|]. split; cbn; [done|done|by left|]. intros E. cbn. rewrite Hf by done. lia.
  - apply (set_session_wf s i x0); [done|done|done|by split|]. split; cbn; [done|done|done|]. split; [done|].
    cbn. intros E. by rewrite Hf.
Qed.

Lemma after_broadcast_wf s i failed x :
  wf s -> sessions s !! i = Some x -> in_round x -> wf (after_broadcast s i failed).
Proof.
  intros Hs Hi Hr. unfold after_broadcast. set (s' := foldl _ s failed).
  assert (Hs' : wf s') by (by apply removeAll_wf). destruct (sessions s' !! i) as [x'|] eqn:Hi'; [|done].
  destruct (removeAll_loop _ _ _ _ _ Hi') as (x1 & Hx1 & Hk & Hl). assert (x1 = x) as -> by congruence.
  pose proof (wf_ok _ Hs' _ _ Hi') as Hok. assert (Hr' : in_round x') by (unfold in_round in *; by rewrite Hl).
  assert (Hn : loop x' <> Ended) by (unfold in_round in Hr'; by destruct (loop x')).
  destruct (decide (subscribers x' = [])) as [He|He].
  - apply (end_loop_wf s' i x' x'); [done..|]. apply ended_ok; [done|by left|]. intros E.
    destruct Hok as [_ _ _ Ht]. unfold trigger_ok, in_round in *. destruct (loop x'); naive_solver lia.
  - apply (set_session_wf s' i x'); [done|done| | |by apply wait_ok].
    + unfold wait. destruct (kind x'); [done|]. by destruct (pending x').
    + unfold wait. destruct (kind x'); [|destruct (pending x')]; cbn; by split.
Qed.

Lemma broadcast_wf s i x x0 e n failed :
  wf s -> sessions s !! i = Some x0 -> skey x = skey x0 -> loop x0 <> Ended -> ok x -> in_round x ->
  wf (broadcast s i x e n failed).
Proof.
  intros Hs Hi Hk Hn Hok Hr. unfold broadcast. destruct (subscribers x !! n) as [id|].
  - assert (H : wf (set_session s i (set_loop x (Calling e n failed)))); [|by destruct H].
    apply (set_session_wf s i x0); [done|done|done|by split|]. destruct Hok as [H1 H2 _ H4].
    split; cbn; [done|done|done|]. unfold trigger_ok, in_round in *. by destruct (loop x).
  - apply (after_broadcast_wf _ i failed x); [|apply lookup_insert_eq|done].
    apply (set_session_wf s i x0); [done|done|done| |done]. unfold in_round in Hr. by destruct (loop x).
Qed.

Lemma subscribe_wf s i key k fs : wf s -> sessions s !! i = None -> wf (subscribe s i key k fs).
Proof.
  intros Hs Hi. unfold subscribe. destruct (activeSubscriptions s !! key) as [j|] eqn:Hj; cbn.
  - destruct (wf_active s Hs _ _ Hj) as (x & Hx & <- & Hn). rewrite Hx. cbn.
    set (x' := mkSession _ _ _ _ _ _ _ _ _ _ _ _ _).
    assert (H : wf (set_session s j x')).
    { apply (set_session_wf s j x); [done|done|done|done|]. destruct (wf_ok s Hs _ _ Hx) as [H1 H2 _ H4].
      split; cbn; [| |done|done].
      - apply NoDup_app. split_and!; [done| |apply NoDup_singleton]. intros y Hy ->%list_elem_of_singleton.
        rewrite Forall_forall in H2. specialize (H2 _ Hy). lia.
      - apply Forall_app. split; [|by constructor; [lia|]]. eapply Forall_impl; [exact H2|]. cbn. lia. }
    destruct H as [Ha Hl Ho]. split; cbn; [|intros ? ? Hy Hye; rewrite insert_id by done; by apply Hl|done].
    rewrite insert_id by done. done.
  - set (x' := mkSession _ _ _ _ _ _ _ _ _ _ _ _ _). destruct Hs as [Ha Hl Ho]. split; cbn.
    + intros k' j'. destruct (decide (key = k')) as [<-|Hk].
      * rewrite lookup_insert_eq. intros [= <-]. exists x'. by rewrite lookup_insert_eq.
      * rewrite lookup_insert_ne by done. intros (y & Hy & <- & Hye)%Ha. exists y.
        destruct (decide (i = j')) as [<-|]; [congruence|]. by rewrite lookup_insert_ne.
    + intros j' y. destruct (decide (i = j')) as [<-|Hij].
      * rewrite lookup_insert_eq. intros [= <-] _. cbn. by rewrite lookup_insert_eq.
      * rewrite lookup_insert_ne by done. intros Hy Hye. pose proof (Hl _ _ Hy Hye). rewrite lookup_insert_ne; [done|]. congruence.
    + intros j' y. destruct (decide (i = j')) as [<-|Hij].
      * rewrite lookup_insert_eq. intros [= <-]. split; cbn; [apply NoDup_singleton|by constructor; [lia|]|done|done].
      * rewrite lookup_insert_ne by done. apply Ho.
Qed.

Lemma fire_ok x : ok x -> kind x = EventT -> ok (fire x).
Proof.
  intros [H1 H2 H3 H4] Hk. split; cbn; [done|done| |].
  - intros E. apply H3. by destruct (loop x).
  - unfold trigger_ok, noted in *. cbn. destruct (loop x); naive_solver.
Qed.

Lemma notify_wf s names : wf s -> wf (notifyFieldsChanged s names).
Proof.
  intros [Ha Hl Ho].
  assert (H : forall i x', sessions (notifyFieldsChanged s names) !! i = Some x' <->
    exists x, sessions s !! i = Some x /\
      x' = if bool_decide (activeSubscriptions s !! skey x = Some i) && bool_decide (kind x = EventT) && references x names
           then fire x else x).
  { intros i x'. cbn. rewrite map_lookup_imap. destruct (sessions s !! i) as [x|]; cbn; [|by split; [|intros (? & ? & _)]].
    split; [intros [= <-]; eauto|]. by intros (y & [= <-] & ->). }
  assert (Hloop : forall x, loop (fire x) = Ended <-> loop x = Ended) by (intros x; cbn; by destruct (loop x)).
  split; cbn.
  - intros k i (x & Hx & <- & Hn)%Ha.
    destruct (bool_decide (activeSubscriptions s !! skey x = Some i) && bool_decide (kind x = EventT) && references x names) eqn:E.
    + exists (fire x). split_and!; [apply H; exists x; by rewrite E|done|by rewrite Hloop].
    + exists x. split_and!; [apply H; exists x; by rewrite E|done|done].
  - intros i x' (x & Hx & ->)%H Hn. destruct (_ && _ && _); [|by apply Hl]. apply (Hl i x Hx). by rewrite <- Hloop.
  - intros i x' (x & Hx & ->)%H. destruct (_ && bool_decide (kind x = EventT) && _) eqn:E; [|by eapply Ho].
    apply andb_true_iff in E as [[_ Hk]%andb_true_iff _]. apply bool_decide_eq_true in Hk. apply fire_ok; [by eapply Ho|done].
Qed.

Lemma cancel_ok x : ok x -> subscribers x = [] -> ok (cancel x).
Proof.
  intros [H1 H2 H3 H4] He. split; cbn; [done|done|by left|].
  unfold trigger_ok, noted in *. cbn. destruct (kind x) eqn:Ek, (loop x) eqn:El; naive_solver.
Qed.

Lemma cleanup_wf s i id : wf s -> wf (cleanup s i id).
Proof.
  intros Hs. unfold cleanup. pose proof (removeSubscriber_wf s i id Hs) as Hs'.
  destruct (sessions (removeSubscriber s i id) !! i) as [x|] eqn:Hi; [|done].
  destruct (decide (subscribers x = [])) as [He|]; [|done].
  apply (set_session_wf _ i x); [done|done|done| |apply cancel_ok; [by eapply wf_ok|done]].
  cbn. by destruct (kind x), (loop x).
Qed.

Lemma loop_step_wf s i x e s' : wf s -> sessions s !! i = Some x -> loop_step s i x e = Ok s' -> wf s'.
Proof.
  intros Hs Hi H. pose proof (wf_ok s Hs _ _ Hi) as Hok. pose proof Hok as [H1 H2 _ H4]. unfold trigger_ok in H4.
  unfold loop_step in H.
  destruct e as [j key k fs|j|j v0|j okb|j|j|j|j id okb|j id|names]; destruct (loop x) as [| |v n failed| |b| | | |] eqn:El;
    try done; simplify_eq.
  - apply (loop_test_wf s i x x); [done|done|done|congruence|done|done|]. intros _. naive_solver congruence.
  - apply (broadcast_wf s i _ x); [done|done|done|congruence| |done]. by split.
  - destruct (moved x); [done|]. destruct (subscribers x !! n) as [id|]; [|done]. simplify_eq.
    apply (broadcast_wf s i _ x); [done|done|done|congruence|done|]. unfold in_round. by rewrite El.
  - apply (set_session_wf s i x); [done|done|done|by rewrite El|]. split; cbn; done.
  - destruct b; simplify_eq.
    + apply (loop_test_wf s i x x); [done|done|done|congruence|done|done|]. destruct H4. congruence.
    + apply (end_loop_wf s i x x); [done|done|done|congruence|]. destruct H4 as [? Hc].
      apply ended_ok; [done|right; by apply Hc|congruence].
  - destruct H4 as [Hk Hf]. destruct (cancelled x) eqn:Ec; simplify_eq.
    + apply (end_loop_wf s i x x); [done|done|done|congruence|]. apply ended_ok; [done|by right|lia].
    + apply (set_session_wf s i x); [done|done|done|by rewrite El|]. split; cbn; [done|done|done|]. by split.
  - destruct H4 as [Hk Hf]. destruct (cancelled x) eqn:Ec; simplify_eq.
    + apply (end_loop_wf s i (window_over x) x); [done|done|done|congruence|]. split; cbn; [done|done|by right|]. cbn. intros _. cbn. lia.
    + apply (loop_test_wf s i (window_over x) x); [done|done|done|congruence|done|done|]. cbn. by intros _.
Qed.

Lemma session_step_wf s e s' : wf s -> step s e = Ok s' -> wf s'.
Proof.
  intros Hs H. destruct e; cbn [step] in H.
  - destruct (sessions s !! i) eqn:Hi; simplify_eq. by apply subscribe_wf.
  - destruct (sessions s !! i) as [x|] eqn:Hi; [|done]. by eapply loop_step_wf.
  - destruct (sessions s !! i) as [x|] eqn:Hi; [|done]. by eapply loop_step_wf.
  - destruct (sessions s !! i) as [x|] eqn:Hi; [|done]. by eapply loop_step_wf.
  - destruct (sessions s !! i) as [x|] eqn:Hi; [|done]. by eapply loop_step_wf.
  - destruct (sessions s !! i) as [x|] eqn:Hi; [|done]. by eapply loop_step_wf.
  - destruct (sessions s !! i) as [x|] eqn:Hi; [|done]. by eapply loop_step_wf.
  - destruct (replays s !! (i, id)); simplify_eq. by destruct Hs.
  - destruct (coroutines s !! (i, id)) as [[]|]; simplify_eq. apply cleanup_wf. by destruct Hs.
  - simplify_eq. by apply notify_wf.
Qed.

Lemma run_wf s es s' : wf s -> run s es = Ok s' -> wf s'.
Proof.
  revert s. induction es as [|e es IH]; cbn; intros s Hs H; [by simplify_eq|].
  destruct (step s e) eqn:E; try done. eauto using session_step_wf.
Qed.

(** ** Broadcasts *)

(** The callbacks of the subscribers up to the current one have been called. *)
Definition told1 (d : list (nat * nat * nat)) (i : nat) (x : session) : Prop :=
  match loop x with
  | Calling e n _ => moved x = false -> n < length (subscribers x) /\
                       Forall (fun id => (i, id, e) ∈ d) (take (S n) (subscribers x))
  | _ => True
  end.

Definition told (s : state) : Prop := map_Forall (told1 (delivered s)) (sessions s).

Lemma told1_mono d d' i x : told1 d i x -> told1 (d ++ d') i x.
Proof.
  unfold told1. destruct (loop x); try done. intros H Hm. destruct (H Hm) as [Hn Hd]. split; [done|].
  eapply Forall_impl; [exact Hd|]. intros id Hid. apply elem_of_app. by left.
Qed.

Lemma told_mono (m : gmap nat session) d d' : map_Forall (told1 d) m -> map_Forall (told1 (d ++ d')) m.
Proof. intros H i x Hi. by apply told1_mono, H. Qed.

Lemma told_insert (m : gmap nat session) d i x : map_Forall (told1 d) m -> told1 d i x -> map_Forall (told1 d) (<[i := x]> m).
Proof. intros H Hx. by apply map_Forall_insert_2. Qed.

(** Not in a broadcast, or its subscribers have changed. *)
Definition quiet (x : session) : Prop := match loop x with Calling _ _ _ => moved x = true | _ => True end.

Lemma told1_quiet d i x : quiet x -> told1 d i x.
Proof. unfold quiet, told1. destruct (loop x); try done. congruence. Qed.

Lemma told_remove s i id : told s -> told (removeSubscriber s i id).
Proof.
  intros H. unfold removeSubscriber. destruct (sessions s !! i) as [x|] eqn:Hi; [|done].
  destruct (decide (id ∈ subscribers x)); [|done]. unfold told. cbn. apply told_insert; [done|].
  apply told1_quiet. unfold quiet. cbn. by destruct (loop x).
Qed.

Lemma told_end s i x : told s -> told (end_loop s i x).
Proof. intros H. unfold told. cbn. by apply told_insert. Qed.

Lemma told_test s i x : told s -> told (loop_test s i x).
Proof. intros H. unfold loop_test. destruct (decide _); [by apply told_end|]. unfold told. cbn. by apply told_insert. Qed.

Lemma told_after s i failed : told s -> told (after_broadcast s i failed).
Proof.
  intros H. unfold after_broadcast.
  assert (H' : told (foldl (fun s id => removeSubscriber s i id) s failed)).
  { revert s H. induction failed as [|id l IH]; intros s H; [done|]. cbn. by apply IH, told_remove. }
  destruct (sessions _ !! i) as [x|]; [|done]. destruct (decide _); [by apply told_end|].
  unfold told. cbn. apply told_insert; [done|]. unfold wait, told1. by destruct (kind x); [|destruct (pending x)].
Qed.

Lemma told_broadcast s i x e n failed :
  told s -> moved x = false -> Forall (fun id => (i, id, e) ∈ delivered s) (take n (subscribers x)) -> loop x <> Ended ->
  (subscribers x !! n = None -> told1 (delivered s) i x) ->
  told (broadcast s i x e n failed).
Proof.
  intros H Hm Hd _ Hx. unfold broadcast. destruct (subscribers x !! n) as [id|] eqn:En.
  - unfold told. cbn. apply told_insert; [by apply told_mono|]. unfold told1. cbn. intros _.
    pose proof (lookup_lt_Some _ _ _ En). split; [done|]. rewrite (take_S_r _ _ _ En). apply Forall_app. split.
    + eapply Forall_impl; [exact Hd|]. intros y Hy. apply elem_of_app. by left.
    + constructor; [|constructor]. apply elem_of_app. right. left.
  - apply told_after. unfold told. cbn. apply told_insert; [done|]. by apply Hx.
Qed.

Lemma told_loop_step s i x e s' : told s -> sessions s !! i = Some x -> loop_step s i x e = Ok s' -> told s'.
Proof.
  intros Ht Hi H. unfold loop_step in H.
  destruct e as [j key k fs|j|j v0|j okb|j|j|j|j id okb|j id|names]; destruct (loop x) as [| |v n failed| |b| | | |] eqn:El;
    try done; simplify_eq.
  - by apply told_test.
  - apply told_broadcast; cbn; [done|done|by rewrite take_0|congruence|]. intros _. done.
  - destruct (moved x) eqn:Em; [done|]. destruct (subscribers x !! n) as [id|] eqn:En; [|done]. simplify_eq.
    pose proof (Ht i x Hi) as Hx. pose proof Hx as Hx'. unfold told1 in Hx'. rewrite El in Hx'. destruct (Hx' Em) as [_ Hd].
    apply told_broadcast; [done|done|done|congruence|done].
  - unfold told. cbn. by apply told_insert.
  - destruct b; [by apply told_test|by apply told_end].
  - destruct (cancelled x); [by apply told_end|]. unfold told. cbn. by apply told_insert.
  - destruct (cancelled x); [by apply told_end|by apply told_test].
Qed.

Lemma told_step s e s' : told s -> step s e = Ok s' -> told s'.
Proof.
  intros Ht H. destruct e; cbn [step] in H.
  2-7: destruct (sessions s !! i) as [x|] eqn:Hi; [|done]; by eapply told_loop_step.
  - destruct (sessions s !! i) eqn:Hi; simplify_eq. unfold subscribe.
    destruct (activeSubscriptions s !! key ≫= _) as [[j x]|] eqn:E; cbn.
    + unfold told. cbn. apply told_insert; [done|]. apply told1_quiet. unfold quiet. cbn. by destruct (loop x).
    + unfold told. cbn. by apply told_insert.
  - destruct (replays s !! (i, id)); simplify_eq. unfold told. cbn. by apply told_mono.
  - destruct (coroutines s !! (i, id)) as [[]|]; simplify_eq. unfold cleanup.
    match goal with |- context [removeSubscriber ?s0 i id] => pose proof (told_remove s0 i id Ht) as Hr;
      destruct (sessions (removeSubscriber s0 i id) !! i) as [x|] eqn:Hi; [|done] end.
    destruct (decide (subscribers x = [])); [|done]. unfold told. cbn. apply told_insert; [done|].
    pose proof (Hr i x Hi) as Hx. unfold told1, cancel in *. cbn. by destruct (kind x), (loop x).
  - simplify_eq. intros i x'. cbn. rewrite map_lookup_imap. destruct (sessions s !! i) as [x|] eqn:Hi; cbn; [|done].
    intros [= <-]. pose proof (Ht i x Hi) as Hx. destruct (_ && _ && _); [|done].
    unfold told1, fire in *. cbn. by destruct (loop x).
Qed.

Lemma run_told s es s' : told s -> run s es = Ok s' -> told s'.
Proof.
  revert s. induction es as [|e es IH]; cbn; intros s Hs H; [by simplify_eq|].
  destruct (step s e) eqn:E; try done. eauto using told_step.
Qed.

(** ** The theorems *)

(** Subscribers share: for every key there is at most one loop that has not
    ended, and it is the one [activeSubscriptions] names; the ids of a session's
    subscribers are distinct; and a loop ends only when it has no subscribers, or
    its trigger was cancelled. *)
Theorem subscription_sessions es s :
  run init es = Ok s ->
  (forall k i, activeSubscriptions s !! k = Some i <->
     exists x, sessions s !! i = Some x /\ skey x = k /\ loop x <> Ended) /\
  (forall i x, sessions s !! i = Some x ->
     NoDup (subscribers x) /\ (loop x = Ended -> subscribers x = [] \/ cancelled x = true)).
Proof.
  intros H. apply run_wf in H as [Ha Hl Ho]; [|apply init_wf]. split.
  - intros k i. split; [apply Ha|]. intros (x & Hx & <- & Hn). by apply Hl.
  - intros i x Hx. by destruct (Ho i x Hx).
Qed.

(** When the callback of the last subscriber has been called, without anyone
    having joined or left meanwhile, every subscriber has been sent the event. *)
Theorem broadcast_complete es s i x e n failed id :
  run init es = Ok s -> sessions s !! i = Some x -> loop x = Calling e n failed -> moved x = false ->
  S n = length (subscribers x) -> id ∈ subscribers x -> (i, id, e) ∈ delivered s.
Proof.
  intros H Hi Hl Hm Hn Hid. assert (Ht : told s).
  { eapply run_told; [|exact H]. intros j y. cbn. by rewrite lookup_empty. }
  pose proof (Ht i x Hi) as Hx. unfold told1 in Hx. rewrite Hl in Hx. destruct (Hx Hm) as [_ Hd].
  rewrite Hn, take_ge, Forall_forall in Hd by done. by apply Hd.
Qed.

(** An event trigger loses no event and throttles: an event that fires after a
    fetch has begun never leaves the loop asleep, it is pending or a collection
    window is about to open or is open; and there is at most one fetch more than
    there are windows that are over. *)
Theorem event_trigger_correct es s i x :
  run init es = Ok s -> sessions s !! i = Some x -> kind x = EventT ->
  fetches x <= S (windows x) /\
  (stale x = true -> loop x <> Ended -> pending x = true \/ loop x = Woken \/ loop x = Window).
Proof.
  intros H Hi Hk. apply run_wf in H; [|apply init_wf]. destruct (wf_ok _ H _ _ Hi) as [_ _ _ Ht].
  unfold trigger_ok, noted in Ht. destruct (loop x); naive_solver (lia || congruence).
Qed.

(** ** A subscriber that is left alone *)

(** Subscriber [id] of session [i] waits, its loop has ended and nothing is on its
    way to it. *)
Definition stranded (s : state) (i id : nat) : Prop :=
  (exists x, sessions s !! i = Some x /\ loop x = Ended /\ id ∈ subscribers x) /\
  coroutines s !! (i, id) = Some Waiting /\ replays s !! (i, id) = None.

Lemma remove_other s i id j :
  i <> j -> sessions (removeSubscriber s j id) !! i = sessions s !! i /\
  forall id', coroutines (removeSubscriber s j id) !! (i, id') = coroutines s !! (i, id').
Proof.
  intros Hij. unfold removeSubscriber. destruct (sessions s !! j) as [y|]; [|done].
  destruct (decide _); [|done]. cbn. split; [by rewrite lookup_insert_ne|]. intros id'.
  destruct (coroutines s !! (j, id)) as [[]|]; try done. rewrite lookup_insert_ne; [done|congruence].
Qed.

(** What a step on session [j] leaves alone of another session [i]. *)
Record apart (s s' : state) (i : nat) : Prop := {
  apart_session : sessions s' !! i = sessions s !! i;
  apart_coroutine : forall id, coroutines s' !! (i, id) = coroutines s !! (i, id);
  apart_replay : forall id, replays s' !! (i, id) = replays s !! (i, id);
}.

Lemma apart_trans s1 s2 s3 i : apart s1 s2 i -> apart s2 s3 i -> apart s1 s3 i.
Proof. intros [A1 A2 A3] [B1 B2 B3]. split; intros; congruence. Qed.

Lemma apart_set s j y i : i <> j -> apart s (set_session s j y) i.
Proof. intros. split; cbn; [by rewrite lookup_insert_ne|done|done]. Qed.

Lemma apart_remove s i id j : i <> j -> apart s (removeSubscriber s j id) i.
Proof.
  intros Hij. destruct (remove_other s i id j Hij) as [H1 H2]. split; [done|done|]. intros id'.
  unfold removeSubscriber. destruct (sessions s !! j); [|done]. by destruct (decide _).
Qed.

Lemma apart_end s j y i : i <> j -> apart s (end_loop s j y) i.
Proof. intros. split; cbn; [by rewrite lookup_insert_ne|done|done]. Qed.

Lemma apart_test s j y i : i <> j -> apart s (loop_test s j y) i.
Proof. intros. unfold loop_test. destruct (decide _); [by apply apart_end|by apply apart_set]. Qed.

Lemma apart_after s j failed i : i <> j -> apart s (after_broadcast s j failed) i.
Proof.
  intros Hij. unfold after_broadcast.
  assert (H : apart s (foldl (fun s id => removeSubscriber s j id) s failed) i).
  { revert s. induction failed as [|id l IH]; intros s; [done|]. cbn. eapply apart_trans; [by apply apart_remove|apply IH]. }
  destruct (sessions _ !! j); [|done]. destruct (decide _); (eapply apart_trans; [exact H|]); [by apply apart_end|by apply apart_set].
Qed.

Lemma apart_loop_step s j y e s' i : i <> j -> loop_step s j y e = Ok s' -> apart s s' i.
Proof.
  intros Hij H. assert (Hb : forall y v n failed, apart s (broadcast s j y v n failed) i).
  { intros. unfold broadcast. destruct (subscribers _ !! _).
    - split; cbn; [by rewrite lookup_insert_ne|done|done].
    - eapply apart_trans; [by apply apart_set|by apply apart_after]. }
  unfold loop_step in H.
  destruct e; destruct (loop y); try done; simplify_eq; repeat case_match; simplify_eq;
    auto using apart_set, apart_end, apart_test.
Qed.

Lemma erase_other id id' l : id <> id' -> id ∈ l -> id ∈ erase_id id' l.
Proof. intros Hn. induction l as [|j l IH]; [done|]. cbn. intros [->|Hin]%elem_of_cons; destruct (decide _); set_solver. Qed.

Lemma stranded_step s e s' i id : wf s -> stranded s i id -> step s e = Ok s' -> stranded s' i id.
Proof.
  intros Hs [(x & Hx & Hl & Hin) [Hc Hr]] H.
  assert (Hact : forall k, activeSubscriptions s !! k <> Some i).
  { intros k (y & Hy & _ & Hn)%(wf_active s Hs). congruence. }
  assert (Happ : apart s s' i -> stranded s' i id).
  { intros [A1 A2 A3]. split; [exists x; by rewrite A1|]. by rewrite A2, A3. }
  destruct e; cbn [step] in H.
  2-7: destruct (sessions s !! i0) as [y|] eqn:Hy; [|done]; destruct (decide (i = i0)) as [<-|Hij];
       [simplify_eq; unfold loop_step in H; by rewrite Hl in H|by eapply Happ, apart_loop_step].
  - destruct (sessions s !! i0) eqn:Hi0; simplify_eq. apply Happ. unfold subscribe.
    destruct (activeSubscriptions s !! key ≫= _) as [[j y]|] eqn:E.
    + apply bind_Some in E as (j' & Hj & (y' & Hy' & [= -> ->])%fmap_Some).
      assert (i <> j') by (intros <-; by apply (Hact key)).
      split; cbn; [by rewrite lookup_insert_ne|intros; rewrite lookup_insert_ne; [done|congruence]|]. intros id'.
      destruct (lastResult y'); [|done]. rewrite lookup_insert_ne; [done|congruence].
    + assert (i <> i0) by congruence.
      split; cbn; [by rewrite lookup_insert_ne|intros; rewrite lookup_insert_ne; [done|congruence]|done].
  - destruct (replays s !! (i0, id0)) eqn:Er; simplify_eq. assert ((i0, id0) <> (i, id)) by congruence.
    split; cbn; [by exists x|]. rewrite lookup_delete_ne by done. split; [|done].
    destruct (coroutines s !! (i0, id0)) as [[]|]; [|done..]. destruct ok0; [done|]. by rewrite lookup_insert_ne.
  - destruct (coroutines s !! (i0, id0)) as [[]|] eqn:Ec; simplify_eq. assert (Hne : (i0, id0) <> (i, id)) by congruence.
    unfold cleanup. set (s1 := mkState _ _ _ _ _). cbv zeta. destruct (decide (i = i0)) as [<-|Hij].
    + assert (Hid : id <> id0) by congruence.
      assert (Hs1 : stranded s1 i id) by (split; cbn; [by exists x|]; by rewrite lookup_insert_ne).
      assert (Hrem : stranded (removeSubscriber s1 i id0) i id).
      { destruct Hs1 as [_ [Hc1 Hr1]]. unfold removeSubscriber. cbn [sessions s1]. rewrite Hx.
        destruct (decide (id0 ∈ subscribers x)); [|by split; [exists x|]]. split; cbn.
        - eexists. rewrite lookup_insert_eq. split_and!; [done|done|]. by apply erase_other.
        - rewrite lookup_insert_eq. rewrite lookup_insert_ne by done. done. }
      destruct (sessions (removeSubscriber s1 i id0) !! i) as [y|] eqn:Hy; [|done].
      destruct (decide (subscribers y = [])) as [He|]; [|done].
      destruct Hrem as [(y' & Hy' & _ & Hin') _]. simplify_eq. rewrite He in Hin'. by apply not_elem_of_nil in Hin'.
    + apply Happ. eapply (apart_trans _ s1).
      { split; cbn; [done|intros; rewrite lookup_insert_ne; [done|congruence]|done]. }
      apply (apart_trans _ (removeSubscriber s1 i0 id0)); [by apply apart_remove|]. unfold cleanup. fold s1. cbv zeta.
      destruct (sessions (removeSubscriber s1 i0 id0) !! i0); [|by split]. destruct (decide _); [by apply apart_set|by split].
  - simplify_eq. apply Happ. split; cbn; [|done|done]. rewrite map_lookup_imap, Hx. cbn.
    rewrite bool_decide_eq_false_2 by apply Hact. done.
Qed.

Lemma stranded_run s es s' i id : wf s -> stranded s i id -> run s es = Ok s' -> stranded s' i id.
Proof.
  revert s. induction es as [|e es IH]; cbn; intros s Hs H Hr; [by simplify_eq|].
  destruct (step s e) eqn:E; try done. eapply IH; [by eapply session_step_wf|by eapply stranded_step|done].
Qed.

(** One subscriber leaves while the second stays; the second leaves in a
    collection window; a third joins before the window is over. *)
Definition stranding : list event :=
  [Subscribe 0 [] EventT [str "f"]; LoopStart 0; Fetched 0 7; Called 0 true;
   Subscribe 1 [] EventT [str "f"];
   FieldsChanged [str "f"]; Resume 0; WindowExpires 0; Fetched 0 8; Called 0 false; Called 0 true;
   FieldsChanged [str "f"]; Resume 0; Replayed 0 2 false; SubResume 0 2;
   Subscribe 1 [] EventT [str "f"]; Replayed 0 3 true; WindowExpires 0].

(** A subscriber can be left alone for ever: one that joins a session after its
    last subscriber has left and before its loop has noticed is sent the last
    result and then, whatever happens, no event any more, nor is it told that the
    subscription is over. *)
Theorem subscriber_stranded :
  exists s, run init stranding = Ok s /\
    forall es s', run s es = Ok s' -> stranded s' 0 3.
Proof.
  assert (Hv : match run init stranding with
               | Ok s => ((fun x => (loop x, subscribers x)) <$> sessions s !! 0, coroutines s !! (0, 3), replays s !! (0, 3))
                         = (Some (Ended, [3]), Some Waiting, None)
               | _ => False
               end) by (vm_compute; reflexivity).
  destruct (run init stranding) as [s| |] eqn:E; [|destruct Hv|destruct Hv]. injection Hv as Hx Hc Hr.
  exists s. split; [reflexivity|].
  assert (Hs : wf s) by (exact (run_wf _ _ _ init_wf E)). clear E.
  assert (Hst : stranded s 0 3).
  { apply fmap_Some in Hx as (x & Hx & [= Hl Hsub]). split; [|done]. exists x. split_and!; [done|done|]. rewrite <- Hsub. left. }
  intros es s' Hrun. exact (stranded_run _ _ _ _ _ Hs Hst Hrun).
Qed.

(** A subscriber that joins a session, or leaves it, while the loop awaits the
    callback of another one makes the loop go on with an invalid iterator; and a
    burst of two events, the second within the collection window of the first,
    causes two fetches, where the comment at [EventTrigger] promises exactly one. *)
Theorem broadcast_undefined :
  run init [Subscribe 0 [] Timer []; LoopStart 0; Fetched 0 7; Subscribe 1 [] Timer []; Called 0 true] = Undefined /\
  exists s, run init [Subscribe 0 [] EventT [str "f"]; LoopStart 0; Fetched 0 7; Called 0 true;
                      FieldsChanged [str "f"]; Resume 0; FieldsChanged [str "f"]; WindowExpires 0; Fetched 0 8; Called 0 true;
                      WindowExpires 0] = Ok s /\
    (fetches <$> sessions s !! 0) = Some 3.
Proof.
  split; [vm_compute; done|].
  match goal with |- exists s, run init ?es = _ /\ _ =>
    assert (H : match run init es with Ok s => (fetches <$> sessions s !! 0) = Some 3 | _ => False end)
      by (vm_compute; reflexivity);
    destruct (run init es) as [s| |]; [|destruct H|destruct H]
  end.
  exists s. split; [reflexivity|exact H].
Qed.

Definition sample_events : list event :=
  [Subscribe 0 [] EventT [str "f"]; LoopStart 0; Subscribe 1 [] EventT [str "f"]; Fetched 0 7; Called 0 true].

Definition sample_session : session :=
  mkSession [] EventT false false [1; 2] 3 (Some 7) (Calling 7 1 []) [str "f"] false false 1 0.

Definition sample_state : state :=
  mkState {[ [] := 0 ]} {[ 0 := sample_session ]} (<[(0, 2) := Waiting]> {[ (0, 1) := Waiting ]}) ∅ [(0, 1, 7); (0, 2, 7)].

Lemma sample_reached : run init sample_events = Ok sample_state.
Proof. vm_compute. reflexivity. Qed.

Lemma subscription_sessions_witness :
  (forall k i, activeSubscriptions sample_state !! k = Some i <->
     exists x, sessions sample_state !! i = Some x /\ skey x = k /\ loop x <> Ended) /\
  (forall i x, sessions sample_state !! i = Some x ->
     NoDup (subscribers x) /\ (loop x = Ended -> subscribers x = [] \/ cancelled x = true)).
Proof. apply (subscription_sessions sample_events sample_state). exact sample_reached. Defined.

Lemma broadcast_complete_witness : (0, 2, 7) ∈ delivered sample_state.
Proof.
  apply (broadcast_complete sample_events sample_state 0 sample_session 7 1 [] 2);
    [exact sample_reached|reflexivity|reflexivity|reflexivity|reflexivity|right; left].
Defined.

Lemma event_trigger_correct_witness :
  fetches sample_session <= S (windows sample_session) /\
  (stale sample_session = true -> loop sample_session <> Ended ->
     pending sample_session = true \/ loop sample_session = Woken \/ loop sample_session = Window).
Proof. apply (event_trigger_correct sample_events sample_state 0 sample_session); [exact sample_reached|reflexivity|reflexivity]. Defined.

(** ** D-Bus signals *)

Definition nul : bytes := [x00].

(** [buildDbusWatcherIndex]: the fields registered under each key. *)
Definition watch_key (object iface property : bytes) : bytes := object ++ nul ++ iface ++ nul ++ property.

Definition index_add (idx : gmap bytes (list bytes)) (key field : bytes) : gmap bytes (list bytes) :=
  <[key := default [] (idx !! key) ++ [field]]> idx.

Definition buildDbusWatcherIndex (watchers : list DbusWatcher) : gmap bytes (list bytes) :=
  foldl (fun idx w => foldl (fun idx f => index_add idx (watch_key (dbusObject w) (dbusInterface w) (dbusProperty w)) f)
                            idx (graphqlFields w)) ∅ watchers.

Definition collect (index : gmap bytes (list bytes)) (key : bytes) : list bytes := default [] (index !! key).

Definition resolveFields (index : gmap bytes (list bytes)) (object iface property : bytes) : list bytes :=
  collect index (watch_key object iface property) ++ collect index (watch_key object iface []) ++
  collect index (watch_key [] iface property) ++ collect index (watch_key [] iface []).

(** The fields affected by a signal: those of its changed and of its invalidated
    properties, once each; [None] when nobody is to be notified. *)
Definition affectedFields (index : gmap bytes (list bytes)) (object iface : bytes) (changed invalidated : list bytes)
  : option (gset bytes) :=
  let fs : gset bytes := list_to_set (concat (map (resolveFields index object iface) (changed ++ invalidated))) in
  if decide (fs = ∅) then None else Some fs.

Lemma index_add_elem idx key f key' f' :
  f' ∈ collect (index_add idx key f) key' <-> f' ∈ collect idx key' \/ (key = key' /\ f = f').
Proof.
  unfold collect, index_add. destruct (decide (key = key')) as [<-|Hk].
  - rewrite lookup_insert_eq. cbn. rewrite elem_of_app, list_elem_of_singleton. naive_solver.
  - rewrite lookup_insert_ne by done. naive_solver.
Qed.

Lemma index_add_all idx key fs key' f' :
  f' ∈ collect (foldl (fun idx f => index_add idx key f) idx fs) key' <-> f' ∈ collect idx key' \/ (key = key' /\ f' ∈ fs).
Proof.
  revert idx. induction fs as [|f fs IH]; intros idx; cbn.
  - rewrite elem_of_nil. naive_solver.
  - rewrite IH, index_add_elem, elem_of_cons. naive_solver.
Qed.

Lemma index_elem ws key f :
  f ∈ collect (buildDbusWatcherIndex ws) key <->
  exists w, w ∈ ws /\ watch_key (dbusObject w) (dbusInterface w) (dbusProperty w) = key /\ f ∈ graphqlFields w.
Proof.
  unfold buildDbusWatcherIndex.
  assert (H : forall idx, f ∈ collect (foldl (fun idx w => foldl (fun idx f => index_add idx
      (watch_key (dbusObject w) (dbusInterface w) (dbusProperty w)) f) idx (graphqlFields w)) idx ws) key <->
    f ∈ collect idx key \/
    exists w, w ∈ ws /\ watch_key (dbusObject w) (dbusInterface w) (dbusProperty w) = key /\ f ∈ graphqlFields w).
  { induction ws as [|w ws IH]; intros idx; cbn.
    - setoid_rewrite elem_of_nil. naive_solver.
    - rewrite IH, index_add_all. setoid_rewrite elem_of_cons. naive_solver. }
  rewrite H. unfold collect. rewrite lookup_empty. cbn. rewrite elem_of_nil. naive_solver.
Qed.

(** Texts without NUL are told apart by the key. *)
Lemma nul_split (a a' b b' : bytes) :
  x00 ∉ a -> x00 ∉ a' -> a ++ nul ++ b = a' ++ nul ++ b' -> a = a' /\ b = b'.
Proof.
  revert a'. induction a as [|c a IH]; intros [|c' a'] Ha Ha' E; cbn in E; simplify_eq; [done|..].
  - destruct Ha'. left.
  - destruct Ha. left.
  - destruct (IH a') as [-> ->]; [set_solver|set_solver|done|done].
Qed.

Lemma elem_of_concat_map {A B} (g : A -> list B) (l : list A) y : y ∈ concat (map g l) <-> exists x, x ∈ l /\ y ∈ g x.
Proof.
  induction l as [|x l IH]; cbn; [rewrite elem_of_nil; by split; [|intros (x & []%not_elem_of_nil & _)]|].
  rewrite elem_of_app, IH. setoid_rewrite elem_of_cons. naive_solver.
Qed.

Lemma resolveFields_elem idx o i p f :
  f ∈ resolveFields idx o i p <->
  f ∈ collect idx (watch_key o i p) \/ f ∈ collect idx (watch_key o i []) \/
  f ∈ collect idx (watch_key [] i p) \/ f ∈ collect idx (watch_key [] i []).
Proof. unfold resolveFields. by rewrite !elem_of_app. Qed.

Definition no_nul (w : DbusWatcher) : Prop := (x00 ∉ dbusObject w) /\ (x00 ∉ dbusInterface w).

(** A signal wakes the right fields: a field is among those affected exactly
    when a watcher that names it has the interface of the signal, its object or
    any object, and one of its properties or any property; nobody is notified when
    there is none. *)
Theorem affectedFields_correct ws object iface changed invalidated :
  Forall no_nul ws -> x00 ∉ object -> x00 ∉ iface ->
  affectedFields (buildDbusWatcherIndex ws) object iface changed invalidated <> Some ∅ /\
  forall f, f ∈ default ∅ (affectedFields (buildDbusWatcherIndex ws) object iface changed invalidated) <->
    exists w p, w ∈ ws /\ p ∈ changed ++ invalidated /\ f ∈ graphqlFields w /\ dbusInterface w = iface /\
      (dbusObject w = object \/ dbusObject w = []) /\ (dbusProperty w = p \/ dbusProperty w = []).
Proof.
  intros Hws Ho Hi. split; [unfold affectedFields; by case_decide; naive_solver|].
  intros f. rewrite Forall_forall in Hws.
  assert (Hkey : forall w o p, w ∈ ws -> x00 ∉ o ->
    watch_key (dbusObject w) (dbusInterface w) (dbusProperty w) = watch_key o iface p <->
    dbusObject w = o /\ dbusInterface w = iface /\ dbusProperty w = p).
  { intros w o p Hw Hn. destruct (Hws w Hw) as [H1 H2]. split; [|by intros (-> & -> & ->)].
    intros (-> & E)%nul_split; [|done|done]. by apply nul_split in E as [-> ->]. }
  assert (Hnil : x00 ∉ ([] : bytes)) by apply not_elem_of_nil.
  assert (Hf : f ∈ default ∅ (affectedFields (buildDbusWatcherIndex ws) object iface changed invalidated) <->
    exists p, p ∈ changed ++ invalidated /\ f ∈ resolveFields (buildDbusWatcherIndex ws) object iface p).
  { unfold affectedFields. destruct (decide _) as [E|E]; cbn.
    - rewrite <- E at 1. by rewrite elem_of_list_to_set, elem_of_concat_map.
    - by rewrite elem_of_list_to_set, elem_of_concat_map. }
  rewrite Hf. setoid_rewrite resolveFields_elem. setoid_rewrite index_elem. split.
  - intros (p & Hp & H). destruct H as [H|[H|[H|H]]]; destruct H as (w & Hw & Hk & Hin);
      apply Hkey in Hk as (? & ? & ?); try done; exists w, p; split_and!; auto.
  - intros (w & p & Hw & Hp & Hin & Hif & Hob & Hpr). exists p. split; [done|].
    destruct Hob, Hpr; [left|right; left|do 2 right; left|do 3 right]; exists w; (split; [done|]); (split; [by apply Hkey|done]).
Qed.

Lemma affectedFields_correct_witness :
  let ws := [mkWatcher [] (str "State.Host") [] [str "systemStatus"]; mkWatcher (str "/c") (str "Item") (str "P") [str "x"]] in
  affectedFields (buildDbusWatcherIndex ws) (str "/host0") (str "State.Host") [str "Current"] [] <> Some ∅ /\
  forall f, f ∈ default ∅ (affectedFields (buildDbusWatcherIndex ws) (str "/host0") (str "State.Host") [str "Current"] []) <->
    exists w p, w ∈ ws /\ p ∈ [str "Current"] ++ [] /\ f ∈ graphqlFields w /\ dbusInterface w = str "State.Host" /\
      (dbusObject w = str "/host0" \/ dbusObject w = []) /\ (dbusProperty w = p \/ dbusProperty w = []).
Proof.
  intros ws. apply (affectedFields_correct ws (str "/host0") (str "State.Host") [str "Current"] []).
  - unfold ws. repeat (apply Forall_cons; split); [..|apply Forall_nil; exact I];
      (split; refine (bool_decide_unpack _ _); vm_compute; exact I).
  - refine (bool_decide_unpack _ _); vm_compute; exact I.
  - refine (bool_decide_unpack _ _); vm_compute; exact I.
Defined.
