(* ===== verification/CommandLine.v ===== *)
(** * The command line and the numbers of a request: [include/command_line_parser.hpp]
    and the parsing functions of [examples/graphql_server/graphql_redfish_server.cpp]

    The options are kept in a [std::map], so that an option with several spellings
    is looked for in the order of the keys and not of the command line.  Numbers
    are checked up to the first NUL of [c_str()] and converted by [std::stoi]. *)

From S2P Require Import Prelude StdMap Http ConsoleConfig.
From Stdlib Require Import Sorting.Sorted.

(** ** Options *)

(** The loop of [parseCommandline] from [argv[i]] on: a last option without a
    value is left out. *)
Fixpoint parse_options (comline : list (bytes * bytes)) (args : list bytes) : list (bytes * bytes) :=
  match args with
  | k :: v :: args => parse_options (object_set comline k v) args
  | _ => comline
  end.

(** [argv[0]] is the program. *)
Definition parseCommandline (argv : list bytes) : list (bytes * bytes) := parse_options [] (tail argv).

Definition comma : byte := ",".

(** Whether an option is one of the spellings, which are separated by commas. *)
Definition spelled (a k : bytes) : bool := bool_decide (k ∈ split a comma 0).

(** One argument of [getArgs]. *)
Definition extact (commLine : list (bytes * bytes)) (a : bytes) : option bytes :=
  (fun v => v.2.2) <$> find_if (fun v => spelled a v.1) commLine.

Definition getArgs (commLine : list (bytes * bytes)) (args : list bytes) : list (option bytes) :=
  map (extact commLine) args.

(** ** Numbers *)

(** What [c_str()] shows of a string. *)
Definition c_str (s : bytes) : bytes := (span (fun c => bool_decide (c <> x00)) s).1.

Inductive int_error := Empty | NotAnInteger.

(** The message, which names the parameter. *)
Definition int_message (e : int_error) (paramName : bytes) : bytes :=
  str "Invalid '" ++ paramName ++
  match e with Empty => str "': value must not be empty" | NotAnInteger => str "': must be an integer" end.

(** [std::expected<int, std::string>], or an exception. *)
Inductive expected := Value (z : Z) | Unexpected (message : bytes) | Exception (e : exn).

Definition parseIntString (s paramName : bytes) : expected :=
  if decide (s = []) then Unexpected (int_message Empty paramName)
  else let p := (sign (c_str s)).2 in
       if decide (p = []) then Unexpected (int_message NotAnInteger paramName)
       else if forallb is_digit p then match stoi 10 (c_str s) with inl z => Value z | inr e => Exception e end
       else Unexpected (int_message NotAnInteger paramName).

Definition kIntervalMinSecs : Z := 5.
Definition kIntervalMaxSecs : Z := 300.
Definition kIntervalDefaultSecs : Z := 5.

(** [std::clamp]. *)
Definition clamp (v lo hi : Z) : Z := if (v <? lo)%Z then lo else if (hi <? v)%Z then hi else v.

Definition parseInterval (intervalStr : bytes) : expected :=
  if decide (intervalStr = []) then Value kIntervalDefaultSecs
  else match parseIntString intervalStr (str "interval") with
       | Value v => Value (clamp v kIntervalMinSecs kIntervalMaxSecs)
       | e => e
       end.

Definition parsePort (portStr : bytes) : expected := parseIntString portStr (str "port").

(** ** What the options mean *)

(** The pairs of a command line, in its order. *)
Fixpoint pairs (args : list bytes) : list (bytes * bytes) :=
  match args with
  | k :: v :: args => (k, v) :: pairs args
  | _ => []
  end.

(** The last value given for an option. *)
Definition given (argv : list bytes) (k : bytes) : option bytes :=
  (fun kv => kv.2.2) <$> find_if (fun kv => bool_decide (kv.1 = k)) (reverse (pairs (tail argv))).

Lemma pairs_ind (P : list bytes -> Prop) :
  P [] -> (forall k, P [k]) -> (forall k v args, P args -> P (k :: v :: args)) -> forall args, P args.
Proof.
  intros H0 H1 H2 args. enough (P args /\ forall k, P (k :: args)) as [? _] by done.
  induction args as [|v args [IH1 IH2]]; [done|]. split; [apply IH2|]. intros k. by apply H2.
Qed.

Lemma parse_options_pairs comline args : parse_options comline args = set_all comline (pairs args).
Proof. revert comline. induction args as [|k|k v args IH] using pairs_ind; intros comline; cbn; [done..|]. by rewrite IH. Qed.

Lemma set_all_last {J} (acc kvs : list (bytes * J)) k :
  object_get (set_all acc kvs) k =
  match find_if (fun kv => bool_decide (kv.1 = k)) (reverse kvs) with Some kv => Some kv.2.2 | None => object_get acc k end.
Proof.
  revert acc. induction kvs as [|[k0 v] kvs IH] using rev_ind; intros acc; [done|].
  unfold set_all in *. rewrite foldl_app, reverse_snoc. cbn. rewrite object_get_set.
  destruct (decide (k0 = k)) as [->|Hk]; [by rewrite bool_decide_true|]. rewrite bool_decide_false by done.
  rewrite IH. by destruct (find_if _ _).
Qed.

(** A lookup in the order of the keys finds the least one. *)
Lemma find_if_least (m : list (bytes * bytes)) (p : bytes -> bool) v :
  StronglySorted key_lt m ->
  ((fun kv => kv.2.2) <$> find_if (fun kv => p kv.1) m = Some v <->
   exists k, p k = true /\ object_get m k = Some v /\
     forall k', p k' = true -> is_Some (object_get m k') -> bytes_ltb k' k = false).
Proof.
  induction 1 as [|[k0 v0] m Hs IH Hf]; cbn; [naive_solver|].
  assert (Hlt : forall k, is_Some (object_get m k) -> bytes_ltb k0 k = true).
  { clear -Hf. intros k. induction Hf as [|[k1 v1] m H1 _ IH]; cbn; [by intros []|].
    destruct (decide (k1 = k)) as [->|]; [done|exact IH]. }
  destruct (p k0) eqn:Hp; cbn.
  - split.
    + intros [= <-]. exists k0. rewrite decide_True by done. split_and!; [done..|]. intros k' _ Hk'.
      destruct (decide (k0 = k')) as [->|]; [apply bytes_ltb_irrefl|]. apply Hlt in Hk'.
      destruct (bytes_ltb k' k0) eqn:E; [|done]. pose proof (bytes_ltb_trans _ _ _ Hk' E) as H.
      by rewrite bytes_ltb_irrefl in H.
    + intros (k & Hk & Hg & Hmin). specialize (Hmin k0 Hp). rewrite decide_True in Hmin by done.
      destruct (decide (k0 = k)); [congruence|]. rewrite (Hlt k) in Hmin by eauto. naive_solver.
  - transitivity ((λ kv : nat * (bytes * bytes), kv.2.2) <$> find_if (λ kv : bytes * bytes, p kv.1) m = Some v).
    { by destruct (find_if _ m) as [[]|]. }
    rewrite IH. split; intros (k & Hk & Hg & Hmin); exists k.
    + rewrite decide_False by congruence. split_and!; [done..|]. intros k' Hk'. rewrite decide_False by congruence. by apply Hmin.
    + rewrite decide_False in Hg by congruence. split_and!; [done..|]. intros k' Hk' Hg'. apply Hmin; [done|].
      by rewrite decide_False by congruence.
Qed.

Lemma given_get argv k : object_get (parseCommandline argv) k = given argv k.
Proof.
  unfold parseCommandline, given. rewrite parse_options_pairs, set_all_last. by destruct (find_if _ _) as [[]|].
Qed.

Lemma parseCommandline_sorted argv : StronglySorted key_lt (parseCommandline argv).
Proof. unfold parseCommandline. rewrite parse_options_pairs. apply set_all_is_sorted. constructor. Qed.

Lemma find_if_missing (m : list (bytes * bytes)) (p : bytes -> bool) :
  find_if (fun kv => p kv.1) m = None <-> forall k, p k = true -> object_get m k = None.
Proof.
  rewrite find_if_None. induction m as [|[k0 v0] m IH]; cbn; [by split; [done|constructor]|].
  rewrite Forall_cons, IH. cbn. split.
  - intros [H0 H] k Hk. rewrite decide_False by congruence. by apply H.
  - intros H. split.
    + destruct (p k0) eqn:E; [|done]. specialize (H k0 E). by rewrite decide_True in H.
    + intros k Hk. specialize (H k Hk). by destruct (decide (k0 = k)).
Qed.

(** Options: an argument with several spellings is the last value given for
    the spelling that comes first in the order of the keys, not on the command line,
    among those that were given; the value is missing exactly when none was given. *)
Theorem getArgs_correct (argv : list bytes) (args : list bytes) (i : nat) (a v : bytes) :
  args !! i = Some a ->
  (getArgs (parseCommandline argv) args !! i = Some (Some v) <->
   exists k, k ∈ split a comma 0 /\ given argv k = Some v /\
     forall k', k' ∈ split a comma 0 -> is_Some (given argv k') -> bytes_ltb k' k = false) /\
  (getArgs (parseCommandline argv) args !! i = Some None <->
   forall k, k ∈ split a comma 0 -> given argv k = None).
Proof.
  intros Ha. unfold getArgs. rewrite list_lookup_fmap, Ha. cbn [fmap option_fmap option_map].
  setoid_rewrite <- given_get. split.
  - transitivity (extact (parseCommandline argv) a = Some v); [by split; [intros [= ->]|intros ->]|].
    unfold extact.
    etransitivity; [apply (find_if_least _ (spelled a)), parseCommandline_sorted|].
    unfold spelled. by setoid_rewrite bool_decide_eq_true.
  - transitivity (extact (parseCommandline argv) a = None); [by split; [intros [= ->]|intros ->]|].
    unfold extact. rewrite fmap_None.
    etransitivity; [apply (find_if_missing _ (spelled a))|].
    unfold spelled. by setoid_rewrite bool_decide_eq_true.
Qed.

Lemma getArgs_correct_witness :
  let argv := [str "srv"; str "-p"; str "1"; str "--port"; str "2"; str "--port"; str "3"] in
  getArgs (parseCommandline argv) [str "--port,-p"] !! 0 = Some (Some (str "3")) /\
  ((getArgs (parseCommandline argv) [str "--port,-p"] !! 0 = Some (Some (str "3")) <->
   exists k, k ∈ split (str "--port,-p") comma 0 /\ given argv k = Some (str "3") /\
     forall k', k' ∈ split (str "--port,-p") comma 0 -> is_Some (given argv k') -> bytes_ltb k' k = false) /\
  (getArgs (parseCommandline argv) [str "--port,-p"] !! 0 = Some None <->
   forall k, k ∈ split (str "--port,-p") comma 0 -> given argv k = None)).
Proof.
  intros argv. split; [vm_compute; reflexivity|].
  apply (getArgs_correct argv [str "--port,-p"] 0 (str "--port,-p") (str "3")). reflexivity.
Defined.

(** ** What the numbers mean *)

(** A sign, and at least one digit: the number that this is. *)
Definition decimal (s : bytes) : option Z :=
  let '(neg, ds) := sign s in
  if bool_decide (ds <> []) && forallb is_digit ds then Some (if neg then - of_dec ds else of_dec ds)%Z else None.

Lemma span_all {A} (p : A -> bool) l : forallb p l = true -> span p l = (l, []).
Proof. induction l as [|x l IH]; cbn; [done|]. intros [-> H]%andb_true_iff. by rewrite IH. Qed.

Lemma sign_not_space s : (sign s).2 <> [] -> forallb is_digit (sign s).2 = true -> skip isspace s = s.
Proof.
  destruct s as [|c s]; [done|]. intros Hne Hd. unfold skip. cbn [span]. destruct (isspace c) eqn:E; [|done]. exfalso.
  unfold sign in Hd. destruct (decide (c = "-"%byte)) as [->|]; [done|]. destruct (decide (c = "+"%byte)) as [->|]; [done|].
  cbn in Hd. apply andb_true_iff in Hd as [Hd _]. unfold isspace, is_digit in *. lia.
Qed.

Lemma stoi_decimal s z :
  decimal s = Some z -> stoi 10 s = if ((- 2 ^ 31 <=? z) && (z <? 2 ^ 31))%Z then inl z else inr out_of_range.
Proof.
  unfold decimal. destruct (sign s) as [neg ds] eqn:Es. destruct (bool_decide (ds <> [])) eqn:Hne; [|done].
  destruct (forallb is_digit ds) eqn:Hd; [|done]. cbn. intros [= <-]. apply bool_decide_eq_true in Hne. unfold stoi.
  rewrite sign_not_space by (by rewrite Es). rewrite Es, span_all; [by rewrite decide_False|].
  apply forallb_forall. intros b Hb. apply (proj1 (forallb_forall _ _) Hd) in Hb.
  unfold is_digit_of, is_digit in *. lia.
Qed.

(** Numbers: a parameter is accepted exactly when the part of it before the
    first NUL is a number that fits into an [int]; a number that does not fit
    leaves as an exception, which the comments exclude; everything else is refused
    with a message.  An interval is moved into the range from 5 to 300. *)
Theorem parseInterval_correct (s : bytes) :
  parsePort s = match decimal (c_str s) with
                | Some z => if ((- 2 ^ 31 <=? z) && (z <? 2 ^ 31))%Z then Value z else Exception out_of_range
                | None => Unexpected (int_message (if decide (s = []) then Empty else NotAnInteger) (str "port"))
                end /\
  parseInterval s = if decide (s = []) then Value 5
                    else match decimal (c_str s) with
                         | Some z => if ((- 2 ^ 31 <=? z) && (z <? 2 ^ 31))%Z then Value (Z.max 5 (Z.min 300 z))
                                     else Exception out_of_range
                         | None => Unexpected (int_message NotAnInteger (str "interval"))
                         end.
Proof.
  assert (H : forall n, parseIntString s n = match decimal (c_str s) with
    | Some z => if ((- 2 ^ 31 <=? z) && (z <? 2 ^ 31))%Z then Value z else Exception out_of_range
    | None => Unexpected (int_message (if decide (s = []) then Empty else NotAnInteger) n)
    end).
  { intros n. unfold parseIntString. destruct (decide (s = [])) as [->|Hs]; [done|].
    destruct (decimal (c_str s)) as [z|] eqn:E.
    - rewrite (stoi_decimal _ _ E). unfold decimal in E. destruct (sign (c_str s)) as [neg ds]. cbn [snd].
      destruct (decide (ds = [])) as [->|]; [done|]. destruct (forallb is_digit ds); [|by rewrite andb_false_r in E].
      clear E. by destruct (_ && _)%Z.
    - unfold decimal in E. destruct (sign (c_str s)) as [neg ds]. cbn [snd].
      destruct (decide (ds = [])) as [->|]; [done|]. rewrite bool_decide_eq_true_2 in E by done.
      by destruct (forallb is_digit ds). }
  split; [apply H|]. unfold parseInterval. destruct (decide (s = [])); [done|]. rewrite H.
  destruct (decimal (c_str s)) as [z|]; [|done]. destruct (_ && _)%Z; [|done].
  unfold clamp, kIntervalMinSecs, kIntervalMaxSecs. f_equal.
  destruct (Z.ltb_spec z 5), (Z.ltb_spec 300 z); lia.
Qed.
