(* ===== verification/WebClient.v ===== *)
(** * The HTTP client: [include/webclient.hpp] and [include/http_client.hpp]

    A request is described by a record of settings and executed on a connection
    leased from the pool.  What the network does is a parameter: every call into
    it gets the history of all calls so far and may answer anything.  The history
    records the calls with their answers, and the return of each lease.  A frame
    of server-sent events goes from the producer, which reads the connection,
    through a mailbox of one slot to the consumer. *)

From S2P Require Import Prelude StdMap Http Stream.

Inductive error_code := eof | connection_refused | bad_message | permission_denied | timed_out | other_error (n : nat).

#[export] Instance error_code_eq_dec : EqDecision error_code.
Proof. solve_decision. Defined.

(** ** Requests *)

Inductive data := TcpData (host port : bytes) | UnixData (path : bytes).

Record WebRequest := mkWebRequest {
  wmethod : verb;
  wtarget : bytes;
  wbody : bytes;
  params : list (bytes * bytes);
  version : Z;
  headers : list (bytes * bytes);
  keepAlive : bool;
  frameDelimiter : bytes;
}.

Record WebClient := mkWebClient {
  wdata : data;
  request : WebRequest;
  maxTries : Z;
  downloadTimeout : Z;
}.

Definition defaultRequest : WebRequest :=
  mkWebRequest verb_get (str "/") [] [] 11 [] true [x0a; x0a].

(** [initDefaults] for the two kinds of streams. *)
Definition tcpClient : WebClient := mkWebClient (TcpData [] (str "443")) defaultRequest 3 300.
Definition unixClient : WebClient := mkWebClient (UnixData []) defaultRequest 3 300.

Definition set_request (c : WebClient) (r : WebRequest) : WebClient :=
  mkWebClient (wdata c) r (maxTries c) (downloadTimeout c).

Definition withHost (c : WebClient) (h : bytes) : WebClient :=
  mkWebClient (match wdata c with TcpData _ p => TcpData h p | d => d end) (request c) (maxTries c) (downloadTimeout c).

Definition withPort (c : WebClient) (p : bytes) : WebClient :=
  mkWebClient (match wdata c with TcpData h _ => TcpData h p | d => d end) (request c) (maxTries c) (downloadTimeout c).

Definition withName (c : WebClient) (p : bytes) : WebClient :=
  mkWebClient (match wdata c with UnixData _ => UnixData p | d => d end) (request c) (maxTries c) (downloadTimeout c).

Definition withRetries (c : WebClient) (n : Z) : WebClient := mkWebClient (wdata c) (request c) n (downloadTimeout c).
Definition withDownloadTimeout (c : WebClient) (s : Z) : WebClient := mkWebClient (wdata c) (request c) (maxTries c) s.

Definition withKeepAlive (c : WebClient) (b : bool) : WebClient :=
  let r := request c in
  set_request c (mkWebRequest (wmethod r) (wtarget r) (wbody r) (params r) (version r) (headers r) b (frameDelimiter r)).

Definition withMethod (c : WebClient) (m : verb) : WebClient :=
  let r := request c in
  set_request c (mkWebRequest m (wtarget r) (wbody r) (params r) (version r) (headers r) (keepAlive r) (frameDelimiter r)).

Definition withTarget (c : WebClient) (t : bytes) : WebClient :=
  let r := request c in
  set_request c (mkWebRequest (wmethod r) t (wbody r) (params r) (version r) (headers r) (keepAlive r) (frameDelimiter r)).

Definition withBody (c : WebClient) (b : bytes) : WebClient :=
  let r := request c in
  set_request c (mkWebRequest (wmethod r) (wtarget r) b (params r) (version r) (headers r) (keepAlive r) (frameDelimiter r)).

Definition withParams (c : WebClient) (p : list (bytes * bytes)) : WebClient :=
  let r := request c in
  set_request c (mkWebRequest (wmethod r) (wtarget r) (wbody r) p (version r) (headers r) (keepAlive r) (frameDelimiter r)).

Definition withVersion (c : WebClient) (v : Z) : WebClient :=
  let r := request c in
  set_request c (mkWebRequest (wmethod r) (wtarget r) (wbody r) (params r) v (headers r) (keepAlive r) (frameDelimiter r)).

Definition withHeaders (c : WebClient) (h : list (bytes * bytes)) : WebClient :=
  let r := request c in
  set_request c (mkWebRequest (wmethod r) (wtarget r) (wbody r) (params r) (version r) h (keepAlive r) (frameDelimiter r)).

Definition withFrameDelimiter (c : WebClient) (d : bytes) : WebClient :=
  let r := request c in
  set_request c (mkWebRequest (wmethod r) (wtarget r) (wbody r) (params r) (version r) (headers r) (keepAlive r) d).

(** What Boost.URL says of a URL; [uparams] are decoded. *)
Record url_view := mkUrl { uhost : bytes; uport : bytes; upath : bytes; uparams : list (bytes * bytes) }.

Definition withUrl (c : WebClient) (u : url_view) : WebClient :=
  let c := withPort (withHost c (uhost u)) (if decide (uport u = []) then str "443" else uport u) in
  let c := withTarget c (if decide (upath u = []) then str "/" else upath u) in
  withParams c (set_all (params (request c)) (uparams u)).

(** The request handed to Boost.Beast: [fields] are the fields set, in order. *)
Record BeastRequest := mkBeast {
  bmethod : verb;
  btarget : bytes;
  bversion : Z;
  bkeep_alive : bool;
  fields : list (bytes * bytes);
  bbody : bytes;
}.

Definition build_params (ps : list (bytes * bytes)) : bytes :=
  (foldl (fun (acc : bytes * bool) (kv : bytes * bytes) =>
            (acc.1 ++ (if acc.2 then str "?" else str "&") ++ kv.1 ++ str "=" ++ kv.2, false)) ([], true) ps).1.

Definition buildRequest (c : WebClient) : BeastRequest :=
  let r := request c in
  mkBeast (wmethod r) (wtarget r ++ build_params (params r)) (version r) (keepAlive r)
    ((str "Host", match wdata c with TcpData h _ => h | UnixData _ => str "localhost" end) :: headers r) (wbody r).

Definition getEndpoint (c : WebClient) : bytes * bytes :=
  match wdata c with TcpData h p => (h, p) | UnixData p => (p, []) end.

(** ** The network *)

(** A lease is known by its number.  Bodies that are written to a file or to a
    buffer are Beast's; what counts of the response is whether it keeps the
    connection alive. *)
Inductive op :=
  | Acquire (hostOrPath port : bytes) (r : nat + error_code)
  | Send (l : nat) (req : BeastRequest) (r : option error_code)
  | Receive (l : nat) (r : Response + error_code)
  | ReadHeader (l : nat) (r : Z + error_code)
  | OpenFile (path : bytes) (r : option error_code)
  | ReadBody (l : nat) (timeout : Z) (r : bool + error_code)
  | Handled (res : Response) (r : option error_code)
  | OrElse (ec : error_code) (r : option error_code)
  | Return (l : nat) (valid : bool)
  | ReleaseClient (l : nat).

Record network := mkNetwork {
  n_acquire : list op -> bytes -> bytes -> nat + error_code;
  n_send : list op -> nat -> BeastRequest -> option error_code;
  n_receive : list op -> nat -> Response + error_code;
  n_header : list op -> nat -> Z + error_code;
  n_open : list op -> bytes -> option error_code;
  n_body : list op -> nat -> Z -> bool + error_code;
  n_then : list op -> Response -> option error_code;
  n_orElse : list op -> error_code -> option error_code;
}.

(** A coroutine that makes calls. *)
Definition M (A : Type) : Type := list op -> A * list op.

Definition ret {A} (a : A) : M A := fun h => (a, h).
Definition bind {A B} (m : M A) (f : A -> M B) : M B := fun h => let '(a, h) := m h in f a h.
Definition call {A} (answer : list op -> A) (record : A -> op) : M A :=
  fun h => let a := answer h in (a, h ++ [record a]).

Local Notation "x ← m ; k" := (bind m (fun x => k)) (at level 20, m at level 100, k at level 200) : coro_scope.

Section execution.

Context (net : network) (c : WebClient).

Definition acquire : M (nat + error_code) :=
  let '(hostOrPath, port) := getEndpoint c in
  call (fun h => n_acquire net h hostOrPath port) (Acquire hostOrPath port).

Definition send_request (l : nat) (req : BeastRequest) : M (option error_code) := call (fun h => n_send net h l req) (Send l req).
Definition receive_response (l : nat) : M (Response + error_code) := call (fun h => n_receive net h l) (Receive l).
Definition readResponseHeader (l : nat) : M (Z + error_code) := call (fun h => n_header net h l) (ReadHeader l).
Definition open_file (p : bytes) : M (option error_code) := call (fun h => n_open net h p) (OpenFile p).
Definition readBodyAs (l : nat) (t : Z) : M (bool + error_code) := call (fun h => n_body net h l t) (ReadBody l t).
Definition thenHandler (res : Response) : M (option error_code) := call (fun h => n_then net h res) (Handled res).
Definition orElseHandler (ec : error_code) : M (option error_code) := call (fun h => n_orElse net h ec) (OrElse ec).

(** How the body of the loop ends: with [continue], the error noted, or with
    [co_return]. *)
Inductive verdict (A : Type) := Continue (ec : error_code) | CoReturn (a : A).
Arguments Continue {A}.
Arguments CoReturn {A}.

(** One round: the lease is given back when it goes out of scope, valid unless it
    was marked. *)
Definition attempt {A} (body : nat -> M (verdict A * bool)) : M (verdict A) :=
  r ← acquire;
  match r with
  | inr ec => ret (Continue ec)
  | inl l => vv ← body l; _ ← call (fun _ => tt) (fun _ => Return l vv.2); ret vv.1
  end.

Fixpoint attempts {A} (n : nat) (lastEc : option error_code) (body : nat -> M (verdict A * bool)) : M (A + option error_code) :=
  match n with
  | O => ret (inr lastEc)
  | S n => v ← attempt body;
           match v with
           | CoReturn a => ret (inl a)
           | Continue ec => attempts n (Some ec) body
           end
  end.

Definition maxAttempts : nat := Z.to_nat (Z.max 1 (maxTries c)).

(** The body of [execute]; [done] is what becomes of the response. *)
Definition string_body {A} (done : Response -> M A) (l : nat) : M (verdict A * bool) :=
  sendEc ← send_request l (buildRequest c);
  match sendEc with
  | Some ec => ret (Continue ec, false)
  | None =>
      r ← receive_response l;
      match r with
      | inr ec => ret (Continue ec, false)
      | inl res => a ← done res; ret (CoReturn a, keep_alive res && keepAlive (request c))
      end
  end.

(** [execute<Response>()]: the error and the response; [None] stands for
    [Response{}]. *)
Definition execute : M (option error_code * option Response) :=
  r ← attempts maxAttempts None (string_body (fun res => ret (None, Some res)));
  ret (match r with inl x => x | inr ec => (ec, None) end).

(** [execute<>()], which calls the handlers. *)
Definition execute_handlers : M (option error_code) :=
  r ← attempts maxAttempts None (string_body thenHandler);
  match r with
  | inl ec => ret ec
  | inr (Some ec) => orElseHandler ec
  | inr None => ret None
  end.

(** [executeAndReturnAs<RetType>()] for a type read from JSON. *)
Definition executeAndReturnAs {T} (parse : bytes -> option T) : M (option error_code * option T) :=
  r ← execute;
  ret (match r with
       | (None, Some res) => match parse (res_body res) with Some v => (None, Some v) | None => (Some bad_message, None) end
       | (ec, _) => (ec, None)
       end).

(** [FileExecutor::execute()]. *)
Definition file_body (filePath : bytes) (l : nat) : M (verdict (option error_code) * bool) :=
  sendEc ← send_request l (buildRequest c);
  match sendEc with
  | Some ec => ret (Continue ec, false)
  | None =>
      r ← readResponseHeader l;
      match r with
      | inr ec => ret (Continue ec, false)
      | inl statusCode =>
          if ((statusCode <? 200) || (300 <=? statusCode))%Z then ret (Continue connection_refused, false)
          else
            fec ← open_file filePath;
            match fec with
            | Some ec => ret (CoReturn (Some ec), false)
            | None =>
                b ← readBodyAs l (downloadTimeout c);
                match b with
                | inr ec => ret (Continue ec, false)
                | inl ka => ret (CoReturn None, ka && keepAlive (request c))
                end
            end
      end
  end.

Definition file_execute (filePath : bytes) : M (option error_code * bytes) :=
  r ← attempts maxAttempts None (file_body filePath);
  ret (match r with inl ec => (ec, filePath) | inr ec => (ec, filePath) end).

(** [BufferExecutor::execute()]. *)
Definition buffer_execute : M (option error_code * option Response) :=
  r ← attempts maxAttempts None (string_body (fun res => ret (None, Some res)));
  ret (match r with inl x => x | inr ec => (ec, None) end).

(** [executeAsStream()]: the lease whose client the producer reads from. *)
Definition sse_request : BeastRequest :=
  let r := buildRequest c in
  mkBeast (bmethod r) (btarget r) (bversion r) true
    (fields r ++ [(str "Accept", str "text/event-stream"); (str "Cache-Control", str "no-cache")]) (bbody r).

Definition executeAsStream : M (nat + error_code) :=
  r ← acquire;
  match r with
  | inr ec => ret (inr ec)
  | inl l =>
      let dropped (ec : error_code) : M (nat + error_code) := (_ ← call (fun _ => tt) (fun _ => Return l false); ret (inr ec)) in
      sendEc ← send_request l sse_request;
      match sendEc with
      | Some ec => dropped ec
      | None =>
          h ← readResponseHeader l;
          match h with
          | inr ec => dropped ec
          | inl statusCode =>
              if ((statusCode <? 200) || (300 <=? statusCode))%Z then dropped connection_refused
              else _ ← call (fun _ => tt) (fun _ => ReleaseClient l); ret (inl l)
          end
      end
  end.

End execution.

(** ** Server-sent events *)

Record SseFrame := mkFrame { ec : option error_code; fdata : bytes }.

Section frames.

Context (async_read_until : bytes -> list bytes -> option (bytes * nat * list bytes)).

(** [HttpClient::readUntil(delim)]: the buffer is a member, which keeps what was
    read beyond the delimiter.  What it holds counts as read first. *)
Definition readUntil (delim sseBuffer : bytes) (cs : list bytes) : option (bytes * bytes * list bytes) :=
  match async_read_until delim (sseBuffer :: cs) with
  | None => None
  | Some (buffer, n, rest) => Some (take n buffer, drop n buffer, rest)
  end.

(** [frameProducer]: the frames it posts until the connection ends or fails with
    [e], which it posts as well. *)
Fixpoint frameProducer (fuel : nat) (delim sseBuffer : bytes) (cs : list bytes) (e : error_code) : list SseFrame :=
  match fuel with
  | O => []
  | S fuel =>
      match readUntil delim sseBuffer cs with
      | None => [mkFrame (Some e) []]
      | Some (frame, sseBuffer, cs) => mkFrame None frame :: frameProducer fuel delim sseBuffer cs e
      end
  end.

End frames.

(** The consumer is outside of [next()], suspended in it, or its timer was
    cancelled and it is about to go on. *)
Inductive consumer := Busy | Sleeping | Woken.

#[export] Instance consumer_eq_dec : EqDecision consumer.
Proof. solve_decision. Defined.

(** [to_post] is what the producer has not posted yet. *)
Record mailbox := mkBox {
  slot : option SseFrame;
  pc : consumer;
  to_post : list SseFrame;
  received : list SseFrame;
}.

Inductive sse_event := Next | Post | Resume.

(** Cancelling the timer wakes the consumer if it waits, and has no effect
    otherwise. *)
Definition post (m : mailbox) (frame : SseFrame) (rest : list SseFrame) : mailbox :=
  mkBox (Some frame) (match pc m with Sleeping => Woken | p => p end) rest (received m).

(** The end of [next()]. *)
Definition next_resumed (m : mailbox) : mailbox :=
  mkBox None Busy (to_post m) (received m ++ [default (mkFrame (Some eof) []) (slot m)]).

Definition sse_step (m : mailbox) (e : sse_event) : option mailbox :=
  match e, pc m, to_post m with
  | Next, Busy, _ => Some (mkBox (slot m) Sleeping (to_post m) (received m))
  | Post, _, f :: fs => Some (post m f fs)
  | Resume, Woken, _ => Some (next_resumed m)
  | _, _, _ => None
  end.

Fixpoint sse_run (m : mailbox) (es : list sse_event) : option mailbox :=
  match es with
  | [] => Some m
  | e :: es => match sse_step m e with Some m => sse_run m es | None => None end
  end.

Definition sse_init (fs : list SseFrame) : mailbox := mkBox None Busy fs [].

(** ** Attempts *)

Section attempts.

Context (net : network) (c : WebClient).

Abbreviation host := (getEndpoint c).1.
Abbreviation port := (getEndpoint c).2.

(** A sequence of rounds that all fail but possibly the last. *)
Definition tries {A} (failed : list op -> error_code -> Prop) (final : list op -> A -> Prop)
  (h h' : list op) (r : A + option error_code) : Prop :=
  exists ts : list (list op * error_code), Forall (fun t => failed t.1 t.2) ts /\
    match r with
    | inl a => exists t, final t a /\ length ts < maxAttempts c /\ h' = h ++ concat (map fst ts) ++ t
    | inr lastEc => length ts = maxAttempts c /\ lastEc = snd <$> last ts /\ h' = h ++ concat (map fst ts)
    end.

(** One round of the loop, from what its body does. *)
Definition round_of {A} (failed : list op -> error_code -> Prop) (final : list op -> A -> Prop)
  (body : nat -> M (verdict A * bool)) : Prop :=
  (forall ec, failed [Acquire host port (inr ec)] ec) /\
  forall l h, let '(vv, h') := body l h in
    exists t, h' = h ++ t /\
      match vv.1 with
      | Continue _ ec => failed (Acquire host port (inl l) :: t ++ [Return l vv.2]) ec
      | CoReturn _ a => final (Acquire host port (inl l) :: t ++ [Return l vv.2]) a
      end.

Lemma attempt_round {A} failed final (body : nat -> M (verdict A * bool)) h :
  round_of failed final body ->
  let '(v, h') := attempt net c body h in
  exists t, h' = h ++ t /\ match v with Continue _ ec => failed t ec | CoReturn _ a => final t a end.
Proof.
  intros [Hf Hb]. unfold attempt, acquire, bind, call, ret. destruct (getEndpoint c) as [ho po] eqn:E. cbn in *.
  destruct (n_acquire net h ho po) as [l|ec].
  - specialize (Hb l (h ++ [Acquire ho po (inl l)])). destruct (body l _) as [[v b] h'].
    destruct Hb as (t & -> & Ht). cbn in *. eexists. split; [by rewrite <- !app_assoc|]. exact Ht.
  - eexists. split; [done|]. apply Hf.
Qed.

Lemma attempts_tries {A} failed final (body : nat -> M (verdict A * bool)) n lastEc h :
  round_of failed final body ->
  let '(r, h') := attempts net c n lastEc body h in
  exists ts : list (list op * error_code), Forall (fun t => failed t.1 t.2) ts /\
    match r with
    | inl a => exists t, final t a /\ length ts < n /\ h' = h ++ concat (map fst ts) ++ t
    | inr ec => length ts = n /\ ec = match last ts with Some t => Some t.2 | None => lastEc end /\
                h' = h ++ concat (map fst ts)
    end.
Proof.
  intros Hr. revert lastEc h. induction n as [|n IH]; intros lastEc h; cbn [attempts].
  - exists []. cbn. by rewrite app_nil_r.
  - unfold bind. pose proof (attempt_round failed final body h Hr) as Ha.
    destruct (attempt net c body h) as [[ec|a] h1]; destruct Ha as (t & -> & Ht).
    + specialize (IH (Some ec) (h ++ t)). destruct (attempts net c n _ body _) as [r h'].
      destruct IH as (ts & Hts & Hres). exists ((t, ec) :: ts). split; [by constructor|].
      destruct r as [a|ec'].
      * destruct Hres as (t' & Hf & Hl & ->). exists t'. cbn. rewrite <- !app_assoc. split_and!; [done|lia|done].
      * destruct Hres as (<- & -> & ->). cbn. rewrite <- !app_assoc. split_and!; [done| |done].
        rewrite last_cons. by destruct (last ts).
    + exists []. split; [constructor|]. exists t. cbn. split_and!; [done|lia|done].
Qed.

Lemma loop_tries {A} failed final (body : nat -> M (verdict A * bool)) h :
  round_of failed final body ->
  tries failed final h (attempts net c (maxAttempts c) None body h).2 (attempts net c (maxAttempts c) None body h).1.
Proof.
  intros Hr. pose proof (attempts_tries failed final body (maxAttempts c) None h Hr) as H.
  destruct (attempts _ _ _ _ _ _) as [[a|ec] h']; destruct H as (ts & Hts & H); exists ts; (split; [done|]); cbn; [done|].
  destruct H as (? & -> & ->). split_and!; [done| |done]. by destruct (last ts).
Qed.

(** The rounds of [execute]. *)
Inductive failed_try : list op -> error_code -> Prop :=
  | try_no_lease e : failed_try [Acquire host port (inr e)] e
  | try_send l e : failed_try [Acquire host port (inl l); Send l (buildRequest c) (Some e); Return l false] e
  | try_receive l e : failed_try [Acquire host port (inl l); Send l (buildRequest c) None; Receive l (inr e); Return l false] e.

Inductive good_try : list op -> Response -> Prop :=
  | try_good l res : good_try [Acquire host port (inl l); Send l (buildRequest c) None; Receive l (inl res);
                               Return l (keep_alive res && keepAlive (request c))] res.

Lemma string_round :
  round_of failed_try (fun t x => exists res, good_try t res /\ x = (None, Some res))
    (string_body net c (fun res => ret (None (A := error_code), Some res))).
Proof.
  split; [constructor|]. intros l h. unfold string_body, send_request, receive_response, bind, call, ret.
  destruct (n_send net h l _) as [e|]; cbn; [eexists; split; [done|]; constructor|].
  destruct (n_receive net _ l) as [res|e]; cbn; (eexists; split; [by rewrite <- app_assoc|]); [|constructor].
  exists res. split; [constructor|done].
Qed.

Lemma max_attempts_pos : maxAttempts c <> 0.
Proof. unfold maxAttempts. lia. Qed.

(** What [execute] returns: a response, or an error. *)
Lemma execute_outcome h :
  (exists res h', execute net c h = ((None, Some res), h')) \/ (exists e h', execute net c h = ((Some e, None), h')).
Proof.
  pose proof (loop_tries _ _ _ h string_round) as H. unfold execute, bind, ret.
  destruct (attempts _ _ _ _ _ _) as [[x|lastEc] h']; destruct H as (ts & _ & H); cbn in *.
  - destruct H as (t & (res & _ & ->) & _). eauto.
  - destruct H as (Hl & -> & _). destruct (last ts) as [[t e]|] eqn:E; [eauto|].
    apply last_None in E. subst ts. by destruct max_attempts_pos.
Qed.

(** C28: a request is tried at most [max(1, maxTries)] times, each time on a lease of
    its own, until a response is received: the first response is the result, and
    otherwise the last error.  Every lease is given back once, for reuse exactly
    when a whole response was received on it and neither side wants to close. *)
Theorem execute_tries h :
  exists ts : list (list op * error_code), Forall (fun t => failed_try t.1 t.2) ts /\
    ((exists t res, good_try t res /\ length ts < maxAttempts c /\
        execute net c h = ((None, Some res), h ++ concat (map fst ts) ++ t)) \/
     (exists e, length ts = maxAttempts c /\ snd <$> last ts = Some e /\
        execute net c h = ((Some e, None), h ++ concat (map fst ts)))).
Proof.
  pose proof (loop_tries _ _ _ h string_round) as H. unfold execute, bind, ret.
  destruct (attempts _ _ _ _ _ _) as [[x|lastEc] h']; destruct H as (ts & Hts & H); exists ts; (split; [done|]); cbn in *.
  - left. destruct H as (t & (res & Hg & ->) & Hl & ->). eauto.
  - right. destruct H as (Hl & -> & ->). destruct (last ts) as [[t e]|] eqn:E; [eauto|].
    apply last_None in E. subst ts. by destruct max_attempts_pos.
Qed.

(** The rounds of a download: only after a status of success is the file opened. *)
Definition success (st : Z) : Prop := (200 <= st < 300)%Z.

Inductive failed_download (p : bytes) : list op -> error_code -> Prop :=
  | dl_try t e : failed_try t e -> (forall l, Receive l (inr e) ∉ t) -> failed_download p t e
  | dl_header l e :
      failed_download p [Acquire host port (inl l); Send l (buildRequest c) None; ReadHeader l (inr e); Return l false] e
  | dl_status l st : ~ success st ->
      failed_download p [Acquire host port (inl l); Send l (buildRequest c) None; ReadHeader l (inl st); Return l false]
        connection_refused
  | dl_body l st e : success st ->
      failed_download p [Acquire host port (inl l); Send l (buildRequest c) None; ReadHeader l (inl st); OpenFile p None;
                         ReadBody l (downloadTimeout c) (inr e); Return l false] e.

Inductive final_download (p : bytes) : list op -> option error_code -> Prop :=
  | dl_open l st e : success st ->
      final_download p [Acquire host port (inl l); Send l (buildRequest c) None; ReadHeader l (inl st);
                        OpenFile p (Some e); Return l false] (Some e)
  | dl_done l st ka : success st ->
      final_download p [Acquire host port (inl l); Send l (buildRequest c) None; ReadHeader l (inl st); OpenFile p None;
                        ReadBody l (downloadTimeout c) (inl ka); Return l (ka && keepAlive (request c))] None.

Lemma file_round p : round_of (failed_download p) (final_download p) (file_body net c p).
Proof.
  split; [intros e; apply dl_try; [constructor|]; intros l [=]%list_elem_of_singleton|]. intros l h.
  unfold file_body, send_request, readResponseHeader, open_file, readBodyAs, bind, call, ret.
  destruct (n_send net h l _) as [e|]; cbn.
  { eexists; split; [done|]. apply dl_try; [constructor|]. intros l' Hin.
    repeat (apply elem_of_cons in Hin as [[=]|Hin]). by apply not_elem_of_nil in Hin. }
  destruct (n_header net _ l) as [st|e]; cbn; [|eexists; split; [by rewrite <- app_assoc|]; apply dl_header].
  destruct (((st <? 200) || (300 <=? st))%Z) eqn:Est; cbn.
  { eexists; split; [by rewrite <- app_assoc|]. apply dl_status. unfold success. lia. }
  assert (success st) by (unfold success; lia).
  destruct (n_open net _ p) as [e|]; cbn; [eexists; split; [by rewrite <- !app_assoc|]; by constructor|].
  destruct (n_body net _ l _) as [ka|e]; cbn; (eexists; split; [by rewrite <- !app_assoc|]);
    [by apply (dl_done p l st)|by apply dl_body].
Qed.

(** A download is tried as often; the file is opened only after a status of
    success was read on the lease, never for a redirect or an error page; failing
    to open it is final; and success is reported only when the body was received
    in full. *)
Theorem download_tries p h :
  exists ts : list (list op * error_code), Forall (fun t => failed_download p t.1 t.2) ts /\
    ((exists t e, final_download p t e /\ length ts < maxAttempts c /\
        file_execute net c p h = ((e, p), h ++ concat (map fst ts) ++ t)) \/
     (exists e, length ts = maxAttempts c /\ snd <$> last ts = Some e /\
        file_execute net c p h = ((Some e, p), h ++ concat (map fst ts)))).
Proof.
  pose proof (loop_tries _ _ _ h (file_round p)) as H. unfold file_execute, bind, ret.
  destruct (attempts _ _ _ _ _ _) as [[x|lastEc] h']; destruct H as (ts & Hts & H); exists ts; (split; [done|]); cbn in *.
  - left. destruct H as (t & Hg & Hl & ->). eauto.
  - right. destruct H as (Hl & -> & ->). destruct (last ts) as [[t e]|] eqn:E; [eauto|].
    apply last_None in E. subst ts. by destruct max_attempts_pos.
Qed.

End attempts.

(** ** Targets *)

Definition token (kv : bytes * bytes) : bytes := kv.1 ++ equals :: kv.2.

Lemma build_params_join ps :
  build_params ps = match ps with [] => [] | _ => quest :: drop 1 (join (token <$> ps) ampersand) end.
Proof.
  unfold build_params. destruct ps as [|kv ps]; [done|]. cbn [foldl].
  assert (H : forall s, (foldl (fun (acc : bytes * bool) (kv : bytes * bytes) =>
              (acc.1 ++ (if acc.2 then str "?" else str "&") ++ kv.1 ++ str "=" ++ kv.2, false)) (s, false) ps).1
              = s ++ join (token <$> ps) ampersand).
  { clear kv. induction ps as [|kv ps IH]; intros s; cbn [foldl]; [by rewrite app_nil_r|].
    rewrite IH. rewrite fmap_cons, join_cons. cbn [fst snd]. unfold token at 2. change (str "&") with [ampersand].
    change (str "=") with [equals]. by rewrite <- !app_assoc. }
  rewrite H. rewrite fmap_cons, join_cons. cbn [fst snd drop app]. unfold token at 2. change (str "?") with [quest].
  change (str "=") with [equals]. by rewrite <- !app_assoc.
Qed.

(** A server reads the target of a request as it was meant: the path and, in the
    order of their keys, the parameters, when the values are given percent-encoded. *)
Theorem target_roundtrip (E : Type) (c : WebClient) (kvs : list (bytes * bytes)) :
  let p := wtarget (request c) in
  slash ∈ p -> quest ∉ p -> Forall (fun kv => wf_key kv.1) kvs -> kvs <> [] ->
  @parse_function E (btarget (buildRequest (withParams c (map (fun kv => (kv.1, pct_encode kv.2)) kvs)))) =
  mkFunc p ((fun kv => mkParam kv.1 kv.2) <$> kvs) None.
Proof.
  intros p Hs Hq Hk Hne. cbn [buildRequest btarget withParams set_request request wtarget params]. fold p.
  rewrite build_params_join. destruct kvs as [|kv kvs]; [done|]. cbn [map].
  replace (token <$> _) with (query_token <$> kv :: kvs);
    [by rewrite (parse_function_query p (kv :: kvs))|].
  rewrite !fmap_cons. f_equal. clear. induction kvs as [|kv' kvs IH]; [done|]. cbn. by rewrite IH.
Qed.

Lemma target_roundtrip_witness :
  @parse_function unit (str "/a?k=x%26y&z=1") = mkFunc (str "/a") [mkParam (str "k") (str "x&y"); mkParam (str "z") (str "1")] None.
Proof.
  apply (target_roundtrip unit (withTarget tcpClient (str "/a")) [(str "k", str "x&y"); (str "z", str "1")]).
  - apply (bool_decide_unpack _). vm_compute. exact I.
  - apply (bool_decide_unpack _). vm_compute. exact I.
  - repeat constructor; try discriminate; apply (bool_decide_unpack _); vm_compute; exact I.
  - discriminate.
Defined.

(** The parameters of a URL are decoded and not encoded again: a URL with [%26] in
    a value asks for two parameters. *)
Theorem withUrl_not_encoded :
  btarget (buildRequest (withUrl tcpClient (mkUrl (str "h") [] (str "/a") [(str "k", str "x&y=z")]))) = str "/a?k=x&y=z" /\
  @parse_function unit (str "/a?k=x&y=z") = mkFunc (str "/a") [mkParam (str "k") (str "x"); mkParam (str "y") (str "z")] None.
Proof. split; vm_compute; reflexivity. Qed.

(** ** Frames *)

Section sse.

Context {aru} `{ReadUntil aru}.

(** A frame ends with its first delimiter. *)
Definition wf_frame (delim f : bytes) : Prop := find_sub delim f = Some (length f - length delim) /\ length delim <= length f.

Lemma find_sub_fits d s i : find_sub d s = Some i -> i + length d <= length s \/ d = [].
Proof.
  intros [Ht _]%find_sub_Some. destruct (decide (d = [])) as [->|Hd]; [by right|left].
  apply (f_equal length) in Ht. rewrite length_take, length_drop in Ht.
  assert (length d <> 0) by by destruct d. lia.
Qed.

Lemma readUntil_frame delim buf cs f tl :
  delim <> [] -> wf_frame delim f -> buf ++ concat cs = f ++ tl ->
  exists buf' cs', readUntil aru delim buf cs = Some (f, buf', cs') /\ buf' ++ concat cs' = tl.
Proof.
  intros Hd [Hf Hl] Heq. unfold readUntil.
  destruct (aru delim (buf :: cs)) as [[[buffer n] rest]|] eqn:E.
  - apply read_until_found in E as (i & pre & Hcs & -> & Hi & -> & _).
    assert (Htot : concat pre ++ concat rest = f ++ tl) by (by rewrite <- concat_app, <- Hcs).
    pose proof (find_sub_app _ _ (concat rest) _ Hi) as H1. rewrite Htot in H1.
    rewrite (find_sub_app _ _ tl _ Hf) in H1. injection H1 as <-.
    replace (length f - length delim + length delim) with (length f) by lia.
    destruct (find_sub_fits _ _ _ Hi) as [Hb|]; [|done].
    assert (Ht : take (length f) (concat pre) = f).
    { rewrite <- (take_app_le _ (concat rest)) by lia. by rewrite Htot, take_app_length. }
    rewrite Ht. eexists _, _. split; [done|]. rewrite <- (take_drop (length f) (concat pre)), Ht, <- app_assoc in Htot.
    by apply app_inv_head in Htot.
  - apply read_until_eof in E. cbn in E. rewrite Heq in E. by rewrite (find_sub_app _ _ _ _ Hf) in E.
Qed.

(** Frames come out as they were sent, and what is left over at the end is
    reported as the error that ended the connection. *)
Lemma frames_read delim (fs : list bytes) cs rest e :
  delim <> [] -> Forall (wf_frame delim) fs -> find_sub delim rest = None -> concat cs = concat fs ++ rest ->
  frameProducer aru (S (length fs)) delim [] cs e = map (mkFrame None) fs ++ [mkFrame (Some e) []].
Proof.
  intros Hd Hfs Hrest Hcs.
  enough (Hgen : forall buf cs, buf ++ concat cs = concat fs ++ rest ->
    frameProducer aru (S (length fs)) delim buf cs e = map (mkFrame None) fs ++ [mkFrame (Some e) []]) by by apply Hgen.
  clear cs Hcs. induction Hfs as [|f fs Hf Hfs IH]; intros buf cs Hcs.
  - cbn. unfold readUntil. replace (aru delim (buf :: cs)) with (None (A := bytes * nat * list bytes)); [done|].
    symmetry. apply read_until_eof. cbn in *. by rewrite Hcs.
  - cbn [concat] in Hcs. rewrite <- app_assoc in Hcs.
    destruct (readUntil_frame delim buf cs f _ Hd Hf Hcs) as (buf' & cs' & E & Hcs').
    cbn [length frameProducer map app]. rewrite E. f_equal. by apply IH.
Qed.

(** The frames of this library's own server. *)
Lemma sse_frame_wf d : x0a ∉ d -> wf_frame [x0a; x0a] (sse_frame d).
Proof.
  intros Hd. unfold sse_frame. rewrite app_assoc. set (p := str "data: " ++ d).
  assert (Hp : x0a ∉ p).
  { unfold p. rewrite elem_of_app. intros [Hin|Hin]; [|done]. revert Hin. apply (bool_decide_unpack _). vm_compute. exact I. }
  split; [|rewrite length_app; cbn; lia]. rewrite length_app, Nat.add_sub. clearbody p. clear Hd.
  induction p as [|b p IH]; [done|]. apply not_elem_of_cons in Hp as [Hb Hp]. cbn [app find_sub length].
  rewrite bool_decide_false by (intros [k [= Hk _]]; congruence). by rewrite (IH Hp).
Qed.

(** Events of the server reach the client: what [SseWriter::write] has written for
    texts without line breaks is cut, whatever the chunks of the connection, into
    exactly these frames by the client with its default delimiter, and what is left
    over when the connection ends is reported as its error. *)
Theorem frames_roundtrip (events : list bytes) cs rest e :
  Forall (fun d => x0a ∉ d) events -> find_sub [x0a; x0a] rest = None ->
  concat cs = concat (map sse_frame events) ++ rest ->
  frameProducer aru (S (length events)) (frameDelimiter defaultRequest) [] cs e =
  map (fun d => mkFrame None (sse_frame d)) events ++ [mkFrame (Some e) []].
Proof.
  intros Hev Hrest Hcs. rewrite <- (length_map sse_frame events), (frames_read _ (map sse_frame events) cs rest e); try done.
  - by rewrite map_map.
  - apply Forall_map. eapply Forall_impl; [exact Hev|]. apply sse_frame_wf.
Qed.

End sse.

Lemma frames_roundtrip_witness :
  frameProducer read_until_ref 3 [x0a; x0a] [] [str "data: a" ++ [x0a]; [x0a] ++ str "data: b" ++ [x0a; x0a] ++ str "da"] eof
  = [mkFrame None (str "data: a" ++ [x0a; x0a]); mkFrame None (str "data: b" ++ [x0a; x0a]); mkFrame (Some eof) []].
Proof.
  apply (frames_roundtrip [str "a"; str "b"] _ (str "da") eof).
  - repeat constructor; apply (bool_decide_unpack _); vm_compute; exact I.
  - reflexivity.
  - reflexivity.
Defined.

(** ** The mailbox *)

(** The frame on its way to a consumer that has been woken. *)
Definition pending (m : mailbox) : list SseFrame :=
  match pc m, slot m with Woken, Some f => [f] | _, _ => [] end.

(** What is received, on its way, or not posted yet. *)
Definition kept (m : mailbox) : list SseFrame := received m ++ pending m ++ to_post m.

(** Every frame is posted while the consumer waits for it. *)
Fixpoint timely (m : mailbox) (es : list sse_event) : bool :=
  match es with
  | [] => true
  | e :: es => match e, pc m with Post, (Busy | Woken) => false | _, _ => true end &&
               match sse_step m e with Some m => timely m es | None => true end
  end.

Definition box_ok (m : mailbox) : Prop := pc m = Woken -> is_Some (slot m).

Lemma sse_step_kept m e m' :
  box_ok m -> sse_step m e = Some m' ->
  box_ok m' /\ (if match e, pc m with Post, (Busy | Woken) => false | _, _ => true end then kept m' = kept m
                else kept m' `sublist_of` kept m /\ length (kept m') < length (kept m)).
Proof.
  destruct m as [sl p tp rc]. unfold sse_step, box_ok, kept, pending, post, next_resumed. cbn.
  intros Hok. destruct e, p, tp as [|f tp]; cbn; try done; intros [= <-]; cbn; (split; [done|]).
  all: try done.
  all: try (destruct (Hok eq_refl) as [g ->]; cbn; rewrite <- ?app_assoc; done).
  - split; [by apply sublist_app, sublist_cons|rewrite !length_app; cbn; lia].
  - destruct (Hok eq_refl) as [g ->]. cbn. split; [by apply sublist_app, sublist_cons|rewrite !length_app; cbn; lia].
Qed.

Lemma sse_run_kept m es m' :
  box_ok m -> sse_run m es = Some m' ->
  if timely m es then kept m' = kept m else kept m' `sublist_of` kept m /\ length (kept m') < length (kept m).
Proof.
  revert m. induction es as [|e es IH]; intros m Hok; cbn; [by intros [= ->]|].
  destruct (sse_step m e) as [m1|] eqn:E; [|done]. intros Hrun.
  destruct (sse_step_kept m e m1 Hok E) as [Hok1 H1]. specialize (IH m1 Hok1 Hrun).
  destruct (match e, pc m with Post, (Busy | Woken) => false | _, _ => true end); cbn [andb].
  - by rewrite <- H1.
  - destruct H1 as [Hs Hl]. destruct (timely m1 es).
    + by rewrite IH.
    + destruct IH as [IHs IHl]. split; [by transitivity (kept m1)|lia].
Qed.

(** C23: the mailbox: frames are received in the order in which they were posted, and
    none is lost exactly as long as every frame is posted while the consumer is
    suspended in [next()]. *)
Theorem sse_lossless_iff (fs : list SseFrame) (es : list sse_event) (m : mailbox) :
  sse_run (sse_init fs) es = Some m ->
  received m `sublist_of` fs /\ (received m ++ pending m ++ to_post m = fs <-> timely (sse_init fs) es = true).
Proof.
  intros Hrun. assert (Hok : box_ok (sse_init fs)) by done.
  pose proof (sse_run_kept _ _ _ Hok Hrun) as H. change (kept (sse_init fs)) with fs in H. fold (kept m).
  assert (Hsub : received m `sublist_of` kept m) by apply sublist_inserts_r, reflexivity.
  destruct (timely (sse_init fs) es).
  - by rewrite H in *.
  - destruct H as [Hs Hl]. split; [by transitivity (kept m)|]. split; [|done]. intros E. rewrite E in Hl. lia.
Qed.

Lemma sse_lossless_iff_witness :
  let a := mkFrame None (str "a") in let b := mkFrame (Some eof) [] in
  let m := mkBox (Some b) Busy [] [a] in
  received m `sublist_of` [a; b] /\
  (received m ++ pending m ++ to_post m = [a; b] <-> timely (sse_init [a; b]) [Next; Post; Resume; Post] = true).
Proof. intros a b m. apply (sse_lossless_iff [a; b] [Next; Post; Resume; Post] m). reflexivity. Defined.

(** The end of the stream can be lost: when it is posted while the consumer is
    outside of [next()], the consumer waits for ever afterwards, although the slot
    is full. *)
Theorem sse_end_lost (fs : list SseFrame) :
  exists es m, sse_run (sse_init (fs ++ [mkFrame (Some eof) []])) es = Some m /\ received m = fs /\
    slot m = Some (mkFrame (Some eof) []) /\
    forall es' m', sse_run m es' = Some m' -> received m' = fs.
Proof.
  assert (Hdel : forall fs rest rc sl, exists es, sse_run (mkBox sl Busy (fs ++ rest) rc) es = Some (mkBox (if fs is [] then sl else None) Busy rest (rc ++ fs))).
  { clear. intros fs. induction fs as [|f fs IH]; intros rest rc sl; [exists []; by rewrite app_nil_r|].
    destruct (IH rest (rc ++ [f]) None) as [es Hes]. exists (Next :: Post :: Resume :: es).
    etransitivity; [exact Hes|]. rewrite <- app_assoc. by destruct fs. }
  destruct (Hdel fs [mkFrame (Some eof) []] [] None) as [es Hes].
  exists (es ++ [Post]), (mkBox (Some (mkFrame (Some eof) [])) Busy [] fs).
  assert (Happ : forall m es es', sse_run m (es ++ es') = match sse_run m es with Some m => sse_run m es' | None => None end).
  { clear. intros m es es'. revert m. induction es as [|e es IH]; intros m; cbn; [done|]. by destruct (sse_step m e). }
  rewrite Happ. unfold sse_init. rewrite Hes. split_and!; [done..|].
  intros [|[] es'] m'; cbn; [by intros [= <-]| |done..].
  destruct es' as [|[] ]; cbn; [by intros [= <-]|done..].
Qed.
