(* ===== verification/RedfishClient.v ===== *)
(** * The Redfish client: [include/redfish_client.hpp] and the provider on top of it,
    [examples/graphql_server/graphql_redfish_provider.cpp]

    Any number of coroutines run [execute] on one client.  Each is suspended
    while it waits for a response, for a new token, or for another coroutine that
    fetches one; [step] lets the network answer or a woken coroutine go on.  What
    [WebClient::execute] ends with is part of the event. *)

From S2P Require Import Prelude WebClient.

Definition unauthorized : Z := 401.
Definition not_found : Z := 404.
Definition internal_server_error : Z := 500.
Definition created : Z := 201.

(** What counts of a response: its status, the field X-Auth-Token and its body. *)
Record Response := mkRes { result : Z; x_auth_token : option bytes; body : bytes }.

#[export] Instance Response_eq_dec : EqDecision Response.
Proof. solve_decision. Defined.

Definition http_error_to_string : list (Z * bytes) :=
  [(unauthorized, str "Unauthorized"); (not_found, str "Not Found");
   (internal_server_error, str "Internal Server Error")].

Definition known_error (status : Z) : bool := bool_decide (status ∈ map fst http_error_to_string).

(** How a coroutine ends: with a response, with an error, or with an exception. *)
Inductive ending := Returned (res : Response) | Failed (ec : error_code) | Threw.

(** Where a coroutine is suspended, and the value of [retryCount]. *)
Inductive pc :=
  | Requesting (retryCount : nat)
  | Fetching (retryCount : nat)
  | Waiting (retryCount : nat)
  | Woken (retryCount : nat)
  | Ended (e : ending).

(** [tokenFetchInProgress] holds, while there is a fetch, the coroutines that wait
    on its timer.  [sent] and [answered] are the history: the tokens sent with the
    requests, and the responses to them, with the coroutine. *)
Record client := mkClient {
  token : bytes;
  tokenFetchInProgress : option (list nat);
  procs : gmap nat pc;
  sent : list (nat * bytes);
  answered : list (nat * (Response + error_code));
}.

Definition init (t : bytes) : client := mkClient t None ∅ [] [].

Definition set_pc (s : client) (i : nat) (p : pc) : client :=
  mkClient (token s) (tokenFetchInProgress s) (<[i := p]> (procs s)) (sent s) (answered s).

(** The head of the loop of [execute]: another request, unless there were three. *)
Definition loop_head (s : client) (i retryCount : nat) : client :=
  if decide (retryCount < 3) then
    mkClient (token s) (tokenFetchInProgress s) (<[i := Requesting (S retryCount)]> (procs s)) (sent s ++ [(i, token s)])
      (answered s)
  else set_pc s i (Ended (Failed timed_out)).

(** [refreshToken()] up to its first suspension. *)
Definition refreshToken (s : client) (i k : nat) : client :=
  match tokenFetchInProgress s with
  | Some ws => mkClient (token s) (Some (ws ++ [i])) (<[i := Waiting k]> (procs s)) (sent s) (answered s)
  | None => mkClient (token s) (Some []) (<[i := Fetching k]> (procs s)) (sent s) (answered s)
  end.

(** The body of the loop from the response on. *)
Definition got_response (s : client) (i k : nat) (r : Response + error_code) : client :=
  let s := mkClient (token s) (tokenFetchInProgress s) (procs s) (sent s) (answered s ++ [(i, r)]) in
  match r with
  | inr ec => set_pc s i (Ended (Failed ec))
  | inl res => if decide (result res = unauthorized) then refreshToken s i k else set_pc s i (Ended (Returned res))
  end.

Definition wake (p : pc) : pc := match p with Waiting k => Woken k | _ => p end.

(** [tokenFetchInProgress->cancel(); tokenFetchInProgress.reset()]. *)
Definition release_slot (s : client) : client :=
  mkClient (token s) None (foldr (fun w m => alter wake w m) (procs s) (default [] (tokenFetchInProgress s)))
    (sent s) (answered s).

(** The rest of [refreshToken()] in the coroutine that fetches, and what [execute]
    makes of it.  [at()] throws when there is no text for the status, and when
    there is no token. *)
Definition got_token (s : client) (i k : nat) (r : Response + error_code) : client :=
  match r with
  | inr ec => set_pc (release_slot s) i (Ended (Failed permission_denied))
  | inl res =>
      if decide (result res = created) then
        match x_auth_token res with
        | None => set_pc s i (Ended Threw)
        | Some t => loop_head (release_slot (mkClient t (tokenFetchInProgress s) (procs s) (sent s) (answered s))) i k
        end
      else if known_error (result res) then set_pc (release_slot s) i (Ended (Failed permission_denied))
      else set_pc (release_slot s) i (Ended Threw)
  end.

Inductive event :=
  | Execute (i : nat)
  | Answer (i : nat) (r : Response + error_code)
  | Resumed (i : nat).

Definition step (s : client) (e : event) : option client :=
  match e with
  | Execute i => match procs s !! i with None => Some (loop_head s i 0) | Some _ => None end
  | Answer i r =>
      match procs s !! i with
      | Some (Requesting k) => Some (got_response s i k r)
      | Some (Fetching k) => Some (got_token s i k r)
      | _ => None
      end
  | Resumed i => match procs s !! i with Some (Woken k) => Some (loop_head s i k) | _ => None end
  end.

Fixpoint run (s : client) (es : list event) : option client :=
  match es with
  | [] => Some s
  | e :: es => match step s e with Some s => run s es | None => None end
  end.

(** ** The provider *)

Section provider.

Context {json : Type} (parse : bytes -> option json) (message : error_code -> bytes).

Abbreviation cache_t := (gmap bytes json).

Definition failed_request (target : bytes) (ec : error_code) : bytes :=
  str "Failed Redfish request for '" ++ target ++ str "': " ++ message ec.

Definition invalid_json (target : bytes) : bytes := str "Invalid JSON response for '" ++ target ++ str "'".

(** What [get] and [getFresh] make of the end of [execute]. *)
Definition parsed (target : bytes) (r : Response + error_code) : json + bytes :=
  match r with
  | inr ec => inr (failed_request target ec)
  | inl res => match parse (body res) with Some j => inl j | None => inr (invalid_json target) end
  end.

(** [getFresh(target)]. *)
Definition getFresh (target : bytes) (r : Response + error_code) : json + bytes := parsed target r.

(** [get(target)] up to the request: [Some] of the cached value, if there is one. *)
Definition get_cached (cache : cache_t) (target : bytes) : option json := cache !! target.

(** [get(target)] after the request; [emplace] does not replace. *)
Definition get_done (cache : cache_t) (target : bytes) (r : Response + error_code) : cache_t * (json + bytes) :=
  match parsed target r with
  | inr e => (cache, inr e)
  | inl j => (match cache !! target with Some _ => cache | None => <[target := j]> cache end, inl j)
  end.

End provider.

(** ** The slot of the fetch *)

Lemma wake_all_lookup ws (m : gmap nat pc) i :
  foldr (fun w m => alter wake w m) m ws !! i = if decide (i ∈ ws) then wake <$> m !! i else m !! i.
Proof.
  induction ws as [|w ws IH]; cbn [foldr]; [by rewrite decide_False by apply not_elem_of_nil|].
  destruct (decide (i = w)) as [->|Hi].
  - rewrite lookup_alter_eq, IH, (decide_True _ _ (P := w ∈ w :: ws)) by left.
    destruct (decide (w ∈ ws)); [|done]. by destruct (m !! w) as [[]|].
  - rewrite lookup_alter_ne, IH by done. destruct (decide (i ∈ ws)); [rewrite decide_True by by right|rewrite decide_False by set_solver]; done.
Qed.

Definition is_waiting (p : pc) : Prop := match p with Waiting _ => True | _ => False end.
Definition is_fetching (p : pc) : Prop := match p with Fetching _ => True | _ => False end.

Record slot_ok (s : client) : Prop := {
  waiters_listed i p : procs s !! i = Some p -> is_waiting p -> i ∈ default [] (tokenFetchInProgress s);
  listed_waiters i : i ∈ default [] (tokenFetchInProgress s) -> exists p, procs s !! i = Some p /\ is_waiting p;
  fetching_slot i p : procs s !! i = Some p -> is_fetching p -> is_Some (tokenFetchInProgress s);
  fetching_one i j p q : procs s !! i = Some p -> procs s !! j = Some q -> is_fetching p -> is_fetching q -> i = j;
}.

Lemma release_lookup s i : slot_ok s -> procs (release_slot s) !! i = wake <$> procs s !! i.
Proof.
  intros Hs. cbn. rewrite wake_all_lookup. destruct (decide (i ∈ _)) as [|Hn]; [done|].
  destruct (procs s !! i) as [p|] eqn:E; [|done]. destruct p; try done. destruct Hn. by eapply waiters_listed.
Qed.

Lemma init_slot_ok t : slot_ok (init t).
Proof. split; cbn; intros *; rewrite ?lookup_empty; try done. by intros []%not_elem_of_nil. Qed.

(** A coroutine that neither waits nor fetches moves to such a place. *)
Lemma set_pc_slot_ok s i p t se an :
  slot_ok s -> (forall q, procs s !! i = Some q -> ~ is_waiting q) -> ~ is_waiting p -> ~ is_fetching p ->
  slot_ok (mkClient t (tokenFetchInProgress s) (<[i := p]> (procs s)) se an).
Proof.
  intros Hs Hi Hw Hf. split; cbn.
  - intros j q [[-> <-]|[Hj Hl]]%lookup_insert_Some Hq; [done|]. by eapply waiters_listed.
  - intros j (q & Hq & Hj)%(listed_waiters _ Hs). exists q. rewrite lookup_insert_ne; [done|]. intros ->. by apply (Hi q).
  - intros j q [[-> <-]|[Hj Hl]]%lookup_insert_Some Hq; [done|]. by eapply fetching_slot.
  - intros j j' q q' [[-> <-]|[Hj Hl]]%lookup_insert_Some [[-> <-]|[Hj' Hl']]%lookup_insert_Some Hq Hq'; try done.
    by eapply fetching_one.
Qed.

Lemma loop_head_slot_ok s i k :
  slot_ok s -> (forall q, procs s !! i = Some q -> ~ is_waiting q) -> slot_ok (loop_head s i k).
Proof. intros Hs Hi. unfold loop_head, set_pc. case_decide; by apply set_pc_slot_ok; auto. Qed.

Lemma release_slot_ok s i p :
  slot_ok s -> procs s !! i = Some p -> is_fetching p ->
  (forall j q, procs (release_slot s) !! j = Some q -> ~ is_waiting q /\ (is_fetching q -> j = i)).
Proof.
  intros Hs Hi Hp j q. rewrite release_lookup by done. intros (q' & Hq & ->)%fmap_Some. split; [destruct q'; cbn; tauto|].
  intros Hf. apply (fetching_one s Hs j i q' p Hq Hi); [by destruct q'|done].
Qed.

(** After the fetch, with its coroutine moved on. *)
Lemma released_slot_ok s i p p' t se an :
  slot_ok s -> procs s !! i = Some p -> is_fetching p -> ~ is_waiting p' -> ~ is_fetching p' ->
  slot_ok (mkClient t None (<[i := p']> (procs (release_slot s))) se an).
Proof.
  intros Hs Hi Hp Hw Hf. pose proof (release_slot_ok s i p Hs Hi Hp) as Hr. split; cbn -[release_slot].
  - intros j q [[-> <-]|[Hj Hl]]%lookup_insert_Some Hq; [done|]. by destruct (Hr j q Hl).
  - by intros j []%not_elem_of_nil.
  - intros j q [[-> <-]|[Hj Hl]]%lookup_insert_Some Hq; [done|]. destruct (Hr j q Hl) as [_ H]. by rewrite (H Hq) in Hj.
  - intros j j' q q' [[-> <-]|[Hj Hl]]%lookup_insert_Some [[-> <-]|[Hj' Hl']]%lookup_insert_Some Hq Hq'; try done.
    destruct (Hr j q Hl) as [_ H], (Hr j' q' Hl') as [_ H']. by rewrite (H Hq), (H' Hq').
Qed.

Lemma refresh_slot_ok s i k :
  slot_ok s -> procs s !! i = Some (Requesting k) -> slot_ok (refreshToken s i k).
Proof.
  intros Hs Hi. unfold refreshToken. destruct (tokenFetchInProgress s) as [ws|] eqn:E.
  - split; cbn.
    + intros j q [[-> <-]|[Hj Hl]]%lookup_insert_Some Hq; [set_solver|].
      pose proof (waiters_listed s Hs j q Hl Hq) as H. rewrite E in H. cbn in H. set_solver.
    + intros j [Hj|Hj%list_elem_of_singleton]%elem_of_app; [|subst j; eexists; by rewrite lookup_insert_eq].
      destruct (listed_waiters s Hs j) as (q & Hq & Hw); [by rewrite E|]. exists q. rewrite lookup_insert_ne; [done|].
      intros <-. by simplify_eq.
    + intros; by eexists.
    + intros j j' q q' [[-> <-]|[Hj Hl]]%lookup_insert_Some [[-> <-]|[Hj' Hl']]%lookup_insert_Some Hq Hq'; try done.
      by eapply fetching_one.
  - assert (Hno : forall j q, procs s !! j = Some q -> ~ is_waiting q /\ ~ is_fetching q).
    { intros j q Hq. split; intros Hw; [by pose proof (waiters_listed s Hs j q Hq Hw) as H; rewrite E in H; apply not_elem_of_nil in H|].
      pose proof (fetching_slot s Hs j q Hq Hw) as H. rewrite E in H. by destruct H. }
    split; cbn.
    + intros j q [[-> <-]|[Hj Hl]]%lookup_insert_Some Hq; [done|]. by destruct (Hno j q Hl).
    + by intros j []%not_elem_of_nil.
    + intros; by eexists.
    + intros j j' q q' [[-> <-]|[Hj Hl]]%lookup_insert_Some [[-> <-]|[Hj' Hl']]%lookup_insert_Some Hq Hq'; try done;
        by edestruct Hno.
Qed.

Lemma slot_ok_procs s t se an :
  slot_ok s -> slot_ok (mkClient t (tokenFetchInProgress s) (procs s) se an).
Proof. intros []. by split. Qed.

Lemma step_slot_ok s e s' : slot_ok s -> step s e = Some s' -> slot_ok s'.
Proof.
  intros Hs. destruct e as [i|i r|i]; cbn; destruct (procs s !! i) as [p|] eqn:Hi; try done.
  - intros [= <-]. apply loop_head_slot_ok; [done|]. congruence.
  - destruct p as [k|k| | | ]; try done; intros [= <-].
    + unfold got_response. destruct r as [res|ec]; [case_decide|].
      * apply refresh_slot_ok; [by apply slot_ok_procs|done].
      * apply (set_pc_slot_ok (mkClient _ _ (procs s) _ _)); [by apply slot_ok_procs| |by intros []|by intros []].
        intros q. cbn. rewrite Hi. by intros [= <-] [].
      * apply (set_pc_slot_ok (mkClient _ _ (procs s) _ _)); [by apply slot_ok_procs| |by intros []|by intros []].
        intros q. cbn. rewrite Hi. by intros [= <-] [].
    + assert (Hf : is_fetching (Fetching k)) by done.
      unfold got_token. destruct r as [res|ec]; [case_decide; [destruct (x_auth_token res) as [t|]|destruct (known_error _)]|].
      2:{ apply set_pc_slot_ok; [done| |by intros []|by intros []]. intros q. rewrite Hi. by intros [= <-] []. }
      * unfold loop_head, set_pc. case_decide;
          (apply (released_slot_ok (mkClient t (tokenFetchInProgress s) (procs s) (sent s) (answered s)) i (Fetching k));
           [by apply slot_ok_procs|done|done|by intros []|by intros []]).
      * apply (released_slot_ok s i (Fetching k)); [done..|by intros []|by intros []].
      * apply (released_slot_ok s i (Fetching k)); [done..|by intros []|by intros []].
      * apply (released_slot_ok s i (Fetching k)); [done..|by intros []|by intros []].
  - destruct p as [| | |k| ]; try done; intros [= <-]. apply loop_head_slot_ok; [done|]. rewrite Hi. by intros q [= <-] [].
Qed.

Lemma run_slot_ok s es s' : slot_ok s -> run s es = Some s' -> slot_ok s'.
Proof.
  revert s. induction es as [|e es IH]; intros s Hs; cbn; [by intros [= <-]|].
  destruct (step s e) as [s1|] eqn:E; [|done]. apply IH. by eapply step_slot_ok.
Qed.

(** ** What a coroutine ends with *)

Definition replies (s : client) (i : nat) : list (Response + error_code) :=
  omap (fun ir => if decide (ir.1 = i) then Some ir.2 else None) (answered s).

Definition requests (s : client) (i : nat) : nat := length (filter (fun it => it.1 = i) (sent s)).

(** Responses that all refuse the token. *)
Definition refused (rs : list (Response + error_code)) : Prop :=
  Forall (fun r => exists res, r = inl res /\ result res = unauthorized) rs.

(** The end of a coroutine whose requests were answered with [rs]. *)
Definition explained (e : ending) (rs : list (Response + error_code)) : Prop :=
  length rs <= 3 /\
  match e with
  | Returned res => exists us, rs = us ++ [inl res] /\ refused us /\ result res <> unauthorized
  | Failed ec => (exists us, rs = us ++ [inr ec] /\ refused us) \/
                 (refused rs /\ (ec = timed_out /\ length rs = 3 \/ ec = permission_denied /\ 1 <= length rs))
  | Threw => refused rs /\ 1 <= length rs
  end.

Definition told_pc (p : option pc) (rs : list (Response + error_code)) (n : nat) : Prop :=
  match p with
  | None => rs = [] /\ n = 0
  | Some (Requesting k) => refused rs /\ k = S (length rs) /\ k <= 3 /\ n = k
  | Some (Fetching k) | Some (Waiting k) | Some (Woken k) => refused rs /\ k = length rs /\ 1 <= k <= 3 /\ n = k
  | Some (Ended e) => explained e rs /\ n = length rs
  end.

Definition told (s : client) : Prop := forall i, told_pc (procs s !! i) (replies s i) (requests s i).

Lemma told_wake p rs n : told_pc p rs n -> told_pc (wake <$> p) rs n.
Proof. by destruct p as [[]|]. Qed.

Lemma replies_told_insert s s' i p :
  told s -> procs s' = <[i := p]> (procs s) -> (forall j, j <> i -> replies s' j = replies s j /\ requests s' j = requests s j) ->
  told_pc (Some p) (replies s' i) (requests s' i) -> told s'.
Proof.
  intros Hs Hp Hother Hi j. rewrite Hp. destruct (decide (j = i)) as [->|Hj]; [by rewrite lookup_insert_eq|].
  rewrite lookup_insert_ne by done. destruct (Hother j Hj) as [-> ->]. apply Hs.
Qed.

Lemma requests_send s i t j p :
  requests (mkClient t p (procs s) (sent s ++ [(i, token s)]) (answered s)) j = requests s j + (if decide (i = j) then 1 else 0).
Proof.
  unfold requests. cbn [sent]. rewrite filter_app, length_app. f_equal.
  rewrite filter_cons. cbn. by destruct (decide (i = j)).
Qed.

Lemma replies_answer s i r j t p m se :
  replies (mkClient t p m se (answered s ++ [(i, r)])) j = replies s j ++ (if decide (i = j) then [r] else []).
Proof. unfold replies. cbn [answered]. rewrite omap_app. cbn. by destruct (decide (i = j)). Qed.

Lemma loop_head_told s i k :
  told s -> refused (replies s i) -> k = length (replies s i) -> k <= 3 -> requests s i = k -> told (loop_head s i k).
Proof.
  intros Hs Hr Hk Hle Hn. unfold loop_head. case_decide.
  - eapply replies_told_insert; [exact Hs|reflexivity| |].
    + intros j Hj. split; [done|]. etransitivity; [apply (requests_send s i (token s) j (tokenFetchInProgress s))|].
      rewrite decide_False by done. lia.
    + cbn. split_and!; [done|by subst k|lia|].
      etransitivity; [apply (requests_send s i (token s) i (tokenFetchInProgress s))|]. rewrite decide_True by done. lia.
  - eapply replies_told_insert; [exact Hs|reflexivity|done|]. cbn. split; [|exact (eq_trans Hn Hk)]. split; [change (length (replies s i) <= 3); lia|].
    right. split; [done|]. left. split; [done|]. change (length (replies s i) = 3). lia.
Qed.

(** Waking the waiters changes nothing that is told. *)
Lemma release_told s t : slot_ok s -> told s -> told (release_slot (mkClient t (tokenFetchInProgress s) (procs s) (sent s) (answered s))).
Proof.
  intros Hok Hs i. rewrite release_lookup by by apply slot_ok_procs. apply told_wake, Hs.
Qed.

Lemma ended_told s s' i e :
  told s -> procs s' = <[i := Ended e]> (procs s) -> answered s' = answered s -> sent s' = sent s ->
  explained e (replies s i) -> requests s i = length (replies s i) -> told s'.
Proof.
  intros Hs Hp Ha Hse He Hn. eapply replies_told_insert; [exact Hs|exact Hp| |]; unfold replies, requests; rewrite Ha, Hse; done.
Qed.

Lemma refreshToken_told s i k :
  told_pc (Some (Waiting k)) (replies s i) (requests s i) -> (forall j, j <> i -> told_pc (procs s !! j) (replies s j) (requests s j)) ->
  told (refreshToken s i k).
Proof.
  intros Hi Hs j. unfold refreshToken. destruct (tokenFetchInProgress s); cbn [procs];
    (destruct (decide (j = i)) as [->|Hj]; [rewrite lookup_insert_eq; exact Hi|rewrite lookup_insert_ne by done; by apply Hs]).
Qed.

Lemma step_told s e s' : slot_ok s -> told s -> step s e = Some s' -> told s'.
Proof.
  intros Hok Hs. destruct e as [i|i r|i]; cbn; pose proof (Hs i) as Hi; destruct (procs s !! i) as [p|] eqn:E; try done.
  - intros [= <-]. destruct Hi as [Hr Hn]. apply loop_head_told; rewrite ?Hr; try done; [constructor|cbn; lia].
  - destruct p as [k|k| | | ]; try done; intros [= <-].
    + destruct Hi as (Hr & Hk & Hle & Hn). unfold got_response.
      set (s1 := mkClient (token s) (tokenFetchInProgress s) (procs s) (sent s) (answered s ++ [(i, r)])).
      assert (Hrep : replies s1 i = replies s i ++ [r]) by (unfold s1; rewrite replies_answer; by rewrite decide_True).
      assert (Hoth : forall j, j <> i -> replies s1 j = replies s j).
      { intros j Hj. unfold s1. rewrite replies_answer, decide_False by done. apply app_nil_r. }
      assert (Hlen : length (replies s1 i) = k) by (rewrite Hrep, length_app; cbn; lia).
      assert (Hend : forall e, explained e (replies s1 i) -> told (set_pc s1 i (Ended e))).
      { intros e He. apply (replies_told_insert s _ i (Ended e)); [done|done| |split; [exact He|]].
        - intros j Hj. split; [by apply Hoth|done].
        - change (requests s i = length (replies s1 i)). lia. }
      destruct r as [res|ec]; [case_decide as Hu|].
      * apply refreshToken_told; [|intros j Hj; rewrite Hoth by done; apply Hs].
        split_and!; [|by rewrite Hlen|lia|lia|exact Hn]. rewrite Hrep. apply Forall_app. split; [done|].
        constructor; [by exists res|constructor].
      * apply Hend. split; [lia|]. exists (replies s i). by rewrite Hrep.
      * apply Hend. split; [lia|]. left. exists (replies s i). by rewrite Hrep.
    + destruct Hi as (Hr & Hk & Hle & Hn).
      assert (Hend : forall e, explained e (replies s i) -> told (set_pc (release_slot s) i (Ended e))).
      { intros e He. apply (ended_told (release_slot s) _ i e); [|done..|exact He|exact (eq_trans Hn Hk)].
        pose proof (release_told s (token s) Hok Hs) as H. by destruct s. }
      unfold got_token. destruct r as [res|ec]; [case_decide; [destruct (x_auth_token res) as [t|]|destruct (known_error _)]|].
      * apply loop_head_told; try done; [by apply release_told|lia].
      * apply (ended_told s _ i Threw); try done; [|lia]. split; [lia|]. split; [done|lia].
      * apply Hend. split; [lia|]. right. split; [done|]. right. split; [done|lia].
      * apply Hend. split; [lia|]. split; [done|lia].
      * apply Hend. split; [lia|]. right. split; [done|]. right. split; [done|lia].
  - destruct p as [| | |k| ]; try done; intros [= <-]. destruct Hi as (Hr & Hk & Hle & Hn). apply loop_head_told; try done. lia.
Qed.

Lemma run_replies_told s es s' : slot_ok s -> told s -> run s es = Some s' -> told s'.
Proof.
  revert s. induction es as [|e es IH]; intros s Hok Hs; cbn; [by intros [= <-]|].
  destruct (step s e) as [s1|] eqn:E; [|done]. apply IH; [by eapply step_slot_ok|by eapply step_told].
Qed.

Lemma init_told t : told (init t).
Proof. intros i. cbn. rewrite lookup_empty. done. Qed.

(** What [execute] ends with: every coroutine sends at most three requests; a
    response is returned only when it does not refuse the token, and is the first
    such; an error is the one of the last request, or [timed_out] after three
    refusals, or [permission_denied] when no new token was to be had after a
    refusal; and only after a refusal can an exception leave.  At most one
    coroutine fetches a token at a time. *)
Theorem redfish_result t es s i e :
  run (init t) es = Some s -> procs s !! i = Some (Ended e) ->
  explained e (replies s i) /\ requests s i = length (replies s i) /\
  forall j j' k k', procs s !! j = Some (Fetching k) -> procs s !! j' = Some (Fetching k') -> j = j'.
Proof.
  intros Hrun Hi.
  pose proof (run_replies_told _ _ _ (init_slot_ok t) (init_told t) Hrun i) as H. rewrite Hi in H. destruct H as [He Hn].
  split_and!; [done..|]. intros j j' k k' Hj Hj'.
  by apply (fetching_one s (run_slot_ok _ _ _ (init_slot_ok t) Hrun) j j' (Fetching k) (Fetching k')).
Qed.

Definition ok_res (b : bytes) : Response := mkRes 200 None b.
Definition denied : Response := mkRes 401 None [].
Definition session (t : bytes) : Response := mkRes 201 (Some t) [].

(** Two coroutines are refused, one fetches, both succeed with the new token. *)
Definition sample_events : list event :=
  [Execute 0; Execute 1; Answer 0 (inl denied); Answer 1 (inl denied); Answer 0 (inl (session (str "new")));
   Resumed 1; Answer 1 (inl (ok_res (str "one"))); Answer 0 (inl (ok_res (str "zero")))].

Definition sample_end : client := default (init []) (run (init (str "old")) sample_events).

Lemma redfish_result_witness :
  explained (Returned (ok_res (str "one"))) (replies sample_end 1) /\ requests sample_end 1 = length (replies sample_end 1) /\
  forall j j' k k', procs sample_end !! j = Some (Fetching k) -> procs sample_end !! j' = Some (Fetching k') -> j = j'.
Proof. apply (redfish_result (str "old") sample_events sample_end 1); vm_compute; reflexivity. Defined.

Example sample_sent : sent sample_end = [(0, str "old"); (1, str "old"); (0, str "new"); (1, str "new")].
Proof. vm_compute. reflexivity. Qed.

(** ** Every coroutine comes to its end *)

(** A session that was created comes with a token. *)
Definition with_token (e : event) : Prop :=
  match e with Answer _ (inl res) => result res = created -> is_Some (x_auth_token res) | _ => True end.

Definition someone_fetches (s : client) : Prop :=
  is_Some (tokenFetchInProgress s) -> exists i k, procs s !! i = Some (Fetching k).

Lemma moved_fetches s s' i p :
  someone_fetches s -> tokenFetchInProgress s' = tokenFetchInProgress s -> procs s' = <[i := p]> (procs s) ->
  (forall k, procs s !! i <> Some (Fetching k)) -> someone_fetches s'.
Proof.
  intros Hs Ht Hp Hi. unfold someone_fetches. rewrite Ht, Hp. intros (j & k & Hj)%Hs. exists j, k.
  rewrite lookup_insert_ne; [done|]. intros ->. by apply (Hi k).
Qed.

Lemma loop_head_fetches s i k :
  someone_fetches s -> (forall k, procs s !! i <> Some (Fetching k)) -> someone_fetches (loop_head s i k).
Proof. intros Hs Hi. unfold loop_head. case_decide; by eapply moved_fetches. Qed.

Lemma step_fetches s e s' : someone_fetches s -> with_token e -> step s e = Some s' -> someone_fetches s'.
Proof.
  intros Hs He. destruct e as [i|i r|i]; cbn; destruct (procs s !! i) as [p|] eqn:E; try done.
  - intros [= <-]. apply loop_head_fetches; [done|]. congruence.
  - destruct p as [k|k| | | ]; try done; intros [= <-].
    + unfold got_response. destruct r as [res|ec]; [case_decide|].
      * unfold refreshToken. cbn [tokenFetchInProgress]. destruct (tokenFetchInProgress s) as [ws|] eqn:Et.
        -- intros _. destruct Hs as (j & k' & Hj); [by rewrite Et|]. exists j, k'. cbn. rewrite lookup_insert_ne; [done|congruence].
        -- intros _. exists i, k. cbn. apply lookup_insert_eq.
      * eapply (moved_fetches s); try done. congruence.
      * eapply (moved_fetches s); try done. congruence.
    + unfold got_token. destruct r as [res|ec]; [case_decide; [destruct (x_auth_token res) as [t|] eqn:Et|destruct (known_error _)]|].
      2:{ cbn in He. rewrite Et in He. by destruct He. }
      * intros Hf. unfold loop_head in Hf. by case_decide; destruct Hf.
      * by intros [].
      * by intros [].
      * by intros [].
  - destruct p as [| | |k| ]; try done; intros [= <-]. apply loop_head_fetches; [done|]. congruence.
Qed.

(** The steps a coroutine has before it. *)
Definition weight (p : pc) : nat :=
  match p with
  | Requesting k => 3 * (4 - k)
  | Fetching k | Waiting k => 3 * (4 - k) - 1
  | Woken k => 3 * (4 - k) - 2
  | Ended _ => 0
  end.

Definition work (s : client) : nat := map_sum weight (procs s).

Lemma wake_all_work ws (m : gmap nat pc) : map_sum weight (foldr (fun w m => alter wake w m) m ws) <= map_sum weight m.
Proof.
  induction ws as [|w ws IH]; cbn; [done|]. etransitivity; [|exact IH]. apply map_sum_alter. intros []; cbn; lia.
Qed.

Lemma moved_work s s' i p p' :
  procs s !! i = Some p -> procs s' = <[i := p']> (procs s) -> weight p' < weight p -> work s' < work s.
Proof. intros Hi Hp Hw. unfold work. rewrite Hp. pose proof (map_sum_insert weight (procs s) i p' p Hi). lia. Qed.

Lemma released_work s s' i p p' :
  slot_ok s -> procs s !! i = Some p -> wake p = p -> procs s' = <[i := p']> (procs (release_slot s)) -> weight p' < weight p ->
  work s' < work s.
Proof.
  intros Hok Hi Hwk Hp Hw. unfold work. rewrite Hp.
  pose proof (map_sum_insert weight (procs (release_slot s)) i p' p) as H. rewrite release_lookup, Hi in H by done. cbn [fmap option_fmap option_map] in H.
  rewrite Hwk in H. specialize (H eq_refl). pose proof (wake_all_work (default [] (tokenFetchInProgress s)) (procs s)) as H'.
  change (map_sum weight (procs (release_slot s)) <= map_sum weight (procs s)) in H'. lia.
Qed.

Definition internal (e : event) : bool := match e with Execute _ => false | _ => true end.

Lemma step_work s e s' : slot_ok s -> told s -> internal e = true -> step s e = Some s' -> work s' < work s.
Proof.
  intros Hok Hs He. destruct e as [i|i r|i]; [done|..]; cbn; pose proof (Hs i) as Hi; destruct (procs s !! i) as [p|] eqn:E; try done.
  - destruct p as [k|k| | | ]; try done; intros [= <-]; destruct Hi as (_ & Hk & Hle & _).
    + unfold got_response. destruct r as [res|ec]; [case_decide|].
      * unfold refreshToken. cbn [tokenFetchInProgress]. destruct (tokenFetchInProgress s);
          (eapply (moved_work s); [exact E|reflexivity|cbn; lia]).
      * eapply (moved_work s); [exact E|reflexivity|cbn; lia].
      * eapply (moved_work s); [exact E|reflexivity|cbn; lia].
    + unfold got_token. destruct r as [res|ec]; [case_decide; [destruct (x_auth_token res) as [t|] eqn:Et|destruct (known_error _)]|].
      * unfold loop_head. case_decide;
          (eapply (released_work s); [done|exact E|reflexivity|reflexivity|cbn; lia]).
      * eapply (moved_work s); [exact E|reflexivity|cbn; lia].
      * eapply (released_work s); [done|exact E|reflexivity|reflexivity|cbn; lia].
      * eapply (released_work s); [done|exact E|reflexivity|reflexivity|cbn; lia].
      * eapply (released_work s); [done|exact E|reflexivity|reflexivity|cbn; lia].
  - destruct p as [| | |k| ]; try done; intros [= <-]. destruct Hi as (_ & Hk & Hle & _). unfold loop_head.
    case_decide; (eapply (moved_work s); [exact E|reflexivity|cbn; lia]).
Qed.

(** Nothing happens any more: nobody waits for the network, and nobody was woken. *)
Definition quiet (s : client) : Prop := forall e, internal e = true -> step s e = None.

(** C22: all requests come to an end: as long as new sessions come with a token, the
    coroutines can together make only a bounded number of steps, and when they
    have made them every one has ended, none is left waiting for a token. *)
Theorem redfish_completes t es s :
  run (init t) es = Some s -> Forall with_token es ->
  (forall es' s', forallb internal es' = true -> run s es' = Some s' -> length es' <= work s) /\
  (quiet s -> forall i p, procs s !! i = Some p -> exists e, p = Ended e).
Proof.
  intros Hrun Htok.
  assert (Hok : slot_ok s) by (by eapply run_slot_ok; [apply init_slot_ok|]).
  assert (Hs : told s) by (by eapply run_replies_told; [apply init_slot_ok|apply init_told|]).
  assert (Hf : someone_fetches s).
  { assert (H0 : someone_fetches (init t)) by by intros [].
    clear Hok Hs. revert H0 Hrun. generalize (init t). induction Htok as [|e es He _ IH]; intros s0 H0; cbn; [by intros [= <-]|].
    destruct (step s0 e) as [s1|] eqn:E; [|done]. apply IH. by eapply step_fetches. }
  split.
  - clear Hf Hrun. intros es'. revert s Hok Hs. induction es' as [|e es' IH]; intros s Hok Hs s'; cbn; [lia|].
    intros [He Hes']%andb_true_iff. destruct (step s e) as [s1|] eqn:E; [|done]. intros Hrun.
    pose proof (step_work s e s1 Hok Hs He E).
    enough (length es' <= work s1) by lia.
    by eapply IH; [eapply step_slot_ok|eapply step_told|..].
  - intros Hq. assert (Hno : forall i k, procs s !! i <> Some (Fetching k)).
    { intros i k Hi. specialize (Hq (Answer i (inr eof)) eq_refl). cbn in Hq. by rewrite Hi in Hq. }
    intros i p Hi. destruct p as [k|k|k|k|e]; [..|eauto]; exfalso.
    + specialize (Hq (Answer i (inr eof)) eq_refl). cbn in Hq. by rewrite Hi in Hq.
    + by apply (Hno i k).
    + destruct Hf as (j & k' & Hj); [|by apply (Hno j k')].
      pose proof (waiters_listed s Hok i _ Hi I) as Hw. destruct (tokenFetchInProgress s); [done|]. by apply not_elem_of_nil in Hw.
    + specialize (Hq (Resumed i) eq_refl). cbn in Hq. by rewrite Hi in Hq.
Qed.

Lemma redfish_completes_witness :
  (forall es' s', forallb internal es' = true -> run sample_end es' = Some s' -> length es' <= work sample_end) /\
  (quiet sample_end -> forall i p, procs sample_end !! i = Some p -> exists e, p = Ended e).
Proof.
  apply (redfish_completes (str "old") sample_events sample_end); [vm_compute; reflexivity|].
  repeat (apply Forall_cons; split); [..|by apply Forall_nil];
    first [exact I | intros H; vm_compute in H; discriminate | intros _; eexists; reflexivity].
Defined.

(** ** A session without a token *)

Definition abandoned (s : client) : Prop :=
  is_Some (tokenFetchInProgress s) /\ forall i k, procs s !! i <> Some (Fetching k).

Lemma moved_abandoned s s' i p :
  abandoned s -> procs s' = <[i := p]> (procs s) -> is_Some (tokenFetchInProgress s') -> ~ is_fetching p ->
  (forall k, procs s !! i <> Some (Waiting k)) ->
  abandoned s' /\ forall j k, procs s !! j = Some (Waiting k) -> procs s' !! j = Some (Waiting k).
Proof.
  intros [_ Hno] Hp Ht Hf Hw. split; [split; [done|]|].
  - intros j k. rewrite Hp. intros [[-> ->]|[_ Hj]]%lookup_insert_Some; [by apply Hf|]. by apply (Hno j k).
  - intros j k Hj. rewrite Hp, lookup_insert_ne; [done|]. intros ->. by apply (Hw k).
Qed.

Lemma step_abandoned s e s' :
  abandoned s -> step s e = Some s' ->
  abandoned s' /\ forall j k, procs s !! j = Some (Waiting k) -> procs s' !! j = Some (Waiting k).
Proof.
  intros Hs. pose proof Hs as [[ws Ht] Hno].
  assert (Hloop : forall i k, (forall k, procs s !! i <> Some (Waiting k)) ->
    abandoned (loop_head s i k) /\ forall j k', procs s !! j = Some (Waiting k') -> procs (loop_head s i k) !! j = Some (Waiting k')).
  { intros i k Hi. unfold loop_head. case_decide; (eapply moved_abandoned; [exact Hs|reflexivity|cbn; rewrite Ht; eauto|by intros []|done]). }
  destruct e as [i|i r|i]; cbn; destruct (procs s !! i) as [p|] eqn:E; try done.
  - intros [= <-]. apply Hloop. congruence.
  - destruct p as [k|k| | | ]; try done; [|by destruct (Hno i k)]. intros [= <-]. unfold got_response.
    destruct r as [res|ec]; [case_decide|]; [unfold refreshToken; cbn [tokenFetchInProgress]; rewrite Ht|..];
      (eapply moved_abandoned; [exact Hs|reflexivity|cbn; rewrite ?Ht; eauto|by intros []|congruence]).
  - destruct p as [| | |k| ]; try done; intros [= <-]. apply Hloop. congruence.
Qed.

(** A session that is created without a token leaves the slot taken: the
    coroutines that wait for the token, now or later, wait for ever, and nobody
    fetches one again. *)
Theorem redfish_abandoned t :
  exists s, run (init t) [Execute 0; Execute 1; Answer 0 (inl denied); Answer 1 (inl denied);
                          Answer 0 (inl (mkRes 201 None []))] = Some s /\
    procs s !! 0 = Some (Ended Threw) /\
    forall es' s', run s es' = Some s' -> procs s' !! 1 = Some (Waiting 1) /\ forall i k, procs s' !! i <> Some (Fetching k).
Proof.
  set (s0 := mkClient t (Some [1]) (<[0 := Ended Threw]> {[1 := Waiting 1]}) [(0, t); (1, t)] [(0, inl denied); (1, inl denied)]).
  exists s0. split; [reflexivity|]. split; [reflexivity|]. assert (H0 : abandoned s0 /\ procs s0 !! 1 = Some (Waiting 1)).
  { split; [|reflexivity]. split; [by eexists|]. intros i k. unfold s0. cbn [procs].
    rewrite lookup_insert_Some, lookup_singleton_Some. naive_solver. }
  clearbody s0. intros es'. revert s0 H0. induction es' as [|e es' IH]; intros s [Ha Hw] s'; cbn; [intros [= <-]; split; [done|apply Ha]|].
  destruct (step s e) as [s1|] eqn:E; [|done]. apply IH. destruct (step_abandoned s e s1 Ha E) as [Ha' Hw']. auto.
Qed.

(** ** The cache of the provider *)

Section cache.

Context {json : Type} (parse : bytes -> option json) (message : error_code -> bytes).

(** The cache after requests that were answered in this order. *)
Definition cache_after (cs : list (bytes * (Response + error_code))) : gmap bytes json :=
  foldl (fun cache tr => (get_done parse message cache tr.1 tr.2).1) ∅ cs.

(** The cache holds for every target the first answer that was JSON, whatever its
    status, and holds it for ever; errors are not cached. *)
Theorem provider_cache (cs : list (bytes * (Response + error_code))) (target : bytes) :
  get_cached (cache_after cs) target =
  head (omap (fun tr => if decide (tr.1 = target) then
                          match tr.2 with inl res => parse (body res) | inr _ => None end
                        else None) cs).
Proof.
  unfold get_cached, cache_after. induction cs as [|[tg r] cs IH] using rev_ind; [done|].
  rewrite foldl_snoc, omap_app, head_app. rewrite <- IH. cbn [fst snd omap list_omap]. set (cache := foldl _ ∅ cs).
  unfold get_done, parsed. destruct r as [res|ec]; [destruct (parse (body res)) as [j|]|]; cbn.
  - destruct (decide (tg = target)) as [->|Hne].
    + destruct (cache !! target) as [j'|] eqn:E; [by rewrite E|]. by rewrite lookup_insert_eq.
    + destruct (cache !! tg); [by destruct (cache !! target)|]. rewrite lookup_insert_ne by done. by destruct (cache !! target).
  - destruct (decide _); by destruct (cache !! target).
  - destruct (decide _); by destruct (cache !! target).
Qed.

End cache.
