(* ===== verification/GraphqlServer.v ===== *)
(** * The Redfish GraphQL server: [examples/graphql_server/graphql_redfish_server.cpp]

    The server puts the components together: the command line configures it, the
    router of [Http.v] dispatches requests to the handlers defined here, and these
    run the executor of [TypedExecutor.v], wake the subscriptions of
    [Subscription.v], or start one.  Executors for other hosts are made when they
    are asked for and kept.  Parsing and printing JSON, loading the certificate and
    building the schema are parameters. *)

From S2P Require Import Prelude StdMap Subscription CommandLine Http GraphqlParser GraphqlExecutor TypedSchema TypedExecutor.

(** ** Setting up *)

Record RedfishProviderConfig := mkProviderConfig {
  chost : bytes;
  cport : bytes;
  username : bytes;
  password : bytes;
  clientCertFile : bytes;
  clientKeyFile : bytes;
}.

Record settings := mkSettings { providerConfig : RedfishProviderConfig; schema : TypedSchema; serverPort : Z }.

Inductive started := Started (s : settings) | Refused (message : bytes) | Thrown (e : ConsoleConfig.exn).

Definition authentication_required : bytes :=
  str "Authentication required: provide either --user/-u and --password/-w (basic auth) or --client-cert/-C and --client-key/-K (mTLS)".

Definition option_names : list bytes :=
  [str "--cert,-c"; str "--port,-p"; str "--host,-h"; str "--target-port,-t"; str "--user,-u"; str "--password,-w";
   str "--client-cert,-C"; str "--client-key,-K"].

Section setup.

Context (buildRedfishTypedSchema : TypedSchema + bytes) (use_certificate_chain_file use_private_key_file : bytes -> option bytes).

(** [run] up to the start of the server. *)
Definition run (argv : list bytes) : started :=
  match getArgs (parseCommandline argv) option_names with
  | [cert; port; host; targetPort; user; pass; clientCert; clientKey] =>
      let hasBasicAuth := bool_decide (is_Some user) && bool_decide (is_Some pass) in
      let hasMtls := bool_decide (is_Some clientCert) && bool_decide (is_Some clientKey) in
      if negb hasBasicAuth && negb hasMtls then Refused authentication_required
      else
        let cfg := mkProviderConfig (default (str "localhost") host) (default (str "443") targetPort)
                     (if hasBasicAuth then default [] user else []) (if hasBasicAuth then default [] pass else [])
                     (if hasMtls then default [] clientCert else []) (if hasMtls then default [] clientKey else []) in
        match buildRedfishTypedSchema with
        | inr e => Refused (str "Failed to build schema: " ++ e)
        | inl sch =>
            let pemFile := match cert with Some c => c ++ str "/server.pem" | None => str "/etc/ssl/certs/https/server.pem" end in
            match use_certificate_chain_file pemFile with
            | Some e => Refused (str "Failed to load certificate chain from '" ++ pemFile ++ str "': " ++ e)
            | None =>
                match use_private_key_file pemFile with
                | Some e => Refused (str "Failed to load private key from '" ++ pemFile ++ str "': " ++ e)
                | None =>
                    match port with
                    | None => Started (mkSettings cfg sch 8444)
                    | Some p => match parsePort p with
                                | CommandLine.Value z => Started (mkSettings cfg sch z)
                                | Unexpected e => Refused e
                                | Exception e => Thrown e
                                end
                    end
                end
            end
        end
  | _ => Refused []
  end.

End setup.

(** ** Executors *)

(** Executors are numbered in the order of their making; the first one is the
    default.  [hosts] are the hosts of their providers. *)
Record server := mkServer { hosts : list bytes; remoteExecutors : gmap bytes nat }.

Definition server_init (cfg : RedfishProviderConfig) : server := mkServer [chost cfg] ∅.

Definition resolveExecutor (cfg : RedfishProviderConfig) (s : server) (remoteIp : bytes) : server * nat :=
  if decide (remoteIp = [] \/ remoteIp = chost cfg) then (s, 0)
  else match remoteExecutors s !! remoteIp with
       | Some e => (s, e)
       | None => let e := length (hosts s) in (mkServer (hosts s ++ [remoteIp]) (<[remoteIp := e]> (remoteExecutors s)), e)
       end.

(** ** Handlers *)

Section handlers.

Context {double endpoint : Type}.
Implicit Types (req : Request bytes) (params : http_function endpoint).

(** What nlohmann::json parses ([None] when the result is discarded) and prints,
    with and without indentation, and the order of an [unordered_set]. *)
Context (jparse : bytes -> option (json double)) (dump2 dump : json double -> bytes) (walk : gset bytes -> list bytes).

(** The executors, by number, and the configuration. *)
Context (cfg : RedfishProviderConfig) (exec : nat -> bytes -> json double -> option (json double + bytes)).

(** [contains] and [operator[]]. *)
Definition member (j : json double) (key : string) : option (json double) :=
  match j with JObject l => object_get l (str key) | _ => None end.

Definition json_response (j : json double) (req : Request bytes) : Response :=
  make_success_response (dump2 j) 200 (req_version req) (str "application/json").

(** POST /graphql.  An exception of [get<std::string>()] or of the executor leaves
    the handler. *)
Definition graphql_post (s : server) req params : server * Http.outcome :=
  match jparse (req_body req) with
  | None => (s, Returns (make_bad_request_error (str "Invalid JSON in request body") (req_version req)))
  | Some requestBody =>
      match member requestBody "query" with
      | None => (s, Returns (make_bad_request_error (str "Missing 'query' field in request") (req_version req)))
      | Some (JString query) =>
          let variables := default (JObject []) (member requestBody "variables") in
          let '(s, e) := resolveExecutor cfg s (param params (str "remoteIp")) in
          (s, match exec e query variables with
              | Some (inl response) => Returns (json_response response req)
              | _ => ThrowsStd
              end)
      | Some _ => (s, ThrowsStd)
      end
  end.

(** GET /health. *)
Definition health req params : Http.outcome :=
  Returns (json_response (JObject (set_all [] [(str "status", JString (str "healthy"));
                                               (str "service", JString (str "Redfish GraphQL Server"))])) req).

(** POST /graphql/events: the fields that are fired, on the default executor. *)
Definition event_fields (body : json double) : option (gset bytes) :=
  match member body "fields" with
  | Some (JArray items) => Some (list_to_set (omap (fun item => match item with JString f => Some f | _ => None end) items))
  | _ => None
  end.

Definition events_post (sub : Subscription.state) req : Subscription.state * Http.outcome :=
  match jparse (req_body req) ≫= event_fields with
  | None => (sub, Returns (make_bad_request_error (str "Request body must be JSON with a 'fields' array") (req_version req)))
  | Some fields =>
      if decide (fields = ∅) then
        (sub, Returns (make_bad_request_error (str "'fields' array must contain at least one string") (req_version req)))
      else (notifyFieldsChanged sub (walk fields),
            Returns (json_response (JObject (set_all [] [(str "fired", JBool true);
                                                         (str "fields", JArray (map JString (walk fields)))])) req))
  end.

(** GET /graphql/subscribe: what the handler does with the writer. *)
Inductive chosen_trigger := OnEvent | OnTimer (seconds : Z).

Inductive sse_action := WriteOnce (text : bytes) | Subscribe (executor : nat) (query : bytes) (t : chosen_trigger) | SseThrows.

Definition sse_error (message : bytes) : sse_action :=
  WriteOnce (dump (JObject [(str "errors", JArray [JObject [(str "message", JString message)]])])).

Definition subscribe_sse (s : server) params : server * sse_action :=
  let query := param params (str "query") in
  if decide (query = []) then (s, sse_error (str "Missing 'query' query-string parameter"))
  else
    let '(s, e) := resolveExecutor cfg s (param params (str "remoteIp")) in
    (s, if decide (param params (str "trigger") = str "event") then Subscribe e query OnEvent
        else match parseInterval (param params (str "interval")) with
             | CommandLine.Value z => Subscribe e query (OnTimer z)
             | Unexpected m => sse_error m
             | Exception _ => SseThrows
             end).

(** ** The router *)

(** The handlers as they answer in a given state; [stats] and [schema_doc] are the
    documents of the two remaining handlers. *)
Definition router (s : server) (sub : Subscription.state) (stats schema_doc : json double)
  : option (HttpRouter endpoint bytes unit) :=
  add_post_handler router_init (str "/graphql") (fun req params => (graphql_post s req params).2) ≫= fun r =>
  add_get_handler r (str "/health") health ≫= fun r =>
  add_get_handler r (str "/schema") (fun req _ => Returns (json_response schema_doc req)) ≫= fun r =>
  add_get_handler r (str "/graphql/subscriptions/stats") (fun req _ => Returns (json_response stats req)) ≫= fun r =>
  add_post_handler r (str "/graphql/events") (fun req _ => (events_post sub req).2) ≫= fun r =>
  Some (add_sse_handler r (str "/graphql/subscribe") tt).

End handlers.

(** ** One executor for every host *)

Section executors.

Context (cfg : RedfishProviderConfig).

(** The host a request is for. *)
Definition target_host (remoteIp : bytes) : bytes := if decide (remoteIp = []) then chost cfg else remoteIp.

Record server_ok (s : server) : Prop := {
  hosts_default : hosts s !! 0 = Some (chost cfg);
  hosts_distinct : NoDup (hosts s);
  executors_hosts ip e : remoteExecutors s !! ip = Some e <-> hosts s !! e = Some ip /\ e <> 0;
}.

Lemma server_init_ok : server_ok (server_init cfg).
Proof.
  split; [done|apply NoDup_singleton|]. intros ip e. cbn. rewrite lookup_empty. split; [done|]. intros [H Hne].
  by destruct e as [|[]].
Qed.

Lemma resolveExecutor_ok s ip :
  server_ok s ->
  let '(s', e) := resolveExecutor cfg s ip in
  server_ok s' /\ hosts s' !! e = Some (target_host ip) /\ hosts s `prefix_of` hosts s'.
Proof.
  intros Hs. unfold resolveExecutor, target_host. destruct (decide (ip = [] \/ ip = chost cfg)) as [Hip|Hip].
  { split_and!; [done| |done]. rewrite (hosts_default _ Hs). destruct (decide (ip = [])); [done|]. destruct Hip; [done|]. by subst. }
  rewrite decide_False by tauto. destruct (remoteExecutors s !! ip) as [e|] eqn:E.
  { split_and!; [done| |done]. by apply (executors_hosts s Hs) in E as [? _]. }
  assert (Hnew : ip ∉ hosts s).
  { intros [e He]%list_elem_of_lookup. destruct (decide (e = 0)) as [->|Hne].
    - rewrite (hosts_default s Hs) in He. injection He as <-. tauto.
    - assert (remoteExecutors s !! ip = Some e) by by apply (executors_hosts s Hs). congruence. }
  assert (Hlen : length (hosts s) <> 0) by (pose proof (hosts_default s Hs) as H; destruct (hosts s); [done|cbn; lia]).
  split_and!; [split; cbn| |by exists [ip]].
  - rewrite lookup_app_l by lia. apply (hosts_default s Hs).
  - apply NoDup_app. split_and!; [apply (hosts_distinct s Hs)| |apply NoDup_singleton].
    intros x Hx Hx'%list_elem_of_singleton. by subst.
  - intros ip' e. rewrite lookup_insert_Some, (executors_hosts s Hs), lookup_app_Some, list_lookup_singleton_Some.
    split; [intros [[<- <-]|[Hne [Hl H0]]]; (split; [|done]); [right; split_and!; [lia|lia|done]|by left]|].
    intros [[Hl|(Hge & Hz & <-)] H0]; [right|left; split; [done|lia]]. split; [|done]. intros <-.
    by apply Hnew, list_elem_of_lookup_2 with e.
  - cbn. by rewrite lookup_app_r, Nat.sub_diag by lia.
Qed.

(** A sequence of requests, for the hosts that they name. *)
Fixpoint serve (s : server) (ips : list bytes) : server * list nat :=
  match ips with
  | [] => (s, [])
  | ip :: ips => let '(s, e) := resolveExecutor cfg s ip in
                 let '(s, es) := serve s ips in (s, e :: es)
  end.

Lemma serve_ok s ips :
  server_ok s ->
  let '(s', es) := serve s ips in
  server_ok s' /\ hosts s `prefix_of` hosts s' /\ Forall2 (fun e ip => hosts s' !! e = Some (target_host ip)) es ips.
Proof.
  revert s. induction ips as [|ip ips IH]; intros s Hs; cbn; [done|].
  pose proof (resolveExecutor_ok s ip Hs) as H1. destruct (resolveExecutor cfg s ip) as [s1 e]. destruct H1 as (Hs1 & He & Hp1).
  specialize (IH s1 Hs1). destruct (serve s1 ips) as [s2 es]. destruct IH as (Hs2 & Hp2 & Hes).
  split_and!; [done|by transitivity (hosts s1)|]. constructor; [|done]. by eapply prefix_lookup_Some.
Qed.

(** Every request is run by the executor of its host, which is made once and kept:
    two requests get the same executor exactly when they are for the same host, the
    default one when none is named. *)
Theorem executor_per_host (ips : list bytes) (i j : nat) (ip1 ip2 : bytes) (e1 e2 : nat) :
  ips !! i = Some ip1 -> ips !! j = Some ip2 ->
  (serve (server_init cfg) ips).2 !! i = Some e1 -> (serve (server_init cfg) ips).2 !! j = Some e2 ->
  hosts (serve (server_init cfg) ips).1 !! e1 = Some (target_host ip1) /\ (e1 = e2 <-> target_host ip1 = target_host ip2).
Proof.
  intros H1 H2 E1 E2. pose proof (serve_ok (server_init cfg) ips server_init_ok) as H.
  destruct (serve (server_init cfg) ips) as [s es]. destruct H as (Hs & _ & Hes). cbn in *.
  pose proof (Forall2_lookup_lr _ _ _ _ _ _ Hes E1 H1) as Hh1. pose proof (Forall2_lookup_lr _ _ _ _ _ _ Hes E2 H2) as Hh2.
  cbn in *. split; [done|]. split; [intros <-; congruence|]. intros Ht. rewrite Ht in Hh1.
  by apply (proj1 (NoDup_alt _) (hosts_distinct s Hs) e1 e2 _ Hh1).
Qed.

End executors.

Lemma executor_per_host_witness :
  let cfg := mkProviderConfig (str "bmc") (str "443") [] [] [] [] in
  hosts (serve cfg (server_init cfg) [str "a"; []; str "a"; str "bmc"]).1 !! 1 = Some (target_host cfg (str "a")) /\
  (1 = 1 <-> target_host cfg (str "a") = target_host cfg (str "a")).
Proof.
  intros cfg. apply (executor_per_host cfg [str "a"; []; str "a"; str "bmc"] 0 2 (str "a") (str "a") 1 1); vm_compute; reflexivity.
Defined.

(** ** A request from the target to the answer *)

Section routing.

Context {endpoint : Type}.

Definition post_routes (h1 h2 : handler endpoint bytes) : list (list bytes * verb * handler endpoint bytes) :=
  [([str "graphql"], verb_post, h1); ([str "graphql"; str "events"], verb_post, h2)].

(** The tables, whatever the handlers are. *)
Lemma registered (h1 h2 h3 h4 h5 : handler endpoint bytes) :
  exists gets, (add_post_handler (router_init (sse_handler := unit)) (str "/graphql") h1 ≫= fun r =>
    add_get_handler r (str "/health") h2 ≫= fun r =>
    add_get_handler r (str "/schema") h3 ≫= fun r =>
    add_get_handler r (str "/graphql/subscriptions/stats") h4 ≫= fun r =>
    add_post_handler r (str "/graphql/events") h5 ≫= fun r =>
    Some (add_sse_handler r (str "/graphql/subscribe") tt)) =
  Some (mkRouter None gets (entry <$> post_routes h1 h5) [] [] {[str "/graphql/subscribe" := tt]}).
Proof. eexists. vm_compute. reflexivity. Qed.

(** The first value of a parameter of the query string. *)
Definition first_value (kvs : list (bytes * bytes)) (name : bytes) : bytes :=
  match find_if (fun kv => bool_decide (kv.1 = name)) kvs with Some (_, kv) => kv.2 | None => [] end.

Lemma param_first_value kvs extra (ep : option endpoint) n name :
  Forall (fun p => pname p <> name) extra ->
  param (mkFunc n (((fun kv => mkParam kv.1 kv.2) <$> kvs) ++ extra) ep) name = first_value kvs name.
Proof.
  intros Hex. unfold param, first_value. cbn [_params]. induction kvs as [|[k v] kvs IH]; cbn.
  - rewrite (proj2 (find_if_None _ _)); [done|]. eapply Forall_impl; [exact Hex|]. intros p Hp. by apply bool_decide_false.
  - destruct (decide (k = name)) as [->|Hk]; [rewrite !bool_decide_true by done; by destruct v|].
    rewrite !bool_decide_false by done. cbn in IH. revert IH. by destruct (find_if _ (_ ++ _)) as [[]|], (find_if _ kvs) as [[]|].
Qed.

End routing.

Section endpoint.

Context {double endpoint : Type}.
Context (jparse : bytes -> option (json double)) (dump2 : json double -> bytes) (walk : gset bytes -> list bytes).
Context (cfg : RedfishProviderConfig) (exec : nat -> bytes -> json double -> option (json double + bytes)).

Abbreviation server_router := (router (endpoint := endpoint) jparse dump2 walk cfg exec).

(** The answer of POST /graphql to a body. *)
Definition graphql_answer (s : server) (remoteIp body : bytes) (ver : Z) : Response :=
  match jparse body with
  | None => make_bad_request_error (str "Invalid JSON in request body") ver
  | Some j =>
      match member j "query" with
      | None => make_bad_request_error (str "Missing 'query' field in request") ver
      | Some (JString q) =>
          match exec (resolveExecutor cfg s remoteIp).2 q (default (JObject []) (member j "variables")) with
          | Some (inl response) => make_success_response (dump2 response) 200 ver (str "application/json")
          | _ => make_internal_server_error (str "Internal Server Error") ver
          end
      | Some _ => make_internal_server_error (str "Internal Server Error") ver
      end
  end.

Lemma post_dispatch (h1 h2 : handler endpoint bytes) gets kvs ver body ep :
  Forall (fun kv => wf_key kv.1) kvs ->
  let req := mkRequest verb_post (str "/graphql" ++ quest :: query_string kvs) ver body in
  process_request (mkRouter None gets (entry <$> post_routes h1 h2) [] [] {[str "/graphql/subscribe" := tt]}) req ep =
  Some (h1 req (mkFunc (str "/graphql") (((fun kv => mkParam kv.1 kv.2) <$> kvs) ++ [bind_segment (str "graphql") (str "graphql")]) (Some ep))).
Proof.
  intros Hk req.
  rewrite (process_request_routes _ (post_routes h1 h2) req ep [str "graphql"] kvs); try done.
  - repeat constructor; try discriminate; apply (bool_decide_unpack _); vm_compute; exact I.
  - split; [discriminate|]. repeat constructor; apply (bool_decide_unpack _); vm_compute; exact I.
  - apply (bool_decide_unpack _). vm_compute. exact I.
Qed.

(** The whole way of a GraphQL request: whatever the body and the query
    string, a POST to /graphql reaches the executor of the host that the query
    string names, percent-decoded, with the query and the variables of the body;
    the response is printed as JSON with status 200, a body without a query is
    refused with status 400, and an exception is answered with status 500. *)
Theorem graphql_endpoint s sub stats doc kvs ver body ep :
  Forall (fun kv => wf_key kv.1) kvs ->
  exists r, server_router s sub stats doc = Some r /\
    handle_client r (mkRequest verb_post (str "/graphql" ++ quest :: query_string kvs) ver body) ep =
    Some (Reply (graphql_answer s (first_value kvs (str "remoteIp")) body ver)).
Proof.
  intros Hk.
  destruct (registered (fun req params => (graphql_post jparse dump2 cfg exec s req params).2) (health dump2)
    (fun req _ => Returns (json_response dump2 doc req)) (fun req _ => Returns (json_response dump2 stats req))
    (fun req (_ : http_function endpoint) => (events_post jparse dump2 walk sub req).2)) as [gets Hr].
  eexists. split; [exact Hr|]. unfold handle_client.
  rewrite post_dispatch by done. cbn [req_method req_version mbind option_bind].
  destruct (decide (verb_post = verb_get)) as [?|_]; [done|].
  set (req := mkRequest verb_post _ ver body).
  assert (Hex : Forall (fun p => pname p <> str "remoteIp") [bind_segment (str "graphql") (str "graphql")])
    by (constructor; [vm_compute; discriminate|constructor]).
  unfold graphql_post, graphql_answer, json_response. cbn [req_body req_version req].
  rewrite param_first_value by exact Hex. destruct (jparse body) as [j|]; [|done].
  destruct (member j "query") as [[]|]; try done.
  destruct (resolveExecutor cfg s _) as [s' e]. cbn [snd]. by destruct (exec e _ _) as [[]|].
Qed.

End endpoint.

Lemma graphql_endpoint_witness :
  let cfg := mkProviderConfig (str "bmc") (str "443") [] [] [] [] in
  let jparse := fun b : bytes => Some (JObject (double := bytes) [(str "query", JString b)]) in
  let exec := fun e q (_ : json bytes) => Some (inl (JString (q ++ [of_u8 (Z.of_nat e)]))) in
  let dump2 := fun j : json bytes => match j with JString t => t | _ => [] end in
  exists r, router (endpoint := unit) jparse dump2 elements cfg exec (server_init cfg) Subscription.init JNull JNull = Some r /\
    handle_client r (mkRequest verb_post (str "/graphql" ++ quest :: query_string [(str "remoteIp", str "a b")]) 11 (str "q")) tt =
    Some (Reply (graphql_answer jparse dump2 cfg exec (server_init cfg) (first_value [(str "remoteIp", str "a b")] (str "remoteIp")) (str "q") 11)).
Proof.
  intros cfg jparse exec dump2.
  apply (graphql_endpoint (endpoint := unit) jparse dump2 elements cfg exec (server_init cfg) Subscription.init JNull JNull
           [(str "remoteIp", str "a b")] 11 (str "q") tt).
  repeat constructor; try discriminate; apply (bool_decide_unpack _); vm_compute; exact I.
Defined.

(** The server does not start without credentials: it starts only with a user and
    a password, or with a client certificate and its key; the port is then the one
    given, at its value as an [int], or 8444. *)
Theorem run_authenticated build cert_ok key_ok argv st :
  run build cert_ok key_ok argv = Started st ->
  let arg o := extact (parseCommandline argv) (str o) in
  let c := providerConfig st in
  ((arg "--user,-u"%string = Some (username c) /\ arg "--password,-w"%string = Some (password c)) \/
   (arg "--client-cert,-C"%string = Some (clientCertFile c) /\ arg "--client-key,-K"%string = Some (clientKeyFile c))) /\
  match arg "--port,-p"%string with
  | None => serverPort st = 8444%Z
  | Some p => decimal (c_str p) = Some (serverPort st) /\ (- 2 ^ 31 <= serverPort st < 2 ^ 31)%Z
  end.
Proof.
  unfold run, getArgs, option_names. cbn [map].
  set (user := extact _ (str "--user,-u")). set (pass := extact _ (str "--password,-w")).
  set (cc := extact _ (str "--client-cert,-C")). set (ck := extact _ (str "--client-key,-K")).
  set (port := extact _ (str "--port,-p")).
  destruct (negb _ && negb _) eqn:Hauth; [done|]. destruct build as [sch|e]; [|done].
  destruct (cert_ok _); [done|]. destruct (key_ok _); [done|]. intros Hrun. set (c := providerConfig st).
  assert (Hc : (user = Some (username c) /\ pass = Some (password c)) \/
               (cc = Some (clientCertFile c) /\ ck = Some (clientKeyFile c))).
  { assert (Hcfg : providerConfig st = mkProviderConfig (default (str "localhost") (extact (parseCommandline argv) (str "--host,-h")))
        (default (str "443") (extact (parseCommandline argv) (str "--target-port,-t")))
        (if bool_decide (is_Some user) && bool_decide (is_Some pass) then default [] user else [])
        (if bool_decide (is_Some user) && bool_decide (is_Some pass) then default [] pass else [])
        (if bool_decide (is_Some cc) && bool_decide (is_Some ck) then default [] cc else [])
        (if bool_decide (is_Some cc) && bool_decide (is_Some ck) then default [] ck else [])).
    { destruct port; [|by injection Hrun as <-]. destruct (parsePort _); try done. by injection Hrun as <-. }
    unfold c. rewrite Hcfg. cbn [username password clientCertFile clientKeyFile].
    apply andb_false_iff in Hauth as [H%negb_false_iff|H%negb_false_iff]; rewrite H;
      apply andb_true_iff in H as [[? H1]%bool_decide_eq_true [? H2]%bool_decide_eq_true]; rewrite H1, H2; auto. }
  split; [exact Hc|]. clear Hc. destruct port as [p|]; [|by injection Hrun as <-].
  unfold parsePort, parseIntString in Hrun. repeat case_decide; try done. destruct (forallb is_digit _) eqn:Hd; [|done].
  assert (Hdec : exists z, decimal (c_str p) = Some z).
  { unfold decimal. destruct (ConsoleConfig.sign (c_str p)) as [neg ds]. cbn in *. rewrite bool_decide_true, Hd by done. eauto. }
  destruct Hdec as [z Hz]. rewrite (stoi_decimal _ _ Hz) in Hrun. destruct ((- 2 ^ 31 <=? z) && (z <? 2 ^ 31))%Z eqn:Hr; [|done].
  injection Hrun as <-. cbn. split; [done|lia].
Qed.
