(* ===== verification/IbmiConsole.v ===== *)
(** * The IBM i console: [examples/obmc_console/ibmi_emulator.hpp] and
    [ibmi_console_client.cpp]

    The emulator keeps a sign-on form and a menu, takes key records in VSLIP
    frames and answers each batch with a picture of its screen as a 5250 order
    stream.  The client turns keys into records and shows what it receives on the
    screen of [Screen5250.v].  [None] is an exception, or, in the client, a screen
    that is never finished. *)

From S2P Require Import Prelude Vslip Screen5250.

Open Scope nat_scope.

(** ** The emulator *)

Inductive Screen := signOn | menu.
Inductive Field := user | password | selection.

#[export] Instance Screen_eq_dec : EqDecision Screen.
Proof. solve_decision. Defined.
#[export] Instance Field_eq_dec : EqDecision Field.
Proof. solve_decision. Defined.

Definition validUser : bytes := str "DEMO".
Definition validPassword : bytes := str "PASSWORD".
Definition maxInputLength : nat := 20.

Record IbmiEmulator := mkEmulator {
  framer_ : VSlipFramer;
  screen_ : Screen;
  field_ : Field;
  user_ : bytes;
  password_ : bytes;
  selection_ : bytes;
  status_ : bytes;
  inputCursor_ : nat;
  closed_ : bool;
}.

Definition emulatorInit : IbmiEmulator :=
  mkEmulator framerInit signOn user [] [] [] (str "Enter DEMO and PASSWORD to sign on.") 0 false.

(** The first code of the table with this character, and a blank if there is none. *)
Definition asciiToEbcdic (ascii : byte) : byte :=
  if decide (ascii = x20) then x40
  else match find_if (fun c => bool_decide (c = ascii)) kEbcdicToAsciiTable with
       | Some (i, _) => of_u8 (Z.of_nat i)
       | None => x40
       end.

Definition writeText (row column : Z) (text : bytes) : bytes :=
  [x11; of_u8 row; of_u8 column] ++ map asciiToEbcdic text.

Definition setInputCursor (row column : Z) : bytes := [x11; of_u8 row; of_u8 column; x1d; x20; x13].

(** The texts of the screen, in the order in which they are written. *)
Definition texts (e : IbmiEmulator) : list (Z * Z * bytes) :=
  match screen_ e with
  | signOn =>
      [(1, 0, str "IBM i DUMMY CONSOLE                         SYSTEM: TESTIBMI");
       (2, 0, str "5250 emulator source for ibmi_console_client testing");
       (4, 0, str "                         Sign On");
       (7, 8, str "User . . . . . . . . . . . . . . . . . . . .:");
       (7, 56, user_ e);
       (9, 8, str "Password . . . . . . . . . . . . . . . . . .:");
       (9, 56, replicate (length (password_ e)) "*"%byte);
       (13, 0, status_ e);
       (20, 0, str "Enter=Next/Sign on   Up/Down=Change field");
       (22, 0, str "F3=Exit   F12=Clear fields")]%Z
  | menu =>
      [(1, 0, str "IBM i DUMMY CONSOLE                         SYSTEM: TESTIBMI");
       (4, 0, str "                        Main Menu");
       (7, 8, str "1. Work with user profiles");
       (9, 8, str "2. Work with jobs");
       (11, 8, str "3. Display system status");
       (14, 8, str "Selection . . . . . . . . . . . . . . . . . .:");
       (14, 56, selection_ e);
       (17, 0, status_ e);
       (20, 0, str "Type 1, 2, or 3 and press Enter.");
       (22, 0, str "F3=Exit   F12=Sign off")]%Z
  end.

Definition cursor_row (e : IbmiEmulator) : Z :=
  match screen_ e with
  | signOn => if decide (field_ e = user) then 7 else 9
  | menu => 14
  end.

Definition makeDisplay (e : IbmiEmulator) : bytes :=
  if closed_ e then encode [x40]
  else encode [x40] ++
       encode ([x11] ++ concat (map (fun t => writeText t.1.1 t.1.2 t.2) (texts e)) ++
               setInputCursor (cursor_row e) (56 + Z.of_nat (inputCursor_ e))).

(** The string that [input] points to. *)
Definition current_field (e : IbmiEmulator) : Field :=
  match screen_ e with signOn => if decide (field_ e = user) then user else password | menu => selection end.

Definition input (e : IbmiEmulator) : bytes :=
  match current_field e with user => user_ e | password => password_ e | selection => selection_ e end.

Definition set_input (e : IbmiEmulator) (s : bytes) (cursor : nat) : IbmiEmulator :=
  match current_field e with
  | user => mkEmulator (framer_ e) (screen_ e) (field_ e) s (password_ e) (selection_ e) (status_ e) cursor (closed_ e)
  | password => mkEmulator (framer_ e) (screen_ e) (field_ e) (user_ e) s (selection_ e) (status_ e) cursor (closed_ e)
  | selection => mkEmulator (framer_ e) (screen_ e) (field_ e) (user_ e) (password_ e) s (status_ e) cursor (closed_ e)
  end.

(** [s.erase(i, 1)] and [s.insert(i, 1, c)], which throw beyond the end. *)
Definition erase1 (s : bytes) (i : nat) : option bytes := if decide (i <= length s) then Some (delete i s) else None.
Definition insert1 (s : bytes) (i : nat) (c : byte) : option bytes :=
  if decide (i <= length s) then Some (take i s ++ c :: drop i s) else None.

(** The loop of the [default] case. *)
Fixpoint type_chars (s : bytes) (cursor : nat) (frame : bytes) : option (bytes * nat) :=
  match frame with
  | [] => Some (s, cursor)
  | b :: frame =>
      let character := ebcdicToAscii b in
      if decide (character <> x20 /\ length s < maxInputLength) then
        match insert1 s cursor character with Some s => type_chars s (S cursor) frame | None => None end
      else type_chars s cursor frame
  end.

(** The Enter key. *)
Definition enter (e : IbmiEmulator) : IbmiEmulator :=
  match screen_ e with
  | signOn =>
      if decide (field_ e = user) then
        mkEmulator (framer_ e) (screen_ e) password (user_ e) (password_ e) (selection_ e)
          (str "Enter password, then press Enter.") (length (password_ e)) (closed_ e)
      else if decide (user_ e = validUser /\ password_ e = validPassword) then
        mkEmulator (framer_ e) menu selection (user_ e) (password_ e) (selection_ e)
          (str "Sign on successful. Select an option.") 0 (closed_ e)
      else
        mkEmulator (framer_ e) (screen_ e) (field_ e) (user_ e) [] (selection_ e)
          (str "Sign on failed. Use DEMO / PASSWORD.") 0 (closed_ e)
  | menu =>
      if decide (selection_ e = str "1" \/ selection_ e = str "2" \/ selection_ e = str "3") then
        mkEmulator (framer_ e) (screen_ e) (field_ e) (user_ e) (password_ e) []
          (str "Option " ++ selection_ e ++ str " selected.") 0 (closed_ e)
      else
        mkEmulator (framer_ e) (screen_ e) (field_ e) (user_ e) (password_ e) (selection_ e)
          (str "Enter 1, 2, or 3.") (inputCursor_ e) (closed_ e)
  end.

(** F12. *)
Definition sign_off (e : IbmiEmulator) : IbmiEmulator :=
  match screen_ e with
  | menu => mkEmulator (framer_ e) signOn user [] [] [] (str "Signed off. Enter DEMO and PASSWORD.") 0 (closed_ e)
  | signOn => mkEmulator (framer_ e) (screen_ e) user [] [] (selection_ e) (str "Fields cleared.") 0 (closed_ e)
  end.

(** Up and Down. *)
Definition other_field (e : IbmiEmulator) : IbmiEmulator :=
  match screen_ e with
  | menu => e
  | signOn =>
      let f := if decide (field_ e = user) then password else user in
      mkEmulator (framer_ e) (screen_ e) f (user_ e) (password_ e) (selection_ e) (status_ e)
        (if decide (f = user) then length (user_ e) else length (password_ e)) (closed_ e)
  end.

Definition set_cursor (e : IbmiEmulator) (c : nat) : IbmiEmulator :=
  mkEmulator (framer_ e) (screen_ e) (field_ e) (user_ e) (password_ e) (selection_ e) (status_ e) c (closed_ e).

Definition close (e : IbmiEmulator) : IbmiEmulator :=
  mkEmulator (framer_ e) (screen_ e) (field_ e) (user_ e) (password_ e) (selection_ e) (status_ e) (inputCursor_ e) true.

Definition processFrame (e : IbmiEmulator) (frame : bytes) : option IbmiEmulator :=
  match frame with
  | [] => Some e
  | b :: _ =>
      if decide (b = xf1) then Some (enter e)
      else if decide (b = x33) then Some (close e)
      else if decide (b = x3c) then Some (sign_off e)
      else if decide (b = x15) then
        match inputCursor_ e with
        | O => Some e
        | S c => match erase1 (input e) c with Some s => Some (set_input e s c) | None => None end
        end
      else if decide (b = x1a) then Some (if decide (inputCursor_ e < length (input e)) then set_cursor e (S (inputCursor_ e)) else e)
      else if decide (b = x1b) then Some (set_cursor e (pred (inputCursor_ e)))
      else if decide (b = x18 \/ b = x19) then Some (other_field e)
      else match type_chars (input e) (inputCursor_ e) frame with
           | Some (s, c) => Some (set_input e s c)
           | None => None
           end
  end.

Fixpoint processFrames (e : IbmiEmulator) (fs : list bytes) : option IbmiEmulator :=
  match fs with
  | [] => Some e
  | f :: fs => match (if decide (f = []) then Some e else processFrame e f) with
               | Some e => processFrames e fs
               | None => None
               end
  end.

Definition set_framer (e : IbmiEmulator) (f : VSlipFramer) : IbmiEmulator :=
  mkEmulator f (screen_ e) (field_ e) (user_ e) (password_ e) (selection_ e) (status_ e) (inputCursor_ e) (closed_ e).

(** [process(input)]. *)
Definition emulator_process (e : IbmiEmulator) (raw : bytes) : option (IbmiEmulator * bytes) :=
  let '(f, fs, _) := feed (framer_ e) raw [] in
  match processFrames (set_framer e f) fs with
  | Some e => Some (e, makeDisplay e)
  | None => None
  end.

(** ** The client *)

Definition makeAidRecord (aid : byte) (row col : Z) : bytes :=
  [aid; of_u8 (Z.land row 63); of_u8 (Z.land col 63)].

(** The number of an ANSI function key, [ESC [ n ~].  It is an [int], whose
    overflow is undefined: [None]. *)
Fixpoint fn_number (n : Z) (s : bytes) : option Z :=
  match s with
  | c :: s => if is_digit c then
                let n := (n * 10 + (u8 c - 48))%Z in
                if (n <? 2 ^ 31)%Z then fn_number n s else None
              else Some n
  | [] => Some n
  end.

Definition fn_aid (n : Z) : option byte :=
  match n with
  | 5 => Some x6c | 6 => Some x6e
  | 11 => Some x31 | 12 => Some x32 | 13 => Some x33 | 14 => Some x34 | 15 => Some x35
  | 17 => Some x36 | 18 => Some x37 | 19 => Some x38 | 20 => Some x39 | 21 => Some x3a
  | 23 => Some x3b | 24 => Some x3c
  | _ => None
  end%Z.

Definition arrow (c : byte) : bytes :=
  if decide (c = "A"%byte) then [x18] else if decide (c = "B"%byte) then [x19]
  else if decide (c = "C"%byte) then [x1a] else if decide (c = "D"%byte) then [x1b] else [].

Definition printable (c : byte) : bool := ((32 <=? u8 c) && (u8 c <=? 126))%Z.

Definition mapInput (raw : bytes) (scr : Screen5250) : option bytes :=
  match raw with
  | [] => Some []
  | [c] =>
      Some (if decide (c = x0d \/ c = x0a) then makeAidRecord xf1 (inputRow scr) (inputCol scr)
            else if decide (c = x08 \/ c = x7f) then [x15]
            else if printable c then [asciiToEbcdic c] else [])
  | a :: b :: rest =>
      if decide (a = x1b /\ b = "["%byte /\ length rest = 1) then Some (arrow (default x00 (head rest)))
      else if decide (a = x1b /\ b = "["%byte /\ 2 <= length rest) then
        match fn_number 0 rest with
        | Some n => Some (match fn_aid n with
                          | Some aid => makeAidRecord aid (inputRow scr) (inputCol scr)
                          | None => []
                          end)
        | None => None
        end
      else if decide (a = x1b /\ b = "O"%byte /\ length rest = 1 /\ (80 <= u8 (default x00 (head rest)) <= 83)%Z) then
        Some (makeAidRecord (of_u8 (49 + u8 (default x00 (head rest)) - 80)) (inputRow scr) (inputCol scr))
      else Some (map asciiToEbcdic (List.filter printable raw))
  end.

(** The escape sequence Enter ~ . over the bytes read: [None] disconnects. *)
Inductive EscState := Normal | AfterNewline | AfterTilde.

Fixpoint escape (st : EscState) (buf : bytes) : option EscState :=
  match buf with
  | [] => Some st
  | c :: buf =>
      match st with
      | Normal => escape (if decide (c = x0d \/ c = x0a) then AfterNewline else Normal) buf
      | AfterNewline => escape (if decide (c = "~"%byte) then AfterTilde else Normal) buf
      | AfterTilde => if decide (c = "."%byte) then None else escape Normal buf
      end
  end.

(** One round of [sendLoop]: the bytes written. *)
Inductive sent := Sends (st : EscState) (frame : bytes) | Disconnects | Undefined.

Definition client_send (st : EscState) (buf : bytes) (scr : Screen5250) : sent :=
  match escape st buf with
  | None => Disconnects
  | Some st => match mapInput buf scr with
               | None => Undefined
               | Some payload => Sends st (if decide (payload = []) then [] else encode payload)
               end
  end.

Fixpoint show_frames (fuel : nat) (fs : list bytes) (scr : Screen5250) : option Screen5250 :=
  match fs with
  | [] => Some scr
  | f :: fs => match process fuel f scr with Some scr => show_frames fuel fs scr | None => None end
  end.

(** One round of [receiveLoop]: the framer and the screen. *)
Definition client_receive (fuel : nat) (f : VSlipFramer) (raw : bytes) (scr : Screen5250) : option (VSlipFramer * Screen5250) :=
  let '(f, fs, _) := feed f raw [] in
  match show_frames fuel fs scr with Some scr => Some (f, scr) | None => None end.

(** ** The emulator is safe *)

Record emu_ok (e : IbmiEmulator) : Prop := {
  menu_signed_on : screen_ e = menu -> field_ e = selection /\ user_ e = validUser /\ password_ e = validPassword;
  form_field : screen_ e = signOn -> field_ e <> selection;
  user_bound : length (user_ e) <= maxInputLength;
  password_bound : length (password_ e) <= maxInputLength;
  selection_bound : length (selection_ e) <= maxInputLength;
  status_bound : length (status_ e) <= 40;
  cursor_bound : inputCursor_ e <= length (input e);
}.

Lemma emulatorInit_ok : emu_ok emulatorInit.
Proof. split; cbn; try done; lia. Qed.

Lemma type_chars_ok s c frame :
  c <= length s -> length s <= maxInputLength ->
  exists s' c', type_chars s c frame = Some (s', c') /\ c' <= length s' /\ length s' <= maxInputLength.
Proof.
  revert s c. induction frame as [|b frame IH]; intros s c Hc Hl; cbn; [by exists s, c|].
  case_decide as H; [|by apply IH]. unfold insert1. rewrite decide_True by done. apply IH; rewrite length_app; cbn;
    rewrite length_take, length_drop; lia.
Qed.

Lemma input_bound e : emu_ok e -> length (input e) <= maxInputLength.
Proof. intros []. unfold input. by destruct (current_field e). Qed.

Lemma set_input_ok e s c : emu_ok e -> c <= length s -> length s <= maxInputLength -> emu_ok (set_input e s c).
Proof.
  intros [Hm Hf Hu Hp Hs Hst Hc] Hcs Hls. unfold set_input.
  destruct (current_field e) eqn:E; unfold current_field in E; split; cbn; try done;
    destruct (screen_ e) eqn:Esc; try done; unfold input, current_field; cbn; rewrite ?Esc;
    destruct (decide (field_ e = user)); cbn; try done.
Qed.

Lemma set_cursor_ok e c : emu_ok e -> c <= length (input e) -> emu_ok (set_cursor e c).
Proof. intros [] Hc. by split. Qed.

Ltac emu_split :=
  split; unfold input, current_field; cbn [screen_ field_ user_ password_ selection_ status_ inputCursor_ closed_ framer_] in *;
  try done; try (cbn; lia).

Lemma enter_ok e : emu_ok e -> emu_ok (enter e).
Proof.
  intros [Hm Hf Hu Hp Hs Hst Hc]. unfold enter. destruct (screen_ e) eqn:E.
  - case_decide as H1; [emu_split|]. case_decide as H2; [by destruct H2; emu_split|].
    emu_split.
  - destruct (Hm eq_refl) as (H1 & H2 & H3). case_decide as H4; emu_split; rewrite ?E; try done.
    + destruct H4 as [->|[->| ->]]; cbn; lia.
    + unfold input, current_field in Hc. by rewrite E in Hc.
Qed.

Lemma sign_off_ok e : emu_ok e -> emu_ok (sign_off e).
Proof.
  intros [Hm Hf Hu Hp Hs Hst Hc]. unfold sign_off. destruct (screen_ e) eqn:E; emu_split; rewrite ?E; try done; cbn; lia.
Qed.

Lemma other_field_ok e : emu_ok e -> emu_ok (other_field e).
Proof.
  intros Hok. pose proof Hok as [Hm Hf Hu Hp Hs Hst Hc]. unfold other_field. destruct (screen_ e) eqn:E; [|done].
  destruct (decide (field_ e = user)); emu_split; rewrite ?E; done.
Qed.

Lemma processFrame_ok e f : emu_ok e -> exists e', processFrame e f = Some e' /\ emu_ok e'.
Proof.
  intros Hok. pose proof (cursor_bound e Hok) as Hc. pose proof (input_bound e Hok) as Hl. unfold processFrame.
  destruct f as [|b f]; [by exists e|].
  destruct (decide (b = xf1)); [eexists; split; [done|by apply enter_ok]|].
  destruct (decide (b = x33)); [eexists; split; [done|by destruct Hok]|].
  destruct (decide (b = x3c)); [eexists; split; [done|by apply sign_off_ok]|].
  destruct (decide (b = x15)).
  { destruct (inputCursor_ e) as [|c]; [by exists e|]. unfold erase1. rewrite decide_True by lia. eexists. split; [done|].
    apply set_input_ok; [done|..]; rewrite length_delete by (apply lookup_lt_is_Some; lia); lia. }
  destruct (decide (b = x1a)).
  { eexists. split; [done|]. case_decide; [apply set_cursor_ok; [done|lia]|done]. }
  destruct (decide (b = x1b)); [eexists; split; [done|apply set_cursor_ok; [done|lia]]|].
  destruct (decide (b = x18 \/ b = x19)); [eexists; split; [done|by apply other_field_ok]|].
  destruct (type_chars_ok (input e) (inputCursor_ e) (b :: f)) as (s & c & -> & ? & ?); [lia..|].
  eexists. split; [done|]. by apply set_input_ok.
Qed.

Lemma processFrames_ok e fs : emu_ok e -> exists e', processFrames e fs = Some e' /\ emu_ok e'.
Proof.
  revert e. induction fs as [|f fs IH]; intros e Hok; cbn; [by exists e|].
  destruct (decide (f = [])); [by apply IH|]. destruct (processFrame_ok e f Hok) as (e' & -> & Hok'). by apply IH.
Qed.

(** The emulator fed with chunks: its state and what it answers. *)
Fixpoint emulator_run (e : IbmiEmulator) (raws : list bytes) : option (IbmiEmulator * list bytes) :=
  match raws with
  | [] => Some (e, [])
  | raw :: raws => match emulator_process e raw with
                   | None => None
                   | Some (e, out) => prod_map id (cons out) <$> emulator_run e raws
                   end
  end.

Lemma emulator_process_ok e raw : emu_ok e -> exists e' out, emulator_process e raw = Some (e', out) /\ emu_ok e'.
Proof.
  intros Hok. unfold emulator_process. destruct (feed (framer_ e) raw []) as [[f fs] n].
  destruct (processFrames_ok (set_framer e f) fs) as (e' & -> & Hok'); [by destruct Hok|]. eauto.
Qed.

Lemma emulator_run_ok e raws : emu_ok e -> exists e' outs, emulator_run e raws = Some (e', outs) /\ emu_ok e'.
Proof.
  revert e. induction raws as [|raw raws IH]; intros e Hok; cbn [emulator_run]; [by exists e, []|].
  destruct (emulator_process_ok e raw Hok) as (e1 & out & -> & Hok1).
  destruct (IH e1 Hok1) as (e2 & outs & -> & Hok2). by exists e2, (out :: outs).
Qed.

(** C25: the emulator never throws and never lets anyone in: whatever bytes arrive,
    in whatever chunks, it answers, its inputs stay within 20 characters with the
    cursor inside, and the menu is shown only while the right user and password
    have been entered. *)
Theorem emulator_safe (raws : list bytes) :
  exists e outs, emulator_run emulatorInit raws = Some (e, outs) /\
    inputCursor_ e <= length (input e) <= maxInputLength /\
    (screen_ e = menu -> user_ e = validUser /\ password_ e = validPassword).
Proof.
  destruct (emulator_run_ok emulatorInit raws emulatorInit_ok) as (e & outs & Hrun & Hok). exists e, outs.
  split_and!; [done|apply (cursor_bound e Hok)|by apply input_bound|]. intros H. by destruct (menu_signed_on e Hok H) as (_ & ? & ?).
Qed.

(** ** The client shows what the emulator displays *)

(** A character of the table is shown as itself, any other as a blank. *)
Definition shown (c : byte) : byte := if decide (c ∈ kEbcdicToAsciiTable) then c else x20.

Definition orders : bytes := [x11; x13; x1d; x3c; x3f; x2b; x00].

Lemma ebcdic_roundtrip c : ebcdicToAscii (asciiToEbcdic c) = shown c /\ asciiToEbcdic c ∉ orders.
Proof. split; [destruct c; vm_compute; reflexivity|]. apply (bool_decide_unpack _). destruct c; vm_compute; exact I. Qed.

Definition put_text (t : bytes) (s : Screen5250) : Screen5250 := foldl (fun s c => putChar (shown c) x20 s) s t.

Lemma order_loop_char fuel b rest s :
  b ∉ orders -> order_loop fuel (b :: rest) s = order_loop fuel rest (putChar (ebcdicToAscii b) x20 s).
Proof.
  unfold orders. rewrite !not_elem_of_cons. intros (? & ? & ? & ? & ? & ? & ? & _). cbn [order_loop].
  by rewrite !decide_False by done.
Qed.

Lemma order_loop_text fuel t rest s :
  order_loop fuel (map asciiToEbcdic t ++ rest) s = order_loop fuel rest (put_text t s).
Proof.
  revert s. induction t as [|c t IH]; intros s; [done|]. cbn [map app].
  destruct (ebcdic_roundtrip c) as [Hs Ho]. rewrite order_loop_char by done. rewrite IH, Hs. done.
Qed.

Lemma decodeSba_of_u8 row col :
  (0 <= row < 64)%Z -> (0 <= col < 256)%Z -> decodeSba (of_u8 row) (of_u8 col) = (row, col mod 64)%Z.
Proof.
  intros Hr Hc. unfold decodeSba. rewrite !u8_of_u8, !(Z.mod_small _ 256) by lia.
  change 63%Z with (Z.ones 6). rewrite !Z.land_ones by lia. by rewrite (Z.mod_small row).
Qed.

Lemma order_loop_writeText fuel row col t rest s :
  (0 <= row < 64)%Z -> (0 <= col < 64)%Z ->
  order_loop fuel (writeText row col t ++ rest) s = order_loop fuel rest (put_text t (setCursor row col s)).
Proof.
  intros Hr Hc. unfold writeText. cbn [app order_loop]. rewrite decide_True by done.
  rewrite decodeSba_of_u8, (Z.mod_small col) by lia. by rewrite order_loop_text.
Qed.

Lemma order_loop_inputCursor fuel row col s :
  (0 <= row < 64)%Z -> (0 <= col < 256)%Z ->
  order_loop fuel (setInputCursor row col) s =
  Some (Screen5250.setInputCursor (cursorRow (setCursor row (col mod 64) s)) (cursorCol (setCursor row (col mod 64) s))
          (setCursor row (col mod 64) s)).
Proof.
  intros Hr Hc. unfold setInputCursor. cbn [order_loop]. rewrite decide_True by done. by rewrite decodeSba_of_u8.
Qed.

Lemma clamp_id v hi : (0 <= v <= hi)%Z -> clamp v 0 hi = v.
Proof. intros H. unfold clamp. destruct (Z.ltb_spec v 0), (Z.ltb_spec hi v); lia. Qed.

(** A text on the screen: the cells from its place on. *)
Definition write_text (cs : list Cell5250) (t : Z * Z * bytes) : list Cell5250 :=
  list_inserts (at_index t.1.1 t.1.2) (map (fun c => mkCell (shown c) x20) t.2) cs.

Lemma cells_put_text t s :
  wf_screen s -> (pos s + Z.of_nat (length t) <= NCELLS)%Z ->
  cells (put_text t s) = list_inserts (Z.to_nat (pos s)) (map (fun c => mkCell (shown c) x20) t) (cells s) /\ wf_screen (put_text t s).
Proof.
  revert s. induction t as [|c t IH]; intros s Hs Hfit; [done|]. cbn [put_text foldl map list_inserts].
  assert (Hs' : wf_screen (putChar (shown c) x20 s)) by by apply wf_putChar.
  pose proof (pos_range s Hs) as Hp. cbn [length] in Hfit.
  destruct (decide (t = [])) as [->|Ht]; [split; [apply cells_putChar|done]|].
  assert (length t <> 0) by by destruct t.
  assert (Hpos : pos (putChar (shown c) x20 s) = (pos s + 1)%Z).
  { rewrite pos_putChar by done. destruct (Z.eqb_spec (pos s + 1) NCELLS); [lia|done]. }
  destruct (IH _ Hs') as [E Hw]; [lia|]. split; [|done]. etransitivity; [exact E|].
  rewrite Hpos, cells_putChar. replace (Z.to_nat (pos s + 1)) with (S (Z.to_nat (pos s))) by lia.
  symmetry. apply list_insert_inserts_lt. lia.
Qed.

Definition text_ok (t : Z * Z * bytes) : Prop :=
  (0 <= t.1.1 < 24)%Z /\ (0 <= t.1.2 < 64)%Z /\ (t.1.2 + Z.of_nat (length t.2) <= 80)%Z.

Lemma order_loop_texts fuel ts rest s :
  Forall text_ok ts -> wf_screen s ->
  exists s', order_loop fuel (concat (map (fun t => writeText t.1.1 t.1.2 t.2) ts) ++ rest) s = order_loop fuel rest s' /\
    wf_screen s' /\ cells s' = foldl write_text (cells s) ts.
Proof.
  intros Hts. revert s. induction Hts as [|[[row col] t] ts (Hr & Hc & Hl) Hts IH]; intros s Hs; [by exists s|].
  cbn [map concat fst snd foldl] in *. rewrite <- app_assoc, order_loop_writeText by lia.
  assert (Hs1 : wf_screen (setCursor row col s)) by by apply wf_setCursor.
  assert (Hpos : pos (setCursor row col s) = (row * COLS + col)%Z).
  { unfold pos, setCursor. cbn [cursorRow cursorCol]. unfold clamp, ROWS, COLS.
    destruct (Z.ltb_spec row 0), (Z.ltb_spec (24 - 1) row), (Z.ltb_spec col 0), (Z.ltb_spec (80 - 1) col); lia. }
  destruct (cells_put_text t (setCursor row col s) Hs1) as [E Hw]; [rewrite Hpos; unfold NCELLS, ROWS, COLS; lia|].
  destruct (IH _ Hw) as (s' & -> & Hs' & Hcells). exists s'. split_and!; [done..|]. rewrite Hcells, E. unfold write_text at 3.
  cbn [fst snd]. by rewrite Hpos.
Qed.

Lemma texts_ok e : emu_ok e -> Forall text_ok (texts e).
Proof.
  intros [Hm Hf Hu Hp Hs Hst Hc]. unfold maxInputLength in *. unfold texts.
  destruct (screen_ e); repeat (apply Forall_cons; split); try (by apply Forall_nil);
    unfold text_ok; cbn [fst snd]; rewrite ?length_replicate; (split; [lia|split; [lia|]]); try lia; vm_compute; congruence.
Qed.

(** The client over several reads. *)
Fixpoint client_run (fuel : nat) (f : VSlipFramer) (raws : list bytes) (scr : Screen5250) : option (VSlipFramer * Screen5250) :=
  match raws with
  | [] => Some (f, scr)
  | raw :: raws => match client_receive fuel f raw scr with Some (f, scr) => client_run fuel f raws scr | None => None end
  end.

Lemma show_frames_app fuel fs fs' scr :
  show_frames fuel (fs ++ fs') scr = match show_frames fuel fs scr with Some scr => show_frames fuel fs' scr | None => None end.
Proof. revert scr. induction fs as [|f fs IH]; intros scr; cbn; [done|]. by destruct (process fuel f scr). Qed.

Lemma feed_out f raw out :
  (feed f raw out).1 = ((feed f raw []).1.1, out ++ (feed f raw []).1.2).
Proof.
  unfold feed. cbn [fst snd]. induction raw as [|b raw IH] using rev_ind; [by rewrite app_nil_r|].
  rewrite !foldl_app. cbn [foldl]. destruct (foldl feed_byte (mkFeed f out 0) raw) as [[bf es] fr n].
  destruct (foldl feed_byte (mkFeed f [] 0) raw) as [[bf' es'] fr' n']. cbn in IH. injection IH as -> -> ->.
  unfold feed_byte. cbn. repeat (case_decide || case_match); cbn; by rewrite ?app_assoc.
Qed.

Lemma client_run_frames fuel f raws scr :
  client_run fuel f raws scr =
  match show_frames fuel (feed f (concat raws) []).1.2 scr with
  | Some scr => Some ((feed f (concat raws) []).1.1, scr)
  | None => None
  end.
Proof.
  revert f scr. induction raws as [|raw raws IH]; intros f scr; [done|]. cbn [client_run concat]. unfold client_receive.
  rewrite vslip_feed_app, feed_out. destruct (feed f raw []) as [[f1 fs] n]. cbn [fst snd].
  rewrite show_frames_app. by destruct (show_frames fuel fs scr) as [scr1|].
Qed.

(** C24: what the emulator displays is what the client shows, in whatever chunks it
    arrives: exactly the texts of the emulator's screen at their places, on an empty
    screen, and the input cursor in the row of the current field; its column is
    taken modulo 64, which is the place after the input only for inputs of up to
    seven characters. *)
Theorem display_shown (e : IbmiEmulator) (scr : Screen5250) (chunks : list bytes) :
  emu_ok e -> closed_ e = false -> wf_screen scr -> concat chunks = makeDisplay e ->
  exists scr', client_run 0 framerInit chunks scr = Some (framerInit, scr') /\
    cells scr' = foldl write_text (replicate (Z.to_nat NCELLS) blank) (texts e) /\
    inputRow scr' = cursor_row e /\ inputCol scr' = ((56 + Z.of_nat (inputCursor_ e)) mod 64)%Z.
Proof.
  intros Hok Hcl Hs Hch. rewrite client_run_frames, Hch. unfold makeDisplay. rewrite Hcl.
  set (d := [x11] ++ _). pose proof (foldl_encodes [[x40]; d] [] 0) as Hf. cbn [fmap list_fmap concat] in Hf. rewrite app_nil_r in Hf.
  rewrite app_nil_r in Hf. unfold feed. rewrite Hf. clear Hf. cbn [framer frames fst snd].
  change (flush d) with [d]. change (flush [x40]) with [[x40]]. cbn [app show_frames].
  change (process 0 [x40] scr) with (Some (clear scr)). unfold d. clear d. cbn [app process].
  pose proof (cursor_bound e Hok) as Hc. pose proof (input_bound e Hok) as Hl. unfold maxInputLength in Hl.
  assert (Hcs : wf_screen (clear scr)) by by apply wf_clear.
  destruct (order_loop_texts 0 (texts e) (setInputCursor (cursor_row e) (56 + Z.of_nat (inputCursor_ e))) (clear scr) (texts_ok e Hok) Hcs)
    as (s1 & E & Hw & Hcells).
  rewrite decide_False by discriminate. rewrite decide_True by done. rewrite E.
  assert (Hrow : (0 <= cursor_row e < 24)%Z) by (unfold cursor_row; destruct (screen_ e); [destruct (decide _)|]; lia).
  rewrite order_loop_inputCursor by lia. eexists. split; [done|].
  split; [|split].
  - cbn. rewrite Hcells. unfold clear. cbn [cells]. by rewrite (wf_cells scr Hs).
  - cbn [inputRow cursorRow Screen5250.setInputCursor setCursor]. rewrite !(clamp_id (cursor_row e)); unfold ROWS; lia.
  - cbn [inputCol cursorCol Screen5250.setInputCursor setCursor].
    pose proof (Z.mod_pos_bound (56 + Z.of_nat (inputCursor_ e)) 64 ltac:(lia)). rewrite !(clamp_id ((56 + Z.of_nat (inputCursor_ e)) mod 64)); unfold COLS; lia.
Qed.

(** ** Typing *)

(** The characters of a text that can be entered. *)
Definition enterable (t : bytes) : bytes := List.filter (fun c => bool_decide (shown c <> x20)) t.

Lemma type_chars_spec t s cur :
  cur <= length s -> length s <= maxInputLength ->
  let typed := take (maxInputLength - length s) (enterable t) in
  type_chars s cur (map asciiToEbcdic t) = Some (take cur s ++ typed ++ drop cur s, cur + length typed).
Proof.
  revert s cur. induction t as [|c t IH]; intros s cur Hc Hl; cbn [map type_chars enterable List.filter].
  { rewrite take_nil. cbn. by rewrite take_drop, Nat.add_0_r. }
  destruct (ebcdic_roundtrip c) as [-> _]. fold (enterable t). destruct (bool_decide (shown c <> x20)) eqn:Hs.
  - apply bool_decide_eq_true in Hs. assert (Hsh : shown c = c) by (unfold shown in *; by destruct (decide (c ∈ _))).
    case_decide as Hd.
    + destruct Hd as [_ Hlt]. unfold insert1. rewrite decide_True by done. rewrite IH.
      * rewrite length_app. cbn [length]. rewrite length_take, length_drop, Nat.min_l by lia.
        replace (maxInputLength - (cur + S (length s - cur))) with (maxInputLength - length s - 1) by lia.
        destruct (maxInputLength - length s) as [|k] eqn:Ek; [lia|]. cbn [take app length].
        replace (S k - 1) with k by lia. f_equal. f_equal; [|lia].
        rewrite take_app_ge, length_take, Nat.min_l by (rewrite ?length_take; lia).
        replace (S cur - cur) with 1 by lia. cbn [take]. rewrite take_0, <- app_assoc. cbn [app]. f_equal. rewrite Hsh. f_equal. f_equal.
        rewrite drop_app_ge, length_take, Nat.min_l by (rewrite ?length_take; lia). by replace (S cur - cur) with 1 by lia.
      * rewrite length_app. cbn. rewrite length_take, length_drop. lia.
      * rewrite length_app. cbn. rewrite length_take, length_drop. lia.
    + rewrite IH by done. replace (maxInputLength - length s) with 0 by (destruct (decide (length s < maxInputLength)); [tauto|lia]).
      by rewrite !take_0.
  - apply bool_decide_eq_false in Hs. rewrite decide_False by tauto. by apply IH.
Qed.

Definition keys : bytes := [xf1; x33; x3c; x15; x1a; x1b; x18; x19].

Lemma printable_not_key c : printable c = true -> c <> "3"%byte -> asciiToEbcdic c ∉ keys.
Proof.
  intros Hp Hc. assert (H : bool_decide (printable c = true -> c <> "3"%byte -> asciiToEbcdic c ∉ keys) = true)
    by (destruct c; vm_compute; reflexivity). by apply bool_decide_eq_true in H; apply H.
Qed.

Lemma mapInput_text c t scr :
  Forall (fun b => printable b = true) (c :: t) -> mapInput (c :: t) scr = Some (map asciiToEbcdic (c :: t)).
Proof.
  intros Hp. pose proof Hp as [Hc Ht]%Forall_cons.
  assert (Hesc : c <> x1b) by (intros ->; vm_compute in Hc; done).
  assert (Hfilter : List.filter printable (c :: t) = c :: t).
  { clear -Hp. induction Hp as [|b l Hb Hl IH]; [done|]. cbn. by rewrite Hb, IH. }
  unfold mapInput. destruct t as [|b t].
  - rewrite decide_False by (intros [->| ->]; vm_compute in Hc; done).
    rewrite decide_False by (intros [->| ->]; vm_compute in Hc; done). by rewrite Hc.
  - rewrite !decide_False by tauto. by rewrite Hfilter.
Qed.

Lemma feed_one_frame p : p <> [] -> feed framerInit (encode p) [] = (framerInit, [p], 1).
Proof.
  intros Hp. pose proof (foldl_encodes [p] [] 0) as H. cbn in H. rewrite !app_nil_r in H. unfold feed. rewrite H.
  unfold flush. by rewrite decide_False.
Qed.

(** What is typed at the client is entered in the emulator: the characters of the
    text, other than blanks and those the code page lacks, at the cursor of the
    current field, up to 20 characters in all, and nothing else changes; a text that
    begins with a 3 is the exception. *)
Theorem typing_entered (e : IbmiEmulator) (scr : Screen5250) (st st' : EscState) (c : byte) (t frame : bytes) :
  emu_ok e -> framer_ e = framerInit -> Forall (fun b => printable b = true) (c :: t) -> c <> "3"%byte ->
  client_send st (c :: t) scr = Sends st' frame ->
  let typed := take (maxInputLength - length (input e)) (enterable (c :: t)) in
  let e' := set_input e (take (inputCursor_ e) (input e) ++ typed ++ drop (inputCursor_ e) (input e))
              (inputCursor_ e + length typed) in
  emulator_process e frame = Some (e', makeDisplay e').
Proof.
  intros Hok Hf Hp H3 Hsend typed e'. unfold client_send in Hsend. destruct (escape st (c :: t)) as [st1|]; [|done].
  rewrite mapInput_text in Hsend by done. rewrite decide_False in Hsend by done. injection Hsend as _ <-.
  unfold emulator_process. rewrite Hf, feed_one_frame by done.
  replace (set_framer e framerInit) with e by (unfold set_framer; rewrite <- Hf; by destruct e).
  cbn [processFrames]. rewrite decide_False by done.
  assert (Hk : asciiToEbcdic c ∉ keys) by (apply printable_not_key; [by apply Forall_cons in Hp as [? _]|done]).
  unfold keys in Hk. rewrite !not_elem_of_cons in Hk. destruct Hk as (? & ? & ? & ? & ? & ? & ? & ? & _).
  pose proof (type_chars_spec (c :: t) (input e) (inputCursor_ e) (cursor_bound e Hok) (input_bound e Hok)) as Ht. cbn [map] in Ht.
  cbn [map processFrame]. rewrite !decide_False by tauto. rewrite Ht. done.
Qed.

Lemma typing_entered_witness :
  let e' := mkEmulator framerInit signOn user (str "DEMO") [] [] (str "Enter DEMO and PASSWORD to sign on.") 4 false in
  emulator_process emulatorInit (encode (map asciiToEbcdic (str "DE MO"))) = Some (e', makeDisplay e').
Proof.
  apply (typing_entered emulatorInit screenInit Normal Normal "D" (str "E MO")).
  - exact emulatorInit_ok.
  - reflexivity.
  - repeat constructor.
  - discriminate.
  - vm_compute. reflexivity.
Defined.

(** The code of the character 3 is the code of the Enter key: the third option of
    the menu cannot be typed. *)
Theorem three_is_enter (e : IbmiEmulator) (scr : Screen5250) :
  client_send Normal (str "3") scr = Sends Normal (encode [xf1]) /\ processFrame e [xf1] = Some (enter e).
Proof. split; vm_compute; reflexivity. Qed.

Lemma display_shown_witness :
  exists scr', client_run 0 framerInit [take 100 (makeDisplay emulatorInit); drop 100 (makeDisplay emulatorInit)] screenInit
      = Some (framerInit, scr') /\
    cells scr' = foldl write_text (replicate (Z.to_nat NCELLS) blank) (texts emulatorInit) /\
    inputRow scr' = cursor_row emulatorInit /\ inputCol scr' = ((56 + Z.of_nat (inputCursor_ emulatorInit)) mod 64)%Z.
Proof.
  apply (display_shown emulatorInit screenInit [take 100 (makeDisplay emulatorInit); drop 100 (makeDisplay emulatorInit)]).
  - exact emulatorInit_ok.
  - reflexivity.
  - exact wf_screenInit.
  - vm_compute. reflexivity.
Defined.

(** Signing on, key by key. *)
Example sign_on :
  (fun r => (screen_ r.1, user_ r.1)) <$>
  emulator_run emulatorInit [encode (map asciiToEbcdic (str "DEMO")); encode [xf1; x07; x3c];
                             encode (map asciiToEbcdic (str "PASS")); encode (map asciiToEbcdic (str "WORD")); encode [xf1]]
  = Some (menu, str "DEMO").
Proof. vm_compute. reflexivity. Qed.
