(* ===== verification/ConsoleRouter.v ===== *)
(** * The console server: [ConsoleRouter] and the device loop of
    [examples/obmc_console/console_server_multi.cpp]

    What a device writes is kept in a ring buffer and sent to every client; a
    client that connects is sent the contents of the ring buffer first.  Clients
    are numbered; a write to a socket takes as many bytes as the socket accepts,
    which is part of the event.  What the device is, is a parameter of the state:
    one that is written to, or the emulator of [IbmiConsole.v]. *)

From S2P Require Import Prelude IbmiConsole.

(** ** State *)

(** [boost::circular_buffer<char>] of a capacity: inserting at the end pushes the
    oldest bytes out. *)
Definition ring_insert (capacity : nat) (ring data : bytes) : bytes :=
  let all := ring ++ data in drop (length all - capacity) all.

Inductive device := Opened (written : list bytes) | Emulated (e : IbmiEmulator) | NoDevice.

(** [received], [output] and [joined] are the history: what the clients were sent,
    what the device has written, and how much of it when each client connected. *)
Record console := mkConsole {
  ringBuffer_ : bytes;
  clients_ : list nat;
  isOpen : gmap nat bool;
  fdsToClose_ : list Z;
  closedFds : list Z;
  dev : device;
  stop_requested : bool;
  received : gmap nat bytes;
  output : bytes;
  joined : gmap nat nat;
}.

Definition consoleInit (d : device) : console := mkConsole [] [] ∅ [] [] d false ∅ [] ∅.

Definition capacity : nat := Z.to_nat (128 * 1024).

#[global] Opaque capacity.

(** [streamer.write(data)] to a client, whose socket accepts so many bytes, or all. *)
Definition write_to (r : gmap nat bytes) (i : nat) (accepted : option nat) (data : bytes) : gmap nat bytes :=
  <[i := default [] (r !! i) ++ match accepted with Some n => take n data | None => data end]> r.

Definition set_clients (s : console) (cs : list nat) : console :=
  mkConsole (ringBuffer_ s) cs (isOpen s) (fdsToClose_ s) (closedFds s) (dev s) (stop_requested s) (received s)
    (output s) (joined s).

(** [operator()(streamer)] up to its first read; [fd] is what the D-Bus interface
    gave away. *)
Definition connect (s : console) (i : nat) (fd : option Z) (accepted : option nat) : console :=
  mkConsole (ringBuffer_ s) (clients_ s ++ [i]) (<[i := true]> (isOpen s))
    (match fd with Some z => if (0 <=? z)%Z then fdsToClose_ s ++ [z] else fdsToClose_ s | None => fdsToClose_ s end)
    (closedFds s) (dev s) (stop_requested s)
    (if decide (ringBuffer_ s = []) then received s else write_to (received s) i accepted (ringBuffer_ s))
    (output s) (<[i := length (output s)]> (joined s)).

Definition is_open (s : console) (i : nat) : bool := default false (isOpen s !! i).

Definition removeClient (s : console) (i : nat) : console := set_clients s (List.filter (fun j => bool_decide (j <> i)) (clients_ s)).

Definition removeClosedClients (s : console) : console :=
  mkConsole (ringBuffer_ s) (List.filter (is_open s) (clients_ s)) (isOpen s) []
    (closedFds s ++ List.filter (fun fd => (0 <=? fd)%Z) (fdsToClose_ s)) (dev s) (stop_requested s) (received s)
    (output s) (joined s).

(** [broadcastToAll(data)]: one write for every client, in their order. *)
Definition broadcastToAll (s : console) (accepted : nat -> option nat) (data : bytes) : console :=
  let s := removeClosedClients s in
  mkConsole (ringBuffer_ s) (clients_ s) (isOpen s) (fdsToClose_ s) (closedFds s) (dev s) (stop_requested s)
    (foldl (fun r i => write_to r i (accepted i) data) (received s) (clients_ s))
    (output s) (joined s).

Definition disconnectAllClients (s : console) : console :=
  mkConsole (ringBuffer_ s) [] (foldr (fun i m => <[i := false]> m) (isOpen s) (clients_ s)) (fdsToClose_ s) (closedFds s)
    (dev s) (stop_requested s) (received s) (output s) (joined s).

(** ** Steps *)

Inductive read_error := operation_aborted | eof | other_error.

#[export] Instance read_error_eq_dec : EqDecision read_error.
Proof. solve_decision. Defined.

Definition shouldTerminateConnection (ec : read_error) (open : bool) : bool :=
  if decide (ec = operation_aborted) then negb open else true.

(** The bytes of the device go to the ring buffer and to the clients. *)
Definition publish (s : console) (accepted : nat -> option nat) (data : bytes) : console :=
  broadcastToAll
    (mkConsole (ring_insert capacity (ringBuffer_ s) data) (clients_ s) (isOpen s) (fdsToClose_ s) (closedFds s) (dev s)
       (stop_requested s) (received s) (output s ++ data) (joined s)) accepted data.

Definition set_dev (s : console) (d : device) : console :=
  mkConsole (ringBuffer_ s) (clients_ s) (isOpen s) (fdsToClose_ s) (closedFds s) d (stop_requested s) (received s)
    (output s) (joined s).

(** What a client sent, [None] if the emulator throws. *)
Definition client_data (s : console) (accepted : nat -> option nat) (data : bytes) : option console :=
  match dev s with
  | Opened written => Some (set_dev s (Opened (written ++ [data])))
  | Emulated e =>
      match emulator_process e data with
      | None => None
      | Some (e, output) =>
          let s := publish (set_dev s (Emulated e)) accepted output in
          Some (if closed_ e then disconnectAllClients s else s)
      end
  | NoDevice => Some s
  end.

Inductive event :=
  | Connects (i : nat) (fd : option Z) (accepted : option nat)
  | ClientReads (i : nat) (data : bytes) (accepted : nat -> option nat)
  | ClientFails (i : nat) (ec : read_error)
  | DeviceReads (data : bytes) (accepted : nat -> option nat)
  | DeviceFails
  | Stop.

Definition set_stop (s : console) : console :=
  mkConsole (ringBuffer_ s) (clients_ s) (isOpen s) (fdsToClose_ s) (closedFds s) (dev s) true (received s)
    (output s) (joined s).

(** The end of a round of the loop that reads from a client: it goes on unless a
    stop was requested. *)
Definition loop_test (s : console) (i : nat) : console := if stop_requested s then removeClient s i else s.

(** [None] when an event cannot happen, or a handler throws.  A read of the device
    that is pending when a stop is requested still ends. *)
Definition step (s : console) (ev : event) : option console :=
  match ev with
  | Connects i fd n =>
      match isOpen s !! i with
      | Some _ => None
      | None => Some (loop_test (connect s i fd n) i)
      end
  | ClientReads i data acc =>
      if decide (data = []) then Some (removeClient s i)
      else match client_data s acc data with Some s => Some (loop_test s i) | None => None end
  | ClientFails i ec =>
      if shouldTerminateConnection ec (is_open s i) then Some (removeClient s i) else Some (loop_test s i)
  | DeviceReads data acc => if decide (data = []) then Some s else Some (publish s acc data)
  | DeviceFails => Some (disconnectAllClients (set_stop s))
  | Stop => Some (set_stop s)
  end.

Fixpoint run (s : console) (es : list event) : option console :=
  match es with
  | [] => Some s
  | e :: es => match step s e with Some s => run s es | None => None end
  end.

(** ** What a client is sent *)

Lemma ring_insert_suffix cap (all data : bytes) :
  ring_insert cap (drop (length all - cap) all) data = drop (length (all ++ data) - cap) (all ++ data).
Proof.
  unfold ring_insert. rewrite !length_app, length_drop.
  destruct (decide (length all <= cap)).
  - replace (length all - cap) with 0 by lia. rewrite drop_0. f_equal. lia.
  - rewrite <- (drop_app_le all data (length all - cap)) by lia. rewrite drop_drop. f_equal. lia.
Qed.

(** The bytes of a write that a socket takes. *)
Definition taken (n : option nat) (data : bytes) : bytes := match n with Some n => take n data | None => data end.

Section sent.

(** [R a b]: what was sent is [a] where [b] was due; [took] is what is known of the
    writes. *)
Context (R : bytes -> bytes -> Prop) (took : option nat -> Prop).
Hypothesis R_nil : R [] [].
Hypothesis R_app : forall a b n data, took n -> R a b -> R (a ++ taken n data) (b ++ data).

Record console_ok (s : console) : Prop := {
  ring_ok : ringBuffer_ s = drop (length (output s) - capacity) (output s);
  clients_distinct : NoDup (clients_ s);
  clients_known i : i ∈ clients_ s -> is_Some (isOpen s !! i);
  fresh_received i : isOpen s !! i = None -> received s !! i = None;
  clients_sent i : i ∈ clients_ s -> exists k, joined s !! i = Some k /\ k <= length (output s) /\
    R (default [] (received s !! i)) (drop (k - capacity) (output s));
}.

Lemma consoleInit_ok d : console_ok (consoleInit d).
Proof. split; cbn; try done; [constructor|intros i []%not_elem_of_nil..]. Qed.

(** Fewer clients. *)
Lemma fewer_clients s s' :
  console_ok s -> ringBuffer_ s' = ringBuffer_ s -> output s' = output s -> received s' = received s -> joined s' = joined s ->
  (forall i, is_Some (isOpen s !! i) <-> is_Some (isOpen s' !! i)) -> (forall i, i ∈ clients_ s' -> i ∈ clients_ s) -> NoDup (clients_ s') ->
  console_ok s'.
Proof.
  intros [H1 H2 H3 H4 H5] Er Eo Ere Ej Hopen Hsub Hnd. split.
  - by rewrite Er, Eo.
  - done.
  - intros i Hi. by apply Hopen, H3, Hsub.
  - intros i Hi. rewrite Ere. apply H4. rewrite eq_None_not_Some in *. by rewrite Hopen.
  - intros i Hi. rewrite Ere, Eo, Ej. by apply H5, Hsub.
Qed.

Lemma filter_in {A} (p : A -> bool) (l : list A) x : x ∈ List.filter p l <-> x ∈ l /\ p x = true.
Proof. by rewrite !list_elem_of_In, filter_In. Qed.

Lemma NoDup_List_filter {A} (p : A -> bool) (l : list A) : NoDup l -> NoDup (List.filter p l).
Proof. rewrite !NoDup_ListNoDup. apply List.NoDup_filter. Qed.

Lemma filtered_ok s p : console_ok s -> console_ok (set_clients s (List.filter p (clients_ s))).
Proof.
  intros Hs. apply (fewer_clients s); try done; cbn.
  - by intros i [? _]%filter_in.
  - apply NoDup_List_filter, (clients_distinct s Hs).
Qed.

Lemma loop_test_ok s i : console_ok s -> console_ok (loop_test s i).
Proof. intros Hs. unfold loop_test. destruct (stop_requested s); [by apply filtered_ok|done]. Qed.

Lemma write_all_lookup acc cs data (r : gmap nat bytes) i :
  NoDup cs ->
  foldl (fun r i => write_to r i (acc i) data) r cs !! i =
  if decide (i ∈ cs) then Some (default [] (r !! i) ++ taken (acc i) data) else r !! i.
Proof.
  intros Hnd. revert r. induction Hnd as [|c cs Hc Hnd IH]; intros r; cbn [foldl].
  { by rewrite decide_False by apply not_elem_of_nil. }
  rewrite IH. unfold write_to. destruct (decide (i = c)) as [->|Hi].
  - rewrite decide_False, decide_True by (done || by left). by rewrite lookup_insert_eq.
  - rewrite lookup_insert_ne by done. destruct (decide (i ∈ cs)); [rewrite decide_True by by right|rewrite decide_False by set_solver]; done.
Qed.

Lemma connect_ok s i fd n : console_ok s -> took n -> isOpen s !! i = None -> console_ok (connect s i fd n).
Proof.
  intros Hs Hn Hi.
  assert (Hni : i ∉ clients_ s) by (intros H; apply (clients_known s Hs) in H as [? H]; congruence).
  assert (Hri : received s !! i = None) by by apply (fresh_received s Hs).
  assert (Hrec : forall j, (if decide (ringBuffer_ s = []) then received s else write_to (received s) i n (ringBuffer_ s)) !! j
                           = if decide (j = i /\ ringBuffer_ s <> []) then Some (taken n (ringBuffer_ s)) else received s !! j).
  { intros j. unfold write_to. destruct (decide (ringBuffer_ s = [])) as [E|E].
    - by rewrite decide_False by tauto.
    - destruct (decide (j = i)) as [->|Hj]; [rewrite decide_True by done; by rewrite lookup_insert_eq, Hri|].
      rewrite decide_False by tauto. by rewrite lookup_insert_ne. }
  split; cbn.
  - apply (ring_ok s Hs).
  - apply NoDup_app. split_and!; [apply (clients_distinct s Hs)| |apply NoDup_singleton].
    intros j Hj ->%list_elem_of_singleton. done.
  - intros j [Hj| ->%list_elem_of_singleton]%elem_of_app; [|by rewrite lookup_insert_eq].
    destruct (decide (i = j)) as [<-|]; [by rewrite lookup_insert_eq|]. rewrite lookup_insert_ne by done. by apply (clients_known s Hs).
  - intros j Hj. rewrite Hrec. destruct (decide (i = j)) as [<-|Hij]; [by rewrite lookup_insert_eq in Hj|].
    rewrite lookup_insert_ne in Hj by done. rewrite decide_False by (intros [-> _]; done). by apply (fresh_received s Hs).
  - intros j Hj. rewrite Hrec. destruct (decide (j = i)) as [->|Hji].
    + exists (length (output s)). rewrite lookup_insert_eq. split_and!; [done|lia|].
      rewrite <- (ring_ok s Hs). destruct (decide (i = i /\ ringBuffer_ s <> [])) as [|He].
      * cbn. change (R ([] ++ taken n (ringBuffer_ s)) ([] ++ ringBuffer_ s)). by apply R_app.
      * rewrite Hri. cbn. destruct (ringBuffer_ s); [done|]. destruct He. done.
    + apply elem_of_app in Hj as [Hj|Hj%list_elem_of_singleton]; [|done].
      rewrite decide_False by tauto. rewrite lookup_insert_ne by done. by apply (clients_sent s Hs).
Qed.

Lemma publish_ok s acc data : console_ok s -> (forall i, took (acc i)) -> console_ok (publish s acc data).
Proof.
  intros Hs Hacc. unfold publish, broadcastToAll, removeClosedClients. cbn [ringBuffer_ clients_ isOpen fdsToClose_ closedFds dev stop_requested received output joined].
  match goal with |- context [List.filter ?q (clients_ s)] => set (p := q) end.
  assert (Hnd : NoDup (List.filter p (clients_ s))) by apply NoDup_List_filter, (clients_distinct s Hs).
  split; cbn [ringBuffer_ clients_ isOpen fdsToClose_ closedFds dev stop_requested received output joined].
  - rewrite (ring_ok s Hs). apply ring_insert_suffix.
  - done.
  - intros i [Hi _]%filter_in. by apply (clients_known s Hs).
  - intros i Hi. rewrite write_all_lookup by done. rewrite decide_False; [by apply (fresh_received s Hs)|].
    intros [Hin _]%filter_in. apply (clients_known s Hs) in Hin as [? ?]. congruence.
  - intros i Hi. pose proof Hi as [Hin _]%filter_in. destruct (clients_sent s Hs i Hin) as (k & Hk & Hle & Hr).
    exists k. rewrite length_app. split_and!; [done|lia|]. rewrite write_all_lookup by done. rewrite decide_True by done.
    cbn. rewrite drop_app_le by lia. by apply R_app.
Qed.

(** What is known of the writes of an event. *)
Definition took_event (ev : event) : Prop :=
  match ev with
  | Connects _ _ n => took n
  | ClientReads _ _ acc | DeviceReads _ acc => forall i, took (acc i)
  | _ => True
  end.

Lemma foldr_close_lookup (cs : list nat) (m : gmap nat bool) i :
  (forall j, j ∈ cs -> is_Some (m !! j)) ->
  is_Some (m !! i) <-> is_Some (foldr (fun i m => <[i := false]> m) m cs !! i).
Proof.
  induction cs as [|c cs IH]; intros Hcs; cbn; [done|].
  rewrite IH by (intros j Hj; apply Hcs; by right). destruct (decide (i = c)) as [->|Hi].
  - rewrite lookup_insert_eq. split; [done|]. intros _. apply IH; [intros j Hj; apply Hcs; by right|]. apply Hcs. left.
  - by rewrite lookup_insert_ne.
Qed.

Lemma disconnect_ok s : console_ok s -> console_ok (disconnectAllClients s).
Proof.
  intros Hs. apply (fewer_clients s); try done; cbn.
  - intros i. apply foldr_close_lookup, (clients_known s Hs).
  - by intros i []%not_elem_of_nil.
  - constructor.
Qed.

Lemma same_clients_ok s d st :
  console_ok s -> console_ok (mkConsole (ringBuffer_ s) (clients_ s) (isOpen s) (fdsToClose_ s) (closedFds s) d st (received s) (output s) (joined s)).
Proof. intros []. by split. Qed.

Lemma step_ok s ev s' : console_ok s -> took_event ev -> step s ev = Some s' -> console_ok s'.
Proof.
  intros Hs Hw. destruct ev as [i fd n|i data acc|i ec|data acc| |]; cbn [step took_event] in *.
  - destruct (isOpen s !! i) eqn:Hi; [done|]. intros [= <-]. by apply loop_test_ok, connect_ok.
  - destruct (decide (data = [])); [intros [= <-]; by apply filtered_ok|]. unfold client_data.
    destruct (dev s) as [w|e|]; [intros [= <-]; apply loop_test_ok; by apply same_clients_ok| |intros [= <-]; by apply loop_test_ok].
    destruct (emulator_process e data) as [[e' out]|]; [|done]. intros [= <-]. apply loop_test_ok.
    assert (Hp : console_ok (publish (set_dev s (Emulated e')) acc out)) by (apply publish_ok; [by apply same_clients_ok|done]).
    destruct (closed_ e'); [by apply disconnect_ok|done].
  - destruct (shouldTerminateConnection _ _); intros [= <-]; [by apply filtered_ok|by apply loop_test_ok].
  - destruct (decide (data = [])); intros [= <-]; [done|by apply publish_ok].
  - intros [= <-]. by apply disconnect_ok, same_clients_ok.
  - intros [= <-]. by apply same_clients_ok.
Qed.

Lemma history_ok d es s : run (consoleInit d) es = Some s -> Forall took_event es -> console_ok s.
Proof.
  intros Hrun Hw. revert Hrun. pose proof (consoleInit_ok d) as H0. revert H0. generalize (consoleInit d).
  induction Hw as [|ev es Hev Hw IH]; intros s0 H0; cbn [run]; [by intros [= <-]|].
  destruct (step s0 ev) as [s1|] eqn:E; [|done]. apply IH. by eapply step_ok.
Qed.

End sent.

(** Writes that the sockets take whole. *)
Definition whole : event -> Prop := took_event (fun n => n = None).


Definition sample_events : list event :=
  [Connects 0 None None; DeviceReads (str "login: ") (fun _ => None); Connects 1 None None;
   DeviceReads (str "root") (fun _ => None)].

Definition sample_console : console :=
  mkConsole (str "login: root") [0; 1] (<[1 := true]> {[0 := true]}) [] [] (Opened []) false
    (<[1 := str "login: root"]> {[0 := str "login: root"]}) (str "login: root") (<[1 := 7]> {[0 := 0]}).


(** The history is sent with one write: a socket that takes only a part of it
    leaves a gap before what comes next. *)
Theorem history_cut :
  (fun s => received s !! 1) <$>
  run (consoleInit (Opened [])) [DeviceReads (str "login: ") (fun _ => None); Connects 1 None (Some 3); DeviceReads (str "root") (fun _ => None)]
  = Some (Some (str "logroot")).
Proof. vm_compute. reflexivity. Qed.

(** ** The emulated console *)

Definition dev_ok (s : console) : Prop := match dev s with Emulated e => emu_ok e | _ => True end.

Lemma step_dev_ok s ev :
  dev_ok s -> match step s ev with Some s' => dev_ok s' | None => match ev with ClientReads _ _ _ | ClientFails _ _ | Stop => False | _ => True end end.
Proof.
  intros Hs. assert (Hloop : forall s i, dev (loop_test s i) = dev s) by (intros s0 i; unfold loop_test; by destruct (stop_requested s0)).
  unfold dev_ok in *. destruct ev as [i fd n|i data acc|i ec|data acc| |]; cbn [step].
  - destruct (isOpen s !! i); [done|]. by rewrite Hloop.
  - destruct (decide (data = [])); [done|]. unfold client_data. destruct (dev s) as [w|e|] eqn:E; [by rewrite Hloop| |by rewrite Hloop, E].
    destruct (emulator_process_ok e data Hs) as (e' & out & -> & Hok). rewrite Hloop. by destruct (closed_ e').
  - destruct (shouldTerminateConnection _ _); [done|]. by rewrite Hloop.
  - by destruct (decide (data = [])).
  - done.
  - done.
Qed.

(** No client can crash the emulated console: whatever clients send, in any
    order, the handler of every read ends without an exception. *)
Theorem emulated_console_safe es s i data acc :
  run (consoleInit (Emulated emulatorInit)) es = Some s -> is_Some (step s (ClientReads i data acc)).
Proof.
  intros Hrun. enough (Hs : dev_ok s).
  { pose proof (step_dev_ok s (ClientReads i data acc) Hs) as H. by destruct (step s _). }
  revert Hrun. assert (H0 : dev_ok (consoleInit (Emulated emulatorInit))) by apply emulatorInit_ok. revert H0.
  generalize (consoleInit (Emulated emulatorInit)). induction es as [|ev es IH]; intros s0 H0; cbn [run]; [by intros [= <-]|].
  pose proof (step_dev_ok s0 ev H0) as H1. destruct (step s0 ev) as [s1|]; [|done]. by apply IH.
Qed.
