(* ===== verification/PropertyWatcher.v ===== *)
(** * Waiting for D-Bus signals: [include/dbusproperty_watcher.hpp]

    A watcher hands each signal to the coroutine that waits for it in [watch] or
    [watchOnce].  One [event] is a handler run by the [io_context]: a signal, a
    timer, or the return of a callback that was suspended.  Setting the values of
    the promise resumes the coroutine inside the handler.  A timer that is
    cancelled after it was due still runs its handler. *)

From S2P Require Import Prelude.

(** ** The properties of a signal: [include/sdbus_calls.hpp] *)

Inductive bus_error :=
  | operation_aborted
  | timed_out
  | no_such_device
  | not_found
  | invalid_argument
  | other_bus_error (n : nat).

#[export] Instance bus_error_eq_dec : EqDecision bus_error.
Proof. solve_decision. Defined.

Inductive variant := VBool (b : bool) | VInt32 (z : Z) | VString (s : bytes) | VUint32 (z : Z).

Definition PropertyMap : Type := gmap bytes variant.

(** [std::get<std::string>], if it is the alternative held. *)
Definition as_string (v : variant) : option bytes := match v with VString s => Some s | _ => None end.

Section properties.

(** The alternative asked for, and [getDefaultValue<T>()]. *)
Context {T : Type} (as_T : variant -> option T) (T0 : T).

Definition getPropertyFromMap (ec : option bus_error) (propMap : PropertyMap) (argname : bytes) : option bus_error * T :=
  match ec with
  | Some e => (Some e, T0)
  | None =>
      match propMap !! argname with
      | None => (Some not_found, T0)
      | Some v => match as_T v with None => (Some invalid_argument, T0) | Some x => (None, x) end
      end
  end.

(** [getPropertiesFromMap] for one property. *)
Definition getPropertiesFromMap (propMap : PropertyMap) (argname : bytes) : option bus_error * T :=
  getPropertyFromMap None propMap argname.

(** What [handlePropertyChange] passes to [notifyChange]. *)
Definition handlePropertyChange (changedProperties : PropertyMap) (propName : bytes) : option bus_error * T :=
  let '(ec, value) := getPropertiesFromMap changedProperties propName in
  match ec with
  | Some e => if decide (e = not_found) then (None, value) else (Some e, T0)
  | None => (None, value)
  end.

End properties.

(** ** The watcher *)

(** Callbacks that return nothing, and callbacks that return whether to go on. *)
Inductive handler_kind := WatchHandler | WatchHandlerBool.

Inductive timer := Armed | Due | Dead.

#[export] Instance timer_eq_dec : EqDecision timer.
Proof. solve_decision. Defined.

Section watcher.

Context {T : Type} (T0 : T).

(** Where the coroutine is suspended: in [watch], waiting for the handler or for
    the callback, [last] when it leaves the loop after it; or in [watchOnce].
    The timer, if there is one, is known by its number. *)
Inductive pc :=
  | Idle
  | WatchWait (k : handler_kind) (t : option nat)
  | WatchCall (k : handler_kind) (t : option nat) (last : bool)
  | OnceWait (t : nat).

Inductive output :=
  | Callback (ec : option bus_error) (value : option T)
  | WatchReturn
  | OnceReturn (value : option T).

Record state := mkState {
  propHandler : bool;
  timers : list timer;
  proc : pc;
  log : list output;
}.

Definition init : state := mkState false [] Idle [].

Definition set_propHandler (s : state) (b : bool) : state := mkState b (timers s) (proc s) (log s).
Definition set_proc (s : state) (p : pc) : state := mkState (propHandler s) (timers s) p (log s).
Definition emit (s : state) (o : output) : state := mkState (propHandler s) (timers s) (proc s) (log s ++ [o]).
Definition set_timer (s : state) (i : nat) (t : timer) : state := mkState (propHandler s) (<[i := t]> (timers s)) (proc s) (log s).

(** [startTimeout] on a new timer. *)
Definition startTimeout (s : state) : state * nat :=
  (mkState (propHandler s) (timers s ++ [Armed]) (proc s) (log s), length (timers s)).

(** [timer->cancel()]. *)
Definition cancel (s : state) (i : nat) : state :=
  match timers s !! i with Some Armed => set_timer s i Dead | _ => s end.

Definition cancel_opt (s : state) (t : option nat) : state := match t with Some i => cancel s i | None => s end.

(** [makeWatchHandler()] and the suspension that follows. *)
Definition makeWatchHandler (s : state) (p : pc) : state := set_proc (set_propHandler s true) p.

(** [watch(callback, timeout)] up to its first suspension. *)
Definition watch (s : state) (k : handler_kind) (timeout : bool) : state :=
  if timeout then let '(s, i) := startTimeout s in makeWatchHandler s (WatchWait k (Some i))
  else makeWatchHandler s (WatchWait k None).

(** The end of [watch]. *)
Definition watch_end (s : state) (t : option nat) : state := set_proc (emit (cancel_opt s t) WatchReturn) Idle.

(** The loop of [watch] from the result of [h()] on. *)
Definition watch_resume (s : state) (k : handler_kind) (t : option nat) (ec : option bus_error) (res : T) : state :=
  match ec with
  | None => set_proc (emit s (Callback None (Some res))) (WatchCall k t false)
  | Some operation_aborted => set_proc (emit s (Callback (Some timed_out) None)) (WatchCall k t true)
  | Some no_such_device => makeWatchHandler s (WatchWait k t)
  | Some e => set_proc (emit (set_propHandler s false) (Callback (Some e) None)) (WatchCall k t true)
  end.

(** The loop of [watch] from the return of the callback on. *)
Definition watch_called (s : state) (k : handler_kind) (t : option nat) (last r : bool) : state :=
  if last then watch_end s t
  else match k with
       | WatchHandlerBool => if r then makeWatchHandler s (WatchWait k t) else watch_end s t
       | WatchHandler => makeWatchHandler s (WatchWait k t)
       end.

(** [watchOnce(timeout)]. *)
Definition watchOnce (s : state) : state :=
  let '(s, i) := startTimeout s in makeWatchHandler s (OnceWait i).

Definition once_resume (s : state) (i : nat) (ec : option bus_error) (res : T) : state :=
  let s := set_propHandler (cancel s i) false in
  set_proc (emit s (OnceReturn (match ec with Some _ => None | None => Some res end))) Idle.

(** [promise_ptr->setValues(ec, value)]. *)
Definition setValues (s : state) (ec : option bus_error) (value : T) : state :=
  match proc s with
  | WatchWait k t => watch_resume s k t ec value
  | OnceWait i => once_resume s i ec value
  | _ => s
  end.

Definition notifyChange (s : state) (ec : option bus_error) (value : T) : state :=
  if propHandler s then setValues (set_propHandler s false) ec value else s.

Definition cancelWatch (s : state) : state :=
  if propHandler s then setValues (set_propHandler s false) (Some operation_aborted) T0 else s.

(** ** Interleaving *)

(** One coroutine uses the watcher; [Expired] is the expiry of a timer and [Run]
    the call of its handler. *)
Inductive event :=
  | Watch (k : handler_kind) (timeout : bool)
  | WatchOnce
  | Signal (ec : option bus_error) (value : T)
  | Expired (i : nat)
  | Run (i : nat)
  | CallbackReturns (r : bool).

Definition step (s : state) (e : event) : option state :=
  match e with
  | Watch k t => match proc s with Idle => Some (watch s k t) | _ => None end
  | WatchOnce => match proc s with Idle => Some (watchOnce s) | _ => None end
  | Signal ec v => Some (notifyChange s ec v)
  | Expired i => match timers s !! i with Some Armed => Some (set_timer s i Due) | _ => None end
  | Run i => match timers s !! i with Some Due => Some (cancelWatch (set_timer s i Dead)) | _ => None end
  | CallbackReturns r => match proc s with WatchCall k t last => Some (watch_called s k t last r) | _ => None end
  end.

Fixpoint run (s : state) (es : list event) : option state :=
  match es with
  | [] => Some s
  | e :: es => match step s e with Some s => run s es | None => None end
  end.

End watcher.

(** ** Invariant *)

Section facts.

Context {T : Type} (T0 : T).
Implicit Types (s : state (T := T)) (es : list (event (T := T))).

Definition waiting (p : pc) : bool := match p with WatchWait _ _ | OnceWait _ => true | _ => false end.

(** The timer the coroutine has started and not cancelled yet. *)
Definition own_timer (p : pc) : option nat :=
  match p with Idle => None | WatchWait _ t | WatchCall _ t _ => t | OnceWait i => Some i end.

(** A handler is set exactly while the coroutine waits for it, and the only timer
    that can still expire is its own. *)
Record inv s : Prop := mkInv {
  inv_handler : propHandler s = waiting (proc s);
  inv_timer i : timers s !! i = Some Armed -> own_timer (proc s) = Some i;
}.

Lemma watcher_init_inv : inv init.
Proof. by split. Qed.

Lemma timers_cancel s t : timers (cancel_opt s t) = match t with
  Some i => match timers s !! i with Some Armed => <[i := Dead]> (timers s) | _ => timers s end | None => timers s end.
Proof. destruct t as [i|]; cbn; [|done]. unfold cancel. by destruct (timers s !! i) as [[]|]. Qed.

Lemma others_cancel s t : propHandler (cancel_opt s t) = propHandler s /\ log (cancel_opt s t) = log s.
Proof. destruct t as [i|]; cbn; [|done]. unfold cancel. by destruct (timers s !! i) as [[]|]. Qed.

Lemma log_cancel s i : log (cancel s i) = log s.
Proof. exact (proj2 (others_cancel s (Some i))). Qed.

(** Ending a watch leaves no timer armed. *)
Lemma cancel_armed s t j :
  (forall i, timers s !! i = Some Armed -> t = Some i) -> timers (cancel_opt s t) !! j <> Some Armed.
Proof.
  rewrite timers_cancel. intros H Hj. destruct t as [i|]; [|by apply H in Hj].
  destruct (timers s !! i) as [[]|] eqn:E; try (pose proof (H _ Hj); simplify_eq; congruence).
  destruct (decide (i = j)) as [->|Hne].
  - apply lookup_lt_Some in E. rewrite list_lookup_insert_eq in Hj; [done|lia].
  - rewrite list_lookup_insert_ne in Hj by done. apply H in Hj. congruence.
Qed.

Lemma setValues_inv s ec v :
  inv (set_propHandler s true) -> waiting (proc s) = true -> inv (setValues (set_propHandler s false) ec v).
Proof.
  intros [_ Ht] Hw. unfold setValues. cbn in *. destruct (proc s) as [|k t|k t l|i] eqn:E; try done.
  - destruct ec as [[]|]; split; cbn; try done; intros j Hj; apply (Ht j Hj).
  - pose proof (others_cancel (set_propHandler s false) (Some i)) as [Hp _].
    unfold once_resume. split; cbn in *; [done|].
    intros j Hj. exfalso. revert Hj. apply (cancel_armed (set_propHandler s false) (Some i)); done.
Qed.

Lemma notify_inv s ec v : inv s -> inv (notifyChange s ec v).
Proof.
  intros Hi. unfold notifyChange. destruct (propHandler s) eqn:E; [|done].
  apply setValues_inv; destruct Hi as [Hh Ht]; [split; cbn; congruence || done|congruence].
Qed.

Lemma timer_inv s i t : t <> Armed -> inv s -> inv (set_timer s i t).
Proof.
  intros Hn [Hh Ht]. split; cbn; [done|]. intros j Hj. destruct (decide (i = j)) as [->|Hne].
  - destruct (decide (j < length (timers s))) as [Hl|Hl].
    + by rewrite list_lookup_insert_eq in Hj; [simplify_eq|].
    + rewrite list_insert_ge in Hj by lia. by apply Ht.
  - rewrite list_lookup_insert_ne in Hj by done. by apply Ht.
Qed.

Lemma start_inv s p :
  inv s -> proc s = Idle -> own_timer p = Some (length (timers s)) -> waiting p = true ->
  inv (makeWatchHandler (startTimeout s).1 p).
Proof.
  intros [_ Ht] Hp Ho Hw. split; cbn; [done|]. intros j Hj. rewrite Hp in Ht.
  apply lookup_app_Some in Hj as [Hj|[Hge Hj]]; [by apply Ht in Hj|].
  apply list_lookup_singleton_Some in Hj as [Hj _]. rewrite Ho. f_equal. lia.
Qed.

Lemma watcher_step_inv s e s' : inv s -> step T0 s e = Some s' -> inv s'.
Proof.
  intros Hi. destruct e as [k t| |ec v|i|i|r]; cbn.
  - destruct (proc s) eqn:E; try done. intros [= <-]. destruct t; cbn; [by apply start_inv|].
    destruct Hi as [_ Ht]. rewrite E in Ht. split; cbn; [done|]. intros j Hj. by apply Ht in Hj.
  - destruct (proc s) eqn:E; try done. intros [= <-]. by apply start_inv.
  - intros [= <-]. by apply notify_inv.
  - destruct (timers s !! i) as [[]|]; try done. intros [= <-]. by apply timer_inv.
  - destruct (timers s !! i) as [[]|]; try done. intros [= <-].
    apply (notify_inv (set_timer s i Dead) (Some operation_aborted) T0). by apply timer_inv.
  - destruct (proc s) as [|k t|k t l|j] eqn:E; try done. intros [= <-]. destruct Hi as [Hh Ht]. rewrite E in Hh, Ht.
    unfold watch_called. cbn in Hh, Ht.
    assert (He : inv (watch_end s t)).
    { split; cbn; [by rewrite (proj1 (others_cancel s t))|]. intros j Hj. by apply cancel_armed in Hj. }
    destruct l; [done|]. by destruct k, r; try exact He; (split; cbn; [done|]).
Qed.

Lemma watcher_run_inv s es s' : inv s -> run T0 s es = Some s' -> inv s'.
Proof.
  revert s. induction es as [|e es IH]; intros s Hi; cbn; [by intros [= <-]|].
  destruct (step T0 s e) as [s1|] eqn:E; [|done]. intros Hr. by apply (IH s1); [eapply watcher_step_inv|].
Qed.

(** ** The log only grows *)

Lemma log_notify s ec v : log s `prefix_of` log (notifyChange s ec v).
Proof.
  unfold notifyChange, setValues. destruct (propHandler s); [|done]. destruct (proc _) as [|k t| |i]; cbn; try done.
  - destruct ec as [[]|]; cbn; auto using prefix_app_r.
  - rewrite log_cancel. by apply prefix_app_r.
Qed.

Lemma log_step s e s' : step T0 s e = Some s' -> log s `prefix_of` log s'.
Proof.
  destruct e as [k t| |ec v|i|i|r]; cbn.
  - destruct (proc s); try done. intros [= <-]. by destruct t.
  - destruct (proc s); try done. by intros [= <-].
  - intros [= <-]. apply log_notify.
  - destruct (timers s !! i) as [[]|]; try done. by intros [= <-].
  - destruct (timers s !! i) as [[]|]; try done. intros [= <-]. apply (log_notify (set_timer s i Dead)).
  - destruct (proc s) as [|k t|k t l|j]; try done. intros [= <-].
    assert (He : log s `prefix_of` log (watch_end s t)).
    { cbn. rewrite (proj2 (others_cancel s t)). by apply prefix_app_r. }
    unfold watch_called. by destruct l, k, r; try exact He.
Qed.

Lemma log_run s es s' : run T0 s es = Some s' -> log s `prefix_of` log s'.
Proof.
  revert s. induction es as [|e es IH]; intros s; cbn; [by intros [= <-]|].
  destruct (step T0 s e) as [s1|] eqn:E; [|done]. intros Hr. etrans; [by eapply log_step|by apply IH].
Qed.

(** ** [watchOnce] *)

(** What ends the wait of a [watchOnce] whose timer is [i]: the first signal, or
    the handler of its timer. *)
Fixpoint first_signal (i : nat) es : option (option bus_error * T) :=
  match es with
  | [] => None
  | Signal ec v :: _ => Some (ec, v)
  | Run j :: es => if decide (i = j) then Some (Some operation_aborted, T0) else first_signal i es
  | _ :: es => first_signal i es
  end.

(** No other timer can run its handler. *)
Definition only_timer s (i : nat) : Prop := forall j, timers s !! j = Some Armed \/ timers s !! j = Some Due -> j = i.

Lemma only_timer_set s i j t : only_timer s i -> j = i -> only_timer (set_timer s j t) i.
Proof.
  intros Ho -> k Hk. cbn in Hk. destruct (decide (i = k)) as [->|Hne]; [done|].
  rewrite list_lookup_insert_ne in Hk by done. by apply Ho.
Qed.

Lemma once_waits s es i s' :
  only_timer s i -> propHandler s = true -> proc s = OnceWait i -> run T0 s es = Some s' ->
  match first_signal i es with
  | None => proc s' = OnceWait i /\ log s' = log s
  | Some (ec, v) => (log s ++ [OnceReturn (match ec with Some _ => None | None => Some v end)]) `prefix_of` log s'
  end.
Proof.
  revert s. induction es as [|e es IH]; intros s Ho Hh Hp; cbn [run]; [by intros [= <-]|].
  destruct (step T0 s e) as [s1|] eqn:E; [|done]. intros Hr. destruct e as [k t| |ec v|j|j|r]; cbn in E; rewrite ?Hp in E; try done.
  - injection E as <-. apply log_run in Hr. cbn. unfold notifyChange, setValues in Hr. rewrite Hh in Hr. cbn in Hr.
    rewrite Hp in Hr. cbn in Hr. by rewrite log_cancel in Hr.
  - destruct (timers s !! j) as [[]|] eqn:Et; try done. injection E as <-.
    apply (IH (set_timer s j Due)); [|done..]. apply only_timer_set; [done|]. by apply Ho; left.
  - destruct (timers s !! j) as [[]|] eqn:Et; try done. injection E as <-. apply log_run in Hr. cbn.
    rewrite decide_True by (symmetry; apply Ho; by right).
    unfold cancelWatch, setValues in Hr. cbn in Hr. rewrite Hh in Hr. cbn in Hr. rewrite Hp in Hr. cbn in Hr.
    by rewrite log_cancel in Hr.
Qed.

(** Starting on a watcher whose timers have all run. *)
Lemma start_only s : inv s -> proc s = Idle -> (forall j, timers s !! j <> Some Due) -> only_timer (watchOnce s) (length (timers s)).
Proof.
  intros [_ Ht] Hp Hd j Hj. rewrite Hp in Ht. cbn in Hj.
  destruct (decide (j < length (timers s))) as [Hl|Hl].
  - rewrite lookup_app_l in Hj by done. destruct Hj as [Hj|Hj]; [by apply Ht in Hj|by apply Hd in Hj].
  - assert (Hb : j < length (timers s ++ [Armed])) by (destruct Hj as [Hj|Hj]; by eapply lookup_lt_Some).
    rewrite length_app in Hb. cbn in Hb. lia.
Qed.

(** [watchOnce] returns the value of the first signal that comes before its
    timeout, and nothing when an error or the timeout comes first; until then it
    waits. *)
Theorem watchOnce_correct es0 es s s' :
  run T0 init es0 = Some s -> proc s = Idle -> (forall j, timers s !! j <> Some Due) ->
  run T0 s (WatchOnce :: es) = Some s' ->
  match first_signal (length (timers s)) es with
  | None => proc s' = OnceWait (length (timers s)) /\ log s' = log s
  | Some (ec, v) => (log s ++ [OnceReturn (match ec with Some _ => None | None => Some v end)]) `prefix_of` log s'
  end.
Proof.
  intros Hr Hp Hd. cbn [run step]. rewrite Hp. intros Hs.
  apply (once_waits (watchOnce s) es (length (timers s)) s'); [|done..].
  apply start_only; [by apply (watcher_run_inv init es0); [apply watcher_init_inv|]|done..].
Qed.

(** ** [watch] with a callback that is not suspended *)

(** The callback returns at once. *)
Definition call_back (cb : option bus_error -> option T -> bool) s : state :=
  match proc s, last (log s) with
  | WatchCall k t l, Some (Callback ec v) => watch_called s k t l (cb ec v)
  | _, _ => s
  end.

Fixpoint sync_run (cb : option bus_error -> option T -> bool) s es : option state :=
  match es with
  | [] => Some s
  | e :: es => match step T0 s e with Some s => sync_run cb (call_back cb s) es | None => None end
  end.

(** What the watch hears: signals, and timeouts as an error. *)
Definition heard es : list (option bus_error * T) :=
  omap (fun e => match e with Signal ec v => Some (ec, v) | Run _ => Some (Some operation_aborted, T0) | _ => None end) es.

(** What [watch] promises to do about it. *)
Fixpoint watch_spec (cb : option bus_error -> option T -> bool) (ins : list (option bus_error * T)) : list output :=
  match ins with
  | [] => []
  | (None, v) :: ins => Callback None (Some v) :: if cb None (Some v) then watch_spec cb ins else [WatchReturn]
  | (Some no_such_device, _) :: ins => watch_spec cb ins
  | (Some operation_aborted, _) :: _ => [Callback (Some timed_out) None; WatchReturn]
  | (Some e, _) :: _ => [Callback (Some e) None; WatchReturn]
  end.

(** The events of the world around a watch. *)
Definition outer (e : event (T := T)) : Prop := match e with Signal _ _ | Expired _ | Run _ => True | _ => False end.

Lemma idle_ignores cb s es s' :
  propHandler s = false -> proc s = Idle -> Forall outer es -> sync_run cb s es = Some s' -> proc s' = Idle /\ log s' = log s.
Proof.
  revert s. induction es as [|e es IH]; intros s Hh Hp Ho; cbn [sync_run]; [by intros [= <-]|].
  inversion_clear Ho as [|? ? He Hes]. destruct (step T0 s e) as [s1|] eqn:E; [|done].
  assert (Hs1 : propHandler s1 = false /\ proc s1 = Idle /\ log s1 = log s).
  { destruct e as [k t| |ec v|j|j|r]; try done; cbn in E.
    - injection E as <-. unfold notifyChange. by rewrite Hh.
    - destruct (timers s !! j) as [[]|]; try done. by injection E as <-.
    - destruct (timers s !! j) as [[]|]; try done. injection E as <-. unfold cancelWatch. cbn. by rewrite Hh. }
  destruct Hs1 as (Hh1 & Hp1 & Hl1). rewrite <- Hl1. unfold call_back. rewrite Hp1. by apply IH.
Qed.

(** The effect of one thing that is heard. *)
Lemma hear cb s t ec v :
  propHandler s = true -> proc s = WatchWait WatchHandlerBool t ->
  let s' := call_back cb (notifyChange s ec v) in
  log s' = log s ++ watch_spec cb [(ec, v)] /\
  (propHandler s' = true /\ proc s' = WatchWait WatchHandlerBool t /\
     (forall ins, watch_spec cb ((ec, v) :: ins) = watch_spec cb [(ec, v)] ++ watch_spec cb ins) \/
   propHandler s' = false /\ proc s' = Idle /\ WatchReturn ∈ watch_spec cb [(ec, v)] /\
     (forall ins, watch_spec cb ((ec, v) :: ins) = watch_spec cb [(ec, v)])).
Proof.
  intros Hh Hp. unfold notifyChange, setValues. rewrite Hh. cbn. rewrite Hp. cbn.
  destruct ec as [[]|]; cbn; unfold call_back; cbn; rewrite ?last_snoc; cbn; rewrite ?app_nil_r;
    try (split; [rewrite (proj2 (others_cancel _ t)); cbn; by rewrite <- app_assoc|right; repeat split; [by rewrite (proj1 (others_cancel _ t))|set_solver]]).
  - by split; [|left].
  - destruct (cb None (Some v)); cbn.
    + by split; [|left].
    + split; [rewrite (proj2 (others_cancel _ t)); cbn; by rewrite <- app_assoc|right; repeat split; [by rewrite (proj1 (others_cancel _ t))|set_solver]].
Qed.

Lemma go_on_no_return cb ec v :
  (forall ins, watch_spec cb ((ec, v) :: ins) = watch_spec cb [(ec, v)] ++ watch_spec cb ins) ->
  WatchReturn ∉ watch_spec cb [(ec, v)].
Proof.
  intros H. specialize (H [(Some timed_out, T0)]). cbn in *.
  destruct ec as [[]|]; cbn in *; try done; [set_solver|]. destruct (cb None (Some v)); [set_solver|done].
Qed.

Lemma watch_refines cb es s t s' :
  propHandler s = true -> proc s = WatchWait WatchHandlerBool t -> Forall outer es -> sync_run cb s es = Some s' ->
  log s' = log s ++ watch_spec cb (heard es) /\ (proc s' = Idle <-> WatchReturn ∈ watch_spec cb (heard es)).
Proof.
  revert s. induction es as [|e es IH]; intros s Hh Hp Ho; cbn [sync_run].
  { intros [= <-]. rewrite Hp, app_nil_r. cbn. split; [done|]. split; [done|]. set_solver. }
  inversion_clear Ho as [|? ? He Hes]. destruct (step T0 s e) as [s1|] eqn:E; [|done]. intros Hr.
  assert (Hhear : forall s2 ec v, propHandler s2 = true -> proc s2 = proc s -> log s2 = log s -> s1 = notifyChange s2 ec v ->
    log s' = log s ++ watch_spec cb ((ec, v) :: heard es) /\ (proc s' = Idle <-> WatchReturn ∈ watch_spec cb ((ec, v) :: heard es))).
  { intros s2 ec v Hh2 Hp2 Hl2 ->. rewrite Hp in Hp2. destruct (hear cb s2 t ec v Hh2 Hp2) as [Hl [(Hh1 & Hp1 & Hsp)|(Hh1 & Hp1 & Hin & Hsp)]].
    - apply IH in Hr as [Hl' Hi]; [|done..]. rewrite Hsp. split; [by rewrite Hl', Hl, Hl2, <- app_assoc|].
      rewrite Hi, elem_of_app. split; [by right|]. intros [Hx|Hx]; [exfalso|done]. by eapply go_on_no_return.
    - apply idle_ignores in Hr as [Hp' Hl']; [|done..]. rewrite Hsp. by rewrite Hl', Hl, Hl2. }
  destruct e as [k t'| |ec v|j|j|r]; try done; cbn in E.
  - injection E as <-. by apply (Hhear s).
  - destruct (timers s !! j) as [[]|]; try done. injection E as <-. unfold call_back in Hr. cbn in Hr. rewrite Hp in Hr.
    by apply (IH (set_timer s j Due)).
  - destruct (timers s !! j) as [[]|]; try done. injection E as <-. by apply (Hhear (set_timer s j Dead)).
Qed.

(** C29: as long as its callback is not suspended, [watch] calls it with every signal, in
    order, until it asks to stop, an error arrives or the timeout expires, reports
    the error or the timeout, and then returns and calls it no more. *)
Theorem watch_correct cb es timeout s s' :
  proc s = Idle -> Forall outer es ->
  sync_run cb s (Watch WatchHandlerBool timeout :: es) = Some s' ->
  log s' = log s ++ watch_spec cb (heard es) /\ (proc s' = Idle <-> WatchReturn ∈ watch_spec cb (heard es)).
Proof.
  intros Hp Ho. cbn [sync_run step]. rewrite Hp. intros Hr.
  assert (Hw : exists t, let s1 := call_back cb (watch s WatchHandlerBool timeout) in
    propHandler s1 = true /\ proc s1 = WatchWait WatchHandlerBool t /\ log s1 = log s).
  { destruct timeout; eexists; by repeat split. }
  destruct Hw as (t & Hh & Hp1 & Hl). revert Hr. rewrite <- Hl. by apply (watch_refines cb es _ t).
Qed.

(** ** Limits *)

(** Signals that arrive while a callback is suspended are dropped. *)
Theorem signal_during_callback es0 s k t l ec v :
  run T0 init es0 = Some s -> proc s = WatchCall k t l -> step T0 s (Signal ec v) = Some s.
Proof.
  intros Hr Hp. apply watcher_run_inv in Hr; [|apply watcher_init_inv]. destruct Hr as [Hh _]. rewrite Hp in Hh.
  cbn. unfold notifyChange. by rewrite Hh.
Qed.

(** Any event but an error and a callback that asks to stop. *)
Definition unhurried (e : event (T := T)) : Prop :=
  match e with Signal (Some _) _ | CallbackReturns false => False | _ => True end.

(** The timeout that fires while a callback is suspended is lost as well, and
    signals without errors then keep the watch going for ever. *)
Theorem timeout_during_callback (v : T) es s :
  Forall unhurried es ->
  run T0 init ([Watch WatchHandlerBool true; Signal None v; Expired 0; Run 0; CallbackReturns true] ++ es) = Some s ->
  proc s <> Idle /\ Callback (Some timed_out) None ∉ log s.
Proof.
  set (s0 := mkState true [Dead] (WatchWait WatchHandlerBool (Some 0)) [Callback None (Some v)]).
  change (run T0 init _) with (run T0 s0 es).
  enough (H : forall s0, timers s0 = [Dead] -> (propHandler s0 = true /\ proc s0 = WatchWait WatchHandlerBool (Some 0) \/
    propHandler s0 = false /\ proc s0 = WatchCall WatchHandlerBool (Some 0) false) -> Callback (Some timed_out) None ∉ log s0 ->
    Forall unhurried es ->
    run T0 s0 es = Some s -> proc s <> Idle /\ Callback (Some timed_out) None ∉ log s).
  { apply (H s0); [done|by left|set_solver]. }
  clear s0. induction es as [|e es IH]; intros s0 Ht Hs Hl Hes; cbn [run].
  { intros [= <-]. split; [|done]. by destruct Hs as [[_ ->]|[_ ->]]. }
  inversion_clear Hes as [|? ? He Hes']. destruct (step T0 s0 e) as [s1|] eqn:E; [|done].
  apply IH; [..|done]; destruct e as [k t| |[ec|] x|i|i|[]]; try done; cbn in E;
    try (rewrite Ht in E; destruct i as [|[|i]]; done); destruct Hs as [[Hh Hp]|[Hh Hp]];
    unfold notifyChange, setValues in E; rewrite ?Hh in E; cbn in E; rewrite ?Hp in E; try done;
    injection E as <-; try done; cbn; auto; set_solver.
Qed.

(** A timeout that is already due when a signal ends [watchOnce] ends the next
    wait on the same watcher instead. *)
Theorem stale_timeout (v : T) : exists s,
  run T0 init [WatchOnce; Expired 0; Signal None v; WatchOnce; Run 0] = Some s /\
  log s = [OnceReturn (Some v); OnceReturn None].
Proof. by eexists. Qed.

End facts.

(** A signal that does not mention the property is reported as a change to the
    default value. *)
Theorem unrelated_change {T} (as_T : variant -> option T) (T0 : T) (m : PropertyMap) (p : bytes) :
  handlePropertyChange as_T T0 m p =
  match m !! p with
  | None => (None, T0)
  | Some v => match as_T v with Some x => (None, x) | None => (Some invalid_argument, T0) end
  end.
Proof.
  unfold handlePropertyChange, getPropertiesFromMap, getPropertyFromMap. destruct (m !! p) as [v|]; [|done].
  by destruct (as_T v).
Qed.

(** ** Witnesses *)

Lemma watchOnce_correct_witness : exists s : state (T := nat),
  run 0 init [WatchOnce; Signal None 7] = Some s /\ [OnceReturn (Some 7)] `prefix_of` log s.
Proof.
  eexists. split; [reflexivity|].
  apply (watchOnce_correct 0 [] [Signal None 7] init); [reflexivity|reflexivity| |reflexivity].
  intros j Hj. by destruct j.
Defined.

Lemma watch_correct_witness : exists s : state (T := nat),
  sync_run 0 (fun _ v => bool_decide (v <> Some 9)) init
    [Watch WatchHandlerBool true; Signal None 7; Expired 0; Signal None 9; Run 0; Signal None 8] = Some s /\
  log s = [Callback None (Some 7); Callback None (Some 9); WatchReturn].
Proof.
  eexists. split; [vm_compute; reflexivity|].
  refine (proj1 (watch_correct 0 (fun _ v => bool_decide (v <> Some 9))
    [Signal None 7; Expired 0; Signal None 9; Run 0; Signal None 8] true init _ _ _ _));
    [reflexivity|repeat constructor|vm_compute; reflexivity].
Defined.
