(* ===== verification/FirmwareCatalogue.v ===== *)
(** * The firmware catalogue: [fw_updater_config.hpp], [fw_version_checker.hpp] and
    [fw_downloader.hpp] of [examples/firmware_updater/]

    The configuration, the choice of an image from the catalogue of the update
    server and its download.  Requests go through [WebClient.v], with the network as
    the parameter it is there; parsing JSON and URLs and the digest of a file are
    parameters.  [None] stands for the undefined behaviour of [sscanf] on a number
    that does not fit into an [int]. *)

From S2P Require Import Prelude StdMap ConsoleConfig CommandLine GraphqlParser GraphqlExecutor TypedSchema Http WebClient.

(** ** Data *)

Record FirmwareEntry := mkEntry {
  fversion : bytes;
  imageUrl : bytes;
  checksum : bytes;
  releaseDate : bytes;
  description : bytes;
}.

Record ServerAuth := mkAuth { username : bytes; password : bytes }.

Record AppConfig := mkConfig {
  serverHost : bytes;
  serverPort : bytes;
  cataloguePath : bytes;
  auth : ServerAuth;
  pollIntervalSeconds : Z;
  pollAtStartup : bool;
  deniedVersions : list bytes;
  allowedVersions : list bytes;
  downloadDir : bytes;
  downloadTimeoutSeconds : Z;
}.

(** ** Reading JSON *)

(** [static_cast<int>] of an integer. *)
Definition to_int (z : Z) : Z := (wrapu 32 (z + 2 ^ 31) - 2 ^ 31)%Z.

Section json.

(** The conversion of a floating-point number to [int], and the text of an
    exception. *)
Context {double : Type} (float_int : double -> Z) (what : json_error double -> bytes).

Local Notation "x ← m ; k" := (jbind m (fun x => k)) (at level 20, m at level 100, k at level 200, only parsing).

(** [get<int>()]. *)
Definition get_int (j : json double) : Z + json_error double :=
  match j with
  | JInt z => inl (to_int z)
  | JFloat d => inl (float_int d)
  | JBool b => inl (if b then 1 else 0)%Z
  | _ => inr (Not_number j)
  end.

(** [if (j.contains(key)) field = j[key].get<T>();] *)
Definition jcontained {A} (get : json double -> A + json_error double) (j : json double) (key : string) (field : A) : A + json_error double :=
  match j with
  | JObject l => match object_get l (str key) with Some v => get v | None => inl field end
  | _ => inl field
  end.

Definition auth_from_json (j : json double) : ServerAuth + json_error double :=
  u ← jvalue get_string j "username" []; p ← jvalue get_string j "password" []; inl (mkAuth u p).

Definition config_from_json (j : json double) : AppConfig + json_error double :=
  host ← string_at j "serverHost";
  port ← jvalue get_string j "serverPort" (str "443");
  path ← jvalue get_string j "cataloguePath" (str "/firmware/catalogue.json");
  a ← jcontained auth_from_json j "auth" (mkAuth [] []);
  poll ← jvalue get_int j "pollIntervalSeconds" 3600%Z;
  startup ← jvalue get_bool j "pollAtStartup" true;
  denied ← jcontained get_strings j "deniedVersions" [];
  allowed ← jcontained get_strings j "allowedVersions" [];
  dir ← jvalue get_string j "downloadDir" (str "/var/lib/firmware_updater");
  timeout ← jvalue get_int j "downloadTimeoutSeconds" 1800%Z;
  inl (mkConfig host port path a poll startup denied allowed dir timeout).

Definition entry_from_json (j : json double) : FirmwareEntry + json_error double :=
  v ← string_at j "version"; u ← string_at j "imageUrl"; c ← jvalue get_string j "checksum" [];
  r ← jvalue get_string j "releaseDate" []; d ← jvalue get_string j "description" [];
  inl (mkEntry v u c r d).

(** [get<std::vector<FirmwareEntry>>()]. *)
Definition entries_from_json (j : json double) : list FirmwareEntry + json_error double :=
  match j with JArray l => jtraverse entry_from_json l | _ => inr (Not_array j) end.

(** [loadConfig]: [file] is the contents of the file, if it can be opened. *)
Definition loadConfig (json_parse : bytes -> json double + bytes) (path : bytes) (file : option bytes) : AppConfig + bytes :=
  match file with
  | None => inr (str "Cannot open config file: " ++ path)
  | Some text =>
      match json_parse text with
      | inr w => inr (str "Config parse error: " ++ w)
      | inl j => match config_from_json j with
                 | inl c => inl c
                 | inr e => inr (str "Config parse error: " ++ what e)
                 end
      end
  end.

End json.

(** ** Versions *)

(** The directive [%d] of [sscanf]. *)
Inductive scanned := NoMatch | OutOfRange | Scanned (z : Z) (rest : bytes).

Definition scan_int (s : bytes) : scanned :=
  let '(neg, s) := ConsoleConfig.sign (skip ConsoleConfig.isspace s) in
  let '(ds, rest) := ConsoleConfig.span is_digit s in
  if decide (ds = []) then NoMatch
  else let z := if neg then (- of_dec ds)%Z else of_dec ds in
       if ((- 2 ^ 31 <=? z) && (z <? 2 ^ 31))%Z then Scanned z rest else OutOfRange.

(** [".%d"], with the value kept when it does not match. *)
Definition scan_dot_int (s : bytes) : scanned :=
  match s with c :: s => if decide (c = "."%byte) then scan_int s else NoMatch | [] => NoMatch end.

Definition parseVersion (ver : bytes) : option (Z * Z * Z) :=
  match scan_int (c_str ver) with
  | OutOfRange => None
  | NoMatch => Some (0, 0, 0)%Z
  | Scanned major s =>
      match scan_dot_int s with
      | OutOfRange => None
      | NoMatch => Some (major, 0, 0)%Z
      | Scanned minor s =>
          match scan_dot_int s with
          | OutOfRange => None
          | NoMatch => Some (major, minor, 0)%Z
          | Scanned patch _ => Some (major, minor, patch)
          end
      end
  end.

(** [operator<] of [std::tuple]. *)
Definition ver_ltb (a b : Z * Z * Z) : bool :=
  let '(a1, a2, a3) := a in let '(b1, b2, b3) := b in
  ((a1 <? b1) || ((a1 =? b1) && ((a2 <? b2) || ((a2 =? b2) && (a3 <? b3)))))%Z.

Definition isNewerThan (candidate current : bytes) : option bool :=
  match parseVersion candidate, parseVersion current with
  | Some a, Some b => Some (ver_ltb b a)
  | _, _ => None
  end.

Definition isAllowedVersion (candidate : bytes) (cfg : AppConfig) : bool :=
  if negb (bool_decide (deniedVersions cfg = [])) && bool_decide (candidate ∈ deniedVersions cfg) then false
  else if negb (bool_decide (allowedVersions cfg = [])) && negb (bool_decide (candidate ∈ allowedVersions cfg)) then false
  else true.

(** The loop of [selectCandidates]. *)
Fixpoint candidates (catalogue : list FirmwareEntry) (currentVer : bytes) (cfg : AppConfig) : option (list FirmwareEntry) :=
  match catalogue with
  | [] => Some []
  | entry :: catalogue =>
      match isNewerThan (fversion entry) currentVer, candidates catalogue currentVer cfg with
      | Some newer, Some rest => Some (if newer && isAllowedVersion (fversion entry) cfg then entry :: rest else rest)
      | _, _ => None
      end
  end.

(** [std::ranges::max_element] from an element on. *)
Fixpoint max_element (best : FirmwareEntry) (l : list FirmwareEntry) : option FirmwareEntry :=
  match l with
  | [] => Some best
  | e :: l =>
      match parseVersion (fversion best), parseVersion (fversion e) with
      | Some a, Some b => max_element (if ver_ltb a b then e else best) l
      | _, _ => None
      end
  end.

Definition selectCandidates (catalogue : list FirmwareEntry) (currentVer : bytes) (cfg : AppConfig) : option (list FirmwareEntry) :=
  match candidates catalogue currentVer cfg with
  | None => None
  | Some [] => Some []
  | Some (e :: l) => match max_element e l with Some best => Some [best] | None => None end
  end.

(** ** The running version *)

Inductive fw_error := network_error (e : error_code) | bus_failure (n : nat) | protocol_error | bad_argument | no_such_file_or_directory.

Definition activationIface : bytes := str "xyz.openbmc_project.Software.Activation".
Definition versionIface : bytes := str "xyz.openbmc_project.Software.Version".
Definition activeState : bytes := str "xyz.openbmc_project.Software.Activation.Activations.Active".

(** Objects, their interfaces and their properties, in the order of [std::map]. *)
Definition ManagedObjects : Type := list (bytes * list (bytes * list (bytes * bytes))).

(** The loop over the objects. *)
Fixpoint active_version (objects : ManagedObjects) : option fw_error * bytes :=
  match objects with
  | [] => (Some no_such_file_or_directory, [])
  | (_, ifaces) :: objects =>
      match object_get ifaces activationIface, object_get ifaces versionIface with
      | Some act, Some ver =>
          match object_get act (str "Activation") with
          | Some actVal =>
              if decide (actVal = activeState) then
                match object_get ver (str "Version") with
                | None => (Some no_such_file_or_directory, [])
                | Some verVal => (None, verVal)
                end
              else active_version objects
          | None => active_version objects
          end
      | _, _ => active_version objects
      end
  end.

(** [getCurrentFwVersion], given the answer to [GetManagedObjects]. *)
Definition getCurrentFwVersion (answer : ManagedObjects + fw_error) : option fw_error * bytes :=
  match answer with inr e => (Some e, []) | inl objects => active_version objects end.

(** ** The catalogue *)

Definition ok : Z := 200.

Local Notation "x ← m ; k" := (WebClient.bind m (fun x => k)) (at level 20, m at level 100, k at level 200, only parsing).

Section fetching.

Context {double : Type} (json_parse : bytes -> json double + bytes) (net : network).

Definition catalogueClient (cfg : AppConfig) : WebClient :=
  withRetries (withTarget (withMethod (withPort (withHost tcpClient (serverHost cfg)) (serverPort cfg)) verb_get) (cataloguePath cfg)) 3.

(** [Response{}]. *)
Definition emptyResponse : Response := mkResponse ok 11 [] true [] 0.

Definition catalogue_of (r : option error_code * option Response) : option fw_error * list FirmwareEntry :=
  match r with
  | (Some ec, _) => (Some (network_error ec), [])
  | (None, res) =>
      let res := match res with Some res => res | None => emptyResponse end in
      if decide (status res = ok) then
        match json_parse (res_body res) with
        | inr _ => (Some bad_argument, [])
        | inl j => match entries_from_json j with inl entries => (None, entries) | inr _ => (Some bad_argument, []) end
        end
      else (Some protocol_error, [])
  end.

Definition fetchCatalogue (cfg : AppConfig) : M (option fw_error * list FirmwareEntry) :=
  r ← execute net (catalogueClient cfg); ret (catalogue_of r).

End fetching.

(** ** Downloading *)

Record DownloadResult := mkResult { dl_ec : option fw_error; dl_localPath : bytes; dl_version : bytes }.

(** [fs::path(p).filename()]: what follows the last slash. *)
Definition filename (p : bytes) : bytes := foldl (fun name c => if decide (c = "/"%byte) then [] else name ++ [c]) [] p.

Section downloading.

(** [boost::urls::parse_uri], with [has_port()]; the SHA-256 digest in hexadecimal;
    whether a file can be opened; the result of [create_directories]; and what the
    calls of a download leave on the disk. *)
Context (parse_uri : bytes -> option (url_view * bool)) (sha256 : bytes -> bytes) (readable : bytes -> bool)
  (create_directories : bytes -> bool) (net : network) (files_after : list op -> gmap bytes bytes -> gmap bytes bytes).

Definition localFilePath (downloadDir : bytes) (entry : FirmwareEntry) : bytes :=
  match parse_uri (imageUrl entry) with
  | Some (url, _) =>
      if decide (filename (upath url) = []) then downloadDir ++ str "/firmware-" ++ fversion entry
      else downloadDir ++ str "/" ++ filename (upath url)
  | None => downloadDir ++ str "/firmware-" ++ fversion entry
  end.

Definition sha256File (files : gmap bytes bytes) (path : bytes) : bytes :=
  match files !! path with Some c => if readable path then sha256 c else [] | None => [] end.

Definition downloadClient (url : url_view) (has_port : bool) (timeout : Z) : WebClient :=
  let port := if has_port then uport url else str "443" in
  let path := if decide (upath url = []) then str "/" else upath url in
  withDownloadTimeout (withRetries (withTarget (withMethod (withPort (withHost tcpClient (uhost url)) port) verb_get) path) 3) timeout.

(** Whether the file on the disk is used, and the files left. *)
Definition reuse (files : gmap bytes bytes) (destPath : bytes) (entry : FirmwareEntry) : bool * gmap bytes bytes :=
  match files !! destPath with
  | None => (false, files)
  | Some _ =>
      if decide (checksum entry = []) then (true, files)
      else if decide (sha256File files destPath = checksum entry) then (true, files)
      else (false, delete destPath files)
  end.

Definition downloadFirmware (entry : FirmwareEntry) (downloadDir : bytes) (timeout : Z) (files : gmap bytes bytes)
  : M (DownloadResult * gmap bytes bytes) :=
  let destPath := localFilePath downloadDir entry in
  let '(valid, files) := reuse files destPath entry in
  if valid then ret (mkResult None destPath (fversion entry), files)
  else if negb (create_directories downloadDir) then ret (mkResult (Some no_such_file_or_directory) [] (fversion entry), files)
  else match parse_uri (imageUrl entry) with
       | None => ret (mkResult (Some bad_argument) [] (fversion entry), files)
       | Some (url, has_port) => fun h =>
           let '((ec, _), h) := file_execute net (downloadClient url has_port timeout) destPath h in
           let files := files_after h files in
           (match ec with
            | Some e => (mkResult (Some (network_error e)) [] (fversion entry), files)
            | None => (mkResult None destPath (fversion entry), files)
            end, h)
       end.

End downloading.

(** ** Versions are read as they are written *)

Definition is_int31 (n : Z) : Prop := (0 <= n < 2 ^ 31)%Z.

(** A number as [std::to_string] writes it. *)
Definition dec (n : Z) : bytes := to_dec 10 n.

Lemma scan_int_dec n rest :
  is_int31 n -> (forall c r, rest = c :: r -> is_digit c = false) -> scan_int (dec n ++ rest) = Scanned n rest.
Proof.
  unfold is_int31, dec. intros Hn Hr. pose proof (to_dec_nonempty 10 n ltac:(done)) as Hne.
  pose proof (to_dec_digits 10 n ltac:(lia)) as Hd. pose proof (of_to_dec 10 n ltac:(lia)) as Hv. unfold scan_int.
  destruct (to_dec 10 n) as [|c ds]; [done|].
  destruct (digit_not_special c) as (Hs & Hm & Hp); [by apply Forall_inv in Hd|].
  rewrite skip_none by (cbn; by intros x [= <-]). unfold ConsoleConfig.sign. cbn [app]. rewrite !decide_False by done.
  change (c :: ds ++ rest) with ((c :: ds) ++ rest). rewrite span_split by done.
  rewrite decide_False by done. rewrite Hv.
  destruct (Z.leb_spec (- 2 ^ 31) n), (Z.ltb_spec n (2 ^ 31)); [done|lia..].
Qed.

Lemma c_str_no_nul s : x00 ∉ s -> c_str s = s.
Proof.
  unfold c_str. induction s as [|c s IH]; [done|]. intros H. cbn. rewrite bool_decide_eq_true_2 by set_solver.
  specialize (IH ltac:(set_solver)). by destruct (ConsoleConfig.span _ s) as [a b]; cbn in *; subst.
Qed.

Lemma dec_no_nul n : is_int31 n -> x00 ∉ dec n.
Proof.
  intros [Hn _] Hin. pose proof (to_dec_digits 10 n Hn) as Hd. rewrite Forall_forall in Hd. by apply Hd in Hin.
Qed.

Lemma dot_not_digit l c r : str "." ++ l = c :: r -> is_digit c = false.
Proof. intros H. injection H as <- _. done. Qed.

Lemma scan_dot_dec n rest :
  is_int31 n -> (forall c r, rest = c :: r -> is_digit c = false) -> scan_dot_int (str "." ++ dec n ++ rest) = Scanned n rest.
Proof. intros Hn Hr. exact (scan_int_dec n rest Hn Hr). Qed.

(** A version written as major, minor and patch is read back, whatever follows. *)
Lemma parseVersion_three a b c suffix :
  is_int31 a -> is_int31 b -> is_int31 c -> x00 ∉ suffix -> (forall x r, suffix = x :: r -> is_digit x = false) ->
  parseVersion (dec a ++ str "." ++ dec b ++ str "." ++ dec c ++ suffix) = Some (a, b, c).
Proof.
  intros Ha Hb Hc Hn Hs. unfold parseVersion.
  rewrite c_str_no_nul.
  - rewrite scan_int_dec by (done || apply dot_not_digit). rewrite scan_dot_dec by (done || apply dot_not_digit).
    by rewrite scan_dot_dec.
  - pose proof (dec_no_nul a Ha). pose proof (dec_no_nul b Hb). pose proof (dec_no_nul c Hc).
    rewrite !elem_of_app. intros H'. destruct_or!; try done; cbn in H'; set_solver.
Qed.

(** ** The choice of an image *)

Lemma ver_ltb_irrefl a : ver_ltb a a = false.
Proof. destruct a as [[a1 a2] a3]. cbn. rewrite !Z.ltb_irrefl, !Z.eqb_refl. done. Qed.

Lemma ver_ltb_trans a b c : ver_ltb a b = true -> ver_ltb b c = true -> ver_ltb a c = true.
Proof. destruct a as [[a1 a2] a3], b as [[b1 b2] b3], c as [[c1 c2] c3]. cbn. lia. Qed.

Lemma ver_leb_ltb_trans a b c : ver_ltb b a = false -> ver_ltb b c = true -> ver_ltb a c = true.
Proof. destruct a as [[a1 a2] a3], b as [[b1 b2] b3], c as [[c1 c2] c3]. cbn. lia. Qed.

Lemma ver_leb_trans a b c : ver_ltb b a = false -> ver_ltb c b = false -> ver_ltb c a = false.
Proof. destruct a as [[a1 a2] a3], b as [[b1 b2] b3], c as [[c1 c2] c3]. cbn. lia. Qed.

(** An entry that may be downloaded. *)
Definition eligible (currentVer : bytes) (cfg : AppConfig) (e : FirmwareEntry) : bool :=
  match isNewerThan (fversion e) currentVer with Some newer => newer && isAllowedVersion (fversion e) cfg | None => false end.

(** [older a b]: both versions are defined and the first is smaller. *)
Definition older (a b : FirmwareEntry) : bool :=
  match parseVersion (fversion a), parseVersion (fversion b) with Some x, Some y => ver_ltb x y | _, _ => false end.

Lemma candidates_filter cat cur cfg r :
  candidates cat cur cfg = Some r -> r = base.filter (fun e => eligible cur cfg e = true) cat.
Proof.
  revert r. induction cat as [|e cat IH]; intros r; cbn [candidates]; [by intros [= <-]|].
  destruct (isNewerThan (fversion e) cur) as [newer|] eqn:En; [|done].
  destruct (candidates cat cur cfg) as [rest|]; [|done]. intros [= <-]. rewrite (IH rest eq_refl).
  assert (He : eligible cur cfg e = newer && isAllowedVersion (fversion e) cfg) by (unfold eligible; by rewrite En).
  rewrite filter_cons, He. by destruct (newer && _).
Qed.

Definition defined (e : FirmwareEntry) : Prop := exists v, parseVersion (fversion e) = Some v.

(** The result of [max_element] is the first of the largest. *)
Lemma max_element_first best l :
  defined best -> Forall defined l ->
  exists l1 m l2, best :: l = l1 ++ m :: l2 /\ max_element best l = Some m /\
    Forall (fun e => older e m = true) l1 /\ Forall (fun e => older m e = false) l2.
Proof.
  revert best. induction l as [|e l IH]; intros best Hb Hl.
  { exists [], best, []. by repeat split. }
  inversion_clear Hl as [|? ? He Hl']. destruct Hb as [vb Hb], He as [ve He]. cbn [max_element]. rewrite Hb, He.
  destruct (ver_ltb vb ve) eqn:E.
  - destruct (IH e) as (l1 & m & l2 & Heq & Hm & H1 & H2); [by exists ve|done|].
    exists (best :: l1), m, l2. split; [by rewrite Heq|]. split; [done|]. split; [|done]. constructor; [|done].
    destruct l1 as [|x l1]; simplify_list_eq; unfold older; rewrite Hb; [by rewrite He|].
    inversion_clear H1 as [|? ? Hx _]. unfold older in Hx. rewrite He in Hx.
    destruct (parseVersion (fversion m)) as [vm|]; [|done]. by apply (ver_ltb_trans vb ve vm).
  - destruct (IH best) as (l1 & m & l2 & Heq & Hm & H1 & H2); [by exists vb|done|].
    destruct l1 as [|x l1]; injection Heq as Hx Heq.
    + subst m l2. exists [], best, (e :: l). split; [done|]. split; [done|]. split; [done|]. constructor; [|done].
      unfold older. by rewrite Hb, He.
    + subst x l. exists (best :: e :: l1), m, l2. split; [done|]. split; [done|]. split; [|done].
      inversion_clear H1 as [|? ? Hx Hrest]. constructor; [done|]. constructor; [|done].
      unfold older in *. rewrite Hb in Hx. rewrite He. destruct (parseVersion (fversion m)) as [vm|]; [|done].
      by apply (ver_leb_ltb_trans ve vb vm).
Qed.

Lemma eligible_defined cur cfg e : eligible cur cfg e = true -> defined e.
Proof.
  unfold eligible, isNewerThan, defined. destruct (parseVersion (fversion e)) as [v|]; [eauto|]. done.
Qed.

(** The entries that fit the rest of a catalogue leave a place for each candidate. *)
Lemma filter_place (P : FirmwareEntry -> Prop) `{!forall e, Decision (P e)} cat l1 m l2 :
  base.filter P cat = l1 ++ m :: l2 ->
  exists c1 c2, cat = c1 ++ m :: c2 /\ base.filter P c1 = l1 /\ base.filter P c2 = l2.
Proof.
  revert l1. induction cat as [|e cat IH]; intros l1; [by destruct l1|]. rewrite filter_cons.
  destruct (decide (P e)) as [He|He]; intros Heq.
  - destruct l1 as [|x l1]; injection Heq as Hx Heq; subst; [by exists [], cat|].
    destruct (IH _ Heq) as (c1 & c2 & -> & Hc1 & Hc2). exists (x :: c1), c2.
    split; [done|]. split; [|done]. rewrite filter_cons_True by done. by rewrite Hc1.
  - destruct (IH _ Heq) as (c1 & c2 & -> & Hc1 & Hc2). exists (e :: c1), c2.
    split; [done|]. split; [|done]. by rewrite filter_cons_False.
Qed.

(** From every catalogue whose versions can be read, one entry at most is
    chosen: the first of the newest among those that are newer than the running
    version and permitted by the lists of denied and allowed versions. *)
Theorem selectCandidates_correct cat cur cfg r :
  selectCandidates cat cur cfg = Some r ->
  (r = [] /\ Forall (fun e => eligible cur cfg e = false) cat) \/
  (exists c1 e c2, r = [e] /\ cat = c1 ++ e :: c2 /\ eligible cur cfg e = true /\
     Forall (fun e' => eligible cur cfg e' = true -> older e' e = true) c1 /\
     Forall (fun e' => eligible cur cfg e' = true -> older e e' = false) c2).
Proof.
  unfold selectCandidates. destruct (candidates cat cur cfg) as [l|] eqn:E; [|done]. apply candidates_filter in E.
  assert (Hall : Forall (fun e => eligible cur cfg e = true) l) by (subst l; apply Forall_forall; by intros x [? _]%list_elem_of_filter).
  destruct l as [|b l].
  { intros [= <-]. left. split; [done|]. apply Forall_forall. intros e He. apply not_true_is_false. intros Ht.
    assert (Hin : e ∈ []) by (rewrite E; by apply list_elem_of_filter). by apply not_elem_of_nil in Hin. }
  inversion Hall as [|? ? Hb Hl]; subst.
  destruct (max_element_first b l) as (l1 & m & l2 & Heq & Hm & H1 & H2).
  { by eapply eligible_defined. }
  { eapply Forall_impl; [exact Hl|]. intros x. apply eligible_defined. }
  rewrite Hm. intros [= <-]. right. rewrite E in Heq. destruct (filter_place _ _ _ _ _ Heq) as (c1 & c2 & -> & Hc1 & Hc2).
  exists c1, m, c2. rewrite E, Heq in Hall. apply Forall_app in Hall as [_ Hm'].
  apply Forall_inv in Hm'. repeat split; [done| |].
  - rewrite Forall_forall in H1. apply Forall_forall. intros x Hx Ht. apply H1. rewrite <- Hc1. by apply list_elem_of_filter.
  - rewrite Forall_forall in H2. apply Forall_forall. intros x Hx Ht. apply H2. rewrite <- Hc2. by apply list_elem_of_filter.
Qed.

Lemma max_element_elem best l m : max_element best l = Some m -> m ∈ best :: l.
Proof.
  revert best. induction l as [|e l IH]; intros best; cbn [max_element]; [intros [= <-]; by apply list_elem_of_singleton|].
  destruct (parseVersion (fversion best)), (parseVersion (fversion e)); try done. intros H%IH.
  destruct (ver_ltb _ _); rewrite !elem_of_cons in *; tauto.
Qed.

(** What is chosen may be downloaded. *)
Lemma selected_eligible cat cur cfg r :
  selectCandidates cat cur cfg = Some r -> Forall (fun e => eligible cur cfg e = true) r.
Proof.
  unfold selectCandidates. destruct (candidates cat cur cfg) as [l|] eqn:E; [|done]. apply candidates_filter in E.
  destruct l as [|b l]; [by intros [= <-]|]. destruct (max_element b l) as [m|] eqn:Em; [|done]. intros [= <-].
  apply max_element_elem in Em. rewrite E in Em. apply list_elem_of_filter in Em as [? _]. by constructor.
Qed.

(** The choice is defined exactly when every version of a catalogue that is not
    empty, and the running version, fit into integers. *)
Lemma selectCandidates_defined cat cur cfg :
  (exists r, selectCandidates cat cur cfg = Some r) <->
  (cat = [] \/ (exists v, parseVersion cur = Some v) /\ Forall defined cat).
Proof.
  assert (Hc : (exists l, candidates cat cur cfg = Some l) <->
    (cat = [] \/ (exists v, parseVersion cur = Some v) /\ Forall defined cat)).
  { induction cat as [|e cat IH]; [by split; [left|eexists]|]. rewrite Forall_cons. cbn [candidates]. unfold isNewerThan, defined at 1.
    destruct (parseVersion (fversion e)) as [v|]; [|split; [by intros [? ?]|intros [?|(_ & (? & ?) & _)]; done]].
    destruct (parseVersion cur) as [c|] eqn:Ecur; [|split; [by intros [? ?]|intros [?|([? ?] & _)]; done]].
    destruct (candidates cat cur cfg) as [l|].
    - destruct (proj1 IH ltac:(eauto)) as [->|[_ H]]; (split; [right|]; eauto 6).
    - split; [by intros [? ?]|]. intros [?|(_ & _ & H)]; [done|]. by destruct (proj2 IH ltac:(eauto)). }
  rewrite <- Hc. unfold selectCandidates. split.
  - destruct (candidates cat cur cfg) as [l|]; [eauto|]. by intros [? ?].
  - intros [l Hl]. rewrite Hl. destruct l as [|b l]; [eauto|]. pose proof (candidates_filter _ _ _ _ Hl) as Hf.
    assert (Hd : Forall defined (b :: l)).
    { rewrite Hf. apply Forall_forall. intros x [Hx _]%list_elem_of_filter. by eapply eligible_defined. }
    inversion_clear Hd as [|? ? Hb Hd'].
    destruct (max_element_first b l Hb Hd') as (? & m & ? & _ & -> & _). eauto.
Qed.

(** Suffixes do not count: a release is not newer than its candidates, and a
    version that does not begin with a number is older than all others. *)
Theorem suffix_ignored :
  isNewerThan (str "2.0.0") (str "2.0.0-rc1") = Some false /\ isNewerThan (str "v3.0.0") (str "2.0.0") = Some false /\
  isNewerThan (str "2.0.10") (str "2.0.9") = Some true.
Proof. by vm_compute. Qed.

(** ** The catalogue comes from the server *)

Section fetched.

Context {double : Type} (json_parse : bytes -> json double + bytes) (net : network).

(** Entries are returned only when a request to the catalogue was answered with
    status 200 and a body that holds them. *)
Lemma fetchCatalogue_entries cfg h entries h' :
  fetchCatalogue json_parse net cfg h = ((None, entries), h') ->
  exists res, execute net (catalogueClient cfg) h = ((None, Some res), h') /\ status res = ok /\
    exists j, json_parse (res_body res) = inl j /\ entries_from_json j = inl entries.
Proof.
  unfold fetchCatalogue, WebClient.bind, ret.
  destruct (execute_outcome net (catalogueClient cfg) h) as [(res & h1 & ->)|(e & h1 & ->)]; cbn [catalogue_of]; [|done].
  destruct (decide (status res = ok)) as [Hs|]; [|done]. intros H. exists res.
  destruct (json_parse (res_body res)) as [j|w] eqn:Ej; [|done].
  destruct (entries_from_json j) as [es|] eqn:Ee; [|done]. simplify_eq. eauto 6.
Qed.

End fetched.

(** ** Downloads *)

Section downloads.

Context (parse_uri : bytes -> option (url_view * bool)) (sha256 : bytes -> bytes) (readable : bytes -> bool)
  (create_directories : bytes -> bool) (net : network) (files_after : list op -> gmap bytes bytes -> gmap bytes bytes).

(** A file on the disk that need not be downloaded again. *)
Definition good_copy (files : gmap bytes bytes) (p : bytes) (e : FirmwareEntry) : Prop :=
  is_Some (files !! p) /\ (checksum e = [] \/ sha256File sha256 readable files p = checksum e).

Lemma reuse_spec files p e :
  (reuse sha256 readable files p e = (true, files) /\ good_copy files p e) \/
  (reuse sha256 readable files p e = (false, delete p files) /\ ~ good_copy files p e).
Proof.
  unfold reuse, good_copy. destruct (files !! p) as [c|] eqn:E.
  - destruct (decide (checksum e = [])) as [He|He]; [left; eauto|].
    destruct (decide (sha256File sha256 readable files p = checksum e)); [left; eauto|]. right.
    split; [done|]. by intros [_ [?|?]].
  - right. split; [by rewrite delete_id|]. by intros [[? ?] _].
Qed.

(** A round that fails has not received a whole body. *)
Lemma failed_no_body c p t e l x ka : failed_download c p t e -> ReadBody l x (inl ka) ∉ t.
Proof. intros Hf Hin. destruct Hf as [t e Hf _| | |]; [destruct Hf|..]; set_solver. Qed.

Lemma final_body c p t : final_download c p t None -> exists l x ka, ReadBody l x (inl ka) ∈ t.
Proof.
  inversion 1 as [|l st ka Hst]. exists l, (downloadTimeout c), ka. set_solver.
Qed.

Lemma rounds_no_body c p (ts : list (list op * error_code)) l x ka :
  Forall (fun t => failed_download c p t.1 t.2) ts -> ReadBody l x (inl ka) ∉ concat (map fst ts).
Proof.
  induction 1 as [|[t e] ts Ht _ IH]; cbn; [apply not_elem_of_nil|]. rewrite elem_of_app.
  intros [H|H]; [by eapply failed_no_body|done].
Qed.

(** A download succeeds without a request when a file with the right checksum,
    or any file if the catalogue gives none, is there already; otherwise exactly
    when its body was received in full, after a response of success, into the file
    named by the entry.  A path is reported exactly on success. *)
Theorem downloadFirmware_correct entry dir timeout files h r files' h' :
  downloadFirmware parse_uri sha256 readable create_directories net files_after entry dir timeout files h = ((r, files'), h') ->
  let dest := localFilePath parse_uri dir entry in
  dl_version r = fversion entry /\ dl_localPath r = match dl_ec r with Some _ => [] | None => dest end /\
  (good_copy files dest entry -> dl_ec r = None /\ h' = h /\ files' = files) /\
  (~ good_copy files dest entry -> exists ops, h' = h ++ ops /\
     (dl_ec r = None <-> exists url has_port ops1 t, parse_uri (imageUrl entry) = Some (url, has_port) /\
        ops = ops1 ++ t /\ final_download (downloadClient url has_port timeout) dest t None)).
Proof.
  unfold downloadFirmware. cbv zeta. set (dest := localFilePath parse_uri dir entry).
  destruct (reuse_spec files dest entry) as [[-> Hg]|[-> Hg]]; cbn [negb].
  { unfold ret. intros [= <- <- <-]. cbn. by repeat split. }
  assert (Hnone : forall e : fw_error, exists ops, h = h ++ ops /\ (Some e = None <-> exists url has_port ops1 t,
    parse_uri (imageUrl entry) = Some (url, has_port) /\ ops = ops1 ++ t /\
    final_download (downloadClient url has_port timeout) dest t None)).
  { intros e. exists []. rewrite app_nil_r. split; [done|]. split; [done|]. intros (? & ? & ops1 & t & _ & Ht & Hf).
    symmetry in Ht. apply app_nil in Ht as [_ ->]. inversion Hf. }
  destruct (create_directories dir); cbn [negb]; [|unfold ret; intros [= <- <- <-]; cbn; split_and!; try done; intros _; apply Hnone].
  destruct (parse_uri (imageUrl entry)) as [[url hp]|] eqn:Eu; [|unfold ret; intros [= <- <- <-]; cbn; split_and!; try done; intros _; apply Hnone].
  clear Hnone. destruct (download_tries net (downloadClient url hp timeout) dest h) as (ts & Hts & [(t & e & Hf & _ & ->)|(e & _ & _ & ->)]).
  - destruct e as [e|]; intros [= <- <- <-]; cbn; split_and!; try done; intros _; (eexists; split; [done|]).
    + split; [done|]. intros (? & ? & ops1 & t' & [= <- <-] & Ht & Hf'). apply final_body in Hf' as (l & x & ka & Hin).
      assert (Hin' : ReadBody l x (inl ka) ∈ concat (map fst ts) ++ t) by (rewrite Ht; apply elem_of_app; by right).
      apply elem_of_app in Hin' as [Hin'|Hin']; [by destruct (rounds_no_body _ _ _ _ _ _ Hts Hin')|]. inversion Hf; subst; set_solver.
    + split; [|done]. intros _. eauto 8.
  - intros [= <- <- <-]; cbn; split_and!; try done; intros _; (eexists; split; [done|]).
    split; [done|]. intros (? & ? & ops1 & t' & [= <- <-] & Ht & Hf'). apply final_body in Hf' as (l & x & ka & Hin).
    destruct (rounds_no_body _ _ _ l x ka Hts). rewrite Ht. apply elem_of_app. by right.
Qed.

End downloads.

(** What was downloaded is not checked: an image whose digest is not the checksum
    of the catalogue is reported as a success. *)
Definition corrupt_download : DownloadResult * gmap bytes bytes :=
  (downloadFirmware (fun _ => Some (mkUrl (str "host") [] (str "/image.tar") [], false)) id (fun _ => true) (fun _ => true)
    (mkNetwork (fun _ _ _ => inl 0) (fun _ _ _ => None) (fun _ _ => inr eof) (fun _ _ => inl 200%Z) (fun _ _ => None)
       (fun _ _ _ => inl true) (fun _ _ => None) (fun _ _ => None))
    (fun _ _ => {[ str "/d/image.tar" := str "corrupt" ]})
    (mkEntry (str "2.0.0") (str "https://host/image.tar") (str "abc") [] []) (str "/d") 1800 ∅ []).1.

Theorem download_unverified :
  let '(r, files) := corrupt_download in
  dl_ec r = None /\ dl_localPath r = str "/d/image.tar" /\
  sha256File id (fun _ => true) files (str "/d/image.tar") = str "corrupt" /\ str "corrupt" <> str "abc".
Proof. vm_compute. by repeat split. Qed.

(** ** Witnesses *)

Definition example_config (denied : list bytes) : AppConfig :=
  mkConfig (str "updates") (str "443") (str "/firmware/catalogue.json") (mkAuth [] []) 3600 true denied [] (str "/d") 1800.

Definition example_entry (v : string) : FirmwareEntry := mkEntry (str v) (str "https://updates/image.tar") [] [] [].

Lemma selectCandidates_correct_witness :
  selectCandidates (map example_entry ["1.9.0"; "2.2.0"; "2.10.1"; "2.10.1-b"; "3.0.0"]) (str "2.1.0") (example_config [str "3.0.0"])
    = Some [example_entry "2.10.1"] /\
  exists c1 c2, map example_entry ["1.9.0"; "2.2.0"; "2.10.1"; "2.10.1-b"; "3.0.0"] = c1 ++ example_entry "2.10.1" :: c2.
Proof.
  assert (H : selectCandidates (map example_entry ["1.9.0"; "2.2.0"; "2.10.1"; "2.10.1-b"; "3.0.0"]) (str "2.1.0") (example_config [str "3.0.0"])
    = Some [example_entry "2.10.1"]) by (vm_compute; reflexivity).
  split; [exact H|].
  destruct (selectCandidates_correct _ _ _ _ H) as [[Hr _]|(c1 & e & c2 & Hr & Hc & _)]; [discriminate Hr|].
  injection Hr as <-. exists c1, c2. exact Hc.
Defined.

Definition no_network : network :=
  mkNetwork (fun _ _ _ => inr eof) (fun _ _ _ => None) (fun _ _ => inr eof) (fun _ _ => inr eof) (fun _ _ => None)
    (fun _ _ _ => inr eof) (fun _ _ => None) (fun _ _ => None).

Lemma downloadFirmware_correct_witness :
  let '((r, _), h) := downloadFirmware (fun _ => None) id (fun _ => true) (fun _ => true) no_network (fun _ f => f)
    (example_entry "2.0.0") (str "/d") 1800 {[ str "/d/firmware-2.0.0" := str "image" ]} [] in
  dl_ec r = None /\ h = [].
Proof.
  destruct (downloadFirmware _ _ _ _ _ _ _ _ _ _ _) as [[r files] h] eqn:E.
  destruct (downloadFirmware_correct _ _ _ _ _ _ _ _ _ _ _ _ _ _ E) as (_ & _ & H & _).
  destruct H as (H1 & H2 & _); [|split; assumption].
  split; [exists (str "image"); vm_compute; reflexivity|left; reflexivity].
Defined.
