(* ===== verification/FirmwareManager.v ===== *)
(** * The firmware updater: [dbus_fw_manager.hpp] and [firmware_updater.cpp] of
    [examples/firmware_updater/]

    The manager of the downloaded images and the coroutines that check for new ones
    and install them.  Checks may overlap, because [CheckNow] starts one at any time;
    [step] runs one coroutine to its next suspension.  What the bus and the server
    answer is part of the events. *)

From S2P Require Import Prelude StdMap ConsoleConfig GraphqlExecutor WebClient FirmwareCatalogue PropertyWatcher.
From Stdlib Require Import Sorting.Sorted.

(** ** The manager *)

Record FirmwareRecord := mkRecord { entry : FirmwareEntry; localPath : bytes; objPath : bytes }.

(** [objects] are the paths of the interfaces of images at the object server,
    [signals] those emitted. *)
Record manager := mkManager {
  records : list (bytes * FirmwareRecord);
  objects : list bytes;
  availableFirmware : list bytes;
  signals : list (bytes * bytes);
}.

Definition newManager : manager := mkManager [] [] [] [].

Definition fwUpdaterBasePath : bytes := str "/xyz/openbmc_project/firmware_updater".

Definition sanitise (version : bytes) : bytes := map (fun c => if decide (c = "."%byte) then "_"%byte else c) version.

Definition image_path (version : bytes) : bytes := fwUpdaterBasePath ++ str "/images/" ++ sanitise version.

Definition updateAvailableFirmware (m : manager) : manager :=
  mkManager (records m) (objects m) (map fst (records m)) (signals m).

Definition emitFirmwareAvailable (m : manager) (version path : bytes) : manager :=
  mkManager (records m) (objects m) (availableFirmware m) (signals m ++ [(version, path)]).

Definition hasVersion (m : manager) (version : bytes) : bool := match object_get (records m) version with Some _ => true | None => false end.

Definition ListFirmware (m : manager) : list (bytes * bytes * bytes * bytes * bytes) :=
  map (fun kv => (fversion (entry kv.2), localPath kv.2, checksum (entry kv.2), releaseDate (entry kv.2), description (entry kv.2)))
    (records m).

Definition removeFirmware (m : manager) (version : bytes) : manager :=
  match object_get (records m) version with
  | None => m
  | Some rec =>
      updateAvailableFirmware (mkManager (object_erase (records m) version)
        (list_difference (objects m) [objPath rec]) (availableFirmware m) (signals m))
  end.

Section updater.

(** Whether the object server takes an interface at a path, given the paths it
    has; it throws if it does not. *)
Context (accepts : list bytes -> bytes -> bool).

(** [None] is an exception. *)
Definition onFirmwareDownloaded (m : manager) (result : DownloadResult) (e : FirmwareEntry) : option manager :=
  match dl_ec result with
  | Some _ => Some m
  | None =>
      let ver := fversion e in
      if hasVersion m ver then Some m
      else if negb (accepts (objects m) (image_path ver)) then None
      else
        let m := mkManager (object_set (records m) ver (mkRecord e (dl_localPath result) (image_path ver)))
                   (objects m ++ [image_path ver]) (availableFirmware m) (signals m) in
        Some (emitFirmwareAvailable (updateAvailableFirmware m) ver (dl_localPath result))
  end.

(** ** Checks *)

Context (cfg : AppConfig).

(** Where [runCheckCycle] is suspended. *)
Inductive cycle :=
  | ReadingVersion
  | Fetching (currentVer : bytes)
  | Downloading (e : FirmwareEntry) (rest : list FirmwareEntry)
  | Ended.

(** The loop over the candidates, to the next download. *)
Fixpoint next_download (m : manager) (l : list FirmwareEntry) : cycle :=
  match l with
  | [] => Ended
  | e :: l => if hasVersion m (fversion e) then next_download m l else Downloading e l
  end.

(** [pollingLoop]: it awaits a check, or its timer. *)
Inductive polling := Checking (i : nat) | Sleeping | Exited.

Record state := mkState {
  mgr : manager;
  cycles : list cycle;
  posted : list (DownloadResult * FirmwareEntry);
  poll : polling;
}.

Inductive outcome := Next (s : state) | Disabled | Exception | Undefined.

Definition start_cycle (s : state) : state := mkState (mgr s) (cycles s ++ [ReadingVersion]) (posted s) (poll s).
Definition set_cycle (s : state) (i : nat) (c : cycle) : state := mkState (mgr s) (<[i := c]> (cycles s)) (posted s) (poll s).
Definition set_poll (s : state) (p : polling) : state := mkState (mgr s) (cycles s) (posted s) p.

Definition poll_cycle (s : state) : state := set_poll (start_cycle s) (Checking (length (cycles s))).

(** What follows a check in [pollingLoop]. *)
Definition poll_rest (s : state) : state := set_poll s (if (pollIntervalSeconds cfg <=? 0)%Z then Exited else Sleeping).

(** [main] up to [ioc.run()]. *)
Definition boot : state :=
  let s := mkState newManager [] [] Exited in
  if pollAtStartup cfg then poll_cycle s else poll_rest s.

Inductive event :=
  | CheckNow
  | VersionRead (i : nat) (r : option fw_error * bytes)
  | CatalogueRead (i : nat) (r : option fw_error * list FirmwareEntry)
  | Downloaded (i : nat) (r : DownloadResult)
  | Registered
  | CheckReturns
  | TimerEnds (aborted : bool)
  | Removed (version : bytes).

Definition step (s : state) (e : event) : outcome :=
  match e with
  | CheckNow => Next (start_cycle s)
  | VersionRead i (verEc, currentVer) =>
      match cycles s !! i with
      | Some ReadingVersion =>
          Next (set_cycle s i (match verEc with
                               | Some _ => Ended
                               | None => if decide (currentVer = []) then Ended else Fetching currentVer
                               end))
      | _ => Disabled
      end
  | CatalogueRead i (catEc, catalogue) =>
      match cycles s !! i with
      | Some (Fetching currentVer) =>
          match catEc with
          | Some _ => Next (set_cycle s i Ended)
          | None =>
              match selectCandidates catalogue currentVer cfg with
              | None => Undefined
              | Some l => Next (set_cycle s i (next_download (mgr s) l))
              end
          end
      | _ => Disabled
      end
  | Downloaded i r =>
      match cycles s !! i with
      | Some (Downloading e rest) =>
          let s := match dl_ec r with
                   | Some _ => s
                   | None => mkState (mgr s) (cycles s) (posted s ++ [(r, e)]) (poll s)
                   end in
          Next (set_cycle s i (next_download (mgr s) rest))
      | _ => Disabled
      end
  | Registered =>
      match posted s with
      | [] => Disabled
      | (r, e) :: posted =>
          match onFirmwareDownloaded (mgr s) r e with
          | None => Exception
          | Some m => Next (mkState m (cycles s) posted (poll s))
          end
      end
  | CheckReturns =>
      match poll s with
      | Checking i => match cycles s !! i with Some Ended => Next (poll_rest s) | _ => Disabled end
      | _ => Disabled
      end
  | TimerEnds aborted =>
      match poll s with
      | Sleeping => Next (if aborted then set_poll s Exited else poll_cycle s)
      | _ => Disabled
      end
  | Removed v => Next (mkState (removeFirmware (mgr s) v) (cycles s) (posted s) (poll s))
  end.

Fixpoint run (s : state) (es : list event) : outcome :=
  match es with
  | [] => Next s
  | e :: es => match step s e with Next s => run s es | o => o end
  end.

End updater.

(** ** Installing *)

Definition ends_with (s suffix : bytes) : bool := bool_decide (drop (length s - length suffix) s = suffix).

(** The callback given to [watch]: whether it goes on, and whether it removes the
    record. *)
Definition activation_callback (ec : option bus_error) (stateOpt : option bytes) : bool * bool :=
  match ec, stateOpt with
  | None, Some st =>
      if ends_with st (str "Active") then (false, true)
      else if ends_with st (str "Failed") || ends_with st (str "Invalid") then (false, false)
      else (true, false)
  | _, _ => (false, false)
  end.

(** What the bus answers to one installation: the interfaces of the object that
    [watchOnce] returns, the services of [getObjects], the result of [setProperty]
    and what the watch of [Activation] hears. *)
Record answers := mkAnswers {
  added : option (bytes * list bytes);
  services : list (bytes * list bytes) + nat;
  setEc : option nat;
  states : list (option bus_error * bytes);
}.

(** How an installation ends, with the service and object asked to activate. *)
Inductive installed :=
  | NotStaged
  | NoObject
  | NoService
  | NotActivated (service path : bytes)
  | Watched (service path : bytes) (outs : list (output (T := bytes))).

(** Steps 3 to 5 of [invokeSoftwareUpdate]. *)
Definition activation (a : answers) : installed :=
  match added a with
  | None => NoObject
  | Some (newObjPath, interfaces) =>
      if bool_decide (activationIface ∈ interfaces) then
        match services a with
        | inr _ | inl [] => NoService
        | inl ((service, _) :: _) =>
            match setEc a with
            | Some _ => NotActivated service newObjPath
            | None => Watched service newObjPath (watch_spec (fun ec v => (activation_callback ec v).1) (states a))
            end
        end
      else NoObject
  end.

(** The effect of the callbacks on the manager. *)
Definition callbacks (m : manager) (version : bytes) (outs : list (output (T := bytes))) : manager :=
  foldl (fun m o => match o with
                    | Callback ec v => if (activation_callback ec v).2 then removeFirmware m version else m
                    | _ => m
                    end) m outs.

(** An installation: [version] is a reference to the argument of the method, the
    address of its string, and [localPath] one into the record of [key]. *)
Inductive installation :=
  | Posted (version : nat) (key : bytes)
  | Staged (version : nat)
  | Over (r : installed).

(** [mem] has the strings that live and are not of the records, by their address. *)
Record installer := mkInstaller { mem : gmap nat bytes; imgr : manager; tasks : list installation }.

(** [invokeSoftwareUpdate] up to [watchOnce], which reads [localPath] and, once the
    file is copied, logs [version].  [None] reads a string that is gone. *)
Definition install_begin (st : installer) (version : nat) (key : bytes) (copied : bool) : option installation :=
  match object_get (records (imgr st)) key with
  | None => None
  | Some _ => if copied then match mem st !! version with Some _ => Some (Staged version) | None => None end
              else Some (Over NotStaged)
  end.

(** From there to its end: it logs [version] before it looks at the result. *)
Definition install_rest (st : installer) (version : nat) (a : answers) : option (installed * manager) :=
  match mem st !! version with
  | None => None
  | Some v => Some (activation a, match activation a with Watched _ _ outs => callbacks (imgr st) v outs | _ => imgr st end)
  end.

(** [triggerInstall(version)]: an unknown version is an error of the method.
    [inline] tells whether [co_spawn] runs the coroutine at once, or posts it. *)
Definition triggerInstall (st : installer) (version : nat) (inline copied : bool) : option installer :=
  match mem st !! version with
  | None => None
  | Some v =>
      match object_get (records (imgr st)) v with
      | None => Some st
      | Some _ =>
          task ← (if inline then install_begin st version v copied else Some (Posted version v));
          Some (mkInstaller (mem st) (imgr st) (tasks st ++ [task]))
      end
  end.

(** The method [Install] is called, a posted coroutine starts, and one is resumed
    when the bus has answered. *)
Inductive install_event :=
  | Install (version : bytes) (inline copied : bool)
  | Starts (i : nat) (copied : bool)
  | Resumes (i : nat) (a : answers).

(** The argument of the method lives until its handler returns. *)
Definition install_step (st : installer) (e : install_event) : option installer :=
  match e with
  | Install v inline copied =>
      let arg := fresh (dom (mem st)) in
      st ← triggerInstall (mkInstaller (<[arg := v]> (mem st)) (imgr st) (tasks st)) arg inline copied;
      Some (mkInstaller (delete arg (mem st)) (imgr st) (tasks st))
  | Starts i copied =>
      match tasks st !! i with
      | Some (Posted version key) =>
          task ← install_begin st version key copied;
          Some (mkInstaller (mem st) (imgr st) (<[i := task]> (tasks st)))
      | _ => Some st
      end
  | Resumes i a =>
      match tasks st !! i with
      | Some (Staged version) =>
          '(r, m) ← install_rest st version a;
          Some (mkInstaller (mem st) m (<[i := Over r]> (tasks st)))
      | _ => Some st
      end
  end.

Fixpoint install_run (st : installer) (es : list install_event) : option installer :=
  match es with
  | [] => Some st
  | e :: es => st ← install_step st e; install_run st es
  end.

(** ** The manager is consistent *)

(** The records are those of [std::map], the property lists their versions, and
    every record has its own object. *)
Record minv (m : manager) : Prop := mkMinv {
  m_sorted : StronglySorted key_lt (records m);
  m_available : availableFirmware m = map fst (records m);
  m_objects : objects m ≡ₚ map (fun kv => objPath kv.2) (records m);
  m_distinct : NoDup (objects m);
  m_keys k rec : object_get (records m) k = Some rec -> fversion (entry rec) = k /\ objPath rec = image_path k;
}.

Lemma new_minv : minv newManager.
Proof. split; cbn; try done; constructor. Qed.

Lemma remove_minv m v : minv m -> minv (removeFirmware m v).
Proof.
  intros [Hs Ha Ho Hd Hk]. unfold removeFirmware. destruct (object_get (records m) v) as [rec|] eqn:E; [|by split].
  assert (Hp : objects m ≡ₚ objPath rec :: map (fun kv => objPath kv.2) (object_erase (records m) v)).
  { rewrite Ho. rewrite (object_erase_one _ _ _ Hs E) at 1. done. }
  assert (Hnd : objPath rec ∉ map (fun kv => objPath kv.2) (object_erase (records m) v)).
  { rewrite Hp in Hd. by apply NoDup_cons in Hd as [? _]. }
  split; cbn.
  - by apply object_erase_sorted.
  - done.
  - apply NoDup_Permutation; [by apply NoDup_list_difference| |].
    + rewrite Hp in Hd. by apply NoDup_cons in Hd as [_ ?].
    + intros x. rewrite list_elem_of_difference, Hp, elem_of_cons, list_elem_of_singleton. split; [by intros [[->|?] ?]|].
      intros Hx. split; [by right|]. by intros ->.
  - by apply NoDup_list_difference.
  - intros k r. rewrite object_get_erase. destruct (decide (v = k)); [done|]. apply Hk.
Qed.

Section facts.

Context (accepts : list bytes -> bytes -> bool) (cfg : AppConfig).

(** The object server takes one interface at a path. *)
Context (accepts_once : forall objs p, accepts objs p = true -> p ∉ objs).

Lemma register_minv m r e m' :
  minv m -> onFirmwareDownloaded accepts m r e = Some m' ->
  minv m' /\ (dl_ec r = None -> hasVersion m' (fversion e) = true) /\
  (forall k rec, object_get (records m') k = Some rec -> object_get (records m) k = Some rec \/
     (dl_ec r = None /\ k = fversion e /\ rec = mkRecord e (dl_localPath r) (image_path k) /\
      signals m' = signals m ++ [(k, dl_localPath r)])) /\
  signals m `prefix_of` signals m'.
Proof.
  intros Hm. unfold onFirmwareDownloaded. destruct (dl_ec r) eqn:Er; [intros [= <-]; split_and!; try done; intros; by left|].
  destruct (hasVersion m (fversion e)) eqn:Ev; [intros [= <-]; split_and!; try done; intros; by left|].
  destruct (accepts (objects m) (image_path (fversion e))) eqn:Ea; [|done]. cbn [negb]. intros [= <-].
  unfold hasVersion in Ev. destruct (object_get (records m) (fversion e)) eqn:Eg; [done|].
  destruct Hm as [Hs Ha Ho Hd Hk]. apply accepts_once in Ea. split; [split; cbn|split_and!; cbn].
  - by apply object_set_sorted.
  - done.
  - rewrite (object_set_fresh _ _ _ Eg). cbn. rewrite Ho. by rewrite Permutation_app_comm.
  - apply NoDup_app. split; [done|]. split; [|by apply NoDup_singleton]. intros x Hx ->%list_elem_of_singleton. done.
  - intros k rec. rewrite object_get_set. destruct (decide (fversion e = k)) as [<-|]; [by intros [= <-]|]. apply Hk.
  - intros _. unfold hasVersion. cbn. rewrite object_get_set. by rewrite decide_True.
  - intros k rec. rewrite object_get_set. destruct (decide (fversion e = k)) as [<-|]; [intros [= <-]; by right|by left].
  - by apply prefix_app_r.
Qed.

(** ** What is registered *)

(** The entry was permitted, and newer than the running version that was read. *)
Definition chosen (es : list event) (e : FirmwareEntry) : Prop :=
  isAllowedVersion (fversion e) cfg = true /\
  exists i cur, VersionRead i (None, cur) ∈ es /\ isNewerThan (fversion e) cur = Some true.

Definition downloaded (es : list event) (r : DownloadResult) : Prop := dl_ec r = None /\ exists i, Downloaded i r ∈ es.

Definition cycle_ok (es : list event) (c : cycle) : Prop :=
  match c with
  | Fetching cur => exists i, VersionRead i (None, cur) ∈ es
  | Downloading e rest => Forall (chosen es) (e :: rest)
  | _ => True
  end.

Definition record_ok (es : list event) (m : manager) (kv : bytes * FirmwareRecord) : Prop :=
  chosen es (entry kv.2) /\ (kv.1, localPath kv.2) ∈ signals m /\
  exists r, downloaded es r /\ dl_localPath r = localPath kv.2.

Record inv (es : list event) (s : state) : Prop := mkInv {
  i_mgr : minv (mgr s);
  i_cycles : Forall (cycle_ok es) (cycles s);
  i_posted : Forall (fun p => downloaded es p.1 /\ chosen es p.2) (posted s);
  i_records k rec : object_get (records (mgr s)) k = Some rec -> record_ok es (mgr s) (k, rec);
}.

Lemma chosen_mono es es' e : chosen es e -> chosen (es ++ es') e.
Proof. intros (Ha & i & cur & Hin & Hn). split; [done|]. exists i, cur. split; [|done]. apply elem_of_app. by left. Qed.

Lemma downloaded_mono es es' r : downloaded es r -> downloaded (es ++ es') r.
Proof. intros [He [i Hi]]. split; [done|]. exists i. apply elem_of_app. by left. Qed.

Lemma cycle_mono es es' c : cycle_ok es c -> cycle_ok (es ++ es') c.
Proof.
  destruct c as [|cur|e rest|]; cbn; try done.
  - intros [i Hi]. exists i. apply elem_of_app. by left.
  - intros H. eapply Forall_impl; [exact H|]. intros x. apply chosen_mono.
Qed.

Lemma inv_mono es es' s : inv es s -> inv (es ++ es') s.
Proof.
  intros [Hm Hc Hp Hr]. split; [done|..].
  - eapply Forall_impl; [exact Hc|]. intros c. apply cycle_mono.
  - eapply Forall_impl; [exact Hp|]. intros p [? ?]. split; [by apply downloaded_mono|by apply chosen_mono].
  - intros k rec H. destruct (Hr k rec H) as (Hch & Hs & r & Hd & Hl).
    split; [by apply chosen_mono|]. split; [done|]. exists r. split; [by apply downloaded_mono|done].
Qed.

Lemma next_download_ok es m l : Forall (chosen es) l -> cycle_ok es (next_download m l).
Proof. induction 1 as [|e l He Hl IH]; cbn; [done|]. destruct (hasVersion m (fversion e)); [done|]. by constructor. Qed.

(** Candidates are permitted and newer. *)
Lemma candidates_chosen es catalogue cur l i :
  VersionRead i (None, cur) ∈ es -> selectCandidates catalogue cur cfg = Some l -> Forall (chosen es) l.
Proof.
  intros Hin Hl. apply selected_eligible in Hl. eapply Forall_impl; [exact Hl|]. intros e. unfold eligible.
  destruct (isNewerThan (fversion e) cur) as [[]|] eqn:En; try done. intros Ha. split; [done|]. by exists i, cur.
Qed.

Lemma set_cycle_inv es s i c : inv es s -> cycle_ok es c -> inv es (set_cycle s i c).
Proof. intros [Hm Hc Hp Hr] Hok. split; cbn; try done. by apply Forall_insert. Qed.

Lemma updater_step_inv es s e s' : inv es s -> step accepts cfg s e = Next s' -> inv (es ++ [e]) s'.
Proof.
  intros Hi. pose proof (inv_mono es [e] s Hi) as Hi'. destruct Hi' as [Hm Hc Hp Hr].
  assert (Hlast : e ∈ es ++ [e]) by (apply elem_of_app; right; by apply list_elem_of_singleton).
  destruct e as [|i [verEc cur]|i [catEc cat]|i r| | |aborted|v]; cbn [step].
  - intros [= <-]. split; cbn; try done. apply Forall_app. split; [done|]. by constructor.
  - destruct (cycles s !! i) as [[]|] eqn:E; try done. intros [= <-]. apply set_cycle_inv; [done|].
    destruct verEc; [done|]. destruct (decide (cur = [])); [done|]. by exists i.
  - destruct (cycles s !! i) as [[|cur| |]|] eqn:E; try done.
    destruct catEc; [intros [= <-]; by apply set_cycle_inv|].
    destruct (selectCandidates cat cur cfg) as [l|] eqn:El; [|done]. intros [= <-]. apply set_cycle_inv; [done|].
    apply next_download_ok. destruct (Forall_lookup_1 _ _ _ _ Hc E) as [j Hj]. by eapply candidates_chosen.
  - destruct (cycles s !! i) as [[| |e rest|]|] eqn:E; try done. intros [= <-].
    pose proof (Forall_lookup_1 _ _ _ _ Hc E) as Hok. cbn in Hok. inversion_clear Hok as [|? ? He Hrest].
    assert (H : inv (es ++ [Downloaded i r]) match dl_ec r with Some _ => s | None => mkState (mgr s) (cycles s) (posted s ++ [(r, e)]) (poll s) end).
    { destruct (dl_ec r) eqn:Er; [done|]. split; cbn; try done. apply Forall_app. split; [done|]. constructor; [|done].
      split; [|done]. split; [done|]. by exists i. }
    pose proof (set_cycle_inv _ _ i (next_download (mgr s) rest) H (next_download_ok _ _ _ Hrest)) as H'.
    by destruct (dl_ec r).
  - destruct (posted s) as [|[r e] ps] eqn:Ep; [done|]. destruct (onFirmwareDownloaded accepts (mgr s) r e) as [m|] eqn:Eo; [|done].
    intros [= <-]. inversion_clear Hp as [|? ? [Hd Hch] Hps]. destruct (register_minv _ _ _ _ Hm Eo) as (Hm' & _ & Hrec & Hsig).
    split; cbn; try done. intros k rec Hk. destruct (Hrec k rec Hk) as [Hold|(He & -> & -> & Hsg)].
    + destruct (Hr k rec Hold) as (? & Hs & ?). split; [done|]. split; [|done]. by eapply elem_of_prefix.
    + split; [done|]. split; [|by exists r]. cbn. rewrite Hsg. apply elem_of_app. right. by apply list_elem_of_singleton.
  - destruct (poll s) as [i| |]; try done. destruct (cycles s !! i) as [[]|]; try done. by intros [= <-].
  - destruct (poll s) as [i| |]; try done. intros [= <-]. destruct aborted; [done|]. split; cbn; try done.
    apply Forall_app. split; [done|]. by constructor.
  - intros [= <-]. split; cbn; try done; [by apply remove_minv|]. intros k rec Hk. unfold removeFirmware in *.
    destruct (object_get (records (mgr s)) v) as [rec'|]; [|by apply Hr]. cbn in Hk. rewrite object_get_erase in Hk.
    destruct (decide (v = k)); [done|]. by apply Hr.
Qed.

Lemma updater_run_inv es0 s es s' : inv es0 s -> run accepts cfg s es = Next s' -> inv (es0 ++ es) s'.
Proof.
  revert es0 s. induction es as [|e es IH]; intros es0 s Hi; cbn [run]; [intros [= <-]; by rewrite app_nil_r|].
  destruct (step accepts cfg s e) as [s1| | |] eqn:E; try done. intros Hr.
  replace (es0 ++ e :: es) with ((es0 ++ [e]) ++ es) by (by rewrite <- app_assoc). eapply IH; [|done]. by eapply updater_step_inv.
Qed.

Lemma boot_inv : inv [] (boot cfg).
Proof.
  unfold boot. destruct (pollAtStartup cfg); (split; cbn; [apply new_minv| |constructor|done]); by repeat constructor.
Qed.

(** C27: however checks, registrations, activations and timers interleave, the
    records, the property and the objects of the manager agree, and every image
    registered is permitted by the configuration, newer than a running version that
    was read, downloaded without error to the path given, and announced. *)
Theorem updater_correct es s :
  run accepts cfg (boot cfg) es = Next s ->
  minv (mgr s) /\
  forall v rec, object_get (records (mgr s)) v = Some rec ->
    fversion (entry rec) = v /\ chosen es (entry rec) /\ (v, localPath rec) ∈ signals (mgr s) /\
    exists i r, Downloaded i r ∈ es /\ dl_ec r = None /\ dl_localPath r = localPath rec.
Proof.
  intros Hr. apply (updater_run_inv [] _ es s boot_inv) in Hr as [Hm _ _ Hrec]. split; [done|].
  intros v rec Hv. destruct (Hrec v rec Hv) as (Hch & Hs & r & [He [i Hi]] & Hl).
  split; [by apply (m_keys _ Hm)|]. split; [done|]. split; [done|]. by exists i, r.
Qed.

End facts.

(** ** Polling *)

Definition is_check (e : event) : bool := match e with CheckNow => true | _ => false end.

(** With an interval that is not positive the updater checks by itself at most
    once. *)
Theorem one_shot accepts cfg es s :
  (pollIntervalSeconds cfg <= 0)%Z -> run accepts cfg (boot cfg) es = Next s ->
  poll s <> Sleeping /\
  length (cycles s) = (if pollAtStartup cfg then 1 else 0) + length (base.filter (fun e => is_check e = true) es).
Proof.
  intros Hpoll.
  assert (H : forall es s0, poll s0 <> Sleeping -> run accepts cfg s0 es = Next s ->
    poll s <> Sleeping /\ length (cycles s) = length (cycles s0) + length (base.filter (fun e => is_check e = true) es)).
  { clear es. induction es as [|e es IH]; intros s0 H0; cbn [run]; [intros [= <-]; split; [done|by rewrite Nat.add_0_r]|].
    destruct (step accepts cfg s0 e) as [s1| | |] eqn:E; try done. intros Hr. rewrite filter_cons.
    assert (Hs : poll s1 <> Sleeping /\ length (cycles s1) = length (cycles s0) + (if decide (is_check e = true) then 1 else 0)).
    { destruct e as [|i [verEc cur]|i [catEc cat]|i r| | |aborted|v]; cbn [step] in E.
      - injection E as <-. cbn. rewrite length_app. cbn. by rewrite decide_True.
      - destruct (cycles s0 !! i) as [[]|]; try done. injection E as <-. cbn. rewrite length_insert. by rewrite decide_False; [split; [|lia]|].
      - destruct (cycles s0 !! i) as [[]|]; try done. rewrite decide_False by done.
        destruct catEc; [|destruct (selectCandidates _ _ _); [|done]]; injection E as <-; cbn; rewrite length_insert; split; done || lia.
      - destruct (cycles s0 !! i) as [[]|]; try done. rewrite decide_False by done.
        injection E as <-. destruct (dl_ec r); cbn; rewrite length_insert; split; done || lia.
      - destruct (posted s0) as [|[r e] ps]; [done|]. destruct (onFirmwareDownloaded _ _ _ _); [|done]. injection E as <-.
        rewrite decide_False by done. cbn. split; done || lia.
      - destruct (poll s0) as [i| |]; try done. destruct (cycles s0 !! i) as [[]|]; try done. injection E as <-.
        rewrite decide_False by done. cbn. destruct (Z.leb_spec (pollIntervalSeconds cfg) 0); [|lia]. split; done || lia.
      - by destruct (poll s0).
      - injection E as <-. rewrite decide_False by done. cbn. split; done || lia. }
    destruct Hs as [Hp Hl]. destruct (IH s1 Hp Hr) as [Hp' Hl']. split; [done|].
    destruct (decide (is_check e = true)); cbn [length]; lia. }
  intros Hr. apply H in Hr as [Hp Hl].
  - split; [done|]. rewrite Hl. unfold boot. by destruct (pollAtStartup cfg).
  - unfold boot, poll_rest. destruct (pollAtStartup cfg); cbn; [done|].
    by destruct (Z.leb_spec (pollIntervalSeconds cfg) 0); [|lia].
Qed.

(** ** Installing *)

(** Whether the states heard end in an activation: the first decisive one counts. *)
Fixpoint activated (l : list (option bus_error * bytes)) : bool :=
  match l with
  | [] => false
  | (Some no_such_device, _) :: l => activated l
  | (Some _, _) :: _ => false
  | (None, st) :: l =>
      if ends_with st (str "Active") then true
      else if ends_with st (str "Failed") || ends_with st (str "Invalid") then false else activated l
  end.

(** The callbacks of the watch remove the record exactly when the image becomes
    active before anything else ends the watch. *)
Lemma callbacks_activated m v l :
  callbacks m v (watch_spec (fun ec st => (activation_callback ec st).1) l) = if activated l then removeFirmware m v else m.
Proof.
  induction l as [|[[[]|] st] l IH]; cbn [watch_spec activated]; try done.
  unfold callbacks in *. cbn [foldl].
  unfold activation_callback at 2 3. cbn [fst snd]. destruct (ends_with st (str "Active")); cbn [fst snd]; [done|].
  destruct (_ || _); cbn [fst snd]; [done|]. exact IH.
Qed.

(** The string an installation refers to is gone. *)
Definition dangling (mem : gmap nat bytes) (t : installation) : Prop :=
  match t with Posted v _ | Staged v => mem !! v = None | Over _ => True end.

Lemma install_begin_dangling st v key copied M t :
  M !! v = None -> install_begin st v key copied = Some t -> dangling M t.
Proof.
  intros Hv. unfold install_begin. destruct (object_get _ _); [|done]. destruct copied; [|by intros [= <-]].
  destruct (mem st !! v); [|done]. by intros [= <-].
Qed.

Lemma install_step_dangling st e st' :
  Forall (dangling (mem st)) (tasks st) -> install_step st e = Some st' -> mem st' = mem st /\ Forall (dangling (mem st)) (tasks st').
Proof.
  intros Hd. destruct e as [v inline copied|i copied|i a]; cbn [install_step].
  - set (arg := fresh (dom (mem st))). assert (Ha : mem st !! arg = None) by (apply not_elem_of_dom, is_fresh).
    destruct (triggerInstall _ arg inline copied) as [s1|] eqn:Et; [|done]. intros [= <-]. cbn [mem tasks].
    unfold triggerInstall in Et. cbn [mem imgr tasks] in Et. rewrite lookup_insert_eq in Et.
    assert (Hm : delete arg (<[arg := v]> (mem st)) = mem st) by by apply delete_insert_id.
    destruct (object_get (records (imgr st)) v); [|by injection Et as <-].
    destruct inline; [|injection Et as <-; cbn; split; [done|]; apply Forall_app; split; [done|]; by repeat constructor].
    destruct (install_begin _ arg v copied) as [t|] eqn:Eb; [|done]. injection Et as <-. cbn. split; [done|].
    apply Forall_app; split; [done|]. constructor; [|constructor]. by eapply install_begin_dangling.
  - destruct (tasks st !! i) as [[v key|v|r]|] eqn:Ei; try (by intros [= <-]).
    destruct (install_begin st v key copied) as [t|] eqn:Eb; [|done]. intros [= <-]. split; [done|]. apply Forall_insert; [done|].
    eapply install_begin_dangling; [|done]. exact (Forall_lookup_1 _ _ _ _ Hd Ei).
  - destruct (tasks st !! i) as [[v key|v|r]|] eqn:Ei; try (by intros [= <-]). unfold install_rest.
    pose proof (Forall_lookup_1 _ _ _ _ Hd Ei) as Hv. cbn in Hv. by rewrite Hv.
Qed.

(** The handler of [Install] returns, and its argument goes, before a coroutine that
    waits can be resumed: after any calls and answers, an installation whose image
    was staged reads a string that is gone when it is resumed, and so does one that
    was posted as soon as its image is staged. *)
Theorem install_use_after_free st es st' i :
  tasks st = [] -> install_run st es = Some st' ->
  match tasks st' !! i with
  | Some (Staged _) => forall a, install_step st' (Resumes i a) = None
  | Some (Posted _ _) => install_step st' (Starts i true) = None
  | _ => True
  end.
Proof.
  intros Ht Hr. assert (Hd : Forall (dangling (mem st)) (tasks st)) by (rewrite Ht; constructor). clear Ht.
  assert (mem st' = mem st /\ Forall (dangling (mem st)) (tasks st')) as [Hm Hd'].
  { revert st Hd Hr. induction es as [|e es IH]; intros st Hd Hr; cbn in Hr; [by injection Hr as <-|].
    destruct (install_step st e) as [s1|] eqn:Es; [|done]. apply install_step_dangling in Es as [Hm Hd1]; [|done].
    rewrite <- Hm in *. by apply IH. }
  rewrite <- Hm in Hd'. destruct (tasks st' !! i) as [[v key|v|r]|] eqn:Ei; [| |done|done];
    pose proof (Forall_lookup_1 _ _ _ _ Hd' Ei) as Hv; cbn in Hv; [|intros a]; cbn [install_step]; rewrite Ei.
  - unfold install_begin. rewrite Hv. by destruct (object_get _ _).
  - unfold install_rest. by rewrite Hv.
Qed.

(** ** Limits *)

(** The characters of an object path. *)
Definition path_char (b : byte) : bool :=
  let z := u8 b in ((z =? 47) || (z =? 95) || (48 <=? z) && (z <=? 57) || (65 <=? z) && (z <=? 90) || (97 <=? z) && (z <=? 122))%Z.

Definition example_config (poll : Z) : AppConfig := mkConfig (str "updates") (str "443") [] (mkAuth [] []) poll true [] [] (str "/d") 1800.

Definition download_of (v : string) : list event :=
  [VersionRead 0 (None, str "1.0.0"); CatalogueRead 0 (None, [mkEntry (str v) (str "https://updates/i.tar") [] [] []]);
   Downloaded 0 (mkResult None (str "/d/i.tar") (str v)); Registered].

(** Only dots are replaced in the path of an image: when the object server refuses
    invalid paths, a version with another suffix ends the service. *)
Theorem suffixed_version_throws accepts :
  (forall objs p, accepts objs p = true -> forallb path_char p = true) ->
  run accepts (example_config 0) (boot (example_config 0)) (download_of "2.0.0-rc1") = Exception.
Proof.
  intros H. destruct (accepts [] (image_path (str "2.0.0-rc1"))) eqn:E; [by apply H in E|].
  vm_compute in E. vm_compute. by rewrite E.
Qed.

(** ** Witnesses *)

Definition accepts_new (objs : list bytes) (p : bytes) : bool := bool_decide (p ∉ objs) && forallb path_char p.

Lemma updater_correct_witness : exists s,
  run accepts_new (example_config 60) (boot (example_config 60)) (download_of "2.0.0" ++ [CheckReturns; TimerEnds false; CheckNow]) = Next s /\
  availableFirmware (mgr s) = [str "2.0.0"] /\ minv (mgr s).
Proof.
  eexists. split; [vm_compute; reflexivity|]. split; [reflexivity|].
  refine (proj1 (updater_correct accepts_new (example_config 60) _ (download_of "2.0.0" ++ [CheckReturns; TimerEnds false; CheckNow]) _ _)).
  - intros objs p Hp. unfold accepts_new in Hp. apply andb_true_iff in Hp. exact (bool_decide_eq_true_1 _ (proj1 Hp)).
  - vm_compute; reflexivity.
Defined.

Lemma suffixed_version_throws_witness :
  run accepts_new (example_config 0) (boot (example_config 0)) (download_of "2.0.0-rc1") = Exception.
Proof.
  apply suffixed_version_throws. intros objs p Hp. unfold accepts_new in Hp. apply andb_true_iff in Hp. exact (proj2 Hp).
Defined.

(** A known image is installed: the coroutine waits for its object, and fails. *)
Definition one_image : manager :=
  mkManager [(str "2.0.0", mkRecord (mkEntry (str "2.0.0") [] [] [] []) (str "/d/i.tar") (image_path (str "2.0.0")))]
    [image_path (str "2.0.0")] [str "2.0.0"] [].

Example install_resumed a :
  tasks <$> install_run (mkInstaller ∅ one_image []) [Install (str "2.0.0") true true] = Some [Staged 0] /\
  install_run (mkInstaller ∅ one_image []) [Install (str "2.0.0") true true; Resumes 0 a] = None.
Proof. split; reflexivity. Qed.
