(* ===== verification/TelnetServer.v ===== *)
(** * The telnet console gateway: [examples/telnet_tls/telnet_tls_server.cpp]

    A session negotiates, asks for a user and a password, offers the consoles of
    the configuration and relays one of them.  The protocol is that of [Telnet.v],
    the configuration that of [ConsoleConfig.v].  Up to the relay one coroutine
    runs: it is a function of what its reads return.  The relay is two coroutines
    with one writer: its [step] runs one of them to its next suspension.  PAM, the
    group database and the configuration file are parameters. *)

From S2P Require Import Prelude StdMap Telnet.
From S2P Require ConsoleConfig.

Definition escapeChar : byte := x1d.
Definition maxLoginAttempts : nat := 3.
Definition maxLineLength : nat := 128.

Definition LF : byte := x0a.
Definition crlf : bytes := [CR; LF].

Record ConsoleEntry := mkEntry { name : bytes; socketPath : bytes }.

(** What a session does that others can see. *)
Inductive action :=
  | Sent (data : bytes)
  | Authenticated (user password : bytes) (ok : bool)
  | Waited
  | Opened (entry : ConsoleEntry).

(** [input] is what the reads to come return; then they fail. *)
Record session := mkSession {
  input : list bytes;
  decoder : Decoder.t;
  negotiator : Negotiator;
  pending : bytes;
  lastCr : bool;
  terminalTypeRequested : bool;
  windowSize : Z * Z;
  trace : list action;
}.

Definition makePolicy : Policy :=
  mkPolicy (fun o => bool_decide (o = opt.echo) || bool_decide (o = opt.suppressGoAhead))
    (fun o => bool_decide (o = opt.suppressGoAhead) || bool_decide (o = opt.naws) || bool_decide (o = opt.terminalType)).

Definition newSession (inp : list bytes) : session :=
  mkSession inp Decoder.init (Negotiator.init makePolicy) [] false false (0, 0)%Z [].

Definition emit (s : session) (a : action) : session :=
  mkSession (input s) (decoder s) (negotiator s) (pending s) (lastCr s) (terminalTypeRequested s) (windowSize s) (trace s ++ [a]).

(** [send], while no other coroutine writes. *)
Definition send (s : session) (data : bytes) : session := emit s (Sent data).

Definition set_negotiator (s : session) (n : Negotiator) : session :=
  mkSession (input s) (decoder s) n (pending s) (lastCr s) (terminalTypeRequested s) (windowSize s) (trace s).
Definition set_requested (s : session) : session :=
  mkSession (input s) (decoder s) (negotiator s) (pending s) (lastCr s) true (windowSize s) (trace s).
Definition set_windowSize (s : session) (w : Z * Z) : session :=
  mkSession (input s) (decoder s) (negotiator s) (pending s) (lastCr s) (terminalTypeRequested s) w (trace s).
Definition set_pending (s : session) (p : bytes) : session :=
  mkSession (input s) (decoder s) (negotiator s) p (lastCr s) (terminalTypeRequested s) (windowSize s) (trace s).
Definition set_app (s : session) (p : bytes) (cr : bool) : session :=
  mkSession (input s) (decoder s) (negotiator s) p cr (terminalTypeRequested s) (windowSize s) (trace s).
Definition set_input (s : session) (inp : list bytes) : session :=
  mkSession inp (decoder s) (negotiator s) (pending s) (lastCr s) (terminalTypeRequested s) (windowSize s) (trace s).
Definition set_decoder (s : session) (d : Decoder.t) : session :=
  mkSession (input s) d (negotiator s) (pending s) (lastCr s) (terminalTypeRequested s) (windowSize s) (trace s).

Definition initialNegotiation (s : session) : session * bytes :=
  let '(n, o1) := Negotiator.request (negotiator s) cmd.will opt.echo in
  let '(n, o2) := Negotiator.request n cmd.will opt.suppressGoAhead in
  let '(n, o3) := Negotiator.request n cmd.doo opt.suppressGoAhead in
  let '(n, o4) := Negotiator.request n cmd.doo opt.naws in
  let '(n, o5) := Negotiator.request n cmd.doo opt.terminalType in
  (set_negotiator s n, o1 ++ o2 ++ o3 ++ o4 ++ o5).

(** [onEvent]: the session, and what it sends. *)
Definition onEvent (s : session) (event : Event) : session * list bytes :=
  match event with
  | Negotiation verb o =>
      let '(n, reply) := Negotiator.handle (negotiator s) verb o in
      let s := set_negotiator s n in
      let sends := if decide (reply = []) then [] else [reply] in
      if bool_decide (verb = cmd.will) && bool_decide (o = opt.terminalType) &&
         Negotiator.remoteEnabled n opt.terminalType && negb (terminalTypeRequested s)
      then (set_requested s, sends ++ [terminalTypeSendFrame])
      else (s, sends)
  | Subnegotiation o payload =>
      if decide (o = opt.naws) then
        (match parseNaws payload with Some size => set_windowSize s size | None => s end, [])
      else (s, [])
  | Command _ => (s, [])
  end.

(** The loop that drops the LF of a CR LF: the bytes appended, and [lastCr_]. *)
Fixpoint collapse (cr : bool) (decoded : bytes) : bytes * bool :=
  match decoded with
  | [] => ([], cr)
  | c :: decoded =>
      if bool_decide (c = LF) && cr then collapse false decoded
      else let '(app, cr) := collapse (bool_decide (c = CR)) decoded in (c :: app, cr)
  end.

(** The part of [readApp] that decodes what was read, and the part after the
    events were handled. *)
Definition decode (s : session) (data : bytes) : session * bytes * list Event :=
  let io := Decoder.feed data (Decoder.mkIo (decoder s) [] []) in
  (set_decoder s (Decoder.dec io), Decoder.out io, Decoder.events io).

Definition append (s : session) (decoded : bytes) : session :=
  let '(app, cr) := collapse (lastCr s) decoded in set_app s (pending s ++ app) cr.

Definition handle_event (s : session) (e : Event) : session :=
  let '(s, sends) := onEvent s e in foldl send s sends.

Definition absorb (s : session) (data : bytes) : session :=
  let '(s, decoded, events) := decode s data in append (foldl handle_event s events) decoded.

(** [readApp]: whether it succeeded. *)
Fixpoint read_loop (chunks : list bytes) (s : session) : bool * session :=
  match chunks with
  | [] => (false, set_input s [])
  | c :: cs =>
      let s := absorb (set_input s cs) c in
      if decide (pending s = []) then read_loop cs s else (true, s)
  end.

Definition readApp (s : session) : bool * session := read_loop (input s) s.

Definition nextByte (s : session) : option byte * session :=
  let '(ok, s) := match pending s with [] => readApp s | _ => (true, s) end in
  if ok then match pending s with c :: p => (Some c, set_pending s p) | [] => (None, s) end
  else (None, s).

(** [readLine]; the fuel bounds the bytes read. *)
Fixpoint readLine (fuel : nat) (echo : bool) (line : bytes) (s : session) : option (option bytes * session) :=
  match fuel with
  | 0 => None
  | S fuel =>
      let '(c, s) := nextByte s in
      match c with
      | None => Some (None, s)
      | Some c =>
          if bool_decide (c = CR) || bool_decide (c = LF) then Some (Some line, send s crlf)
          else if bool_decide (c = x03) || bool_decide (c = x04) then Some (None, s)
          else if bool_decide (c = x7f) || bool_decide (c = x08) then
            match line with
            | [] => readLine fuel echo line s
            | _ => readLine fuel echo (removelast line) (if echo then send s [x08; " "%byte; x08] else s)
            end
          else if (u8 c <? 32)%Z || (127 <=? u8 c)%Z || (maxLineLength <=? length line) then readLine fuel echo line s
          else readLine fuel echo (line ++ [c]) (if echo then send s [c] else s)
      end
  end.

(** What there is to read, which bounds the fuel. *)
Definition unread (s : session) : nat := length (pending s) + length (concat (input s)).

Definition read_line (echo : bool) (s : session) : option (option bytes * session) := readLine (S (unread s)) echo [] s.

(** ** The relay *)

Inductive RelayEnd := none | escape | consoleClosed | clientClosed.

#[export] Instance RelayEnd_eq_dec : EqDecision RelayEnd.
Proof. solve_decision. Defined.

(** Where the two coroutines are suspended.  [Handling] awaits a [send] of
    [onEvent], with the frames and the events left and the bytes decoded. *)
Inductive to_console :=
  | Reading
  | Handling (frames : list bytes) (events : list Event) (decoded : bytes)
  | Writing (out : bytes) (esc : bool)
  | ConsoleDone.

Inductive to_client := ClReading | ClSending | ClientDone.

Inductive coroutine := ToConsole | ToClient.

(** [outQueue] and [writer] belong to [send]; [aborted] tells that [cancel] has
    aborted the read of the TLS stream that is under way, which then completes
    without the client; [written] was handed to the console. *)
Record relay := mkRelay {
  sess : session;
  end_ : RelayEnd;
  tc : to_console;
  cl : to_client;
  closed : bool;
  aborted : bool;
  outQueue : bytes;
  writer : option coroutine;
  written : bytes;
}.

Definition set_sess (r : relay) (s : session) : relay :=
  mkRelay s (end_ r) (tc r) (cl r) (closed r) (aborted r) (outQueue r) (writer r) (written r).
Definition set_end (r : relay) (e : RelayEnd) : relay :=
  mkRelay (sess r) e (tc r) (cl r) (closed r) (aborted r) (outQueue r) (writer r) (written r).
Definition set_tc (r : relay) (p : to_console) : relay :=
  mkRelay (sess r) (end_ r) p (cl r) (closed r) (aborted r) (outQueue r) (writer r) (written r).
Definition set_cl (r : relay) (p : to_client) : relay :=
  mkRelay (sess r) (end_ r) (tc r) p (closed r) (aborted r) (outQueue r) (writer r) (written r).
Definition closeConsole (r : relay) : relay :=
  mkRelay (sess r) (end_ r) (tc r) (cl r) true (aborted r) (outQueue r) (writer r) (written r).
Definition set_writer (r : relay) (q : bytes) (w : option coroutine) : relay :=
  mkRelay (sess r) (end_ r) (tc r) (cl r) (closed r) (aborted r) q w (written r).
Definition set_aborted (r : relay) (b : bool) : relay :=
  mkRelay (sess r) (end_ r) (tc r) (cl r) (closed r) b (outQueue r) (writer r) (written r).

(** [socket_->lowest_layer().cancel()] aborts what is under way. *)
Definition cancel (r : relay) : relay := set_aborted r (match tc r with Reading => true | _ => false end).

(** [if (end_ == RelayEnd::none) end_ = e;] *)
Definition end_with (r : relay) (e : RelayEnd) : relay := if decide (end_ r = none) then set_end r e else r.

(** [send] up to its first suspension: whether the coroutine is suspended. *)
Definition relay_send (r : relay) (who : coroutine) (data : bytes) : bool * relay :=
  match writer r with
  | Some _ => (false, set_writer r (outQueue r ++ data) (writer r))
  | None =>
      let chunk := outQueue r ++ data in
      if decide (chunk = []) then (false, r)
      else (true, set_writer (set_sess r (send (sess r) chunk)) [] (Some who))
  end.

Definition tc_end (r : relay) : relay := closeConsole (set_tc r ConsoleDone).

(** From [readApp] on, when it has put bytes into [pending_]. *)
Definition tc_app (r : relay) : relay :=
  if decide (end_ r <> none) then tc_end r
  else
    let app := pending (sess r) in
    let r := set_sess r (set_pending (sess r) []) in
    let '(out, rest) := ConsoleConfig.span (fun c => negb (bool_decide (c = escapeChar))) app in
    let esc := match rest with [] => false | _ => true end in
    match out with
    | [] => if esc then tc_end (end_with r escape) else set_tc r Reading
    | _ => set_tc r (Writing out esc)
    end.

(** The head of the loop. *)
Definition tc_loop (r : relay) : relay :=
  if decide (end_ r <> none) then tc_end r
  else match pending (sess r) with [] => set_tc r Reading | _ => tc_app r end.

(** After the events of one read. *)
Definition tc_decoded (r : relay) (decoded : bytes) : relay :=
  let r := set_sess r (append (sess r) decoded) in
  match pending (sess r) with [] => set_tc r Reading | _ => tc_app r end.

(** Sends frames until one suspends: the frames left, if so. *)
Fixpoint tc_sends (r : relay) (frames : list bytes) : relay * option (list bytes) :=
  match frames with
  | [] => (r, None)
  | f :: frames =>
      let '(suspended, r) := relay_send r ToConsole f in
      if suspended then (r, Some frames) else tc_sends r frames
  end.

Fixpoint tc_events (r : relay) (events : list Event) (decoded : bytes) : relay :=
  match events with
  | [] => tc_decoded r decoded
  | e :: events =>
      let '(s, frames) := onEvent (sess r) e in
      match tc_sends (set_sess r s) frames with
      | (r, Some frames) => set_tc r (Handling frames events decoded)
      | (r, None) => tc_events r events decoded
      end
  end.

(** The rest of [onEvent], when a [send] has returned. *)
Definition tc_resume (r : relay) (frames : list bytes) (events : list Event) (decoded : bytes) : relay :=
  match tc_sends r frames with
  | (r, Some frames) => set_tc r (Handling frames events decoded)
  | (r, None) => tc_events r events decoded
  end.

Definition cl_end (r : relay) : relay :=
  closeConsole (set_cl (if decide (end_ r = none) then cancel (set_end r consoleClosed) else r) ClientDone).

Definition cl_loop (r : relay) : relay := if decide (end_ r <> none) then cl_end r else set_cl r ClReading.

Definition cl_sent (r : relay) (ok : bool) : relay := if ok then cl_loop r else cl_end (set_end r clientClosed).

(** The coroutine that wrote goes on. *)
Definition sent (r : relay) (who : coroutine) (ok : bool) : relay :=
  match who with
  | ToConsole => match tc r with Handling frames events decoded => tc_resume r frames events decoded | _ => r end
  | ToClient => match cl r with ClSending => cl_sent r ok | _ => r end
  end.

Inductive relay_event :=
  | ClientRead
  | ClientFails
  | ConsoleWritten (ok : bool)
  | ConsoleRead (data : bytes)
  | ConsoleFails
  | WriteDone (ok : bool).

Definition relay_step (r : relay) (e : relay_event) : option relay :=
  match e with
  | ClientRead =>
      match tc r, input (sess r) with
      | Reading, c :: cs =>
          let '(s, decoded, events) := decode (set_input (sess r) cs) c in
          Some (tc_events (set_sess (set_aborted r false) s) events decoded)
      | _, _ => None
      end
  | ClientFails => match tc r with Reading => Some (tc_end (end_with r clientClosed)) | _ => None end
  | ConsoleWritten ok =>
      match tc r with
      | Writing out esc =>
          if ok then
            let r := mkRelay (sess r) (end_ r) (tc r) (cl r) (closed r) (aborted r) (outQueue r) (writer r)
                       (written r ++ out) in
            Some (if esc then tc_end (end_with r escape) else tc_loop r)
          else Some (tc_end (end_with r consoleClosed))
      | _ => None
      end
  | ConsoleRead data =>
      match cl r with
      | ClReading =>
          if decide (end_ r <> none) then Some (cl_end r)
          else let '(suspended, r) := relay_send r ToClient (escapeIac data) in
               Some (if suspended then set_cl r ClSending else cl_loop r)
      | _ => None
      end
  | ConsoleFails => match cl r with ClReading => Some (cl_end r) | _ => None end
  | WriteDone ok =>
      match writer r with
      | None => None
      | Some who =>
          if ok && negb (bool_decide (outQueue r = []))
          then Some (set_writer (set_sess r (send (sess r) (outQueue r))) [] (Some who))
          else Some (sent (set_writer r [] None) who ok)
      end
  end.

Fixpoint relay_run (r : relay) (es : list relay_event) : option relay :=
  match es with
  | [] => Some r
  | e :: es => match relay_step r e with Some r => relay_run r es | None => None end
  end.

(** The start of both coroutines. *)
Definition relay_start (s : session) : relay :=
  cl_loop (tc_loop (mkRelay s none Reading ClReading false false [] None [])).

(** What connecting and the relay meet. *)
Record encounter := mkEncounter { connects : bool; relay_events : list relay_event }.

(** [bridge]: how it ends, or the session while the relay is not over. *)
Definition bridge (s : session) (entry : ConsoleEntry) (x : encounter) : RelayEnd * session + session :=
  if connects x then
    let s := send (emit s (Opened entry))
               (crlf ++ str "Connected to '" ++ name entry ++ str "'. Press Ctrl-] to return to the menu." ++ crlf) in
    match relay_run (relay_start s) (relay_events x) with
    | Some r =>
        match tc r, cl r with
        | ConsoleDone, ClientDone =>
            inl (end_ r, match end_ r with
                          | consoleClosed => send (sess r) (crlf ++ str "[Console closed]" ++ crlf)
                          | escape => send (sess r) crlf
                          | _ => sess r
                          end)
        | _, _ => inr (sess r)
        end
    | None => inr s
    end
  else inl (escape, send s (str "Cannot connect to console '" ++ name entry ++ str "'." ++ crlf)).

(** ** The session *)

(** [std::ranges::sort] by name. *)
Fixpoint insert_entry (e : ConsoleEntry) (l : list ConsoleEntry) : list ConsoleEntry :=
  match l with
  | [] => [e]
  | f :: l' => if bytes_ltb (name f) (name e) then f :: insert_entry e l' else e :: l
  end.

(** [loadConsoles], given what [loadFromFile] returns. *)
Definition loadConsoles (cfg : option ConsoleConfig.ConsoleConfig) : list ConsoleEntry :=
  match cfg with
  | None => []
  | Some cfg =>
      foldr insert_entry []
        (map (fun d => mkEntry (ConsoleConfig.name (ConsoleConfig.base d)) (ConsoleConfig.socketPath (ConsoleConfig.base d)))
           (base.filter (fun d => ConsoleConfig.getDeviceTypeString d <> str "IBMI_EMULATOR") (ConsoleConfig.devices cfg)))
  end.

Definition number (n : nat) : bytes := to_dec 20 (Z.of_nat n).

Fixpoint menu_lines (i : nat) (consoles : list ConsoleEntry) : bytes :=
  match consoles with
  | [] => []
  | c :: consoles => str "  " ++ number i ++ str ") " ++ name c ++ crlf ++ menu_lines (S i) consoles
  end.

Definition menuText (consoles : list ConsoleEntry) : bytes :=
  crlf ++ str "Available consoles:" ++ crlf ++ menu_lines 1 consoles ++
  str "Select console [1-" ++ number (length consoles) ++ str "] or q to quit: ".

(** [std::from_chars] for a [size_t], when it reads the whole line and the number
    is one of the menu: the console chosen. *)
Definition choose (consoles : list ConsoleEntry) (line : bytes) : option ConsoleEntry :=
  if bool_decide (line <> []) && forallb is_digit line && (of_dec line <? 2 ^ 64)%Z && (1 <=? of_dec line)%Z
  then consoles !! Z.to_nat (of_dec line - 1) else None.

Definition quits (line : bytes) : bool :=
  bool_decide (line = str "q") || bool_decide (line = str "quit") || bool_decide (line = str "exit").

Inductive outcome := Ended (s : session) | Relaying (s : session) | OutOfFuel.

Section session.

(** [pamauth::authenticate] with the service of the options, and
    [pamauth::userInGroup] with their group, if there is one. *)
Context (authenticate : bytes -> bytes -> bool) (group : bytes) (userInGroup : bytes -> bytes -> bool).

(** Whether the user is let in, and the session after the call of PAM. *)
Definition check_user (s : session) (user password : bytes) : bool * session :=
  if decide (user = []) then (false, s)
  else
    let ok := authenticate user password in
    let ok := if ok && negb (bool_decide (group = [])) && negb (userInGroup user group) then false else ok in
    (ok, emit s (Authenticated user password ok)).

(** [login], with the attempts left. *)
Fixpoint login (attempts : nat) (s : session) : option (option bytes * session) :=
  match attempts with
  | 0 => Some (None, s)
  | S attempts =>
      '(user, s) ← read_line true (send s (crlf ++ str "login: "));
      match user with
      | None => Some (None, s)
      | Some user =>
          '(password, s) ← read_line false (send s (str "Password: "));
          match password with
          | None => Some (None, s)
          | Some password =>
              let '(ok, s) := check_user s user password in
              if ok then Some (Some user, s)
              else login attempts (send (emit s Waited) (str "Login incorrect" ++ crlf))
          end
      end
  end.


(** The consoles of the configuration file each time it is read, and what each
    choice meets: both may depend on all that has happened. *)
Context (consoles_now : list action -> list ConsoleEntry) (meets : list action -> encounter).

(** The loop of [run]; the fuel bounds its rounds. *)
Fixpoint menu_loop (fuel : nat) (s : session) : outcome :=
  match fuel with
  | 0 => OutOfFuel
  | S fuel =>
      let goodbye s := Ended (send s (crlf ++ str "Goodbye." ++ crlf)) in
      let consoles := consoles_now (trace s) in
      if decide (consoles = []) then goodbye (send s (crlf ++ str "No consoles available." ++ crlf))
      else
        match read_line true (send s (menuText consoles)) with
        | None => OutOfFuel
        | Some (None, s) => goodbye s
        | Some (Some line, s) =>
            if quits line then goodbye s
            else match choose consoles line with
                 | None => menu_loop fuel (send s (str "Invalid selection." ++ crlf))
                 | Some chosen =>
                     match bridge s chosen (meets (trace s)) with
                     | inr s => Relaying s
                     | inl (clientClosed, s) => Ended s
                     | inl (_, s) => menu_loop fuel s
                     end
                 end
        end
  end.

(** [run]. *)
Definition run (s : session) : outcome :=
  let '(s, greeting) := initialNegotiation s in
  match login maxLoginAttempts (send s greeting) with
  | None => OutOfFuel
  | Some (None, s) => Ended s
  | Some (Some _, s) => menu_loop (S (unread s)) s
  end.

End session.

(** ** Sessions *)

(** [runSession]: whether a connection is served, and the count kept while it is. *)
Definition admit_session (active maxSessions : nat) : option nat := if maxSessions <=? active then None else Some (S active).

Definition session_ends (active : nat) : nat := pred active.

(** ** Reading consumes input *)

Lemma feed_length data io : length (Decoder.out (Decoder.feed data io)) <= length (Decoder.out io) + length data.
Proof.
  revert io. induction data as [|c data IH]; intros io; [cbn; lia|]. rewrite feed_cons. etrans; [apply IH|].
  enough (length (Decoder.out (Decoder.step io c)) <= S (length (Decoder.out io))) by (cbn [length]; lia).
  unfold Decoder.step, Decoder.dataByte, Decoder.onIac.
  destruct (Decoder.state_ _); repeat case_decide; cbn; rewrite ?length_app; cbn; try lia.
  all: destruct (_ && _)%bool; repeat case_decide; cbn; rewrite ?length_app; cbn; lia.
Qed.

Lemma collapse_length cr l : length (collapse cr l).1 <= length l.
Proof.
  revert cr. induction l as [|c l IH]; intros cr; cbn; [lia|]. destruct (_ && _); [specialize (IH false); lia|].
  specialize (IH (bool_decide (c = CR))). destruct (collapse _ l) as [a b]. cbn in *. lia.
Qed.

(** What handling events keeps. *)
Lemma send_kept s d : input (send s d) = input s /\ pending (send s d) = pending s /\ trace (send s d) = trace s ++ [Sent d].
Proof. done. Qed.

Lemma onEvent_kept s e : let s' := (onEvent s e).1 in
  input s' = input s /\ pending s' = pending s /\ lastCr s' = lastCr s /\ decoder s' = decoder s /\ trace s' = trace s.
Proof.
  destruct e as [v o|o p|c]; cbn [onEvent]; [|destruct (decide _); [destruct (parseNaws p)|]; done|done].
  destruct (Negotiator.handle _ _ _) as [n reply]. by destruct (_ && _)%bool.
Qed.

Lemma sends_kept s l : let s' := foldl send s l in
  input s' = input s /\ pending s' = pending s /\ lastCr s' = lastCr s /\ decoder s' = decoder s /\
  trace s' = trace s ++ map Sent l.
Proof.
  cbv zeta. revert s. induction l as [|d l IH]; intros s; cbn [foldl map]; [by rewrite app_nil_r|].
  destruct (IH (send s d)) as (-> & -> & -> & -> & ->). cbn. by rewrite <- app_assoc.
Qed.

Lemma handle_events_kept s es : let s' := foldl handle_event s es in
  input s' = input s /\ pending s' = pending s /\ lastCr s' = lastCr s /\ decoder s' = decoder s /\
  exists l, trace s' = trace s ++ map Sent l.
Proof.
  cbv zeta. revert s. induction es as [|e es IH]; intros s; cbn [foldl]; [split_and!; try done; exists []; by rewrite app_nil_r|].
  destruct (IH (handle_event s e)) as (-> & -> & -> & -> & l & ->). unfold handle_event.
  destruct (onEvent s e) as [s1 ds] eqn:E. pose proof (onEvent_kept s e) as H. rewrite E in H. cbn in H.
  destruct H as (Hi & Hp & Hc & Hd & Ht). destruct (sends_kept s1 ds) as (-> & -> & -> & -> & ->).
  split_and!; try done. exists (ds ++ l). by rewrite map_app, Ht, <- app_assoc.
Qed.

(** A read: what it appends to [pending_]. *)
Lemma absorb_spec s data :
  let io := Decoder.feed data (Decoder.mkIo (decoder s) [] []) in
  let s' := absorb s data in
  input s' = input s /\ pending s' = pending s ++ (collapse (lastCr s) (Decoder.out io)).1 /\
  lastCr s' = (collapse (lastCr s) (Decoder.out io)).2 /\ decoder s' = Decoder.dec io /\
  exists l, trace s' = trace s ++ map Sent l.
Proof.
  cbv zeta. unfold absorb, decode. set (io := Decoder.feed _ _).
  destruct (handle_events_kept (set_decoder s (Decoder.dec io)) (Decoder.events io)) as (Hi & Hp & Hc & Hd & l & Ht).
  unfold append. rewrite Hc. cbn [lastCr set_decoder]. destruct (collapse _ _) as [app cr]. cbn in *.
  rewrite Hi, Hp, Ht. split_and!; try done. by exists l.
Qed.

Lemma absorb_unread s data : unread (absorb s data) <= unread s + length data.
Proof.
  destruct (absorb_spec s data) as (Hi & Hp & _). unfold unread. rewrite Hi, Hp, length_app.
  pose proof (collapse_length (lastCr s) (Decoder.out (Decoder.feed data (Decoder.mkIo (decoder s) [] [])))) as H1.
  pose proof (feed_length data (Decoder.mkIo (decoder s) [] [])) as H2. cbn in H2. lia.
Qed.

(** The traces grow by what was sent. *)
Definition only_sends (s s' : session) : Prop := exists l, trace s' = trace s ++ map Sent l.

#[export] Instance only_sends_preorder : PreOrder only_sends.
Proof.
  split; [intros s; exists []; by rewrite app_nil_r|]. intros s1 s2 s3 [l1 H1] [l2 H2]. exists (l1 ++ l2).
  by rewrite H2, H1, map_app, <- app_assoc.
Qed.

Lemma send_only s d : only_sends s (send s d).
Proof. by exists [d]. Qed.

#[export] Hint Resolve send_only : coro.

Lemma read_loop_spec cs s :
  input s = cs -> pending s = [] -> let '(ok, s') := read_loop cs s in
  (ok = true -> pending s' <> []) /\ unread s' <= unread s /\ only_sends s s'.
Proof.
  revert s. induction cs as [|c cs IH]; intros s Hin Hp; cbn [read_loop].
  { split; [done|]. split; [unfold unread; cbn; lia|by exists []; rewrite app_nil_r]. }
  pose proof (absorb_spec (set_input s cs) c) as (Hi & _ & _ & _ & l & Ht).
  pose proof (absorb_unread (set_input s cs) c) as Hu.
  assert (Hle : unread (set_input s cs) + length c = unread s).
  { unfold unread. cbn. rewrite Hin. cbn. rewrite length_app. lia. }
  destruct (decide (pending _ = [])) as [Hp'|Hp'].
  - specialize (IH (absorb (set_input s cs) c) ltac:(by rewrite Hi) Hp').
    destruct (read_loop cs _) as [ok s']. destruct IH as (H1 & H2 & H3). split; [done|]. split; [lia|].
    etrans; [|exact H3]. by exists l.
  - split; [done|]. split; [lia|]. by exists l.
Qed.

Lemma nextByte_spec s : let '(c, s') := nextByte s in
  only_sends s s' /\ match c with Some _ => S (unread s') <= unread s | None => unread s' <= unread s end.
Proof.
  unfold nextByte, readApp. destruct (pending s) as [|c p] eqn:Ep.
  - pose proof (read_loop_spec (input s) s eq_refl Ep) as H. destruct (read_loop _ s) as [ok s']. destruct H as (H1 & H2 & H3).
    destruct ok; [|done]. destruct (pending s') as [|c p] eqn:Ep'; [by destruct H1|]. split; [done|].
    revert H2. unfold unread. cbn. rewrite Ep'. cbn. lia.
  - cbn. rewrite Ep. split; [by exists []; rewrite app_nil_r|]. unfold unread. cbn. rewrite Ep. cbn. lia.
Qed.

(** With fuel for what is unread, a line is read to its end; what is sent
    meanwhile is only sent. *)
Lemma readLine_spec fuel echo line s :
  unread s < fuel -> exists res s', readLine fuel echo line s = Some (res, s') /\ only_sends s s' /\
    match res with Some _ => unread s' < unread s | None => unread s' <= unread s end.
Proof.
  revert line s. induction fuel as [|fuel IH]; intros line s Hf; [lia|]. cbn [readLine].
  pose proof (nextByte_spec s) as Hn. destruct (nextByte s) as [[c|] s1]; [|by eauto 6]. destruct Hn as [Ho Hu].
  destruct (_ || _)%bool; [do 2 eexists; split; [done|]; split; [etrans; [exact Ho|apply send_only]|exact Hu]|].
  destruct (_ || _)%bool; [do 2 eexists; split; [done|]; split; [exact Ho|lia]|].
  assert (Hgo : forall line' s2, only_sends s1 s2 -> unread s2 = unread s1 -> exists res s', readLine fuel echo line' s2 = Some (res, s') /\
    only_sends s s' /\ match res with Some _ => unread s' < unread s | None => unread s' <= unread s end).
  { intros line' s2 Ho2 Hu2. destruct (IH line' s2) as (res & s' & -> & Ho' & Hr); [lia|]. exists res, s'. split; [done|].
    split; [etrans; [exact Ho|]; by etrans|]. destruct res; lia. }
  destruct (_ || _)%bool; [destruct line; [by apply Hgo|destruct echo; apply Hgo; auto with coro; done]|].
  destruct (_ || _)%bool; [by apply Hgo|]. destruct echo; apply Hgo; auto with coro; done.
Qed.

Lemma read_line_spec echo s : exists res s', read_line echo s = Some (res, s') /\ only_sends s s' /\
  match res with Some _ => unread s' < unread s | None => unread s' <= unread s end.
Proof. apply readLine_spec. lia. Qed.

(** ** The relay keeps to sending *)

Definition advances (s s' : session) : Prop := only_sends s s' /\ unread s' <= unread s.

#[export] Instance advances_preorder : PreOrder advances.
Proof. split; [intros s; by split|]. intros s1 s2 s3 [H1 U1] [H2 U2]. split; [by etrans|lia]. Qed.

Lemma send_advances s d : advances s (send s d).
Proof. split; [apply send_only|done]. Qed.

Lemma onEvent_advances s e : advances s (onEvent s e).1.
Proof.
  destruct (onEvent_kept s e) as (Hi & Hp & _ & _ & Ht). split; [exists []; by rewrite app_nil_r, Ht|].
  unfold unread. by rewrite Hi, Hp.
Qed.

Lemma drop_pending_advances s : advances s (set_pending s []).
Proof. split; [exists []; by rewrite app_nil_r|]. unfold unread. cbn. lia. Qed.

#[export] Hint Resolve send_advances onEvent_advances drop_pending_advances : coro.

Lemma relay_send_sess r who d : advances (sess r) (sess (relay_send r who d).2).
Proof. unfold relay_send. destruct (writer r); [done|]. destruct (decide _); cbn; [done|apply send_advances]. Qed.

Lemma end_with_sess r e : sess (end_with r e) = sess r.
Proof. unfold end_with. by destruct (decide _). Qed.

Lemma tc_app_sess r : advances (sess r) (sess (tc_app r)) /\ forall fs es d, tc (tc_app r) <> Handling fs es d.
Proof.
  unfold tc_app. destruct (decide _); [done|]. destruct (ConsoleConfig.span _ _) as [out rest].
  destruct out as [|b out], rest as [|c rest]; cbn; rewrite ?end_with_sess; (split; [apply drop_pending_advances|done]).
Qed.

(** What is decoded and not yet appended. *)
Definition held (p : to_console) : nat := match p with Handling _ _ d => length d | _ => 0 end.

Definition weight (r : relay) : nat := unread (sess r) + held (tc r).

Definition reads (r r' : relay) (k : nat) : Prop := only_sends (sess r) (sess r') /\ weight r' <= k.

Lemma held_no_handling p : (forall fs es d, p <> Handling fs es d) -> held p = 0.
Proof. destruct p; try done. intros H. by destruct (H frames events decoded). Qed.

Lemma tc_app_reads r : reads r (tc_app r) (unread (sess r)).
Proof. destruct (tc_app_sess r) as [[Ho Hu] Hh]. split; [done|]. unfold weight. rewrite (held_no_handling _ Hh). lia. Qed.

Lemma tc_loop_reads r : reads r (tc_loop r) (unread (sess r)).
Proof.
  unfold tc_loop. destruct (decide _); [by split; [|unfold weight; cbn; lia]|].
  destruct (pending _); [by split; [|unfold weight; cbn; lia]|apply tc_app_reads].
Qed.

Lemma append_spec s d : trace (append s d) = trace s /\ unread (append s d) <= unread s + length d.
Proof.
  unfold append. pose proof (collapse_length (lastCr s) d) as H. destruct (collapse _ _) as [a cr]. split; [done|].
  revert H. unfold unread. cbn. rewrite length_app. lia.
Qed.

Lemma tc_decoded_reads r d : reads r (tc_decoded r d) (unread (sess r) + length d).
Proof.
  unfold tc_decoded. destruct (append_spec (sess r) d) as [Ht Hu]. set (r1 := set_sess r (append (sess r) d)).
  assert (Ho : only_sends (sess r) (sess r1)) by (exists []; by rewrite app_nil_r).
  change (unread (sess r1) <= unread (sess r) + length d) in Hu. clearbody r1.
  destruct (pending (sess r1)); [split; [done|]; unfold weight; cbn in *; lia|].
  destruct (tc_app_reads r1) as [H1 H2]. split; [by etrans|lia].
Qed.

Lemma relay_send_kept r who d : tc (relay_send r who d).2 = tc r /\ cl (relay_send r who d).2 = cl r /\
  end_ (relay_send r who d).2 = end_ r /\ written (relay_send r who d).2 = written r /\ aborted (relay_send r who d).2 = aborted r.
Proof. unfold relay_send. destruct (writer r); [done|]. by destruct (decide _). Qed.

Lemma tc_sends_sess r fs : advances (sess r) (sess (tc_sends r fs).1).
Proof.
  revert r. induction fs as [|f fs IH]; intros r; cbn [tc_sends]; [done|].
  pose proof (relay_send_sess r ToConsole f) as H. destruct (relay_send r ToConsole f) as [[] r']; [done|]. by etrans.
Qed.

Lemma tc_events_reads r es d : reads r (tc_events r es d) (unread (sess r) + length d).
Proof.
  revert r. induction es as [|e es IH]; intros r; cbn [tc_events]; [apply tc_decoded_reads|].
  pose proof (onEvent_advances (sess r) e) as [Ho Hu]. destruct (onEvent (sess r) e) as [s fs].
  pose proof (tc_sends_sess (set_sess r s) fs) as [Ho2 Hu2]. destruct (tc_sends _ fs) as [r' [fs'|]]; cbn in *.
  - split; [by etrans|]. unfold weight. cbn. lia.
  - destruct (IH r') as [H1 H2]. split; [etrans; [exact Ho|by etrans]|lia].
Qed.

Lemma cl_end_kept r : sess (cl_end r) = sess r /\ tc (cl_end r) = tc r /\ written (cl_end r) = written r.
Proof. unfold cl_end. by destruct (decide _). Qed.

Lemma cl_loop_kept r : sess (cl_loop r) = sess r /\ tc (cl_loop r) = tc r /\ written (cl_loop r) = written r.
Proof. unfold cl_loop. destruct (decide _); [apply cl_end_kept|done]. Qed.

Lemma reads_same r r' : sess r' = sess r -> held (tc r') <= held (tc r) -> reads r r' (weight r).
Proof. intros Hs Hh. split; [by rewrite Hs|]. unfold weight. rewrite Hs. lia. Qed.

Lemma relay_step_reads r e r' : relay_step r e = Some r' -> reads r r' (weight r).
Proof.
  destruct e as [| |ok|data| |ok]; cbn [relay_step].
  - destruct (tc r); try done. destruct (input (sess r)) as [|c cs] eqn:Ei; [done|]. unfold decode. intros [= <-].
    set (io := Decoder.feed _ _). set (r1 := set_sess _ _).
    destruct (tc_events_reads r1 (Decoder.events io) (Decoder.out io)) as [H1 H2]. split.
    + etrans; [|exact H1]. by exists []; rewrite app_nil_r.
    + assert (Hf : length (Decoder.out io) <= length c) by apply (feed_length c (Decoder.mkIo _ [] [])).
      assert (Hu : unread (sess r1) + length c <= unread (sess r)).
      { unfold unread. rewrite Ei. cbn. rewrite length_app. lia. }
      etrans; [exact H2|]. clearbody io. unfold weight. lia.
  - destruct (tc r); try done. intros [= <-]. apply reads_same; cbn; [apply end_with_sess|lia].
  - destruct (tc r) as [| |out esc|] eqn:Et; try done. destruct ok; intros [= <-].
    + destruct esc; [apply reads_same; cbn; [by rewrite end_with_sess|lia]|].
      destruct (tc_loop_reads (mkRelay (sess r) (end_ r) (Writing out false) (cl r) (closed r) (aborted r) (outQueue r) (writer r) (written r ++ out))) as [H1 H2].
      split; [exact H1|]. unfold weight at 2. cbn in *. lia.
    + apply reads_same; cbn; [apply end_with_sess|lia].
  - destruct (cl r); try done. destruct (decide _).
    { intros [= <-]. destruct (cl_end_kept r) as (Hs & Ht & _). by apply reads_same; [|rewrite Ht]. }
    pose proof (relay_send_sess r ToClient (escapeIac data)) as [Ho Hu].
    destruct (relay_send_kept r ToClient (escapeIac data)) as (Ht & _). destruct (relay_send _ _ _) as [[] r1]; cbn in *; intros [= <-].
    + split; [done|]. unfold weight. cbn. rewrite Ht. lia.
    + destruct (cl_loop_kept r1) as (Hs & Ht' & _). split; [by rewrite Hs|]. unfold weight. rewrite Hs, Ht', Ht. lia.
  - destruct (cl r); try done. intros [= <-]. destruct (cl_end_kept r) as (Hs & Ht & _). by apply reads_same; [|rewrite Ht].
  - destruct (writer r) as [who|]; [|done]. destruct (_ && _)%bool; intros [= <-]; [split; [apply send_only|done]|].
    unfold sent. destruct who; cbn [set_writer tc].
    + destruct (tc r) as [|fs es d| |] eqn:E; try (apply reads_same; cbn; [done|by rewrite E]). unfold tc_resume.
      pose proof (tc_sends_sess (set_writer r [] None) fs) as [Ho Hu]. destruct (tc_sends _ fs) as [r1 [fs'|]]; cbn in *.
      * split; [done|]. unfold weight. rewrite E. cbn. lia.
      * destruct (tc_events_reads r1 es d) as [H1 H2]. split; [by etrans|]. unfold weight at 2. rewrite E. cbn. lia.
    + destruct (cl r) eqn:Ec; cbn; rewrite ?Ec; try (apply reads_same; done). unfold cl_sent. destruct ok.
      * destruct (cl_loop_kept (set_writer r [] None)) as (Hs & Ht & _). by apply reads_same; [|rewrite Ht].
      * destruct (cl_end_kept (set_end (set_writer r [] None) clientClosed)) as (Hs & Ht & _). by apply reads_same; [|rewrite Ht].
Qed.

Lemma relay_run_reads r es r' : relay_run r es = Some r' -> reads r r' (weight r).
Proof.
  revert r. induction es as [|e es IH]; intros r; cbn [relay_run]; [intros [= <-]; by apply reads_same|].
  destruct (relay_step r e) as [r1|] eqn:E; [|done]. intros Hr. apply relay_step_reads in E as [H1 H2].
  apply IH in Hr as [H3 H4]. split; [by etrans|lia].
Qed.

Lemma relay_start_reads s : only_sends s (sess (relay_start s)) /\ weight (relay_start s) <= unread s.
Proof.
  unfold relay_start. set (r := mkRelay _ _ _ _ _ _ _ _ _). destruct (cl_loop_kept (tc_loop r)) as (Hs & Ht & _).
  destruct (tc_loop_reads r) as [H1 H2]. rewrite Hs. split; [exact H1|]. revert H2. unfold weight. by rewrite Hs, Ht.
Qed.

(** A bridge opens its console, and otherwise only sends. *)
Definition bridged (s s' : session) (opened : list action) : Prop :=
  unread s' <= unread s /\ exists l, trace s' = trace s ++ opened ++ map Sent l.

Lemma bridge_spec s entry x :
  match bridge s entry x with
  | inl (_, s') => bridged s s' (if connects x then [Opened entry] else [])
  | inr s' => exists l, trace s' = trace s ++ [Opened entry] ++ map Sent l
  end.
Proof.
  unfold bridge. destruct (connects x); [|split; [done|by eexists [_]]].
  set (g := crlf ++ str "Connected to '" ++ name entry ++ str "'. Press Ctrl-] to return to the menu." ++ crlf).
  set (s1 := send _ g). assert (Hs1 : trace s1 = trace s ++ [Opened entry; Sent g]) by (unfold s1; cbn; by rewrite <- app_assoc).
  destruct (relay_start_reads s1) as [[l0 Hl0] Hu0].
  destruct (relay_run (relay_start s1) (relay_events x)) as [r|] eqn:E; [|by exists [g]].
  apply relay_run_reads in E as [[l Hl] Hu].
  assert (Ht : trace (sess r) = trace s ++ [Opened entry] ++ map Sent (g :: l0 ++ l)).
  { rewrite Hl, Hl0, Hs1, <- !app_assoc. cbn. by rewrite map_app. }
  destruct (tc r) eqn:Et; try (by eexists). destruct (cl r); try (by eexists).
  assert (Hr : unread (sess r) <= unread s).
  { unfold weight in Hu at 1. rewrite Et in Hu. cbn in Hu. change (unread s) with (unread s1). lia. }
  assert (Hsend : forall d, bridged s (send (sess r) d) [Opened entry]).
  { intros d. split; [done|]. exists ((g :: l0 ++ l) ++ [d]). cbn [send emit trace]. rewrite Ht, map_app. by rewrite <- !app_assoc. }
  destruct (end_ r); try apply Hsend; (split; [done|by eexists]).
Qed.

(** ** Sessions end, and consoles are opened for users who were let in *)

Section sessions.

Context (authenticate : bytes -> bytes -> bool) (group : bytes) (userInGroup : bytes -> bytes -> bool).

Definition let_in (u p : bytes) : Prop :=
  u <> [] /\ authenticate u p = true /\ (group = [] \/ userInGroup u group = true).

Definition is_auth (a : action) : bool := match a with Authenticated _ _ _ => true | _ => false end.
Definition is_open (a : action) : bool := match a with Opened _ => true | _ => false end.

Definition auths (l : list action) : nat := length (base.filter (fun a => is_auth a = true) l).

Lemma auths_app l l' : auths (l ++ l') = auths l + auths l'.
Proof. unfold auths. by rewrite filter_app, length_app. Qed.

Lemma auths_sent l : auths (map Sent l) = 0.
Proof. unfold auths. by induction l. Qed.

Lemma auths_quiet a : is_auth a = false -> auths [a] = 0.
Proof. by destruct a. Qed.

Lemma auths_cons d l : auths (Sent d :: l) = auths l.
Proof. done. Qed.

Definition closed_trace (l : list action) : Prop := forall a, a ∈ l -> is_open a = false.

Lemma closed_sent l : closed_trace (map Sent l).
Proof. intros a Ha. apply list_elem_of_fmap in Ha as (d & -> & _). done. Qed.

Lemma closed_app l l' : closed_trace l -> closed_trace l' -> closed_trace (l ++ l').
Proof. intros H1 H2 a [?|?]%elem_of_app; auto. Qed.

Lemma closed_one a : is_open a = false -> closed_trace [a].
Proof. by intros H b ->%list_elem_of_singleton. Qed.

#[local] Hint Resolve closed_sent closed_app closed_one : core.

Lemma check_user_spec s u p :
  let '(ok, s') := check_user authenticate group userInGroup s u p in
  unread s' = unread s /\ exists l, trace s' = trace s ++ l /\ closed_trace l /\ auths l <= 1 /\
    (ok = true -> l = [Authenticated u p true] /\ let_in u p).
Proof.
  unfold check_user. destruct (decide (u = [])) as [->|Hu].
  { split; [done|]. exists []. rewrite app_nil_r. split_and!; [done| |cbn; lia|done]. by intros a ?%not_elem_of_nil. }
  split; [done|]. eexists. split; [done|]. split; [by apply closed_one|]. split; [by cbv|]. unfold let_in.
  destruct (authenticate u p); cbn; [|done]. destruct (bool_decide (group = [])) eqn:Eg; cbn.
  - intros _. split; [done|]. apply bool_decide_eq_true in Eg. auto.
  - destruct (userInGroup u group) eqn:Ei; cbn; [|done]. intros _. split; [done|]. auto.
Qed.

Lemma login_spec n s :
  exists res s' l, login authenticate group userInGroup n s = Some (res, s') /\ unread s' <= unread s /\
    trace s' = trace s ++ l /\ closed_trace l /\ auths l <= n /\
    (is_Some res -> exists u p, Authenticated u p true ∈ l /\ let_in u p).
Proof.
  revert s. induction n as [|n IH]; intros s; cbn [login].
  { exists None, s, []. rewrite app_nil_r. split_and!; try done; by intros a ?%not_elem_of_nil. }
  set (d1 := crlf ++ str "login: "). destruct (read_line_spec true (send s d1)) as (res1 & s1 & -> & [l1 Hl1] & Hu1). cbn [mbind option_bind].
  cbn [trace send emit] in Hl1. rewrite <- app_assoc in Hl1.
  assert (Hle1 : unread s1 <= unread s) by (change (unread s) with (unread (send s d1)); destruct res1; lia).
  destruct res1 as [u|].
  2:{ exists None, s1, ([Sent d1] ++ map Sent l1). split_and!; auto; [rewrite auths_app, auths_sent; cbv; lia|by intros [? ?]]. }
  set (d2 := str "Password: "). destruct (read_line_spec false (send s1 d2)) as (res2 & s2 & -> & [l2 Hl2] & Hu2). cbn [mbind option_bind].
  cbn [trace send emit] in Hl2. rewrite Hl1, <- !app_assoc in Hl2.
  assert (Hle2 : unread s2 <= unread s) by (change (unread (send s1 d2)) with (unread s1) in Hu2; destruct res2; lia).
  destruct res2 as [p|].
  2:{ exists None, s2, ([Sent d1] ++ map Sent l1 ++ [Sent d2] ++ map Sent l2).
      split_and!; auto 8; [rewrite !auths_app, !auths_sent; cbv; lia|by intros [? ?]]. }
  pose proof (check_user_spec s2 u p) as Hc. destruct (check_user _ _ _ s2 u p) as [ok s3].
  destruct Hc as (Hu3 & l3 & Hl3 & Hcl & Hau & Hok). rewrite Hl2, <- !app_assoc in Hl3.
  destruct ok.
  - exists (Some u), s3, ([Sent d1] ++ map Sent l1 ++ [Sent d2] ++ map Sent l2 ++ l3). destruct (Hok eq_refl) as [-> Hin].
    split_and!; auto 10; [lia|rewrite !auths_app, !auths_sent; cbv; lia|].
    intros _. exists u, p. split; [|done]. do 4 (apply elem_of_app; right). by apply list_elem_of_singleton.
  - set (d3 := str "Login incorrect" ++ crlf). destruct (IH (send (emit s3 Waited) d3)) as (res & s4 & l4 & -> & Hu4 & Hl4 & Hc4 & Ha4 & Hr4).
    cbn [trace send emit] in Hl4. rewrite Hl3, <- !app_assoc in Hl4.
    exists res, s4, ([Sent d1] ++ map Sent l1 ++ [Sent d2] ++ map Sent l2 ++ l3 ++ [Waited] ++ [Sent d3] ++ l4).
    split_and!; auto 14; [change (unread (send (emit s3 Waited) d3)) with (unread s3) in Hu4; lia| |].
    + rewrite !auths_app, !auths_sent, !auths_quiet by done. lia.
    + intros Hs. destruct (Hr4 Hs) as (u' & p' & Hin & Hlet). exists u', p'. split; [|done]. by do 7 (apply elem_of_app; right).
Qed.

Context (consoles_now : list action -> list ConsoleEntry) (meets : list action -> encounter).

(** The consoles opened are those of the configuration. *)
Lemma menu_loop_spec fuel s :
  unread s < fuel -> exists s' l, (menu_loop consoles_now meets fuel s = Ended s' \/ menu_loop consoles_now meets fuel s = Relaying s') /\
    trace s' = trace s ++ l /\ auths l = 0 /\ forall e, Opened e ∈ l -> exists h, e ∈ consoles_now h.
Proof.
  revert s. induction fuel as [|fuel IH]; intros s Hf; [lia|]. cbn [menu_loop].
  destruct (decide (consoles_now (trace s) = [])) as [|Hne].
  { eexists _, [_; _]. split; [by left|]. cbn. rewrite <- app_assoc. split_and!; [done..|set_solver]. }
  set (d := menuText _). destruct (read_line_spec true (send s d)) as (res & s1 & -> & [l1 Hl1] & Hu1).
  cbn [trace send emit] in Hl1. rewrite <- app_assoc in Hl1. change (unread (send s d)) with (unread s) in Hu1.
  assert (Hsent : forall e, Opened e ∈ [Sent d] ++ map Sent l1 -> False).
  { intros e [?%list_elem_of_singleton|(? & ? & _)%list_elem_of_fmap]%elem_of_app; done. }
  assert (Hbye : exists s' l, Ended (send s1 (crlf ++ str "Goodbye." ++ crlf)) = Ended s' /\ trace s' = trace s ++ l /\ auths l = 0 /\
    forall e, Opened e ∈ l -> exists h, e ∈ consoles_now h).
  { eexists _, (([Sent d] ++ map Sent l1) ++ [_]). split; [done|]. split; [cbn [trace send emit]; by rewrite Hl1, <- !app_assoc|].
    rewrite !auths_app, auths_sent. split; [done|]. intros e [H|H%list_elem_of_singleton]%elem_of_app; [by apply Hsent in H|done]. }
  destruct Hbye as (sb & lb & Hbye & Hb). destruct res as [line|]; [|by exists sb, lb; split; [left|]].
  destruct (quits line); [by exists sb, lb; split; [left|]|].
  assert (Hgo : forall s2 l2, unread s2 <= unread s1 -> trace s2 = trace s1 ++ l2 -> auths l2 = 0 ->
    (forall e, Opened e ∈ l2 -> exists h, e ∈ consoles_now h) ->
    exists s' l, (menu_loop consoles_now meets fuel s2 = Ended s' \/ menu_loop consoles_now meets fuel s2 = Relaying s') /\
      trace s' = trace s ++ l /\ auths l = 0 /\ forall e, Opened e ∈ l -> exists h, e ∈ consoles_now h).
  { intros s2 l2 Hu2 Ht2 Ha2 Ho2. destruct (IH s2 ltac:(lia)) as (s' & l & Hres & Ht & Ha & Ho).
    exists s', (([Sent d] ++ map Sent l1) ++ l2 ++ l). split; [done|]. split; [by rewrite Ht, Ht2, Hl1, <- !app_assoc|].
    rewrite !auths_app, auths_sent, Ha2, Ha. split; [done|].
    intros e [H|[H|H]%elem_of_app]%elem_of_app; [by apply Hsent in H|auto..]. }
  destruct (choose _ line) as [chosen|] eqn:Ec.
  2:{ apply (Hgo _ [Sent (str "Invalid selection." ++ crlf)]); [done|done|done|]. intros e H%list_elem_of_singleton. done. }
  assert (Hin : chosen ∈ consoles_now (trace s)).
  { unfold choose in Ec. destruct (_ && _ && _ && _)%bool; [|done]. by eapply list_elem_of_lookup_2. }
  assert (Hop : forall l e, Opened e ∈ [Opened chosen] ++ map Sent l -> exists h, e ∈ consoles_now h).
  { intros l e [H%list_elem_of_singleton|(? & ? & _)%list_elem_of_fmap]%elem_of_app; [simplify_eq; eauto|done]. }
  pose proof (bridge_spec s1 chosen (meets (trace s1))) as Hb'. destruct (bridge s1 chosen (meets (trace s1))) as [[e s2]|s2].
  - destruct Hb' as (Hu2 & l2 & Ht2).
    assert (Ho2 : forall e0, Opened e0 ∈ (if connects (meets (trace s1)) then [Opened chosen] else []) ++ map Sent l2 ->
      exists h, e0 ∈ consoles_now h).
    { destruct (connects _); [apply Hop|]. intros e0 (? & ? & _)%list_elem_of_fmap. done. }
    assert (Ha2 : auths ((if connects (meets (trace s1)) then [Opened chosen] else []) ++ map Sent l2) = 0).
    { rewrite auths_app, auths_sent. by destruct (connects _). }
    destruct e; try by apply (Hgo s2 _ Hu2 Ht2 Ha2 Ho2).
    exists s2, (([Sent d] ++ map Sent l1) ++ (if connects (meets (trace s1)) then [Opened chosen] else []) ++ map Sent l2).
    split; [by left|]. split; [by rewrite Ht2, Hl1, <- !app_assoc|]. split; [by rewrite auths_app, Ha2, auths_app, auths_sent|].
    intros e0 [H|H]%elem_of_app; [by apply Hsent in H|auto].
  - destruct Hb' as [l2 Ht2]. exists s2, (([Sent d] ++ map Sent l1) ++ [Opened chosen] ++ map Sent l2).
    split; [by right|]. split; [by rewrite Ht2, Hl1, <- !app_assoc|]. rewrite !auths_app, !auths_sent. split; [done|].
    intros e0 [H|H]%elem_of_app; [by apply Hsent in H|by eapply Hop].
Qed.

(** What follows a part without consoles. *)
Lemma opened_after l rest pre e post :
  closed_trace l -> l ++ rest = pre ++ Opened e :: post -> exists pre', pre = l ++ pre' /\ rest = pre' ++ Opened e :: post.
Proof.
  intros Hc Heq. apply app_eq_inv in Heq as [(k & -> & Hk)|(k & -> & ->)]; [|by exists k].
  destruct k as [|a k]; [exists []; by rewrite !app_nil_r|]. injection Hk as <- _.
  assert (Hf : is_open (Opened e) = false); [|done]. apply Hc. apply elem_of_app. right. apply elem_of_cons. by left.
Qed.

(** C30: whatever a client sends, a session comes to an end or to a relay that goes
    on; it asks PAM three times at most; and the consoles it opens are in the
    configuration and are opened after a user gave a password that PAM accepts
    and, if a group is demanded, belongs to it. *)
Theorem session_authenticated inp :
  exists s, (run authenticate group userInGroup consoles_now meets (newSession inp) = Ended s \/
             run authenticate group userInGroup consoles_now meets (newSession inp) = Relaying s) /\
    auths (trace s) <= maxLoginAttempts /\
    forall e pre post, trace s = pre ++ Opened e :: post ->
      (exists h, e ∈ consoles_now h) /\ exists u p, Authenticated u p true ∈ pre /\ let_in u p.
Proof.
  unfold run. destruct (initialNegotiation (newSession inp)) as [s0 g] eqn:E0.
  assert (Ht0 : trace s0 = []) by (apply (f_equal fst) in E0; cbn [fst] in E0; by rewrite <- E0).
  destruct (login_spec maxLoginAttempts (send s0 g)) as (res & s1 & l1 & -> & Hu1 & Hl1 & Hc1 & Ha1 & Hr1).
  cbn [trace send emit] in Hl1. rewrite Ht0 in Hl1. cbn [app] in Hl1.
  assert (Hc1' : closed_trace (Sent g :: l1)) by (apply (closed_app [Sent g]); auto).
  destruct res as [u|].
  - destruct (Hr1 ltac:(done)) as (u' & p & Hin & Hlet).
    destruct (menu_loop_spec (S (unread s1)) s1 ltac:(lia)) as (s2 & l2 & Hres & Ht2 & Ha2 & Ho2).
    exists s2. split; [done|]. rewrite Hl1 in Ht2. rewrite Ht2. split; [rewrite auths_app, auths_cons, Ha2; lia|].
    intros e pre post Heq. destruct (opened_after _ _ _ _ _ Hc1' Heq) as (pre' & -> & Hl2). split.
    + apply Ho2. rewrite Hl2. apply elem_of_app. right. apply elem_of_cons. by left.
    + exists u', p. split; [|done]. apply elem_of_app. left. apply elem_of_cons. by right.
  - exists s1. split; [by left|]. rewrite Hl1. split; [rewrite auths_cons; lia|]. intros e pre post Heq.
    assert (Hf : is_open (Opened e) = false); [|done]. apply Hc1'. rewrite Heq. apply elem_of_app. right. apply elem_of_cons. by left.
Qed.

End sessions.

(** ** What the relay passes to the client *)

(** The bytes handed to the TLS stream. *)
Definition wire (s : session) : bytes := concat (omap (fun a => match a with Sent d => Some d | _ => None end) (trace s)).

Definition line_out (r : relay) : bytes := wire (sess r) ++ outQueue r.

Lemma wire_emit s d : wire (send s d) = wire s ++ d.
Proof. unfold wire. cbn. rewrite omap_app, concat_app. cbn. by rewrite app_nil_r. Qed.

Lemma wire_same s s' : trace s' = trace s -> wire s' = wire s.
Proof. unfold wire. by intros ->. Qed.

(** The queue is empty unless somebody writes. *)
Definition queue_ok (r : relay) : Prop := writer r = None -> outQueue r = [].

Lemma relay_send_line r who d :
  queue_ok r -> queue_ok (relay_send r who d).2 /\ line_out (relay_send r who d).2 = line_out r ++ d.
Proof.
  unfold relay_send, queue_ok, line_out. intros Hq. destruct (writer r) as [w|] eqn:Ew; [by cbn; rewrite app_assoc|].
  rewrite (Hq eq_refl). cbn [app]. destruct (decide (d = [])) as [->|]; cbn [snd]; [by rewrite (Hq eq_refl), !app_nil_r|].
  split; [done|]. cbn [set_writer set_sess sess outQueue]. by rewrite wire_emit, !app_nil_r.
Qed.

(** What the gateway itself sends in a relay. *)
Definition reply (f : bytes) : Prop := (exists v o, is_verb v /\ f = negotiation v o) \/ f = terminalTypeSendFrame.

Lemma handle_reply n v o : let r := (Negotiator.handle n v o).2 in r = [] \/ exists v' o', is_verb v' /\ r = negotiation v' o'.
Proof.
  assert (H : forall v' o', is_verb v' -> exists v2 o2, is_verb v2 /\ negotiation v' o' = negotiation v2 o2) by eauto.
  cbv zeta. unfold Negotiator.handle, Negotiator.on_us, Negotiator.on_him, Negotiator.onEnable, Negotiator.onDisable.
  repeat case_decide; cbn; repeat (match goal with |- context [if ?b then _ else _] => destruct b end; cbn); auto;
    right; apply H; unfold is_verb; auto.
Qed.

Lemma onEvent_replies s e : Forall reply (onEvent s e).2.
Proof.
  destruct e as [v o|o p|c]; cbn [onEvent]; [|by destruct (decide _)|done].
  pose proof (handle_reply (negotiator s) v o) as H. destruct (Negotiator.handle _ _ _) as [n f]. cbn in H.
  assert (Hf : Forall reply (if decide (f = []) then [] else [f])).
  { destruct (decide (f = [])); [done|]. constructor; [|done]. left. by destruct H. }
  destruct (_ && _)%bool; [|done]. apply Forall_app. split; [done|]. constructor; [by right|done].
Qed.

(** [adds r r' fs]: frames are added to what goes to the client. *)
Definition adds (r r' : relay) (fs : list bytes) : Prop := queue_ok r' /\ line_out r' = line_out r ++ concat fs.

Lemma adds_none r r' : queue_ok r -> trace (sess r') = trace (sess r) -> outQueue r' = outQueue r -> writer r' = writer r -> adds r r' [].
Proof. unfold adds, queue_ok, line_out. intros Hq Ht Ho Hw. rewrite Ho, Hw, (wire_same _ _ Ht), app_nil_r. done. Qed.

Lemma adds_trans r1 r2 r3 f1 f2 : adds r1 r2 f1 -> adds r2 r3 f2 -> adds r1 r3 (f1 ++ f2).
Proof. intros [_ H1] [Hq H2]. split; [done|]. by rewrite H2, H1, concat_app, app_assoc. Qed.

Lemma end_with_adds r e : queue_ok r -> adds r (tc_end (end_with r e)) [].
Proof. intros Hq. unfold end_with. destruct (decide _); by apply adds_none. Qed.

Lemma tc_app_adds r : queue_ok r -> adds r (tc_app r) [].
Proof.
  intros Hq. unfold tc_app. destruct (decide _); [by apply adds_none|]. destruct (ConsoleConfig.span _ _) as [out rest].
  destruct out as [|b out]; [|by apply adds_none]. destruct rest; [by apply adds_none|].
  unfold end_with. destruct (decide _); by apply adds_none.
Qed.

Lemma tc_loop_adds r : queue_ok r -> adds r (tc_loop r) [].
Proof.
  intros Hq. unfold tc_loop. destruct (decide _); [by apply adds_none|].
  destruct (pending _); [by apply adds_none|by apply tc_app_adds].
Qed.

Lemma tc_decoded_adds r d : queue_ok r -> adds r (tc_decoded r d) [].
Proof.
  intros Hq. unfold tc_decoded. set (r1 := set_sess r _).
  assert (H1 : adds r r1 []) by (apply adds_none; try done; apply append_spec).
  apply (adds_trans r r1 _ [] []); [done|]. destruct (pending (sess r1)); [apply adds_none; try done; apply H1|apply tc_app_adds, H1].
Qed.

Lemma tc_sends_adds r fs : queue_ok r ->
  exists l, adds r (tc_sends r fs).1 l /\ fs = l ++ default [] (tc_sends r fs).2.
Proof.
  revert r. induction fs as [|f fs IH]; intros r Hq; cbn [tc_sends]; [exists []; split; [by apply adds_none|done]|].
  destruct (relay_send_line r ToConsole f Hq) as [Hq1 Hl1]. destruct (relay_send r ToConsole f) as [[] r1]; cbn in *.
  - exists [f]. split; [|done]. split; [done|]. rewrite Hl1. cbn. by rewrite app_nil_r.
  - destruct (IH r1 Hq1) as (l & Ha & Hfs). exists (f :: l). split; [|by rewrite Hfs at 1].
    apply (adds_trans r r1 _ [f] l); [|done]. split; [done|]. rewrite Hl1. cbn. by rewrite app_nil_r.
Qed.

(** Frames still to be sent by the handler are replies, too. *)
Definition tc_replies (p : to_console) : Prop := match p with Handling fs _ _ => Forall reply fs | _ => True end.

Lemma tc_app_replies r : tc_replies (tc (tc_app r)).
Proof.
  destruct (tc_app_sess r) as [_ H]. revert H. destruct (tc (tc_app r)) as [|fs es d| |]; try done.
  intros H. by destruct (H fs es d).
Qed.

Lemma tc_decoded_replies r d : tc_replies (tc (tc_decoded r d)).
Proof. unfold tc_decoded. destruct (pending _); [done|apply tc_app_replies]. Qed.

Lemma tc_events_adds r es d : queue_ok r ->
  exists l, adds r (tc_events r es d) l /\ Forall reply l /\ tc_replies (tc (tc_events r es d)).
Proof.
  revert r. induction es as [|e es IH]; intros r Hq; cbn [tc_events].
  { exists []. split; [by apply tc_decoded_adds|]. split; [done|apply tc_decoded_replies]. }
  pose proof (onEvent_replies (sess r) e) as Hr. destruct (onEvent_kept (sess r) e) as (_ & _ & _ & _ & Ht).
  destruct (onEvent (sess r) e) as [s fs]. cbn in Hr, Ht.
  assert (H0 : adds r (set_sess r s) []) by (by apply adds_none).
  destruct (tc_sends_adds (set_sess r s) fs (proj1 H0)) as (l & Ha & Hfs). destruct (tc_sends _ fs) as [r1 [fs'|]]; cbn in Ha, Hfs.
  - rewrite Hfs in Hr. apply Forall_app in Hr as [Hl Hr]. exists l. split; [|done].
    apply (adds_trans _ _ _ _ _ H0) in Ha. apply (adds_trans _ _ (set_tc r1 (Handling fs' es d)) _ []) in Ha; [by rewrite app_nil_r in Ha|].
    apply adds_none; [apply Ha|done..].
  - rewrite app_nil_r in Hfs. subst l. destruct (IH r1 (proj1 Ha)) as (l2 & Ha2 & Hl2 & Hr2). exists (fs ++ l2).
    split; [|split; [by apply Forall_app|done]]. apply (adds_trans _ _ _ _ _ H0) in Ha. by apply (adds_trans _ _ _ _ _ Ha).
Qed.

Lemma tc_resume_adds r fs es d : queue_ok r -> Forall reply fs ->
  exists l, adds r (tc_resume r fs es d) l /\ Forall reply l /\ tc_replies (tc (tc_resume r fs es d)).
Proof.
  intros Hq Hr. unfold tc_resume. destruct (tc_sends_adds r fs Hq) as (l & Ha & Hfs).
  destruct (tc_sends r fs) as [r1 [fs'|]]; cbn in Ha, Hfs.
  - rewrite Hfs in Hr. apply Forall_app in Hr as [Hl Hr]. exists l. split; [|done].
    apply (adds_trans _ _ (set_tc r1 (Handling fs' es d)) _ []) in Ha; [by rewrite app_nil_r in Ha|]. apply adds_none; [apply Ha|done..].
  - rewrite app_nil_r in Hfs. subst l. destruct (tc_events_adds r1 es d (proj1 Ha)) as (l2 & Ha2 & Hl2 & Hr2). exists (fs ++ l2).
    split; [|split; [by apply Forall_app|done]]. by apply (adds_trans _ _ _ _ _ Ha).
Qed.

Lemma cl_tc_sends r fs : cl (tc_sends r fs).1 = cl r.
Proof.
  revert r. induction fs as [|f fs IH]; intros r; cbn [tc_sends]; [done|].
  destruct (relay_send_kept r ToConsole f) as (_ & Hc & _). destruct (relay_send r ToConsole f) as [[] r1]; [done|]. by rewrite IH.
Qed.

Lemma cl_tc_app r : cl (tc_app r) = cl r.
Proof.
  unfold tc_app. destruct (decide _); [done|]. destruct (ConsoleConfig.span _ _) as [[|b out] [|c rest]]; try done.
  unfold end_with. by destruct (decide _).
Qed.

Lemma cl_tc_loop r : cl (tc_loop r) = cl r.
Proof. unfold tc_loop. destruct (decide _); [done|]. destruct (pending _); [done|apply cl_tc_app]. Qed.

Lemma cl_tc_events r es d : cl (tc_events r es d) = cl r.
Proof.
  revert r. induction es as [|e es IH]; intros r; cbn [tc_events].
  { unfold tc_decoded. destruct (pending _); [done|by rewrite cl_tc_app]. }
  destruct (onEvent _ e) as [s fs]. pose proof (cl_tc_sends (set_sess r s) fs) as H.
  destruct (tc_sends _ fs) as [r1 [fs'|]]; [done|]. by rewrite IH.
Qed.

Lemma cl_tc_resume r fs es d : cl (tc_resume r fs es d) = cl r.
Proof.
  unfold tc_resume. pose proof (cl_tc_sends r fs) as H. destruct (tc_sends r fs) as [r1 [fs'|]]; [done|].
  by rewrite cl_tc_events.
Qed.

Lemma cl_end_adds r : queue_ok r -> adds r (cl_end r) [] /\ cl (cl_end r) = ClientDone.
Proof. intros Hq. unfold cl_end. destruct (decide _); (split; [by apply adds_none|done]). Qed.

Lemma cl_loop_adds r : queue_ok r -> adds r (cl_loop r) [].
Proof. intros Hq. unfold cl_loop. destruct (decide _); [by apply cl_end_adds|by apply adds_none]. Qed.

(** What an event adds: data of the console, or replies. *)
Definition frames_of (r' : relay) (e : relay_event) (l : list bytes) : Prop :=
  match e with
  | ConsoleRead d => l = [escapeIac d] \/ l = [] /\ cl r' = ClientDone
  | _ => Forall reply l
  end.

Lemma relay_step_adds r e r' :
  queue_ok r -> tc_replies (tc r) -> e <> WriteDone false -> relay_step r e = Some r' ->
  exists l, adds r r' l /\ tc_replies (tc r') /\ frames_of r' e l /\
    (cl r = ClientDone -> cl r' = ClientDone /\ forall d, e <> ConsoleRead d).
Proof.
  intros Hq Hr Hok. destruct e as [| |ok|data| |ok]; cbn [relay_step frames_of].
  - destruct (tc r); try done. destruct (input (sess r)) as [|c cs]; [done|]. unfold decode. intros [= <-].
    set (io := Decoder.feed _ _). set (r1 := set_sess _ _). assert (H1 : adds r r1 []) by (by apply adds_none).
    destruct (tc_events_adds r1 (Decoder.events io) (Decoder.out io) (proj1 H1)) as (l & Ha & Hl & Ht). exists l.
    split; [by apply (adds_trans _ _ _ _ _ H1)|]. split; [done|]. split; [done|]. intros Hc. by rewrite cl_tc_events.
  - destruct (tc r); try done. intros [= <-]. exists []. split; [by apply end_with_adds|].
    split; [done|]. split; [done|]. unfold end_with. by destruct (decide _).
  - destruct (tc r) as [| |out esc|]; try done. destruct ok; intros [= <-].
    + set (r1 := mkRelay _ _ _ _ _ _ _ _ _). assert (H1 : adds r r1 []) by (by apply adds_none). exists [].
      destruct esc; [|split; [by apply (adds_trans _ _ _ [] [] H1), tc_loop_adds; apply H1|]].
      * split; [by apply (adds_trans _ _ _ [] [] H1), end_with_adds; apply H1|]. split; [done|]. split; [done|].
        unfold end_with. by destruct (decide _).
      * rewrite cl_tc_loop. split; [|done]. unfold tc_loop. destruct (decide _); [done|]. destruct (pending _); [done|apply tc_app_replies].
    + exists []. split; [by apply end_with_adds|]. split; [done|]. split; [done|]. unfold end_with. by destruct (decide _).
  - destruct (cl r); try done. destruct (decide _).
    { intros [= <-]. exists []. destruct (cl_end_adds r Hq) as [Ha Hc]. destruct (cl_end_kept r) as (_ & Ht & _). rewrite Ht.
      split; [done|]. split; [done|]. split; [by right|done]. }
    destruct (relay_send_line r ToClient (escapeIac data) Hq) as [Hq1 Hl1].
    destruct (relay_send_kept r ToClient (escapeIac data)) as (Ht & _).
    assert (H1 : adds r (relay_send r ToClient (escapeIac data)).2 [escapeIac data]) by (split; [done|]; rewrite Hl1; cbn; by rewrite app_nil_r).
    destruct (relay_send _ _ _) as [[] r1]; cbn in H1, Ht; intros [= <-]; exists [escapeIac data].
    + split; [by apply (adds_trans _ _ _ [_] [] H1), adds_none; [apply H1|..]|]. cbn. rewrite Ht. split; [done|]. split; [by left|done].
    + destruct (cl_loop_kept r1) as (_ & Ht1 & _). rewrite Ht1, Ht.
      split; [by apply (adds_trans _ _ _ [_] [] H1), cl_loop_adds; apply H1|]. split; [done|]. split; [by left|done].
  - destruct (cl r); try done. intros [= <-]. exists []. destruct (cl_end_adds r Hq) as [Ha Hc].
    destruct (cl_end_kept r) as (_ & Ht & _). rewrite Ht. split; [done|]. by split.
  - destruct ok; [|done]. destruct (writer r) as [who|] eqn:Ew; [|done]. cbn [andb]. destruct (bool_decide (outQueue r = [])) eqn:Eq; intros [= <-].
    + apply bool_decide_eq_true in Eq. assert (H1 : adds r (set_writer r [] None) []).
      { unfold adds, queue_ok, line_out. cbn. by rewrite Eq, !app_nil_r. }
      unfold sent. destruct who; cbn [set_writer tc].
      * destruct (tc r) as [|fs es d| |] eqn:Et; try (exists []; split; [exact H1|]; cbn; rewrite Et; by split).
        destruct (tc_resume_adds (set_writer r [] None) fs es d (proj1 H1) Hr) as (l & Ha & Hl & Hr'). exists l.
        split; [by apply (adds_trans _ _ _ _ _ H1)|]. split; [done|]. split; [done|]. by rewrite cl_tc_resume.
      * destruct (cl r) eqn:Ec; cbn [set_writer cl]; rewrite ?Ec;
          try (exists []; split; [exact H1|]; cbn; rewrite Ec; by split).
        destruct (cl_loop_kept (set_writer r [] None)) as (_ & Ht1 & _). exists []. cbn [cl_sent]. rewrite Ht1.
        split; [by apply (adds_trans _ _ _ [] [] H1), cl_loop_adds; apply H1|]. by split.
    + exists []. split; [|by split]. unfold adds, queue_ok, line_out. cbn [set_writer set_sess sess outQueue writer concat].
      by rewrite wire_emit, !app_nil_r.
Qed.

(** What was read from the console. *)
Definition console_data (es : list relay_event) : list bytes :=
  omap (fun e => match e with ConsoleRead d => Some d | _ => None end) es.

Definition data_frames (fs : list (bool * bytes)) : list bytes := map snd (base.filter (fun f => f.1 = true) fs).

Lemma replies_frames l : Forall reply l ->
  Forall (fun f => f.1 = false -> reply f.2) (map (pair false) l) /\ data_frames (map (pair false) l) = [] /\
  concat (map snd (map (pair false) l)) = concat l.
Proof.
  intros H. split; [|split].
  - apply Forall_fmap. eapply Forall_impl; [exact H|]. by cbn.
  - by induction l as [|f l IH]; [done|inversion_clear H; apply IH].
  - by rewrite map_map, map_id.
Qed.

Lemma data_frames_app a b : data_frames (a ++ b) = data_frames a ++ data_frames b.
Proof. unfold data_frames. by rewrite filter_app, map_app. Qed.

Lemma relay_run_frames r es r' :
  queue_ok r -> tc_replies (tc r) -> (forall e, e ∈ es -> e <> WriteDone false) -> relay_run r es = Some r' ->
  exists fs, line_out r' = line_out r ++ concat (map snd fs) /\ Forall (fun f => f.1 = false -> reply f.2) fs /\
    (data_frames fs) `prefix_of` (map escapeIac (console_data es)) /\
    (cl r = ClientDone -> cl r' = ClientDone /\ data_frames fs = []) /\
    (cl r' <> ClientDone -> data_frames fs = map escapeIac (console_data es)).
Proof.
  revert r. induction es as [|e es IH]; intros r Hq Hr Hok; cbn [relay_run].
  { intros [= <-]. exists []. rewrite app_nil_r. by repeat split. }
  destruct (relay_step r e) as [r1|] eqn:E; [|done]. intros Hrun.
  destruct (relay_step_adds r e r1 Hq Hr) as (l & [Hq1 Hl1] & Hr1 & Hf & Hdone); [apply Hok, elem_of_cons; by left|done|].
  destruct (IH r1 Hq1 Hr1) as (fs & Hfs & Hrep & Hpre & Hcl & Heq); [intros x Hx; apply Hok, elem_of_cons; by right|done|].
  assert (Hquiet : Forall reply l -> console_data (e :: es) = console_data es -> exists fs, line_out r' = line_out r ++ concat (map snd fs) /\
    Forall (fun f => f.1 = false -> reply f.2) fs /\ (data_frames fs) `prefix_of` (map escapeIac (console_data (e :: es))) /\
    (cl r = ClientDone -> cl r' = ClientDone /\ data_frames fs = []) /\
    (cl r' <> ClientDone -> data_frames fs = map escapeIac (console_data (e :: es)))).
  { intros Hl Hd. destruct (replies_frames l Hl) as (H1 & H2 & H3). exists (map (pair false) l ++ fs). rewrite Hd, data_frames_app, H2.
    split; [by rewrite Hfs, Hl1, map_app, concat_app, H3, app_assoc|]. split; [by apply Forall_app|]. split; [done|].
    split; [|done]. intros Hc. by apply Hcl, Hdone. }
  destruct e as [| |ok|d| |ok]; try by apply Hquiet.
  cbn [console_data omap]. destruct Hf as [->|[-> Hc1]].
  - exists ((true, escapeIac d) :: fs). split; [by rewrite Hfs, Hl1; cbn; rewrite app_nil_r, app_assoc|].
    split; [by constructor|]. split; [by apply prefix_cons|]. split; [|intros H; change (escapeIac d :: data_frames fs = escapeIac d :: map escapeIac (console_data es)); by rewrite Heq].
    intros Hc. destruct (Hdone Hc) as [_ Hn]. by destruct (Hn d).
  - exists fs. destruct (Hcl Hc1) as [Hc' Hd]. split; [by rewrite Hfs, Hl1; cbn; rewrite app_nil_r|]. split; [done|].
    rewrite Hd. split; [apply prefix_nil|]. by split.
Qed.

(** ** What the relay passes to the console *)

(** The bytes for the application: those pending, and those of the chunks read. *)
Definition decoded_by (s : session) (cs : list bytes) : Decoder.io := Decoder.feed (concat cs) (Decoder.mkIo (decoder s) [] []).

Definition received (s : session) (cs : list bytes) : bytes :=
  pending s ++ (collapse (lastCr s) (Decoder.out (decoded_by s cs))).1.

Lemma step_onto d o0 o e0 e c :
  Decoder.step (Decoder.mkIo d (o0 ++ o) (e0 ++ e)) c =
  let io := Decoder.step (Decoder.mkIo d o e) c in Decoder.mkIo (Decoder.dec io) (o0 ++ Decoder.out io) (e0 ++ Decoder.events io).
Proof.
  unfold Decoder.step, Decoder.dataByte, Decoder.onIac. cbn.
  destruct (Decoder.state_ d); repeat case_decide; cbn; rewrite <- ?app_assoc; try done.
  all: destruct (_ && _)%bool; repeat case_decide; cbn; by rewrite <- ?app_assoc.
Qed.

Lemma feed_onto data d o0 o e0 e :
  Decoder.feed data (Decoder.mkIo d (o0 ++ o) (e0 ++ e)) =
  let io := Decoder.feed data (Decoder.mkIo d o e) in Decoder.mkIo (Decoder.dec io) (o0 ++ Decoder.out io) (e0 ++ Decoder.events io).
Proof.
  revert d o e. induction data as [|c data IH]; intros d o e; [done|]. rewrite !feed_cons, step_onto. cbv zeta.
  destruct (Decoder.step (Decoder.mkIo d o e) c) as [d1 o1 e1]. apply IH.
Qed.

Lemma feed_start data d o e :
  Decoder.feed data (Decoder.mkIo d o e) =
  let io := Decoder.feed data (Decoder.mkIo d [] []) in Decoder.mkIo (Decoder.dec io) (o ++ Decoder.out io) (e ++ Decoder.events io).
Proof. rewrite <- (app_nil_r o) at 1. rewrite <- (app_nil_r e) at 1. apply feed_onto. Qed.

(** One chunk more. *)
Lemma decoded_snoc s cs c :
  let io := decoded_by s cs in let io' := Decoder.feed c (Decoder.mkIo (Decoder.dec io) [] []) in
  decoded_by s (cs ++ [c]) = Decoder.mkIo (Decoder.dec io') (Decoder.out io ++ Decoder.out io') (Decoder.events io ++ Decoder.events io').
Proof.
  cbv zeta. unfold decoded_by. rewrite concat_app, feed_app. cbn [concat]. rewrite app_nil_r.
  destruct (Decoder.feed (concat cs) _) as [d o e]. cbn [Decoder.dec Decoder.out Decoder.events].
  apply feed_start.
Qed.

Lemma collapse_app cr a b :
  collapse cr (a ++ b) = let '(x, cr1) := collapse cr a in let '(y, cr2) := collapse cr1 b in (x ++ y, cr2).
Proof.
  revert cr. induction a as [|c a IH]; intros cr; cbn; [by destruct (collapse cr b)|].
  destruct (_ && _); [apply IH|]. rewrite IH. destruct (collapse _ a) as [x cr1]. by destruct (collapse cr1 b).
Qed.

(** All that was read, up to [d], which is decoded but not yet appended, is in [w]
    or pending. *)
Definition upto (s0 : session) (cs : list bytes) (s : session) (w d : bytes) : Prop :=
  decoder s = Decoder.dec (decoded_by s0 cs) /\
  exists o app, Decoder.out (decoded_by s0 cs) = o ++ d /\ collapse (lastCr s0) o = (app, lastCr s) /\
    pending s0 ++ app = w ++ pending s.

Lemma upto_received s0 cs s w : upto s0 cs s w [] -> received s0 cs = w ++ pending s.
Proof. intros (_ & o & app & Ho & Hc & Hp). unfold received. rewrite Ho, app_nil_r, Hc. exact Hp. Qed.

Lemma upto_append s0 cs s w d : upto s0 cs s w d -> upto s0 cs (append s d) w [].
Proof.
  intros (Hd & o & app & Ho & Hc & Hp). unfold append. destruct (collapse (lastCr s) d) as [a cr] eqn:Ed.
  split; [done|]. exists (o ++ d), (app ++ a). cbn. rewrite app_nil_r. split; [done|]. split; [by rewrite collapse_app, Hc, Ed|].
  by rewrite app_assoc, Hp, <- app_assoc.
Qed.

Lemma upto_same s0 cs s s' w d :
  decoder s' = decoder s -> pending s' = pending s -> lastCr s' = lastCr s -> upto s0 cs s w d -> upto s0 cs s' w d.
Proof. unfold upto. by intros -> -> ->. Qed.

(** Where the bytes are, by where the coroutine is. *)
Definition to_console_ok (s0 : session) (cs : list bytes) (r : relay) : Prop :=
  escapeChar ∉ written r /\
  match tc r with
  | Reading => pending (sess r) = [] /\ upto s0 cs (sess r) (written r) []
  | Handling _ _ d => pending (sess r) = [] /\ upto s0 cs (sess r) (written r) d
  | Writing out esc => escapeChar ∉ out /\
      if esc then ((written r ++ out) ++ [escapeChar]) `prefix_of` (received s0 cs)
      else pending (sess r) = [] /\ upto s0 cs (sess r) (written r ++ out) []
  | ConsoleDone => (written r) `prefix_of` (received s0 cs)
  end.

Lemma span_escape app out rest :
  ConsoleConfig.span (fun c => negb (bool_decide (c = escapeChar))) app = (out, rest) ->
  app = out ++ rest /\ escapeChar ∉ out /\ (rest = [] \/ exists rest', rest = escapeChar :: rest').
Proof.
  revert out rest. induction app as [|c app IH]; intros out rest; cbn; [intros [= <- <-]; split; [done|]; split; [apply not_elem_of_nil|by left]|].
  destruct (bool_decide (c = escapeChar)) eqn:E; cbn [negb].
  - apply bool_decide_eq_true in E as ->. intros [= <- <-]. split; [done|]. split; [apply not_elem_of_nil|right; eauto].
  - apply bool_decide_eq_false in E. destruct (ConsoleConfig.span _ app) as [a b]. intros [= <- <-].
    destruct (IH a b eq_refl) as (-> & Hn & Hr). split; [done|]. split; [|done]. rewrite elem_of_cons. intros [?|?]; congruence.
Qed.

Lemma tc_end_ok s0 cs r : escapeChar ∉ written r -> (written r) `prefix_of` (received s0 cs) -> to_console_ok s0 cs (tc_end r).
Proof. by split. Qed.

Lemma end_with_written r e : written (end_with r e) = written r.
Proof. unfold end_with. by destruct (decide _). Qed.

Lemma tc_app_ok s0 cs r :
  escapeChar ∉ written r -> upto s0 cs (sess r) (written r) [] -> to_console_ok s0 cs (tc_app r).
Proof.
  intros Hw Hu. pose proof (upto_received _ _ _ _ Hu) as Hrec. unfold tc_app.
  destruct (decide _); [apply tc_end_ok; [done|]; rewrite Hrec; by apply prefix_app_r|].
  destruct (ConsoleConfig.span _ _) as [out rest] eqn:E. apply span_escape in E as (Happ & Hout & Hrest).
  assert (Hdone : escapeChar ∉ written r /\ (written r) `prefix_of` (received s0 cs)) by (split; [done|]; rewrite Hrec; by apply prefix_app_r).
  assert (Hu' : rest = [] -> upto s0 cs (set_pending (sess r) []) (written r ++ out) []).
  { intros ->. destruct Hu as (Hd & o & app & Ho & Hc & Hp). split; [done|]. exists o, app. cbn. split; [done|]. split; [done|].
    by rewrite Hp, Happ, !app_nil_r. }
  destruct Hrest as [->|[rest' ->]], out as [|b out]; cbn.
  - split; [done|]. cbn. split; [done|]. by rewrite <- (app_nil_r (written r)); apply Hu'.
  - split; [done|]. cbn. split; [done|]. split; [done|]. by apply Hu'.
  - destruct Hdone. apply tc_end_ok; by rewrite end_with_written.
  - split; [done|]. cbn. split; [done|]. rewrite Hrec, Happ. exists rest'. by rewrite <- !app_assoc.
Qed.

Lemma tc_loop_ok s0 cs r :
  escapeChar ∉ written r -> upto s0 cs (sess r) (written r) [] -> to_console_ok s0 cs (tc_loop r).
Proof.
  intros Hw Hu. unfold tc_loop. destruct (decide _).
  - apply tc_end_ok; [done|]. rewrite (upto_received _ _ _ _ Hu). by apply prefix_app_r.
  - destruct (pending (sess r)) eqn:Ep; [by split|by apply tc_app_ok].
Qed.

Lemma tc_decoded_ok s0 cs r d :
  escapeChar ∉ written r -> upto s0 cs (sess r) (written r) d -> to_console_ok s0 cs (tc_decoded r d).
Proof.
  intros Hw Hu%upto_append. unfold tc_decoded. cbn [set_sess sess].
  destruct (pending (append (sess r) d)) eqn:Ep; [by split|by apply tc_app_ok].
Qed.

(** Sending keeps what was read. *)
Definition same_reading (r r' : relay) : Prop :=
  decoder (sess r') = decoder (sess r) /\ pending (sess r') = pending (sess r) /\ lastCr (sess r') = lastCr (sess r) /\
  input (sess r') = input (sess r) /\ written r' = written r /\ tc r' = tc r.

Lemma relay_send_same r who d : same_reading r (relay_send r who d).2.
Proof. unfold relay_send, same_reading. destruct (writer r); [done|]. by destruct (decide _). Qed.

Lemma tc_sends_same r fs : same_reading r (tc_sends r fs).1.
Proof.
  revert r. induction fs as [|f fs IH]; intros r; cbn [tc_sends]; [done|].
  pose proof (relay_send_same r ToConsole f) as H. destruct (relay_send r ToConsole f) as [[] r1]; [done|]. cbn in H.
  destruct (IH r1) as (H1 & H2 & H3 & H4 & H5 & H6). destruct H as (G1 & G2 & G3 & G4 & G5 & G6).
  unfold same_reading. by rewrite H1, H2, H3, H4, H5, H6.
Qed.

Lemma tc_app_input r : input (sess (tc_app r)) = input (sess r).
Proof.
  unfold tc_app. destruct (decide _); [done|].
  destruct (ConsoleConfig.span _ _) as [[|b out] [|c rest]]; try done. cbn. by rewrite end_with_sess.
Qed.

Lemma tc_loop_input r : input (sess (tc_loop r)) = input (sess r).
Proof. unfold tc_loop. destruct (decide _); [done|]. destruct (pending (sess r)); [done|apply tc_app_input]. Qed.

Lemma tc_decoded_input r d : input (sess (tc_decoded r d)) = input (sess r).
Proof.
  unfold tc_decoded. set (r1 := set_sess r _).
  assert (H : input (sess r1) = input (sess r)) by (unfold r1, append; by destruct (collapse _ _)).
  rewrite <- H. destruct (pending (sess r1)); [done|apply tc_app_input].
Qed.

Lemma tc_events_ok s0 cs r es d :
  pending (sess r) = [] -> escapeChar ∉ written r -> upto s0 cs (sess r) (written r) d ->
  to_console_ok s0 cs (tc_events r es d) /\ input (sess (tc_events r es d)) = input (sess r).
Proof.
  revert r. induction es as [|e es IH]; intros r Hp Hw Hu; cbn [tc_events].
  { split; [by apply tc_decoded_ok|apply tc_decoded_input]. }
  destruct (onEvent_kept (sess r) e) as (Hi & Hp' & Hc & Hd & _). destruct (onEvent (sess r) e) as [s fs]. cbn in Hi, Hp', Hc, Hd.
  destruct (tc_sends_same (set_sess r s) fs) as (G1 & G2 & G3 & G4 & G5 & _). destruct (tc_sends _ fs) as [r1 [fs'|]]; cbn in *.
  - split; [|by rewrite G4, Hi]. split; cbn; [by rewrite G5|]. split; [by rewrite G2, Hp'|]. rewrite G5.
    eapply upto_same; [..|exact Hu]; [by rewrite G1|by rewrite G2|by rewrite G3].
  - rewrite <- Hi, <- G4. apply IH; [by rewrite G2, Hp'|by rewrite G5|]. rewrite G5.
    eapply upto_same; [..|exact Hu]; [by rewrite G1|by rewrite G2|by rewrite G3].
Qed.

Lemma tc_resume_ok s0 cs r fs es d :
  pending (sess r) = [] -> escapeChar ∉ written r -> upto s0 cs (sess r) (written r) d ->
  to_console_ok s0 cs (tc_resume r fs es d) /\ input (sess (tc_resume r fs es d)) = input (sess r).
Proof.
  intros Hp Hw Hu. unfold tc_resume. destruct (tc_sends_same r fs) as (G1 & G2 & G3 & G4 & G5 & _).
  destruct (tc_sends r fs) as [r1 [fs'|]]; cbn in *.
  - split; [|done]. split; cbn; [by rewrite G5|]. split; [by rewrite G2|]. rewrite G5. by eapply upto_same.
  - rewrite <- G4. apply tc_events_ok; [by rewrite G2|by rewrite G5|]. rewrite G5. by eapply upto_same.
Qed.

(** In every place the console was given a prefix. *)
Lemma to_console_prefix s0 cs r : to_console_ok s0 cs r -> (written r) `prefix_of` (received s0 cs).
Proof.
  intros [_ Hok]. destruct (tc r) as [|fs es d|out esc|]; try done.
  - destruct Hok as [_ Hu]. rewrite (upto_received _ _ _ _ Hu). by apply prefix_app_r.
  - destruct Hok as [_ (_ & o & app & Ho & Hc & Hp)]. unfold received. rewrite Ho, collapse_app, Hc.
    destruct (collapse (lastCr _) d) as [a cr]. cbn. rewrite app_assoc, Hp, <- app_assoc. by apply prefix_app_r.
  - destruct Hok as [_ Hok]. destruct esc.
    + etrans; [|exact Hok]. rewrite <- app_assoc. by apply prefix_app_r.
    + destruct Hok as [_ Hu]. rewrite (upto_received _ _ _ _ Hu), <- app_assoc. by apply prefix_app_r.
Qed.

Lemma to_console_same s0 cs r r' : same_reading r r' -> to_console_ok s0 cs r -> to_console_ok s0 cs r'.
Proof. intros (G1 & G2 & G3 & G4 & G5 & G6) [Hw Hok]. unfold to_console_ok, upto in *. by rewrite G1, G2, G3, G5, G6. Qed.

Lemma relay_step_ok s0 cs r e r' :
  input s0 = cs ++ input (sess r) -> to_console_ok s0 cs r -> relay_step r e = Some r' ->
  exists cs', input s0 = cs' ++ input (sess r') /\ to_console_ok s0 cs' r'.
Proof.
  intros Hin [Hw Hok].
  pose proof (to_console_prefix s0 cs r (conj Hw Hok)) as Hrec.
  destruct e as [| |ok|data| |ok]; cbn [relay_step].
  - destruct (tc r) eqn:Et; try done. destruct (input (sess r)) as [|c rest] eqn:Ei; [done|]. unfold decode. intros [= <-].
    set (io := Decoder.feed _ _). set (r1 := set_sess _ _). exists (cs ++ [c]). destruct Hok as [Hp (Hd & o & app & Ho & Hc & Happ)].
    rewrite app_nil_r in Ho. pose proof (decoded_snoc s0 cs c) as Hsnoc. cbv zeta in Hsnoc. rewrite <- Hd in Hsnoc.
    change (Decoder.feed c (Decoder.mkIo (decoder (sess r)) [] [])) with io in Hsnoc.
    destruct (tc_events_ok s0 (cs ++ [c]) r1 (Decoder.events io) (Decoder.out io)) as [H1 H2]; [done|done| |].
    + unfold upto. rewrite Hsnoc. split; [done|]. exists o, app. cbn. by rewrite Ho.
    + rewrite H2. split; [|done]. rewrite Hin. cbn. by rewrite <- app_assoc.
  - destruct (tc r) eqn:Et; try done. intros [= <-]. exists cs. cbn. rewrite end_with_sess. split; [done|].
    apply tc_end_ok; rewrite end_with_written; auto.
  - destruct (tc r) as [| |out esc|] eqn:Et; try done. destruct Hok as [Hout Hok]. destruct ok; intros [= <-]; exists cs.
    + assert (Hw' : escapeChar ∉ written r ++ out) by (rewrite elem_of_app; by intros [?|?]). destruct esc.
      * cbn. rewrite end_with_sess. split; [done|]. apply tc_end_ok; rewrite end_with_written; cbn; [done|].
        etrans; [|exact Hok]. by apply prefix_app_r.
      * destruct Hok as [Hp Hu]. set (r1 := mkRelay _ _ _ _ _ _ _ _ _). rewrite tc_loop_input. split; [done|]. by apply tc_loop_ok.
    + cbn. rewrite end_with_sess. split; [done|]. apply tc_end_ok; rewrite end_with_written; auto.
  - destruct (cl r); try done. destruct (decide _).
    { intros [= <-]. exists cs. destruct (cl_end_kept r) as (Hs & Ht & Hwr). unfold to_console_ok. by rewrite Hs, Ht, Hwr. }
    destruct (relay_send_same r ToClient (escapeIac data)) as (G1 & G2 & G3 & G4 & G5 & G6).
    assert (H1 : to_console_ok s0 cs (relay_send r ToClient (escapeIac data)).2).
    { apply (to_console_same s0 cs r); [|by split]. done. }
    destruct (relay_send _ _ _) as [[] r1]; cbn in *; intros [= <-]; exists cs.
    + split; [cbn; by rewrite G4|]. done.
    + destruct (cl_loop_kept r1) as (Hs & Ht & Hwr). unfold to_console_ok in *. rewrite Hs, Ht, Hwr, G4. done.
  - destruct (cl r); try done. intros [= <-]. exists cs. destruct (cl_end_kept r) as (Hs & Ht & Hwr). unfold to_console_ok. by rewrite Hs, Ht, Hwr.
  - destruct (writer r) as [who|]; [|done]. destruct (_ && _)%bool; intros [= <-]; [by exists cs|].
    unfold sent. destruct who; cbn [set_writer tc].
    + destruct (tc r) as [|fs es d| |] eqn:E; try (exists cs; split; [done|]; split; [done|]; cbn; by rewrite E).
      destruct Hok as [Hp Hu]. destruct (tc_resume_ok s0 cs (set_writer r [] None) fs es d Hp Hw Hu) as [H1 H2].
      exists cs. by rewrite H2.
    + assert (H0 : to_console_ok s0 cs (set_writer r [] None)) by (by split).
      destruct (cl r) eqn:Ec; cbn; rewrite ?Ec; try by exists cs. unfold cl_sent. exists cs. destruct ok.
      * destruct (cl_loop_kept (set_writer r [] None)) as (Hs & Ht & Hwr). unfold to_console_ok. by rewrite Hs, Ht, Hwr.
      * destruct (cl_end_kept (set_end (set_writer r [] None) clientClosed)) as (Hs & Ht & Hwr). unfold to_console_ok. by rewrite Hs, Ht, Hwr.
Qed.

Lemma relay_run_ok s0 cs r es r' :
  input s0 = cs ++ input (sess r) -> to_console_ok s0 cs r -> relay_run r es = Some r' ->
  exists cs', input s0 = cs' ++ input (sess r') /\ to_console_ok s0 cs' r'.
Proof.
  revert cs r. induction es as [|e es IH]; intros cs r Hin Hok; cbn [relay_run]; [intros [= <-]; by exists cs|].
  destruct (relay_step r e) as [r1|] eqn:E; [|done]. destruct (relay_step_ok s0 cs r e r1 Hin Hok E) as (cs' & Hin' & Hok').
  by apply (IH cs').
Qed.

Lemma relay_start_ok s : input (sess (relay_start s)) = input s /\ to_console_ok s [] (relay_start s).
Proof.
  unfold relay_start. set (r := mkRelay _ _ _ _ _ _ _ _ _). destruct (cl_loop_kept (tc_loop r)) as (Hs & Ht & Hw).
  rewrite Hs, tc_loop_input. split; [done|]. unfold to_console_ok. rewrite Hs, Ht, Hw.
  apply (tc_loop_ok s [] r); [apply not_elem_of_nil|]. split; [done|]. exists [], []. cbn. split; [done|]. split; [done|]. apply app_nil_r.
Qed.

Lemma relay_start_line s : queue_ok (relay_start s) /\ line_out (relay_start s) = wire s /\ tc_replies (tc (relay_start s)).
Proof.
  unfold relay_start. set (r := mkRelay _ _ _ _ _ _ _ _ _). assert (Hq : queue_ok r) by done.
  destruct (tc_loop_adds r Hq) as [Hq1 H1]. destruct (cl_loop_adds (tc_loop r) Hq1) as [Hq2 H2].
  destruct (cl_loop_kept (tc_loop r)) as (_ & Ht & _). rewrite Ht, H2, H1. split; [done|]. split; [unfold line_out; cbn; by rewrite !app_nil_r|].
  unfold tc_loop. destruct (decide _); [done|]. destruct (pending _); [done|apply tc_app_replies].
Qed.

(** C31: however reads, writes and replies of the protocol interleave, the console
    is given exactly what the client typed, in order and up to Ctrl-], whatever
    telnet commands come in between; and what is written to the client is a
    sequence of whole frames: the data of the console, escaped and in order, and
    replies of the gateway. *)
Theorem relay_faithful s es r :
  relay_run (relay_start s) es = Some r ->
  (exists cs, input s = cs ++ input (sess r) /\ escapeChar ∉ written r /\ (written r) `prefix_of` (received s cs) /\
     (tc r = Reading -> written r = received s cs)) /\
  ((forall e, e ∈ es -> e <> WriteDone false) ->
   exists fs, line_out r = wire s ++ concat (map snd fs) /\ Forall (fun f => f.1 = false -> reply f.2) fs /\
     (data_frames fs) `prefix_of` (map escapeIac (console_data es)) /\
     (cl r <> ClientDone -> data_frames fs = map escapeIac (console_data es))).
Proof.
  intros Hr. destruct (relay_start_ok s) as [Hi Ho]. split.
  - destruct (relay_run_ok s [] _ es r ltac:(by rewrite Hi) Ho Hr) as (cs & Hin & Hok). exists cs. split; [done|].
    pose proof (to_console_prefix _ _ _ Hok) as Hp. destruct Hok as [Hw Hok]. split; [done|]. split; [done|].
    intros Ht. rewrite Ht in Hok. destruct Hok as [Hpe Hu]. by rewrite (upto_received _ _ _ _ Hu), Hpe, app_nil_r.
  - intros Hf. destruct (relay_start_line s) as (Hq & Hl & Ht).
    destruct (relay_run_frames _ es r Hq Ht Hf Hr) as (fs & Hfs & Hrep & Hpre & _ & Heq). exists fs. by rewrite Hfs, Hl.
Qed.

(** A client that types a command and negotiates, then leaves with Ctrl-]. *)
Definition example_session : session :=
  newSession [str "ls" ++ crlf; [cmd.iac; cmd.will; opt.terminalType]; [escapeChar] ++ str "2" ++ [CR]].

Definition example_events : list relay_event :=
  [ClientRead; ConsoleRead [cmd.iac; x41]; ConsoleWritten true; ClientRead; WriteDone true; WriteDone true; ClientRead; ConsoleFails].

Lemma relay_faithful_witness :
  exists r, relay_run (relay_start example_session) example_events = Some r /\
    exists cs, input example_session = cs ++ input (sess r) /\ escapeChar ∉ written r /\
      (written r) `prefix_of` (received example_session cs).
Proof.
  destruct (relay_run (relay_start example_session) example_events) as [r|] eqn:E.
  - exists r. split; [reflexivity|]. destruct (relay_faithful _ _ _ E) as [(cs & H1 & H2 & H3 & _) _]. exists cs. repeat split; assumption.
  - vm_compute in E. discriminate.
Defined.

(** What the two sides got there. *)
Example relay_example :
  (r ← relay_run (relay_start example_session) example_events; Some (written r, trace (sess r), end_ r, tc r, cl r)) =
  Some (str "ls" ++ [CR], [Sent [cmd.iac; cmd.iac; x41]; Sent ([cmd.iac; cmd.doo; opt.terminalType] ++ terminalTypeSendFrame)], escape, ConsoleDone, ClientDone).
Proof. vm_compute. reflexivity. Qed.

(** ** Limits *)

(** What is typed in one chunk after Ctrl-] is lost: here a menu choice. *)
Example typed_ahead_lost :
  (r ← relay_run (relay_start example_session) example_events; Some (input (sess r), pending (sess r))) = Some ([], []).
Proof. vm_compute. reflexivity. Qed.

(** The console closes while a reply to the client is written: [cancel] finds no
    read to abort, the end of that write, aborted or not, starts one, and the relay, whose other
    coroutine is done, waits for the client although it is over. *)
Example relay_stuck ok :
  (r ← relay_run (relay_start (newSession [[cmd.iac; cmd.doo; x05]])) [ClientRead; ConsoleFails; WriteDone ok];
   Some (end_ r, tc r, cl r, aborted r, closed r)) =
  Some (consoleClosed, Reading, ClientDone, false, true).
Proof. destruct ok; vm_compute; reflexivity. Qed.
