(* ===== verification/TelnetClient.v ===== *)
(** * The telnet client: [examples/telnet_tls/telnet_tls_client.cpp]

    Three coroutines, [readSocket], [readStdin] and [watchResize], share one
    writer.  [step] runs one of them to its next suspension; the terminal, the
    network and the signals are the events.  The protocol is that of [Telnet.v];
    the last theorem joins the client with the gateway of [TelnetServer.v]. *)

From S2P Require Import Prelude Telnet.
From S2P Require TelnetServer.

(** ** "Enter ~ ." *)

Module EscapeDetector.

Inductive State := normal | lineStart | tilde.

Definition next (c : byte) : State := if bool_decide (c = CR) || bool_decide (c = TelnetServer.LF) then lineStart else normal.

(** [feed]: whether the sequence is complete, and [state_]. *)
Definition feed (s : State) (c : byte) : bool * State :=
  match s with
  | lineStart => (false, if decide (c = "~"%byte) then tilde else next c)
  | tilde => if decide (c = "."%byte) then (true, tilde) else (false, next c)
  | normal => (false, next c)
  end.

(** The loop of [readStdin]: how many bytes to forward, [quit], and the state. *)
Fixpoint scan (s : State) (buf : bytes) : nat * bool * State :=
  match buf with
  | [] => (0, false, s)
  | c :: buf =>
      let '(hit, s) := feed s c in
      if hit then (0, true, s) else let '(n, quit, s) := scan s buf in (S n, quit, s)
  end.

End EscapeDetector.

(** ** The single writer *)

Inductive coroutine := ReadSocket | ReadStdin | WatchResize.

(** [chunks] were handed to the TLS stream. *)
Record line := mkLine { outQueue : bytes; writer : option coroutine; chunks : list bytes }.

(** [send] up to its first suspension: whether the coroutine is suspended. *)
Definition send (l : line) (who : coroutine) (data : bytes) : bool * line :=
  match writer l with
  | Some _ => (false, mkLine (outQueue l ++ data) (writer l) (chunks l))
  | None =>
      let chunk := outQueue l ++ data in
      if decide (chunk = []) then (false, mkLine [] None (chunks l)) else (true, mkLine [] (Some who) (chunks l ++ [chunk]))
  end.

(** A write ends: the next one, or the coroutine whose [send] returns. *)
Definition write_done (l : line) (ok : bool) : option (line * option coroutine) :=
  match writer l with
  | None => None
  | Some who =>
      if ok && negb (bool_decide (outQueue l = [])) then Some (mkLine [] (Some who) (chunks l ++ [outQueue l]), None)
      else Some (mkLine [] None (chunks l), Some who)
  end.

(** ** The client *)

(** What [write] returns. *)
Inductive write_result := Wrote (n : nat) | Again | Failed.

(** [writeAll]: what was written, given what [write] returns each time. *)
Fixpoint writeAll (ws : list write_result) (data : bytes) : option bytes :=
  match data, ws with
  | [], _ => Some []
  | _, [] => None
  | _, Wrote n :: ws => option_map (app (take n data)) (writeAll ws (drop n data))
  | _, Again :: ws => writeAll ws data
  | _, Failed :: _ => Some []
  end.

(** What is left to send of an event; the size of the window is asked for when
    its turn comes. *)
Inductive todo := Frame (f : bytes) | WindowSize.

Inductive socket_pc := Receiving | Handling (ts : list todo) (events : list Event) | SocketDone.
Inductive stdin_pc := Typing | Forwarding (quit : bool) | StdinDone.
Inductive resize_pc := Watching | Resizing.

(** [size] is that of the terminal; [screen] was written to it. *)
Record client := mkClient {
  decoder : Decoder.t;
  negotiator : Negotiator;
  nawsSent : bool;
  escape : EscapeDetector.State;
  size : option (Z * Z);
  socket : socket_pc;
  stdin : stdin_pc;
  resize : resize_pc;
  out : line;
  screen : bytes;
  stopped : bool;
}.

Definition makePolicy : Policy :=
  mkPolicy (fun o => bool_decide (o = opt.naws) || bool_decide (o = opt.terminalType) || bool_decide (o = opt.suppressGoAhead))
    (fun o => bool_decide (o = opt.echo) || bool_decide (o = opt.suppressGoAhead)).

(** The client once it is connected. *)
Definition newClient (sz : option (Z * Z)) : client :=
  mkClient Decoder.init (Negotiator.init makePolicy) false EscapeDetector.lineStart sz Receiving Typing Watching
    (mkLine [] None []) [] false.

Definition set_decoder (c : client) (d : Decoder.t) (shown : bytes) : client :=
  mkClient d (negotiator c) (nawsSent c) (escape c) (size c) (socket c) (stdin c) (resize c) (out c) (screen c ++ shown) (stopped c).
Definition set_negotiator (c : client) (n : Negotiator) (naws : bool) : client :=
  mkClient (decoder c) n naws (escape c) (size c) (socket c) (stdin c) (resize c) (out c) (screen c) (stopped c).
Definition set_escape (c : client) (e : EscapeDetector.State) : client :=
  mkClient (decoder c) (negotiator c) (nawsSent c) e (size c) (socket c) (stdin c) (resize c) (out c) (screen c) (stopped c).
Definition set_size (c : client) (sz : option (Z * Z)) : client :=
  mkClient (decoder c) (negotiator c) (nawsSent c) (escape c) sz (socket c) (stdin c) (resize c) (out c) (screen c) (stopped c).
Definition set_socket (c : client) (p : socket_pc) : client :=
  mkClient (decoder c) (negotiator c) (nawsSent c) (escape c) (size c) p (stdin c) (resize c) (out c) (screen c) (stopped c).
Definition set_stdin (c : client) (p : stdin_pc) : client :=
  mkClient (decoder c) (negotiator c) (nawsSent c) (escape c) (size c) (socket c) p (resize c) (out c) (screen c) (stopped c).
Definition set_resize (c : client) (p : resize_pc) : client :=
  mkClient (decoder c) (negotiator c) (nawsSent c) (escape c) (size c) (socket c) (stdin c) p (out c) (screen c) (stopped c).
Definition set_out (c : client) (l : line) : client :=
  mkClient (decoder c) (negotiator c) (nawsSent c) (escape c) (size c) (socket c) (stdin c) (resize c) l (screen c) (stopped c).

(** [shutdown] stops the io_context: no handler runs any more. *)
Definition shutdown (c : client) : client :=
  mkClient (decoder c) (negotiator c) (nawsSent c) (escape c) (size c) (socket c) (stdin c) (resize c) (out c) (screen c) true.

(** [windowSize]. *)
Definition windowSize (sz : option (Z * Z)) : Z * Z :=
  match sz with
  | Some (w, h) => if (0 <? w)%Z then (w, h) else (80, 24)%Z
  | None => (80, 24)%Z
  end.

(** What is sent when its turn has come; [sendWindowSize] may send nothing. *)
Definition frame_of (c : client) (t : todo) : option bytes :=
  match t with
  | Frame f => Some f
  | WindowSize =>
      if Negotiator.localEnabled (negotiator c) opt.naws then Some (let '(w, h) := windowSize (size c) in nawsFrame w h) else None
  end.

(** Sends until a [send] suspends: what is left, if so. *)
Fixpoint sends (c : client) (who : coroutine) (ts : list todo) : client * option (list todo) :=
  match ts with
  | [] => (c, None)
  | t :: ts =>
      match frame_of c t with
      | None => sends c who ts
      | Some f =>
          let '(suspended, l) := send (out c) who f in
          if suspended then (set_out c l, Some ts) else sends (set_out c l) who ts
      end
  end.

Section client.

(** [getenv("TERM")]. *)
Context (TERM : option bytes).

Definition terminal_name : bytes := match TERM with Some t => if decide (t = []) then str "xterm" else t | None => str "xterm" end.

(** [onEvent]: what it sends. *)
Definition onEvent (c : client) (event : Event) : client * list todo :=
  match event with
  | Negotiation verb o =>
      let '(n, reply) := Negotiator.handle (negotiator c) verb o in
      let ts := if decide (reply = []) then [] else [Frame reply] in
      if bool_decide (o = opt.naws) && Negotiator.localEnabled n opt.naws && negb (nawsSent c)
      then (set_negotiator c n true, ts ++ [WindowSize])
      else (set_negotiator c n (nawsSent c), ts)
  | Subnegotiation o payload =>
      match payload with
      | b :: _ =>
          if bool_decide (o = opt.terminalType) && bool_decide (b = ttypeSend) && Negotiator.localEnabled (negotiator c) opt.terminalType
          then (c, [Frame (terminalTypeIsFrame terminal_name)]) else (c, [])
      | [] => (c, [])
      end
  | Command _ => (c, [])
  end.

(** The loop over the events of a read. *)
Fixpoint handle_events (c : client) (events : list Event) : client :=
  match events with
  | [] => set_socket c Receiving
  | e :: events =>
      let '(c, ts) := onEvent c e in
      match sends c ReadSocket ts with
      | (c, Some ts) => set_socket c (Handling ts events)
      | (c, None) => handle_events c events
      end
  end.

Definition handle_rest (c : client) (ts : list todo) (events : list Event) : client :=
  match sends c ReadSocket ts with
  | (c, Some ts) => set_socket c (Handling ts events)
  | (c, None) => handle_events c events
  end.

(** The end of a round of [readStdin]. *)
Definition forwarded (c : client) (ok quit : bool) : client :=
  if ok && negb quit then set_stdin c Typing else shutdown (set_stdin c StdinDone).

Inductive event :=
  | Received (data : bytes) (ws : list write_result)
  | ReceiveFails
  | Typed (data : bytes)
  | TypeFails
  | SizeChanges (sz : option (Z * Z))
  | Winch
  | WriteDone (ok : bool).

Definition step (c : client) (e : event) : option client :=
  if stopped c then None
  else match e with
  | Received data ws =>
      match socket c with
      | Receiving =>
          let io := Decoder.feed data (Decoder.mkIo (decoder c) [] []) in
          shown ← writeAll ws (Decoder.out io);
          Some (handle_events (set_decoder c (Decoder.dec io) shown) (Decoder.events io))
      | _ => None
      end
  | ReceiveFails => match socket c with Receiving => Some (shutdown (set_socket c SocketDone)) | _ => None end
  | Typed data =>
      match stdin c with
      | Typing =>
          if decide (data = []) then Some (shutdown (set_stdin c StdinDone))
          else
            let '(n, quit, s) := EscapeDetector.scan (escape c) data in
            let c := set_escape c s in
            if decide (n = 0) then Some (forwarded c true quit)
            else
              let '(suspended, l) := send (out c) ReadStdin (escapeIac (take n data)) in
              let c := set_out c l in
              Some (if suspended then set_stdin c (Forwarding quit) else forwarded c true quit)
      | _ => None
      end
  | TypeFails => match stdin c with Typing => Some (shutdown (set_stdin c StdinDone)) | _ => None end
  | SizeChanges sz => Some (set_size c sz)
  | Winch =>
      match resize c with
      | Watching =>
          match sends c WatchResize [WindowSize] with
          | (c, Some _) => Some (set_resize c Resizing)
          | (c, None) => Some c
          end
      | _ => None
      end
  | WriteDone ok =>
      '(l, returns) ← write_done (out c) ok;
      let c := set_out c l in
      match returns with
      | None => Some c
      | Some ReadSocket => match socket c with Handling ts events => Some (handle_rest c ts events) | _ => Some c end
      | Some ReadStdin => match stdin c with Forwarding quit => Some (forwarded c ok quit) | _ => Some c end
      | Some WatchResize => Some (set_resize c Watching)
      end
  end.

Fixpoint run (c : client) (es : list event) : option client :=
  match es with
  | [] => Some c
  | e :: es => match step c e with Some c => run c es | None => None end
  end.

End client.

(** ** The escape sequence *)

Section escape.

Import EscapeDetector.

Definition at_line_start (l : bytes) : Prop := l = [] \/ exists p c, l = p ++ [c] /\ (c = CR \/ c = TelnetServer.LF).

(** [l] ends in the sequence. *)
Definition escapes (l : bytes) : Prop := exists p, l = p ++ str "~." /\ at_line_start p.

(** What the state tells of the bytes fed so far. *)
Definition fed (l : bytes) (s : State) : Prop :=
  match s with
  | lineStart => at_line_start l
  | tilde => exists p, l = p ++ str "~" /\ at_line_start p
  | normal => ~ at_line_start l /\ ~ exists p, l = p ++ str "~" /\ at_line_start p
  end.

Lemma line_start_snoc l c : at_line_start (l ++ [c]) <-> c = CR \/ c = TelnetServer.LF.
Proof.
  split.
  - intros [H|(p & c' & H & Hc)]; [by destruct l|]. by apply app_inj_tail in H as [_ ->].
  - intros Hc. right. by exists l, c.
Qed.

Lemma escapes_snoc l c : escapes (l ++ [c]) <-> c = "."%byte /\ exists p, l = p ++ str "~" /\ at_line_start p.
Proof.
  unfold escapes. change (str "~.") with (str "~" ++ ["."%byte]). split.
  - intros (p & H & Hp). rewrite app_assoc in H. apply app_inj_tail in H as [-> ->]. eauto.
  - intros (-> & p & -> & Hp). exists p. by rewrite app_assoc.
Qed.

Lemma next_fed l c : (at_line_start l -> c <> "~"%byte) -> fed (l ++ [c]) (next c).
Proof.
  intros H. unfold next. destruct (bool_decide (c = CR) || bool_decide (c = TelnetServer.LF)) eqn:E; cbn [fed].
  - apply line_start_snoc. apply orb_true_iff in E as [E|E]; apply bool_decide_eq_true in E; auto.
  - apply orb_false_iff in E as [E1 E2]. apply bool_decide_eq_false in E1, E2. rewrite line_start_snoc. split; [by intros [?|?]|].
    intros (p & Hp & Hs). apply app_inj_tail in Hp as [-> ->]. by apply H.
Qed.

Lemma feed_fed l s c : fed l s ->
  ((feed s c).1 = true <-> escapes (l ++ [c])) /\ ((feed s c).1 = false -> fed (l ++ [c]) (feed s c).2).
Proof.
  rewrite escapes_snoc. destruct s; cbn [feed fed].
  - intros [H1 H2]. split; [split; [done|by intros [_ ?]]|]. intros _. by apply next_fed.
  - intros H. split; [split; [done|]|].
    + intros [_ (p & -> & Hp)]. apply line_start_snoc in H as [H|H]; discriminate H.
    + intros _. cbn. destruct (decide (c = "~"%byte)) as [->|]; [cbn; eauto|by apply next_fed].
  - intros H. destruct (decide (c = "."%byte)) as [->|Hc]; cbn; [by split|]. split; [split; [done|by intros [? _]]|]. intros _.
    apply next_fed. intros Hl. destruct H as (p & -> & Hp). apply line_start_snoc in Hl as [H|H]; discriminate H.
Qed.

(** Nothing in [l] is the sequence. *)
Definition plain (l : bytes) : Prop := forall p, p `prefix_of` l -> ~ escapes p.

Lemma plain_nil : plain [].
Proof. intros p Hp (q & H & _). apply prefix_nil_inv in Hp as ->. by destruct q. Qed.

Lemma plain_snoc l c : plain l -> ~ escapes (l ++ [c]) -> plain (l ++ [c]).
Proof.
  intros Hl Hc p [q Hq]. destruct q as [|x q _] using rev_ind; [rewrite app_nil_r in Hq; by subst|].
  rewrite app_assoc in Hq. apply app_inj_tail in Hq as [Hq _]. apply Hl. by exists q.
Qed.

(** [t] is [l] up to the dot of the first sequence, if there is one. *)
Definition cut (l t : bytes) : Prop := t = l \/ exists rest, l = t ++ "."%byte :: rest /\ escapes (t ++ ["."%byte]).

Lemma scan_spec l s buf : fed l s -> plain l ->
  let '(n, quit, s') := scan s buf in
  plain (l ++ take n buf) /\
  if quit then cut (l ++ buf) (l ++ take n buf) else n = length buf /\ fed (l ++ buf) s'.
Proof.
  revert l s. induction buf as [|c buf IH]; intros l s Hs Hl; cbn [scan]; [cbn; by rewrite !app_nil_r|].
  destruct (feed_fed l s c Hs) as [Hhit Hfed]. destruct (feed s c) as [hit s1] eqn:E. cbn [fst snd] in *. destruct hit.
  - cbn. rewrite app_nil_r. split; [done|]. right. exists buf. destruct (proj1 Hhit eq_refl) as (p & H & _).
    assert (c = "."%byte) as ->; [|by split; [|apply Hhit]]. change (str "~.") with (str "~" ++ ["."%byte]) in H.
    rewrite app_assoc in H. by apply app_inj_tail in H as [_ ->].
  - assert (Hn : plain (l ++ [c])) by (apply plain_snoc; [done|]; intros H; by apply Hhit in H).
    specialize (IH (l ++ [c]) s1 (Hfed eq_refl) Hn). destruct (scan s1 buf) as [[n quit] s2]. cbn [take].
    rewrite <- !app_assoc in IH. cbn [app] in IH. destruct IH as [IH1 IH2]. split; [done|]. destruct quit; [done|].
    destruct IH2 as [-> IH2]. by split.
Qed.

(** The cut is unique. *)
Lemma cut_unique l t t' : plain t -> plain t' -> cut l t -> cut l t' -> t = t'.
Proof.
  enough (H : forall t t', plain t' -> cut l t -> cut l t' -> length t < length t' -> False).
  { intros Ht Ht' Hc Hc'. destruct (decide (length t < length t')); [exfalso; eauto|].
    destruct (decide (length t' < length t)); [exfalso; eauto|].
    assert (Hp : t `prefix_of` l) by (destruct Hc as [->|(r & -> & _)]; [done|by apply prefix_app_r]).
    assert (Hp' : t' `prefix_of` l) by (destruct Hc' as [->|(r & -> & _)]; [done|by apply prefix_app_r]).
    destruct (prefix_weak_total t t' l Hp Hp') as [[k ->]|[k ->]]; rewrite length_app in *; destruct k; cbn in *; try lia; by rewrite app_nil_r. }
  clear t t'. intros t t' Ht' Hc Hc' Hlen.
  assert (Hp' : t' `prefix_of` l) by (destruct Hc' as [->|(r & -> & _)]; [done|by apply prefix_app_r]).
  destruct Hc as [->|(r & -> & He)]; [destruct Hp' as [k ->]; rewrite length_app in Hlen; lia|].
  apply (Ht' (t ++ ["."%byte])); [|done].
  destruct (prefix_weak_total (t ++ ["."%byte]) t' (t ++ "."%byte :: r)) as [H|H]; [exists r; by rewrite <- app_assoc|done|done|].
  destruct H as [k Hk]. pose proof (f_equal length Hk) as Hl. rewrite !length_app in Hl. cbn in Hl.
  destruct k as [|x k]; [rewrite app_nil_r in Hk; by rewrite Hk|cbn in Hl; lia].
Qed.

End escape.

(** ** What goes to the gateway *)

Definition all_out (l : line) : bytes := concat (chunks l) ++ outQueue l.

(** The queue is empty unless somebody writes. *)
Definition queue_ok (l : line) : Prop := writer l = None -> outQueue l = [].

Lemma send_line l who d : queue_ok l -> queue_ok (send l who d).2 /\ all_out (send l who d).2 = all_out l ++ d.
Proof.
  unfold send, queue_ok, all_out. intros Hq. destruct (writer l) as [w|] eqn:Ew; [by cbn; rewrite app_assoc|].
  rewrite (Hq eq_refl). cbn [app]. destruct (decide (d = [])) as [->|]; cbn; [by rewrite !app_nil_r|].
  rewrite concat_app. cbn. by rewrite !app_nil_r.
Qed.

Lemma write_done_line l l' who : queue_ok l -> write_done l true = Some (l', who) -> queue_ok l' /\ all_out l' = all_out l.
Proof.
  unfold write_done, queue_ok, all_out. intros Hq. destruct (writer l) as [w|]; [|done]. cbn [andb].
  destruct (bool_decide (outQueue l = [])) eqn:E; intros [= <- <-]; cbn; [apply bool_decide_eq_true in E; by rewrite E|].
  by rewrite concat_app; cbn; rewrite !app_nil_r.
Qed.

(** What is left to send are events of the protocol. *)
Definition todo_ok (t : todo) : Prop := match t with Frame f => exists e, wf_event e /\ f = encode_event e | WindowSize => True end.

Lemma frame_of_ok c t f : todo_ok t -> frame_of c t = Some f -> exists e, wf_event e /\ f = encode_event e.
Proof.
  destruct t as [g|]; cbn [frame_of todo_ok]; [by intros H [= <-]|]. intros _. destruct (Negotiator.localEnabled _ _); [|done].
  destruct (windowSize _) as [w h]. intros [= <-]. by exists (Subnegotiation opt.naws
    [of_u8 (Z.shiftr w 8); of_u8 (Z.land w 255); of_u8 (Z.shiftr h 8); of_u8 (Z.land h 255)]).
Qed.

Lemma handle_encoded n v o : let r := (Negotiator.handle n v o).2 in r = [] \/ exists e, wf_event e /\ r = encode_event e.
Proof. destruct (TelnetServer.handle_reply n v o) as [H|(v' & o' & Hv & H)]; [by left|right; by exists (Negotiation v' o')]. Qed.

(** What the coroutine of the terminal has, and sending leaves alone. *)
Definition same_typing (c c' : client) : Prop := escape c' = escape c /\ stdin c' = stdin c /\ stopped c' = stopped c.

(** [answers c c' es]: the events are sent. *)
Definition answers (c c' : client) (es : list Event) : Prop :=
  queue_ok (out c') /\ all_out (out c') = all_out (out c) ++ concat (map encode_event es) /\ Forall wf_event es /\ same_typing c c'.

Lemma answers_none c c' : queue_ok (out c) -> out c' = out c -> same_typing c c' -> answers c c' [].
Proof. intros Hq Ho Hs. unfold answers. rewrite Ho. cbn. by rewrite app_nil_r. Qed.

Lemma answers_trans c1 c2 c3 e1 e2 : answers c1 c2 e1 -> answers c2 c3 e2 -> answers c1 c3 (e1 ++ e2).
Proof.
  intros (_ & H1 & F1 & S1 & S2 & S3) (Hq & H2 & F2 & S4 & S5 & S6). split; [done|]. split; [by rewrite H2, H1, map_app, concat_app, app_assoc|].
  split; [by apply Forall_app|]. unfold same_typing. by rewrite S4, S5, S6.
Qed.

Lemma sends_answers c who ts : queue_ok (out c) -> Forall todo_ok ts ->
  exists es, answers c (sends c who ts).1 es /\ Forall todo_ok (default [] (sends c who ts).2) /\
    socket (sends c who ts).1 = socket c /\ resize (sends c who ts).1 = resize c.
Proof.
  intros Hq Hts. revert c Hq. induction Hts as [|t ts Ht Hts IH]; intros c Hq; cbn [sends]; [exists []; split; [by apply answers_none|done]|].
  destruct (frame_of c t) as [f|] eqn:Ef; [|by apply IH]. destruct (frame_of_ok c t f Ht Ef) as (e & He & ->).
  destruct (send_line (out c) who (encode_event e) Hq) as [Hq1 Hl1]. destruct (send _ _ _) as [[] l]; cbn in *.
  - exists [e]. split; [|done]. split; [done|]. split; [cbn; by rewrite app_nil_r|]. by split; [constructor|].
  - destruct (IH (set_out c l) Hq1) as (es & Ha & Hd). exists (e :: es). split; [|done]. apply (answers_trans c (set_out c l) _ [e] es); [|done].
    split; [done|]. split; [cbn; by rewrite app_nil_r|]. by split; [constructor|].
Qed.

Definition socket_ok (p : socket_pc) : Prop := match p with Handling ts _ => Forall todo_ok ts | _ => True end.

Section run.

Context (TERM : option bytes).

Lemma onEvent_ok c e : queue_ok (out c) -> answers c (onEvent TERM c e).1 [] /\ Forall todo_ok (onEvent TERM c e).2.
Proof.
  intros Hq. destruct e as [v o|o p|k]; cbn [onEvent].
  - pose proof (handle_encoded (negotiator c) v o) as H. destruct (Negotiator.handle _ _ _) as [n f]. cbn in H.
    assert (Hf : Forall todo_ok (if decide (f = []) then [] else [Frame f])).
    { destruct (decide (f = [])); [done|]. constructor; [|done]. by destruct H. }
    destruct (_ && _)%bool; cbn; (split; [by apply answers_none|]); [|done]. apply Forall_app. by split; [|constructor].
  - destruct p as [|b p]; [split; [by apply answers_none|done]|]. destruct (_ && _)%bool; (split; [by apply answers_none|]); [|done].
    constructor; [|done]. by exists (Subnegotiation opt.terminalType ([ttypeIs] ++ terminal_name TERM)).
  - by split; [apply answers_none|].
Qed.

Lemma handle_events_ok c es : queue_ok (out c) ->
  exists l, answers c (handle_events TERM c es) l /\ socket_ok (socket (handle_events TERM c es)).
Proof.
  revert c. induction es as [|e es IH]; intros c Hq; cbn [handle_events]; [exists []; split; [by apply answers_none|done]|].
  destruct (onEvent_ok c e Hq) as [Ha Ht]. destruct (onEvent TERM c e) as [c1 ts]. cbn in Ha, Ht.
  destruct (sends_answers c1 ReadSocket ts (proj1 Ha) Ht) as (l & Hl & Hd & _). destruct (sends c1 ReadSocket ts) as [c2 [ts'|]]; cbn in Hl, Hd.
  - exists l. split; [|done]. apply (answers_trans _ _ _ _ _ Ha) in Hl. rewrite <- (app_nil_r l). apply (answers_trans _ c2); [done|].
    apply answers_none; [apply Hl|done..].
  - destruct (IH c2 (proj1 Hl)) as (l2 & Hl2 & Hs). exists (l ++ l2). split; [|done].
    apply (answers_trans _ _ _ _ _ Ha) in Hl. by apply (answers_trans _ c2).
Qed.

Lemma handle_rest_ok c ts es : queue_ok (out c) -> Forall todo_ok ts ->
  exists l, answers c (handle_rest TERM c ts es) l /\ socket_ok (socket (handle_rest TERM c ts es)).
Proof.
  intros Hq Ht. unfold handle_rest. destruct (sends_answers c ReadSocket ts Hq Ht) as (l & Hl & Hd & _).
  destruct (sends c ReadSocket ts) as [c2 [ts'|]]; cbn in Hl, Hd.
  - exists l. split; [|done]. rewrite <- (app_nil_r l). apply (answers_trans _ c2); [done|]. apply answers_none; [apply Hl|done..].
  - destruct (handle_events_ok c2 es (proj1 Hl)) as (l2 & Hl2 & Hs). exists (l ++ l2). split; [|done]. by apply (answers_trans _ c2).
Qed.

(** A frame on the line: typed bytes or an event. *)
Definition put (f : bytes + Event) : bytes := match f with inl d => escapeIac d | inr e => encode_event e end.
Definition typed_in (fs : list (bytes + Event)) : bytes := concat (omap (fun f => match f with inl d => Some d | _ => None end) fs).
Definition events_in (fs : list (bytes + Event)) : list Event := omap (fun f => match f with inr e => Some e | _ => None end) fs.

Lemma typed_in_app a b : typed_in (a ++ b) = typed_in a ++ typed_in b.
Proof. unfold typed_in. by rewrite omap_app, concat_app. Qed.

Lemma events_frames es : concat (map put (map inr es)) = concat (map encode_event es) /\ typed_in (map inr es) = [] /\ events_in (map inr es) = es.
Proof.
  split; [by rewrite map_map|]. split; [by induction es|]. unfold events_in.
  induction es as [|e es IH]; [done|]. cbn. by f_equal.
Qed.

(** Where the typed bytes are: [T] was typed and [t] forwarded. *)
Definition typing_ok (T t : bytes) (c : client) : Prop :=
  plain t /\
  match stdin c with
  | Typing | Forwarding false => t = T /\ fed T (escape c)
  | Forwarding true => cut T t
  | StdinDone => cut T t /\ stopped c = true
  end.

Definition line_ok (T : bytes) (fs : list (bytes + Event)) (c : client) : Prop :=
  queue_ok (out c) /\ all_out (out c) = concat (map put fs) /\ Forall wf_event (events_in fs) /\ socket_ok (socket c) /\
  typing_ok T (typed_in fs) c.

Lemma line_answers T fs c c' es : line_ok T fs c -> answers c c' es -> socket_ok (socket c') -> line_ok T (fs ++ map inr es) c'.
Proof.
  intros (_ & Hl & Hw & _ & Hp & Ht) (Hq & Hl' & He & Hesc & Hin & Hst) Hs. destruct (events_frames es) as (H1 & H2 & H3).
  split; [done|]. split; [by rewrite Hl', Hl, map_app, concat_app, H1|].
  split; [unfold events_in in *; rewrite omap_app; apply Forall_app; by rewrite H3|]. split; [done|].
  unfold typing_ok. by rewrite typed_in_app, H2, app_nil_r, Hesc, Hin, Hst.
Qed.

End run.

Section typing.

Context (TERM : option bytes).

(** What a step adds to what was typed. *)
Definition typed_by (e : event) : bytes := match e with Typed d => d | _ => [] end.
Definition typed (es : list event) : bytes := concat (map typed_by es).

Lemma forwarded_typing T t c (quit : bool) : plain t -> (if quit then cut T t else t = T /\ fed T (escape c)) -> typing_ok T t (forwarded c true quit).
Proof. intros Hp H. unfold forwarded, typing_ok. by destruct quit. Qed.

Lemma line_typing T T' fs c c' : line_ok T fs c -> out c' = out c -> socket_ok (socket c') -> typing_ok T' (typed_in fs) c' -> line_ok T' fs c'.
Proof. unfold line_ok. intros (Hq & Hl & Hw & _ & _) ->. done. Qed.

Lemma step_typed T fs c d c' : line_ok T fs c -> step TERM c (Typed d) = Some c' -> exists fs', line_ok (T ++ d) (fs ++ fs') c'.
Proof.
  intros H. pose proof H as (Hq & Hl & Hw & Hs & Hp & Ht). unfold step. destruct (stopped c); [done|]. destruct (stdin c) eqn:Ein; [|done..]. destruct Ht as [Ht Hf].
  destruct (decide (d = [])) as [->|Hd].
  { intros [= <-]. exists []. rewrite !app_nil_r. apply (line_typing T _ _ c); try done. split; [done|]. split; [by left|done]. }
  rewrite Ht in Hp. pose proof (scan_spec T (escape c) d Hf Hp) as Hscan. destruct (EscapeDetector.scan _ d) as [[n quit] s].
  destruct Hscan as [Hpl Hscan]. assert (Hrest : if quit then cut (T ++ d) (T ++ take n d) else T ++ take n d = T ++ d /\ fed (T ++ d) s).
  { destruct quit; [done|]. destruct Hscan as [-> ?]. by rewrite firstn_all. }
  destruct (decide (n = 0)) as [->|Hn].
  { intros [= <-]. exists []. rewrite app_nil_r. apply (line_typing T _ _ c); [done|by destruct quit..|]. rewrite Ht. cbn [take] in Hpl, Hrest. rewrite app_nil_r in Hpl, Hrest. by apply forwarded_typing. }
  destruct (send_line (out c) ReadStdin (escapeIac (take n d)) Hq) as [Hq1 Hl1]. cbn [out set_escape].
  destruct (send _ _ _) as [susp l]. cbn in Hq1, Hl1. intros [= <-]. exists [inl (take n d)]. unfold line_ok.
  assert (Hfs : typed_in (fs ++ [inl (take n d)] : list (bytes + Event)) = T ++ take n d) by (rewrite typed_in_app, Ht; unfold typed_in; cbn; by rewrite app_nil_r).
  rewrite Hfs, map_app, concat_app. assert (Hev : events_in (fs ++ [inl (take n d)] : list (bytes + Event)) = events_in fs) by (unfold events_in; rewrite omap_app; cbn; by rewrite app_nil_r).
  rewrite Hev, <- Hl. cbn [map put concat]. rewrite app_nil_r, <- Hl1. destruct susp.
  { split; [done|]. split; [done|]. split; [done|]. split; [done|]. split; [done|]. by destruct quit. }
  split; [by destruct quit|]. split; [by destruct quit|]. split; [done|]. split; [by destruct quit|]. by apply forwarded_typing.
Qed.

Lemma client_step_ok T fs c e c' : line_ok T fs c -> e <> WriteDone false -> step TERM c e = Some c' ->
  exists fs', line_ok (T ++ typed_by e) (fs ++ fs') c'.
Proof.
  intros H Hok Hstep. destruct e as [data ws| |d| |sz| |ok]; cbn [typed_by]; rewrite ?app_nil_r.
  3: by eapply step_typed.
  all: revert Hstep; unfold step; destruct (stopped c) eqn:Est; [done|]; pose proof H as (Hq & Hl & Hw & Hs & Hp & Ht).
  - destruct (socket c); [|done..]. destruct (writeAll _ _) as [shown|]; [|done]. cbn. intros [= <-].
    set (c1 := set_decoder _ _ _). destruct (handle_events_ok TERM c1 (Decoder.events (Decoder.feed data (Decoder.mkIo (decoder c) [] []))) Hq) as (l & Ha & Hk).
    exists (map inr l). by apply (line_answers _ _ c).
  - destruct (socket c); [|done..]. intros [= <-]. exists []. rewrite app_nil_r. apply (line_typing T _ _ c); try done. split; [done|]. cbn.
    destruct (stdin c); [done..|]. by destruct Ht.
  - destruct (stdin c); [|done..]. intros [= <-]. exists []. rewrite app_nil_r. apply (line_typing T _ _ c); try done. split; [done|]. split; [left; apply Ht|done].
  - intros [= <-]. exists []. rewrite app_nil_r. done.
  - destruct (resize c); [|done]. destruct (sends_answers c WatchResize [WindowSize] Hq) as (l & Ha & _ & Hk & _); [by constructor|].
    destruct (sends c WatchResize _) as [c1 r]. cbn in Ha, Hk. rewrite <- Hk in Hs. destruct r; intros [= <-]; exists (map inr l); by apply (line_answers _ _ c).
  - destruct ok; [|done]. destruct (write_done (out c) true) as [[l who]|] eqn:E; [|done]. cbn.
    destruct (write_done_line _ _ _ Hq E) as [Hq1 Hl1].
    assert (H1 : answers c (set_out c l) []) by (split; [done|]; cbn; rewrite Hl1, app_nil_r; by repeat split).
    assert (H2 : line_ok T fs (set_out c l)) by (pose proof (line_answers _ _ _ _ _ H H1 Hs) as H2; by rewrite app_nil_r in H2).
    destruct who as [[]|].
    + destruct (socket c) as [|ts es|] eqn:Ek; intros [= <-]; try (exists []; by rewrite app_nil_r).
      destruct (handle_rest_ok TERM (set_out c l) ts es Hq1 Hs) as (k & Ha & Hs'). exists (map inr k). by apply (line_answers _ _ (set_out c l)).
    + destruct (stdin c) as [|quit|] eqn:Ek; intros [= <-]; try (exists []; by rewrite app_nil_r). exists []. rewrite app_nil_r.
      apply (line_typing T _ _ (set_out c l)); [done|by destruct quit..|]. apply forwarded_typing; [done|]. by destruct quit.
    + intros [= <-]. exists []. by rewrite app_nil_r.
    + intros [= <-]. exists []. by rewrite app_nil_r.
Qed.

Lemma run_ok T fs c es c' : line_ok T fs c -> (forall e, e ∈ es -> e <> WriteDone false) -> run TERM c es = Some c' ->
  exists fs', line_ok (T ++ typed es) fs' c'.
Proof.
  revert T fs c. induction es as [|e es IH]; intros T fs c H Hok; cbn [run]; [intros [= <-]; exists fs; by rewrite app_nil_r|].
  destruct (step TERM c e) as [c1|] eqn:E; [|done]. intros Hrun.
  destruct (client_step_ok T fs c e c1 H) as (fs' & H1); [apply Hok, elem_of_cons; by left|done|].
  destruct (IH _ _ c1 H1) as (fs2 & H2); [intros x Hx; apply Hok, elem_of_cons; by right|done|]. exists fs2.
  unfold typed. cbn. by rewrite app_assoc.
Qed.

Lemma newClient_ok sz : line_ok [] [] (newClient sz).
Proof. split_and!; try done. split; [apply plain_nil|]. split; [done|]. by left. Qed.

End typing.

(** ** Both ends *)

(** The bytes of a frame survive the decoder. *)
Lemma strip_plain b p : x00 ∉ p -> cr_nul_strip b p = p.
Proof.
  revert b. induction p as [|c p IH]; intros b Hn; [done|]. cbn. apply not_elem_of_cons in Hn as [Hc Hn].
  rewrite bool_decide_eq_false_2 by done. rewrite andb_false_r. by rewrite IH.
Qed.

Lemma feed_frames fs d o ev : in_data d = true -> x00 ∉ typed_in fs -> Forall wf_event (events_in fs) ->
  exists d', in_data d' = true /\
    Decoder.feed (concat (map put fs)) (Decoder.mkIo d o ev) = Decoder.mkIo d' (o ++ typed_in fs) (ev ++ map clip_event (events_in fs)).
Proof.
  revert d o ev. induction fs as [|[t|e] fs IH]; intros d o ev Hd Hn Hw.
  - exists d. split; [done|]. by rewrite !app_nil_r.
  - change (typed_in (inl t :: fs)) with (t ++ typed_in fs) in *. apply not_elem_of_app in Hn as [Ht Hn]. cbn [map put concat]. rewrite feed_app.
    destruct (feed_escaped t d o ev Hd) as (st & Hst & ->). rewrite strip_plain by done.
    destruct (IH _ (o ++ t) ev Hst Hn Hw) as (d' & Hd' & ->). exists d'. split; [done|]. by rewrite app_assoc.
  - apply Forall_cons in Hw as [He Hw]. cbn [map put concat]. rewrite feed_app.
    destruct (feed_event e d o ev He Hd) as (d1 & Hd1 & ->).
    destruct (IH d1 o (ev ++ [clip_event e])) as (d' & Hd' & ->); [by unfold in_data; rewrite Hd1|done|done|].
    exists d'. split; [done|]. change (events_in (inr e :: fs)) with (e :: events_in fs). cbn [map]. by rewrite <- app_assoc.
Qed.

(** What is decoded of a part of a stream comes first in what is decoded of all. *)
Lemma decoded_prefix (w w' : bytes) io :
  w `prefix_of` w' -> Decoder.out (Decoder.feed w io) `prefix_of` Decoder.out (Decoder.feed w' io) /\
  Decoder.events (Decoder.feed w io) `prefix_of` Decoder.events (Decoder.feed w' io).
Proof.
  intros [r ->]. rewrite feed_app. destruct (Decoder.feed w io) as [d o ev]. rewrite TelnetServer.feed_start. cbn. by split; eexists.
Qed.

Lemma collapse_prefix cr (d d' : bytes) :
  d `prefix_of` d' -> (TelnetServer.collapse cr d).1 `prefix_of` (TelnetServer.collapse cr d').1.
Proof.
  intros [r ->]. rewrite TelnetServer.collapse_app. destruct (TelnetServer.collapse cr d) as [a cr']. destruct (TelnetServer.collapse cr' r) as [b ?]. by eexists.
Qed.

(** C32: what the user types reaches the gateway: however typing, replies of the
    protocol, changes of the window and writes interleave, as long as no write fails
    and no NUL is typed, the part of what the client has handed to its connection
    that the gateway has read, cut into reads anyhow, is decoded there to the beginning
    of the typed text up to the dot of the first [~.] at the start of a line, line
    ends collapsed, and of the client's well-formed answers; it is all of them when
    everything handed over was read and nothing is queued.  Something is queued only
    while a write is under way; while the client runs and is not about to stop, the
    typed text is all that was typed. *)
Theorem typed_received TERM sz es c :
  run TERM (newClient sz) es = Some c -> (forall e, e ∈ es -> e <> WriteDone false) -> x00 ∉ typed es ->
  (writer (out c) = None -> outQueue (out c) = []) /\
  exists t answers, plain t /\ cut (typed es) t /\ (stopped c = false -> stdin c <> Forwarding true -> t = typed es) /\ Forall wf_event answers /\
    forall cs, concat cs `prefix_of` concat (chunks (out c)) ->
      let got := TelnetServer.received (TelnetServer.newSession cs) cs in
      let events := Decoder.events (TelnetServer.decoded_by (TelnetServer.newSession cs) cs) in
      got `prefix_of` (TelnetServer.collapse false t).1 /\ events `prefix_of` map clip_event answers /\
      (outQueue (out c) = [] -> concat cs = concat (chunks (out c)) ->
       got = (TelnetServer.collapse false t).1 /\ events = map clip_event answers).
Proof.
  intros Hrun Hok Hn. destruct (run_ok TERM [] [] _ es c (newClient_ok sz) Hok Hrun) as (fs & Hq & Hl & Hw & _ & Hp & Ht). cbn [app] in Ht.
  split; [done|]. exists (typed_in fs), (events_in fs). assert (Hc : cut (typed es) (typed_in fs)).
  { destruct (stdin c) as [|[]|]; [left; apply Ht|done|left; apply Ht|apply Ht]. }
  split; [done|]. split; [done|]. split; [|split; [done|]].
  { intros Hs Hf. destruct (stdin c) as [|[]|]; try done; try apply Ht. destruct Ht as [_ Ht]. congruence. }
  intros cs Hcs got events.
  destruct (feed_frames fs Decoder.init [] []) as (d & _ & Hall); [done| |done|].
  { destruct Hc as [->|(r & Hr & _)]; [done|]. rewrite Hr in Hn. by apply not_elem_of_app in Hn as [Hn _]. }
  rewrite <- Hl in Hall. assert (Hpre : concat cs `prefix_of` all_out (out c)) by (unfold all_out; by apply prefix_app_r).
  destruct (decoded_prefix _ _ (Decoder.mkIo Decoder.init [] []) Hpre) as [Ho He]. rewrite Hall in Ho, He. cbn in Ho, He.
  split; [by apply collapse_prefix|]. split; [done|]. intros H0 Hwhole.
  assert (Heq : concat cs = all_out (out c)) by (unfold all_out; by rewrite H0, app_nil_r).
  unfold got, events, TelnetServer.received, TelnetServer.decoded_by.
  cbn [TelnetServer.pending TelnetServer.newSession TelnetServer.lastCr TelnetServer.decoder app]. by rewrite Heq, Hall.
Qed.

(** Words typed while the gateway negotiates, then the sequence in two reads. *)
Definition example_events : list event :=
  [Typed (str "ls" ++ [CR]); Received [cmd.iac; cmd.doo; opt.naws] []; WriteDone true; WriteDone true;
   Typed (str "~"); WriteDone true; Typed (str ".rest")].

Lemma typed_received_witness :
  exists c, run None (newClient None) example_events = Some c /\
    exists t answers, plain t /\ cut (typed example_events) t /\ Forall wf_event answers /\
      TelnetServer.received (TelnetServer.newSession (chunks (out c))) (chunks (out c)) = (TelnetServer.collapse false t).1.
Proof.
  destruct (run None (newClient None) example_events) as [c|] eqn:E; [|vm_compute in E; discriminate].
  assert (Hq : outQueue (out c) = []) by (vm_compute in E; injection E as <-; reflexivity).
  destruct (typed_received None None example_events c E) as (_ & t & a & H1 & H2 & _ & H3 & H4).
  - intros e He. repeat (apply elem_of_cons in He as [->|He]; [discriminate|]). by apply elem_of_nil in He.
  - apply (bool_decide_unpack _). vm_compute. exact I.
  - exists c. split; [reflexivity|]. exists t, a. split; [exact H1|]. split; [exact H2|]. split; [exact H3|].
    destruct (H4 (chunks (out c))) as (_ & _ & H5); [reflexivity|]. exact (proj1 (H5 Hq eq_refl)).
Defined.

(** What is on the line there: the text, the answers in one write, and the tilde. *)
Example client_line :
  (c ← run None (newClient None) example_events; Some (chunks (out c), outQueue (out c), stopped c)) =
  Some ([str "ls" ++ [CR]; negotiation cmd.will opt.naws ++ nawsFrame 80 24; str "~"], [], true).
Proof. vm_compute. reflexivity. Qed.

(** ** What is shown *)

Lemma writeAll_all ws d w : Failed ∉ ws -> writeAll ws d = Some w -> w = d.
Proof.
  revert d w. induction ws as [|[n| |] ws IH]; intros [|b d] w Hf; cbn [writeAll]; try (by intros [= <-]).
  - apply not_elem_of_cons in Hf as [_ Hf]. destruct (writeAll ws _) as [w'|] eqn:E; [|done]. intros [= <-].
    rewrite (IH _ _ Hf E). apply take_drop.
  - apply not_elem_of_cons in Hf as [_ Hf]. by apply IH.
  - by destruct (not_elem_of_cons ws Failed Failed) as [H _]; destruct (H Hf).
Qed.

Definition shows (c c' : client) : Prop := decoder c' = decoder c /\ screen c' = screen c.

Lemma sends_shows c who ts : shows c (sends c who ts).1.
Proof.
  revert c. induction ts as [|t ts IH]; intros c; cbn [sends]; [done|]. destruct (frame_of c t); [|done].
  destruct (send _ _ _) as [[] k]; [done|apply (IH (set_out c k))].
Qed.

Lemma onEvent_shows TERM c e : shows c (onEvent TERM c e).1.
Proof.
  destruct e as [v o|o [|b p]|k]; cbn [onEvent]; [|done| |done]; [destruct (Negotiator.handle _ _ _)|]; by destruct (_ && _)%bool.
Qed.

Lemma handle_events_shows TERM c es : shows c (handle_events TERM c es).
Proof.
  revert c. induction es as [|e es IH]; intros c; cbn [handle_events]; [done|]. pose proof (onEvent_shows TERM c e) as H1.
  destruct (onEvent TERM c e) as [c1 ts]. pose proof (sends_shows c1 ReadSocket ts) as H2.
  destruct (sends c1 ReadSocket ts) as [c2 [ts'|]]; unfold shows in *; cbn in *; destruct H2 as [G1 G2]; [by rewrite G1, G2|].
  destruct (IH c2) as [-> ->]. by rewrite G1, G2.
Qed.

Lemma handle_rest_shows TERM c ts es : shows c (handle_rest TERM c ts es).
Proof.
  unfold handle_rest. pose proof (sends_shows c ReadSocket ts) as H. destruct (sends c ReadSocket ts) as [c1 [ts'|]]; [done|].
  destruct (handle_events_shows TERM c1 es) as [H1 H2]. unfold shows. by rewrite H1, H2.
Qed.

Definition received_by (e : event) : bytes := match e with Received d _ => d | _ => [] end.
Definition shown_fine (e : event) : Prop := match e with Received _ ws => Failed ∉ ws | _ => True end.

Lemma step_shows TERM c e c' : step TERM c e = Some c' -> shown_fine e ->
  let io := Decoder.feed (received_by e) (Decoder.mkIo (decoder c) [] []) in
  decoder c' = Decoder.dec io /\ screen c' = screen c ++ Decoder.out io.
Proof.
  intros Hs Hf. revert Hs. unfold step. cbv zeta. destruct (stopped c); [done|]. destruct e as [d ws| |d| |sz| |ok]; cbn [received_by]; rewrite ?app_nil_r.
  - destruct (socket c); [|done..]. destruct (writeAll _ _) as [w|] eqn:E; [|done]. cbn. intros [= <-]. apply writeAll_all in E as ->; [|done].
    set (io := Decoder.feed _ _). destruct (handle_events_shows TERM (set_decoder c (Decoder.dec io) (Decoder.out io)) (Decoder.events io)) as [-> ->].
    done.
  - destruct (socket c); [|done..]. by intros [= <-].
  - destruct (stdin c); [|done..]. destruct (decide _); [by intros [= <-]|]. destruct (EscapeDetector.scan _ d) as [[m q] st].
    destruct (decide _); [by intros [= <-]; unfold forwarded; destruct q|]. destruct (send _ _ _) as [[] k]; intros [= <-]; [done|]. unfold forwarded. by destruct q.
  - destruct (stdin c); [|done..]. by intros [= <-].
  - by intros [= <-].
  - destruct (resize c); [|done]. destruct (sends_shows c WatchResize [WindowSize]) as [H1 H2].
    destruct (sends c WatchResize _) as [c1 [r|]]; by intros [= <-].
  - destruct (write_done _ _) as [[l who]|]; [|done]. cbn. destruct who as [[]|]; [| |by intros [= <-]..].
    + destruct (socket c) as [|ts es|]; intros [= <-]; [done| |done]. apply (handle_rest_shows TERM (set_out c l)).
    + destruct (stdin c) as [|q|]; intros [= <-]; [done| |done]. unfold forwarded. by destruct (_ && _)%bool.
Qed.

Lemma run_shows TERM c es c' : run TERM c es = Some c' -> Forall shown_fine es ->
  let io := Decoder.feed (concat (map received_by es)) (Decoder.mkIo (decoder c) [] []) in
  decoder c' = Decoder.dec io /\ screen c' = screen c ++ Decoder.out io.
Proof.
  revert c. induction es as [|e es IH]; intros c; cbn [run map concat]; [intros [= <-]; cbn; by rewrite app_nil_r|].
  destruct (step TERM c e) as [c1|] eqn:E; [|done]. intros Hr [He Hes]%Forall_cons. destruct (step_shows _ _ _ _ E He) as [H1 H2].
  cbv zeta. rewrite feed_app. destruct (IH c1 Hr Hes) as [-> ->]. rewrite H1, H2. destruct (Decoder.feed (received_by e) _) as [d o ev].
  rewrite (TelnetServer.feed_start _ d o ev). cbn. by rewrite app_assoc.
Qed.

(** The frames of a relay, in the terms of this file. *)
Lemma relay_frames fs : Forall (fun f => f.1 = false -> TelnetServer.reply f.2) fs ->
  forall ds, TelnetServer.data_frames fs = map escapeIac ds ->
  exists gs, concat (map snd fs) = concat (map put gs) /\ typed_in gs = concat ds /\ Forall wf_event (events_in gs).
Proof.
  induction 1 as [|[[] f] fs Hf _ IH]; intros ds Hd.
  - exists []. split; [done|]. by destruct ds.
  - change (TelnetServer.data_frames ((true, f) :: fs)) with (f :: TelnetServer.data_frames fs) in Hd. destruct ds as [|d ds]; [done|].
    cbn in Hd. injection Hd as -> Hd. destruct (IH ds Hd) as (gs & H1 & H2 & H3). exists (inl d :: gs). cbn [map snd put concat]. rewrite H1.
    split; [done|]. split; [|done]. change (typed_in (inl d :: gs)) with (d ++ typed_in gs). by rewrite H2.
  - destruct (IH ds Hd) as (gs & H1 & H2 & H3). assert (He : exists e, wf_event e /\ f = encode_event e).
    { destruct (Hf eq_refl) as [(v & o & Hv & H)|H]; [by exists (Negotiation v o)|by exists (Subnegotiation opt.terminalType [ttypeSend])]. }
    destruct He as (e & He & ->). exists (inr e :: gs). cbn [map snd put concat]. rewrite H1. split; [done|]. split; [done|]. by constructor.
Qed.

(** What the console writes reaches the user's screen: however the gateway's
    relay runs, a client that has received what the relay has sent, cut into reads
    anyhow and with replies in between, has shown exactly the output that the relay
    has read from the console, as long as the relay is not over. *)
Theorem console_shown s es r TERM c0 cs c :
  TelnetServer.relay_run (TelnetServer.relay_start s) es = Some r ->
  (forall e, e ∈ es -> e <> TelnetServer.WriteDone false) -> TelnetServer.cl r <> TelnetServer.ClientDone ->
  x00 ∉ concat (TelnetServer.console_data es) ->
  in_data (decoder c0) = true -> run TERM c0 cs = Some c -> Forall shown_fine cs ->
  TelnetServer.line_out r = TelnetServer.wire s ++ concat (map received_by cs) ->
  screen c = screen c0 ++ concat (TelnetServer.console_data es).
Proof.
  intros Hr Hok Hcl Hn Hd Hrun Hf Hline. destruct (TelnetServer.relay_start_line s) as (Hq & Hl & Ht).
  destruct (TelnetServer.relay_run_frames _ es r Hq Ht Hok Hr) as (fs & Hfs & Hrep & _ & _ & Heq).
  destruct (relay_frames fs Hrep (TelnetServer.console_data es) (Heq Hcl)) as (gs & H1 & H2 & H3).
  rewrite Hfs, Hl in Hline. apply app_inv_head in Hline. destruct (run_shows TERM c0 cs c Hrun Hf) as [_ ->].
  rewrite <- Hline, H1. destruct (feed_frames gs (decoder c0) [] [] Hd) as (d & _ & ->); [by rewrite H2|done|]. cbn. by rewrite H2.
Qed.

(** A console that writes in two pieces, with a negotiation in between. *)
Definition shown_session : TelnetServer.session := TelnetServer.newSession [[cmd.iac; cmd.will; opt.terminalType]].
Definition shown_relay : list TelnetServer.relay_event :=
  [TelnetServer.ConsoleRead (str "log" ++ [cmd.iac]); TelnetServer.ClientRead; TelnetServer.WriteDone true; TelnetServer.WriteDone true;
   TelnetServer.ConsoleRead (str "in:")].
Definition shown_client : list event :=
  [Received (str "log" ++ [cmd.iac]) [Wrote 2; Again; Wrote 5];
   Received ([cmd.iac; cmd.iac; cmd.doo; opt.terminalType] ++ terminalTypeSendFrame ++ str "in") [Wrote 3]; WriteDone true; WriteDone true;
   Received (str ":") [Wrote 1]].

Lemma console_shown_witness :
  exists c, run None (newClient None) shown_client = Some c /\ screen c = str "log" ++ [cmd.iac] ++ str "in:".
Proof.
  assert (Hr : option_map (fun r => (TelnetServer.cl r, TelnetServer.line_out r)) (TelnetServer.relay_run (TelnetServer.relay_start shown_session) shown_relay) =
    Some (TelnetServer.ClSending, TelnetServer.wire shown_session ++ concat (map received_by shown_client))) by (vm_compute; reflexivity).
  assert (Hc : option_map screen (run None (newClient None) shown_client) = Some (str "log" ++ [cmd.iac] ++ str "in:")) by (vm_compute; reflexivity).
  destruct (TelnetServer.relay_run (TelnetServer.relay_start shown_session) shown_relay) as [r|] eqn:Er; [|discriminate Hr].
  destruct (run None (newClient None) shown_client) as [c|] eqn:Ec; [|discriminate Hc].
  exists c. split; [reflexivity|]. cbn [option_map] in Hr. injection Hr as Hcl Hl.
  rewrite (console_shown shown_session shown_relay r None (newClient None) shown_client c Er); [reflexivity|..].
  - intros e He. repeat (apply elem_of_cons in He as [->|He]; [discriminate|]). by apply elem_of_nil in He.
  - rewrite Hcl. discriminate.
  - apply (bool_decide_unpack _). vm_compute. exact I.
  - reflexivity.
  - exact Ec.
  - repeat (apply Forall_cons; split; [cbn; try exact I; intros Hf; repeat (apply elem_of_cons in Hf as [Hf|Hf]; [discriminate Hf|]); by apply elem_of_nil in Hf|]). constructor.
  - exact Hl.
Defined.

(** ** Limits *)

(** Text that ends in the sequence while a reply is being written is queued only:
    the client stops before it is sent. *)
Example quit_drops_queue :
  (c ← run None (newClient None) [Received [cmd.iac; cmd.will; x05] []; Typed (str "exit" ++ [CR] ++ str "~.")];
   Some (chunks (out c), outQueue (out c), stopped c)) =
  Some ([negotiation cmd.dont x05], str "exit" ++ [CR] ++ str "~", true).
Proof. vm_compute. reflexivity. Qed.
