(* ===== verification/GraphqlBridge.v ===== *)
(** * The GraphQL to D-Bus bridge:
      [examples/redfish_graphql_dbus_client/graphql_dbus_bridge.hpp]

    Subscriptions of the configuration are kept open at a GraphQL server, and what
    their events say is shown by objects on D-Bus.  Requests are those of
    [WebClient.v], the server is [GraphqlServer.v].  Parsing and printing JSON, the
    bus and the transport are parameters. *)

From S2P Require Import Prelude StdMap GraphqlParser TypedSchema Http WebClient.
From S2P Require ConsoleConfig FirmwareCatalogue CommandLine GraphqlServer.

(** ** Configuration *)

Inductive AuthConfig :=
  | NoAuth
  | PasswordAuth (username password : bytes)
  | MtlsAuth (certFile keyFile : bytes).

Record SubscriptionConfig := mkSubscription {
  sname : bytes;
  dbusPath : bytes;
  dbusInterface : bytes;
  query : bytes;
  intervalSeconds : Z;
  isList : bool;
  fieldMap : list (bytes * bytes);
}.

Record BridgeConfig := mkBridgeConfig {
  host : bytes;
  port : bytes;
  auth : AuthConfig;
  subscriptions : list SubscriptionConfig;
}.

Section bridge.

(** JSON and floating-point numbers. *)
Context {double : Type} (float_int : double -> Z) (float_string : double -> bytes).
Context (json_parse : bytes -> option (json double)) (dump : json double -> bytes).

Local Notation "x ← m ; k" := (jbind m (fun x => k)) (at level 20, m at level 100, k at level 200, only parsing).

(** [doc.contains(key) && doc[key].is_object()]. *)
Definition object_at (j : json double) (key : string) : option (list (bytes * json double)) :=
  match j with JObject l => match object_get l (str key) with Some (JObject o) => Some o | _ => None end | _ => None end.

(** The optional authentication; [inr] is the error returned. *)
Definition load_auth (doc : json double) : AuthConfig + bytes + json_error double :=
  match object_at doc "auth" with
  | None => inl (inl NoAuth)
  | Some o =>
      let a := JObject o in
      authType ← jvalue get_string a "type" [];
      if decide (authType = str "password") then
        username ← jvalue get_string a "username" [];
        password ← jvalue get_string a "password" [];
        inl (if decide (username = []) then inr (str "auth.username must not be empty")
             else if decide (password = []) then inr (str "auth.password must not be empty")
             else inl (PasswordAuth username password))
      else if decide (authType = str "mtls") then
        certFile ← jvalue get_string a "cert_file" [];
        keyFile ← jvalue get_string a "key_file" [];
        inl (if bool_decide (certFile = []) || bool_decide (keyFile = [])
             then inr (str "auth.cert_file and auth.key_file must not be empty")
             else inl (MtlsAuth certFile keyFile))
      else inl (if decide (authType = []) then inl NoAuth
                else inr (str "auth.type must be 'password' or 'mtls', got: " ++ authType))
  end.

(** The members of [field_map], in the order of their keys. *)
Definition load_field_map (s : json double) : list (bytes * bytes) + json_error double :=
  match object_at s "field_map" with
  | None => inl []
  | Some o => kvs ← jtraverse (fun kv => v ← get_string kv.2; inl (kv.1, v)) o; inl (set_all [] kvs)
  end.

Definition load_subscription (s : json double) : SubscriptionConfig + json_error double :=
  name ← jvalue get_string s "name" [];
  path ← jvalue get_string s "dbus_path" (str "/xyz/openbmc_project/Satellite/Unknown");
  iface ← jvalue get_string s "dbus_interface" (str "xyz.openbmc_project.Satellite.Unknown");
  q ← jvalue get_string s "query" [];
  interval ← jvalue (FirmwareCatalogue.get_int float_int) s "interval_seconds" 10%Z;
  list_ ← jvalue get_bool s "list" false;
  fm ← load_field_map s;
  inl (mkSubscription name path iface q interval list_ fm).

(** [loadBridgeConfig], given the contents of the file, if it can be opened: the
    configuration, the error returned, or the exception thrown. *)
Definition loadBridgeConfig (path : bytes) (file : option bytes) : BridgeConfig + bytes + json_error double :=
  match file with
  | None => inl (inr (str "Cannot open config: " ++ path))
  | Some text =>
      match json_parse text with
      | None => inl (inr (str "JSON parse error in: " ++ path))
      | Some doc =>
          h ← jvalue get_string doc "host" (str "localhost");
          p ← jvalue get_string doc "port" (str "8444");
          a ← load_auth doc;
          match a with
          | inr error => inl (inr error)
          | inl a =>
              subs ← jvalue inl doc "subscriptions" (JArray []);
              l ← jtraverse load_subscription (items subs);
              inl (inl (mkBridgeConfig h p a (base.filter (fun s => query s <> []) l)))
          end
      end
  end.

(** ** Paths into JSON *)

(** A value, a missing segment, or the exception of [stoul]. *)
Inductive lookup := Found (j : json double) | Missing | Out_of_range.

(** The lambda [step]. *)
Definition path_step (cur : json double) (seg : bytes) : lookup :=
  match cur with
  | JArray l =>
      if bool_decide (seg = []) || negb (forallb is_digit seg) then Missing
      else if (2 ^ 64 <=? of_dec seg)%Z then Out_of_range
      else if (Z.of_nat (length l) <=? of_dec seg)%Z then Missing
      else match l !! Z.to_nat (of_dec seg) with Some j => Found j | None => Missing end
  | JObject l => match object_get l seg with Some j => Found j | None => Missing end
  | _ => Missing
  end.

Definition dot : byte := ".".

Fixpoint path_loop (cur : json double) (seg dotPath : bytes) : lookup :=
  match dotPath with
  | [] => if decide (seg = []) then Found cur else path_step cur seg
  | c :: dotPath =>
      if decide (c = dot) then match path_step cur seg with Found cur => path_loop cur [] dotPath | r => r end
      else path_loop cur (seg ++ [c]) dotPath
  end.

Definition jsonAtPath (root : json double) (dotPath : bytes) : lookup := path_loop root [] dotPath.

(** ** An object on the bus *)

(** [std::to_string] of an [int64_t]. *)
Definition to_string (z : Z) : bytes := if (z <? 0)%Z then str "-" ++ to_dec 20 (- z) else to_dec 20 z.

(** The conversion of an integer to [int64_t]. *)
Definition to_int64 (z : Z) : Z := (wrapu 64 (z + 2 ^ 63) - 2 ^ 63)%Z.

(** [toStr]; [is_number_integer] holds of unsigned integers, too. *)
Definition toStr (v : json double) : bytes :=
  match v with
  | JString s => s
  | JInt z => to_string (to_int64 z)
  | JFloat d => float_string d
  | JBool b => if b then str "true" else str "false"
  | v => dump v
  end.

(** [DbusObjectProxy]; [sets] are the calls of [set_property], in order. *)
Record proxy := mkProxy { path_ : bytes; ifaceName_ : bytes; known_ : list (bytes * bytes); sets : list (bytes * bytes) }.

Definition newProxy (path iface : bytes) (fm : list (bytes * bytes)) : proxy :=
  mkProxy path iface (set_all [] (map (fun kv => (kv.2, [])) fm)) [].

(** One property of [applyUpdate]. *)
Definition update_one (p : proxy) (prop : bytes) (strVal : bytes) : proxy :=
  match object_get (known_ p) prop with
  | None => p
  | Some old =>
      if decide (old <> strVal)
      then mkProxy (path_ p) (ifaceName_ p) (object_set (known_ p) prop strVal) (sets p ++ [(prop, strVal)])
      else p
  end.

(** [applyUpdate]: the object, and whether an exception ended it. *)
Fixpoint applyUpdate (p : proxy) (payload : json double) (fm : list (bytes * bytes)) : proxy * bool :=
  match fm with
  | [] => (p, false)
  | (jsonPath, propName) :: fm =>
      match jsonAtPath payload jsonPath with
      | Missing => applyUpdate p payload fm
      | Out_of_range => (p, true)
      | Found v => applyUpdate (update_one p propName (toStr v)) payload fm
      end
  end.

(** [DbusObjectRegistry]: the objects by their paths. *)
Definition registry_create (cfg : SubscriptionConfig) (objs : list (bytes * proxy)) (path : bytes) : list (bytes * proxy) :=
  match object_get objs path with
  | Some _ => objs
  | None => object_set objs path (newProxy path (dbusInterface cfg) (fieldMap cfg))
  end.

Definition registry_update (cfg : SubscriptionConfig) (objs : list (bytes * proxy)) (path : bytes) (payload : json double)
  : list (bytes * proxy) * bool :=
  match object_get objs path with
  | None => (objs, false)
  | Some p => let '(p, threw) := applyUpdate p payload (fieldMap cfg) in (object_set objs path p, threw)
  end.

(** ** A subscription *)

Inductive target := Scalar (p : proxy) | Listed (objs : list (bytes * proxy)).

(** [posted] are the paths of the handlers posted to create objects. *)
Record client := mkClient { shown : target; posted : list bytes }.

(** How [dispatchEvent] ends. *)
Inductive dispatched := Accepted | Rejected (why : bytes) | Throws.

Definition item_path (cfg : SubscriptionConfig) (item : json double) : bytes :=
  match item with
  | JObject l => match object_get l (str "id") with Some (JString id) => dbusPath cfg ++ str "/" ++ id | _ => dbusPath cfg end
  | _ => dbusPath cfg
  end.

(** The elements of a list: whether one throws. *)
Fixpoint dispatch_items (cfg : SubscriptionConfig) (objs : list (bytes * proxy)) (posts : list bytes) (payload : list (json double))
  : client * bool :=
  match payload with
  | [] => (mkClient (Listed objs) posts, false)
  | item :: payload =>
      let path := item_path cfg item in
      match object_get objs path with
      | None => dispatch_items cfg objs (posts ++ [path]) payload
      | Some _ =>
          let '(objs, threw) := registry_update cfg objs path item in
          if threw then (mkClient (Listed objs) posts, true) else dispatch_items cfg objs posts payload
      end
  end.

Definition dispatch_field (cfg : SubscriptionConfig) (c : client) (payload : json double) : client * bool :=
  match payload, shown c with
  | JArray l, Listed objs => dispatch_items cfg objs (posted c) l
  | JObject l, Scalar p => let '(p, threw) := applyUpdate p payload (fieldMap cfg) in (mkClient (Scalar p) (posted c), threw)
  | _, _ => (c, false)
  end.

Fixpoint dispatch_fields (cfg : SubscriptionConfig) (c : client) (data : list (bytes * json double)) : client * bool :=
  match data with
  | [] => (c, false)
  | (_, payload) :: data =>
      let '(c, threw) := dispatch_field cfg c payload in
      if threw then (c, true) else dispatch_fields cfg c data
  end.

Definition dispatchEvent (cfg : SubscriptionConfig) (c : client) (rawJson : bytes) : client * dispatched :=
  match json_parse rawJson with
  | None => (c, Rejected (str "json parse failed"))
  | Some event =>
      match event with
      | JObject l =>
          match object_get l (str "errors") with
          | Some errors => (c, Rejected (str "graphql error: " ++ dump errors))
          | None =>
              match object_get l (str "data") with
              | Some (JObject data) =>
                  let '(c, threw) := dispatch_fields cfg c data in (c, if threw then Throws else Accepted)
              | _ => (c, Rejected (str "unexpected shape"))
              end
          end
      | _ => (c, Rejected (str "unexpected shape"))
      end
  end.

Definition NL : byte := x0a.
Definition CRb : byte := x0d.

(** What [handleFrame] dispatches: the values of the lines [data: ]. *)
Definition data_of (line : bytes) : option bytes :=
  let line := if decide (last line = Some CRb) then removelast line else line in
  if bool_decide ((str "data: ") `prefix_of` line) then Some (drop 6 line) else None.

Fixpoint handleFrame (fuel : nat) (cfg : SubscriptionConfig) (c : client) (sv : bytes) : option (client * bool) :=
  match fuel with
  | 0 => None
  | S fuel =>
      match sv with
      | [] => Some (c, false)
      | _ =>
          let '(line, rest) := ConsoleConfig.span (fun b => negb (bool_decide (b = NL))) sv in
          let '(c, threw) := match data_of line with
                             | Some d => let '(c, r) := dispatchEvent cfg c d in (c, match r with Throws => true | _ => false end)
                             | None => (c, false)
                             end in
          if threw then Some (c, true)
          else match rest with [] => Some (c, false) | _ :: sv => handleFrame fuel cfg c sv end
      end
  end.

Definition handle_frame (cfg : SubscriptionConfig) (c : client) (frame : bytes) : option (client * bool) :=
  handleFrame (S (length frame)) cfg c frame.

(** The posted handler for [path] runs. *)
Definition run_posted (cfg : SubscriptionConfig) (c : client) (path : bytes) : option client :=
  match posted c, shown c with
  | path' :: posts, Listed objs =>
      if decide (path' = path) then Some (mkClient (Listed (registry_create cfg objs path)) posts) else None
  | _, _ => None
  end.

(** What the coroutine of a subscription meets: the frames of its streams, and the
    handlers that run in between.  An exception ends it. *)
Inductive event := Frame (data : bytes) | RunPosted (path : bytes).

Record subscriber := mkSubscriber { sclient : client; ended : bool }.

Definition step (cfg : SubscriptionConfig) (s : subscriber) (e : event) : option subscriber :=
  match e with
  | Frame data =>
      if ended s then None
      else match handle_frame cfg (sclient s) data with
           | Some (c, threw) => Some (mkSubscriber c threw)
           | None => None
           end
  | RunPosted path => match run_posted cfg (sclient s) path with Some c => Some (mkSubscriber c (ended s)) | None => None end
  end.

Fixpoint run_events (cfg : SubscriptionConfig) (s : subscriber) (es : list event) : option subscriber :=
  match es with
  | [] => Some s
  | e :: es => match step cfg s e with Some s => run_events cfg s es | None => None end
  end.

(** ** Streams *)

(** [urlEncode]. *)
Definition hex (z : Z) : byte := nth (Z.to_nat z) (str "0123456789ABCDEF") x00.

Definition isalnum (c : byte) : bool :=
  let z := u8 c in
  ((48 <=? z) && (z <=? 57) || (65 <=? z) && (z <=? 90) || (97 <=? z) && (z <=? 122))%Z.

Fixpoint urlEncode (s : bytes) : bytes :=
  match s with
  | [] => []
  | c :: s =>
      (if isalnum c || bool_decide (c = "-"%byte) || bool_decide (c = "_"%byte) || bool_decide (c = "."%byte) || bool_decide (c = "~"%byte)
       then [c] else [percent; hex (Z.shiftr (u8 c) 4); hex (Z.land (u8 c) 15)]) ++ urlEncode s
  end.

(** The client that [runStream] builds. *)
Definition stream_client (h p : bytes) (cfg : SubscriptionConfig) (authToken : bytes) : WebClient :=
  let wc := withFrameDelimiter
              (withParams (withTarget (withPort (withHost tcpClient h) p) (str "/graphql/subscribe"))
                 [(str "interval", to_string (intervalSeconds cfg)); (str "query", urlEncode (query cfg))]) [NL; NL] in
  if decide (authToken = []) then wc else withHeaders wc [(str "X-Auth-Token", authToken)].

(** [reconnectLoop]: the delay before the next stream, in seconds. *)
Definition next_backoff (backoff : Z) : Z := Z.min (backoff * 2) 60.

Definition backoff_after (n : nat) : Z := Nat.iter n next_backoff 5%Z.

(** ** The bridge *)

(** The constructor: the objects of the subscriptions, by their kind. *)
Fixpoint make_targets (subs : list SubscriptionConfig) : list proxy * list (list (bytes * proxy)) :=
  match subs with
  | [] => ([], [])
  | sub :: subs =>
      let '(ps, rs) := make_targets subs in
      if isList sub then (ps, [] :: rs) else (newProxy (dbusPath sub) (dbusInterface sub) (fieldMap sub) :: ps, rs)
  end.

(** The loop of [run]: [None] stands for an index that is out of range. *)
Fixpoint wire_clients (ps : list proxy) (rs : list (list (bytes * proxy))) (proxyIdx registryIdx : nat) (subs : list SubscriptionConfig)
  : option (list (SubscriptionConfig * client)) :=
  match subs with
  | [] => Some []
  | sub :: subs =>
      if isList sub then
        match rs !! registryIdx with
        | Some r => match wire_clients ps rs proxyIdx (S registryIdx) subs with
                    | Some l => Some ((sub, mkClient (Listed r) []) :: l) | None => None end
        | None => None
        end
      else
        match ps !! proxyIdx with
        | Some p => match wire_clients ps rs (S proxyIdx) registryIdx subs with
                    | Some l => Some ((sub, mkClient (Scalar p) []) :: l) | None => None end
        | None => None
        end
  end.

(** [run], given what [refreshToken] returns: the token and the clients started,
    or nothing after a failed login. *)
Definition run (cfg : BridgeConfig) (refreshToken : bytes -> bytes -> bytes + error_code)
  : option (option (bytes * list (SubscriptionConfig * client))) :=
  let token := match auth cfg with PasswordAuth u p => refreshToken u p | _ => inl [] end in
  match token with
  | inr _ => Some None
  | inl authToken =>
      let '(ps, rs) := make_targets (subscriptions cfg) in
      match wire_clients ps rs 0 0 (subscriptions cfg) with
      | Some l => Some (Some (authToken, l))
      | None => None
      end
  end.

End bridge.

(** ** Paths *)

Section paths.

Context {double : Type}.
Implicit Types (cur j : json double).

(** Reference: one segment after the other. *)
Fixpoint walk cur (segs : list bytes) : lookup :=
  match segs with
  | [] => Found cur
  | seg :: segs => match path_step cur seg with Found cur => walk cur segs | r => r end
  end.

(** The spelling of a path. *)
Fixpoint spell (segs : list bytes) : bytes :=
  match segs with
  | [] => []
  | [seg] => seg
  | seg :: segs => seg ++ dot :: spell segs
  end.

Lemma path_loop_seg cur seg s rest : dot ∉ s -> path_loop cur seg (s ++ rest) = path_loop cur (seg ++ s) rest.
Proof.
  revert seg. induction s as [|c s IH]; intros seg Hs; cbn [app]; [by rewrite app_nil_r|].
  apply not_elem_of_cons in Hs as [Hc Hs]. cbn [path_loop]. rewrite decide_False by congruence. rewrite IH by done. by rewrite <- app_assoc.
Qed.

(** The path is followed segment by segment; the last one must not be empty. *)
Theorem jsonAtPath_correct (root : json double) segs :
  Forall (fun s => dot ∉ s) segs -> last segs <> Some [] -> jsonAtPath root (spell segs) = walk root segs.
Proof.
  unfold jsonAtPath. intros Hs. revert root. induction Hs as [|s segs Hs _ IH]; intros root Hl; [done|].
  destruct segs as [|s' segs].
  - cbn. rewrite <- (app_nil_r s), path_loop_seg by done. rewrite app_nil_r. cbn. destruct (decide (s = [])) as [->|]; [done|].
    by destruct (path_step root s).
  - change (spell (s :: s' :: segs)) with (s ++ dot :: spell (s' :: segs)). rewrite path_loop_seg by done. cbn [path_loop app].
    rewrite decide_True by done. cbn [walk]. destruct (path_step root s) as [cur| |]; [|done..]. by apply IH.
Qed.

(** A dot at the end says nothing. *)
Lemma trailing_dot root s : dot ∉ s -> s <> [] -> @jsonAtPath double root (s ++ [dot]) = jsonAtPath root s.
Proof.
  intros Hs Hn. unfold jsonAtPath. rewrite path_loop_seg by done. rewrite <- (app_nil_r s) at 2. rewrite path_loop_seg by done.
  cbn. rewrite decide_True, decide_False by done. by destruct (path_step root s).
Qed.

End paths.

(** ** Updates *)

Section updates.

Context {double : Type} (float_string : double -> bytes) (dump : json double -> bytes).
Implicit Types (payload j : json double) (p : proxy).

Abbreviation toStr := (toStr float_string dump).
Abbreviation applyUpdate := (applyUpdate float_string dump).

(** Reference: what a payload says of a property, the last path that is mapped to
    it deciding. *)
Fixpoint says (payload : json double) (fm : list (bytes * bytes)) (prop : bytes) : option bytes :=
  match fm with
  | [] => None
  | (path, q) :: fm =>
      match says payload fm prop with
      | Some v => Some v
      | None => if decide (q = prop) then match jsonAtPath payload path with Found v => Some (toStr v) | _ => None end else None
      end
  end.

(** Replaying calls of [set_property]. *)
Definition replay (known : list (bytes * bytes)) (l : list (bytes * bytes)) : list (bytes * bytes) := set_all known l.

(** Every call changes a value. *)
Fixpoint changing (known : list (bytes * bytes)) (l : list (bytes * bytes)) : Prop :=
  match l with
  | [] => True
  | (q, v) :: l => (exists old, object_get known q = Some old /\ old <> v) /\ changing (object_set known q v) l
  end.

Lemma changing_app known l l' : changing known (l ++ l') <-> changing known l /\ changing (replay known l) l'.
Proof.
  revert known. induction l as [|[q v] l IH]; intros known; cbn; [tauto|]. rewrite IH. unfold replay, set_all. cbn. tauto.
Qed.

(** [p'] follows from [p] by calls that change values. *)
Definition follows p p' : Prop :=
  path_ p' = path_ p /\ ifaceName_ p' = ifaceName_ p /\
  exists l, sets p' = sets p ++ l /\ known_ p' = replay (known_ p) l /\ changing (known_ p) l.

Lemma follows_refl p : follows p p.
Proof. split; [done|]. split; [done|]. exists []. by rewrite app_nil_r. Qed.

Lemma follows_trans p1 p2 p3 : follows p1 p2 -> follows p2 p3 -> follows p1 p3.
Proof.
  intros (E1 & E2 & l & H1 & H2 & H3) (E3 & E4 & l' & H4 & H5 & H6). split; [congruence|]. split; [congruence|]. exists (l ++ l').
  split; [by rewrite H4, H1, app_assoc|]. rewrite H2 in H5, H6. split; [|by apply changing_app]. rewrite H5. unfold replay, set_all. by rewrite foldl_app.
Qed.

Lemma update_one_follows p q v : follows p (update_one p q v).
Proof.
  unfold update_one. destruct (object_get (known_ p) q) as [old|] eqn:E; [|apply follows_refl].
  destruct (decide (old <> v)); [|apply follows_refl]. split; [done|]. split; [done|]. exists [(q, v)]. cbn. split; [done|]. split; [done|]. eauto.
Qed.

Lemma update_one_get p q v q' :
  object_get (known_ (update_one p q v)) q' =
  if decide (q = q') then match object_get (known_ p) q with Some _ => Some v | None => None end else object_get (known_ p) q'.
Proof.
  unfold update_one. destruct (object_get (known_ p) q) as [old|] eqn:E.
  - destruct (decide (old <> v)) as [|Hd]; cbn; [by rewrite object_get_set|]. apply dec_stable in Hd as ->.
    destruct (decide (q = q')) as [<-|]; [done|done].
  - destruct (decide (q = q')) as [<-|]; done.
Qed.

Lemma applyUpdate_follows p payload fm : follows p (applyUpdate p payload fm).1.
Proof.
  revert p. induction fm as [|[path q] fm IH]; intros p; cbn [applyUpdate]; [apply follows_refl|].
  destruct (jsonAtPath payload path) as [v| |]; [|apply IH|apply follows_refl].
  eapply follows_trans; [apply update_one_follows|apply IH].
Qed.

(** What an update does to a property. *)
Lemma applyUpdate_get p payload fm prop :
  (applyUpdate p payload fm).2 = false ->
  object_get (known_ (applyUpdate p payload fm).1) prop =
  match object_get (known_ p) prop with
  | Some old => Some (default old (says payload fm prop))
  | None => None
  end.
Proof.
  revert p. induction fm as [|[path q] fm IH]; intros p; cbn [applyUpdate says]; [intros _; by destruct (object_get _ _)|].
  destruct (jsonAtPath payload path) as [v| |] eqn:E; [| |done]; intros Hf; rewrite IH by done.
  - rewrite update_one_get. destruct (decide (q = prop)) as [->|].
    + destruct (object_get (known_ p) prop); [|done]. by destruct (says payload fm prop).
    + destruct (object_get (known_ p) prop); [|done]. by destruct (says payload fm prop).
  - destruct (object_get (known_ p) prop); [|done]. destruct (says payload fm prop); [done|]. by destruct (decide _).
Qed.

(** When no property has two paths, the same payload again changes nothing. *)
Lemma applyUpdate_again p payload fm :
  NoDup (map snd fm) -> (applyUpdate p payload fm).2 = false ->
  applyUpdate (applyUpdate p payload fm).1 payload fm = ((applyUpdate p payload fm).1, false).
Proof.
  intros Hnd Hf. set (p' := (applyUpdate p payload fm).1).
  assert (Hsays : forall prop v, says payload fm prop = Some v -> forall old, object_get (known_ p') prop = Some old -> old = v).
  { intros prop v Hs old. unfold p'. rewrite applyUpdate_get by done. rewrite Hs. destruct (object_get (known_ p) prop); [|done]. by intros [= <-]. }
  assert (Hfound : forall path q v, (path, q) ∈ fm -> jsonAtPath payload path = Found v -> says payload fm q = Some (toStr v)).
  { clear -Hnd. induction fm as [|[path0 q0] fm IH]; intros path q v Hin Hv; [by apply elem_of_nil in Hin|]. cbn in Hnd.
    apply NoDup_cons in Hnd as [Hq Hnd]. cbn [says]. apply elem_of_cons in Hin as [[= -> ->]|Hin].
    - destruct (says payload fm q0) as [w|] eqn:Es; [|by rewrite decide_True, Hv].
      exfalso. apply Hq. clear -Es. induction fm as [|[path1 q1] fm IH]; [done|]. cbn in *. apply elem_of_cons.
      destruct (says payload fm q0) eqn:E'; [right; by apply IH|]. destruct (decide (q1 = q0)); [by left|done].
    - by rewrite (IH Hnd _ _ _ Hin Hv). }
  assert (Hno : forall path q, (path, q) ∈ fm -> jsonAtPath payload path <> Out_of_range).
  { clear -Hf. revert p Hf. induction fm as [|[path0 q0] fm IH]; intros p Hf path q Hin; [by apply elem_of_nil in Hin|].
    cbn [applyUpdate] in Hf. apply elem_of_cons in Hin as [[= -> ->]|Hin].
    - by destruct (jsonAtPath payload path0).
    - destruct (jsonAtPath payload path0) eqn:E; [| |done]; by eapply IH. }
  clear Hf Hnd. clearbody p'. revert Hno Hfound. generalize fm at 1 2 4 as g. intros g. induction g as [|[path q] g IH]; intros Hno Hfound; [done|]. cbn [applyUpdate].
  destruct (jsonAtPath payload path) as [v| |] eqn:E.
  - assert (Hu : update_one p' q (toStr v) = p').
    { unfold update_one. destruct (object_get (known_ p') q) as [old|] eqn:Eo; [|done]. rewrite decide_False; [done|]. intros H. apply H.
      apply (Hsays q); [|done]. apply (Hfound path); [apply elem_of_cons; by left|done]. }
    rewrite Hu. apply IH; intros; [eapply Hno|eapply Hfound]; try done; apply elem_of_cons; right; eassumption.
  - apply IH; intros; [eapply Hno|eapply Hfound]; try done; apply elem_of_cons; right; eassumption.
  - by destruct (Hno path q ltac:(apply elem_of_cons; by left)).
Qed.

End updates.

(** ** Frames *)

Section frames.

Context {double : Type} (float_string : double -> bytes) (json_parse : bytes -> option (json double)) (dump : json double -> bytes).
Context (cfg : SubscriptionConfig).

Abbreviation applyUpdate := (applyUpdate float_string dump).
Abbreviation dispatchEvent := (dispatchEvent float_string json_parse dump cfg).
Abbreviation handleFrame := (handleFrame float_string json_parse dump).
Abbreviation says := (says float_string dump).

(** Reference: the lines of a frame. *)
Fixpoint lines (line sv : bytes) : list bytes :=
  match sv with
  | [] => if decide (line = []) then [] else [line]
  | b :: sv => if decide (b = NL) then line :: lines [] sv else lines (line ++ [b]) sv
  end.

Fixpoint dispatch_all (c : client) (raws : list bytes) : client * bool :=
  match raws with
  | [] => (c, false)
  | raw :: raws =>
      let '(c, r) := dispatchEvent c raw in
      match r with Throws => (c, true) | _ => dispatch_all c raws end
  end.

Lemma lines_span line sv :
  lines line sv =
  let '(a, rest) := ConsoleConfig.span (fun b => negb (bool_decide (b = NL))) sv in
  match rest with
  | [] => if decide (line ++ a = []) then [] else [line ++ a]
  | _ :: sv => (line ++ a) :: lines [] sv
  end.
Proof.
  revert line. induction sv as [|b sv IH]; intros line; cbn; [by rewrite app_nil_r|]. destruct (decide (b = NL)) as [->|Hb].
  - rewrite bool_decide_eq_true_2 by done. cbn. by rewrite app_nil_r.
  - rewrite bool_decide_eq_false_2 by done. cbn [negb]. rewrite IH. destruct (ConsoleConfig.span _ sv) as [a rest].
    by rewrite <- app_assoc.
Qed.

Lemma nl_span_length sv : let '(a, rest) := ConsoleConfig.span (fun b : byte => negb (bool_decide (b = NL))) sv in length sv = length a + length rest.
Proof. induction sv as [|b sv IH]; cbn; [done|]. destruct (negb _); [|done]. destruct (ConsoleConfig.span _ sv). cbn. lia. Qed.

(** The loop dispatches the data of each line. *)
Lemma handleFrame_lines fuel c sv : length sv < fuel -> handleFrame fuel cfg c sv = Some (dispatch_all c (omap data_of (lines [] sv))).
Proof.
  revert c sv. induction fuel as [|fuel IH]; intros c sv Hf; [lia|]. destruct sv as [|b sv]; [done|].
  set (l := b :: sv) in *. assert (Hl : length l <> 0) by done. rewrite lines_span. pose proof (nl_span_length l) as Hlen. change (handleFrame (S fuel) cfg c l) with
    (let '(line, rest) := ConsoleConfig.span (fun b => negb (bool_decide (b = NL))) l in
     let '(c, threw) := match data_of line with
                        | Some d => let '(c, r) := dispatchEvent c d in (c, match r with Throws => true | _ => false end)
                        | None => (c, false) end in
     if threw then Some (c, true) else match rest with [] => Some (c, false) | _ :: sv => handleFrame fuel cfg c sv end).
  clearbody l. destruct (ConsoleConfig.span _ l) as [a rest]. cbn [app].
  assert (Ha : rest = [] -> a <> []) by (intros -> ->; cbn in Hlen; lia).
  assert (Hr : forall x r, rest = x :: r -> length r < fuel) by (intros x r ->; cbn in Hlen; lia).
  destruct rest as [|x rest].
  - rewrite decide_False by (by apply Ha). cbn [omap list_omap]. destruct (data_of a) as [d|]; cbn; [|done].
    destruct (dispatchEvent c d) as [c' []]; done.
  - cbn [omap list_omap]. change (list_omap bytes bytes data_of (lines [] rest)) with (omap data_of (lines [] rest)).
    destruct (data_of a) as [d|]; cbn; [|by apply IH, (Hr x)].
    destruct (dispatchEvent c d) as [c' []]; try done; by apply IH, (Hr x).
Qed.

Lemma lines_plain line s rest : NL ∉ s -> lines line (s ++ rest) = lines (line ++ s) rest.
Proof.
  revert line. induction s as [|b s IH]; intros line Hs; cbn; [by rewrite app_nil_r|]. apply not_elem_of_cons in Hs as [Hb Hs].
  rewrite decide_False by congruence. rewrite IH by done. by rewrite <- app_assoc.
Qed.

(** An event as the server writes it is dispatched once, as it was. *)
Lemma sse_frame_dispatch c raw : NL ∉ raw -> last raw <> Some CRb ->
  handle_frame float_string json_parse dump cfg c (sse_frame raw) = Some (dispatch_all c [raw]).
Proof.
  intros Hn Hl. unfold handle_frame. rewrite handleFrame_lines by lia. unfold sse_frame.
  rewrite lines_plain by (apply (bool_decide_unpack _); vm_compute; exact I). rewrite lines_plain by done. cbn [app].
  change (lines (str "data: " ++ raw) [x0a; x0a]) with [str "data: " ++ raw; []]. cbn [omap list_omap].
  assert (Hd : data_of (str "data: " ++ raw) = Some raw).
  { unfold data_of. rewrite decide_False.
    - rewrite bool_decide_eq_true_2; [done|]. by apply prefix_app_r.
    - destruct raw as [|b raw]; [done|]. rewrite last_app. destruct (last (b :: raw)) eqn:E; [congruence|]. by apply last_None in E. }
  rewrite Hd. done.
Qed.

(** *** One object *)

(** The objects in an event, in order. *)
Definition payloads_of (data : list (bytes * json double)) : list (json double) :=
  omap (fun kv => match kv.2 with JObject _ => Some kv.2 | _ => None end) data.

Definition event_payloads (raw : bytes) : list (json double) :=
  match json_parse raw with
  | Some (JObject l) =>
      match object_get l (str "errors"), object_get l (str "data") with
      | None, Some (JObject data) => payloads_of data
      | _, _ => []
      end
  | _ => []
  end.

Definition frame_payloads (frame : bytes) : list (json double) := concat (map event_payloads (omap data_of (lines [] frame))).

(** What payloads say of a property, one after the other. *)
Definition value_after (old : bytes) (prop : bytes) (payloads : list (json double)) : bytes :=
  foldl (fun v payload => default v (says payload (fieldMap cfg) prop)) old payloads.

(** [c'] shows what the payloads say. *)
Definition scalar_ok (p : proxy) (payloads : list (json double)) (c' : client) (threw : bool) : Prop :=
  exists p', c' = mkClient (Scalar p') [] /\ follows p p' /\
    (threw = false -> forall prop old, object_get (known_ p) prop = Some old -> object_get (known_ p') prop = Some (value_after old prop payloads)).

Lemma scalar_trans p p1 l1 l2 c' threw :
  scalar_ok p l1 (mkClient (Scalar p1) []) false -> scalar_ok p1 l2 c' threw -> scalar_ok p (l1 ++ l2) c' threw.
Proof.
  intros (q & [= <-] & F1 & V1) (p2 & -> & F2 & V2). exists p2. split; [done|]. split; [by eapply follows_trans|].
  intros Ht prop old Hold. unfold value_after. rewrite foldl_app. by apply V2, V1.
Qed.

Lemma scalar_nil p : scalar_ok p [] (mkClient (Scalar p) []) false.
Proof. exists p. split; [done|]. by split; [apply follows_refl|]. Qed.

Lemma dispatch_field_scalar p payload :
  scalar_ok p (match payload with JObject _ => [payload] | _ => [] end)
    (dispatch_field float_string dump cfg (mkClient (Scalar p) []) payload).1
    (dispatch_field float_string dump cfg (mkClient (Scalar p) []) payload).2.
Proof.
  unfold dispatch_field. cbn [shown posted]. destruct payload; try apply scalar_nil.
  pose proof (applyUpdate_follows float_string dump p (JObject l) (fieldMap cfg)) as Hf.
  pose proof (fun prop => applyUpdate_get float_string dump p (JObject l) (fieldMap cfg) prop) as Hg.
  destruct (applyUpdate p (JObject l) (fieldMap cfg)) as [p' threw]. cbn in *. exists p'. split; [done|]. split; [done|].
  intros Ht prop old Ho. rewrite Hg by done. by rewrite Ho.
Qed.

Lemma dispatch_fields_scalar p data :
  scalar_ok p (payloads_of data) (dispatch_fields float_string dump cfg (mkClient (Scalar p) []) data).1
    (dispatch_fields float_string dump cfg (mkClient (Scalar p) []) data).2 \/
  (exists l, scalar_ok p l (dispatch_fields float_string dump cfg (mkClient (Scalar p) []) data).1 true /\
    (dispatch_fields float_string dump cfg (mkClient (Scalar p) []) data).2 = true).
Proof.
  revert p. induction data as [|[k payload] data IH]; intros p; cbn [dispatch_fields]; [left; apply scalar_nil|].
  pose proof (dispatch_field_scalar p payload) as H. destruct (dispatch_field _ _ _ _ payload) as [c threw]. cbn [fst snd] in H.
  destruct H as (p1 & -> & HF & HV). destruct threw; [right; eexists; split; [exists p1; done|done]|].
  assert (H1 : scalar_ok p (match payload with JObject _ => [payload] | _ => [] end) (mkClient (Scalar p1) []) false) by (by exists p1).
  destruct (IH p1) as [H2|(l & H2 & Ht)].
  - left. assert (Hp : payloads_of ((k, payload) :: data) = match payload with JObject _ => [payload] | _ => [] end ++ payloads_of data)
      by (unfold payloads_of; cbn; by destruct payload). rewrite Hp. by eapply scalar_trans.
  - right. eexists. split; [by eapply scalar_trans|done].
Qed.

Lemma dispatch_event_scalar p raw :
  scalar_ok p (event_payloads raw) (dispatchEvent (mkClient (Scalar p) []) raw).1 false /\ (dispatchEvent (mkClient (Scalar p) []) raw).2 <> Throws \/
  exists l, scalar_ok p l (dispatchEvent (mkClient (Scalar p) []) raw).1 true /\ (dispatchEvent (mkClient (Scalar p) []) raw).2 = Throws.
Proof.
  unfold event_payloads, GraphqlBridge.dispatchEvent. destruct (json_parse raw) as [[]|]; try (left; split; [apply scalar_nil|done]).
  destruct (object_get l (str "errors")); [left; split; [apply scalar_nil|done]|].
  destruct (object_get l (str "data")) as [[]|]; try (left; split; [apply scalar_nil|done]).
  destruct (dispatch_fields_scalar p l0) as [H|(k & H & Ht)]; destruct (dispatch_fields _ _ _ _ l0) as [c threw]; cbn [fst snd] in *.
  - destruct threw; [right; exists []; split; [|done]; destruct H as (p1 & -> & ? & _); by exists p1|by left].
  - subst threw. right. by exists k.
Qed.

Lemma dispatch_all_scalar p raws :
  scalar_ok p (concat (map event_payloads raws)) (dispatch_all (mkClient (Scalar p) []) raws).1 false /\ (dispatch_all (mkClient (Scalar p) []) raws).2 = false \/
  exists l, scalar_ok p l (dispatch_all (mkClient (Scalar p) []) raws).1 true /\ (dispatch_all (mkClient (Scalar p) []) raws).2 = true.
Proof.
  revert p. induction raws as [|raw raws IH]; intros p; cbn [dispatch_all map concat]; [left; split; [apply scalar_nil|done]|].
  destruct (dispatch_event_scalar p raw) as [[H Ht]|(l & H & Ht)]; destruct (dispatchEvent _ raw) as [c r]; cbn [fst snd] in *.
  - pose proof H as (p1 & -> & _). destruct (IH p1) as [[H2 H3]|(l & H2 & H3)]; destruct r; try done.
    1-2: left; split; [by eapply scalar_trans|done].
    all: right; eexists; split; [by eapply scalar_trans|done].
  - subst r. right. by exists l.
Qed.

End frames.

(** *** Objects of a list *)

Section lists.

Context {double : Type} (float_string : double -> bytes) (json_parse : bytes -> option (json double)) (dump : json double -> bytes).
Context (cfg : SubscriptionConfig).

Abbreviation value_after := (value_after float_string dump cfg).
Abbreviation step := (step float_string json_parse dump cfg).
Abbreviation run_events := (run_events float_string json_parse dump cfg).
Abbreviation dispatchEvent := (dispatchEvent float_string json_parse dump cfg).
Abbreviation dispatch_all := (dispatch_all float_string json_parse dump cfg).
Abbreviation dispatch_items := (dispatch_items float_string dump cfg).
Abbreviation dispatch_fields := (dispatch_fields float_string dump cfg).

(** What happens to the object at a path. *)
Inductive happening := Item (path : bytes) (j : json double) | Create (path : bytes).

(** Reference: the items an object has seen since it was created. *)
Definition sees (path : bytes) (st : option (list (json double))) (h : happening) : option (list (json double)) :=
  match h with
  | Item q j => if decide (q = path) then match st with Some l => Some (l ++ [j]) | None => None end else st
  | Create q => if decide (q = path) then match st with Some l => Some l | None => Some [] end else st
  end.

Definition seen (hs : list happening) (path : bytes) : option (list (json double)) := foldl (sees path) None hs.

Definition items_of (l : list (json double)) : list happening := map (fun j => Item (item_path cfg j) j) l.

Definition field_items (data : list (bytes * json double)) : list happening :=
  concat (map (fun kv => match kv.2 with JArray l => items_of l | _ => [] end) data).

Definition event_items (raw : bytes) : list happening :=
  match json_parse raw with
  | Some (JObject l) =>
      match object_get l (str "errors"), object_get l (str "data") with
      | None, Some (JObject data) => field_items data
      | _, _ => []
      end
  | _ => []
  end.

Definition happenings (e : event) : list happening :=
  match e with
  | Frame f => concat (map event_items (omap data_of (lines [] f)))
  | RunPosted path => [Create path]
  end.

(** The object at a path that has seen [l]. *)
Definition object_ok (path : bytes) (l : list (json double)) (p : proxy) : Prop :=
  follows (newProxy path (dbusInterface cfg) (fieldMap cfg)) p /\
  forall prop, prop ∈ map snd (fieldMap cfg) -> object_get (known_ p) prop = Some (value_after [] prop l).

Definition objs_ok (hs : list happening) (objs : list (bytes * proxy)) : Prop :=
  forall path, match seen hs path with
               | None => object_get objs path = None
               | Some l => exists p, object_get objs path = Some p /\ object_ok path l p
               end.

Lemma set_blank_get (kvs acc : list (bytes * bytes)) k :
  Forall (fun kv => kv.2 = []) kvs -> object_get acc k = Some [] \/ k ∈ map fst kvs -> object_get (set_all acc kvs) k = Some [].
Proof.
  intros Hkv. revert acc. induction Hkv as [|[k0 v] kvs Hv _ IH]; intros acc; cbn.
  - intros [H|H]; [done|]. by apply elem_of_nil in H.
  - cbn in Hv. subst v. intros H. apply (IH (object_set acc k0 [])). rewrite object_get_set. destruct (decide (k0 = k)); [by left|].
    destruct H as [H|H]; [by left|]. apply elem_of_cons in H as [H|H]; [congruence|by right].
Qed.

Lemma newProxy_known path iface fm prop : prop ∈ map snd fm -> object_get (known_ (newProxy path iface fm)) prop = Some [].
Proof.
  intros H. cbn. apply set_blank_get; [by apply Forall_map, Forall_forall|]. right. by rewrite map_map.
Qed.

Lemma newProxy_ok path : object_ok path [] (newProxy path (dbusInterface cfg) (fieldMap cfg)).
Proof. split; [apply follows_refl|]. intros prop. apply newProxy_known. Qed.

(** One item. *)
Lemma object_update path l p j p' :
  object_ok path l p -> applyUpdate float_string dump p j (fieldMap cfg) = (p', false) -> object_ok path (l ++ [j]) p'.
Proof.
  intros [Hf Hv] E. split.
  - eapply follows_trans; [exact Hf|]. pose proof (applyUpdate_follows float_string dump p j (fieldMap cfg)) as H. by rewrite E in H.
  - intros prop Hp. pose proof (applyUpdate_get float_string dump p j (fieldMap cfg) prop) as H. rewrite E in H. cbn in H.
    rewrite H, (Hv prop Hp) by done. unfold GraphqlBridge.value_after. by rewrite foldl_app.
Qed.

Lemma seen_app hs hs' path : seen (hs ++ hs') path = foldl (sees path) (seen hs path) hs'.
Proof. unfold seen. by rewrite foldl_app. Qed.

Lemma dispatch_items_ok hs objs posts l :
  objs_ok hs objs ->
  exists objs' posts', (dispatch_items objs posts l).1 = mkClient (Listed objs') posts' /\
    ((dispatch_items objs posts l).2 = false -> objs_ok (hs ++ items_of l) objs').
Proof.
  revert hs objs posts. induction l as [|j l IH]; intros hs objs posts Ho; cbn [GraphqlBridge.dispatch_items].
  { exists objs, posts. split; [done|]. intros _. by rewrite app_nil_r. }
  set (path := item_path cfg j). change (items_of (j :: l)) with (Item path j :: items_of l).
  assert (Hs : forall q, seen (hs ++ [Item path j]) q = sees q (seen hs q) (Item path j)) by (intros q; by rewrite seen_app).
  replace (hs ++ Item path j :: items_of l) with ((hs ++ [Item path j]) ++ items_of l) by (by rewrite <- app_assoc).
  destruct (object_get objs path) as [p|] eqn:Ep.
  - unfold registry_update. rewrite Ep. destruct (applyUpdate _ _ p j _) as [p' threw] eqn:Eu. destruct threw; [by exists (object_set objs path p'), posts|].
    apply IH. intros q. rewrite Hs. cbn [sees]. specialize (Ho q). rewrite object_get_set. destruct (decide (path = q)) as [->|]; [|done].
    destruct (seen hs q) as [k|]; [|congruence]. destruct Ho as (p0 & H1 & H2). assert (p0 = p) as -> by congruence.
    exists p'. split; [done|]. by eapply object_update.
  - apply IH. intros q. rewrite Hs. cbn [sees]. specialize (Ho q). destruct (decide (path = q)) as [->|]; [|done].
    destruct (seen hs q) as [k|]; [|done]. destruct Ho as (p0 & H1 & _). congruence.
Qed.

(** A client of a list that has seen [hs]. *)
Definition list_ok (hs : list happening) (c : client) : Prop := exists objs posts, c = mkClient (Listed objs) posts /\ objs_ok hs objs.

Lemma dispatch_fields_list hs c data :
  list_ok hs c -> (dispatch_fields c data).2 = false -> list_ok (hs ++ field_items data) (dispatch_fields c data).1.
Proof.
  revert hs c. induction data as [|[k payload] data IH]; intros hs c Hc; cbn [GraphqlBridge.dispatch_fields]; [by rewrite app_nil_r|].
  destruct Hc as (objs & posts & -> & Ho). unfold dispatch_field. cbn [shown posted].
  destruct payload as [| | | | |l|l]; try (intros Hf; apply (IH hs); [by exists objs, posts|done]).
  destruct (dispatch_items_ok hs objs posts l Ho) as (objs' & posts' & H1 & H2).
  change (field_items ((k, JArray l) :: data)) with (items_of l ++ field_items data). rewrite app_assoc.
  destruct (GraphqlBridge.dispatch_items _ _ _ objs posts l) as [c1 []]; [done|]. cbn in H1, H2. subst c1. intros Hf.
  apply IH; [|done]. exists objs', posts'. auto.
Qed.

Lemma dispatch_event_list hs c raw :
  list_ok hs c -> (dispatchEvent c raw).2 <> Throws -> list_ok (hs ++ event_items raw) (dispatchEvent c raw).1.
Proof.
  intros Hc. unfold event_items, GraphqlBridge.dispatchEvent. destruct (json_parse raw) as [[]|]; rewrite ?app_nil_r; try done.
  destruct (object_get l (str "errors")); [by rewrite app_nil_r|].
  destruct (object_get l (str "data")) as [[]|]; rewrite ?app_nil_r; try done.
  pose proof (dispatch_fields_list hs c l0 Hc) as H. destruct (GraphqlBridge.dispatch_fields _ _ _ c l0) as [c' []]; [done|]. intros _. by apply H.
Qed.

Lemma dispatch_all_list hs c raws :
  list_ok hs c -> (dispatch_all c raws).2 = false -> list_ok (hs ++ concat (map event_items raws)) (dispatch_all c raws).1.
Proof.
  revert hs c. induction raws as [|raw raws IH]; intros hs c Hc; cbn [GraphqlBridge.dispatch_all map concat]; [by rewrite app_nil_r|].
  pose proof (dispatch_event_list hs c raw Hc) as H. destruct (dispatchEvent c raw) as [c1 r]. cbn in H. rewrite app_assoc.
  destruct r; [..|done]; intros Hf; (apply IH; [by apply H|done]).
Qed.

Lemma create_ok hs objs path : objs_ok hs objs -> objs_ok (hs ++ [Create path]) (registry_create cfg objs path).
Proof.
  intros Ho q. rewrite seen_app. cbn [foldl sees]. pose proof (Ho q) as Hq. pose proof (Ho path) as Hp. unfold registry_create.
  destruct (object_get objs path) as [p|] eqn:Ep.
  - destruct (decide (path = q)) as [<-|]; [|done]. destruct (seen hs path); [done|congruence].
  - rewrite object_get_set. destruct (decide (path = q)) as [<-|]; [|done]. destruct (seen hs path); [destruct Hp as (? & ? & _); congruence|].
    eexists. split; [done|]. apply newProxy_ok.
Qed.

Lemma run_ended s es s' : ended s = true -> run_events s es = Some s' -> ended s' = true.
Proof.
  revert s. induction es as [|e es IH]; intros s He; cbn [GraphqlBridge.run_events]; [by intros [= <-]|].
  destruct e as [f|path]; cbn [GraphqlBridge.step]; rewrite ?He; [done|]. destruct (run_posted _ _ _) as [c|]; [|done]. by apply IH.
Qed.

Lemma run_list hs s es s' :
  list_ok hs (sclient s) -> run_events s es = Some s' -> ended s' = false ->
  list_ok (hs ++ concat (map happenings es)) (sclient s').
Proof.
  revert hs s. induction es as [|e es IH]; intros hs s Hs; cbn [GraphqlBridge.run_events map concat]; [intros [= <-] _; by rewrite app_nil_r|].
  destruct (step s e) as [s1|] eqn:E; [|done]. intros Hr Hend. rewrite app_assoc. apply (IH _ s1); [|done..]. clear IH.
  assert (Hend1 : ended s1 = false) by (destruct (ended s1) eqn:Ee; [by rewrite (run_ended _ _ _ Ee Hr) in Hend|done]).
  destruct e as [f|path]; cbn [GraphqlBridge.step happenings] in *.
  - destruct (ended s); [done|]. unfold handle_frame in E. rewrite handleFrame_lines in E by lia.
    pose proof (dispatch_all_list hs (sclient s) (omap data_of (lines [] f)) Hs) as H.
    destruct (GraphqlBridge.dispatch_all _ _ _ _ (sclient s) _) as [c threw]. injection E as <-. cbn in *. auto.
  - destruct Hs as (objs & posts & Hc & Ho). unfold run_posted in E. rewrite Hc in E. cbn in E. destruct posts as [|path' posts]; [done|].
    destruct (decide (path' = path)) as [->|]; [|done]. injection E as <-. cbn. eexists _, _. split; [done|]. by apply create_ok.
Qed.

Lemma run_scalar p es s' :
  run_events (mkSubscriber (mkClient (Scalar p) []) false) es = Some s' -> ended s' = false ->
  scalar_ok float_string dump cfg p (concat (map (fun e => match e with Frame f => frame_payloads json_parse f | _ => [] end) es)) (sclient s') false.
Proof.
  revert p. induction es as [|e es IH]; intros p; cbn [GraphqlBridge.run_events map concat]; [intros [= <-] _; apply scalar_nil|].
  destruct e as [f|path]; cbn [GraphqlBridge.step ended sclient]; [|done]. unfold handle_frame. rewrite handleFrame_lines by lia.
  destruct (dispatch_all_scalar float_string json_parse dump cfg p (omap data_of (lines [] f))) as [[H Ht]|(l & H & Ht)];
    destruct (GraphqlBridge.dispatch_all _ _ _ _ (mkClient (Scalar p) []) _) as [c threw]; cbn in H, Ht; subst threw; cbn [sclient].
  - destruct H as (p1 & -> & H1 & H2). intros Hr He. eapply scalar_trans; [|by apply IH]. by exists p1.
  - destruct es as [|e' es]; [intros [= <-]; done|]. cbn [GraphqlBridge.run_events]. destruct H as (p1 & -> & _). by destruct e'.
Qed.

End lists.

(** ** The whole bridge *)

Definition new_client (sub : SubscriptionConfig) : client :=
  mkClient (if isList sub then Listed [] else Scalar (newProxy (dbusPath sub) (dbusInterface sub) (fieldMap sub))) [].

(** Every subscription is given its own object or registry. *)
Lemma wire_clients_own ps0 rs0 subs :
  let '(ps, rs) := make_targets subs in
  wire_clients (ps0 ++ ps) (rs0 ++ rs) (length ps0) (length rs0) subs = Some (map (fun sub => (sub, new_client sub)) subs).
Proof.
  revert ps0 rs0. induction subs as [|sub subs IH]; intros ps0 rs0; cbn [make_targets]; [done|].
  destruct (make_targets subs) as [ps rs]. destruct (isList sub) eqn:E; cbn [wire_clients map]; rewrite E; unfold new_client at 1; rewrite E.
  - rewrite list_lookup_middle by done. specialize (IH ps0 (rs0 ++ [[]])). rewrite length_app, <- app_assoc in IH. cbn in IH.
    rewrite Nat.add_1_r in IH. by rewrite IH.
  - rewrite list_lookup_middle by done. set (p := newProxy _ _ _). specialize (IH (ps0 ++ [p]) rs0). rewrite length_app, <- app_assoc in IH. cbn in IH.
    rewrite Nat.add_1_r in IH. by rewrite IH.
Qed.

Lemma run_wired cfg refreshToken :
  run cfg refreshToken = match match auth cfg with PasswordAuth u p => refreshToken u p | _ => inl [] end with
                         | inl token => Some (Some (token, map (fun sub => (sub, new_client sub)) (subscriptions cfg)))
                         | inr _ => Some None
                         end.
Proof.
  unfold run. destruct (match auth cfg with PasswordAuth u p => refreshToken u p | _ => inl [] end) as [token|]; [|done].
  pose proof (wire_clients_own [] [] (subscriptions cfg)) as H. destruct (make_targets _) as [ps rs]. cbn in H. by rewrite H.
Qed.

Section theorems.

Context {double : Type} (float_string : double -> bytes) (json_parse : bytes -> option (json double)) (dump : json double -> bytes).

Definition frames_in (es : list event) : list (json double) :=
  concat (map (fun e => match e with Frame f => frame_payloads json_parse f | _ => [] end) es).


End theorems.

(** ** The request *)

Lemma hex_digit_hex z : (0 <= z < 16)%Z -> hex z = hex_digit z.
Proof.
  intros Hz. assert (Hc : (z = 0 \/ z = 1 \/ z = 2 \/ z = 3 \/ z = 4 \/ z = 5 \/ z = 6 \/ z = 7 \/ z = 8 \/ z = 9 \/ z = 10 \/ z = 11 \/ z = 12 \/ z = 13 \/ z = 14 \/ z = 15)%Z) by lia.
  by repeat (destruct Hc as [->|Hc]; [vm_compute; reflexivity|]); subst.
Qed.

(** The encoder is the percent-encoding of RFC 3986. *)
Lemma urlEncode_pct s : urlEncode s = pct_encode s.
Proof.
  induction s as [|c s IH]; [done|]. cbn [urlEncode]. unfold pct_encode. cbn [fmap list_fmap concat]. fold (pct_encode s). rewrite IH. f_equal.
  by destruct c.
Qed.

Lemma to_dec_20 z : (0 <= z < 2 ^ 32)%Z -> forallb is_digit (to_dec 20 z) = true /\ to_dec 20 z <> [] /\ of_dec (to_dec 20 z) = z.
Proof.
  intros Hz. split; [|split; [by apply to_dec_nonempty|apply of_to_dec; cbn; lia]].
  apply forallb_forall. intros b Hb. pose proof (to_dec_digits 20 z ltac:(lia)) as H. rewrite Forall_forall in H. apply H. by apply list_elem_of_In.
Qed.

Lemma digits_plain s c : forallb is_digit s = true -> is_digit c = false -> c ∉ s.
Proof. intros Hs Hc Hin. apply list_elem_of_In in Hin. rewrite (proj1 (forallb_forall _ _) Hs _ Hin) in Hc. done. Qed.

Lemma c_str_plain s : x00 ∉ s -> CommandLine.c_str s = s.
Proof.
  unfold CommandLine.c_str. induction s as [|b s IH]; [done|]. intros [Hb Hs]%not_elem_of_cons. cbn.
  rewrite bool_decide_eq_true_2 by congruence. destruct (ConsoleConfig.span _ s) as [a r]. cbn in *. by rewrite IH.
Qed.

(** The interval is read back as the number it was. *)
Lemma interval_decimal z : (0 <= z < 2 ^ 31)%Z -> to_string z <> [] /\ CommandLine.decimal (CommandLine.c_str (to_string z)) = Some z.
Proof.
  intros Hz. unfold to_string. destruct (Z.ltb_spec z 0); [lia|]. destruct (to_dec_20 z ltac:(lia)) as (Hd & Hn & Ho).
  split; [done|]. rewrite c_str_plain by (by apply digits_plain). unfold CommandLine.decimal.
  assert (Hs : ConsoleConfig.sign (to_dec 20 z) = (false, to_dec 20 z)).
  { destruct (to_dec 20 z) as [|b l]; [done|]. cbn in Hd. apply andb_true_iff in Hd as [Hb _]. unfold ConsoleConfig.sign.
    rewrite !decide_False; [done|intros ->; done|intros ->; done]. }
  rewrite Hs, Hd, bool_decide_eq_true_2 by done. cbn [andb]. by rewrite Ho.
Qed.

Lemma pct_digits s : forallb is_digit s = true -> pct_encode s = s.
Proof.
  unfold pct_encode. induction s as [|b s IH]; [done|]. cbn. intros [Hb Hs]%andb_true_iff. rewrite IH by done.
  unfold pct1, unreserved. unfold is_digit in Hb. by rewrite Hb.
Qed.

(** A subscription asks the server for what it says: the target of its request
    is parsed by the server into exactly its query and interval, whatever bytes the
    query has, and the server subscribes its default executor to that query, with
    the interval moved into its range. *)
Theorem subscription_requested {double : Type} (printed : json double -> bytes) h p sub token scfg s :
  query sub <> [] -> (0 <= intervalSeconds sub < 2 ^ 31)%Z ->
  let target := btarget (buildRequest (stream_client h p sub token)) in
  let params := @parse_function unit target in
  _name params = str "/graphql/subscribe" /\
  GraphqlServer.subscribe_sse printed scfg s params =
  (s, GraphqlServer.Subscribe 0 (query sub) (GraphqlServer.OnTimer (Z.max 5 (Z.min 300 (intervalSeconds sub))))).
Proof.
  intros Hq Hi. cbv zeta. destruct (interval_decimal _ Hi) as [Hne Hdec].
  assert (Hpct : to_string (intervalSeconds sub) = pct_encode (to_string (intervalSeconds sub))).
  { symmetry. apply pct_digits. unfold to_string. destruct (Z.ltb_spec (intervalSeconds sub) 0); [lia|]. by apply to_dec_20; lia. }
  set (wc := withFrameDelimiter (withTarget (withPort (withHost tcpClient h) p) (str "/graphql/subscribe")) [NL; NL]).
  assert (Ht : btarget (buildRequest (stream_client h p sub token)) =
    btarget (buildRequest (withParams wc (map (fun kv => (kv.1, pct_encode kv.2)) [(str "interval", to_string (intervalSeconds sub)); (str "query", query sub)])))).
  { unfold stream_client. rewrite urlEncode_pct. cbn [map fst snd]. rewrite <- Hpct. by destruct (decide (token = [])). }
  rewrite Ht, target_roundtrip.
  - cbn [_name fmap list_fmap fst snd]. split; [done|]. set (f := mkFunc _ _ _).
    assert (F1 : param f (str "query") = query sub).
    { unfold param. change (find_if _ (_params f)) with (Some (1, mkParam (str "query") (query sub))). cbn. by rewrite decide_True. }
    assert (F2 : param f (str "interval") = to_string (intervalSeconds sub)).
    { unfold param. change (find_if _ (_params f)) with (Some (0, mkParam (str "interval") (to_string (intervalSeconds sub)))).
      cbn [pvalue]. by rewrite decide_True. }
    assert (F3 : param f (str "remoteIp") = []) by reflexivity. assert (F4 : param f (str "trigger") = []) by reflexivity.
    unfold GraphqlServer.subscribe_sse. rewrite F1, F2, F3, F4, decide_False by done. unfold GraphqlServer.resolveExecutor.
    rewrite decide_True by (by left). rewrite decide_False by done.
    destruct (CommandLine.parseInterval_correct (to_string (intervalSeconds sub))) as [_ ->]. rewrite decide_False by done. rewrite Hdec.
    destruct (Z.leb_spec (- 2 ^ 31) (intervalSeconds sub)); [|lia]. by destruct (Z.ltb_spec (intervalSeconds sub) (2 ^ 31)); [|lia].
  - apply (bool_decide_unpack _). vm_compute. exact I.
  - apply (bool_decide_unpack _). vm_compute. exact I.
  - repeat constructor; try discriminate; apply (bool_decide_unpack _); vm_compute; exact I.
  - done.
Qed.

(** ** Waiting *)

Lemma backoff_closed n : backoff_after n = Z.min (5 * 2 ^ Z.of_nat n) 60.
Proof.
  induction n as [|n IH]; [done|]. change (backoff_after (S n)) with (next_backoff (backoff_after n)). rewrite IH. unfold next_backoff.
  rewrite Nat2Z.inj_succ, Z.pow_succ_r by lia. pose proof (Z.pow_pos_nonneg 2 (Z.of_nat n) ltac:(lia) ltac:(lia)). lia.
Qed.

(** ** Examples *)

Section examples.

Abbreviation J := (json unit).

Definition system_event (health : bytes) : J :=
  JObject [(str "data", JObject [(str "system", JObject [(str "name", JString (str "bmc")); (str "status", JObject [(str "health", JString health)])])])].

Definition fans_event (speed : Z) : J :=
  JObject [(str "data", JObject [(str "fans", JArray [JObject [(str "id", JString (str "f1")); (str "speed", JInt speed)]])])].

Definition parse1 (raw : bytes) : option J :=
  if decide (raw = str "s1") then Some (system_event (str "OK"))
  else if decide (raw = str "s2") then Some (system_event (str "Critical"))
  else if decide (raw = str "f1") then Some (fans_event 100)
  else if decide (raw = str "f2") then Some (fans_event 200)
  else None.

Definition print1 (d : unit) : bytes := str "0.0".
Definition dump1 (j : J) : bytes := str "{}".

Definition system_sub : SubscriptionConfig :=
  mkSubscription (str "system") (str "/sys") (str "i.System") (str "subscription { system { name } }") 10 false
    [(str "name", str "Name"); (str "status.health", str "StatusHealth")].
Definition fans_sub : SubscriptionConfig :=
  mkSubscription (str "fans") (str "/fans") (str "i.Fan") (str "subscription { fans { id speed } }") 10 true [(str "speed", str "Speed")].
Definition bridge1 : BridgeConfig := mkBridgeConfig (str "h") (str "8444") NoAuth [fans_sub; system_sub].

Definition no_login (u p : bytes) : bytes + error_code := inl [].


Definition server_cfg : GraphqlServer.RedfishProviderConfig := GraphqlServer.mkProviderConfig (str "bmc") (str "443") [] [] [] [].

Lemma subscription_requested_witness :
  GraphqlServer.subscribe_sse dump1 server_cfg (GraphqlServer.server_init server_cfg)
    (@parse_function unit (btarget (buildRequest (stream_client (str "h") (str "8444") system_sub [])))) =
  (GraphqlServer.server_init server_cfg, GraphqlServer.Subscribe 0 (query system_sub) (GraphqlServer.OnTimer 10)).
Proof. apply (subscription_requested dump1 (str "h") (str "8444") system_sub []); [discriminate|vm_compute; split; [discriminate|reflexivity]]. Defined.

(** ** Limits *)

(** The event that lets an object be created is not shown by it. *)
Example first_item_lost :
  (s ← run_events print1 parse1 dump1 fans_sub (mkSubscriber (new_client fans_sub) false) [Frame (sse_frame (str "f1")); RunPosted (str "/fans/f1")];
   match shown (sclient s) with Listed objs => p ← object_get objs (str "/fans/f1"); Some (known_ p) | _ => None end) = Some [(str "Speed", [])] /\
  (s ← run_events print1 parse1 dump1 fans_sub (mkSubscriber (new_client fans_sub) false)
         [Frame (sse_frame (str "f1")); RunPosted (str "/fans/f1"); Frame (sse_frame (str "f2"))];
   match shown (sclient s) with Listed objs => p ← object_get objs (str "/fans/f1"); Some (known_ p) | _ => None end) = Some [(str "Speed", str "200")].
Proof. split; vm_compute; reflexivity. Qed.

(** A property with two paths is set twice by every event. *)
Example two_paths_flip :
  let fm := [(str "name", str "P"); (str "status", str "P")] in
  let payload : J := JObject [(str "name", JString (str "a")); (str "status", JString (str "b"))] in
  let p := (applyUpdate print1 dump1 (newProxy (str "/x") (str "i") fm) payload fm).1 in
  sets (applyUpdate print1 dump1 p payload fm).1 = [(str "P", str "a"); (str "P", str "b"); (str "P", str "a"); (str "P", str "b")].
Proof. vm_compute. reflexivity. Qed.

(** Large unsigned numbers are shown as negative ones. *)
Example unsigned_shown_negative : toStr print1 dump1 (JInt (2 ^ 64 - 1)) = str "-1".
Proof. vm_compute. reflexivity. Qed.

(** A configuration with a number for the port throws. *)
Example config_throws :
  loadBridgeConfig (fun _ => 0%Z) (fun _ => Some (JObject [(str "port", JInt 8444)] : J)) (str "c.json") (Some []) = inr (Not_string (JInt 8444)).
Proof. vm_compute. reflexivity. Qed.

(** An index of an array that does not fit into 64 bits ends the subscription. *)
Example index_overflow_ends :
  (s ← run_events print1 (fun _ => Some (JObject [(str "data", JObject [(str "s", JObject [(str "a", JArray [])])])] : J)) dump1
         (mkSubscription [] (str "/s") [] (str "q") 10 false [(str "a.18446744073709551616", str "P")])
         (mkSubscriber (mkClient (Scalar (newProxy (str "/s") [] [(str "a.18446744073709551616", str "P")])) []) false) [Frame (sse_frame (str "x"))];
   Some (ended s)) = Some true.
Proof. vm_compute. reflexivity. Qed.

End examples.
