(* ===== verification/FileSync.v ===== *)
(** * File synchronisation: [event_file_methods.hpp] and [file_sync.hpp] of
      [examples/event_broker/], and [include/file_watcher.hpp]

    A change that the watcher reports becomes an event of the queue of
    [EventQueue.v]; the peer that receives the event fetches the file over the same
    connection.  Streams are those of [Stream.v]: chunks, one per completed read.
    The file system is a map from paths to contents; archives, and whether a file
    can be written, are parameters. *)

From S2P Require Import Prelude Stream.
From S2P Require StdMap Http EventQueue.

Definition BUFFER_SIZE : nat := 8 * 1024.

Abbreviation files := (gmap bytes bytes).

Inductive error := operation_aborted | io_error | operation_not_supported | connection_lost | remove_failed.

(** How a coroutine ends: an error code, none for success, or an exception. *)
Inductive ending := Returns (ec : option error) | Throws.

(** ** Streams *)

Section streams.

Context (async_read_until : bytes -> list bytes -> option (bytes * nat * list bytes)).

(** [readData]: at most [n] bytes of what has arrived. *)
Definition readData (n : nat) (cs : list bytes) : option (bytes * list bytes) :=
  match cs with
  | [] => None
  | c :: cs => if length c <=? n then Some (c, cs) else Some (take n c, drop n c :: cs)
  end.

Definition contains (h : bytes) (words : list bytes) : bool :=
  existsb (fun w => match find_sub w h with Some _ => true | None => false end) words.

(** [readFor] with the retries left: the header, or an error. *)
Fixpoint readFor (retryCount : nat) (headers : list bytes) (cs : list bytes) : option bytes * list bytes :=
  match retryCount with
  | 0 => (Some [], cs)
  | S retryCount =>
      match readHeader async_read_until cs with
      | None => (None, [])
      | Some (header, cs) => if contains header headers then (Some header, cs) else readFor retryCount headers cs
      end
  end.

(** ** Sending *)

(** Reading a file through a buffer of [n] bytes. *)
Fixpoint pieces (fuel n : nat) (contents : bytes) : list bytes :=
  match fuel with
  | 0 => []
  | S fuel => match contents with [] => [] | _ => take n contents :: pieces fuel n (drop n contents) end
  end.

(** [sendFile]: what is handed to the stream, write by write, and how it ends when
    all writes succeed. *)
Definition sendFile (fs : files) (filePath : bytes) : list bytes * ending :=
  match fs !! filePath with
  | None => ([], Returns (Some operation_aborted))
  | Some contents =>
      let fileSize := length contents in
      let n := if fileSize <? BUFFER_SIZE then fileSize else BUFFER_SIZE in
      ((str "Content-Size:" ++ to_dec 20 (Z.of_nat fileSize) ++ HEDER_DELIM) :: pieces fileSize n contents, Returns None)
  end.

(** ** Receiving *)

(** What is not under the sources: whether a file can be opened for writing, and
    the archives of libarchive, as the contents of the file. *)
Context (can_write : bytes -> bool) (createTarArchive : files -> bytes -> option bytes)
        (extractTarArchive : files -> bytes -> bytes -> option files).

(** The loop that receives a file; [fuel] bounds the reads. *)
Fixpoint receive_loop (fuel size n : nat) (written : bytes) (cs : list bytes) : option (bytes * ending * list bytes) :=
  match fuel with
  | 0 => None
  | S fuel =>
      if length written <? size then
        match readData n cs with
        | None => Some (written, Returns (Some connection_lost), [])
        | Some (data, cs) => receive_loop fuel size n (written ++ data) cs
        end
      else Some (written, Returns None, cs)
  end.

(** What is left to read, in bytes and chunks. *)
Definition weight (cs : list bytes) : nat := length (concat cs) + length cs.

Definition header_words : list bytes := [str "FileNotFound"; str "Content-Size"; str "FileType"].

(** [recieveFile] and [recieveArchiveFile]; [fuel] bounds the headers read. *)
Fixpoint recieveFile (fuel : nat) (fs : files) (root destPath : bytes) (cs : list bytes) : option (files * ending * list bytes) :=
  match fuel with
  | 0 => None
  | S fuel =>
      let filePath := root ++ destPath in
      let '(header, cs) := readFor 3 header_words cs in
      match header with
      | None => Some (fs, Returns (Some connection_lost), cs)
      | Some header =>
          let '(id, data) := parseEvent header in
          if decide (id = str "FileType") then
            let '(ftype, archfilePath) := parseEvent data in
            if decide (ftype = str "archive") then
              match recieveFile fuel fs root archfilePath cs with
              | Some (fs, Returns None, cs) =>
                  match extractTarArchive fs (default [] (fs !! (root ++ archfilePath))) (root ++ destPath) with
                  | Some fs => Some (delete (root ++ archfilePath) fs, Returns None, cs)
                  | None => Some (fs, Returns (Some io_error), cs)
                  end
              | r => r
              end
            else recieveFile fuel fs filePath ftype cs
          else if decide (id = str "FileNotFound") then Some (fs, Returns None, cs)
          else if decide (id = str "Content-Size") then
            match EventQueue.stoull data with
            | None => Some (fs, Throws, cs)
            | Some fileSize =>
                if decide (fileSize = 0)%Z then Some (fs, Returns None, cs)
                else if can_write filePath then
                  let size := Z.to_nat fileSize in
                  let n := if (fileSize <? Z.of_nat BUFFER_SIZE)%Z then size else BUFFER_SIZE in
                  match receive_loop (S (weight cs)) size n [] cs with
                  | Some (contents, r, cs) => Some (<[filePath := contents]> fs, r, cs)
                  | None => None
                  end
                else Some (fs, Returns (Some operation_aborted), cs)
            end
          else Some (fs, Returns (Some operation_not_supported), cs)
      end
  end.

(** ** The two ends *)

(** [providerHandler]: the writes, the files and how it ends. *)
Definition providerHandler (fs : files) (event : bytes) : list bytes * files * ending :=
  let '(id, path) := parseEvent event in
  if decide (id = str "Fetch") then let '(ws, r) := sendFile fs path in (ws, fs, r)
  else if decide (id = str "FetchArchive") then
    let archpath := str "/tmp/.archive/" ++ Http.replaced path Http.slash "_"%byte ++ str ".tar.gz" in
    match createTarArchive fs path with
    | Some archive =>
        let fs := <[archpath := archive]> fs in
        let '(ws, r) := sendFile fs archpath in
        ((makeEvent3 (str "FileType") (str "archive:" ++ archpath) HEDER_DELIM ++ HEDER_DELIM) :: ws, delete archpath fs, r)
    | None => ([makeEvent3 (str "FileNotFound") path HEDER_DELIM ++ HEDER_DELIM], fs, Returns None)
    end
  else ([], fs, Returns None).

(** [fileConsumer]; [removable] tells whether [remove] throws. *)
Definition fileConsumer (removable : bytes -> bool) (root : bytes) (fs : files) (event : bytes) (cs : list bytes)
  : option (list bytes * files * ending * list bytes) :=
  let '(id, data) := parseEvent event in
  let fetch word :=
    match recieveFile (S (weight cs)) fs root data cs with
    | Some (fs, r, cs) => Some ([word ++ data ++ HEDER_DELIM], fs, r, cs)
    | None => None
    end in
  if decide (id = str "FileModified") then fetch (str "Fetch:")
  else if decide (id = str "FileDeleted") then
    Some (if removable (root ++ data) then ([], delete (root ++ data) fs, Returns None, cs)
          else ([], fs, Returns (Some remove_failed), cs))
  else if decide (id = str "ArchiveModified") then fetch (str "FetchArchive:")
  else Some ([], fs, Returns (Some operation_not_supported), cs).

(** [next] of the queue with this consumer: the writes, the files, and whether the
    connection goes on. *)
Definition consume (removable : bytes -> bool) (root : bytes) (fs : files) (cs : list bytes) : option (list bytes * files * bool) :=
  match readHeader async_read_until cs with
  | None => Some ([], fs, false)
  | Some (data, cs) =>
      match fileConsumer removable root fs (EventQueue.c_str data) cs with
      | Some (ws, fs, Returns None, _) => Some (ws ++ [DONE ++ HEDER_DELIM], fs, true)
      | Some (ws, fs, _, _) => Some (ws, fs, false)
      | None => None
      end
  end.

(** [sendEventHandler] with this provider: the writes, the files, and what the
    exchange was, for the queue. *)
Definition provide (fs : files) (event : bytes) (cs : list bytes) : list bytes * files * EventQueue.exchange :=
  match readHeader async_read_until cs with
  | None => ([event], fs, EventQueue.HeaderFails)
  | Some (header, _) =>
      if decide (header = DONE) then ([event], fs, EventQueue.Replies header true)
      else let '(ws, fs, r) := providerHandler fs header in
           (event :: ws, fs, EventQueue.Replies header (match r with Returns None => true | _ => false end))
  end.

End streams.

(** ** The watcher *)

Inductive FileStatus := created | modified | erased.

(** An event of inotify: the watch, the mask and the name, if there is one. *)
Record inotify_event := mkInotify { wd : Z; in_create : bool; in_delete : bool; in_modify : bool; iname : bytes }.

(** [watch]: the events by their paths, the last one of each path; [None] is the
    exception of [at]. *)
Fixpoint watch (watch_fds : gmap Z bytes) (evs : list inotify_event) (acc : list (bytes * inotify_event)) : option (list (bytes * inotify_event)) :=
  match evs with
  | [] => Some acc
  | e :: evs =>
      match watch_fds !! wd e with
      | None => None
      | Some path =>
          let path := if decide (iname e = []) then path else path ++ str "/" ++ iname e in
          watch watch_fds evs (StdMap.object_set acc path e)
      end
  end.

(** [watchForChanges]: what the handler is called with. *)
Definition status_of (e : inotify_event) : option FileStatus :=
  if in_create e then Some created else if in_delete e then Some erased else if in_modify e then Some modified else None.

Definition changes (l : list (bytes * inotify_event)) : list (bytes * FileStatus) :=
  omap (fun kv => match status_of kv.2 with Some s => Some (kv.1, s) | None => None end) l.

(** [FileSync::operator()]. *)
Definition on_change (q : EventQueue.EventQueue) (path : bytes) (status : FileStatus) (now : Z) : EventQueue.EventQueue :=
  match status with
  | created => q
  | modified =>
      let event := makeEvent3 (str "FileModified") path HEDER_DELIM in
      if EventQueue.eventExists q event then q else EventQueue.addEvent q event now
  | erased => EventQueue.addEvent q (makeEvent3 (str "FileDeleted") path HEDER_DELIM) now
  end.

(** ** Headers and data *)

(** What was written arrives without bytes of two writes in one chunk. *)
Definition delivers (writes cs : list bytes) : Prop :=
  exists css, cs = concat css /\ Forall2 (fun w c => concat c = w /\ Forall (fun x => x <> []) c) writes css.

Lemma delivers_cons w ws cs : delivers (w :: ws) cs ->
  exists c cs', cs = c ++ cs' /\ concat c = w /\ Forall (fun x => x <> []) c /\ delivers ws cs'.
Proof.
  intros (css & -> & H). apply Forall2_cons_inv_l in H as (c & css' & [Hc Hne] & H & ->). exists c, (concat css'). repeat split; try done. by exists css'.
Qed.

Lemma delivers_concat ws cs : delivers ws cs -> concat cs = concat ws /\ Forall (fun x => x <> []) cs.
Proof.
  revert cs. induction ws as [|w ws IH]; intros cs H.
  - destruct H as (css & -> & H). apply Forall2_nil_inv_l in H as ->. done.
  - apply delivers_cons in H as (c & cs' & -> & <- & Hne & H). destruct (IH cs' H) as [Hc Hn]. rewrite concat_app, Hc. split; [done|]. by apply Forall_app.
Qed.

(** A header without carriage returns is ended by its delimiter. *)
Lemma wf_header_plain h : x0d ∉ h -> wf_header h.
Proof.
  unfold wf_header. induction h as [|b h IH]; [done|]. intros [Hb Hh]%not_elem_of_cons. cbn [app find_sub length].
  rewrite bool_decide_eq_false_2 by (intros [k Hk]; by injection Hk as -> _). by rewrite IH.
Qed.

Lemma pieces_concat fuel n l : 0 < n -> length l <= fuel -> concat (pieces fuel n l) = l.
Proof.
  intros Hn. revert l. induction fuel as [|fuel IH]; intros l Hl; [by destruct l; cbn in *; [|lia]|].
  destruct l as [|b l]; [done|]. cbn [pieces concat]. rewrite IH by (rewrite length_drop; cbn in *; lia). apply take_drop.
Qed.

Lemma receive_exact fuel size n written ds rest :
  0 < n -> Forall (fun x => x <> []) ds -> length written + length (concat ds) = size -> length (concat ds) < fuel ->
  receive_loop fuel size n written (ds ++ rest) = Some (written ++ concat ds, Returns None, rest).
Proof.
  intros Hn. revert written ds. induction fuel as [|fuel IH]; intros written ds Hne Hs Hf; [lia|]. cbn [receive_loop].
  destruct ds as [|d ds].
  { cbn [concat length app] in *. rewrite app_nil_r. destruct (Nat.ltb_spec (length written) size); [lia|done]. }
  apply Forall_cons in Hne as [Hd Hne]. cbn [concat] in *. rewrite length_app in *. assert (length d <> 0) by (by destruct d).
  destruct (Nat.ltb_spec (length written) size); [|lia]. cbn [app readData]. destruct (Nat.leb_spec (length d) n).
  - rewrite IH by (rewrite ?length_app; done || lia). by rewrite <- app_assoc.
  - change (drop n d :: ds ++ rest) with ((drop n d :: ds) ++ rest). rewrite IH.
    + cbn [concat]. rewrite <- (take_drop n d) at 3. by rewrite <- !app_assoc.
    + constructor; [|done]. intros E. apply (f_equal length) in E. rewrite length_drop in E. cbn in E. lia.
    + cbn [concat]. rewrite !length_app, length_take, length_drop. lia.
    + cbn [concat]. rewrite length_app, length_drop. lia.
Qed.

Lemma to_dec_no_cr z : (0 <= z)%Z -> x0d ∉ to_dec 20 z.
Proof. intros Hz Hin. pose proof (to_dec_digits 20 z Hz) as H. rewrite Forall_forall in H. by apply H in Hin. Qed.

Lemma of_dec_nonneg s : Forall (fun b => is_digit b = true) s -> (0 <= of_dec s)%Z.
Proof.
  induction s as [|b s IH] using rev_ind; [done|]. intros [Hs Hb]%Forall_app. apply Forall_cons in Hb as [Hb _].
  unfold of_dec in *. rewrite foldl_app. cbn. unfold is_digit in Hb. specialize (IH Hs). lia.
Qed.

Lemma take_while_digits s : Forall (fun b => is_digit b = true) (EventQueue.take_while is_digit s).
Proof. induction s as [|b s IH]; cbn; [done|]. destruct (is_digit b) eqn:E; [by constructor|done]. Qed.

(** ** Everything read comes to an end *)

Section totality.

Context {aru} `{ReadUntil aru}.

Lemma weight_app a b : weight (a ++ b) = weight a + weight b.
Proof. unfold weight. rewrite concat_app, !length_app. lia. Qed.

Lemma readHeader_weight cs h rest : readHeader aru cs = Some (h, rest) -> weight rest < weight cs.
Proof.
  unfold readHeader, readUntil. destruct (aru HEDER_DELIM cs) as [[[buf n] rest']|] eqn:E; [|done]. intros [= _ <-].
  apply read_until_found in E as (i & pre & -> & -> & Hi & _). rewrite weight_app.
  destruct pre as [|c pre]; [by vm_compute in Hi|]. unfold weight. cbn. lia.
Qed.

Lemma readFor_weight n words cs : weight (readFor aru n words cs).2 <= weight cs /\ (n <> 0 -> cs <> [] \/ (readFor aru n words cs).1 = None).
Proof.
  revert cs. induction n as [|n IH]; intros cs; cbn [readFor]; [split; [done|done]|].
  destruct (readHeader aru cs) as [[h rest]|] eqn:E; [|cbn; split; [lia|by right]]. apply readHeader_weight in E.
  split; [|left; intros ->; unfold weight in E; cbn in E; lia].
  destruct (contains h words); cbn [snd]; [lia|]. destruct (IH rest) as [H1 _]. lia.
Qed.

Lemma readFor_less n words cs h : n <> 0 -> (readFor aru n words cs).1 = Some h -> weight (readFor aru n words cs).2 < weight cs.
Proof.
  destruct n as [|n]; [done|]. intros _. cbn [readFor]. destruct (readHeader aru cs) as [[h' rest]|] eqn:E; [|done]. apply readHeader_weight in E.
  destruct (contains h' words); cbn [fst snd]; [lia|]. intros _. destruct (readFor_weight n words rest) as [H1 _]. lia.
Qed.

Lemma receive_total fuel size n written cs : 0 < n -> weight cs < fuel ->
  exists r rest w, receive_loop fuel size n written cs = Some (w, r, rest) /\ weight rest <= weight cs.
Proof.
  intros Hn. revert written cs. induction fuel as [|fuel IH]; intros written cs Hf; [lia|]. cbn [receive_loop].
  destruct (length written <? size); [|by eexists _, _, _]. destruct cs as [|c cs]; cbn [readData]; [by eexists _, _, _|].
  unfold weight in *. cbn [concat length] in *. rewrite length_app in *. destruct (Nat.leb_spec (length c) n).
  - destruct (IH (written ++ c) cs ltac:(lia)) as (r & rest & w & -> & Hw). eexists _, _, _. split; [done|]. lia.
  - destruct (IH (written ++ take n c) (drop n c :: cs)) as (r & rest & w & -> & Hw).
    + cbn [concat length]. rewrite length_app, length_drop. lia.
    + eexists _, _, _. split; [done|]. cbn [concat length] in Hw. rewrite length_app, length_drop in Hw. lia.
Qed.

Context (can_write : bytes -> bool) (createTarArchive : files -> bytes -> option bytes)
        (extractTarArchive : files -> bytes -> bytes -> option files).

Abbreviation recieveFile := (recieveFile aru can_write extractTarArchive).

Lemma recieve_total fuel fs root dest cs : weight cs < fuel ->
  exists fs' r rest, recieveFile fuel fs root dest cs = Some (fs', r, rest) /\ weight rest <= weight cs.
Proof.
  revert fs root dest cs. induction fuel as [|fuel IH]; intros fs root dest cs Hf; [lia|]. cbn [FileSync.recieveFile].
  pose proof (readFor_less 3 header_words cs) as Hless. pose proof (readFor_weight 3 header_words cs) as [Hle _].
  destruct (readFor aru 3 header_words cs) as [[h|] cs1]; cbn [fst snd] in *; [|by eexists _, _, _].
  specialize (Hless h ltac:(done) eq_refl). destruct (parseEvent h) as [id data]. destruct (decide (id = str "FileType")).
  - destruct (parseEvent data) as [ftype arch]. destruct (decide (ftype = str "archive")).
    + destruct (IH fs root arch cs1 ltac:(lia)) as (fs' & r & rest & -> & Hw). destruct r as [[err|]|]; try (eexists _, _, _; split; [done|lia]).
      destruct (extractTarArchive _ _ _); (eexists _, _, _; split; [done|lia]).
    + destruct (IH fs (root ++ dest) ftype cs1 ltac:(lia)) as (fs' & r & rest & -> & Hw). eexists _, _, _. split; [done|lia].
  - destruct (decide (id = str "FileNotFound")); [eexists _, _, _; split; [done|lia]|].
    destruct (decide (id = str "Content-Size")); [|eexists _, _, _; split; [done|lia]].
    destruct (EventQueue.stoull data) as [z|] eqn:Ez; [|eexists _, _, _; split; [done|lia]].
    destruct (decide (z = 0)%Z); [eexists _, _, _; split; [done|lia]|]. destruct (can_write _); [|eexists _, _, _; split; [done|lia]].
    assert (Hz : (0 <= z)%Z).
    { revert Ez. unfold EventQueue.stoull. destruct (match EventQueue.drop_while EventQueue.is_space data with [] => _ | _ => _ end) as [neg s].
      destruct (EventQueue.take_while is_digit s) as [|b ds] eqn:Eds; [done|]. destruct (of_dec (b :: ds) <? 2 ^ 64)%Z; [|done].
      intros [= <-]. destruct neg; [by apply wrapu_range|]. apply of_dec_nonneg. rewrite <- Eds. apply take_while_digits. }
    set (m := if (z <? _)%Z then _ else _). assert (Hm : 0 < m) by (unfold m, BUFFER_SIZE; destruct (z <? _)%Z; lia).
    destruct (receive_total (S (weight cs1)) (Z.to_nat z) m [] cs1 Hm ltac:(lia)) as (r & rest & w & -> & Hw). eexists _, _, _. split; [done|lia].
Qed.

(** Every exchange of the consumer comes to an end. *)
Lemma consume_total removable root fs cs : exists r, consume aru can_write extractTarArchive removable root fs cs = Some r.
Proof.
  unfold consume. destruct (readHeader aru cs) as [[h rest]|]; [|eauto]. unfold fileConsumer.
  destruct (parseEvent _) as [id data]. destruct (recieve_total (S (weight rest)) fs root data rest ltac:(lia)) as (fs' & r & rest' & -> & _).
  repeat (destruct (decide _); [destruct r as [[]|]; try destruct (removable _); eauto|]). eauto.
Qed.

End totality.

(** ** A file is brought to the peer *)

Section sync.

Context {aru} `{ReadUntil aru}.
Context (can_write : bytes -> bool) (createTarArchive : files -> bytes -> option bytes)
        (extractTarArchive : files -> bytes -> bytes -> option files) (removable : bytes -> bool).

Abbreviation recieveFile := (recieveFile aru can_write extractTarArchive).
Abbreviation consume := (consume aru can_write extractTarArchive removable).
Abbreviation provide := (provide aru createTarArchive).

Lemma triple_inj {A B C} (a a' : A) (b b' : B) (c c' : C) : (a, b, c) = (a', b', c') -> a = a' /\ b = b' /\ c = c'.
Proof. intros [= -> -> ->]. done. Qed.

Lemma cons_inj {A} (x y : A) l k : x :: l = y :: k -> x = y /\ l = k.
Proof. intros [= -> ->]. done. Qed.

Lemma parse_plain id data : colon ∉ id -> parseEvent (id ++ colon :: data) = (id, data).
Proof. intros Hid. pose proof (parseEvent_makeEvent id data [] Hid) as E. unfold makeEvent3 in E. by rewrite !app_nil_r in E. Qed.

Lemma contains_prefix w h words : w ∈ words -> w `prefix_of` h -> contains h words = true.
Proof.
  intros Hw Hp. apply existsb_exists. exists w. split; [by apply list_elem_of_In|]. destruct h; cbn; by rewrite bool_decide_eq_true_2.
Qed.

(** The header of a file and its bytes, each in chunks of their own. *)
Lemma content_received fuel fs root dest contents hs ds rest :
  contents <> [] -> (Z.of_nat (length contents) < 2 ^ 64)%Z -> can_write (root ++ dest) = true ->
  concat hs = str "Content-Size:" ++ to_dec 20 (Z.of_nat (length contents)) ++ HEDER_DELIM -> Forall (fun x => x <> []) hs ->
  concat ds = contents -> Forall (fun x => x <> []) ds ->
  recieveFile (S fuel) fs root dest (hs ++ ds ++ rest) = Some (<[root ++ dest := contents]> fs, Returns None, rest).
Proof.
  intros Hne Hlen Hcan Hhs Hhne Hds Hdne. set (n := to_dec 20 (Z.of_nat (length contents))) in *.
  assert (Hh : readHeader aru (hs ++ ds ++ rest) = Some (str "Content-Size:" ++ n, ds ++ rest)).
  { apply readHeader_message; [|done|by rewrite Hhs, <- app_assoc]. apply wf_header_plain. rewrite not_elem_of_app. split; [|apply to_dec_no_cr; lia].
    apply (bool_decide_unpack _). vm_compute. exact I. }
  cbn [FileSync.recieveFile readFor]. rewrite Hh. rewrite (contains_prefix (str "Content-Size")).
  2: apply (bool_decide_unpack _); vm_compute; exact I.
  2: by exists (colon :: n).
  change (str "Content-Size:" ++ n) with (str "Content-Size" ++ colon :: n). rewrite parse_plain by (apply (bool_decide_unpack _); vm_compute; exact I).
  rewrite !decide_False by discriminate. rewrite decide_True by done. unfold n. rewrite EventQueue.stoull_to_dec by (unfold is_uint; lia).
  assert (length contents <> 0) by (by destruct contents). rewrite decide_False by lia. rewrite Hcan, Nat2Z.id.
  set (m := if (_ <? _)%Z then _ else _). assert (Hm : 0 < m) by (unfold m, BUFFER_SIZE; destruct (_ <? _)%Z; lia).
  rewrite receive_exact; [by rewrite Hds|done|done|by rewrite Hds|]. rewrite weight_app. unfold weight. lia.
Qed.

Lemma sendFile_writes fs path contents : fs !! path = Some contents ->
  exists ps, sendFile fs path = ((str "Content-Size:" ++ to_dec 20 (Z.of_nat (length contents)) ++ HEDER_DELIM) :: ps, Returns None) /\
    (contents <> [] -> concat ps = contents).
Proof.
  intros E. unfold sendFile. rewrite E. eexists. split; [done|]. intros Hne. assert (length contents <> 0) by (by destruct contents).
  apply pieces_concat; [|done]. unfold BUFFER_SIZE. destruct (_ <? _); lia.
Qed.

Lemma event_no_nul s : x00 ∉ s -> EventQueue.c_str s = s.
Proof. induction s as [|b s IH]; [done|]. intros [Hb Hs]%not_elem_of_cons. cbn. rewrite decide_False by congruence. by rewrite IH. Qed.

(** C34: a modified file reaches the peer: when the file is not empty, its path has no
    carriage return and no NUL and the consumer can write it, then in an exchange in
    which every write is taken whole and no read returns bytes of two writes, the
    consumer asks for the file that the event names and ends with its contents under
    its own root, other files as they were, the provider's files unchanged, and the
    event acknowledged, so that the queue forgets it.  (Otherwise it need not: see
    [coalesced_header] and [emptied_file_kept].) *)
Theorem file_synced fsP fsC root path contents csP csC wP fsP' x wC fsC' ok :
  fsP !! path = Some contents -> contents <> [] -> (Z.of_nat (length contents) < 2 ^ 64)%Z ->
  x0d ∉ path -> x00 ∉ path -> can_write (root ++ path) = true ->
  provide fsP (makeEvent3 (str "FileModified") path HEDER_DELIM) csP = (wP, fsP', x) ->
  consume root fsC csC = Some (wC, fsC', ok) ->
  delivers wP csC -> delivers wC csP ->
  fsC' = <[root ++ path := contents]> fsC /\ ok = true /\ fsP' = fsP /\
  forall q id provider now, EventQueue.sendEventHandler q id provider x now = (EventQueue.removeEvent q id, EventQueue.AwaitsDone).
Proof.
  intros Hfile Hne Hlen Hcr Hnul Hcan Hprov Hcons HdP HdC.
  assert (HwP : exists ws, wP = makeEvent3 (str "FileModified") path HEDER_DELIM :: ws).
  { revert Hprov. unfold FileSync.provide. destruct (readHeader aru csP) as [[h r]|]; [|intros [= <- _ _]; eauto].
    destruct (decide (h = DONE)); [intros [= <- _ _]; eauto|]. destruct (providerHandler _ _ h) as [[ws f] r']. intros [= <- _ _]. eauto. }
  destruct HwP as [ws ->]. apply delivers_cons in HdP as (c1 & cs1 & -> & Hc1 & Hn1 & Hws).
  set (h1 := str "FileModified" ++ colon :: path).
  assert (Hr1 : readHeader aru (c1 ++ cs1) = Some (h1, cs1)).
  { apply readHeader_message; [|done|unfold h1; rewrite Hc1; unfold makeEvent3; by rewrite <- app_assoc].
    apply wf_header_plain. unfold h1. rewrite not_elem_of_app, not_elem_of_cons. split; [|split; [done|done]].
    apply (bool_decide_unpack _). vm_compute. exact I. }
  assert (Hnul1 : x00 ∉ h1) by (unfold h1; rewrite not_elem_of_app, not_elem_of_cons; split; [apply (bool_decide_unpack _); vm_compute; exact I|by split]).
  unfold FileSync.consume in Hcons. rewrite Hr1, event_no_nul in Hcons by done. unfold fileConsumer in Hcons. unfold h1 in Hcons.
  rewrite parse_plain in Hcons by (apply (bool_decide_unpack _); vm_compute; exact I). rewrite decide_True in Hcons by done.
  destruct (FileSync.recieveFile _ _ _ _ fsC root path cs1) as [[[fs2 r2] rest2]|] eqn:Erec; [|done].
  set (fetch := str "Fetch:" ++ path ++ HEDER_DELIM) in *.
  assert (HwC : exists ws', wC = fetch :: ws') by (destruct r2 as [[]|]; injection Hcons as <- _ _; eauto). destruct HwC as [ws' HwC].
  rewrite HwC in HdC. apply delivers_cons in HdC as (d1 & ds1 & -> & Hd1 & Hnd1 & _).
  set (h2 := str "Fetch" ++ colon :: path).
  assert (Hr2 : readHeader aru (d1 ++ ds1) = Some (h2, ds1)).
  { apply readHeader_message; [|done|rewrite Hd1; unfold h2, fetch; by rewrite <- app_assoc].
    apply wf_header_plain. unfold h2. rewrite not_elem_of_app, not_elem_of_cons. split; [|by split]. apply (bool_decide_unpack _). vm_compute. exact I. }
  unfold FileSync.provide in Hprov. rewrite Hr2 in Hprov. rewrite decide_False in Hprov by (intros E; discriminate E).
  unfold providerHandler in Hprov. unfold h2 at 1 in Hprov. rewrite parse_plain in Hprov by (apply (bool_decide_unpack _); vm_compute; exact I).
  rewrite decide_True in Hprov by done. destruct (sendFile_writes fsP path contents Hfile) as (ps & Es & Hps). rewrite Es in Hprov.
  apply triple_inj in Hprov as (Hws' & <- & <-). apply cons_inj in Hws' as [_ <-]. apply delivers_cons in Hws as (hs & cs2 & -> & Hhs & Hnhs & Hpieces).
  apply delivers_concat in Hpieces as [Hcat Hnp]. rewrite Hps in Hcat by done.
  rewrite <- (app_nil_r cs2), (content_received _ fsC root path contents hs cs2 []) in Erec by done. injection Erec as <- <- <-. injection Hcons as _ <- <-.
  split; [done|]. split; [done|]. split; [done|]. intros q id provider now. cbn [EventQueue.sendEventHandler]. by rewrite decide_False by (intros E; discriminate E).
Qed.

(** A deletion is done and acknowledged at once. *)
Lemma deletion_synced fsC root path cs rest :
  x0d ∉ path -> x00 ∉ path -> removable (root ++ path) = true -> concat cs = makeEvent3 (str "FileDeleted") path HEDER_DELIM -> Forall (fun x => x <> []) cs ->
  consume root fsC (cs ++ rest) = Some ([DONE ++ HEDER_DELIM], delete (root ++ path) fsC, true).
Proof.
  intros Hcr Hnul Hrem Hcs Hne. unfold FileSync.consume. rewrite (readHeader_message (str "FileDeleted" ++ colon :: path)).
  - rewrite event_no_nul by (rewrite not_elem_of_app, not_elem_of_cons; split; [apply (bool_decide_unpack _); vm_compute; exact I|by split]).
    unfold fileConsumer. rewrite parse_plain by (apply (bool_decide_unpack _); vm_compute; exact I). rewrite decide_False by discriminate.
    rewrite decide_True by done. by rewrite Hrem.
  - apply wf_header_plain. rewrite not_elem_of_app, not_elem_of_cons. split; [apply (bool_decide_unpack _); vm_compute; exact I|by split].
  - done.
  - rewrite Hcs. unfold makeEvent3. by rewrite <- app_assoc.
Qed.

End sync.

(** *** Archives *)

Section archives.

Context {aru} `{ReadUntil aru}.
Context (can_write : bytes -> bool) (createTarArchive : files -> bytes -> option bytes)
        (extractTarArchive : files -> bytes -> bytes -> option files) (removable : bytes -> bool).

(** The provider's answer to [FetchArchive], received: the archive is extracted
    below the root and removed again.  The first header has its delimiter twice: it
    must arrive in one chunk. *)
Lemma archive_received fsP fsC path archive archpath fs' root dest ws cs fuel :
  archpath = str "/tmp/.archive/" ++ Http.replaced path Http.slash "_"%byte ++ str ".tar.gz" ->
  colon ∉ path -> x0d ∉ path -> createTarArchive fsP path = Some archive -> archive <> [] -> (Z.of_nat (length archive) < 2 ^ 64)%Z ->
  can_write (root ++ archpath) = true ->
  extractTarArchive (<[root ++ archpath := archive]> fsC) archive (root ++ dest) = Some fs' ->
  (providerHandler createTarArchive fsP (str "FetchArchive:" ++ path)).1.1 = (makeEvent3 (str "FileType") (str "archive:" ++ archpath) HEDER_DELIM ++ HEDER_DELIM) :: ws ->
  delivers ws cs ->
  recieveFile aru can_write extractTarArchive (S (S fuel)) fsC root dest
    ((makeEvent3 (str "FileType") (str "archive:" ++ archpath) HEDER_DELIM ++ HEDER_DELIM) :: cs) =
  Some (delete (root ++ archpath) fs', Returns None, []).
Proof.
  intros Harch Hcol Hcr Hcreate Hne Hlen Hcan Hext Hprov Hdel.
  assert (Hrep : forall b, b ∈ Http.replaced path Http.slash "_"%byte -> b = "_"%byte \/ b ∈ path).
  { intros b Hb. apply list_elem_of_fmap in Hb as (y & -> & Hy). destruct (decide _); auto. }
  assert (Hcra : x0d ∉ archpath).
  { rewrite Harch, !not_elem_of_app. split; [apply (bool_decide_unpack _); vm_compute; exact I|]. split; [|apply (bool_decide_unpack _); vm_compute; exact I].
    intros Hb. apply Hrep in Hb as [Hb|Hb]; [discriminate Hb|by apply Hcr]. }
  unfold providerHandler in Hprov. change (str "FetchArchive:" ++ path) with (str "FetchArchive" ++ colon :: path) in Hprov.
  rewrite parse_plain in Hprov by (apply (bool_decide_unpack _); vm_compute; exact I). rewrite decide_False in Hprov by discriminate.
  rewrite decide_True, Hcreate, <- Harch in Hprov by done.
  destruct (sendFile_writes (<[archpath := archive]> fsP) archpath archive) as (ps & Es & Hps); [by rewrite lookup_insert_eq|].
  rewrite Es in Hprov. cbn [fst] in Hprov. apply cons_inj in Hprov as [_ Hws]. rewrite <- Hws in Hdel.
  apply delivers_cons in Hdel as (hs & cs2 & -> & Hhs & Hnhs & Hpieces). apply delivers_concat in Hpieces as [Hcat Hnp]. rewrite Hps in Hcat by done.
  set (h1 := str "FileType" ++ colon :: str "archive:" ++ archpath).
  assert (Hr1 : readHeader aru ((makeEvent3 (str "FileType") (str "archive:" ++ archpath) HEDER_DELIM ++ HEDER_DELIM) :: hs ++ cs2) = Some (h1, hs ++ cs2)).
  { replace (makeEvent3 (str "FileType") (str "archive:" ++ archpath) HEDER_DELIM ++ HEDER_DELIM) with (h1 ++ HEDER_DELIM ++ HEDER_DELIM)
      by (unfold makeEvent3, h1; repeat rewrite <- ?app_assoc, <- ?app_comm_cons; done).
    apply (readHeader_exact h1 [] _ _ HEDER_DELIM); [|done|cbn; lia]. apply wf_header_plain. unfold h1.
    rewrite not_elem_of_app, not_elem_of_cons, not_elem_of_app. split; [apply (bool_decide_unpack _); vm_compute; exact I|].
    split; [done|]. split; [apply (bool_decide_unpack _); vm_compute; exact I|done]. }
  assert (Hinner : recieveFile aru can_write extractTarArchive (S fuel) fsC root archpath (hs ++ cs2) = Some (<[root ++ archpath := archive]> fsC, Returns None, [])).
  { rewrite <- (app_nil_r cs2). by apply content_received. }
  remember (S fuel) as fuel1. cbn [recieveFile readFor]. rewrite Hr1. rewrite (contains_prefix (str "FileType")).
  2: apply (bool_decide_unpack _); vm_compute; exact I.
  2: by exists (colon :: str "archive:" ++ archpath).
  unfold h1. rewrite parse_plain by (apply (bool_decide_unpack _); vm_compute; exact I). rewrite decide_True by done.
  change (str "archive:" ++ archpath) with (str "archive" ++ colon :: archpath). rewrite parse_plain by (apply (bool_decide_unpack _); vm_compute; exact I).
  rewrite decide_True by done. rewrite Hinner, lookup_insert_eq. change (default [] (Some archive)) with archive. by rewrite Hext.
Qed.

End archives.

(** ** The watcher *)

Definition event_path (watch_fds : gmap Z bytes) (e : inotify_event) : option bytes :=
  path ← watch_fds !! wd e; Some (if decide (iname e = []) then path else path ++ str "/" ++ iname e).

(** Of the events of one read, the last one of each path is reported. *)
Lemma watch_last watch_fds evs acc l path :
  watch watch_fds evs acc = Some l ->
  StdMap.object_get l path =
  match last (base.filter (fun e => event_path watch_fds e = Some path) evs) with
  | Some e => Some e
  | None => StdMap.object_get acc path
  end.
Proof.
  revert acc. induction evs as [|e evs IH]; intros acc; cbn [watch]; [by intros [= ->]|].
  destruct (watch_fds !! wd e) as [p|] eqn:E; [|done]. intros Hw. rewrite (IH _ Hw), filter_cons, StdMap.object_get_set.
  set (p' := if decide (iname e = []) then p else p ++ str "/" ++ iname e).
  assert (Hp : event_path watch_fds e = Some p') by (unfold event_path; by rewrite E).
  destruct (decide (event_path watch_fds e = Some path)) as [Hd|Hd].
  - rewrite Hp in Hd. injection Hd as ->. rewrite decide_True by done. rewrite last_cons.
    by destruct (last (base.filter _ evs)).
  - rewrite decide_False by congruence. done.
Qed.

(** A modification is queued once while it waits. *)
Lemma modified_queued_once q path now now' :
  find_sub (str "Barrier") (makeEvent3 (str "FileModified") path HEDER_DELIM) = None ->
  on_change (on_change q path modified now) path modified now' = on_change q path modified now.
Proof.
  intros Hb. unfold on_change. set (ev := makeEvent3 _ _ _) in *. destruct (EventQueue.eventExists q ev) eqn:E; [by rewrite E|].
  assert (H : EventQueue.eventExists (EventQueue.addEvent q ev now) ev = true); [|by rewrite H].
  unfold EventQueue.addEvent. rewrite Hb. apply bool_decide_eq_true. apply Exists_exists. exists (now, ev). split; [|done].
  apply elem_of_map_to_list. cbn. by rewrite lookup_insert_eq.
Qed.

(** ** Examples *)

Section examples.

Definition no_tar (fs : files) (p : bytes) : option bytes := None.
Definition no_untar (fs : files) (a p : bytes) : option files := None.
Definition yes (p : bytes) : bool := true.

Abbreviation consume1 := (consume read_until_ref yes no_untar yes).
Abbreviation provide1 := (provide read_until_ref no_tar).

Definition files1 : files := {[ str "/etc/a" := str "hello" ]}.
Definition event1 : bytes := makeEvent3 (str "FileModified") (str "/etc/a") HEDER_DELIM.
Definition to_consumer : list bytes := [str "FileModified:/etc"; str "/a" ++ HEDER_DELIM; str "Content-Size:5" ++ HEDER_DELIM; str "he"; str "llo"].
Definition to_provider : list bytes := [str "Fetch:/etc/a" ++ HEDER_DELIM; DONE ++ HEDER_DELIM].

Lemma file_synced_witness :
  exists fsC, consume1 (str "/root") ∅ to_consumer = Some (to_provider, fsC, true) /\ fsC = <[str "/root/etc/a" := str "hello"]> ∅.
Proof.
  destruct (consume1 (str "/root") ∅ to_consumer) as [[[wC fsC] ok]|] eqn:E.
  - assert (Hw : option_map (fun r => (r.1.1, r.2)) (consume1 (str "/root") ∅ to_consumer) = Some (to_provider, true)) by (vm_compute; reflexivity).
    rewrite E in Hw. cbn [option_map fst snd] in Hw. injection Hw as -> ->. exists fsC. split; [reflexivity|].
    refine (proj1 (file_synced yes no_tar no_untar yes files1 ∅ (str "/root") (str "/etc/a") (str "hello") to_provider to_consumer
      (provide1 files1 event1 to_provider).1.1 (provide1 files1 event1 to_provider).1.2 (provide1 files1 event1 to_provider).2 _ fsC true
      _ _ _ _ _ _ _ E _ _)).
    + reflexivity.
    + discriminate.
    + reflexivity.
    + apply (bool_decide_unpack _). vm_compute. exact I.
    + apply (bool_decide_unpack _). vm_compute. exact I.
    + reflexivity.
    + unfold event1. destruct (provide1 files1 (makeEvent3 (str "FileModified") (str "/etc/a") HEDER_DELIM) to_provider) as [[a b] c]. reflexivity.
    + exists [[str "FileModified:/etc"; str "/a" ++ HEDER_DELIM]; [str "Content-Size:5" ++ HEDER_DELIM]; [str "he"; str "llo"]].
      split; [reflexivity|]. replace (provide1 files1 event1 to_provider).1.1 with [event1; str "Content-Size:5" ++ HEDER_DELIM; str "hello"] by (vm_compute; reflexivity).
      repeat constructor; discriminate.
    + exists [[str "Fetch:/etc/a" ++ HEDER_DELIM]; [DONE ++ HEDER_DELIM]]. split; [reflexivity|]. repeat constructor; discriminate.
  - exfalso. destruct (consume_total (aru := read_until_ref) yes no_untar yes (str "/root") ∅ to_consumer) as [r Hr]. rewrite E in Hr. discriminate Hr.
Defined.

(** ** Limits *)

Definition shown (r : option (list bytes * files * bool)) : option (list bytes * option bytes * bool) :=
  match r with Some (ws, fs, ok) => Some (ws, fs !! str "/root/etc/a", ok) | None => None end.

(** The start of a file that arrives with its header is lost, and the consumer
    waits for bytes that do not come. *)
Example coalesced_header :
  shown (consume1 (str "/root") ∅ [event1; str "Content-Size:5" ++ HEDER_DELIM ++ str "he"; str "llo"]) =
  Some ([str "Fetch:/etc/a" ++ HEDER_DELIM], Some (str "llo"), false).
Proof. vm_compute. reflexivity. Qed.

(** What follows a file in its last chunk is written to the file when it fits the
    buffer: here an event that arrives with the second part of a file. *)
Example read_past_end :
  option_map (fun r => r.1.1 !! str "/root/f") (recieveFile read_until_ref yes no_untar 2 ∅ (str "/root") (str "/f")
    [str "Content-Size:5" ++ HEDER_DELIM; str "he"; str "llo" ++ event1]) =
  Some (Some (str "hello" ++ take 2 event1)).
Proof. vm_compute. reflexivity. Qed.

(** A file that was emptied stays as it is at the peer. *)
Example emptied_file_kept :
  shown (consume1 (str "/root") {[ str "/root/etc/a" := str "old" ]} [event1; str "Content-Size:0" ++ HEDER_DELIM]) =
  Some ([str "Fetch:/etc/a" ++ HEDER_DELIM; DONE ++ HEDER_DELIM], Some (str "old"), true).
Proof. vm_compute. reflexivity. Qed.

(** A path leads out of the root. *)
Example path_escapes_root :
  match consume1 (str "/root") ∅ [makeEvent3 (str "FileModified") (str "/../etc/passwd") HEDER_DELIM; str "Content-Size:1" ++ HEDER_DELIM; str "x"] with
  | Some (_, fs, ok) => Some (fs !! str "/root/../etc/passwd", ok)
  | None => None
  end = Some (Some (str "x"), true).
Proof. vm_compute. reflexivity. Qed.

(** The doubled delimiter of an archive, cut in the middle, spoils the next header. *)
Example doubled_delimiter :
  option_map (fun r => r.1.2) (recieveFile read_until_ref yes no_untar 3 ∅ (str "/root") (str "/d")
    [str "FileType:archive:/t" ++ HEDER_DELIM ++ [x0d; x0a]; [x0d; x0a]; str "Content-Size:1" ++ HEDER_DELIM; str "x"]) =
  Some (Returns (Some operation_not_supported)).
Proof. vm_compute. reflexivity. Qed.

(** A file that is replaced within one read of the watcher is only reported as
    created, which is not sent. *)
Example replaced_file_unseen :
  (l ← watch {[ 1%Z := str "/etc" ]} [mkInotify 1 false true false (str "a"); mkInotify 1 true false false (str "a")] []; Some (changes l)) =
  Some [(str "/etc/a", created)].
Proof. vm_compute. reflexivity. Qed.

End examples.
