(* ===== verification/SpdmMessages.v ===== *)
(** * The certificate messages of SPDM: [examples/spdm/include/spdm_custom_messages.hpp]

    The packed structures of the six messages, their serialisation with the
    exceptions it throws, and the constructors of messages.  A structure is what
    lies in memory: a field of one byte is a byte, a [uint32_t] is an integer of 32
    bits whose bytes are stored with the low one first. *)

From S2P Require Import Prelude.

(** ** Constants *)

Definition SPDM_PUSH_CERTIFICATE : byte := of_u8 126.
Definition SPDM_PULL_CERTIFICATE : byte := of_u8 127.
Definition SPDM_SET_PROVISIONED : byte := of_u8 125.
Definition SPDM_PUSH_CERTIFICATE_ACK : byte := of_u8 126.
Definition SPDM_PULL_CERTIFICATE_ACK : byte := of_u8 127.
Definition SPDM_SET_PROVISIONED_ACK : byte := of_u8 125.

Definition CERT_EXCHANGE_SUCCESS : byte := of_u8 0.
Definition CERT_EXCHANGE_ERROR_INVALID_CERT : byte := of_u8 1.
Definition CERT_EXCHANGE_ERROR_STORAGE_FULL : byte := of_u8 2.
Definition CERT_EXCHANGE_ERROR_NOT_FOUND : byte := of_u8 3.
Definition CERT_EXCHANGE_ERROR_INVALID_REQUEST : byte := of_u8 4.

Definition MAX_CERTIFICATE_SIZE : Z := (256 * 1024)%Z.

(** [CertificateFormat] has the two values below, but one received is whatever byte
    came. *)
Abbreviation CertificateFormat := byte (only parsing).
Definition DER : CertificateFormat := of_u8 0.
Definition PEM : CertificateFormat := of_u8 1.

(** ** The packed structures *)

Abbreviation bytes2 := (byte * byte)%type (only parsing).
Abbreviation bytes3 := (byte * byte * byte)%type (only parsing).

Record SpdmMessageHeader := { spdm_version : byte; request_response_code : byte; param1 : byte; param2 : byte }.

Record SpdmPushCertificateRequest :=
  { pushreq_header : SpdmMessageHeader; pushreq_cert_size : Z; pushreq_cert_format : byte; pushreq_reserved : bytes3 }.

Record SpdmPushCertificateResponse :=
  { pushres_header : SpdmMessageHeader; pushres_status : byte; pushres_reserved : bytes3 }.

Record SpdmPullCertificateRequest :=
  { pullreq_header : SpdmMessageHeader; pullreq_cert_format : byte; pullreq_reserved : bytes3 }.

Record SpdmPullCertificateResponse :=
  { pullres_header : SpdmMessageHeader; pullres_status : byte; pullres_cert_size : Z;
    pullres_cert_format : byte; pullres_reserved : bytes2 }.

Record SpdmSetProvisionedRequest :=
  { setreq_header : SpdmMessageHeader; provisioned : byte; setreq_reserved : bytes3 }.

Record SpdmSetProvisionedResponse :=
  { setres_header : SpdmMessageHeader; setres_status : byte; setres_reserved : bytes3 }.

(** ** Structures as bytes *)

Definition u32_bytes (z : Z) : bytes :=
  [of_u8 z; of_u8 (Z.shiftr z 8); of_u8 (Z.shiftr z 16); of_u8 (Z.shiftr z 24)].

Definition byte_at (b : bytes) (i : nat) : byte := nth i b x00.

Definition u32_at (b : bytes) (i : nat) : Z :=
  Z.lor (u8 (byte_at b i)) (Z.lor (Z.shiftl (u8 (byte_at b (1 + i))) 8)
    (Z.lor (Z.shiftl (u8 (byte_at b (2 + i))) 16) (Z.shiftl (u8 (byte_at b (3 + i))) 24))).

Definition header_bytes (h : SpdmMessageHeader) : bytes :=
  [spdm_version h; request_response_code h; param1 h; param2 h].

Definition header_at (b : bytes) : SpdmMessageHeader :=
  {| spdm_version := byte_at b 0; request_response_code := byte_at b 1; param1 := byte_at b 2; param2 := byte_at b 3 |}.

Definition bytes3_bytes (r : bytes3) : bytes := let '(a, b, c) := r in [a; b; c].
Definition bytes3_at (b : bytes) (i : nat) : bytes3 := (byte_at b i, byte_at b (1 + i), byte_at b (2 + i)).

(** A trivially copyable type: its size, its bytes and the value that bytes make;
    [pod_ok] are the values that the type has. *)
Class POD (T : Type) :=
  { sizeof : nat;
    pod_bytes : T -> bytes;
    pod_at : bytes -> T;
    pod_ok : T -> Prop;
    pod_length : forall x, length (pod_bytes x) = sizeof;
    pod_at_bytes : forall x, pod_ok x -> pod_at (pod_bytes x) = x;
    pod_bytes_at : forall b, length b = sizeof -> pod_bytes (pod_at b) = b;
    pod_at_ok : forall b, pod_ok (pod_at b) }.
#[global] Arguments sizeof T {_}.
#[global] Hint Mode POD ! : typeclass_instances.

Lemma lor_shiftl x y k : (0 <= k)%Z -> (0 <= x < 2 ^ k)%Z -> Z.lor x (Z.shiftl y k) = (x + 2 ^ k * y)%Z.
Proof.
  intros Hk Hx. assert (Z.land x (Z.shiftl y k) = 0)%Z as H0.
  { apply Z.bits_inj'. intros n Hn. rewrite Z.land_spec, Z.shiftl_spec, Z.bits_0 by done.
    destruct (decide (n < k)%Z); [rewrite (Z.testbit_neg_r y) by lia; apply andb_false_r|].
    rewrite <- (Z.mod_small x (2 ^ k)), Z.mod_pow2_bits_high by lia. done. }
  rewrite <- Z.lxor_lor, <- Z.add_nocarry_lxor, Z.shiftl_mul_pow2 by done. lia.
Qed.

(** The four bytes as a sum. *)
Lemma u32_at_sum b i :
  u32_at b i = (u8 (byte_at b i) + 256 * (u8 (byte_at b (1 + i)) + 256 * (u8 (byte_at b (2 + i)) + 256 * u8 (byte_at b (3 + i)))))%Z.
Proof.
  unfold u32_at. pose proof (u8_range (byte_at b i)). pose proof (u8_range (byte_at b (1 + i))).
  pose proof (u8_range (byte_at b (2 + i))). pose proof (u8_range (byte_at b (3 + i))).
  change 24%Z with (8 + 16)%Z. rewrite <- Z.shiftl_shiftl, <- Z.shiftl_lor by lia.
  change 16%Z with (8 + 8)%Z. rewrite <- Z.shiftl_shiftl, <- Z.shiftl_lor by lia.
  rewrite !lor_shiftl by lia. lia.
Qed.

Lemma u32_at_range b i : is_uint 32 (u32_at b i).
Proof.
  rewrite u32_at_sum. unfold is_uint. pose proof (u8_range (byte_at b i)). pose proof (u8_range (byte_at b (1 + i))).
  pose proof (u8_range (byte_at b (2 + i))). pose proof (u8_range (byte_at b (3 + i))). lia.
Qed.

Lemma u32_of_bytes b0 b1 b2 b3 z i b :
  is_uint 32 z -> u32_bytes z = [b0; b1; b2; b3] -> byte_at b i = b0 -> byte_at b (1 + i) = b1 ->
  byte_at b (2 + i) = b2 -> byte_at b (3 + i) = b3 -> u32_at b i = z.
Proof.
  unfold is_uint. intros Hz [= <- <- <- <-] H0 H1 H2 H3. rewrite u32_at_sum, H0, H1, H2, H3, !u8_of_u8, !Z.shiftr_div_pow2 by lia.
  Z.to_euclidean_division_equations. lia.
Qed.

Lemma u32_bytes_at b i :
  u32_bytes (u32_at b i) = [byte_at b i; byte_at b (1 + i); byte_at b (2 + i); byte_at b (3 + i)].
Proof.
  unfold u32_bytes. rewrite u32_at_sum. pose proof (u8_range (byte_at b i)). pose proof (u8_range (byte_at b (1 + i))).
  pose proof (u8_range (byte_at b (2 + i))). pose proof (u8_range (byte_at b (3 + i))).
  repeat (f_equal; try apply u8_eq_iff; rewrite ?u8_of_u8, ?Z.shiftr_div_pow2 by lia;
    try (Z.to_euclidean_division_equations; lia)).
Qed.

Ltac pod_parts :=
  repeat match goal with
         | x : SpdmMessageHeader |- _ => destruct x
         | x : (_ * _)%type |- _ => destruct x
         end.

(** The bytes of a list of known length are named. *)
Ltac pod_list b := repeat (destruct b as [|? b]; [discriminate|]); destruct b; [|discriminate].

#[global] Program Instance pod_push_request : POD SpdmPushCertificateRequest :=
  {| sizeof := 12;
     pod_bytes r := header_bytes (pushreq_header r) ++ u32_bytes (pushreq_cert_size r) ++ [pushreq_cert_format r] ++ bytes3_bytes (pushreq_reserved r);
     pod_at b := {| pushreq_header := header_at b; pushreq_cert_size := u32_at b 4; pushreq_cert_format := byte_at b 8; pushreq_reserved := bytes3_at b 9 |};
     pod_ok r := is_uint 32 (pushreq_cert_size r) |}.
Next Obligation. by intros [? ? ? [[??]?]]. Qed.
Next Obligation. intros [] Hz. pod_parts. simpl in *. f_equal. by eapply u32_of_bytes. Qed.
Next Obligation. intros b Hb. cbn -[u32_at u32_bytes]. rewrite u32_bytes_at. pod_list b. done. Qed.
Next Obligation. intros b. apply u32_at_range. Qed.

#[global] Program Instance pod_push_response : POD SpdmPushCertificateResponse :=
  {| sizeof := 8;
     pod_bytes r := header_bytes (pushres_header r) ++ [pushres_status r] ++ bytes3_bytes (pushres_reserved r);
     pod_at b := {| pushres_header := header_at b; pushres_status := byte_at b 4; pushres_reserved := bytes3_at b 5 |};
     pod_ok _ := True |}.
Next Obligation. by intros [? ? [[??]?]]. Qed.
Next Obligation. intros [] _. by pod_parts. Qed.
Next Obligation. intros b Hb. by pod_list b. Qed.
Next Obligation. done. Qed.

#[global] Program Instance pod_pull_request : POD SpdmPullCertificateRequest :=
  {| sizeof := 8;
     pod_bytes r := header_bytes (pullreq_header r) ++ [pullreq_cert_format r] ++ bytes3_bytes (pullreq_reserved r);
     pod_at b := {| pullreq_header := header_at b; pullreq_cert_format := byte_at b 4; pullreq_reserved := bytes3_at b 5 |};
     pod_ok _ := True |}.
Next Obligation. by intros [? ? [[??]?]]. Qed.
Next Obligation. intros [] _. by pod_parts. Qed.
Next Obligation. intros b Hb. by pod_list b. Qed.
Next Obligation. done. Qed.

#[global] Program Instance pod_pull_response : POD SpdmPullCertificateResponse :=
  {| sizeof := 12;
     pod_bytes r := header_bytes (pullres_header r) ++ [pullres_status r] ++ u32_bytes (pullres_cert_size r) ++
       [pullres_cert_format r; fst (pullres_reserved r); snd (pullres_reserved r)];
     pod_at b := {| pullres_header := header_at b; pullres_status := byte_at b 4; pullres_cert_size := u32_at b 5;
                    pullres_cert_format := byte_at b 9; pullres_reserved := (byte_at b 10, byte_at b 11) |};
     pod_ok r := is_uint 32 (pullres_cert_size r) |}.
Next Obligation. done. Qed.
Next Obligation. intros [] Hz. pod_parts. simpl in *. f_equal. by eapply u32_of_bytes. Qed.
Next Obligation. intros b Hb. cbn -[u32_at u32_bytes]. rewrite u32_bytes_at. pod_list b. done. Qed.
Next Obligation. intros b. apply u32_at_range. Qed.

#[global] Program Instance pod_set_request : POD SpdmSetProvisionedRequest :=
  {| sizeof := 8;
     pod_bytes r := header_bytes (setreq_header r) ++ [provisioned r] ++ bytes3_bytes (setreq_reserved r);
     pod_at b := {| setreq_header := header_at b; provisioned := byte_at b 4; setreq_reserved := bytes3_at b 5 |};
     pod_ok _ := True |}.
Next Obligation. by intros [? ? [[??]?]]. Qed.
Next Obligation. intros [] _. by pod_parts. Qed.
Next Obligation. intros b Hb. by pod_list b. Qed.
Next Obligation. done. Qed.

#[global] Program Instance pod_set_response : POD SpdmSetProvisionedResponse :=
  {| sizeof := 8;
     pod_bytes r := header_bytes (setres_header r) ++ [setres_status r] ++ bytes3_bytes (setres_reserved r);
     pod_at b := {| setres_header := header_at b; setres_status := byte_at b 4; setres_reserved := bytes3_at b 5 |};
     pod_ok _ := True |}.
Next Obligation. by intros [? ? [[??]?]]. Qed.
Next Obligation. intros [] _. by pod_parts. Qed.
Next Obligation. intros b Hb. by pod_list b. Qed.
Next Obligation. done. Qed.

(** ** Serialisation *)

(** The exceptions, by what their text says. *)
Inductive exn := Buffer_underflow | Size_mismatch | Buffer_too_small | Exceeds_maximum | Insufficient_data.

Abbreviation result A := (exn + A)%type (only parsing).

Definition zsize (b : bytes) : Z := Z.of_nat (length b).

(** [serializePOD] appends to the buffer. *)
Definition serializePOD {T} `{POD T} (buffer : bytes) (data : T) : bytes := buffer ++ pod_bytes data.

(** [deserializePOD]: the value and the offset after it. *)
Definition deserializePOD (T : Type) `{POD T} (data : bytes) (offset : nat) : result (T * nat) :=
  if decide (length data < offset + sizeof T) then inl Buffer_underflow
  else inr (pod_at (take (sizeof T) (drop offset data)), offset + sizeof T).

Definition serializePushCertificateRequest (request : SpdmPushCertificateRequest) (certData : bytes) : result bytes :=
  if decide (zsize certData = pushreq_cert_size request) then inr (serializePOD [] request ++ certData)
  else inl Size_mismatch.

Definition deserializePushCertificateRequest (data : bytes) : result (SpdmPushCertificateRequest * bytes) :=
  if decide (length data < sizeof SpdmPushCertificateRequest) then inl Buffer_too_small
  else match deserializePOD SpdmPushCertificateRequest data 0 with
       | inl e => inl e
       | inr (request, offset) =>
           if decide (MAX_CERTIFICATE_SIZE < pushreq_cert_size request)%Z then inl Exceeds_maximum
           else if decide (zsize data < Z.of_nat offset + pushreq_cert_size request)%Z then inl Insufficient_data
           else inr (request, take (Z.to_nat (pushreq_cert_size request)) (drop offset data))
       end.

(** Four messages are one structure and no data, and are handled alike. *)
Definition serializeMessage {T} `{POD T} (message : T) : bytes := serializePOD [] message.

Definition deserializeMessage (T : Type) `{POD T} (data : bytes) : result T :=
  if decide (length data < sizeof T) then inl Buffer_too_small
  else match deserializePOD T data 0 with inl e => inl e | inr (message, _) => inr message end.

Definition serializePushCertificateResponse (response : SpdmPushCertificateResponse) : bytes := serializeMessage response.
Definition deserializePushCertificateResponse (data : bytes) : result SpdmPushCertificateResponse := deserializeMessage SpdmPushCertificateResponse data.
Definition serializePullCertificateRequest (request : SpdmPullCertificateRequest) : bytes := serializeMessage request.
Definition deserializePullCertificateRequest (data : bytes) : result SpdmPullCertificateRequest := deserializeMessage SpdmPullCertificateRequest data.
Definition serializeSetProvisionedRequest (request : SpdmSetProvisionedRequest) : bytes := serializeMessage request.
Definition deserializeSetProvisionedRequest (data : bytes) : result SpdmSetProvisionedRequest := deserializeMessage SpdmSetProvisionedRequest data.
Definition serializeSetProvisionedResponse (response : SpdmSetProvisionedResponse) : bytes := serializeMessage response.
Definition deserializeSetProvisionedResponse (data : bytes) : result SpdmSetProvisionedResponse := deserializeMessage SpdmSetProvisionedResponse data.

Definition serializePullCertificateResponse (response : SpdmPullCertificateResponse) (certData : bytes) : result bytes :=
  if decide (zsize certData = pullres_cert_size response) then inr (serializePOD [] response ++ certData)
  else inl Size_mismatch.

Definition deserializePullCertificateResponse (data : bytes) : result (SpdmPullCertificateResponse * bytes) :=
  if decide (length data < sizeof SpdmPullCertificateResponse) then inl Buffer_too_small
  else match deserializePOD SpdmPullCertificateResponse data 0 with
       | inl e => inl e
       | inr (response, offset) =>
           if decide (MAX_CERTIFICATE_SIZE < pullres_cert_size response)%Z then inl Exceeds_maximum
           else if decide (zsize data < Z.of_nat offset + pullres_cert_size response)%Z then inl Insufficient_data
           else inr (response, take (Z.to_nat (pullres_cert_size response)) (drop offset data))
       end.

(** ** Making messages *)

Definition make_header (version code : byte) : SpdmMessageHeader :=
  {| spdm_version := version; request_response_code := code; param1 := x00; param2 := x00 |}.

Definition createPushCertificateRequest (spdmVersion : byte) (certData : bytes) (format : CertificateFormat) : result bytes :=
  serializePushCertificateRequest
    {| pushreq_header := make_header spdmVersion SPDM_PUSH_CERTIFICATE; pushreq_cert_size := wrapu 32 (zsize certData);
       pushreq_cert_format := format; pushreq_reserved := (x00, x00, x00) |} certData.

Definition createPushCertificateResponse (spdmVersion status : byte) : bytes :=
  serializePushCertificateResponse {| pushres_header := make_header spdmVersion SPDM_PUSH_CERTIFICATE_ACK; pushres_status := status;
                      pushres_reserved := (x00, x00, x00) |}.

Definition createPullCertificateRequest (spdmVersion : byte) (format : CertificateFormat) : bytes :=
  serializePullCertificateRequest {| pullreq_header := make_header spdmVersion SPDM_PULL_CERTIFICATE; pullreq_cert_format := format;
                      pullreq_reserved := (x00, x00, x00) |}.

Definition createPullCertificateResponse (spdmVersion status : byte) (certData : bytes) (format : CertificateFormat) : result bytes :=
  serializePullCertificateResponse
    {| pullres_header := make_header spdmVersion SPDM_PULL_CERTIFICATE_ACK; pullres_status := status;
       pullres_cert_size := wrapu 32 (zsize certData); pullres_cert_format := format; pullres_reserved := (x00, x00) |} certData.

Definition createSetProvisionedRequest (spdmVersion : byte) (b : bool) : bytes :=
  serializeSetProvisionedRequest {| setreq_header := make_header spdmVersion SPDM_SET_PROVISIONED; provisioned := if b then x01 else x00;
                      setreq_reserved := (x00, x00, x00) |}.

Definition createSetProvisionedResponse (spdmVersion status : byte) : bytes :=
  serializeSetProvisionedResponse {| setres_header := make_header spdmVersion SPDM_SET_PROVISIONED_ACK; setres_status := status;
                      setres_reserved := (x00, x00, x00) |}.

(** ** What is read back *)

Section pod.

Context {T : Type} `{POD T}.

Lemma deserializePOD_app (x : T) (rest : bytes) :
  pod_ok x -> deserializePOD T (pod_bytes x ++ rest) 0 = inr (x, sizeof T).
Proof.
  intros Hx. unfold deserializePOD. rewrite decide_False by (rewrite length_app, pod_length; lia).
  rewrite drop_0, take_app_length' by (symmetry; apply pod_length). by rewrite pod_at_bytes.
Qed.

Lemma deserializePOD_inv data x n :
  deserializePOD T data 0 = inr (x, n) -> pod_ok x /\ n = sizeof T /\ data = pod_bytes x ++ drop (sizeof T) data.
Proof.
  unfold deserializePOD. case_decide as Hl; [done|]. intros [= <- <-]. rewrite drop_0.
  split; [apply pod_at_ok|split; [done|]]. rewrite pod_bytes_at by (rewrite length_take; lia). by rewrite take_drop.
Qed.

Lemma deserializePOD_ok data : sizeof T <= length data -> exists x, deserializePOD T data 0 = inr (x, sizeof T).
Proof. intros Hl. unfold deserializePOD. rewrite decide_False by lia. by eexists. Qed.

(** A message without data is read exactly from the buffers that begin with its
    bytes. *)
Lemma message_exact data (x : T) :
  deserializeMessage T data = inr x <-> pod_ok x /\ exists rest, data = pod_bytes x ++ rest.
Proof.
  unfold deserializeMessage. split.
  - case_decide as Hl; [done|]. destruct (deserializePOD T data 0) as [|[y n]] eqn:Hd; [done|]. intros [= <-].
    apply deserializePOD_inv in Hd as (Hy & _ & Hd). eauto.
  - intros (Hx & rest & ->). rewrite decide_False by (rewrite length_app, pod_length; lia). by rewrite deserializePOD_app.
Qed.

Lemma message_roundtrip (x : T) : pod_ok x -> deserializeMessage T (serializeMessage x) = inr x.
Proof. intros Hx. apply message_exact. split; [done|]. exists []. by rewrite app_nil_r. Qed.

End pod.

Lemma zsize_app a b : zsize (a ++ b) = (zsize a + zsize b)%Z.
Proof. unfold zsize. rewrite length_app. lia. Qed.

Lemma zsize_pod {T} `{POD T} (x : T) : zsize (pod_bytes x) = Z.of_nat (sizeof T).
Proof. unfold zsize. by rewrite pod_length. Qed.

(** The data after a structure of [n] bytes whose size field is [z]. *)
Lemma data_after (n : nat) (z : Z) (b data : bytes) :
  length b = n -> (0 <= z)%Z -> (Z.of_nat n + z <= zsize (b ++ data))%Z ->
  exists c rest, data = c ++ rest /\ zsize c = z /\ take (Z.to_nat z) (drop n (b ++ data)) = c.
Proof.
  intros <- Hz Hl. rewrite zsize_app in Hl. unfold zsize in *. rewrite drop_app_length.
  exists (take (Z.to_nat z) data), (drop (Z.to_nat z) data). rewrite take_drop, length_take. split; [done|]. split; [lia|done].
Qed.

Lemma data_before (b c rest : bytes) :
  take (Z.to_nat (zsize c)) (drop (length b) (b ++ c ++ rest)) = c.
Proof. unfold zsize. by rewrite Nat2Z.id, drop_app_length, take_app_length. Qed.

(** Both messages with a certificate are read this way; [size] is the size field. *)
Definition read_sized (T : Type) `{POD T} (size : T -> Z) (data : bytes) : result (T * bytes) :=
  if decide (length data < sizeof T) then inl Buffer_too_small
  else match deserializePOD T data 0 with
       | inl e => inl e
       | inr (r, offset) =>
           if decide (MAX_CERTIFICATE_SIZE < size r)%Z then inl Exceeds_maximum
           else if decide (zsize data < Z.of_nat offset + size r)%Z then inl Insufficient_data
           else inr (r, take (Z.to_nat (size r)) (drop offset data))
       end.

Lemma read_sized_exact {T} `{POD T} (size : T -> Z) data r c :
  (forall r, pod_ok r -> (0 <= size r)%Z) ->
  read_sized T size data = inr (r, c) <->
  pod_ok r /\ zsize c = size r /\ (zsize c <= MAX_CERTIFICATE_SIZE)%Z /\ exists rest, data = pod_bytes r ++ c ++ rest.
Proof.
  intros Hsize. unfold read_sized. split.
  - case_decide as Hl; [done|]. destruct (deserializePOD _ data 0) as [|[q n]] eqn:Hd; [done|].
    apply deserializePOD_inv in Hd as (Hq & -> & Hd). repeat case_decide; [done..|]. intros [= <- <-].
    destruct (data_after (sizeof T) (size q) (pod_bytes q) (drop (sizeof T) data)) as (c & rest & He & Hc & Ht).
    { apply pod_length. } { by apply Hsize. } { rewrite <- Hd. lia. }
    rewrite <- Hd in Ht. rewrite Ht. split; [done|]. split; [done|]. split; [lia|]. exists rest. by rewrite <- He.
  - intros (Hr & Hc & Hmax & rest & ->). rewrite decide_False by (rewrite length_app, pod_length; lia).
    rewrite deserializePOD_app by done. rewrite !decide_False.
    + do 2 f_equal. rewrite <- Hc, <- (pod_length r). apply data_before.
    + rewrite !zsize_app, zsize_pod. unfold zsize in *. lia.
    + lia.
Qed.

(** C40: A push request is read exactly from the buffers that begin with its twelve
    bytes and then hold as many bytes of certificate as its size field says, at most
    the [MAX_CERTIFICATE_SIZE] of the code, 256 KiB (where the documents of the
    exchange say 4 MB): nothing is read past the end, the certificate is the one sent,
    and every other buffer is refused with an exception. *)
Theorem push_request_exact data r c :
  deserializePushCertificateRequest data = inr (r, c) <->
  pod_ok r /\ zsize c = pushreq_cert_size r /\ (zsize c <= MAX_CERTIFICATE_SIZE)%Z /\
  exists rest, data = pod_bytes r ++ c ++ rest.
Proof. apply (read_sized_exact pushreq_cert_size). by intros ? []. Qed.

(** The same of a pull response and the certificate in it. *)
Theorem pull_response_exact data r c :
  deserializePullCertificateResponse data = inr (r, c) <->
  pod_ok r /\ zsize c = pullres_cert_size r /\ (zsize c <= MAX_CERTIFICATE_SIZE)%Z /\
  exists rest, data = pod_bytes r ++ c ++ rest.
Proof. apply (read_sized_exact pullres_cert_size). by intros ? []. Qed.

(** ** Made and read back *)

Lemma push_request_read r c :
  pod_ok r -> zsize c = pushreq_cert_size r -> (zsize c <= MAX_CERTIFICATE_SIZE)%Z ->
  deserializePushCertificateRequest (pod_bytes r ++ c) = inr (r, c).
Proof.
  intros Hr Hc Hmax. apply (read_sized_exact pushreq_cert_size); [by intros ? []|].
  split; [done|]. split; [done|]. split; [done|]. exists []. by rewrite app_nil_r.
Qed.

Lemma pull_response_read r c :
  pod_ok r -> zsize c = pullres_cert_size r -> (zsize c <= MAX_CERTIFICATE_SIZE)%Z ->
  deserializePullCertificateResponse (pod_bytes r ++ c) = inr (r, c).
Proof.
  intros Hr Hc Hmax. apply (read_sized_exact pullres_cert_size); [by intros ? []|].
  split; [done|]. split; [done|]. split; [done|]. exists []. by rewrite app_nil_r.
Qed.

(** One whose certificate is too large is refused. *)
Lemma pull_response_large r c :
  pod_ok r -> (MAX_CERTIFICATE_SIZE < pullres_cert_size r)%Z ->
  deserializePullCertificateResponse (pod_bytes r ++ c) = inl Exceeds_maximum.
Proof.
  intros Hr Hmax. unfold deserializePullCertificateResponse. rewrite decide_False by (rewrite length_app, pod_length; lia).
  rewrite deserializePOD_app by done. by rewrite decide_True.
Qed.

Lemma zsize_wrap c : (zsize c < 2 ^ 32)%Z -> wrapu 32 (zsize c) = zsize c /\ is_uint 32 (zsize c).
Proof. intros Hc. assert (is_uint 32 (zsize c)) by (unfold is_uint, zsize in *; lia). split; [by apply wrapu_small|done]. Qed.

(** A size that 32 bits hold is written as it is; another makes an exception. *)
Lemma createPush_ok v c f :
  (zsize c < 2 ^ 32)%Z ->
  createPushCertificateRequest v c f =
  inr (pod_bytes {| pushreq_header := make_header v SPDM_PUSH_CERTIFICATE; pushreq_cert_size := zsize c;
                    pushreq_cert_format := f; pushreq_reserved := (x00, x00, x00) |} ++ c).
Proof.
  intros [Hw _]%zsize_wrap. unfold createPushCertificateRequest, serializePushCertificateRequest. cbn [pushreq_cert_size].
  rewrite Hw. by rewrite decide_True.
Qed.

Lemma createPull_ok v st c f :
  (zsize c < 2 ^ 32)%Z ->
  createPullCertificateResponse v st c f =
  inr (pod_bytes {| pullres_header := make_header v SPDM_PULL_CERTIFICATE_ACK; pullres_status := st; pullres_cert_size := zsize c;
                    pullres_cert_format := f; pullres_reserved := (x00, x00) |} ++ c).
Proof.
  intros [Hw _]%zsize_wrap. unfold createPullCertificateResponse, serializePullCertificateResponse. cbn [pullres_cert_size].
  rewrite Hw. by rewrite decide_True.
Qed.

Lemma createPull_throws v st c f :
  (2 ^ 32 <= zsize c)%Z -> createPullCertificateResponse v st c f = inl Size_mismatch.
Proof.
  intros Hc. unfold createPullCertificateResponse, serializePullCertificateResponse. cbn [pullres_cert_size].
  rewrite decide_False; [done|]. intros He. pose proof (wrapu_range 32 (zsize c) ltac:(lia)) as Hr. unfold is_uint in Hr. lia.
Qed.

(** The messages without data. *)
Lemma push_response_made v st :
  deserializePushCertificateResponse (createPushCertificateResponse v st) =
  inr {| pushres_header := make_header v SPDM_PUSH_CERTIFICATE_ACK; pushres_status := st; pushres_reserved := (x00, x00, x00) |}.
Proof. by apply message_roundtrip. Qed.

Lemma pull_request_made v f :
  deserializePullCertificateRequest (createPullCertificateRequest v f) =
  inr {| pullreq_header := make_header v SPDM_PULL_CERTIFICATE; pullreq_cert_format := f; pullreq_reserved := (x00, x00, x00) |}.
Proof. by apply message_roundtrip. Qed.

Lemma set_request_made v b :
  deserializeSetProvisionedRequest (createSetProvisionedRequest v b) =
  inr {| setreq_header := make_header v SPDM_SET_PROVISIONED; provisioned := if b then x01 else x00; setreq_reserved := (x00, x00, x00) |}.
Proof. by apply message_roundtrip. Qed.

Lemma set_response_made v st :
  deserializeSetProvisionedResponse (createSetProvisionedResponse v st) =
  inr {| setres_header := make_header v SPDM_SET_PROVISIONED_ACK; setres_status := st; setres_reserved := (x00, x00, x00) |}.
Proof. by apply message_roundtrip. Qed.

(** A certificate of at most [MAX_CERTIFICATE_SIZE] bytes put in a push request
    is read back from it, whatever it holds, with its format; and so is one put in a
    pull response, with the status too. *)
Theorem certificate_messages_roundtrip v st c f :
  (zsize c <= MAX_CERTIFICATE_SIZE)%Z ->
  (exists m r, createPushCertificateRequest v c f = inr m /\ deserializePushCertificateRequest m = inr (r, c) /\
     pushreq_cert_format r = f) /\
  (exists m r, createPullCertificateResponse v st c f = inr m /\ deserializePullCertificateResponse m = inr (r, c) /\
     pullres_status r = st /\ pullres_cert_format r = f).
Proof.
  intros Hc. assert (Hc' : (zsize c < 2 ^ 32)%Z) by (unfold MAX_CERTIFICATE_SIZE in Hc; lia).
  pose proof (zsize_wrap c Hc') as [_ Hu]. split.
  - eexists _, {| pushreq_header := make_header v SPDM_PUSH_CERTIFICATE; pushreq_cert_size := zsize c; pushreq_cert_format := f |}.
    split; [by apply createPush_ok|]. split; [|reflexivity]. by apply push_request_read.
  - eexists _, {| pullres_header := make_header v SPDM_PULL_CERTIFICATE_ACK; pullres_status := st; pullres_cert_size := zsize c; pullres_cert_format := f |}.
    split; [by apply createPull_ok|]. split; [|split; reflexivity]. by apply pull_response_read.
Qed.

Lemma certificate_messages_roundtrip_witness :
  (exists m r, createPushCertificateRequest x12 (str "cert") PEM = inr m /\
     deserializePushCertificateRequest m = inr (r, str "cert") /\ pushreq_cert_format r = PEM) /\
  (exists m r, createPullCertificateResponse x12 x00 (str "cert") PEM = inr m /\
     deserializePullCertificateResponse m = inr (r, str "cert") /\ pullres_status r = x00 /\ pullres_cert_format r = PEM).
Proof. apply (certificate_messages_roundtrip x12 x00 (str "cert") PEM). vm_compute. discriminate. Defined.

Example push_bytes :
  createPushCertificateRequest x12 [x41; x42] PEM = inr [x12; x7e; x00; x00; x02; x00; x00; x00; x01; x00; x00; x00; x41; x42].
Proof. vm_compute. reflexivity. Qed.

(** The size field of a pull response lies at an odd offset. *)
Example pull_bytes :
  createPullCertificateResponse x12 x00 [x41] DER = inr [x12; x7f; x00; x00; x00; x01; x00; x00; x00; x00; x00; x00; x41].
Proof. vm_compute. reflexivity. Qed.
