(* ===== verification/TrustStore.v ===== *)
(** * The certificate trust store: [FileCertificateTrustStore] of
      [examples/spdm/include/spdm_custom_messages.hpp]

    Certificates are files of one directory; beside them lie symbolic links named
    by the hash of a certificate's subject, as OpenSSL looks them up.  The file
    system is a map from paths to files and links: one path names one place, and
    the directories are there.  Whether the disk takes a file, a link or a removal,
    and what OpenSSL makes of the bytes of a certificate, are parameters. *)

From S2P Require Import Prelude SpdmMessages.

(** ** Paths *)

Definition slash : byte := of_u8 47.
Definition dot : byte := of_u8 46.
Definition is_byte (a b : byte) : bool := bool_decide (a = b).

(** What lies before and after the last occurrence of a byte. *)
Fixpoint split_last (a : byte) (p : bytes) : option (bytes * bytes) :=
  match p with
  | [] => None
  | b :: p' => match split_last a p' with
               | Some (l, r) => Some (b :: l, r)
               | None => if is_byte a b then Some ([], p') else None
               end
  end.

Fixpoint strip_slashes (p : bytes) : bytes :=
  match p with
  | [] => []
  | b :: p' => match strip_slashes p' with [] => if is_byte slash b then [] else [b] | q => b :: q end
  end.

(** [std::filesystem::path]: [filename], [parent_path], [stem] and [operator/]. *)
Definition filename (p : bytes) : bytes := match split_last slash p with Some (_, f) => f | None => p end.

Definition absolute (p : bytes) : bool := match p with b :: _ => is_byte slash b | [] => false end.

Definition parent_path (p : bytes) : bytes :=
  match split_last slash p with
  | Some (d, _) => match strip_slashes d with [] => if absolute p then [slash] else [] | d => d end
  | None => []
  end.

Definition stem (p : bytes) : bytes :=
  let f := filename p in
  if decide (f = [dot] \/ f = [dot; dot]) then f
  else match split_last dot f with Some ((_ :: _) as s, _) => s | _ => f end.

Definition join (d n : bytes) : bytes :=
  if absolute n then n
  else match d with
       | [] => n
       | _ => match last d with Some b => if is_byte slash b then d ++ n else d ++ slash :: n | None => n end
       end.

(** ** The file system *)

Inductive node := File (contents : bytes) | Symlink (target : bytes).

Abbreviation files := (gmap bytes node).

(** A path with the links followed; the kernel follows forty. *)
Fixpoint follow (fuel : nat) (fs : files) (p : bytes) : bytes :=
  match fs !! p with
  | Some (Symlink t) => match fuel with 0 => p | S fuel => follow fuel fs (join (parent_path p) t) end
  | _ => p
  end.

Definition resolve (fs : files) (p : bytes) : bytes := follow 40 fs p.

(** The file a path leads to. *)
Definition contents_of (fs : files) (p : bytes) : option bytes :=
  match fs !! resolve fs p with Some (File c) => Some c | _ => None end.

(** [fs::exists] *)
Definition exists_ (fs : files) (p : bytes) : bool := match contents_of fs p with Some _ => true | None => false end.

(** What the disk does with a file that is written: it is not opened, only some of
    the bytes arrive, or all. *)
Inductive outcome := NotOpened | Partly (n : nat) | Written.

(** The hexadecimal digits of a hash, at least eight. *)
Definition hex_digit (z : Z) : byte := nth (Z.to_nat z) (str "0123456789abcdef") x00.

Fixpoint to_hex (fuel : nat) (z : Z) : bytes :=
  match fuel with
  | 0 => []
  | S fuel => (if (z <? 16)%Z then [] else to_hex fuel (z / 16)%Z) ++ [hex_digit (z mod 16)%Z]
  end.

Definition hashStr (hash : Z) : bytes := let h := to_hex 16 hash in repeat (of_u8 48) (8 - length h) ++ h.

Definition hash_path (certDir : bytes) (hash : Z) (index : nat) : bytes :=
  join certDir (hashStr hash ++ [dot] ++ to_dec 3 (Z.of_nat index)).

(** ** Names of one directory *)

Lemma split_last_app a l r : a ∉ r -> split_last a (l ++ a :: r) = Some (l, r).
Proof.
  intros Hr. assert (Hn : split_last a r = None).
  { induction r as [|b r IH]; [done|]. simpl. rewrite IH by set_solver. unfold is_byte. rewrite bool_decide_false by set_solver. done. }
  induction l as [|b l IH]; simpl; [|by rewrite IH]. rewrite Hn. unfold is_byte. by rewrite bool_decide_true.
Qed.

Lemma strip_none d b : b <> slash -> strip_slashes (d ++ [b]) = d ++ [b].
Proof.
  intros Hb. induction d as [|c d IH]; simpl; [unfold is_byte; by rewrite bool_decide_false|].
  rewrite IH. by destruct d.
Qed.

(** A path of the store is its directory and its name. *)
Definition plain (identifier : bytes) : Prop := slash ∉ identifier.
Definition plain_dir (d : bytes) : Prop := exists l b, d = l ++ [b] /\ b <> slash.

Lemma path_parts d n : plain_dir d -> slash ∉ n ->
  parent_path (d ++ slash :: n) = d /\ filename (d ++ slash :: n) = n /\ join d n = d ++ slash :: n.
Proof.
  intros (l & b & Hd & Hb) Hn. unfold parent_path, filename. rewrite split_last_app by done. rewrite Hd, strip_none by done.
  split; [by destruct l|]. split; [done|]. unfold join. rewrite last_snoc.
  assert (absolute n = false) as -> by (destruct n; [done|]; simpl; unfold is_byte; rewrite bool_decide_false; [done|set_solver]).
  unfold is_byte at 1. rewrite bool_decide_false by done. by destruct l.
Qed.

Lemma to_hex_plain fuel z : (0 <= z)%Z -> slash ∉ to_hex fuel z.
Proof.
  revert z. induction fuel as [|fuel IH]; intros z Hz; simpl; [set_solver|]. rewrite not_elem_of_app. split.
  - destruct (z <? 16)%Z; [set_solver|]. apply IH. apply Z.div_pos; lia.
  - assert (forall k, k < 16 -> slash <> nth k (str "0123456789abcdef") x00) as Hk.
    { intros k Hk. do 16 (destruct k as [|k]; [by vm_compute|]). lia. }
    rewrite list_elem_of_singleton. apply Hk. pose proof (Z.mod_pos_bound z 16). lia.
Qed.

Lemma hash_name_plain h i : (0 <= h)%Z -> slash ∉ hashStr h ++ [dot] ++ to_dec 3 (Z.of_nat i).
Proof.
  intros Hh. unfold hashStr. rewrite !not_elem_of_app. split_and!; [|by apply to_hex_plain|by rewrite list_elem_of_singleton|].
  - intros Hin%list_elem_of_In%repeat_spec. done.
  - intros Hin. pose proof (to_dec_digits 3 (Z.of_nat i) ltac:(lia)) as Hd. rewrite Forall_forall in Hd. by specialize (Hd _ Hin).
Qed.

Lemma path_plain identifier format : plain identifier ->
  slash ∉ identifier ++ (if decide (format = PEM) then str ".pem" else str ".der").
Proof.
  intros Hid. rewrite not_elem_of_app. split; [done|]. case_decide; intros Hin%list_elem_of_In; vm_compute in Hin; intuition discriminate.
Qed.

(** ** The operations *)

Section store.

Context (disk : bytes -> bytes -> outcome) (can_read can_link can_remove : bytes -> bool).
Context {X509 : Type} (d2i_X509_bio PEM_read_bio_X509 : bytes -> option X509) (X509_subject_name_hash : X509 -> Z).

(** An output stream opened, written and closed: the files, and whether it is good. *)
Definition write_file (fs : files) (p contents : bytes) : files * bool :=
  let q := resolve fs p in
  match fs !! q with
  | Some (Symlink _) => (fs, false)
  | _ => match disk q contents with
         | NotOpened => (fs, false)
         | Partly n => (<[q := File (take n contents)]> fs, false)
         | Written => (<[q := File contents]> fs, true)
         end
  end.

Context (storePath_ : bytes).

Definition getCertificatePath (identifier : bytes) (format : CertificateFormat) : bytes :=
  storePath_ ++ [slash] ++ identifier ++ (if decide (format = PEM) then str ".pem" else str ".der").

(** The loop that looks for a free index: the path and the index after it. *)
Fixpoint next_index (fuel : nat) (fs : files) (certDir : bytes) (hash : Z) (index : nat) : bytes * nat :=
  let hashFilePath := hash_path certDir hash index in
  match fuel with
  | 0 => (hashFilePath, S index)
  | S fuel => if exists_ fs hashFilePath && (S index <? 100) then next_index fuel fs certDir hash (S index)
              else (hashFilePath, S index)
  end.

(** [create_symlink] fails when anything has the name, a link to nothing too. *)
Definition create_symlink (fs : files) (target p : bytes) : files * bool :=
  match fs !! p with
  | Some _ => (fs, false)
  | None => if can_link p then (<[p := Symlink target]> fs, true) else (fs, false)
  end.

Definition createCertificateHashFile (fs : files) (cert : option X509) (certPath : bytes) : files * bool :=
  match cert with
  | None => (fs, false)
  | Some cert =>
      let '(hashFilePath, index) := next_index 100 fs (parent_path certPath) (X509_subject_name_hash cert) 0 in
      if 100 <=? index then (fs, false) else create_symlink fs (filename certPath) hashFilePath
  end.

Definition parseCertificate (cert : bytes) (format : CertificateFormat) : option X509 :=
  if decide (format = PEM) then PEM_read_bio_X509 cert else d2i_X509_bio cert.

Definition storeCertificate (fs : files) (cert : bytes) (format : CertificateFormat) (identifier : bytes) : files * (bool * bytes) :=
  if decide (cert = [] \/ identifier = []) then (fs, (false, []))
  else if decide (MAX_CERTIFICATE_SIZE < zsize cert)%Z then (fs, (false, []))
  else
    let certPath := getCertificatePath identifier format in
    match write_file fs certPath cert with
    | (fs, false) => (fs, (false, []))
    | (fs, true) =>
        match parseCertificate cert format with
        | Some x509 => ((createCertificateHashFile fs (Some x509) certPath).1, (true, certPath))
        | None => (fs, (true, certPath))
        end
    end.

Definition retrieveCertificate (fs : files) (identifier : bytes) (format : CertificateFormat) : bytes :=
  if decide (identifier = []) then []
  else match contents_of fs (getCertificatePath identifier format) with
       | None => []
       | Some c => if decide (MAX_CERTIFICATE_SIZE < zsize c)%Z then []
                   else if can_read (getCertificatePath identifier format) then c else []
       end.

Definition hasCertificate (fs : files) (identifier : bytes) : bool :=
  if decide (identifier = []) then false
  else exists_ fs (getCertificatePath identifier PEM) || exists_ fs (getCertificatePath identifier DER).

(** [entries] are the paths that the directory iterator gives, in its order. *)
Definition listCertificates (fs : files) (entries : list bytes) : list bytes :=
  foldl (fun certificates p =>
    if exists_ fs p then if decide (stem p ∈ certificates) then certificates else certificates ++ [stem p]
    else certificates) [] entries.

(** [fs::remove] of a file that is there, which may throw; a link itself goes. *)
Definition remove_there (fs : files) (p : bytes) : option (files * bool) :=
  if exists_ fs p then if can_remove p then Some (delete p fs, true) else None else Some (fs, false).

Definition removeCertificate (fs : files) (identifier : bytes) : files * bool :=
  if decide (identifier = []) then (fs, false)
  else match remove_there fs (getCertificatePath identifier PEM) with
       | None => (fs, false)
       | Some (fs, removed) =>
           match remove_there fs (getCertificatePath identifier DER) with
           | None => (fs, false)
           | Some (fs, removed') => (fs, removed || removed')
           end
       end.

(** ** Links *)

(** More files leave a path that leads to a file where it led. *)
Lemma follow_mono n fs fs' p c :
  fs ⊆ fs' -> fs !! follow n fs p = Some (File c) -> follow n fs' p = follow n fs p.
Proof.
  intros Hsub. revert p. induction n as [|n IH]; intros p; simpl; destruct (fs !! p) as [[]|] eqn:Hp; intros Hf;
    try congruence; rewrite (lookup_weaken _ _ _ _ Hp Hsub); auto.
Qed.

Lemma contents_mono fs fs' p c : fs ⊆ fs' -> contents_of fs p = Some c -> contents_of fs' p = Some c.
Proof.
  unfold contents_of, resolve. intros Hsub. destruct (fs !! follow 40 fs p) as [[]|] eqn:Hp; [|done..].
  intros [= ->]. erewrite follow_mono by done. by rewrite (lookup_weaken _ _ _ _ Hp Hsub).
Qed.

Lemma exists_mono fs fs' p : fs ⊆ fs' -> exists_ fs p = true -> exists_ fs' p = true.
Proof.
  unfold exists_. intros Hsub. destruct (contents_of fs p) eqn:Hc; [|done]. by rewrite (contents_mono _ _ _ _ Hsub Hc).
Qed.

Lemma exists_delete fs p q : exists_ fs p = false -> exists_ (delete q fs) p = false.
Proof.
  intros Hp. apply not_true_is_false. intros He. rewrite (exists_mono _ fs p (delete_subseteq fs q) He) in Hp. done.
Qed.

(** A path leads to the place it led to once a file is there. *)
Lemma follow_insert n fs p c :
  (forall t, fs !! follow n fs p <> Some (Symlink t)) -> follow n (<[follow n fs p := File c]> fs) p = follow n fs p.
Proof.
  revert p. induction n as [|n IH]; intros p; simpl; destruct (fs !! p) as [[|t]|] eqn:Hp; intros Hf;
    rewrite ?lookup_insert_eq; try done.
  destruct (decide (p = follow n fs (join (parent_path p) t))) as [He|Hne].
  - exfalso. apply (Hf t). by rewrite <- He.
  - rewrite lookup_insert_ne by done. rewrite Hp. auto.
Qed.

Lemma write_file_true fs p c fs' :
  write_file fs p c = (fs', true) ->
  disk (resolve fs p) c = Written /\ fs' = <[resolve fs p := File c]> fs /\ contents_of fs' p = Some c.
Proof.
  unfold write_file. intros Hw. destruct (fs !! resolve fs p) as [[]|] eqn:Hp; [|by simplify_eq|];
    destruct (disk (resolve fs p) c) eqn:Hd; simplify_eq; (split; [done|split; [done|]]);
    unfold contents_of, resolve in *; rewrite follow_insert by congruence; by rewrite lookup_insert_eq.
Qed.

(** ** Hash links *)

Lemma create_symlink_sub fs t p : fs ⊆ (create_symlink fs t p).1.
Proof.
  unfold create_symlink. destruct (fs !! p) eqn:Hp; [done|]. destruct (can_link p); [|done]. by apply insert_subseteq.
Qed.

Lemma createHash_sub fs x p : fs ⊆ (createCertificateHashFile fs x p).1.
Proof.
  unfold createCertificateHashFile. destruct x; [|done]. destruct (next_index _ _ _ _ _) as [h i].
  case_match; [done|]. apply create_symlink_sub.
Qed.

(** The search stops at the first index that is free, or after the hundredth. *)
Lemma next_index_spec fuel fs d h i j :
  i <= j < 99 -> j - i < fuel -> (forall k, i <= k < j -> exists_ fs (hash_path d h k) = true) ->
  exists_ fs (hash_path d h j) = false -> next_index fuel fs d h i = (hash_path d h j, S j).
Proof.
  revert i. induction fuel as [|fuel IH]; intros i Hj Hf Hex Hfree; [lia|]. cbn [next_index].
  destruct (decide (i = j)) as [->|Hne]; [by rewrite Hfree|]. rewrite Hex by lia.
  rewrite (proj2 (Nat.ltb_lt (S i) 100)) by lia. apply IH; auto with lia.
Qed.

(** ** Storing *)

(** What decides whether a certificate is stored. *)
Definition storable (fs : files) (cert : bytes) (format : CertificateFormat) (identifier : bytes) : Prop :=
  cert <> [] /\ identifier <> [] /\ (zsize cert <= MAX_CERTIFICATE_SIZE)%Z /\
  (write_file fs (getCertificatePath identifier format) cert).2 = true.

Lemma store_cases fs cert format identifier fs' r :
  storeCertificate fs cert format identifier = (fs', r) ->
  (storable fs cert format identifier /\ r = (true, getCertificatePath identifier format) /\
     exists fs1, write_file fs (getCertificatePath identifier format) cert = (fs1, true) /\ fs1 ⊆ fs') \/
  (~ storable fs cert format identifier /\ r = (false, [])).
Proof.
  clear can_read can_remove.
  unfold storeCertificate, storable. case_decide; [intros; simplify_eq; right; split; [tauto|done]|].
  case_decide; [intros; simplify_eq; right; split; [intros; lia|done]|].
  destruct (write_file _ _ _) as [fs1 []] eqn:Hw; [left|intros; simplify_eq; right; split; [naive_solver|done]].
  split; [split_and!; auto with lia|]. destruct (parseCertificate _ _); simplify_eq; (split; [done|]); eexists; (split; [done|]);
    [apply createHash_sub|done].
Qed.

Lemma path_format identifier format :
  getCertificatePath identifier format = getCertificatePath identifier PEM \/
  getCertificatePath identifier format = getCertificatePath identifier DER.
Proof. unfold getCertificatePath. case_decide; [left|right]; done. Qed.

Lemma exists_has fs identifier format :
  identifier <> [] -> exists_ fs (getCertificatePath identifier format) = true -> hasCertificate fs identifier = true.
Proof.
  intros Hid He. unfold hasCertificate. rewrite decide_False by done.
  destruct (path_format identifier format) as [<-|<-]; rewrite He; [done|]. apply orb_true_r.
Qed.

Lemma write_file_frame fs p c fs' b q n :
  write_file fs p c = (fs', b) -> q <> resolve fs p -> fs !! q = Some n -> fs' !! q = Some n.
Proof.
  unfold write_file. intros Hw Hq Hn. destruct (fs !! resolve fs p) as [[]|], (disk (resolve fs p) c); simplify_eq;
    rewrite ?lookup_insert_ne by done; done.
Qed.

Lemma store_written fs cert format identifier fs' path :
  storeCertificate fs cert format identifier = (fs', (true, path)) ->
  path = getCertificatePath identifier format /\ contents_of fs' path = Some cert.
Proof.
  intros [(Hs & Hr & fs1 & Hw & Hsub)|(_ & ?)]%store_cases; [|done]. simplify_eq. split; [done|].
  apply write_file_true in Hw as (_ & _ & Hc). by eapply contents_mono.
Qed.

Lemma store_true_inv fs cert format identifier fs' path :
  storeCertificate fs cert format identifier = (fs', (true, path)) ->
  exists fs1, write_file fs (getCertificatePath identifier format) cert = (fs1, true) /\
    fs' = match parseCertificate cert format with
          | Some x => (createCertificateHashFile fs1 (Some x) (getCertificatePath identifier format)).1
          | None => fs1
          end.
Proof.
  unfold storeCertificate. case_decide; [by intros [=]|]. case_decide; [by intros [=]|].
  destruct (write_file _ _ _) as [fs2 []]; [|by intros [=]]. destruct (parseCertificate _ _); intros [= <- _]; by exists fs2.
Qed.

(** A certificate is stored exactly when it and its identifier are not empty, it
    has at most [MAX_CERTIFICATE_SIZE] bytes and its file can be written; it is then
    read back as it was, in its format, and whether or not it is stored no other
    file or link is touched. *)
Theorem store_retrieve fs cert format identifier fs' ok path :
  storeCertificate fs cert format identifier = (fs', (ok, path)) ->
  (ok = true <-> storable fs cert format identifier) /\
  (ok = true -> path = getCertificatePath identifier format /\ hasCertificate fs' identifier = true /\
     (can_read path = true -> retrieveCertificate fs' identifier format = cert)) /\
  (forall p n, p <> resolve fs (getCertificatePath identifier format) -> fs !! p = Some n -> fs' !! p = Some n).
Proof.
  intros Hst. pose proof (store_cases _ _ _ _ _ _ Hst) as Hcases. split_and!.
  - destruct Hcases as [(Hs & [= -> _] & _)|[Hs [= -> _]]]; (split; [|done]); by intros.
  - intros ->. destruct (store_written _ _ _ _ _ _ Hst) as [-> Hc]. destruct Hcases as [((Hne & Hid & Hmax & _) & _)|[_ ?]]; [|done].
    split; [done|]. split; [apply (exists_has _ _ format); [done|]; unfold exists_; by rewrite Hc|].
    intros Hr. unfold retrieveCertificate. rewrite decide_False, Hc, decide_False, Hr by (done || lia). done.
  - intros p n Hp Hn. revert Hst. unfold storeCertificate. case_decide; [by intros; simplify_eq|].
    case_decide; [by intros; simplify_eq|]. destruct (write_file _ _ _) as [fs1 b] eqn:Hw.
    pose proof (write_file_frame _ _ _ _ _ _ _ Hw Hp Hn) as Hn1. destruct b; [|by intros; simplify_eq].
    destruct (parseCertificate _ _); intros; simplify_eq; [|done]. eapply lookup_weaken; [done|apply createHash_sub].
Qed.

(** ** Removing and listing *)

Lemma exists_deleted fs p : exists_ (delete p fs) p = false.
Proof. unfold exists_, contents_of, resolve. simpl. by rewrite lookup_delete_eq, lookup_delete_eq. Qed.

Lemma remove_there_spec fs p :
  can_remove p = true ->
  exists fs', remove_there fs p = Some (fs', exists_ fs p) /\ exists_ fs' p = false /\ fs' ⊆ fs /\
    (exists_ fs p = false -> fs' = fs) /\ forall q, q <> p -> fs' !! q = fs !! q.
Proof.
  intros Hr. unfold remove_there. rewrite Hr. destruct (exists_ fs p) eqn:He.
  - exists (delete p fs). split; [done|]. split; [apply exists_deleted|]. split; [apply delete_subseteq|].
    split; [done|]. intros q Hq. by rewrite lookup_delete_ne.
  - exists fs. by rewrite He.
Qed.

Lemma retrieve_none fs identifier format :
  hasCertificate fs identifier = false -> retrieveCertificate fs identifier format = [].
Proof.
  intros Hh. unfold retrieveCertificate. case_decide; [done|]. destruct (contents_of _ _) eqn:Hc; [|done].
  rewrite (exists_has fs identifier format) in Hh; [done..|]. unfold exists_. by rewrite Hc.
Qed.

(** When removals succeed, removing an identifier reports whether there was a
    certificate, leaves none in either format, and leaves every other file and link
    where it was. *)
Theorem remove_correct fs identifier fs' removed :
  (forall p, can_remove p = true) -> removeCertificate fs identifier = (fs', removed) ->
  removed = hasCertificate fs identifier /\ hasCertificate fs' identifier = false /\
  (forall format, retrieveCertificate fs' identifier format = []) /\
  (forall p, p <> getCertificatePath identifier PEM -> p <> getCertificatePath identifier DER -> fs' !! p = fs !! p).
Proof.
  intros Hr. unfold removeCertificate. destruct (decide (identifier = [])) as [->|Hid].
  { intros [= -> <-]. assert (hasCertificate fs' [] = false) as Hh by (unfold hasCertificate; by rewrite decide_True).
    rewrite Hh. split; [done|split; [done|split; [intros; by apply retrieve_none|done]]]. }
  destruct (remove_there_spec fs (getCertificatePath identifier PEM)) as (fs1 & -> & He1 & Hs1 & Hk1 & Hf1); [done|].
  destruct (remove_there_spec fs1 (getCertificatePath identifier DER)) as (fs2 & -> & He2 & Hs2 & Hk2 & Hf2); [done|].
  intros [= <- <-].
  assert (hasCertificate fs2 identifier = false) as Hh.
  { unfold hasCertificate. rewrite decide_False, He2, orb_false_r by done. apply not_true_is_false.
    intros He. by rewrite (exists_mono _ _ _ Hs2 He) in He1. }
  split; [|split; [done|split; [intros; by apply retrieve_none|intros; by rewrite Hf2, Hf1]]].
  unfold hasCertificate. rewrite decide_False by done. destruct (exists_ fs (getCertificatePath identifier PEM)) eqn:He; [done|].
  by rewrite Hk1.
Qed.

(** The list of certificates has no duplicates and holds exactly the stems of
    the entries that lead to a file. *)
Theorem list_correct fs entries :
  NoDup (listCertificates fs entries) /\
  forall s, s ∈ listCertificates fs entries <-> exists p, p ∈ entries /\ exists_ fs p = true /\ s = stem p.
Proof.
  unfold listCertificates. induction entries as [|p entries IH] using rev_ind; [split; [constructor|set_solver]|].
  rewrite foldl_app. cbn [foldl]. destruct IH as [Hnd Hin]. destruct (exists_ fs p) eqn:He.
  - case_decide as Hp; (split; [try done|intros s]).
    + rewrite Hin in *. setoid_rewrite elem_of_app. setoid_rewrite list_elem_of_singleton. naive_solver.
    + apply NoDup_app. split; [done|]. split; [|apply NoDup_singleton]. intros s Hs ->%list_elem_of_singleton. done.
    + rewrite elem_of_app, Hin, list_elem_of_singleton. setoid_rewrite elem_of_app. setoid_rewrite list_elem_of_singleton. naive_solver.
  - split; [done|]. intros s. rewrite Hin. setoid_rewrite elem_of_app. setoid_rewrite list_elem_of_singleton. naive_solver congruence.
Qed.

(** ** The link of a stored certificate *)

(** A link of the store to a file beside it leads there. *)
Lemma link_leads fs n n' c :
  plain_dir storePath_ -> slash ∉ n -> slash ∉ n' ->
  fs !! (storePath_ ++ slash :: n) = Some (Symlink n') -> fs !! (storePath_ ++ slash :: n') = Some (File c) ->
  contents_of fs (storePath_ ++ slash :: n) = Some c.
Proof.
  intros Hd Hn Hn' Hl Hf. destruct (path_parts _ n Hd Hn) as (Hp & _). destruct (path_parts _ n' Hd Hn') as (_ & _ & Hj).
  unfold contents_of, resolve. cbn [follow]. by rewrite Hl, Hp, Hj, Hf, Hf.
Qed.

(** A certificate that OpenSSL can parse, stored where no link stands, can be
    found by the hash of its subject afterwards: if the first free index below 99 is
    [j] and nothing has that name, the link [<hash>.j] is made and leads to the
    certificate. *)
Theorem stored_by_hash fs cert format identifier x fs' path j :
  let hash := X509_subject_name_hash x in
  plain_dir storePath_ -> plain identifier -> (0 <= hash)%Z ->
  storeCertificate fs cert format identifier = (fs', (true, path)) -> parseCertificate cert format = Some x ->
  resolve fs path = path -> j < 99 ->
  (forall k, k < j -> exists_ (<[path := File cert]> fs) (hash_path storePath_ hash k) = true) ->
  <[path := File cert]> fs !! hash_path storePath_ hash j = None -> can_link (hash_path storePath_ hash j) = true ->
  fs' !! hash_path storePath_ hash j = Some (Symlink (filename path)) /\ contents_of fs' (hash_path storePath_ hash j) = Some cert.
Proof.
  intros hash Hd Hid Hh Hst Hx Hres Hj Hbelow Hfree Hlink.
  pose proof (store_written _ _ _ _ _ _ Hst) as [Hpath _].
  destruct (path_parts _ _ Hd (path_plain identifier format Hid)) as (Hpar & Hfile & _).
  destruct (path_parts _ _ Hd (hash_name_plain hash j Hh)) as (_ & _ & Hjoin).
  change (storePath_ ++ slash :: identifier ++ _) with (getCertificatePath identifier format) in Hpar, Hfile.
  rewrite <- Hpath in Hpar, Hfile.
  set (fs1 := <[path := File cert]> fs) in *.
  assert (Hfree' : exists_ fs1 (hash_path storePath_ hash j) = false).
  { unfold exists_, contents_of, resolve. cbn [follow]. by rewrite Hfree, Hfree. }
  assert (fs' = <[hash_path storePath_ hash j := Symlink (filename path)]> fs1) as ->.
  { destruct (store_true_inv _ _ _ _ _ _ Hst) as (fs2 & Hw & ->). rewrite <- Hpath in *.
    apply write_file_true in Hw as (_ & -> & _). rewrite Hres. fold fs1. rewrite Hx.
    unfold createCertificateHashFile. fold hash. rewrite Hpar.
    rewrite (next_index_spec 100 fs1 storePath_ hash 0 j) by (done || lia || (intros; apply Hbelow; lia)).
    rewrite (proj2 (Nat.leb_gt 100 (S j))) by lia. unfold create_symlink. by rewrite Hfree, Hlink. }
  split; [by rewrite lookup_insert_eq|]. unfold hash_path in *. rewrite Hjoin in *.
  eapply link_leads; [done|by apply hash_name_plain| |by rewrite lookup_insert_eq|].
  - rewrite Hfile. by apply path_plain.
  - rewrite Hfile. change (storePath_ ++ slash :: identifier ++ _) with (getCertificatePath identifier format). rewrite <- Hpath.
    rewrite lookup_insert_ne; [apply lookup_insert_eq|]. intros He. rewrite He in Hfree. unfold fs1 in Hfree.
    by rewrite lookup_insert_eq in Hfree.
Qed.

End store.

(** ** Witnesses and limits *)

Module Sample.

(** A disk that takes everything, and certificates whose subject is their first
    byte. *)
Definition disk (_ _ : bytes) : outcome := Written.
Definition yes (_ : bytes) : bool := true.
Definition parse (c : bytes) : option Z := match c with b :: _ => Some (u8 b) | [] => None end.
Definition store := storeCertificate disk yes parse parse (fun h => h) (str "/ts").
Definition retrieve := retrieveCertificate yes (str "/ts").
Definition remove := removeCertificate yes (str "/ts").

Definition fs1 : files := (store ∅ (str "Alice") PEM (str "a")).1.

Lemma snd_eq {A B} (x : A * B) b : x.2 = b -> x = (x.1, b).
Proof. destruct x. simpl. by intros ->. Qed.

(** The links of a file system. *)
Definition links (fs : files) : list (bytes * bytes) :=
  omap (fun '(p, n) => match n with Symlink t => Some (p, t) | File _ => None end) (map_to_list fs).

Lemma store_retrieve_witness :
  retrieveCertificate yes (str "/ts") fs1 (str "a") PEM = str "Alice" /\ hasCertificate (str "/ts") fs1 (str "a") = true.
Proof.
  destruct (store_retrieve disk yes yes parse parse (fun h => h) (str "/ts") ∅ (str "Alice") PEM (str "a") fs1 true
              (getCertificatePath (str "/ts") (str "a") PEM)) as (_ & Hok & _).
  { apply snd_eq. vm_compute. reflexivity. }
  destruct (Hok eq_refl) as (_ & Hh & Hr). split; [exact (Hr eq_refl)|exact Hh].
Defined.

Lemma remove_correct_witness :
  hasCertificate (str "/ts") (remove fs1 (str "a")).1 (str "a") = false.
Proof.
  destruct (remove_correct yes yes (str "/ts") fs1 (str "a") (remove fs1 (str "a")).1 true) as (_ & Hh & _).
  - reflexivity.
  - apply snd_eq. vm_compute. reflexivity.
  - exact Hh.
Defined.

Lemma stored_by_hash_witness :
  contents_of fs1 (hash_path (str "/ts") 65 0) = Some (str "Alice").
Proof.
  destruct (stored_by_hash disk yes parse parse (fun h => h) (str "/ts") ∅ (str "Alice") PEM (str "a") 65%Z fs1
              (getCertificatePath (str "/ts") (str "a") PEM) 0) as [_ Hc].
  - exists (str "/t"), x73. split; [reflexivity|discriminate].
  - unfold plain. intros Hin%list_elem_of_In. vm_compute in Hin. destruct Hin as [Hin|[]]. discriminate.
  - lia.
  - apply snd_eq. vm_compute. reflexivity.
  - reflexivity.
  - vm_compute. reflexivity.
  - lia.
  - intros k Hk. lia.
  - vm_compute. reflexivity.
  - reflexivity.
  - exact Hc.
Defined.

(** Storing the same certificate again takes another link each time. *)
Example links_pile_up :
  let fs2 := (store fs1 (str "Alice") PEM (str "a")).1 in
  let fs3 := (store fs2 (str "Alice") PEM (str "a")).1 in
  map (fun l => fst l) (links fs3) ≡ₚ [str "/ts/00000041.0"; str "/ts/00000041.1"; str "/ts/00000041.2"].
Proof. vm_compute. solve_Permutation. Qed.

(** The hundredth time no link is made, although the name with index 99 is free; the
    certificate is reported stored all the same. *)
Example link_limit :
  let again fs := (store fs (str "Alice") PEM (str "a")).1 in
  let fs99 := Nat.iter 99 again ∅ in
  length (links fs99) = 99 /\ length (links (again fs99)) = 99 /\ (store fs99 (str "Alice") PEM (str "a")).2.1 = true /\
  exists_ fs99 (hash_path (str "/ts") 65 99) = false.
Proof. vm_compute. split_and!; reflexivity. Qed.

(** Removing a certificate leaves its link behind, which leads nowhere and keeps a
    certificate of the same subject stored later from getting one: the link is not
    seen by [exists], and cannot be made over. *)
Example removed_link_blocks :
  let fs2 := (remove fs1 (str "a")).1 in
  let fs3 := (store fs2 (str "Alicia") PEM (str "b")).1 in
  retrieve fs3 (str "b") PEM = str "Alicia" /\ links fs3 = [(str "/ts/00000041.0", str "a.pem")] /\
  contents_of fs3 (str "/ts/00000041.0") = None.
Proof. vm_compute. split_and!; reflexivity. Qed.

(** A certificate of another subject put under the same identifier is found under
    the hash of the old subject too. *)
Example stale_link :
  contents_of (store fs1 (str "Bob") PEM (str "a")).1 (str "/ts/00000041.0") = Some (str "Bob").
Proof. vm_compute. reflexivity. Qed.

(** The links are listed as certificates. *)
Example links_listed :
  listCertificates fs1 [str "/ts/a.pem"; str "/ts/00000041.0"] = [str "a"; str "00000041"] /\
  hasCertificate (str "/ts") fs1 (str "00000041") = false.
Proof. vm_compute. split_and!; reflexivity. Qed.

End Sample.
