(* ===== verification/CertExchange.v ===== *)
(** * The exchange of certificates over SPDM: [cert_exchange_handler.hpp],
      [custom_message_dispatcher.hpp], [custom_message_handlers.hpp],
      [responder_object.hpp] and [spdm_responder.hpp] of the responder,
      [cert_exchange_requester.hpp] and [spdm_certificate_client.hpp] of the
      requester, all under [examples/spdm/]

    The messages are those of [SpdmMessages.v] and the trust stores are used through
    the interface below, which [TrustStore.v] implements.  OpenSSL and the clock are
    parameters, and so is the transport between the two ends: a requester sends to
    and receives from a peer of any kind.  The last part puts the responder's
    dispatcher behind that interface. *)

From S2P Require Import Prelude SpdmMessages TrustStore.

(** ** The interface of a trust store *)

(** [CertificateTrustStore], as far as the exchange uses it, and what it promises:
    a certificate reported stored is not empty, lies in the file whose path is
    returned, and is retrieved by its identifier and format where that file can be
    read. *)
Record CertificateTrustStore :=
  { ts_store : files -> bytes -> CertificateFormat -> bytes -> files * (bool * bytes);
    ts_retrieve : files -> bytes -> CertificateFormat -> bytes;
    ts_readable : bytes -> bool;
    ts_stored : forall fs cert format identifier fs' path,
      ts_store fs cert format identifier = (fs', (true, path)) ->
      cert <> [] /\ contents_of fs' path = Some cert /\
      (ts_readable path = true -> ts_retrieve fs' identifier format = cert) }.

Lemma file_store_stored disk can_read can_link {X509} (d2i pem : bytes -> option X509) hash storePath
  fs cert format identifier fs' path :
  storeCertificate disk can_link d2i pem hash storePath fs cert format identifier = (fs', (true, path)) ->
  cert <> [] /\ contents_of fs' path = Some cert /\
  (can_read path = true -> retrieveCertificate can_read storePath fs' identifier format = cert).
Proof.
  intros Hs. pose proof (store_written _ _ _ _ _ _ _ _ _ _ _ _ Hs) as [-> Hc].
  apply store_cases in Hs as [((Hne & Hid & Hmax & _) & _)|[_ ?]]; [|done].
  split; [done|]. split; [done|]. intros Hr. unfold retrieveCertificate.
  rewrite decide_False, Hc, decide_False, Hr by (done || lia). done.
Qed.

(** [FileCertificateTrustStore] implements it. *)
Definition FileCertificateTrustStore disk can_read can_link {X509} (d2i pem : bytes -> option X509) hash
  (storePath : bytes) : CertificateTrustStore :=
  {| ts_store := storeCertificate disk can_link d2i pem hash storePath;
     ts_retrieve := retrieveCertificate can_read storePath;
     ts_readable := can_read;
     ts_stored := file_store_stored disk can_read can_link d2i pem hash storePath |}.

Section exchange.

Context {X509 ASN1_TIME : Type} (d2i_X509_bio PEM_read_bio_X509 : bytes -> option X509).
Context (X509_get0_notBefore X509_get0_notAfter : X509 -> option ASN1_TIME).

(** [X509_cmp_time]: the sign of the comparison with a time, zero on error; and the
    clock. *)
Context (X509_cmp_time : ASN1_TIME -> Z -> Z) (time : Z).
Context (can_read : bytes -> bool).

(** ** The responder *)

Record CertificateExchangeHandler :=
  { trustStore_ : option CertificateTrustStore;
    deviceId_ : bytes;
    responderCert_ : bytes;
    responderCertPath_ : bytes;
    responderCertFormat_ : CertificateFormat }.

Definition new_handler (trustStore : option CertificateTrustStore) (deviceId : bytes) : CertificateExchangeHandler :=
  {| trustStore_ := trustStore; deviceId_ := deviceId; responderCert_ := []; responderCertPath_ := []; responderCertFormat_ := DER |}.

(** [loadCertificate] of a buffer. *)
Definition loadCertificate (certData : bytes) (pem : bool) : option X509 :=
  if decide (certData = []) then None else if pem then PEM_read_bio_X509 certData else d2i_X509_bio certData.

(** [parseCertificate] of the handler: DER, and PEM when that fails. *)
Definition parse_any (cert : bytes) : option X509 :=
  match loadCertificate cert false with
  | Some x => Some x
  | None => loadCertificate cert true
  end.

Definition verifyCertificateSignature (cert : X509) : bool := true.

Definition checkCertificateValidityPeriod (cert : X509) : bool :=
  match X509_get0_notBefore cert with
  | None => false
  | Some notBefore =>
      if (0 <? X509_cmp_time notBefore time)%Z then false
      else match X509_get0_notAfter cert with
           | None => false
           | Some notAfter => negb (X509_cmp_time notAfter time <? 0)%Z
           end
  end.

Definition validateCertificate (cert : bytes) : bool :=
  if decide (cert = [] \/ MAX_CERTIFICATE_SIZE < zsize cert)%Z then false
  else match parse_any cert with
       | None => false
       | Some x => if negb (verifyCertificateSignature x) then false else checkCertificateValidityPeriod x
       end.

Definition version : byte := of_u8 18.

(** A handler without a trust store dereferences a null pointer: [None]. *)
Definition handlePushCertificate (h : CertificateExchangeHandler) (fs : files) (request : bytes) : option (files * bytes) :=
  match deserializePushCertificateRequest request with
  | inl _ => Some (fs, createPushCertificateResponse version CERT_EXCHANGE_ERROR_INVALID_REQUEST)
  | inr (req, cert) =>
      if negb (validateCertificate cert)
      then Some (fs, createPushCertificateResponse version CERT_EXCHANGE_ERROR_INVALID_CERT)
      else
        let certId := str "requester_" ++ deviceId_ h in
        match trustStore_ h with
        | None => None
        | Some ts =>
            match ts_store ts fs cert (pushreq_cert_format req) certId with
            | (fs, (false, _)) => Some (fs, createPushCertificateResponse version CERT_EXCHANGE_ERROR_STORAGE_FULL)
            | (fs, (true, _)) => Some (fs, createPushCertificateResponse version CERT_EXCHANGE_SUCCESS)
            end
        end
  end.

(** The last resort of [loadResponderCertificate]. *)
Definition load_from_store (h : CertificateExchangeHandler) (fs : files) : bytes :=
  match trustStore_ h with
  | Some ts => ts_retrieve ts fs (str "responder_" ++ deviceId_ h) (responderCertFormat_ h)
  | None => []
  end.

Definition loadResponderCertificate (h : CertificateExchangeHandler) (fs : files) : bytes :=
  if decide (responderCert_ h <> []) then responderCert_ h
  else if decide (responderCertPath_ h <> []) then
    match contents_of fs (responderCertPath_ h) with
    | Some c => if can_read (responderCertPath_ h) && bool_decide (0 < zsize c <= MAX_CERTIFICATE_SIZE)%Z then c
                else load_from_store h fs
    | None => load_from_store h fs
    end
  else load_from_store h fs.

(** The response, or an exception that leaves the handler. *)
Definition handlePullCertificate (h : CertificateExchangeHandler) (fs : files) (request : bytes) : result bytes :=
  let refused := createPullCertificateResponse version CERT_EXCHANGE_ERROR_INVALID_REQUEST [] (responderCertFormat_ h) in
  match deserializePullCertificateRequest request with
  | inl _ => refused
  | inr _ =>
      let certData := loadResponderCertificate h fs in
      match (if decide (certData = [])
             then createPullCertificateResponse version CERT_EXCHANGE_ERROR_NOT_FOUND [] (responderCertFormat_ h)
             else createPullCertificateResponse version CERT_EXCHANGE_SUCCESS certData (responderCertFormat_ h)) with
      | inl _ => refused
      | inr response => inr response
      end
  end.

Definition setResponderCertificatePath (h : CertificateExchangeHandler) (certPath : bytes) (format : CertificateFormat) : CertificateExchangeHandler :=
  {| trustStore_ := trustStore_ h; deviceId_ := deviceId_ h; responderCert_ := []; responderCertPath_ := certPath;
     responderCertFormat_ := format |}.

Definition setResponderCertificate (h : CertificateExchangeHandler) (fs : files) (cert : bytes) (format : CertificateFormat) : CertificateExchangeHandler * files :=
  match trustStore_ h with
  | Some ts =>
      match ts_store ts fs cert format (str "responder_" ++ deviceId_ h) with
      | (fs, (true, path)) => (setResponderCertificatePath h path format, fs)
      | (fs, (false, _)) => (h, fs)
      end
  | None =>
      ({| trustStore_ := None; deviceId_ := deviceId_ h; responderCert_ := cert;
          responderCertPath_ := responderCertPath_ h; responderCertFormat_ := format |}, fs)
  end.

(** [SpdmResponderObject] is its property; there may be no object. *)
Definition setProvisioned (object : option bool) (value : bool) : option bool := match object with Some _ => Some value | None => None end.

Definition handleSetProvisioned (object : option bool) (request : bytes) : option bool * bytes :=
  match deserializeSetProvisionedRequest request with
  | inl _ => (object, createSetProvisionedResponse version CERT_EXCHANGE_ERROR_INVALID_REQUEST)
  | inr req =>
      let b := negb (bool_decide (provisioned req = x00)) in
      match object with
      | Some _ => (setProvisioned object b, createSetProvisionedResponse version x01)
      | None => (object, createSetProvisionedResponse version CERT_EXCHANGE_ERROR_INVALID_REQUEST)
      end
  end.

(** *** Dispatching *)

Record responder := { handler : CertificateExchangeHandler; r_files : files; dbusObject : option bool }.

(** A handler of messages; [None] is undefined behaviour or an exception. *)
Definition CustomMessageHandler : Type := responder -> bytes -> option (responder * bytes).

Definition createPushCertificateHandler : CustomMessageHandler := fun r request =>
  match handlePushCertificate (handler r) (r_files r) request with
  | Some (fs, response) => Some ({| handler := handler r; r_files := fs; dbusObject := dbusObject r |}, response)
  | None => None
  end.

Definition createPullCertificateHandler : CustomMessageHandler := fun r request =>
  match handlePullCertificate (handler r) (r_files r) request with
  | inr response => Some (r, response)
  | inl _ => None
  end.

Definition createSetProvisionedHandler : CustomMessageHandler := fun r request =>
  let '(object, response) := handleSetProvisioned (dbusObject r) request in
  Some ({| handler := handler r; r_files := r_files r; dbusObject := object |}, response).

(** The map that the constructor of [SpdmResponder] fills. *)
Definition handlers : gmap byte CustomMessageHandler :=
  <[SPDM_SET_PROVISIONED := createSetProvisionedHandler]>
    (<[SPDM_PULL_CERTIFICATE := createPullCertificateHandler]>
      (<[SPDM_PUSH_CERTIFICATE := createPushCertificateHandler]> ∅)).

(** [dispatchToHandler]; an empty response is no response. *)
Definition dispatchToHandler (customMessageHandlers_ : gmap byte CustomMessageHandler) (r : responder) (messageData : bytes) : option (responder * bytes) :=
  if decide (zsize messageData < 4 \/ MAX_CERTIFICATE_SIZE < zsize messageData)%Z then Some (r, [])
  else match customMessageHandlers_ !! request_response_code (header_at messageData) with
       | None => Some (r, [])
       | Some handler => handler r messageData
       end.

(** [loadResponderCertificate] of [SpdmResponder]. *)
Definition self_ca : bytes := str "/etc/ssl/certs/self_ca.pem".

Definition SpdmResponder (trustStore : CertificateTrustStore) (fs : files) (object : option bool) : responder :=
  let h := new_handler (Some trustStore) (str "responder") in
  {| handler := if exists_ fs self_ca && can_read self_ca then setResponderCertificatePath h self_ca PEM else h;
     r_files := fs; dbusObject := object |}.

(** *** A session *)

(** What [libspdm_responder_dispatch_message] returns, as the session tells it apart. *)
Inductive status := SUCCESS | SEND_FAIL | RECEIVE_FAIL | UNSUPPORTED_CAP | INVALID_MSG_FIELD | OTHER.

Record session :=
  { s_responder : responder; lastReceivedMessage : bytes; dispatchRetryCount_ : nat; s_sent : list bytes }.

Definition maxDispatchRetries_ : nat := 100.

(** [checkRetryLimit]: the count, and whether the session goes on. *)
Definition checkRetryLimit (s : session) : session * bool :=
  ({| s_responder := s_responder s; lastReceivedMessage := lastReceivedMessage s;
      dispatchRetryCount_ := S (dispatchRetryCount_ s); s_sent := s_sent s |},
   negb (maxDispatchRetries_ <=? S (dispatchRetryCount_ s))).

Definition resetRetryCount (s : session) : session :=
  {| s_responder := s_responder s; lastReceivedMessage := lastReceivedMessage s; dispatchRetryCount_ := 0; s_sent := s_sent s |}.

(** [device_receive_message] keeps what it receives. *)
Definition cacheLastMessage (s : session) (message : option bytes) : session :=
  match message with
  | Some ((_ :: _) as m) => {| s_responder := s_responder s; lastReceivedMessage := m;
                               dispatchRetryCount_ := dispatchRetryCount_ s; s_sent := s_sent s |}
  | _ => s
  end.

(** Whether a response is sent; [None] is undefined behaviour. *)
Definition handleCustomMessage (send : bytes -> bool) (s : session) : option (session * bool) :=
  match dispatchToHandler handlers (s_responder s) (lastReceivedMessage s) with
  | None => None
  | Some (r, response) =>
      let s' sent := {| s_responder := r; lastReceivedMessage := lastReceivedMessage s;
                        dispatchRetryCount_ := dispatchRetryCount_ s; s_sent := sent |} in
      if decide (response = []) then Some (s' (s_sent s), false)
      else Some (s' (s_sent s ++ [response]), send response)
  end.

(** One turn of the loop of [startDispatch]: the message received, if any, and the
    status; whether the session goes on. *)
Definition dispatch_turn (send : bytes -> bool) (s : session) (e : option bytes * status) : option (session * bool) :=
  let s := cacheLastMessage s e.1 in
  match e.2 with
  | SUCCESS => Some (resetRetryCount s, true)
  | SEND_FAIL | RECEIVE_FAIL => Some (s, false)
  | UNSUPPORTED_CAP =>
      match handleCustomMessage send s with
      | None => None
      | Some (s, false) => Some (checkRetryLimit s)
      | Some (s, true) => Some (resetRetryCount s, true)
      end
  | INVALID_MSG_FIELD | OTHER => Some (checkRetryLimit s)
  end.

(** The loop over what happens; whether the session still runs after it. *)
Fixpoint startDispatch (send : bytes -> bool) (s : session) (es : list (option bytes * status)) : option (session * bool) :=
  match es with
  | [] => Some (s, true)
  | e :: es => match dispatch_turn send s e with
               | None => None
               | Some (s, false) => Some (s, false)
               | Some (s, true) => startDispatch send s es
               end
  end.

(** ** The requester *)

Section requester.

(** A transport to a peer: what [sendFunc_] and [receiveFunc_] are set to, if they
    are. *)
Context {peer : Type} (sendFunc_ : option (peer -> bytes -> peer * bool)) (receiveFunc_ : option (peer -> peer * (bool * bytes))).
Context (X509_get0_pubkey : X509 -> bool) (PEM_write_bio_X509 i2d_X509_bio : X509 -> option bytes).
Context (q_store : CertificateTrustStore) (q_deviceId : bytes).

Record requester :=
  { requesterCert_ : bytes; requesterCertFormat_ : CertificateFormat; lastStoredCertPath_ : bytes;
    q_files : files; q_peer : peer }.

Definition set_peer (q : requester) (p : peer) : requester :=
  {| requesterCert_ := requesterCert_ q; requesterCertFormat_ := requesterCertFormat_ q;
     lastStoredCertPath_ := lastStoredCertPath_ q; q_files := q_files q; q_peer := p |}.

Definition Q_MAX_CERTIFICATE_SIZE : Z := 8192%Z.

Definition validateCertificateStructure (cert : bytes) (format : CertificateFormat) : bool :=
  if decide (cert = []) then false
  else match (if decide (format = DER) then d2i_X509_bio cert else PEM_read_bio_X509 cert) with
       | Some _ => true
       | None => false
       end.

Definition sendMessage (p : peer) (message : bytes) : peer * bool :=
  match sendFunc_ with None => (p, false) | Some f => f p message end.

Definition receiveMessage (p : peer) : peer * (bool * bytes) :=
  match receiveFunc_ with None => (p, (false, [])) | Some f => f p end.

(** A request sent and the response of at least [n] bytes received. *)
Definition transact (n : nat) (q : requester) (request : bytes) : requester * option bytes :=
  let '(p, ok) := sendMessage (q_peer q) request in
  if negb ok then (set_peer q p, None)
  else
    let '(p, (success, response)) := receiveMessage p in
    (set_peer q p, if negb success || (length response <? n) then None else Some response).

(** An exception that leaves the function is [inl]. *)
Definition pushCertificateToResponder (q : requester) (cert : bytes) (format : CertificateFormat) : result (requester * bool) :=
  if decide (cert = [] \/ Q_MAX_CERTIFICATE_SIZE < zsize cert)%Z then inr (q, false)
  else if negb (validateCertificateStructure cert format) then inr (q, false)
  else match createPushCertificateRequest version cert format with
       | inl e => inl e
       | inr request =>
           let '(q, response) := transact (sizeof SpdmPushCertificateResponse) q request in
           match response with
           | None => inr (q, false)
           | Some response =>
               match deserializePushCertificateResponse response with
               | inl _ => inr (q, false)
               | inr resp => inr (q, bool_decide (pushres_status resp = CERT_EXCHANGE_SUCCESS))
               end
           end
       end.

Definition pullCertificateFromResponder (q : requester) (format : CertificateFormat) : requester * (bool * bytes) :=
  let '(q, response) := transact (sizeof SpdmPullCertificateResponse) q (createPullCertificateRequest version format) in
  match response with
  | None => (q, (false, []))
  | Some response =>
      match deserializePullCertificateResponse response with
      | inl _ => (q, (false, []))
      | inr (resp, cert) =>
          if decide (pullres_status resp <> CERT_EXCHANGE_SUCCESS) then (q, (false, []))
          else
            match ts_store q_store (q_files q) cert format (str "responder_" ++ q_deviceId) with
            | (fs, (saved, certPath)) =>
                ({| requesterCert_ := requesterCert_ q; requesterCertFormat_ := requesterCertFormat_ q;
                    lastStoredCertPath_ := if saved then certPath else lastStoredCertPath_ q; q_files := fs; q_peer := q_peer q |},
                 (true, cert))
            end
      end
  end.

Definition setProvisionedState (q : requester) (b : bool) : requester * bool :=
  let '(q, response) := transact (sizeof SpdmSetProvisionedResponse) q (createSetProvisionedRequest version b) in
  match response with
  | None => (q, false)
  | Some response =>
      match deserializeSetProvisionedResponse response with
      | inl _ => (q, false)
      | inr resp => (q, bool_decide (setres_status resp = CERT_EXCHANGE_SUCCESS \/ setres_status resp = x01))
      end
  end.

(** [checkValidity] and [certificateToBio] of [cert_generator.hpp]. *)
Definition certificateToBio (cert : X509) (pem : bool) : option bytes :=
  if negb (X509_get0_pubkey cert) then None else if pem then PEM_write_bio_X509 cert else i2d_X509_bio cert.

Definition loadRequesterCertificate (q : requester) (certPath : bytes) (format : CertificateFormat) : requester * bool :=
  let isPem := bool_decide (format = PEM) in
  match (match contents_of (q_files q) certPath with
         | Some c => if can_read certPath then (if isPem then PEM_read_bio_X509 c else d2i_X509_bio c) else None
         | None => None
         end) with
  | None => (q, false)
  | Some x =>
      match certificateToBio x isPem with
      | None => (q, false)
      | Some data =>
          if decide (data = [] \/ Q_MAX_CERTIFICATE_SIZE < zsize data)%Z then (q, false)
          else ({| requesterCert_ := data; requesterCertFormat_ := format; lastStoredCertPath_ := lastStoredCertPath_ q;
                   q_files := q_files q; q_peer := q_peer q |}, true)
      end
  end.

Definition performCertificateExchange (q : requester) : result (requester * bool) :=
  if decide (requesterCert_ q = []) then inr (q, false)
  else match pushCertificateToResponder q (requesterCert_ q) (requesterCertFormat_ q) with
       | inl e => inl e
       | inr (q, false) => inr (q, false)
       | inr (q, true) =>
           let '(q, (success, _)) := pullCertificateFromResponder q (requesterCertFormat_ q) in inr (q, success)
       end.

(** [exchangeCertificates] of [SpdmCertificateClient]. *)
Definition exchangeCertificates (q : requester) (requesterCertPath : bytes) : result (requester * (bool * bytes)) :=
  let '(q, loaded) := loadRequesterCertificate q requesterCertPath PEM in
  if negb loaded then inr (q, (false, []))
  else match performCertificateExchange q with
       | inl e => inl e
       | inr (q, true) => inr (q, (true, lastStoredCertPath_ q))
       | inr (q, false) => inr (q, (false, []))
       end.

End requester.

(** ** What the responder accepts *)

(** A certificate is accepted exactly when it is not empty, has at most
    [MAX_CERTIFICATE_SIZE] bytes, parses as DER or else as PEM, and both its dates are
    there with neither comparison saying that it lies outside them. *)
Theorem validate_exact cert :
  validateCertificate cert = true <->
  cert <> [] /\ (zsize cert <= MAX_CERTIFICATE_SIZE)%Z /\
  exists x nb na, (d2i_X509_bio cert = Some x \/ d2i_X509_bio cert = None /\ PEM_read_bio_X509 cert = Some x) /\
    X509_get0_notBefore x = Some nb /\ X509_get0_notAfter x = Some na /\
    (X509_cmp_time nb time <= 0)%Z /\ (0 <= X509_cmp_time na time)%Z.
Proof.
  unfold validateCertificate. destruct (decide _) as [Hd|Hd]; [split; [done|intros (? & ? & _); destruct Hd; [done|lia]]|].
  assert (Hc : cert <> []) by tauto. unfold parse_any, loadCertificate. rewrite !decide_False by done.
  assert (Hx : forall x, negb (verifyCertificateSignature x) = false) by done.
  assert (Hv : forall x, checkCertificateValidityPeriod x = true <-> exists nb na, X509_get0_notBefore x = Some nb /\
    X509_get0_notAfter x = Some na /\ (X509_cmp_time nb time <= 0)%Z /\ (0 <= X509_cmp_time na time)%Z).
  { intros x. unfold checkCertificateValidityPeriod. destruct (X509_get0_notBefore x) as [nb|]; [|naive_solver].
    destruct (Z.ltb_spec 0 (X509_cmp_time nb time)); [split; [done|intros (? & ? & [= <-] & _ & ? & _); lia]|].
    destruct (X509_get0_notAfter x) as [na|]; [|naive_solver]. rewrite negb_true_iff, Z.ltb_ge. naive_solver lia. }
  destruct (d2i_X509_bio cert) as [x|]; [rewrite Hx, Hv; naive_solver lia|].
  destruct (PEM_read_bio_X509 cert) as [x|]; [rewrite Hx, Hv; naive_solver lia|naive_solver].
Qed.

Lemma validate_size cert : validateCertificate cert = true -> cert <> [] /\ (zsize cert <= MAX_CERTIFICATE_SIZE)%Z.
Proof. unfold validateCertificate. case_decide; [done|]. split; [tauto|lia]. Qed.

(** What a push makes of the store: the certificate and format to store, if the
    request is accepted. *)
Definition accepted (request : bytes) : option (CertificateFormat * bytes) :=
  match deserializePushCertificateRequest request with
  | inr (req, cert) => if validateCertificate cert then Some (pushreq_cert_format req, cert) else None
  | inl _ => None
  end.

Definition push_status (response : bytes) : option byte :=
  match deserializePushCertificateResponse response with inr r => Some (pushres_status r) | inl _ => None end.

Lemma push_status_created st : push_status (createPushCertificateResponse version st) = Some st.
Proof. unfold push_status. by rewrite push_response_made. Qed.

(** A responder with a trust store answers every push request.  It reports
    success exactly when the request is well formed, its certificate is accepted and
    the store stores it; the certificate is then in the store under the requester's
    name.  A request that is not accepted leaves the files as they were. *)
Theorem push_handled h ts fs request :
  trustStore_ h = Some ts ->
  exists fs' response, handlePushCertificate h fs request = Some (fs', response) /\
    match accepted request with
    | None => fs' = fs /\ (push_status response = Some CERT_EXCHANGE_ERROR_INVALID_REQUEST \/
                           push_status response = Some CERT_EXCHANGE_ERROR_INVALID_CERT)
    | Some (format, cert) =>
        exists stored path, ts_store ts fs cert format (str "requester_" ++ deviceId_ h) = (fs', (stored, path)) /\
          push_status response = Some (if stored then CERT_EXCHANGE_SUCCESS else CERT_EXCHANGE_ERROR_STORAGE_FULL) /\
          (stored = true -> ts_readable ts path = true -> ts_retrieve ts fs' (str "requester_" ++ deviceId_ h) format = cert)
    end.
Proof.
  intros Hts. unfold handlePushCertificate, accepted. destruct (deserializePushCertificateRequest request) as [e|[req cert]].
  { eexists _, _. split; [done|]. rewrite push_status_created. by auto. }
  destruct (validateCertificate cert); cbn [negb]; [|eexists _, _; split; [done|]; rewrite push_status_created; by auto].
  rewrite Hts. destruct (ts_store ts fs cert _ _) as [fs' [stored path]] eqn:Hs.
  exists fs', (createPushCertificateResponse version (if stored then CERT_EXCHANGE_SUCCESS else CERT_EXCHANGE_ERROR_STORAGE_FULL)).
  split; [by destruct stored|]. exists stored, path. split; [done|]. split; [apply push_status_created|].
  intros -> Hr. by apply (ts_stored ts) in Hs as (_ & _ & Hs); apply Hs.
Qed.

Lemma pull_refused_ok st f : exists b, createPullCertificateResponse version st [] f = inr b.
Proof. eexists. apply createPull_ok. done. Qed.

(** No exception leaves the handler of pull requests. *)
Lemma pull_handled h fs request : exists response, handlePullCertificate h fs request = inr response.
Proof.
  unfold handlePullCertificate. destruct (pull_refused_ok CERT_EXCHANGE_ERROR_INVALID_REQUEST (responderCertFormat_ h)) as [b ->].
  destruct (deserializePullCertificateRequest _); [by eexists|]. by destruct (if decide _ then _ else _); eexists.
Qed.

Lemma createPull_nonempty v st c f b : createPullCertificateResponse v st c f = inr b -> b <> [].
Proof. unfold createPullCertificateResponse, serializePullCertificateResponse. case_decide; [|done]. by intros [= <-]. Qed.

Lemma push_response_nonempty h fs request fs' response :
  handlePushCertificate h fs request = Some (fs', response) -> response <> [].
Proof.
  unfold handlePushCertificate. intros Hp. repeat case_match; by simplify_eq.
Qed.

Lemma pull_response_nonempty h fs request response : handlePullCertificate h fs request = inr response -> response <> [].
Proof.
  unfold handlePullCertificate. destruct (deserializePullCertificateRequest _); [apply createPull_nonempty|].
  destruct (if decide _ then _ else _) eqn:Hc; [apply createPull_nonempty|]. intros [= ->].
  case_decide; by eapply createPull_nonempty.
Qed.

Lemma set_response_nonempty object request : (handleSetProvisioned object request).2 <> [].
Proof. unfold handleSetProvisioned. by repeat case_match. Qed.

Lemma handlers_spec c :
  handlers !! c =
  if decide (c = SPDM_SET_PROVISIONED) then Some createSetProvisionedHandler
  else if decide (c = SPDM_PULL_CERTIFICATE) then Some createPullCertificateHandler
  else if decide (c = SPDM_PUSH_CERTIFICATE) then Some createPushCertificateHandler else None.
Proof.
  unfold handlers. case_decide as H1; [subst; apply lookup_insert_eq|]. rewrite lookup_insert_ne by done.
  case_decide as H2; [subst; apply lookup_insert_eq|]. rewrite lookup_insert_ne by done.
  case_decide as H3; [subst; apply lookup_insert_eq|]. rewrite lookup_insert_ne by done. apply lookup_empty.
Qed.

Definition custom_codes : list byte := [SPDM_PUSH_CERTIFICATE; SPDM_PULL_CERTIFICATE; SPDM_SET_PROVISIONED].

Lemma handlers_codes c : is_Some (handlers !! c) <-> c ∈ custom_codes.
Proof.
  rewrite handlers_spec. unfold custom_codes. repeat case_decide; subst; split; intros Hs; try (eexists; reflexivity); try set_solver.
Qed.

Lemma handler_answers ts r c f message :
  trustStore_ (handler r) = Some ts -> handlers !! c = Some f ->
  exists r' response, f r message = Some (r', response) /\ response <> [] /\ handler r' = handler r.
Proof.
  intros Hts. rewrite handlers_spec. intros Hf.
  repeat case_decide; simplify_eq.
  - unfold createSetProvisionedHandler. destruct (handleSetProvisioned _ _) as [o b] eqn:Hb.
    eexists _, b. split; [done|]. split; [|done]. pose proof (set_response_nonempty (dbusObject r) message) as Hn. by rewrite Hb in Hn.
  - unfold createPullCertificateHandler. destruct (pull_handled (handler r) (r_files r) message) as [b Hb]. rewrite Hb.
    eexists _, b. split; [done|]. split; [|done]. by eapply pull_response_nonempty.
  - unfold createPushCertificateHandler. destruct (handlePushCertificate _ _ _) as [[fs b]|] eqn:Hb.
    + eexists _, b. split; [done|]. split; [|done]. by eapply push_response_nonempty.
    + exfalso. revert Hb. unfold handlePushCertificate. rewrite Hts. repeat case_match; done.
Qed.

(** A responder with a trust store answers every message without a failure;
    one it has no handler for, and one too short or too long, gets no response and
    changes nothing, and no message changes its handler. *)
Theorem dispatch_total ts r message :
  trustStore_ (handler r) = Some ts ->
  exists r' response, dispatchToHandler handlers r message = Some (r', response) /\ handler r' = handler r /\
    (response = [] -> r' = r) /\
    (response = [] <-> (zsize message < 4 \/ MAX_CERTIFICATE_SIZE < zsize message)%Z \/
       request_response_code (header_at message) ∉ custom_codes).
Proof.
  intros Hts. unfold dispatchToHandler. destruct (decide _) as [Hd|Hd].
  { eexists _, _. do 3 (split; [done|]). split; [by left|done]. }
  pose proof (handlers_codes (request_response_code (header_at message))) as Hc.
  destruct (handlers !! _) as [f|] eqn:Hf.
  - destruct (handler_answers _ _ _ _ message Hts Hf) as (r' & b & -> & Hb & Hh). exists r', b. do 2 (split; [done|]).
    split; [done|]. split; [done|]. intros [?|Hn]; [done|]. destruct Hn. apply Hc. by eexists.
  - eexists _, _. do 3 (split; [done|]). split; [|done]. intros _. right. intros Hin%Hc. by destruct Hin.
Qed.

(** ** Both ends *)

Section wire.

Context (X509_get0_pubkey : X509 -> bool) (PEM_write_bio_X509 i2d_X509_bio : X509 -> option bytes).
Context (q_store : CertificateTrustStore) (q_deviceId : bytes).

(** A transport that carries a request to the dispatcher of a responder, and the
    response, if there is one, back. *)
Definition wire_send (p : responder * option bytes) (message : bytes) : (responder * option bytes) * bool :=
  match dispatchToHandler handlers p.1 message with
  | Some (r, []) => ((r, None), true)
  | Some (r, response) => ((r, Some response), true)
  | None => (p, false)
  end.

Definition wire_receive (p : responder * option bytes) : (responder * option bytes) * (bool * bytes) :=
  match p.2 with
  | Some response => ((p.1, None), (true, response))
  | None => (p, (false, []))
  end.

Abbreviation push := (pushCertificateToResponder (Some wire_send) (Some wire_receive)) (only parsing).
Abbreviation pull := (pullCertificateFromResponder (Some wire_send) (Some wire_receive) q_store q_deviceId) (only parsing).
Abbreviation exchange := (performCertificateExchange (Some wire_send) (Some wire_receive) q_store q_deviceId) (only parsing).

Lemma transact_wire n q request r r' response :
  (q_peer q).1 = r -> dispatchToHandler handlers r request = Some (r', response) -> response <> [] -> n <= length response ->
  transact (Some wire_send) (Some wire_receive) n q request = (set_peer q (r', None), Some response).
Proof.
  intros Hr Hd Hne Hn. unfold transact, sendMessage, receiveMessage, wire_send, wire_receive. rewrite Hr, Hd.
  destruct response as [|b response]; [done|]. cbn [negb fst snd orb]. by rewrite (proj2 (Nat.ltb_ge _ _)).
Qed.

(** What an exchange comes to: the responder's files after the push and the
    certificate that it serves then, when every step goes well. *)
Definition exchanged (ts : CertificateTrustStore) (r : responder) (cert : bytes) (format : CertificateFormat) : option (files * bytes) :=
  if decide (cert = [] \/ Q_MAX_CERTIFICATE_SIZE < zsize cert)%Z then None
  else if negb (validateCertificateStructure cert format && validateCertificate cert) then None
  else match ts_store ts (r_files r) cert format (str "requester_" ++ deviceId_ (handler r)) with
       | (fs, (true, _)) =>
           let rc := loadResponderCertificate (handler r) fs in
           if decide (rc = [] \/ MAX_CERTIFICATE_SIZE < zsize rc)%Z then None else Some (fs, rc)
       | _ => None
       end.

Lemma dispatch_code r message c f :
  (4 <= zsize message <= MAX_CERTIFICATE_SIZE)%Z -> request_response_code (header_at message) = c -> handlers !! c = Some f ->
  dispatchToHandler handlers r message = f r message.
Proof. intros Hz <- Hf. unfold dispatchToHandler. rewrite decide_False by lia. by rewrite Hf. Qed.

Lemma handlers_push : handlers !! SPDM_PUSH_CERTIFICATE = Some createPushCertificateHandler.
Proof. rewrite handlers_spec. repeat case_decide; done. Qed.

Lemma handlers_pull : handlers !! SPDM_PULL_CERTIFICATE = Some createPullCertificateHandler.
Proof. rewrite handlers_spec. repeat case_decide; done. Qed.

Lemma handlers_set : handlers !! SPDM_SET_PROVISIONED = Some createSetProvisionedHandler.
Proof. rewrite handlers_spec. repeat case_decide; done. Qed.

(** The push over the wire: never an exception; the outcome and the state. *)
Lemma push_wire ts q r cert format :
  (q_peer q).1 = r -> trustStore_ (handler r) = Some ts ->
  match (if decide (cert = [] \/ Q_MAX_CERTIFICATE_SIZE < zsize cert)%Z then None
         else if negb (validateCertificateStructure cert format && validateCertificate cert) then None
         else match ts_store ts (r_files r) cert format (str "requester_" ++ deviceId_ (handler r)) with
              | (fs, (true, _)) => Some fs
              | _ => None
              end) with
  | Some fs => push q cert format =
      inr (set_peer q ({| handler := handler r; r_files := fs; dbusObject := dbusObject r |}, None), true)
  | None => exists q', push q cert format = inr (q', false)
  end.
Proof.
  intros Hr Hts. unfold pushCertificateToResponder. destruct (decide (cert = [] \/ Q_MAX_CERTIFICATE_SIZE < zsize cert)%Z) as [|Hd]; [by eexists|].
  destruct (validateCertificateStructure cert format); cbn [negb andb]; [|by eexists].
  assert (Hsz : (0 <= zsize cert <= 8192)%Z) by (unfold Q_MAX_CERTIFICATE_SIZE, zsize in *; lia).
  rewrite createPush_ok by lia. set (req := {| pushreq_header := _ |}).
  assert (Hdec : deserializePushCertificateRequest (pod_bytes req ++ cert) = inr (req, cert)).
  { apply push_request_read; simpl; unfold is_uint, MAX_CERTIFICATE_SIZE; lia. }
  assert (Hresp : exists fs st, dispatchToHandler handlers r (pod_bytes req ++ cert) =
     Some ({| handler := handler r; r_files := fs; dbusObject := dbusObject r |}, createPushCertificateResponse version st) /\
     (if negb (validateCertificate cert) then st = CERT_EXCHANGE_ERROR_INVALID_CERT
      else match ts_store ts (r_files r) cert format (str "requester_" ++ deviceId_ (handler r)) with
           | (fs', (true, _)) => fs' = fs /\ st = CERT_EXCHANGE_SUCCESS
           | _ => st = CERT_EXCHANGE_ERROR_STORAGE_FULL
           end)).
  { rewrite (dispatch_code _ _ _ _) by
      (done || (rewrite zsize_app, zsize_pod; unfold MAX_CERTIFICATE_SIZE; simpl; lia) || apply handlers_push).
    unfold createPushCertificateHandler, handlePushCertificate. rewrite Hdec, Hts. change (pushreq_cert_format req) with format.
    destruct (validateCertificate cert); cbn [negb]; [|by eexists _, _].
    destruct (ts_store _ _ _ _ _) as [fs [[] path]]; by eexists _, _. }
  destruct Hresp as (fs & st & Hdisp & Hst).
  rewrite (transact_wire _ _ _ _ _ _ Hr Hdisp) by (done || reflexivity).
  rewrite push_response_made. cbn [pushres_status].
  destruct (validateCertificate cert); cbn [negb] in *; [|subst st; by eexists].
  destruct (ts_store _ _ _ _ _) as [fs' [[] path]]; [destruct Hst as [-> ->]; done|subst st; by eexists].
Qed.

(** The pull over the wire. *)
Lemma pull_wire q r format :
  (q_peer q).1 = r ->
  let rc := loadResponderCertificate (handler r) (r_files r) in
  if decide (rc = [] \/ MAX_CERTIFICATE_SIZE < zsize rc)%Z
  then exists q', pull q format = (q', (false, []))
  else pull q format =
    (let '(fs, (saved, path)) := ts_store q_store (q_files q) rc format (str "responder_" ++ q_deviceId) in
     ({| requesterCert_ := requesterCert_ q; requesterCertFormat_ := requesterCertFormat_ q;
         lastStoredCertPath_ := if saved then path else lastStoredCertPath_ q; q_files := fs; q_peer := (r, None) |}, (true, rc))).
Proof.
  intros Hr rc. unfold pullCertificateFromResponder.
  assert (Hdisp : exists resp, dispatchToHandler handlers r (createPullCertificateRequest version format) = Some (r, resp) /\
    sizeof SpdmPullCertificateResponse <= length resp /\
    match deserializePullCertificateResponse resp with
    | inr (m, c) => if decide (rc = [] \/ MAX_CERTIFICATE_SIZE < zsize rc)%Z then pullres_status m <> CERT_EXCHANGE_SUCCESS
                    else pullres_status m = CERT_EXCHANGE_SUCCESS /\ c = rc
    | inl _ => (rc = [] \/ MAX_CERTIFICATE_SIZE < zsize rc)%Z
    end).
  { rewrite (dispatch_code _ _ _ _) by (done || apply handlers_pull).
    unfold createPullCertificateHandler, handlePullCertificate.
    rewrite pull_request_made. fold rc.
    destruct (decide (rc = [])) as [He|Hne].
    { rewrite createPull_ok by done. eexists. split; [done|]. split; [done|]. rewrite pull_response_read by done.
      rewrite decide_True by tauto. done. }
    destruct (decide (2 ^ 32 <= zsize rc)%Z) as [Hbig|Hsmall].
    { rewrite createPull_throws, createPull_ok by done. eexists. split; [done|]. split; [done|].
      rewrite pull_response_read by done. rewrite decide_True by (unfold MAX_CERTIFICATE_SIZE; right; lia). done. }
    rewrite createPull_ok by lia. eexists. split; [done|]. split; [rewrite length_app, pod_length; lia|].
    assert (is_uint 32 (zsize rc)) by (unfold is_uint, zsize in *; lia).
    destruct (decide (MAX_CERTIFICATE_SIZE < zsize rc)%Z) as [Hmax|Hmax].
    - rewrite pull_response_large by done. by right.
    - rewrite pull_response_read by (done || lia). by rewrite decide_False by tauto. }
  destruct Hdisp as (resp & Hdisp & Hlen & Hresp).
  rewrite (transact_wire _ _ _ _ _ _ Hr Hdisp) by (done || (intros ->; simpl in Hlen; lia)).
  cbv beta iota. destruct (decide (rc = [] \/ _)) as [Hd|Hd].
  - destruct (deserializePullCertificateResponse resp) as [e|[m c]]; [by eexists|]. rewrite decide_True by done. by eexists.
  - destruct (deserializePullCertificateResponse resp) as [e|[m c]]; [done|]. destruct Hresp as [-> ->].
    rewrite decide_False by tauto. by destruct (ts_store _ _ _ _ _) as [fs [saved path]].
Qed.

(** C35: against a responder with a trust store, an exchange never throws and
    succeeds exactly when the certificate has between one byte and the requester's
    limit, both ends accept it, the responder stores it and then has a certificate of
    its own to serve.  After a success the responder's store holds the requester's
    certificate, and the requester has handed the responder's, unchanged, to its own
    store, which holds it if it reports that it stored it; when it does not, the
    exchange succeeds all the same (see [not_stored_succeeds]). *)
Theorem exchange_correct ts q r :
  (q_peer q).1 = r -> trustStore_ (handler r) = Some ts ->
  exists q', exchange q = inr (q', match exchanged ts r (requesterCert_ q) (requesterCertFormat_ q) with Some _ => true | None => false end) /\
    forall fs rc, exchanged ts r (requesterCert_ q) (requesterCertFormat_ q) = Some (fs, rc) ->
      (q_peer q').1 = {| handler := handler r; r_files := fs; dbusObject := dbusObject r |} /\
      (exists path, contents_of fs path = Some (requesterCert_ q) /\
         (ts_readable ts path = true ->
          ts_retrieve ts fs (str "requester_" ++ deviceId_ (handler r)) (requesterCertFormat_ q) = requesterCert_ q)) /\
      exists saved path, ts_store q_store (q_files q) rc (requesterCertFormat_ q) (str "responder_" ++ q_deviceId) =
        (q_files q', (saved, path)) /\ (saved = true -> lastStoredCertPath_ q' = path /\ contents_of (q_files q') path = Some rc).
Proof.
  intros Hr Hts. unfold performCertificateExchange, exchanged.
  pose proof (push_wire ts q r (requesterCert_ q) (requesterCertFormat_ q) Hr Hts) as Hpush.
  destruct (decide (requesterCert_ q = [])) as [He|Hne].
  { rewrite decide_True by tauto. eexists. split; [done|]. done. }
  destruct (decide _) as [Hd|Hd]; [destruct Hpush as [q' ->]; by eexists|].
  destruct (negb _); [destruct Hpush as [q' ->]; by eexists|].
  destruct (ts_store ts _ _ _ _) as [fs [[] path]] eqn:Hst; [|destruct Hpush as [q' ->]; by eexists].
  rewrite Hpush. set (r1 := {| handler := handler r; r_files := fs; dbusObject := dbusObject r |}).
  pose proof (pull_wire (set_peer q (r1, None)) r1 (requesterCertFormat_ q) eq_refl) as Hpull.
  cbn [handler r_files set_peer requesterCert_ requesterCertFormat_ lastStoredCertPath_ q_files q_peer r1] in Hpull |- *.
  destruct (decide _) as [Hd2|Hd2]; [destruct Hpull as [q' ->]; by eexists|]. rewrite Hpull.
  destruct (ts_store q_store _ _ _ _) as [fs2 [saved path2]] eqn:Hst2. eexists. split; [done|].
  intros fs' rc [= <- <-]. split; [done|]. apply (ts_stored ts) in Hst as (_ & Hc & Hret).
  split; [exists path; by auto|]. exists saved, path2. split; [done|]. intros ->. split; [done|].
  by apply (ts_stored q_store) in Hst2 as (_ & ? & _).
Qed.

(** Over the wire, a request to set the provisioned state succeeds exactly when
    the responder has an object, and that object then has the state asked for. *)
Theorem provisioned_correct q r b :
  (q_peer q).1 = r ->
  exists q', setProvisionedState (Some wire_send) (Some wire_receive) q b =
    (q', match dbusObject r with Some _ => true | None => false end) /\
    (q_peer q').1 = {| handler := handler r; r_files := r_files r; dbusObject := setProvisioned (dbusObject r) b |}.
Proof.
  intros Hr. unfold setProvisionedState.
  assert (Hdisp : exists st, dispatchToHandler handlers r (createSetProvisionedRequest version b) =
    Some ({| handler := handler r; r_files := r_files r; dbusObject := setProvisioned (dbusObject r) b |},
          createSetProvisionedResponse version st) /\
    st = match dbusObject r with Some _ => x01 | None => CERT_EXCHANGE_ERROR_INVALID_REQUEST end).
  { rewrite (dispatch_code _ _ _ _) by (apply handlers_set || by destruct b).
    unfold createSetProvisionedHandler, handleSetProvisioned.
    rewrite set_request_made. cbn [provisioned]. destruct (dbusObject r) as [o|] eqn:Ho.
    - eexists. split; [|done]. do 2 f_equal. by destruct b.
    - eexists. by split. }
  destruct Hdisp as (st & Hdisp & ->). rewrite (transact_wire _ _ _ _ _ _ Hr Hdisp) by (done || reflexivity).
  rewrite set_response_made. cbn [setres_status].
  exists (set_peer q ({| handler := handler r; r_files := r_files r; dbusObject := setProvisioned (dbusObject r) b |}, None)).
  split; [|done]. by destruct (dbusObject r).
Qed.

End wire.

(** ** The session *)

Definition link_failed (e : option bytes * status) : Prop := e.2 = SEND_FAIL \/ e.2 = RECEIVE_FAIL.

Lemma dispatch_turn_cases send s e s' go :
  dispatch_turn send s e = Some (s', go) ->
  (go = true /\ dispatchRetryCount_ s' = 0) \/ (go = false /\ link_failed e) \/
  (e.2 <> SUCCESS /\ dispatchRetryCount_ s' = S (dispatchRetryCount_ s) /\ go = negb (maxDispatchRetries_ <=? dispatchRetryCount_ s')).
Proof.
  unfold dispatch_turn, link_failed.
  assert (Hcache : dispatchRetryCount_ (cacheLastMessage s e.1) = dispatchRetryCount_ s) by (destruct e as [[[]|]]; done).
  destruct e.2; try (intros [= <- <-]; by auto); try (intros [= <- <-]; right; right; simpl; by rewrite Hcache).
  destruct (handleCustomMessage _ _) as [[s1 []]|] eqn:Hh; [intros [= <- <-]; by auto| |done].
  assert (dispatchRetryCount_ s1 = dispatchRetryCount_ s) as Hs1.
  { rewrite <- Hcache. revert Hh. unfold handleCustomMessage. destruct (dispatchToHandler _ _ _) as [[r b]|]; [|done].
    case_decide; intros [= <-]; done. }
  intros [= <- <-]. right. right. simpl. by rewrite Hs1.
Qed.

(** The count is that of the turns that failed in a row. *)
Lemma startDispatch_count send es s s' go :
  startDispatch send s es = Some (s', go) ->
  (go = false /\ Exists link_failed es) \/
  ((go = true -> dispatchRetryCount_ s < maxDispatchRetries_ -> dispatchRetryCount_ s' < maxDispatchRetries_) /\
   (go = false -> maxDispatchRetries_ <= dispatchRetryCount_ s') /\
   exists es1 es2 rest, es = es1 ++ es2 ++ rest /\ Forall (fun e => e.2 <> SUCCESS) es2 /\
     (dispatchRetryCount_ s' = length es2 \/ es1 = [] /\ dispatchRetryCount_ s' = dispatchRetryCount_ s + length es2)).
Proof.
  revert s. induction es as [|e es IH]; intros s; simpl.
  { intros [= <- <-]. right. split; [done|]. split; [done|]. exists [], [], []. split; [done|]. split; [constructor|right; split; simpl; [done|lia]]. }
  destruct (dispatch_turn send s e) as [[s1 go1]|] eqn:Ht; [|done].
  apply dispatch_turn_cases in Ht as [[-> H0]|[[-> Hl]|(Hf & Hc & Hgo)]].
  - intros [[-> He]|(Hlt & Hge & es1 & es2 & rest & -> & Hall & Hn)]%IH; [left; split; [done|by apply Exists_cons_tl]|right].
    split; [intros Hg _; apply Hlt; [done|unfold maxDispatchRetries_; lia]|]. split; [done|].
    exists (e :: es1), es2, rest. split; [done|]. split; [done|]. left. destruct Hn as [|[_ Hn]]; lia.
  - intros [= <- <-]. left. split; [done|by constructor].
  - destruct go1.
    + intros [[-> He]|(Hlt & Hge & es1 & es2 & rest & -> & Hall & Hn)]%IH; [left; split; [done|by apply Exists_cons_tl]|right].
      symmetry in Hgo. apply negb_true_iff, Nat.leb_gt in Hgo.
      split; [intros Hg _; by apply Hlt|]. split; [done|]. destruct Hn as [Hn|[-> Hn]].
      * exists (e :: es1), es2, rest. by auto.
      * exists [], (e :: es2), rest. split; [done|]. split; [by constructor|]. right. split; [done|]. simpl. lia.
    + intros [= <- <-]. right. symmetry in Hgo. apply negb_false_iff, Nat.leb_le in Hgo. split; [done|]. split; [done|].
      exists [], [e], es. split; [done|]. split; [by repeat constructor|]. right. split; [done|]. simpl. lia.
Qed.

(** A session that starts with no failure counted serves on as long as the link
    holds and fewer than a hundred turns in a row fail: it ends only when receiving
    or sending fails, or after a hundred turns without a successful dispatch. *)
Theorem session_serves send s es s' go :
  dispatchRetryCount_ s = 0 -> startDispatch send s es = Some (s', go) ->
  (go = true -> dispatchRetryCount_ s' < maxDispatchRetries_) /\
  (go = false -> Exists link_failed es \/
     exists es1 es2 rest, es = es1 ++ es2 ++ rest /\ maxDispatchRetries_ <= length es2 /\ Forall (fun e => e.2 <> SUCCESS) es2).
Proof.
  intros H0 Hrun. apply startDispatch_count in Hrun as [[-> He]|(Hlt & Hge & es1 & es2 & rest & -> & Hall & Hn)]; [split; [done|by left]|].
  split; [intros Hg; apply Hlt; [done|rewrite H0; unfold maxDispatchRetries_; lia]|]. intros Hg. right.
  exists es1, es2, rest. split; [done|]. split; [|done]. specialize (Hge Hg). destruct Hn as [|[_ Hn]]; lia.
Qed.

End exchange.

(** ** Witnesses and limits *)

Module Sample.

(** A certificate is any text; one that begins with [-] is PEM; all are valid now. *)
Definition disk (_ _ : bytes) : outcome := Written.
Definition yes (_ : bytes) : bool := true.
Definition no_disk (_ _ : bytes) : outcome := NotOpened.
Definition pem (c : bytes) : option bytes := match c with x2d :: _ => Some c | _ => None end.
Definition der (c : bytes) : option bytes := match c with x30 :: _ => Some c | _ => None end.
Definition date (_ : bytes) : option Z := Some 0%Z.
Definition cmp (_ _ : Z) : Z := 0%Z.
Definition hash (c : bytes) : Z := zsize c.

Definition r_store : CertificateTrustStore := FileCertificateTrustStore disk yes yes der pem hash (str "/r").
Definition q_store : CertificateTrustStore := FileCertificateTrustStore disk yes yes der pem hash (str "/q").

Definition the_responder : responder :=
  SpdmResponder yes r_store {[self_ca := File (str "-responder")]} (Some false).

Abbreviation send := (wire_send der pem date date cmp 0%Z yes) (only parsing).

Definition the_requester (c : bytes) (f : CertificateFormat) : @requester (responder * option bytes) :=
  {| requesterCert_ := c; requesterCertFormat_ := f; lastStoredCertPath_ := []; q_files := ∅; q_peer := (the_responder, None) |}.

Definition run (store : CertificateTrustStore) (q : @requester (responder * option bytes)) : result (requester * bool) :=
  performCertificateExchange der pem (Some send) (Some wire_receive) store (str "requester") q.

Lemma push_handled_witness :
  exists fs' response, handlePushCertificate der pem date date cmp 0%Z (handler the_responder) ∅ [] = Some (fs', response) /\ fs' = ∅.
Proof.
  destruct (push_handled der pem date date cmp 0%Z (handler the_responder) r_store ∅ [] eq_refl) as (fs' & response & Hh & Hc).
  exists fs', response. split; [exact Hh|]. destruct Hc as [-> _]. reflexivity.
Defined.

Lemma dispatch_total_witness :
  exists r' response, dispatchToHandler (handlers der pem date date cmp 0%Z yes) the_responder [x12; x10; x00; x00] = Some (r', response) /\
    handler r' = handler the_responder.
Proof.
  destruct (dispatch_total der pem date date cmp 0%Z yes r_store the_responder [x12; x10; x00; x00] eq_refl) as (r' & b & Hd & Hh & _).
  exists r', b. exact (conj Hd Hh).
Defined.

Lemma exchange_correct_witness :
  exists q', run q_store (the_requester (str "-requester") PEM) = inr (q', true).
Proof.
  destruct (exchange_correct der pem date date cmp 0%Z yes q_store (str "requester") r_store (the_requester (str "-requester") PEM)
              the_responder eq_refl eq_refl) as (q' & He & _).
  exists q'. exact He.
Defined.

Lemma provisioned_correct_witness :
  exists q', setProvisionedState (Some send) (Some wire_receive) (the_requester [] DER) true = (q', true) /\
    dbusObject (q_peer q').1 = Some true.
Proof.
  destruct (provisioned_correct der pem date date cmp 0%Z yes (the_requester [] DER) the_responder true eq_refl) as (q' & He & Hp).
  exists q'. split; [exact He|]. rewrite Hp. reflexivity.
Defined.

Definition the_session : session :=
  {| s_responder := the_responder; lastReceivedMessage := []; dispatchRetryCount_ := 0; s_sent := [] |}.

Lemma session_serves_witness :
  exists s', startDispatch der pem date date cmp 0%Z yes yes the_session [(None, OTHER); (None, SUCCESS)] = Some (s', true) /\
    dispatchRetryCount_ s' < maxDispatchRetries_.
Proof.
  eexists. split; [reflexivity|].
  eapply (session_serves der pem date date cmp 0%Z yes yes the_session [(None, OTHER); (None, SUCCESS)] _ true); reflexivity.
Defined.

(** What both ends hold after an exchange. *)
Definition holdings (x : result (@requester (responder * option bytes) * bool)) : option (bool * bytes * bytes * bytes) :=
  match x with
  | inr (q, ok) => Some (ok, retrieveCertificate yes (str "/r") (r_files (q_peer q).1) (str "requester_responder") PEM,
                         retrieveCertificate yes (str "/q") (q_files q) (str "responder_requester") PEM, lastStoredCertPath_ q)
  | inl _ => None
  end.

Example exchanged_certificates :
  holdings (run q_store (the_requester (str "-requester") PEM)) =
  Some (true, str "-requester", str "-responder", str "/q/responder_requester.pem").
Proof. vm_compute. reflexivity. Qed.

(** An exchange whose certificate the requester cannot store succeeds all the same,
    with no path to show for it. *)
Example not_stored_succeeds :
  holdings (run (FileCertificateTrustStore no_disk yes yes der pem hash (str "/q")) (the_requester (str "-requester") PEM)) =
  Some (true, str "-requester", [], []).
Proof. vm_compute. reflexivity. Qed.

(** The format asked for is not looked at: a requester that asks for DER gets the
    PEM the responder has, and stores it as DER. *)
Example format_ignored :
  match run q_store (the_requester (str "0requester") DER) with
  | inr (q, ok) => ok = true /\ retrieveCertificate yes (str "/q") (q_files q) (str "responder_requester") DER = str "-responder" /\
                   der (str "-responder") = None
  | inl _ => False
  end.
Proof. vm_compute. split_and!; reflexivity. Qed.

(** A certificate whose dates cannot be compared is accepted: [X509_cmp_time] returns
    zero on error. *)
Example undated_accepted : validateCertificate der pem date date (fun _ _ => 0%Z) 0%Z (str "-requester") = true.
Proof. vm_compute. reflexivity. Qed.

(** A responder that reports an invalid certificate is taken to have set the state. *)
Example refused_taken_for_success :
  (setProvisionedState (Some (fun p _ => (p, true)))
     (Some (fun p => (p, (true, createSetProvisionedResponse version CERT_EXCHANGE_ERROR_INVALID_CERT))))
     {| requesterCert_ := []; requesterCertFormat_ := DER; lastStoredCertPath_ := []; q_files := ∅; q_peer := tt |} true).2 = true.
Proof. vm_compute. reflexivity. Qed.

End Sample.
