(* ===== verification/Measurements.v ===== *)
(** * What the SPDM requester reports: [spdm_certificate_client.hpp] and
      [spdm_measurement_client.hpp] of [examples/spdm/spdm_requester/src/]

    Certificate chains as PEM and measurements as base64.  The calls of libspdm are
    parameters: the certificate at an index of a chain, the certificate chain of a
    slot, the digests, and the measurement at an index. *)

From S2P Require Import Prelude SpdmMessages.

Local Open Scope Z_scope.

(** ** Base64 *)

Definition b64_table : bytes := str "ABCDEFGHIJKLMNOPQRSTUVWXYZabcdefghijklmnopqrstuvwxyz0123456789+/".

Definition b64_char (z : Z) : byte := nth (Z.to_nat z) b64_table x00.

(** The character for the six bits of [n] that begin at bit [k]. *)
Definition sextet (n k : Z) : byte := b64_char (Z.land (Z.shiftr n k) 63).

Definition equals : byte := of_u8 61.

(** [encodeBase64], and the same loop in [derCertsToPem]. *)
Fixpoint encodeBase64 (data : bytes) : bytes :=
  match data with
  | a :: b :: c :: data =>
      let n := Z.lor (Z.lor (Z.shiftl (u8 a) 16) (Z.shiftl (u8 b) 8)) (u8 c) in
      [sextet n 18; sextet n 12; sextet n 6; sextet n 0] ++ encodeBase64 data
  | [a; b] =>
      let n := Z.lor (Z.shiftl (u8 a) 16) (Z.shiftl (u8 b) 8) in
      [sextet n 18; sextet n 12; sextet n 6; equals]
  | [a] => let n := Z.shiftl (u8 a) 16 in [sextet n 18; sextet n 12; equals; equals]
  | [] => []
  end.

(** ** Certificate chains *)

(** The lines of 64 characters; [fuel] bounds them. *)
Fixpoint base64Lines (fuel : nat) (base64 : bytes) : bytes :=
  match fuel with
  | 0%nat => []
  | S fuel => match base64 with
              | [] => []
              | _ => take 64 base64 ++ [x0a] ++ base64Lines fuel (drop 64 base64)
              end
  end.

Definition pem_begin : bytes := str "-----BEGIN CERTIFICATE-----" ++ [x0a].
Definition pem_end : bytes := str "-----END CERTIFICATE-----" ++ [x0a].

Definition pem_of (cert : bytes) : bytes :=
  let base64 := encodeBase64 cert in pem_begin ++ base64Lines (length base64) base64 ++ pem_end.

Section client.

(** [libspdm_x509_get_cert_from_cert_chain] *)
Context (get_cert : bytes -> nat -> option bytes).

(** The loop of [derCertsToPem]; [fuel] bounds the certificates. *)
Fixpoint pem_loop (fuel : nat) (derCerts : bytes) (index currentCertLen : nat) (pemChain lastCert : bytes) : option (bytes * bytes) :=
  if (currentCertLen <? length derCerts)%nat then
    match get_cert derCerts index with
    | None => Some (pemChain, lastCert)
    | Some cert =>
        match fuel with
        | 0%nat => None
        | S fuel => pem_loop fuel derCerts (S index) (currentCertLen + length cert)%nat (pemChain ++ pem_of cert) cert
        end
    end
  else Some (pemChain, lastCert).

Definition derCertsToPem (derCerts : bytes) : option (bytes * bytes) := pem_loop (length derCerts) derCerts 0 0 [] [].

(** [libspdm_get_certificate] of a slot, and the size of a hash. *)
Context (libspdm_get_certificate : nat -> option bytes) (hash_size : nat).

(** The PEM chain, the chain as received and the last certificate; the outer option
    is the loop that does not end, the inner one failure. *)
Definition getCertificate (slotId : nat) : option (option (bytes * bytes * bytes)) :=
  match libspdm_get_certificate slotId with
  | None => Some None
  | Some certChain =>
      if (length certChain <? 4 + hash_size)%nat then Some None
      else match derCertsToPem (drop (4 + hash_size) certChain) with
           | None => None
           | Some (pemChain, leafCert) => Some (Some (pemChain, certChain, leafCert))
           end
  end.

(** ** Measurements *)

(** [libspdm_get_measurement]: by operation, eight bits, and slot, eight bits. *)
Context (libspdm_get_measurement : Z -> Z -> option bytes).

Definition getSingleMeasurement (measurementIndex slotId : Z) : option bytes :=
  libspdm_get_measurement (wrapu 8 measurementIndex) (wrapu 8 slotId).

Definition processMeasurementData (measurementIndex : Z) (measurementData allMeasurements : bytes) : bytes :=
  if decide (measurementIndex = 0) then allMeasurements else allMeasurements ++ measurementData.

Fixpoint collect (indices : list Z) (slotId : Z) (allMeasurements : bytes) : option bytes :=
  match indices with
  | [] => Some allMeasurements
  | idx :: indices =>
      match getSingleMeasurement idx slotId with
      | None => None
      | Some data => collect indices slotId (processMeasurementData idx data allMeasurements)
      end
  end.

Definition getSignedMeasurementsImpl (measurementIndices : list Z) (nonce : bytes) (slotId : Z) : option bytes :=
  let indicesToProcess := match measurementIndices with [] => [255] | l => l end in
  match collect indicesToProcess slotId [] with
  | None => None
  | Some all => Some (encodeBase64 all)
  end.

End client.

(** ** Reading base64 back *)

(** The value of a character, by its place in the alphabet. *)
Definition b64_value (c : byte) : option Z :=
  match find_if (fun b => bool_decide (b = c)) b64_table with Some (i, _) => Some (Z.of_nat i) | None => None end.

Definition join4 (p q r s : Z) : Z := p * 2 ^ 18 + q * 2 ^ 12 + r * 2 ^ 6 + s.
Definition split3 (n : Z) : bytes := [of_u8 (n / 2 ^ 16); of_u8 (n / 2 ^ 8); of_u8 n].

(** The decoder of RFC 4648 for groups of four characters. *)
Fixpoint decode64 (s : bytes) : option bytes :=
  match s with
  | [] => Some []
  | a :: b :: c :: d :: rest =>
      match b64_value a, b64_value b, b64_value c, b64_value d with
      | Some p, Some q, Some r, Some s => option_map (app (split3 (join4 p q r s))) (decode64 rest)
      | Some p, Some q, Some r, None =>
          if bool_decide (d = equals /\ rest = []) then Some (take 2 (split3 (join4 p q r 0))) else None
      | Some p, Some q, None, None =>
          if bool_decide (c = equals /\ d = equals /\ rest = []) then Some (take 1 (split3 (join4 p q 0 0))) else None
      | _, _, _, _ => None
      end
  | _ => None
  end.

Definition b64_values_ok : bool :=
  forallb (fun k => bool_decide (b64_value (b64_char (Z.of_nat k)) = Some (Z.of_nat k))) (seq 0 64).

Lemma b64_value_char z : 0 <= z < 64 -> b64_value (b64_char z) = Some z.
Proof.
  intros Hz. assert (Hall : b64_values_ok = true) by (vm_compute; reflexivity). unfold b64_values_ok in Hall.
  rewrite forallb_forall in Hall. specialize (Hall (Z.to_nat z)). rewrite Z2Nat.id in Hall by lia.
  eapply bool_decide_unpack, Is_true_eq_left, Hall, in_seq. lia.
Qed.

Lemma sextet_value n k : 0 <= k -> b64_value (sextet n k) = Some ((n / 2 ^ k) mod 64).
Proof.
  intros Hk. unfold sextet. change 63 with (Z.ones 6). rewrite Z.land_ones, Z.shiftr_div_pow2 by lia.
  apply b64_value_char. apply Z.mod_pos_bound. done.
Qed.

Lemma lor_add x y k : 0 <= k -> 0 <= y < 2 ^ k -> Z.lor (Z.shiftl x k) y = x * 2 ^ k + y.
Proof. intros Hk Hy. rewrite Z.lor_comm, lor_shiftl by done. lia. Qed.

Lemma join_sextets n : 0 <= n < 2 ^ 24 ->
  join4 (n / 2 ^ 18 mod 64) (n / 2 ^ 12 mod 64) (n / 2 ^ 6 mod 64) (n / 2 ^ 0 mod 64) = n.
Proof. intros Hn. unfold join4. Z.to_euclidean_division_equations. lia. Qed.

Lemma split_bytes a b c : split3 (u8 a * 2 ^ 16 + u8 b * 2 ^ 8 + u8 c) = [a; b; c].
Proof.
  unfold split3. pose proof (u8_range a). pose proof (u8_range b). pose proof (u8_range c).
  repeat (f_equal; try (apply u8_eq_iff; rewrite u8_of_u8; Z.to_euclidean_division_equations; lia)).
Qed.

Lemma triple_value a b c :
  Z.lor (Z.lor (Z.shiftl (u8 a) 16) (Z.shiftl (u8 b) 8)) (u8 c) = u8 a * 2 ^ 16 + u8 b * 2 ^ 8 + u8 c.
Proof.
  pose proof (u8_range a). pose proof (u8_range b). pose proof (u8_range c).
  change 16 with (8 + 8). rewrite <- Z.shiftl_shiftl, <- Z.shiftl_lor by lia. rewrite !lor_add by lia. lia.
Qed.

Lemma pair_value a b : Z.lor (Z.shiftl (u8 a) 16) (Z.shiftl (u8 b) 8) = u8 a * 2 ^ 16 + u8 b * 2 ^ 8 + u8 x00.
Proof. rewrite <- triple_value. by rewrite Z.lor_0_r. Qed.

Lemma single_value a : Z.shiftl (u8 a) 16 = u8 a * 2 ^ 16 + u8 x00 * 2 ^ 8 + u8 x00.
Proof. rewrite Z.shiftl_mul_pow2 by done. change (u8 x00) with 0. lia. Qed.

Lemma triple_range a b c : 0 <= u8 a * 2 ^ 16 + u8 b * 2 ^ 8 + u8 c < 2 ^ 24.
Proof. pose proof (u8_range a). pose proof (u8_range b). pose proof (u8_range c). lia. Qed.

Lemma list_ind3 {A} (P : list A -> Prop) :
  P [] -> (forall a, P [a]) -> (forall a b, P [a; b]) -> (forall a b c l, P l -> P (a :: b :: c :: l)) -> forall l, P l.
Proof.
  intros H0 H1 H2 H3 l. induction l as [l IH] using (well_founded_induction (Wf_nat.well_founded_ltof _ length)).
  unfold Wf_nat.ltof in IH. destruct l as [|a [|b [|c l]]]; auto. apply H3, IH. simpl. lia.
Qed.

(** What [encodeBase64] writes is read back by a decoder of base64. *)
Theorem base64_roundtrip data : decode64 (encodeBase64 data) = Some data.
Proof.
  induction data as [|a|a b|a b c data IH] using list_ind3; [done| | |]; cbn [encodeBase64 decode64 app].
  - rewrite !sextet_value by lia. assert (b64_value equals = None) as -> by (vm_compute; reflexivity).
    rewrite bool_decide_true by done. rewrite single_value.
    replace (join4 _ _ _ _) with (u8 a * 2 ^ 16 + u8 x00 * 2 ^ 8 + u8 x00); [by rewrite split_bytes|].
    rewrite <- (join_sextets (_ + _ + _)) at 1 by apply triple_range. change (u8 x00) with 0.
    pose proof (u8_range a). unfold join4. Z.to_euclidean_division_equations. lia.
  - rewrite !sextet_value by lia. assert (b64_value equals = None) as -> by (vm_compute; reflexivity).
    rewrite bool_decide_true by done. rewrite pair_value.
    replace (join4 _ _ _ _) with (u8 a * 2 ^ 16 + u8 b * 2 ^ 8 + u8 x00); [by rewrite split_bytes|].
    rewrite <- (join_sextets (_ + _ + _)) at 1 by apply triple_range. change (u8 x00) with 0.
    pose proof (u8_range a). pose proof (u8_range b). unfold join4. Z.to_euclidean_division_equations. lia.
  - rewrite !sextet_value by lia. rewrite triple_value, join_sextets by apply triple_range.
    rewrite split_bytes, IH. done.
Qed.

(** ** Reading PEM back *)

Lemma encode_chars data : Forall (fun c => c <> x0a /\ c <> x2d) (encodeBase64 data).
Proof.
  assert (Hs : forall n k, 0 <= k -> sextet n k <> x0a /\ sextet n k <> x2d).
  { intros n k Hk. pose proof (sextet_value n k Hk) as Hv.
    split; intros He; rewrite He in Hv; vm_compute in Hv; discriminate. }
  assert (He : equals <> x0a /\ equals <> x2d) by done.
  induction data as [|a|a b|a b c data IH] using list_ind3; cbn [encodeBase64 app]; repeat first [done | apply Forall_cons; split | apply Hs; lia].
  all: by apply Forall_nil.
Qed.

Lemma filter_same {A} (P : A -> Prop) `{forall x, Decision (P x)} l : Forall P l -> filter P l = l.
Proof. induction 1 as [|x l Hx _ IH]; [done|]. by rewrite filter_cons_True, IH by done. Qed.

Lemma lines_joined fuel b :
  (length b <= fuel)%nat -> Forall (fun c => c <> x0a /\ c <> x2d) b ->
  filter (fun c => c <> x0a) (base64Lines fuel b) = b /\ x2d ∉ base64Lines fuel b.
Proof.
  revert b. induction fuel as [|fuel IH]; intros b Hl Hb; [destruct b; simpl in *; [split; [done|set_solver]|lia]|].
  cbn [base64Lines]. destruct b as [|c b]; [split; [done|set_solver]|].
  assert (Hd : (length (drop 64 (c :: b)) <= fuel)%nat) by (rewrite length_drop; simpl in *; lia).
  destruct (IH (drop 64 (c :: b)) Hd (Forall_drop _ 64 _ Hb)) as [Hf Hm].
  pose proof (Forall_take _ 64 _ Hb) as Ht. split.
  - rewrite !filter_app, Hf, filter_same by (eapply Forall_impl; [done|by intros ? []]).
    rewrite filter_cons_False by (intros Hn; by apply Hn). rewrite filter_nil. apply take_drop.
  - rewrite !not_elem_of_app. split; [|split; [by rewrite list_elem_of_singleton|done]].
    intros Hin. rewrite Forall_forall in Ht. by destruct (Ht _ Hin).
Qed.

(** The end line is found where it stands. *)
Lemma find_end c p body rest : c ∉ body -> find_sub (c :: p) (body ++ (c :: p) ++ rest) = Some (length body).
Proof.
  induction body as [|b body IH]; intros Hc.
  - cbn [app length find_sub]. rewrite bool_decide_true; [done|]. by exists rest.
  - cbn [app length find_sub]. rewrite bool_decide_false by (intros [k [= -> _]]; set_solver).
    change (c :: p ++ rest) with ((c :: p) ++ rest). rewrite IH by set_solver. done.
Qed.

(** A reader of PEM: a certificate and what follows it. *)
Definition read_pem (s : bytes) : option (bytes * bytes) :=
  if bool_decide (take (length pem_begin) s = pem_begin) then
    let s := drop (length pem_begin) s in
    match find_sub pem_end s with
    | None => None
    | Some i =>
        match decode64 (filter (fun c => c <> x0a) (take i s)) with
        | Some cert => Some (cert, drop (i + length pem_end) s)
        | None => None
        end
    end
  else None.

Lemma read_pem_of cert rest : read_pem (pem_of cert ++ rest) = Some (cert, rest).
Proof.
  unfold read_pem, pem_of. rewrite <- !app_assoc. rewrite take_app_length, bool_decide_true, drop_app_length by done.
  destruct (lines_joined (length (encodeBase64 cert)) (encodeBase64 cert)) as [Hf Hm]; [lia|apply encode_chars|].
  assert (pem_end = x2d :: tail pem_end) as He by (vm_compute; reflexivity).
  assert (Hfind : forall body, x2d ∉ body -> find_sub pem_end (body ++ pem_end ++ rest) = Some (length body))
    by (rewrite He; intros body; apply find_end).
  rewrite Hfind, take_app_length, Hf, base64_roundtrip by done. rewrite <- drop_drop, !drop_app_length. done.
Qed.

(** The certificates of a PEM text; [fuel] bounds them. *)
Fixpoint read_chain (fuel : nat) (s : bytes) : option (list bytes) :=
  match s, fuel with
  | [], _ => Some []
  | _, 0%nat => None
  | _, S fuel => match read_pem s with Some (cert, s) => option_map (cons cert) (read_chain fuel s) | None => None end
  end.

Lemma read_chain_of certs : read_chain (length certs) (concat (map pem_of certs)) = Some certs.
Proof.
  induction certs as [|c certs IH]; [done|]. cbn [map concat length read_chain].
  destruct (pem_of c ++ concat (map pem_of certs)) as [|x l] eqn:Hs; [unfold pem_of in Hs; by apply app_eq_nil in Hs as [Hs _]; apply app_eq_nil in Hs as [Hs _]|].
  rewrite <- Hs, read_pem_of, IH. done.
Qed.

(** ** Chains *)

Section chain.

Context (get_cert : bytes -> nat -> option bytes) (certs : list bytes).
Hypothesis get_cert_at : forall i, get_cert (concat certs) i = certs !! i.
Hypothesis certs_nonempty : Forall (fun c => c <> []) certs.

Lemma pem_loop_spec fuel i :
  (length (concat (drop i certs)) <= fuel)%nat ->
  forall pem lastCert, pem_loop get_cert fuel (concat certs) i (length (concat (take i certs))) pem lastCert =
    Some (pem ++ concat (map pem_of (drop i certs)), default lastCert (last (drop i certs))).
Proof.
  revert i. induction fuel as [|fuel IH]; intros i Hf pem lastCert; unfold pem_loop; fold pem_loop;
    destruct (certs !! i) as [c|] eqn:Hc.
  - exfalso. rewrite (drop_S _ _ _ Hc) in Hf. simpl in Hf. rewrite length_app in Hf.
    rewrite Forall_forall in certs_nonempty. apply list_elem_of_lookup_2 in Hc. specialize (certs_nonempty _ Hc). destruct c; simpl in Hf; [done|lia].
  - apply lookup_ge_None in Hc. rewrite drop_ge, app_nil_r by done. rewrite take_ge, Nat.ltb_irrefl by done. done.
  - assert (Hlen : (length (concat (take i certs)) + length (concat (drop i certs)) = length (concat certs))%nat).
    { rewrite <- length_app, <- concat_app, take_drop. done. }
    rewrite (drop_S _ _ _ Hc) in *. simpl in Hf, Hlen. rewrite length_app in Hf, Hlen.
    assert (length c <> 0)%nat.
    { rewrite Forall_forall in certs_nonempty. apply list_elem_of_lookup_2 in Hc. specialize (certs_nonempty _ Hc). by destruct c. }
    rewrite (proj2 (Nat.ltb_lt _ _)) by lia. rewrite get_cert_at, Hc.
    replace (length (concat (take i certs)) + length c)%nat with (length (concat (take (S i) certs))).
    2:{ rewrite (take_S_r _ _ _ Hc), concat_app, length_app. simpl. by rewrite app_nil_r. }
    rewrite IH by lia. cbn [map concat]. rewrite <- app_assoc, last_cons. by destruct (last (drop (S i) certs)).
  - apply lookup_ge_None in Hc. rewrite drop_ge, app_nil_r by done. rewrite take_ge, Nat.ltb_irrefl by done. done.
Qed.

(** A chain of certificates, none of them empty, becomes the PEM of each in
    turn, from which the certificates are read back, and the last certificate is the
    last of the chain; the loop ends. *)
Theorem derCertsToPem_correct :
  exists pem, derCertsToPem get_cert (concat certs) = Some (pem, default [] (last certs)) /\
    pem = concat (map pem_of certs) /\ read_chain (length certs) pem = Some certs.
Proof.
  exists (concat (map pem_of certs)). split; [|split; [done|apply read_chain_of]].
  unfold derCertsToPem. apply (pem_loop_spec (length (concat certs)) 0). done.
Qed.

End chain.

Lemma derCertsToPem_correct_witness :
  exists pem, derCertsToPem (fun _ i => [str "root"; str "leaf"] !! i) (str "rootleaf") = Some (pem, str "leaf") /\
    read_chain 2 pem = Some [str "root"; str "leaf"].
Proof.
  destruct (derCertsToPem_correct (fun _ i => [str "root"; str "leaf"] !! i) [str "root"; str "leaf"]) as (pem & Hp & _ & Hr).
  - reflexivity.
  - repeat constructor; discriminate.
  - exists pem. exact (conj Hp Hr).
Defined.

(** ** Measurements *)

Lemma collect_spec get indices slot acc :
  match mapM (fun i => getSingleMeasurement get i slot) indices with
  | Some data => collect get indices slot acc =
      Some (acc ++ concat (map (fun p => if decide (p.1 = 0) then [] else p.2) (zip indices data)))
  | None => collect get indices slot acc = None
  end.
Proof.
  revert acc. induction indices as [|i indices IH]; intros acc; cbn [mapM collect]; [simpl; by rewrite app_nil_r|].
  destruct (getSingleMeasurement get i slot) as [d|]; [|done]. simpl. specialize (IH (processMeasurementData i d acc)).
  destruct (mapM _ indices) as [data|]; [|done]. simpl. rewrite IH. f_equal. unfold processMeasurementData.
  case_decide; [done|]. by rewrite app_assoc.
Qed.

(** Signed measurements are the data of the measurements asked for, in the order
    of the request and with those at index zero left out, or all of them when no
    index is given; the text returned decodes to exactly these bytes.  One that fails
    makes the whole request fail. *)
Theorem measurements_reported get indices nonce slot :
  let wanted := match indices with [] => [255] | l => l end in
  match mapM (fun i => getSingleMeasurement get i slot) wanted with
  | Some data => exists text, getSignedMeasurementsImpl get indices nonce slot = Some text /\
      decode64 text = Some (concat (map (fun p => if decide (p.1 = 0) then [] else p.2) (zip wanted data)))
  | None => getSignedMeasurementsImpl get indices nonce slot = None
  end.
Proof.
  intros wanted. unfold getSignedMeasurementsImpl. fold wanted. pose proof (collect_spec get wanted slot []) as Hc.
  destruct (mapM _ wanted) as [data|]; rewrite Hc; [|done]. eexists. split; [done|]. apply base64_roundtrip.
Qed.

(** The nonce of a request reaches no-one: another nonce gives the same measurements. *)
Lemma nonce_ignored get indices nonce nonce' slot :
  getSignedMeasurementsImpl get indices nonce slot = getSignedMeasurementsImpl get indices nonce' slot.
Proof. done. Qed.

(** An index is cut to eight bits: 256 asks for measurement 0, the number of
    measurements, and that number is appended as if it were one. *)
Example index_wraps : getSignedMeasurementsImpl (fun op _ => if decide (op = 0) then Some [x05] else None) [256] [] 0 = Some (str "BQ==").
Proof. vm_compute. reflexivity. Qed.

Example base64_vectors :
  map encodeBase64 [[]; str "f"; str "fo"; str "foo"; str "foob"] = [[]; str "Zg=="; str "Zm8="; str "Zm9v"; str "Zm9vYg=="].
Proof. vm_compute. reflexivity. Qed.
