(* ===== verification/I2c.v ===== *)
(** * I2C devices: [include/i2c_client.hpp] and
      [examples/i2c_service/i2c_service.cpp]

    The coroutines of a client are programs over the operations of one device, in
    the order in which the code performs them; a program runs alone ([exec]) or, one
    suspension at a time, among the requests of the service ([sys_step]).  What the
    hardware does is a parameter, and so is which device a path and an address lead
    to: clients with different paths may share one. *)

From stdpp Require Import functions.
From S2P Require Import Prelude SpdmMessages.
From S2P Require TrustStore.

Inductive I2CError :=
  Success | OpenFailed | IoctlFailed | WriteFailed | ReadFailed | InvalidAddress | DeviceNotPresent | Timeout | RetryExhausted.

#[global] Instance I2CError_eq : EqDecision I2CError.
Proof. solve_decision. Defined.

Abbreviation I2CResult T := (I2CError + T)%type (only parsing).

(** ** Programs *)

(** A coroutine that uses one client: it asks whether the device is open, opens it,
    writes or reads some bytes, or waits on a timer.  The result of a write is the
    number of bytes, that of a read the bytes; [None] is an error code. *)
Inductive io (A : Type) :=
  | Ret (a : A)
  | IsOpen (k : bool -> io A)
  | DoOpen (k : I2CError -> io A)
  | WriteSome (data : bytes) (k : option nat -> io A)
  | ReadSome (n : nat) (k : option bytes -> io A)
  | Sleep (ms : Z) (k : io A).
Arguments Ret {A} a.
Arguments IsOpen {A} k.
Arguments DoOpen {A} k.
Arguments WriteSome {A} data k.
Arguments ReadSome {A} n k.
Arguments Sleep {A} ms k.

Fixpoint bind {A B : Type} (p : io A) (f : A -> io B) : io B :=
  match p with
  | Ret a => f a
  | IsOpen k => IsOpen (fun b => bind (k b) f)
  | DoOpen k => DoOpen (fun e => bind (k e) f)
  | WriteSome data k => WriteSome data (fun r => bind (k r) f)
  | ReadSome n k => ReadSome n (fun r => bind (k r) f)
  | Sleep ms k => Sleep ms (bind k f)
  end.

Declare Scope io_scope.
Delimit Scope io_scope with io.
Notation "x <- p ;; q" := (bind p (fun x => q)) (at level 100, p at next level, right associativity) : io_scope.
Local Open Scope io_scope.

(** An error ends what follows. *)
Definition on_success {A B : Type} (r : I2CResult A) (f : A -> io (I2CResult B)) : io (I2CResult B) :=
  match r with inl e => Ret (inl e) | inr a => f a end.

(** ** The client *)

(** The loop of [write] and of [read]: [n] attempts remain, [attempt] is their
    number so far, [accept] the test of the result. *)
Fixpoint retry {X A : Type} (op : (option X -> io (I2CResult A)) -> io (I2CResult A)) (accept : X -> option A)
  (n attempt : nat) : io (I2CResult A) :=
  match n with
  | 0 => Ret (inl RetryExhausted)
  | S n =>
      op (fun r =>
        match (match r with Some x => accept x | None => None end) with
        | Some a => Ret (inr a)
        | None => if 0 <? n then Sleep (100 * 2 ^ Z.of_nat attempt)%Z (retry op accept n (S attempt))
                  else Ret (inl RetryExhausted)
        end)
  end.

Section client.

Context (maxRetries_ : nat).

Definition write (data : bytes) : io (I2CResult nat) :=
  IsOpen (fun o =>
    if negb o then Ret (inl OpenFailed)
    else if decide (data = []) then Ret (inr 0)
    else retry (WriteSome data) (fun n => if n =? length data then Some n else None) maxRetries_ 0).

(** [read] into a buffer of [size] bytes: the bytes that were read. *)
Definition read (size : nat) : io (I2CResult bytes) :=
  IsOpen (fun o =>
    if negb o then Ret (inl OpenFailed)
    else if decide (size = 0) then Ret (inr [])
    else retry (ReadSome size) (fun b => if decide (b = []) then None else Some b) maxRetries_ 0).

Definition writeWithValidation (data : bytes) (validateFn : option bool) : io (I2CResult nat) :=
  r <- write data ;; on_success r (fun n => match validateFn with Some false => Ret (inl WriteFailed) | _ => Ret (inr n) end).

Definition readTyped (T : Type) `{POD T} : io (I2CResult T) :=
  r <- read (sizeof T) ;; on_success r (fun b => if decide (length b = sizeof T) then Ret (inr (pod_at b)) else Ret (inl ReadFailed)).

Definition writeTyped {T} `{POD T} (value : T) : io (I2CResult nat) := write (pod_bytes value).

Definition readRegister (T : Type) `{POD T} (reg : byte) : io (I2CResult T) :=
  r <- write [reg] ;; on_success r (fun _ => readTyped T).

Definition writeRegister {T} `{POD T} (reg : byte) (value : T) : io (I2CResult nat) := write (reg :: pod_bytes value).

Definition offset_bytes (offset : Z) : bytes := [of_u8 (Z.shiftr offset 8); of_u8 (Z.land offset 255)].

Definition readEEPROM (T : Type) `{POD T} (offset : Z) : io (I2CResult T) :=
  r <- write (offset_bytes offset) ;; on_success r (fun _ => readTyped T).

Definition writeEEPROM {T} `{POD T} (offset : Z) (data : T) : io (I2CResult nat) := write (offset_bytes offset ++ pod_bytes data).

(** The loop of [readRegisterBlock]: [count] registers from [startReg + i] on, a
    number of eight bits. *)
Fixpoint read_block (T : Type) `{POD T} (startReg : Z) (i count : nat) : io (I2CResult (list T)) :=
  match count with
  | 0 => Ret (inr [])
  | S count =>
      r <- readRegister T (of_u8 (startReg + Z.of_nat i)) ;;
      on_success r (fun v => rest <- read_block T startReg (S i) count ;; on_success rest (fun vs => Ret (inr (v :: vs))))
  end.

Definition readRegisterBlock (T : Type) `{POD T} (startReg : byte) (count : nat) : io (I2CResult (list T)) :=
  read_block T (u8 startReg) 0 count.

(** [readRegisters] is the same for a number of registers known at compile time. *)
Definition readRegisters (T : Type) `{POD T} (N : nat) (startReg : byte) : io (I2CResult (list T)) := read_block T (u8 startReg) 0 N.

Definition readVPD (T : Type) `{POD T} (offset : Z) : io (I2CResult T) := readEEPROM T offset.
Definition writeVPD {T} `{POD T} (offset : Z) (data : T) : io (I2CResult nat) := writeEEPROM offset data.

End client.

(** [I2CClient] is built with six attempts. *)
Definition default_retries : nat := 6.

(** ** Devices *)

(** The events of a run. *)
Inductive event := EOpen | EWrite (data : bytes) | ERead (n : nat) | ESleep (ms : Z).

Section device.

Context {D : Type} (hw_open hw_ioctl : D -> D * bool) (hw_write : D -> bytes -> D * option nat) (hw_read : D -> nat -> D * option bytes).

(** A client and the device behind it: [fd_], [stream_], and the hardware. *)
Record dstate := { fd_ : bool; stream_ : bool; hw : D }.

Definition isOpen (s : dstate) : bool := fd_ s && stream_ s.

Definition open (s : dstate) : dstate * I2CError :=
  match hw_open (hw s) with
  | (d, false) => ({| fd_ := fd_ s; stream_ := stream_ s; hw := d |}, OpenFailed)
  | (d, true) => match hw_ioctl d with
                 | (d, false) => ({| fd_ := true; stream_ := stream_ s; hw := d |}, IoctlFailed)
                 | (d, true) => ({| fd_ := true; stream_ := true; hw := d |}, Success)
                 end
  end.

Definition close (s : dstate) : dstate := {| fd_ := false; stream_ := false; hw := hw s |}.

Definition set_hw (s : dstate) (d : D) : dstate := {| fd_ := fd_ s; stream_ := stream_ s; hw := d |}.

(** A read gives at most the bytes asked for. *)
Definition read_some (s : dstate) (n : nat) : dstate * option bytes :=
  let '(d, r) := hw_read (hw s) n in (set_hw s d, option_map (take n) r).

Definition write_some (s : dstate) (data : bytes) : dstate * option nat :=
  let '(d, r) := hw_write (hw s) data in (set_hw s d, r).

(** A program run alone: the device, the events and the result. *)
Fixpoint exec {A : Type} (p : io A) (s : dstate) : dstate * list event * A :=
  match p with
  | Ret a => (s, [], a)
  | IsOpen k => exec (k (isOpen s)) s
  | DoOpen k => let '(s, e) := open s in let '(s, t, a) := exec (k e) s in (s, EOpen :: t, a)
  | WriteSome data k => let '(s, r) := write_some s data in let '(s, t, a) := exec (k r) s in (s, EWrite data :: t, a)
  | ReadSome n k => let '(s, r) := read_some s n in let '(s, t, a) := exec (k r) s in (s, ERead n :: t, a)
  | Sleep ms k => let '(s, t, a) := exec k s in (s, ESleep ms :: t, a)
  end.

Definition result_of {A : Type} (p : io A) (s : dstate) : A := (exec p s).2.
Definition after {A : Type} (p : io A) (s : dstate) : dstate := (exec p s).1.1.

(** *** The service *)

(** The PIC: commands with a header and a checksum. *)
Definition PicCommand_create (cmd : byte) : bytes := [xff; cmd; of_u8 (Z.lnot (Z.lxor 255 (u8 cmd)))].

Definition CMD_GET_VERSION : byte := x80.
Definition CMD_READ_PAIRING_STATE : byte := x81.
Definition CMD_READ_CREDENTIALS_FLAG : byte := x82.
Definition CMD_BMC_PAIRED : byte := x50.

(** Every method opens the client that is not open. *)
Definition ensure_open {A : Type} (failed : A) (p : io A) : io A :=
  IsOpen (fun o => if o then p else DoOpen (fun e => if decide (e = Success) then p else Ret failed)).

Definition int32 (z : Z) : Z := (let w := wrapu 32 z in if w <? 2 ^ 31 then w else w - 2 ^ 32)%Z.

Definition writeI2C (data : bytes) : io Z :=
  ensure_open (-1)%Z (r <- write default_retries data ;; Ret (match r with inl _ => (-1)%Z | inr n => int32 (Z.of_nat n) end)).

Definition readI2C (numBytes : nat) : io bytes :=
  ensure_open [] (r <- read default_retries numBytes ;; Ret (match r with inl _ => [] | inr b => b end)).

Definition writeReadI2C (writeData : bytes) (readBytes : nat) : io bytes :=
  ensure_open [] (w <- write default_retries writeData ;;
    match w with
    | inl _ => Ret []
    | inr _ => r <- read default_retries readBytes ;; Ret (match r with inl _ => [] | inr b => b end)
    end).

(** A command is written and [n] bytes are read: [readTyped] of a type of [n] bytes. *)
Definition pic_read (cmd : byte) (n : nat) : io (I2CResult bytes) :=
  w <- write default_retries (PicCommand_create cmd) ;;
  on_success w (fun _ => r <- read default_retries n ;;
    on_success r (fun b => if decide (length b = n) then Ret (inr b) else Ret (inl ReadFailed))).

Definition one_byte (r : I2CResult bytes) : byte := match r with inr [b] => b | _ => xff end.

Definition readPairingState : io byte := ensure_open xff (r <- pic_read CMD_READ_PAIRING_STATE 1 ;; Ret (one_byte r)).

Definition readCredentialsFlag : io byte := ensure_open xff (r <- pic_read CMD_READ_CREDENTIALS_FLAG 1 ;; Ret (one_byte r)).

Definition readVersion : io bytes :=
  ensure_open [] (r <- pic_read CMD_GET_VERSION 6 ;; Ret (match r with inl _ => [] | inr b => b end)).

Definition writePairingState : io bool :=
  ensure_open false (r <- write default_retries (PicCommand_create CMD_BMC_PAIRED) ;; Ret (match r with inl _ => false | inr _ => true end)).

(** The methods on D-Bus. *)
Inductive request :=
  | Write (data : bytes) | Read (numBytes : nat) | WriteRead (writeData : bytes) (readBytes : nat)
  | ReadPairingState | WritePairingState | ReadCredentialsFlag | ReadVersion.

Inductive reply := Int (z : Z) | Bytes (b : bytes) | Byte (b : byte) | Bool (b : bool).

Definition serve (r : request) : io reply :=
  match r with
  | Write data => z <- writeI2C data ;; Ret (Int z)
  | Read n => b <- readI2C n ;; Ret (Bytes b)
  | WriteRead data n => b <- writeReadI2C data n ;; Ret (Bytes b)
  | ReadPairingState => b <- readPairingState ;; Ret (Byte b)
  | WritePairingState => b <- writePairingState ;; Ret (Bool b)
  | ReadCredentialsFlag => b <- readCredentialsFlag ;; Ret (Byte b)
  | ReadVersion => b <- readVersion ;; Ret (Bytes b)
  end.

(** *** Several requests at once *)

(** The key of a client in [clients_]. *)
Definition client_key (devicePath : bytes) (slaveAddr : Z) : bytes := devicePath ++ [of_u8 58] ++ to_dec 5 slaveAddr.

(** [getOrCreateClient]: a client is known by its path and address. *)
Definition getOrCreateClient (clients_ : gmap bytes (bytes * Z)) (devicePath : bytes) (slaveAddr : Z) : gmap bytes (bytes * Z) * (bytes * Z) :=
  let key := client_key devicePath slaveAddr in
  match clients_ !! key with
  | Some client => (clients_, client)
  | None => (<[key := (devicePath, slaveAddr)]> clients_, (devicePath, slaveAddr))
  end.

(** The code between two suspensions: only the device's state is looked at. *)
Fixpoint quiet {A : Type} (p : io A) (s : dstate) : io A * dstate :=
  match p with
  | IsOpen k => quiet (k (isOpen s)) s
  | DoOpen k => let '(s, e) := open s in quiet (k e) s
  | _ => (p, s)
  end.

(** A coroutine resumed: what it waits for happens and it runs to its next
    suspension. *)
Definition turn {A : Type} (p : io A) (s : dstate) : io A * dstate :=
  match p with
  | WriteSome data k => let '(s, r) := write_some s data in quiet (k r) s
  | ReadSome n k => let '(s, r) := read_some s n in quiet (k r) s
  | Sleep _ k => quiet k s
  | _ => quiet p s
  end.

(** The device at a path and an address. *)
Context (wire : bytes * Z -> nat).

(** A request under way: its client, the rest of its program, and, for the record,
    what was asked and the device it found. *)
Record proc := { p_client : bytes * Z; p_prog : io reply; p_request : request; p_found : dstate }.

(** The service: [clients_], whether [fd_] and [stream_] of each client are there, the
    devices, the coroutines, the methods that wait for their futures with the innermost
    first, and the replies. *)
Record sys :=
  { clients_ : gmap bytes (bytes * Z); opens : bytes * Z -> bool * bool; devices : nat -> D; procs : gmap nat proc;
    waiting : list nat; replies : list (request * dstate * reply) }.

(** A client and the device behind it. *)
Definition view (s : sys) (c : bytes * Z) : dstate := {| fd_ := (opens s c).1; stream_ := (opens s c).2; hw := devices s (wire c) |}.

Inductive action := Arrive (id : nat) (devicePath : bytes) (slaveAddr : Z) (r : request) | Resume (id : nat) | Reply.

(** A method call spawns its coroutine, which looks up the client when it starts
    (here: at once, as nothing else depends on it), and polls the context, in which
    coroutines resume and further calls arrive; it replies when its future is ready
    and the calls that arrived inside it have been replied to. *)
Definition sys_step (s : sys) (a : action) : option sys :=
  match a with
  | Arrive id path addr r =>
      match procs s !! id with
      | Some _ => None
      | None =>
          let '(cs, c) := getOrCreateClient (clients_ s) path addr in
          Some {| clients_ := cs; opens := opens s; devices := devices s;
                  procs := <[id := {| p_client := c; p_prog := serve r; p_request := r; p_found := view s c |}]> (procs s);
                  waiting := id :: waiting s; replies := replies s |}
      end
  | Resume id =>
      match procs s !! id with
      | None => None
      | Some p =>
          let '(prog, d) := turn (p_prog p) (view s (p_client p)) in
          Some {| clients_ := clients_ s; opens := <[p_client p := (fd_ d, stream_ d)]> (opens s);
                  devices := <[wire (p_client p) := hw d]> (devices s);
                  procs := <[id := {| p_client := p_client p; p_prog := prog; p_request := p_request p; p_found := p_found p |}]> (procs s);
                  waiting := waiting s; replies := replies s |}
      end
  | Reply =>
      match waiting s with
      | [] => None
      | id :: rest =>
          match procs s !! id with
          | Some {| p_prog := Ret r; p_request := q; p_found := f |} =>
              Some {| clients_ := clients_ s; opens := opens s; devices := devices s; procs := delete id (procs s);
                      waiting := rest; replies := replies s ++ [(q, f, r)] |}
          | _ => None
          end
      end
  end.

Fixpoint sys_run (s : sys) (l : list action) : option sys :=
  match l with
  | [] => Some s
  | a :: l => match sys_step s a with Some s => sys_run s l | None => None end
  end.

(** ** One device *)

Lemma exec_bind {A B : Type} (p : io A) (f : A -> io B) s :
  exec (bind p f) s = let '(s1, t1, a) := exec p s in let '(s2, t2, b) := exec (f a) s1 in (s2, t1 ++ t2, b).
Proof.
  revert s. induction p as [a|k IH|k IH|data k IH|n k IH|ms k IH]; intros s; cbn [bind exec].
  - by destruct (exec (f a) s) as [[s2 t2] b].
  - apply IH.
  - destruct (open s) as [s1 e]. rewrite IH. destruct (exec (k e) s1) as [[s2 t2] a]. by destruct (exec (f a) s2) as [[s3 t3] b].
  - destruct (write_some s data) as [s1 r]. rewrite IH. destruct (exec (k r) s1) as [[s2 t2] a]. by destruct (exec (f a) s2) as [[s3 t3] b].
  - destruct (read_some s n) as [s1 r]. rewrite IH. destruct (exec (k r) s1) as [[s2 t2] a]. by destruct (exec (f a) s2) as [[s3 t3] b].
  - rewrite IH. destruct (exec k s) as [[s2 t2] a]. by destruct (exec (f a) s2) as [[s3 t3] b].
Qed.

Lemma quiet_exec {A : Type} (p : io A) s :
  let '(p', s') := quiet p s in result_of p' s' = result_of p s /\ after p' s' = after p s.
Proof.
  unfold result_of, after. revert s. induction p as [a|k IH|k IH|data k IH|n k IH|ms k IH]; intros s; cbn [quiet exec]; try done.
  - apply IH.
  - destruct (open s) as [s1 e]. specialize (IH e s1). destruct (quiet (k e) s1) as [p' s'].
    by destruct (exec (k e) s1) as [[s2 t2] a].
Qed.

(** A turn leaves what the program will come to as it was. *)
Lemma turn_exec {A : Type} (p : io A) s :
  let '(p', s') := turn p s in result_of p' s' = result_of p s /\ after p' s' = after p s.
Proof.
  destruct p as [a|k|k|data k|n k|ms k]; cbn [turn]; try apply quiet_exec.
  - destruct (write_some s data) as [s1 r] eqn:Hw. pose proof (quiet_exec (k r) s1) as Hq. destruct (quiet (k r) s1) as [p' s'].
    unfold result_of, after in *. cbn [exec]. rewrite Hw. by destruct (exec (k r) s1) as [[s2 t2] a].
  - destruct (read_some s n) as [s1 r] eqn:Hw. pose proof (quiet_exec (k r) s1) as Hq. destruct (quiet (k r) s1) as [p' s'].
    unfold result_of, after in *. cbn [exec]. rewrite Hw. by destruct (exec (k r) s1) as [[s2 t2] a].
  - pose proof (quiet_exec k s) as Hq. destruct (quiet k s) as [p' s']. unfold result_of, after in *. cbn [exec].
    by destruct (exec k s) as [[s2 t2] a].
Qed.

(** ** Clients *)

Lemma to_dec_no_colon n z : (0 <= z)%Z -> of_u8 58 ∉ to_dec n z.
Proof. intros Hz Hin. pose proof (to_dec_digits n z Hz) as Hd. rewrite Forall_forall in Hd. by specialize (Hd _ Hin). Qed.

(** The keys of different clients differ. *)
Lemma client_key_inj p p' a a' :
  is_uint 16 a -> is_uint 16 a' -> client_key p a = client_key p' a' -> (p, a) = (p', a').
Proof.
  unfold is_uint, client_key. intros Ha Ha' Hk. apply (f_equal (TrustStore.split_last (of_u8 58))) in Hk.
  change ([of_u8 58] ++ ?l) with (of_u8 58 :: l) in Hk.
  rewrite !TrustStore.split_last_app in Hk by (apply to_dec_no_colon; lia).
  assert (Hp : p = p') by congruence. assert (Hd : to_dec 5 a = to_dec 5 a') by congruence.
  apply (f_equal of_dec) in Hd. rewrite !of_to_dec in Hd by lia. congruence.
Qed.

(** Every client of the table is filed under its own key. *)
Definition clients_ok (cs : gmap bytes (bytes * Z)) : Prop :=
  forall k c, cs !! k = Some c -> is_uint 16 c.2 /\ k = client_key c.1 c.2.

(** The client found is the one asked for, and it is in the table from then on. *)
Lemma getOrCreateClient_correct cs path addr :
  clients_ok cs -> is_uint 16 addr ->
  let '(cs', c) := getOrCreateClient cs path addr in
  c = (path, addr) /\ clients_ok cs' /\ cs' !! client_key path addr = Some (path, addr).
Proof.
  intros Hok Ha. unfold getOrCreateClient. destruct (cs !! client_key path addr) as [c|] eqn:Hc.
  - destruct (Hok _ _ Hc) as [Hu Hk]. assert ((path, addr) = (c.1, c.2)) as He by (by apply client_key_inj).
    destruct c as [p a]. simpl in He. by simplify_eq.
  - split; [done|]. split; [|apply lookup_insert_eq]. intros k c. rewrite lookup_insert_Some. intros [[<- <-]|[_ Hk]]; [done|by apply Hok].
Qed.

End device.

(** ** Retries *)

Section retries.

Context {D : Type} (hw_open hw_ioctl : D -> D * bool) (hw_write : D -> bytes -> D * option nat) (hw_read : D -> nat -> D * option bytes).

Abbreviation exec := (exec hw_open hw_ioctl hw_write hw_read).

(** The events of [k] attempts from the one with number [i] on: the operation, and a
    wait that doubles, between each two. *)
Fixpoint attempts (e : event) (k i : nat) : list event :=
  match k with
  | 0 => []
  | 1 => [e]
  | S k => e :: ESleep (100 * 2 ^ Z.of_nat i)%Z :: attempts e k (S i)
  end.

(** The device after [k] operations. *)
Fixpoint nth_state {X : Type} (f : @dstate D -> @dstate D * X) (k : nat) (s : @dstate D) : @dstate D :=
  match k with 0 => s | S k => nth_state f k (f s).1 end.

Definition accepted {X A : Type} (accept : X -> option A) (r : option X) : option A :=
  match r with Some x => accept x | None => None end.

(** What a loop of retries comes to: the first attempt that is accepted, among as
    many as are left, ends it. *)
Lemma retry_spec {X A : Type} (op : (option X -> io (I2CError + A)) -> io (I2CError + A)) (f : @dstate D -> @dstate D * option X) e accept :
  (forall k s, exec (op k) s = let '(s1, r) := f s in let '(s2, t, a) := exec (k r) s1 in (s2, e :: t, a)) ->
  forall n i s,
  (exists k a, k < n /\ (forall j, j < k -> accepted accept (f (nth_state f j s)).2 = None) /\
     accepted accept (f (nth_state f k s)).2 = Some a /\
     exec (retry op accept n i) s = (nth_state f (S k) s, attempts e (S k) i, inr a)) \/
  ((forall j, j < n -> accepted accept (f (nth_state f j s)).2 = None) /\
     exec (retry op accept n i) s = (nth_state f n s, attempts e n i, inl RetryExhausted)).
Proof.
  intros Hop. induction n as [|n IH]; intros i s; [right; split; [lia|done]|].
  cbn [retry]. rewrite Hop. destruct (f s) as [s1 r] eqn:Hf.
  change (match r with Some x => accept x | None => None end) with (accepted accept r).
  destruct (accepted accept r) as [a|] eqn:Ha.
  - left. exists 0, a. split; [lia|]. split; [lia|]. simpl. rewrite Hf. split; [done|]. by destruct (f s1).
  - assert (Hext : forall m, (forall j, j < m -> accepted accept (f (nth_state f j s1)).2 = None) ->
      forall j, j < S m -> accepted accept (f (nth_state f j s)).2 = None).
    { intros m Hm [|j] Hj; simpl; rewrite Hf; simpl; [done|apply Hm; lia]. }
    destruct n as [|n].
    + right. split; [apply Hext; lia|]. simpl. by rewrite Hf.
    + rewrite (proj2 (Nat.ltb_lt 0 (S n))) by lia. cbn [I2c.exec].
      destruct (IH (S i) s1) as [(k & a & Hk & Hbelow & Hacc & ->)|[Hall ->]].
      * left. exists (S k), a. split; [lia|]. split; [by apply Hext|]. cbn [nth_state]. rewrite Hf. split; [done|]. done.
      * right. split; [by apply Hext|]. cbn [nth_state]. rewrite Hf. done.
Qed.

(** On an open device a write that is not empty is tried until the device takes
    all of it, at most as often as the client's limit, with a wait that doubles
    between two attempts; it reports the length, or that the attempts are exhausted. *)
Theorem write_retries n data s :
  isOpen s = true -> data <> [] ->
  let f s := write_some hw_write s data in
  (exists k, k < n /\ (forall j, j < k -> (f (nth_state f j s)).2 <> Some (length data)) /\
     (f (nth_state f k s)).2 = Some (length data) /\
     exec (write n data) s = (nth_state f (S k) s, attempts (EWrite data) (S k) 0, inr (length data))) \/
  ((forall j, j < n -> (f (nth_state f j s)).2 <> Some (length data)) /\
     exec (write n data) s = (nth_state f n s, attempts (EWrite data) n 0, inl RetryExhausted)).
Proof.
  intros Ho Hne f. unfold write. cbn [I2c.exec]. rewrite Ho. cbn [negb]. rewrite decide_False by done.
  assert (Hacc : forall r, accepted (fun n => if n =? length data then Some n else None) r = Some (length data) <-> r = Some (length data)).
  { intros [x|]; simpl; [|done]. destruct (Nat.eqb_spec x (length data)); naive_solver. }
  assert (Hnone : forall r, accepted (fun n => if n =? length data then Some n else None) r = None <-> r <> Some (length data)).
  { intros [x|]; simpl; [|done]. destruct (Nat.eqb_spec x (length data)); naive_solver. }
  destruct (retry_spec (WriteSome data) f (EWrite data) (fun n => if n =? length data then Some n else None)
    (fun k s => eq_refl) n 0 s) as [(k & a & Hk & Hbelow & Ha & ->)|[Hall ->]]; [left|right].
  - exists k. assert (a = length data) as ->.
    { revert Ha. destruct (f _).2 as [x|]; simpl; [|done]. destruct (Nat.eqb_spec x (length data)); congruence. }
    split; [done|]. split; [intros j Hj; by apply Hnone, Hbelow|]. split; [by apply Hacc|done].
  - split; [intros j Hj; by apply Hnone, Hall|done].
Qed.

(** A read ends with the first bytes that arrive, however few. *)
Lemma read_retries n size s :
  isOpen s = true -> size <> 0 ->
  let f s := read_some hw_read s size in
  (exists k b, k < n /\ (forall j, j < k -> default [] (f (nth_state f j s)).2 = []) /\
     b <> [] /\ (f (nth_state f k s)).2 = Some b /\
     exec (read n size) s = (nth_state f (S k) s, attempts (ERead size) (S k) 0, inr b)) \/
  ((forall j, j < n -> default [] (f (nth_state f j s)).2 = []) /\
     exec (read n size) s = (nth_state f n s, attempts (ERead size) n 0, inl RetryExhausted)).
Proof.
  intros Ho Hne f. unfold read. cbn [I2c.exec]. rewrite Ho. cbn [negb]. rewrite decide_False by done.
  assert (Hacc : forall r a, accepted (fun b : bytes => if decide (b = []) then None else Some b) r = Some a <-> r = Some a /\ a <> []).
  { intros [x|] a; simpl; [case_decide; naive_solver|naive_solver]. }
  assert (Hnone : forall r, accepted (fun b : bytes => if decide (b = []) then None else Some b) r = None <-> default [] r = []).
  { intros [x|]; simpl; [case_decide; naive_solver|naive_solver]. }
  destruct (retry_spec (ReadSome size) f (ERead size) (fun b : bytes => if decide (b = []) then None else Some b)
    (fun k s => eq_refl) n 0 s) as [(k & a & Hk & Hbelow & Ha & ->)|[Hall ->]]; [left|right].
  - exists k, a. apply Hacc in Ha as [Ha Hn]. split; [done|]. split; [intros j Hj; by apply Hnone, Hbelow|]. done.
  - split; [intros j Hj; by apply Hnone, Hall|done].
Qed.

End retries.

(** Six attempts wait 3.1 seconds in all. *)
Definition total_wait (t : list event) : Z := foldr (fun e z => match e with ESleep ms => ms + z | _ => z end)%Z 0%Z t.

Lemma attempts_wait e k i :
  (match e with ESleep _ => False | _ => True end) -> total_wait (attempts e (S k) i) = (100 * 2 ^ Z.of_nat i * (2 ^ Z.of_nat k - 1))%Z.
Proof.
  intros He. revert i. induction k as [|k IH]; intros i; [destruct e; simpl; lia|].
  change (attempts e (S (S k)) i) with (e :: ESleep (100 * 2 ^ Z.of_nat i) :: attempts e (S k) (S i)).
  cbn [total_wait foldr]. fold (total_wait (attempts e (S k) (S i))). rewrite IH, !Nat2Z.inj_succ, !Z.pow_succ_r by lia.
  destruct e; try done; ring.
Qed.

(** ** Commands of the PIC *)

(** The three bytes of a command cancel out to [0xFF]; the checksum is the command. *)
Lemma pic_checksum cmd :
  PicCommand_create cmd = [xff; cmd; cmd].
Proof.
  unfold PicCommand_create. do 2 f_equal. f_equal. apply u8_eq_iff. rewrite u8_of_u8. pose proof (u8_range cmd) as Hr.
  apply Z.bits_inj'. intros n Hn. change 256%Z with (2 ^ 8)%Z. destruct (decide (n < 8)%Z).
  - rewrite Z.mod_pow2_bits_low, Z.lnot_spec, Z.lxor_spec by lia. change 255%Z with (Z.ones 8).
    rewrite Z.ones_spec_low by lia. by destruct (Z.testbit (u8 cmd) n).
  - rewrite Z.mod_pow2_bits_high by lia. rewrite <- (Z.mod_small (u8 cmd) (2 ^ 8)), Z.mod_pow2_bits_high by lia. done.
Qed.

(** ** Requests *)

Section requests.

Context {D : Type} (hw_open hw_ioctl : D -> D * bool) (hw_write : D -> bytes -> D * option nat) (hw_read : D -> nat -> D * option bytes).
Context (wire : bytes * Z -> nat).

Abbreviation exec := (exec hw_open hw_ioctl hw_write hw_read).
Abbreviation result_of := (result_of hw_open hw_ioctl hw_write hw_read).
Abbreviation after := (after hw_open hw_ioctl hw_write hw_read).
Abbreviation step := (sys_step hw_open hw_ioctl hw_write hw_read wire).
Abbreviation run := (sys_run hw_open hw_ioctl hw_write hw_read wire).
Abbreviation view := (view wire).
Implicit Types (s : @sys D) (d : @dstate D).

(** *** What a request comes to *)

(** Of at most six attempts the first one that is good counts, and none is made after
    it; [r] is [None] when none is good. *)
Definition first_good {X : Type} (f : @dstate D -> @dstate D * option X) (good : X -> Prop) d (r : option X) d' : Prop :=
  (exists k x, k < 6 /\ (forall j y, j < k -> (f (nth_state f j d)).2 = Some y -> ~ good y) /\
     (f (nth_state f k d)).2 = Some x /\ good x /\ r = Some x /\ d' = nth_state f (S k) d) \/
  ((forall j y, j < 6 -> (f (nth_state f j d)).2 = Some y -> ~ good y) /\ r = None /\ d' = nth_state f 6 d).

(** Whether the device took all of the bytes; nothing to write is written. *)
Definition sent (data : bytes) d (taken : bool) d' : Prop :=
  (data = [] /\ taken = true /\ d' = d) \/
  (data <> [] /\ exists r, first_good (fun d => write_some hw_write d data) (fun n => n = length data) d r d' /\
                          taken = bool_decide (is_Some r)).

(** The bytes that arrived, at least one unless none was asked for. *)
Definition received (n : nat) d (r : option bytes) d' : Prop :=
  (n = 0 /\ r = Some [] /\ d' = d) \/
  (n <> 0 /\ first_good (fun d => read_some hw_read d n) (fun b => b <> []) d r d').

(** The answer to a message: [None] when the message is not taken or no answer comes. *)
Definition asked (message : bytes) (n : nat) d (r : option bytes) : Prop :=
  exists taken d1, sent message d taken d1 /\ (if taken then exists d2, received n d1 r d2 else r = None).

(** The answer of a PIC counts if it has all of its bytes. *)
Definition complete (n : nat) (r : option bytes) : option bytes :=
  match r with Some b => if decide (length b = n) then Some b else None | None => None end.

(** The reply to a request whose client could not be opened. *)
Definition refusal (q : request) : reply :=
  match q with
  | Write _ => Int (-1)
  | Read _ | WriteRead _ _ | ReadVersion => Bytes []
  | ReadPairingState | ReadCredentialsFlag => Byte xff
  | WritePairingState => Bool false
  end.

(** The reply to a request whose client is open. *)
Definition answered (q : request) d (r : reply) : Prop :=
  match q with
  | Write data => exists taken d', sent data d taken d' /\ r = Int (if taken then int32 (Z.of_nat (length data)) else -1)
  | Read n => exists b d', received n d b d' /\ r = Bytes (default [] b)
  | WriteRead data n => exists b, asked data n d b /\ r = Bytes (default [] b)
  | ReadPairingState => exists b, asked [xff; x81; x81] 1 d b /\ r = Byte (match complete 1 b with Some [c] => c | _ => xff end)
  | ReadCredentialsFlag => exists b, asked [xff; x82; x82] 1 d b /\ r = Byte (match complete 1 b with Some [c] => c | _ => xff end)
  | ReadVersion => exists b, asked [xff; x80; x80] 6 d b /\ r = Bytes (default [] (complete 6 b))
  | WritePairingState => exists taken d', sent [xff; x50; x50] d taken d' /\ r = Bool taken
  end.

(** A client that is not open is opened: the device is opened and takes the address. *)
Definition replied (q : request) d (r : reply) : Prop :=
  if isOpen d then answered q d r
  else match hw_open (hw d) with
       | (h, true) => match hw_ioctl h with
                      | (h, true) => answered q {| fd_ := true; stream_ := true; hw := h |} r
                      | (_, false) => r = refusal q
                      end
       | (_, false) => r = refusal q
       end.

Lemma nth_state_open {X : Type} (f : @dstate D -> @dstate D * X) k d :
  (forall d, isOpen (f d).1 = isOpen d) -> isOpen (nth_state f k d) = isOpen d.
Proof. intros Hf. revert d. induction k as [|k IH]; intros d; [done|]. cbn [nth_state]. by rewrite IH. Qed.

Lemma exec_write data d :
  isOpen d = true ->
  let '(d', t, r) := exec (write default_retries data) d in
  isOpen d' = true /\
  exists taken, sent data d taken d' /\ r = (if taken then inr (length data) else inl RetryExhausted).
Proof.
  intros Ho. unfold write. cbn [I2c.exec]. rewrite Ho. cbn [negb]. destruct (decide (data = [])) as [->|Hne].
  { split; [done|]. exists true. split; [by left|done]. }
  set (f := fun d => write_some hw_write d data).
  assert (Hopen : forall d, isOpen (f d).1 = isOpen d) by (intros d0; unfold f, write_some; by destruct (hw_write _ _)).
  destruct (retry_spec hw_open hw_ioctl hw_write hw_read (WriteSome data) f (EWrite data)
    (fun n => if n =? length data then Some n else None) (fun k d => eq_refl) default_retries 0 d) as [(k & a & Hk & Hlow & Ha & ->)|[Hall ->]].
  - split; [by rewrite nth_state_open|]. destruct (f (nth_state f k d)).2 as [x|] eqn:Hx; cbn in Ha; [|done].
    destruct (Nat.eqb_spec x (length data)) as [->|]; [|done]. injection Ha as <-. exists true. split; [|done]. right. split; [done|].
    exists (Some (length data)). split; [|done]. left. exists k, (length data). split_and!; try done. intros j y Hj Hy ->.
    specialize (Hlow j Hj). rewrite (Hy : (f (nth_state f j d)).2 = _) in Hlow. cbn in Hlow. by rewrite Nat.eqb_refl in Hlow.
  - split; [by rewrite nth_state_open|]. exists false. split; [|done]. right. split; [done|]. exists None. split; [|done]. right.
    split_and!; try done. intros j y Hj Hy ->. specialize (Hall j Hj). rewrite (Hy : (f (nth_state f j d)).2 = _) in Hall. cbn in Hall. by rewrite Nat.eqb_refl in Hall.
Qed.

Lemma exec_read n d :
  isOpen d = true ->
  let '(d', t, r) := exec (read default_retries n) d in
  exists b, received n d b d' /\ r = match b with Some b => inr b | None => inl RetryExhausted end.
Proof.
  intros Ho. unfold read. cbn [I2c.exec]. rewrite Ho. cbn [negb]. destruct (decide (n = 0)) as [->|Hne].
  { exists (Some []). split; [by left|done]. }
  set (f := fun d => read_some hw_read d n).
  destruct (retry_spec hw_open hw_ioctl hw_write hw_read (ReadSome n) f (ERead n)
    (fun b : bytes => if decide (b = []) then None else Some b) (fun k d => eq_refl) default_retries 0 d) as [(k & a & Hk & Hlow & Ha & ->)|[Hall ->]].
  - destruct (f (nth_state f k d)).2 as [x|] eqn:Hx; cbn in Ha; [|done]. destruct (decide (x = [])); [done|]. injection Ha as <-.
    exists (Some x). split; [|done]. right. split; [done|]. left. exists k, x. split_and!; try done. intros j y Hj Hy Hn.
    specialize (Hlow j Hj). rewrite (Hy : (f (nth_state f j d)).2 = _) in Hlow. cbn in Hlow. by rewrite decide_False in Hlow.
  - exists None. split; [|done]. right. split; [done|]. right. split_and!; try done. intros j y Hj Hy Hn.
    specialize (Hall j Hj). rewrite (Hy : (f (nth_state f j d)).2 = _) in Hall. cbn in Hall. by rewrite decide_False in Hall.
Qed.

Lemma result_bind {A B : Type} (p : io A) (f : A -> io B) d : result_of (bind p f) d = result_of (f (result_of p d)) (after p d).
Proof.
  unfold I2c.result_of, I2c.after. rewrite exec_bind. destruct (exec p d) as [[d1 t] a]. simpl. by destruct (exec (f a) d1) as [[d2 t'] b].
Qed.

Lemma result_write data d :
  isOpen d = true -> exists taken d', sent data d taken d' /\ isOpen d' = true /\ after (write default_retries data) d = d' /\
    result_of (write default_retries data) d = if taken then inr (length data) else inl RetryExhausted.
Proof.
  intros Ho. pose proof (exec_write data d Ho) as H. unfold I2c.result_of, I2c.after. destruct (exec _ d) as [[d' t] r].
  destruct H as (Ho' & taken & Hs & ->). by exists taken, d'.
Qed.

Lemma result_read n d :
  isOpen d = true -> exists b d', received n d b d' /\
    result_of (read default_retries n) d = match b with Some b => inr b | None => inl RetryExhausted end.
Proof.
  intros Ho. pose proof (exec_read n d Ho) as H. unfold I2c.result_of. destruct (exec _ d) as [[d' t] r].
  destruct H as (b & Hb & ->). by exists b, d'.
Qed.

(** A command and its answer. *)
Lemma result_pic cmd n d :
  isOpen d = true -> exists b, asked [xff; cmd; cmd] n d b /\
    match result_of (pic_read cmd n) d with inr c => complete n b = Some c | inl _ => complete n b = None end.
Proof.
  intros Ho. unfold pic_read. rewrite pic_checksum, result_bind.
  destruct (result_write [xff; cmd; cmd] d Ho) as ([] & d1 & Hs & Ho1 & -> & ->); cbn [on_success].
  - rewrite result_bind. destruct (result_read n d1 Ho1) as (b & d2 & Hr & ->). exists b. split; [exists true, d1; eauto|].
    destruct b as [b|]; cbn; [|done]. by destruct (decide (length b = n)).
  - exists None. split; [by exists false, d1|done].
Qed.

Lemma result_ensure {A : Type} (failed : A) (p : io A) d :
  result_of (ensure_open failed p) d =
    if isOpen d then result_of p d
    else match hw_open (hw d) with
         | (h, true) => match hw_ioctl h with
                        | (h, true) => result_of p {| fd_ := true; stream_ := true; hw := h |}
                        | (_, false) => failed
                        end
         | (_, false) => failed
         end.
Proof.
  unfold ensure_open, I2c.result_of. cbn [I2c.exec]. destruct (isOpen d); [done|]. cbn [I2c.exec]. unfold open.
  destruct (hw_open (hw d)) as [h []]; [|done]. destruct (hw_ioctl h) as [h' []]; [|done].
  rewrite decide_True by done. by destruct (exec p _) as [[d1 t] a].
Qed.

Lemma serve_replied q d : replied q d (result_of (serve q) d).
Proof.
  assert (Hgen : forall (T : Type) (failed : T) (p : io T) (wrap : T -> reply),
    refusal q = wrap failed -> (forall d, isOpen d = true -> answered q d (wrap (result_of p d))) ->
    replied q d (result_of (bind (ensure_open failed p) (fun x => Ret (wrap x))) d)).
  { intros T failed p wrap Hf Hp. rewrite result_bind. unfold I2c.result_of at 1. cbn [I2c.exec snd]. rewrite result_ensure.
    unfold replied. destruct (isOpen d) eqn:Ho; [by apply Hp|]. destruct (hw_open (hw d)) as [h []]; [|by rewrite Hf].
    destruct (hw_ioctl h) as [h' []]; [|by rewrite Hf]. by apply Hp. }
  destruct q as [data|n|data n| | | |]; cbn [serve];
    [apply (Hgen _ (-1)%Z _ Int)|apply (Hgen _ [] _ Bytes)|apply (Hgen _ [] _ Bytes)|apply (Hgen _ xff _ Byte)|apply (Hgen _ false _ Bool)|apply (Hgen _ xff _ Byte)|apply (Hgen _ [] _ Bytes)];
    try reflexivity; clear Hgen d; intros d Ho; rewrite result_bind; cbn [answered].
  - destruct (result_write data d Ho) as (taken & d' & Hs & _ & -> & ->). exists taken, d'. split; [done|]. by destruct taken.
  - destruct (result_read n d Ho) as (b & d' & Hr & ->). exists b, d'. split; [done|]. by destruct b.
  - destruct (result_write data d Ho) as ([] & d1 & Hs & Ho1 & -> & ->).
    + rewrite result_bind. destruct (result_read n d1 Ho1) as (b & d2 & Hr & ->). exists b. split; [exists true, d1; eauto|]. by destruct b.
    + exists None. split; [by exists false, d1|done].
  - destruct (result_pic CMD_READ_PAIRING_STATE 1 d Ho) as (b & Hb & Hr). exists b. split; [done|].
    destruct (result_of (pic_read _ 1) d) as [e|c]; by rewrite Hr.
  - rewrite pic_checksum. destruct (result_write [xff; CMD_BMC_PAIRED; CMD_BMC_PAIRED] d Ho) as (taken & d' & Hs & _ & -> & ->).
    exists taken, d'. split; [done|]. by destruct taken.
  - destruct (result_pic CMD_READ_CREDENTIALS_FLAG 1 d Ho) as (b & Hb & Hr). exists b. split; [done|].
    destruct (result_of (pic_read _ 1) d) as [e|c]; by rewrite Hr.
  - destruct (result_pic CMD_GET_VERSION 6 d Ho) as (b & Hb & Hr). exists b. split; [done|].
    destruct (result_of (pic_read _ 6) d) as [e|c]; by rewrite Hr.
Qed.

(** *** Requests do not disturb each other *)

(** No request arrives for a device that another request is using. *)
Definition alone (s : @sys D) (a : action) : Prop :=
  match a with
  | Arrive _ path addr _ => is_uint 16 addr /\ forall i p, procs s !! i = Some p -> wire (p_client p) <> wire (path, addr)
  | _ => True
  end.

Inductive reach (s : @sys D) : @sys D -> Prop :=
  | reach_refl : reach s s
  | reach_step s1 a s2 : reach s s1 -> alone s1 a -> step s1 a = Some s2 -> reach s s2.

(** Whether a schedule keeps to that. *)
Definition aloneb (s : @sys D) (a : action) : bool :=
  match a with
  | Arrive _ path addr _ =>
      bool_decide (0 <= addr < 2 ^ 16)%Z &&
      forallb (fun '(_, p) => bool_decide (wire (p_client p) <> wire (path, addr))) (map_to_list (procs s))
  | _ => true
  end.

Fixpoint all_alone (s : @sys D) (l : list action) : bool :=
  match l with
  | [] => true
  | a :: l => aloneb s a && match step s a with Some s => all_alone s l | None => false end
  end.

Lemma aloneb_correct s a : aloneb s a = true -> alone s a.
Proof.
  destruct a as [id path addr r| |]; [|done..]. simpl. intros [Ha Hf]%andb_prop. split; [by apply bool_decide_eq_true in Ha|].
  intros i p Hp. rewrite forallb_forall in Hf. specialize (Hf (i, p)). apply bool_decide_eq_true in Hf; [done|].
  by apply list_elem_of_In, elem_of_map_to_list.
Qed.

Lemma reach_run l s s' : run s l = Some s' -> all_alone s l = true -> reach s s'.
Proof.
  intros Hrun Hall. assert (Hgen : forall s0, reach s0 s -> reach s0 s'); [|by apply Hgen; constructor].
  revert s Hrun Hall. induction l as [|a l IH]; intros s Hrun Hall s0 Hs0; simpl in *; [by injection Hrun as <-|].
  apply andb_prop in Hall as [Ha Hall]. destruct (step s a) as [s1|] eqn:Hstep; [|done].
  apply (IH s1); [done|done|]. eapply reach_step; [done|by apply aloneb_correct|done].
Qed.

Record sys_ok (s : @sys D) : Prop :=
  { ok_clients : clients_ok (clients_ s);
    ok_distinct : forall i j p q, procs s !! i = Some p -> procs s !! j = Some q -> wire (p_client p) = wire (p_client q) -> i = j;
    ok_procs : forall i p, procs s !! i = Some p ->
      result_of (p_prog p) (view s (p_client p)) = result_of (serve (p_request p)) (p_found p) /\
      after (p_prog p) (view s (p_client p)) = after (serve (p_request p)) (p_found p);
    ok_replies : forall q f r, (q, f, r) ∈ replies s -> r = result_of (serve q) f }.

Lemma sys_ok_step s a s' : sys_ok s -> alone s a -> step s a = Some s' -> sys_ok s'.
Proof.
  intros [Hc Hd Hp Hr] Ha Hs. destruct a as [id path addr r|id|]; cbn [sys_step] in Hs.
  - destruct (procs s !! id) eqn:Hid; [done|]. destruct Ha as [Hu Hfree].
    pose proof (getOrCreateClient_correct _ path addr Hc Hu) as Hg.
    destruct (getOrCreateClient _ _ _) as [cs c]. destruct Hg as (-> & Hcs & _). injection Hs as <-.
    split; simpl; [done| | |done].
    + intros i j p q. rewrite !lookup_insert_Some. intros [[<- <-]|[Hi Hpi]] [[<- <-]|[Hj Hpj]] He; simpl in He; [done|..|by eapply Hd].
      * by destruct (Hfree _ _ Hpj).
      * by destruct (Hfree _ _ Hpi).
    + intros i p. rewrite lookup_insert_Some. intros [[<- <-]|[_ Hpi]]; [done|by eapply Hp].
  - destruct (procs s !! id) as [p|] eqn:Hid; [|done]. pose proof (turn_exec hw_open hw_ioctl hw_write hw_read (p_prog p) (view s (p_client p))) as Ht.
    destruct (turn _ _ _ _ _ _) as [prog d]. destruct (Hp _ _ Hid) as [Hp1 Hp2]. destruct Ht as [Ht1 Ht2]. injection Hs as <-.
    split; simpl; [done| | |done].
    + intros i j p1 q. rewrite !lookup_insert_Some. intros [[<- <-]|[Hi Hpi]] [[<- <-]|[Hj Hpj]] He; simpl in He; [done|..|by eapply Hd].
      * destruct Hj. by eapply Hd.
      * destruct Hi. by eapply Hd.
    + intros i q. rewrite lookup_insert_Some. intros [[<- <-]|[Hi Hq]]; simpl.
      * unfold I2c.view. simpl. rewrite !fn_lookup_insert. simpl. destruct d. simpl in *. by rewrite Ht1, Ht2.
      * assert (Hw : wire (p_client p) <> wire (p_client q)) by (intros He; destruct Hi; by eapply Hd).
        unfold I2c.view. simpl. rewrite !fn_lookup_insert_ne by congruence. by apply (Hp i q).
  - destruct (waiting s) as [|id rest]; [done|]. destruct (procs s !! id) as [[c prog q f]|] eqn:Hid; [|done].
    destruct prog as [r| | | | |]; try done. injection Hs as <-. destruct (Hp _ _ Hid) as [Hp1 _]. split; simpl; [done| | |].
    + intros i j p1 q1. rewrite !lookup_delete_Some. intros [_ Hpi] [_ Hpj]. by eapply Hd.
    + intros i p. rewrite lookup_delete_Some. intros [_ Hpi]. by eapply Hp.
    + intros q1 f1 r1. rewrite elem_of_app, list_elem_of_singleton. intros [Hin|[= -> -> ->]]; [by apply Hr|done].
Qed.


End requests.

(** ** An EEPROM *)

(** The protocol that [readEEPROM] and [writeEEPROM] are written for: the first two
    bytes of a message set the address, the rest is stored from there on, and a read
    continues at the address; addresses have sixteen bits. *)
Module Eeprom.

Record t := { mem : Z -> byte; addr : Z }.

Fixpoint store (m : Z -> byte) (a : Z) (data : bytes) : Z -> byte :=
  match data with
  | [] => m
  | b :: data => store (<[wrapu 16 a := b]> m) (a + 1)%Z data
  end.

Fixpoint fetch (m : Z -> byte) (a : Z) (n : nat) : bytes :=
  match n with 0 => [] | S n => m (wrapu 16 a) :: fetch m (a + 1)%Z n end.

Definition on_write (e : t) (message : bytes) : t * option nat :=
  match message with
  | hi :: lo :: data =>
      let a := (u8 hi * 256 + u8 lo)%Z in
      ({| mem := store (mem e) a data; addr := wrapu 16 (a + Z.of_nat (length data)) |}, Some (length message))
  | _ => (e, None)
  end.

Definition on_read (e : t) (n : nat) : t * option bytes :=
  ({| mem := mem e; addr := wrapu 16 (addr e + Z.of_nat n) |}, Some (fetch (mem e) (addr e) n)).

Definition always (e : t) : t * bool := (e, true).

Abbreviation exec := (exec always always on_write on_read) (only parsing).

Lemma offset_value offset : is_uint 16 offset -> (u8 (of_u8 (Z.shiftr offset 8)) * 256 + u8 (of_u8 (Z.land offset 255)) = offset)%Z.
Proof.
  unfold is_uint. intros Ho. rewrite !u8_of_u8. change 255%Z with (Z.ones 8). rewrite Z.land_ones, Z.shiftr_div_pow2 by lia.
  Z.to_euclidean_division_equations. lia.
Qed.

Lemma store_other m a data x :
  (forall j, (0 <= j < Z.of_nat (length data))%Z -> wrapu 16 (a + j) <> x) -> store m a data x = m x.
Proof.
  revert m a. induction data as [|b data IH]; intros m a Hx; [done|]. cbn [store]. rewrite IH.
  - rewrite fn_lookup_insert_ne; [done|]. specialize (Hx 0%Z). rewrite Z.add_0_r in Hx. apply Hx. simpl. lia.
  - intros j Hj. rewrite <- Z.add_assoc. apply Hx. simpl length. lia.
Qed.

(** What is stored is fetched, when it does not wrap around onto itself. *)
Lemma fetch_store m a data :
  (Z.of_nat (length data) <= 2 ^ 16)%Z -> fetch (store m a data) a (length data) = data.
Proof.
  revert m a. induction data as [|b data IH]; intros m a Hl; [done|]. cbn [store fetch length]. f_equal.
  - rewrite store_other; [apply fn_lookup_insert|]. intros j Hj He. simpl in Hl. unfold wrapu in He.
    revert He. rewrite <- Z.add_assoc. intros He. apply (f_equal (fun z => (z - a) mod 2 ^ 16)%Z) in He.
    rewrite !Zminus_mod_idemp_l in He. replace (a + (1 + j) - a)%Z with (1 + j)%Z in He by lia.
    rewrite Z.sub_diag, Z.mod_small in He by lia. change (0 mod 2 ^ 16)%Z with 0%Z in He. lia.
  - apply IH. simpl in Hl. lia.
Qed.

Lemma fetch_length m a n : length (fetch m a n) = n.
Proof. revert a. induction n; intros a; simpl; auto. Qed.

Definition opened (e : t) : dstate := {| fd_ := true; stream_ := true; hw := e |}.

(** A message that the EEPROM takes is written at the first attempt. *)
Lemma write_once n e message e' :
  n <> 0 -> message <> [] -> on_write e message = (e', Some (length message)) ->
  exec (write n message) (opened e) = (opened e', [EWrite message], inr (length message)).
Proof.
  intros Hn Hne Hw. destruct n as [|n]; [done|]. unfold write, opened. cbn [I2c.exec isOpen fd_ stream_ andb negb]. rewrite decide_False by done.
  cbn [retry I2c.exec]. unfold write_some. cbn [hw]. rewrite Hw. by rewrite Nat.eqb_refl.
Qed.

Lemma readTyped_once (T : Type) `{POD T} n e :
  n <> 0 -> sizeof T <> 0 ->
  (exec (readTyped n T) (opened e)).2 = inr (pod_at (fetch (mem e) (addr e) (sizeof T))).
Proof.
  intros Hn Hs. destruct n as [|n]; [done|]. unfold readTyped. rewrite exec_bind. unfold read, opened.
  cbn [I2c.exec isOpen fd_ stream_ andb negb]. rewrite decide_False by done. cbn [retry I2c.exec]. unfold read_some. cbn [hw on_read option_map].
  rewrite take_ge by (rewrite fetch_length; lia). set (b := fetch _ _ _). assert (Hb : length b = sizeof T) by apply fetch_length.
  assert (b <> []) by (intros Hb'; rewrite Hb' in Hb; simpl in Hb; lia). rewrite decide_False by done.
  cbn [I2c.exec on_success]. by rewrite decide_True.
Qed.

End Eeprom.

(** A structure written to an EEPROM at an offset is read back from that offset
    as it was, if it fits into the 64 KiB of the address space. *)
Theorem eeprom_roundtrip (T : Type) `{POD T} (x : T) (offset : Z) (n : nat) (e : Eeprom.t) :
  pod_ok x -> is_uint 16 offset -> n <> 0 -> sizeof T <> 0 -> (Z.of_nat (sizeof T) <= 2 ^ 16)%Z ->
  let run {A} (p : io A) := exec Eeprom.always Eeprom.always Eeprom.on_write Eeprom.on_read p in
  (run (r <- writeEEPROM n offset x ;; on_success r (fun _ => readEEPROM n T offset)) (Eeprom.opened e)).2 = inr x.
Proof.
  intros Hx Ho Hn Hs Hl run. unfold run, writeEEPROM, readEEPROM.
  assert (Hw : forall e data, Eeprom.on_write e (offset_bytes offset ++ data) =
    ({| Eeprom.mem := Eeprom.store (Eeprom.mem e) offset data; Eeprom.addr := wrapu 16 (offset + Z.of_nat (length data)) |},
     Some (length (offset_bytes offset ++ data)))).
  { intros e0 data. unfold Eeprom.on_write, offset_bytes. cbn [app]. by rewrite Eeprom.offset_value by done. }
  assert (Hne : forall data, offset_bytes offset ++ data <> []) by done.
  rewrite exec_bind. rewrite (Eeprom.write_once _ _ _ _ Hn (Hne _) (Hw _ _)). cbn [on_success].
  rewrite exec_bind. rewrite <- (app_nil_r (offset_bytes offset)) at 1.
  rewrite (Eeprom.write_once _ _ _ _ Hn (Hne []) (Hw _ [])). cbn [on_success Eeprom.store Eeprom.mem length].
  pose proof (Eeprom.readTyped_once T n {| Eeprom.mem := Eeprom.store (Eeprom.mem e) offset (pod_bytes x);
    Eeprom.addr := wrapu 16 (offset + Z.of_nat 0) |} Hn Hs) as Hr.
  destruct (exec _ _ _ _ (readTyped n T) _) as [[s2 t2] b]. simpl in Hr |- *. rewrite Hr. f_equal.
  rewrite Z.add_0_r, wrapu_small by done. rewrite <- (pod_length x), Eeprom.fetch_store by (rewrite pod_length; done).
  by apply pod_at_bytes.
Qed.

(** ** Integers and sensors *)

(** An unsigned integer of [n] bytes in memory, low byte first. *)
Fixpoint le_bytes (n : nat) (z : Z) : bytes := match n with 0 => [] | S n => of_u8 z :: le_bytes n (z / 256)%Z end.
Fixpoint le_value (b : bytes) : Z := match b with [] => 0%Z | c :: b => (u8 c + 256 * le_value b)%Z end.

(** [std::byteswap] *)
Definition byteswap (n : nat) (z : Z) : Z := le_value (rev (le_bytes n z)).

Section integers.

Context (maxRetries_ : nat).

(** [readInteger] and [writeInteger] of a type of [n] bytes; [big] is the order on
    the wire, the machine's is little. *)
Definition readInteger (n : nat) (big : bool) : io (I2CResult Z) :=
  r <- read maxRetries_ n ;;
  on_success r (fun b => if decide (length b = n) then Ret (inr (if big then byteswap n (le_value b) else le_value b))
                         else Ret (inl ReadFailed)).

Definition writeInteger (n : nat) (big : bool) (value : Z) : io (I2CResult nat) :=
  write maxRetries_ (le_bytes n (if big then byteswap n value else value)).

(** [readRegister] of a [uint16_t]. *)
Definition read_raw (reg : byte) : io (I2CResult Z) :=
  r <- write maxRetries_ [reg] ;; on_success r (fun _ => readInteger 2 false).

(** [readSensor]; what the scaling makes of the raw value is [scale]. *)
Definition readSensor {V : Type} (scale : Z -> V) (reg : byte) : io (I2CResult V) :=
  r <- read_raw reg ;; on_success r (fun raw => Ret (inr (scale raw))).

(** [readTemperature], in sixteenths of a degree: the factor 0.0625 is exact. *)
Definition readTemperature (reg : byte) : io (I2CResult Z) := readSensor (fun raw => raw) reg.

End integers.

Lemma le_bytes_length n z : length (le_bytes n z) = n.
Proof. revert z. induction n; intros z; simpl; auto. Qed.

Lemma le_value_range b : (0 <= le_value b < 256 ^ Z.of_nat (length b))%Z.
Proof.
  induction b as [|c b IH]; [simpl; lia|]. cbn [le_value length]. rewrite Nat2Z.inj_succ, Z.pow_succ_r by lia.
  pose proof (u8_range c). nia.
Qed.

Lemma le_value_bytes n z : (0 <= z < 256 ^ Z.of_nat n)%Z -> le_value (le_bytes n z) = z.
Proof.
  revert z. induction n as [|n IH]; intros z Hz; [simpl in *; lia|]. cbn [le_bytes le_value].
  rewrite Nat2Z.inj_succ, Z.pow_succ_r in Hz by lia. rewrite u8_of_u8, IH.
  - pose proof (Z.div_mod z 256). lia.
  - split; [apply Z.div_pos; lia|]. apply Z.div_lt_upper_bound; lia.
Qed.

Lemma le_bytes_value b : le_bytes (length b) (le_value b) = b.
Proof.
  induction b as [|c b IH]; [done|]. cbn [length le_bytes le_value]. pose proof (u8_range c). f_equal.
  - apply u8_eq_iff. rewrite u8_of_u8. Z.to_euclidean_division_equations. lia.
  - replace ((u8 c + 256 * le_value b) / 256)%Z with (le_value b); [done|]. Z.to_euclidean_division_equations. lia.
Qed.

(** An integer written big-endian goes over the wire high byte first, and what
    comes back in that order is read as the same integer. *)
Theorem integer_wire n z :
  (0 <= z < 256 ^ Z.of_nat n)%Z ->
  le_bytes n (byteswap n z) = rev (le_bytes n z) /\ byteswap n (le_value (rev (le_bytes n z))) = z.
Proof.
  intros Hz. assert (Hl : length (rev (le_bytes n z)) = n) by (rewrite length_rev; apply le_bytes_length).
  assert (Hb : le_bytes n (byteswap n z) = rev (le_bytes n z)).
  { unfold byteswap. rewrite <- Hl at 1. apply le_bytes_value. }
  split; [done|]. fold (byteswap n z). unfold byteswap at 1. rewrite Hb, rev_involutive. by apply le_value_bytes.
Qed.

(** ** Witnesses and limits *)

Module I2cSample.

(** A PIC that answers the last command: it is paired, and its credentials must be
    cleared. *)
Definition pic_write (last : byte) (message : bytes) : byte * option nat :=
  match message with [_; cmd; _] => (cmd, Some 3) | _ => (last, None) end.
Definition pic_answer (last : byte) (n : nat) : byte * option bytes :=
  (last, Some (if decide (last = CMD_READ_PAIRING_STATE) then [x55] else [x00])).
Definition yes (d : byte) : byte * bool := (d, true).

Definition start : @sys byte :=
  {| clients_ := ∅; opens := fun _ => (false, false); devices := fun _ => x00; procs := ∅; waiting := []; replies := [] |}.

Definition pic : bytes := str "/dev/i2c-3".
Definition eeprom : bytes := str "/dev/i2c-4".

(** The other paths lead to the PIC. *)
Definition wires (c : bytes * Z) : nat := if decide (c.1 = eeprom) then 1 else 0.

Abbreviation step := (sys_step yes yes pic_write pic_answer wires) (only parsing).
Abbreviation run := (sys_run yes yes pic_write pic_answer wires) (only parsing).

(** The replies at the end of a schedule. *)
Definition answers (l : list action) : option (list reply) :=
  option_map (fun s => map snd (replies s)) (run start l).

(** One request after the other. *)
Example answers_alone :
  answers ([Arrive 1 pic 90 ReadPairingState] ++ repeat (Resume 1) 4 ++ [Reply] ++
           [Arrive 2 pic 90 ReadCredentialsFlag] ++ repeat (Resume 2) 4 ++ [Reply]) = Some [Byte x55; Byte x00].
Proof. vm_compute. reflexivity. Qed.

(** Two requests to one device at a time read the answer of each other's command: the
    pairing state is reported as unpaired.  A second spelling of the path makes another
    client of the same device. *)
Example answers_crossed :
  answers [Arrive 1 pic 90 ReadPairingState; Arrive 2 pic 90 ReadCredentialsFlag; Resume 1; Resume 2;
           Resume 1; Resume 2; Resume 1; Resume 2; Reply; Reply] = Some [Byte x00; Byte x00] /\
  answers [Arrive 1 pic 90 ReadPairingState; Arrive 2 (str "/dev//i2c-3") 90 ReadCredentialsFlag; Resume 1; Resume 2;
           Resume 1; Resume 2; Resume 1; Resume 2; Reply; Reply] = Some [Byte x00; Byte x00].
Proof. split; vm_compute; reflexivity. Qed.

(** A call that arrives while another one waits keeps its reply back: the first is
    ready, but cannot be replied to before the second. *)
Example reply_held_back :
  match run start ([Arrive 1 pic 90 ReadPairingState; Arrive 2 eeprom 80 (Read 4)] ++ repeat (Resume 1) 4) with
  | Some s => match procs s !! 1 with Some {| p_prog := Ret r |} => r = Byte x55 | _ => False end /\ step s Reply = None
  | None => False
  end.
Proof. vm_compute. split; reflexivity. Qed.

Definition two_devices : list action :=
  [Arrive 1 pic 90 ReadPairingState; Arrive 2 eeprom 80 (Read 4)] ++ concat (repeat [Resume 1; Resume 2] 3) ++ [Reply; Reply].


(** A device that is busy twice takes the third attempt. *)
Definition busy_write (n : nat) (message : bytes) : nat * option nat :=
  match n with 0 => (0, Some (length message)) | S n => (n, None) end.

Lemma write_retries_witness :
  exec (fun d : nat => (d, true)) (fun d => (d, true)) busy_write (fun d _ => (d, None)) (write 6 [x01])
    {| fd_ := true; stream_ := true; hw := 2 |} =
  ({| fd_ := true; stream_ := true; hw := 0 |}, [EWrite [x01]; ESleep 100; EWrite [x01]; ESleep 200; EWrite [x01]], inr 1).
Proof.
  destruct (write_retries (fun d : nat => (d, true)) (fun d => (d, true)) busy_write (fun d _ => (d, None)) 6 [x01]
    {| fd_ := true; stream_ := true; hw := 2 |}) as [(k & Hk & Hbelow & Hat & ->)|[Hall _]]; [reflexivity|discriminate|..].
  - destruct k as [|[|[|k]]]; [discriminate Hat|discriminate Hat|reflexivity|].
    exfalso. apply (Hbelow 2); [lia|reflexivity].
  - exfalso. apply (Hall 2); [lia|reflexivity].
Defined.

Lemma eeprom_roundtrip_witness :
  let run {A} (p : io A) := exec Eeprom.always Eeprom.always Eeprom.on_write Eeprom.on_read p in
  let x := {| setreq_header := make_header x12 x7d; provisioned := x01; setreq_reserved := (x00, x00, x00) |} in
  (run (r <- writeEEPROM 6 65535 x ;; on_success r (fun _ => readEEPROM 6 SpdmSetProvisionedRequest 65535))
     (Eeprom.opened {| Eeprom.mem := fun _ => x00; Eeprom.addr := 0 |})).2 = inr x.
Proof. apply (eeprom_roundtrip SpdmSetProvisionedRequest); [exact I|unfold is_uint; lia|lia|vm_compute; discriminate|vm_compute; discriminate]. Defined.

Lemma integer_wire_witness : le_bytes 2 (byteswap 2 4660) = [x12; x34] /\ byteswap 2 (le_value [x12; x34]) = 4660%Z.
Proof. apply (integer_wire 2 4660). vm_compute. split; [discriminate|reflexivity]. Defined.

(** A sensor at minus one degree, which sends the high byte of its sixteenths first:
    the bytes are taken in the other order; and a value below zero in the right order
    is read as a large one. *)
Definition sensor (b : bytes) (reg : byte) : option Z :=
  match (exec (fun d : unit => (d, true)) (fun d => (d, true)) (fun d _ => (d, Some 1)) (fun d _ => (d, Some b))
           (readTemperature 6 reg) {| fd_ := true; stream_ := true; hw := tt |}).2 with
  | inr z => Some z
  | inl _ => None
  end.

Example temperature_wrong :
  sensor [xff; xf0] x00 = Some 61695%Z /\ sensor [xf0; xff] x00 = Some (-16 + 2 ^ 16)%Z.
Proof. vm_compute. split; reflexivity. Qed.

(** A PIC that answers [0xFF] and one that does not answer look the same. *)
Example error_ambiguous :
  result_of yes yes pic_write (fun d _ => (d, Some [xff])) readPairingState {| fd_ := false; stream_ := false; hw := x00 |} =
  result_of yes yes pic_write (fun d _ => (d, None)) readPairingState {| fd_ := false; stream_ := false; hw := x00 |}.
Proof. vm_compute. reflexivity. Qed.

End I2cSample.
