(* ===== verification/SpdmTransport.v ===== *)
(** * The transports of SPDM: [async_socket_functions.hpp], [async_spdm_io.hpp]
      and [socket_functions.hpp] of [examples/spdm/include/], the
      [TimedStreamer] of [include/socket_streams.hpp], the two TCP servers and the
      asynchronous responder

    A connection is what arrives on it, chunk by chunk and each after a delay, what
    the peer lets the socket send, what was sent, and the timer that the operations
    on it share.  Times are in microseconds.  What libspdm does is a parameter or a
    status. *)

From S2P Require Import Prelude SpdmMessages TrustStore CertExchange.

(** ** A connection *)

(** What completes an operation that reads: bytes ([async_read_some] gives them up to
    the room of the buffer), or an error such as the end of the stream. *)
Inductive event := Chunk (data : bytes) | Broken.

Record conn :=
  { arrivals : list (Z * event);      (* each with the delay after the one before *)
    drains : list (Z * option nat);   (* the same for writes: how much is taken *)
    sent : bytes;
    timer : option Z }.               (* the time left until the timer fires *)

(** How a coroutine ends: with a result, never, or by writing past its buffer. *)
Inductive outcome (A : Type) := Done (a : A) | Waiting | Overrun.
Arguments Done {A} a.
Arguments Waiting {A}.
Arguments Overrun {A}.

(** *** [TimedStreamer] *)

Definition set_timer (c : conn) (t : option Z) : conn :=
  {| arrivals := arrivals c; drains := drains c; sent := sent c; timer := t |}.

Definition seconds (s : Z) : Z := (s * 1000000)%Z.

(** [setTimeout]: a new expiry ends the wait for the old one. *)
Definition setTimeout (c : conn) (s : Z) : conn := set_timer c (Some (seconds s)).

(** Whether the timer cancels an operation that would complete after [d]; what is
    there already is taken at once. *)
Definition fires (c : conn) (d : Z) : option Z :=
  match timer c with
  | Some t => if ((0 <? d) && (t <=? d))%Z then Some t else None
  | None => None
  end.

Definition async_read_some (c : conn) (n : nat) : outcome (conn * (bool * bytes)) :=
  match arrivals c with
  | [] => match timer c with
          | Some _ => Done (set_timer c None, (true, []))
          | None => Waiting
          end
  | (d, e) :: rest =>
      match fires c d with
      | Some t => Done ({| arrivals := ((d - t)%Z, e) :: rest; drains := drains c; sent := sent c; timer := None |}, (true, []))
      | None =>
          match e with
          | Broken => Done ({| arrivals := (0%Z, Broken) :: rest; drains := drains c; sent := sent c; timer := timer c |}, (true, []))
          | Chunk bs =>
              Done ({| arrivals := (if length bs <=? n then rest else (0%Z, Chunk (drop n bs)) :: rest);
                       drains := drains c; sent := sent c; timer := timer c |}, (false, take n bs))
          end
      end
  end.

Definition async_write_some (c : conn) (data : bytes) : outcome (conn * (bool * nat)) :=
  match drains c with
  | [] => match timer c with
          | Some _ => Done (set_timer c None, (true, 0))
          | None => Waiting
          end
  | (d, k) :: rest =>
      match fires c d with
      | Some t => Done ({| arrivals := arrivals c; drains := ((d - t)%Z, k) :: rest; sent := sent c; timer := None |}, (true, 0))
      | None =>
          match k with
          | None => Done ({| arrivals := arrivals c; drains := (0%Z, None) :: rest; sent := sent c; timer := timer c |}, (true, 0))
          | Some k => Done ({| arrivals := arrivals c; drains := rest; sent := sent c ++ take k data; timer := timer c |},
                            (false, min k (length data)))
          end
      end
  end.

Definition obind {A B} (f : A -> outcome B) (o : outcome A) : outcome B :=
  match o with Done a => f a | Waiting => Waiting | Overrun => Overrun end.

Definition read (c : conn) (n : nat) (timeout : bool) : outcome (conn * (bool * bytes)) :=
  let c := if timeout then setTimeout c 30 else c in
  obind (fun '(c, r) => Done (set_timer c None, r)) (async_read_some c n).

Definition write (c : conn) (data : bytes) (timeout : bool) : outcome (conn * (bool * nat)) :=
  let c := if timeout then setTimeout c 30 else c in
  obind (fun '(c, r) => Done (set_timer c None, r)) (async_write_some c data).

(** *** [async_socket_functions.hpp] *)

(** Writing through a pointer into a buffer. *)
Definition store (buf : bytes) (off : nat) (bs : bytes) : option bytes :=
  if off + length bs <=? length buf then Some (take off buf ++ bs ++ drop (off + length bs) buf) else None.

(** The loop of [streamer_write_exact]; every turn but the last writes a byte, so
    as many turns as bytes, and one, are enough. *)
Fixpoint write_loop (fuel : nat) (c : conn) (buf : bytes) (total n : nat) : outcome (conn * bool) :=
  if n <=? total then Done (c, true)
  else match fuel with
       | 0 => Waiting
       | S fuel =>
           obind (fun '(c, (ec, written)) =>
                   if ec : bool then Done (c, false)
                   else if written =? 0 then Done (c, false)
                   else write_loop fuel c buf (total + written) n)
                (write c (take (n - total) (drop total buf)) true)
       end.

Definition streamer_write_exact (c : conn) (data : bytes) (n : nat) : outcome (conn * bool) :=
  write_loop n c data 0 n.

(** The loop of [streamer_read_exact], into the buffer from [base] on. *)
Fixpoint read_loop (fuel : nat) (c : conn) (buf : bytes) (base total n : nat) (timeout : bool) : outcome (conn * (bytes * bool)) :=
  if n <=? total then Done (c, (buf, true))
  else match fuel with
       | 0 => Waiting
       | S fuel =>
           obind (fun '(c, (ec, got)) =>
                   match store buf (base + total) got with
                   | None => Overrun
                   | Some buf =>
                       if ec : bool then Done (c, (buf, false))
                       else if length got =? 0 then Done (c, (buf, false))
                       else read_loop fuel c buf base (total + length got) n timeout
                   end)
                (read c (n - total) timeout)
       end.

Definition streamer_read_exact (c : conn) (buf : bytes) (base n : nat) (timeout : bool) : outcome (conn * (bytes * bool)) :=
  read_loop n c buf base 0 n timeout.

(** [duration_cast<seconds>(microseconds(t))]: the count of microseconds is a signed
    64 bit integer. *)
Definition to_seconds (timeout_us : Z) : Z :=
  let us := if (0 <? timeout_us)%Z then timeout_us else 10000000%Z in
  let us := if (us <? 2 ^ 63)%Z then us else (us - 2 ^ 64)%Z in
  Z.quot us 1000000.

Definition async_spdm_send (c : conn) (data : bytes) (size : nat) (timeout_us : Z) : outcome (conn * bool) :=
  if size =? 0 then Done (c, true)
  else streamer_write_exact (setTimeout c (to_seconds timeout_us)) data size.

Definition byte_at (buf : bytes) (i : nat) : Z := u8 (default x00 (buf !! i)).

(** The length of the message that a header announces. *)
Definition total_size (buf : bytes) : nat :=
  Z.to_nat (Z.lor (byte_at buf 0) (Z.shiftl (byte_at buf 1) 8) + 2).

(** [async_spdm_receive] into a buffer whose capacity is said to be [size]. *)
Definition async_spdm_receive (c : conn) (data : bytes) (size : nat) (timeout_us : Z) : outcome (conn * (bytes * bool)) :=
  obind (fun '(c, (buf, ok)) =>
          if negb ok then Done (c, (buf, false))
          else
            let c := setTimeout c (to_seconds timeout_us) in
            let total := total_size buf in
            if total <? 4 then Done (c, (buf, false))
            else if size <? total then Done (c, (buf, false))
            else streamer_read_exact c buf 4 (total - 4) true)
       (streamer_read_exact c data 0 4 false).

(** *** [AsyncSpdmTcpIO] *)

(** The object owns the connection; [close] ends it once, and everything fails on a
    closed socket. *)
Record AsyncSpdmTcpIO := { io_conn : conn; is_open : bool }.

Definition makeAsyncSpdmIO (c : conn) : AsyncSpdmTcpIO := {| io_conn := set_timer c None; is_open := true |}.

Definition io_send (io : AsyncSpdmTcpIO) (data : bytes) (size : nat) (timeout_us : Z) : outcome (AsyncSpdmTcpIO * bool) :=
  obind (fun '(c, ok) => Done ({| io_conn := c; is_open := is_open io |}, ok)) (async_spdm_send (io_conn io) data size timeout_us).

Definition io_receive (io : AsyncSpdmTcpIO) (data : bytes) (size : nat) (timeout_us : Z) : outcome (AsyncSpdmTcpIO * (bytes * bool)) :=
  obind (fun '(c, r) => Done ({| io_conn := c; is_open := is_open io |}, r)) (async_spdm_receive (io_conn io) data size timeout_us).

Definition io_close (io : AsyncSpdmTcpIO) : AsyncSpdmTcpIO :=
  if is_open io then
    {| io_conn := {| arrivals := [(0%Z, Broken)]; drains := [(0%Z, None)]; sent := sent (io_conn io); timer := timer (io_conn io) |};
       is_open := false |}
  else io.

(** *** [socket_functions.hpp] and [SpdmSocketHandler]: the blocking transport *)

Record tcp_socket :=
  { incoming : list event;
    outgoing : bytes;
    so_rcvtimeo : option (Z * Z);   (* seconds and microseconds *)
    so_sndtimeo : option (Z * Z);
    open : bool }.

(** [configure_socket_timeout], when [setsockopt] accepts the two options or not. *)
Definition configure_socket_timeout (set_rcv set_snd : bool) (s : tcp_socket) (timeout_ms : Z) : tcp_socket :=
  let tv := ((timeout_ms / 1000)%Z, (timeout_ms mod 1000 * 1000)%Z) in
  {| incoming := incoming s; outgoing := outgoing s;
     so_rcvtimeo := if set_rcv then Some tv else so_rcvtimeo s;
     so_sndtimeo := if set_snd then Some tv else so_sndtimeo s; open := open s |}.

(** [write_with_timeout].  The stream writes the message into the [streambuf] and
    makes it readable; [commit] then moves up to as many bytes again of the room
    [spare] that is left behind the message.  All of it is written, or
    [failed] bytes until an error. *)
Definition write_with_timeout (spare : bytes) (failed : option nat) (s : tcp_socket) (data : bytes) : tcp_socket * bool * nat :=
  let buf := data ++ take (length data) spare in
  let out bs := {| incoming := incoming s; outgoing := outgoing s ++ bs; so_rcvtimeo := so_rcvtimeo s;
                   so_sndtimeo := so_sndtimeo s; open := open s |} in
  match failed with
  | None => (out buf, true, length buf)
  | Some k => (out (take k buf), false, min k (length buf))
  end.

(** [read_with_timeout] into the buffer from [off] on: the result and the new size. *)
Definition read_with_timeout (s : tcp_socket) (buf : bytes) (off size : nat) (timeout_ms : Z) : outcome (tcp_socket * (bytes * bool * nat)) :=
  let s := if (0 <? timeout_ms)%Z then configure_socket_timeout true true s timeout_ms else s in
  let next l := {| incoming := l; outgoing := outgoing s; so_rcvtimeo := so_rcvtimeo s; so_sndtimeo := so_sndtimeo s; open := open s |} in
  match incoming s with
  | [] => Waiting
  | Broken :: _ => Done (s, (buf, false, size))
  | Chunk bs :: l =>
      match store buf off (take size bs) with
      | None => Overrun
      | Some buf => Done (next (if length bs <=? size then l else Chunk (drop size bs) :: l), (buf, true, min size (length bs)))
      end
  end.

(** The loop of [read_all_with_timeout]. *)
Fixpoint read_all_loop (fuel : nat) (s : tcp_socket) (buf : bytes) (total expected : nat) (timeout_ms : Z) : outcome (tcp_socket * (bytes * bool * nat)) :=
  if expected <=? total then Done (s, (buf, total =? expected, total))
  else match fuel with
       | 0 => Waiting
       | S fuel =>
           obind (fun '(s, (buf, ok, chunk)) =>
                    if ok : bool then read_all_loop fuel s buf (total + chunk) expected timeout_ms
                    else Done (s, (buf, false, total)))
                 (read_with_timeout s buf total (expected - total) timeout_ms)
       end.

Definition read_all_with_timeout (s : tcp_socket) (buf : bytes) (size : nat) (timeout_ms : Z) (strict : bool) : outcome (tcp_socket * (bytes * bool * nat)) :=
  if size =? 0 then Done (s, (buf, true, size))
  else if negb strict then read_with_timeout s buf 0 size timeout_ms
  else read_all_loop size s buf 0 size timeout_ms.

Definition SOCKET_TIMEOUT_MS : Z := 10000.

Definition SpdmSocketHandler (s : tcp_socket) : tcp_socket := configure_socket_timeout true true s SOCKET_TIMEOUT_MS.

Definition handler_close (s : tcp_socket) : tcp_socket :=
  {| incoming := [Broken]; outgoing := outgoing s; so_rcvtimeo := so_rcvtimeo s; so_sndtimeo := so_sndtimeo s; open := false |}.

(** [device_receive_message] of a session: what is received, and what is kept of it. *)
Definition device_receive_message (s : tcp_socket) (kept buf : bytes) (size : nat) (timeout : Z) : outcome (tcp_socket * (bytes * bool) * bytes) :=
  obind (fun '(s, (buf, ok, n)) => Done (s, (take n buf, ok), if ok && (0 <? n) then take n buf else kept))
        (read_all_with_timeout s buf size timeout false).

(** *** The servers *)

Record server := { activeSessions : gset nat; next_id : nat; accepting : bool }.

(** What happens to a server: a connection, where the session can or cannot be set
    up; an error of the acceptor; the end of a session's coroutine, by a return or
    by an exception. *)
Inductive happening := Connected (init : bool) | AcceptFailed | Returned (id : nat) | Thrown (id : nat).

Definition put_sessions (s : server) (a : gset nat) (id : nat) : server :=
  {| activeSessions := a; next_id := id; accepting := accepting s |}.

(** [SpdmTcpServer]: [None] is what cannot happen.  An exception of the session's
    constructor leaves the completion handler before [accept] is called again. *)
Definition SpdmTcpServer_step (sessionHandler : bool) (maxConcurrentSessions : nat) (s : server) (h : happening) : option server :=
  match h with
  | Connected init =>
      if negb (accepting s) then None
      else if maxConcurrentSessions <=? size (activeSessions s) then Some s
      else if negb init then Some {| activeSessions := activeSessions s; next_id := next_id s; accepting := false |}
      else
        let a := {[next_id s]} ∪ activeSessions s in
        Some (put_sessions s (if sessionHandler then a else a ∖ {[next_id s]}) (S (next_id s)))
  | AcceptFailed => if accepting s then Some s else None
  | Returned id => if decide (id ∈ activeSessions s) then Some (put_sessions s (activeSessions s ∖ {[id]}) (next_id s)) else None
  | Thrown id => if decide (id ∈ activeSessions s) then Some s else None
  end.

(** [AsyncSpdmTcpServer]; every session gets a copy of the handlers. *)
Definition AsyncSpdmTcpServer_step (maxSessions_ : nat) (s : server) (h : happening) : option server :=
  match h with
  | Connected init =>
      if negb (accepting s) then None
      else if maxSessions_ <=? size (activeSessions s) then Some s
      else if init then Some (put_sessions s ({[next_id s]} ∪ activeSessions s) (S (next_id s)))
      else Some {| activeSessions := activeSessions s; next_id := next_id s; accepting := false |}
  | AcceptFailed => if accepting s then Some s else None
  | Returned id => if decide (id ∈ activeSessions s) then Some (put_sessions s (activeSessions s ∖ {[id]}) (next_id s)) else None
  | Thrown id => if decide (id ∈ activeSessions s) then Some s else None
  end.

Definition new_server : server := {| activeSessions := ∅; next_id := 0; accepting := true |}.

Fixpoint serve (step : server -> happening -> option server) (s : server) (hs : list happening) : option server :=
  match hs with
  | [] => Some s
  | h :: hs => match step s h with Some s => serve step s hs | None => None end
  end.

(** *** [AsyncSpdmResponder] *)

(** The function registered with [libspdm_register_get_response_func]: the message
    is for a vendor's handler, and the response has room for [rsp_size] bytes. *)
Definition get_response (customMessageHandlers_ : gmap byte CustomMessageHandler) (r : responder) (req : bytes) (rsp_size : nat) : option (responder * (status * bytes)) :=
  match dispatchToHandler customMessageHandlers_ r req with
  | None => None
  | Some (r, respVec) =>
      if decide (respVec = []) then Some (r, (UNSUPPORTED_CAP, []))
      else if rsp_size <? length respVec then Some (r, (OTHER, []))
      else Some (r, (SUCCESS, respVec))
  end.

(** [asyncRun] over the statuses of its dispatches: the count of retries, and whether
    it still runs. *)
Definition maxRetries : nat := 100.

Definition run_turn (retryCount : nat) (st : status) : nat * bool :=
  match st with
  | SUCCESS => (0, true)
  | SEND_FAIL | RECEIVE_FAIL => (retryCount, false)
  | INVALID_MSG_FIELD | UNSUPPORTED_CAP | OTHER => (S retryCount, negb (maxRetries <=? S retryCount))
  end.

Fixpoint asyncRun (retryCount : nat) (sts : list status) : nat * bool :=
  match sts with
  | [] => (retryCount, true)
  | st :: sts => let '(n, go) := run_turn retryCount st in if go then asyncRun n sts else (n, false)
  end.

(** ** Reading exactly *)

(** The bytes that arrive before the connection breaks. *)
Fixpoint flat (l : list (Z * event)) : bytes :=
  match l with
  | (_, Chunk bs) :: l => bs ++ flat l
  | _ => []
  end.

(** From the byte at [o] on, no chunk is empty and the chunks come within thirty
    seconds of each other, but for those that begin where [ok] says. *)
Fixpoint timely (ok : nat -> bool) (o : nat) (l : list (Z * event)) : Prop :=
  match l with
  | (d, Chunk bs) :: l => bs <> [] /\ ((d < seconds 30)%Z \/ ok o = true) /\ timely ok (o + length bs) l
  | _ => True
  end.

Lemma timely_ext ok ok' o o' l : (forall i, ok (o + i) = ok' (o' + i)) -> timely ok o l -> timely ok' o' l.
Proof.
  revert o o'. induction l as [|[d [bs|]] l IH]; intros o o' Hok; simpl; [done| |done].
  intros (Hne & Hd & Hl). split; [done|]. split.
  - specialize (Hok 0). rewrite !Nat.add_0_r in Hok. by rewrite <- Hok.
  - revert Hl. apply IH. intros i. rewrite <- !Nat.add_assoc. apply Hok.
Qed.

Lemma timer_None c : timer c = None -> forall d, fires c d = None.
Proof. unfold fires. by intros ->. Qed.

(** A read with no timer running, or with the timer of the streamer where the next
    chunk is not late, gives a piece of what is asked for. *)
Lemma read_piece ok o c pre rest (timeout : bool) :
  timely ok o (arrivals c) -> flat (arrivals c) = pre ++ rest -> pre <> [] ->
  (if timeout then ok o = false else timer c = None) ->
  exists got pre' c', read c (length pre) timeout = Done (c', (false, got)) /\ got <> [] /\ pre = got ++ pre' /\
    flat (arrivals c') = pre' ++ rest /\ timely ok (o + length got) (arrivals c') /\ timer c' = None /\
    drains c' = drains c /\ sent c' = sent c.
Proof.
  intros Ht Hf Hne Hto. unfold read, async_read_some.
  assert (Harr : arrivals (if timeout then setTimeout c 30 else c) = arrivals c) by by destruct timeout. rewrite Harr.
  destruct (arrivals c) as [|[d [bs|]] l] eqn:Hl; simpl in Hf, Ht; [by destruct pre| |by destruct pre].
  destruct Ht as (Hbs & Hd & Ht).
  assert (Hfire : fires (if timeout then setTimeout c 30 else c) d = None).
  { destruct timeout; [|by apply timer_None]. destruct Hd as [Hd|Hd]; [|congruence]. unfold fires, setTimeout. simpl.
    destruct (Z.leb_spec (seconds 30) d); [lia|]. by rewrite andb_false_r. }
  rewrite Hfire. simpl.
  destruct (Nat.leb_spec (length bs) (length pre)) as [Hle|Hgt].
  - assert (Hpre : pre = bs ++ drop (length bs) pre).
    { rewrite <- (take_drop (length bs) pre) at 1. f_equal.
      apply (f_equal (take (length bs))) in Hf. by rewrite take_app_length, take_app_le in Hf. }
    exists bs, (drop (length bs) pre). eexists. split; [by rewrite take_ge|]. split; [done|]. split; [done|].
    split; [|split; [done|by destruct timeout]]. simpl.
    rewrite Hpre, <- app_assoc in Hf. by apply app_inv_head in Hf.
  - assert (Hbs' : bs = pre ++ drop (length pre) bs).
    { rewrite <- (take_drop (length pre) bs) at 1. f_equal.
      apply (f_equal (take (length pre))) in Hf. by rewrite take_app_length, take_app_le in Hf by lia. }
    exists pre, []. eexists. split; [do 4 f_equal; rewrite Hbs'; by rewrite take_app_length|].
    split; [done|]. split; [by rewrite app_nil_r|]. split; [|split; [|by destruct timeout]]; simpl.
    + rewrite Hbs', <- app_assoc in Hf. by apply app_inv_head in Hf.
    + split; [intros Hd0; apply (f_equal length) in Hd0; rewrite length_drop in Hd0; simpl in Hd0; lia|].
      split; [left; by vm_compute|]. rewrite length_drop. by replace (o + length pre + (length bs - length pre)) with (o + length bs) by lia.
Qed.

Lemma store_ok buf off bs : off + length bs <= length buf -> store buf off bs = Some (take off buf ++ bs ++ drop (off + length bs) buf).
Proof. intros H. unfold store. by rewrite (proj2 (Nat.leb_le _ _) H). Qed.

(** One write after another is one write. *)
Lemma store_app buf off a b :
  off + length a + length b <= length buf ->
  exists buf', store buf off a = Some buf' /\ length buf' = length buf /\ store buf' (off + length a) b = store buf off (a ++ b).
Proof.
  intros H. rewrite (store_ok buf off a), (store_ok buf off (a ++ b)) by (rewrite ?length_app; lia). eexists. split; [done|].
  assert (Hlen : length (take off buf ++ a ++ drop (off + length a) buf) = length buf).
  { rewrite !length_app, length_take, length_drop. lia. }
  split; [done|]. rewrite store_ok by lia. f_equal.
  rewrite (app_assoc (take off buf)), take_app_length' by (rewrite length_app, length_take; lia).
  rewrite drop_app_ge by (rewrite length_app, length_take; lia).
  rewrite drop_drop, <- !app_assoc. do 3 f_equal. f_equal. rewrite !length_app, length_take. lia.
Qed.

Lemma read_loop_end fuel c buf base total n timeout :
  n <= total -> read_loop fuel c buf base total n timeout = Done (c, (buf, true)).
Proof. intros H%Nat.leb_le. destruct fuel; simpl; by rewrite H. Qed.

Lemma read_loop_exact ok (timeout : bool) fuel c buf base total pre rest o :
  timely ok o (arrivals c) -> flat (arrivals c) = pre ++ rest -> length pre <= fuel ->
  (if timeout then forall i, i < length pre -> ok (o + i) = false else timer c = None) ->
  base + total + length pre <= length buf ->
  exists c' buf', read_loop fuel c buf base total (total + length pre) timeout = Done (c', (buf', true)) /\
    store buf (base + total) pre = Some buf' /\ length buf' = length buf /\
    flat (arrivals c') = rest /\ timely ok (o + length pre) (arrivals c') /\
    (pre <> [] \/ timer c = None -> timer c' = None) /\ drains c' = drains c /\ sent c' = sent c.
Proof.
  revert c buf total pre o. induction fuel as [|fuel IH]; intros c buf total pre o Ht Hf Hfuel Hto Hbuf.
  all: destruct (decide (pre = [])) as [->|Hne].
  1, 3: exists c, buf; rewrite read_loop_end by (simpl; lia); split; [done|]; rewrite store_ok by (simpl; lia);
    simpl; rewrite !Nat.add_0_r, take_drop; naive_solver.
  { destruct pre; [done|simpl in Hfuel; lia]. }
  destruct (read_piece ok o c pre rest timeout Ht Hf Hne) as (got & pre' & c1 & Hr & Hgot & -> & Hf1 & Ht1 & Htm & Hdr & Hs).
  { destruct timeout; [|done]. rewrite <- (Nat.add_0_r o). apply Hto. destruct pre; [done|simpl; lia]. }
  rewrite length_app in *. assert (0 < length got) by (destruct got; [done|simpl; lia]).
  destruct (store_app buf (base + total) got pre') as (buf1 & Hst & Hlen & Hst2); [lia|].
  destruct (IH c1 buf1 (total + length got) pre' (o + length got)) as (c2 & buf2 & Hloop & Hb & Hl2 & Hf2 & Ht2 & Htm2 & Hdr2 & Hs2);
    try (done || lia).
  { destruct timeout; [|done]. intros i Hi. rewrite <- Nat.add_assoc. apply Hto. lia. }
  exists c2, buf2. split.
  - simpl. destruct (Nat.leb_spec (total + (length got + length pre')) total); [lia|].
    replace (total + (length got + length pre') - total) with (length got + length pre') by lia.
    rewrite Hr. simpl. rewrite Hst. destruct (Nat.eqb_spec (length got) 0); [lia|].
    by replace (total + (length got + length pre')) with (total + length got + length pre') by lia.
  - split; [by rewrite <- Hst2, <- Hb, Nat.add_assoc|]. split; [lia|]. split; [done|].
    split; [by rewrite Nat.add_assoc|]. split; [by auto|]. split; congruence.
Qed.

(** ** Messages *)

(** A message as the transport layer frames it: the first two bytes, little endian,
    are its length less two; there is something after the header. *)
Definition framed (m : bytes) : Prop := 4 < length m /\ total_size m = length m.

(** Whether the byte at [o] of a sequence of messages is in the header of one, or
    past them all. *)
Fixpoint in_header (ms : list bytes) (o : nat) : bool :=
  match ms with
  | [] => true
  | m :: ms => if o <? length m then o <? 4 else in_header ms (o - length m)
  end.

(** Receiving [k] messages, one after another, into a buffer of [size] bytes. *)
Fixpoint receive_n (k : nat) (c : conn) (data : bytes) (size : nat) (timeout_us : Z) : outcome (conn * list bytes) :=
  match k with
  | 0 => Done (c, [])
  | S k => obind (fun '(c, (buf, ok)) =>
             if ok : bool then obind (fun '(c, ms) => Done (c, take (total_size buf) buf :: ms)) (receive_n k c buf size timeout_us)
             else Done (c, []))
           (async_spdm_receive c data size timeout_us)
  end.

Lemma total_size_prefix m buf : 2 <= length m -> total_size (m ++ buf) = total_size m.
Proof. intros H. unfold total_size, byte_at. by rewrite !lookup_app_l by lia. Qed.

(** A message that is there, or comes in pieces less than thirty seconds apart once
    its header is complete, is received whole, however late the header. *)
Lemma receive_message c data size timeout_us m ms rest :
  framed m -> length m <= size -> length data = size -> timer c = None ->
  timely (in_header (m :: ms)) 0 (arrivals c) -> flat (arrivals c) = m ++ rest ->
  exists c' buf, async_spdm_receive c data size timeout_us = Done (c', (buf, true)) /\
    buf = m ++ drop (length m) data /\ flat (arrivals c') = rest /\ timely (in_header ms) 0 (arrivals c') /\
    timer c' = None /\ drains c' = drains c /\ sent c' = sent c.
Proof.
  intros [Hlong Htot] Hsize Hdata Htm Ht Hf.
  rewrite <- (take_drop 4 m), <- app_assoc in Hf.
  assert (Hl4 : length (take 4 m) = 4) by (rewrite length_take; lia).
  unfold async_spdm_receive, streamer_read_exact.
  destruct (read_loop_exact _ false 4 c data 0 0 (take 4 m) _ 0 Ht Hf) as (c1 & buf1 & Hr1 & Hb1 & Hbl1 & Hf1 & Ht1 & Htm1 & Hdr1 & Hs1);
    [lia|done|lia|]. rewrite Hl4 in Hr1, Ht1. change (0 + 4) with 4 in Hr1. rewrite Hr1. cbn [obind negb].
  rewrite store_ok in Hb1 by lia. injection Hb1 as Hb1. rewrite Hl4 in Hb1. simpl in Hb1.
  assert (Hsz : total_size buf1 = length m).
  { rewrite <- Hb1, total_size_prefix by lia. rewrite <- Htot. rewrite <- (take_drop 4 m) at 2. by rewrite total_size_prefix by lia. }
  rewrite Hsz. destruct (Nat.ltb_spec (length m) 4); [lia|]. destruct (Nat.ltb_spec size (length m)); [lia|].
  destruct (read_loop_exact (in_header (m :: ms)) true (length m - 4) (setTimeout c1 (to_seconds timeout_us)) buf1 4 0 (drop 4 m) rest (0 + 4))
    as (c2 & buf2 & Hr2 & Hb2 & Hbl2 & Hf2 & Ht2 & Htm2 & Hdr2 & Hs2); [done|done|rewrite length_drop; lia| |rewrite length_drop; lia|].
  { intros i Hi. rewrite length_drop in Hi. simpl.
    rewrite (proj2 (Nat.ltb_lt _ _)) by lia. apply Nat.leb_gt. lia. }
  rewrite length_drop in Hr2, Ht2. change (0 + (length m - 4)) with (length m - 4) in Hr2. rewrite Hr2. exists c2, buf2. split; [done|]. split.
  { rewrite store_ok in Hb2 by (rewrite length_drop; lia). injection Hb2 as <-. rewrite <- Hb1. simpl.
    rewrite take_app_length' by done. rewrite app_assoc, take_drop. f_equal. rewrite length_drop.
    rewrite drop_app_ge by lia. rewrite drop_drop, Hl4. f_equal. lia. }
  split; [done|]. split.
  { revert Ht2. apply timely_ext. intros i. cbn [in_header]. destruct (Nat.ltb_spec (0 + 4 + (length m - 4) + i) (length m)); [lia|].
    f_equal. lia. }
  split; [apply Htm2; left; intros E; apply (f_equal length) in E; rewrite length_drop in E; simpl in E; lia|].
  split; [by rewrite Hdr2|by rewrite Hs2].
Qed.

(** Messages are received whole, in order and one at a time, however the stream is
    cut into chunks, and what follows them is left on the connection. *)
Lemma messages_received ms rest c data size timeout_us :
  Forall framed ms -> Forall (fun m => length m <= size) ms -> length data = size -> timer c = None ->
  timely (in_header ms) 0 (arrivals c) -> flat (arrivals c) = concat ms ++ rest ->
  exists c', receive_n (length ms) c data size timeout_us = Done (c', ms) /\ flat (arrivals c') = rest.
Proof.
  revert c data. induction ms as [|m ms IH]; intros c data Hfr Hsz Hdata Htm Ht Hf; [by exists c|].
  inversion_clear Hfr as [|?? Hm Hms]. inversion_clear Hsz as [|?? Hmsz Hmssz]. simpl in Hf. rewrite <- app_assoc in Hf.
  destruct (receive_message c data size timeout_us m ms _ Hm Hmsz Hdata Htm Ht Hf) as (c1 & buf & Hr & Hb & Hf1 & Ht1 & Htm1 & _).
  destruct (IH c1 buf) as (c2 & Hr2 & Hf2); try done.
  { rewrite Hb, length_app, length_drop. lia. }
  exists c2. split; [|done]. cbn [length receive_n]. rewrite Hr. simpl. rewrite Hr2. simpl. do 3 f_equal.
  destruct Hm as [Hlong Htot]. rewrite Hb, total_size_prefix, Htot by lia. by rewrite take_app_length.
Qed.

(** *** Sending *)

Definition send_n (c : conn) (ms : list bytes) (timeout_us : Z) : outcome (conn * bool) :=
  foldl (fun o m => obind (fun '(c, ok) => if ok : bool then async_spdm_send c m (length m) timeout_us else Done (c, false)) o)
        (Done (c, true)) ms.

Lemma write_done c data : exists c' ec k, write c data true = Done (c', (ec, k)) /\ k <= length data /\
  sent c' = sent c ++ take k data /\ timer c' = None /\ (ec = true -> k = 0).
Proof.
  unfold write, async_write_some. simpl. destruct (drains c) as [|[d k] l].
  - simpl. eexists _, true, 0. split; [done|]. simpl. rewrite app_nil_r. by auto with lia.
  - destruct (fires _ _); simpl.
    + eexists _, true, 0. split; [done|]. simpl. rewrite app_nil_r. by auto with lia.
    + destruct k as [k|]; simpl.
      * eexists _, false, _. split; [done|]. split; [lia|]. simpl.
        split; [|done]. f_equal. destruct (Nat.le_ge_cases k (length data)); [by rewrite Nat.min_l|by rewrite Nat.min_r, !take_ge by lia].
      * eexists _, true, 0. split; [done|]. simpl. rewrite app_nil_r. by auto with lia.
Qed.

Lemma write_loop_exact fuel c buf total n :
  n <= length buf -> total <= n -> n - total <= fuel ->
  exists c' ok k, write_loop fuel c buf total n = Done (c', ok) /\ k <= n - total /\ sent c' = sent c ++ take k (drop total buf) /\
    (ok = true -> k = n - total) /\ (ok = false -> k < n - total) /\ (total < n \/ timer c = None -> timer c' = None).
Proof.
  revert c total. induction fuel as [|fuel IH]; intros c total Hn Ht Hf; simpl.
  all: destruct (Nat.leb_spec n total);
    [exists c, true, 0; split; [done|]; split; [lia|]; rewrite take_0, app_nil_r; repeat split; auto with lia; intros [|]; [lia|done]|].
  { lia. }
  destruct (write_done c (take (n - total) (drop total buf))) as (c1 & ec & k & -> & Hk & Hs & Htm & Hec). simpl.
  rewrite length_take, length_drop in Hk.
  destruct ec; [rewrite (Hec eq_refl) in *; exists c1, false, 0; split; [done|]; split; [lia|]; repeat split; auto with lia|].
  destruct (Nat.eqb_spec k 0) as [->|Hk0].
  { exists c1, false, 0. split; [done|]. split; [lia|]. repeat split; auto with lia. }
  destruct (IH c1 (total + k)) as (c2 & ok & k2 & -> & Hk2 & Hs2 & Ht2 & Hf2 & Htm2); [lia..|].
  exists c2, ok, (k + k2). split; [done|]. split; [lia|]. split.
  - rewrite Hs2, Hs, <- app_assoc. f_equal. rewrite take_take, (Nat.min_l k) by lia.
    rewrite <- (take_drop k (take (k + k2) _)). rewrite take_take, Nat.min_l by lia. f_equal.
    rewrite <- drop_drop, skipn_firstn_comm. f_equal. lia.
  - repeat split; intros; [|..]; auto with lia. specialize (Ht2 H0). lia. specialize (Hf2 H0). lia.
Qed.

(** A send returns, whatever the peer does; what it sent is the message, or a proper
    part of it when it reports a failure. *)
Lemma send_exact c data timeout_us :
  exists c' ok k, async_spdm_send c data (length data) timeout_us = Done (c', ok) /\ sent c' = sent c ++ take k data /\
    (ok = true -> k = length data) /\ (ok = false -> k < length data).
Proof.
  unfold async_spdm_send. destruct (Nat.eqb_spec (length data) 0) as [H0|H0].
  - exists c, true, 0. rewrite take_0, app_nil_r. auto with lia.
  - destruct (write_loop_exact (length data) (setTimeout c (to_seconds timeout_us)) data 0 (length data))
      as (c' & ok & k & Hw & Hk & Hs & Ht & Hf & _); [lia..|].
    exists c', ok, k. split; [done|]. simpl in Hs. rewrite Nat.sub_0_r in *. auto.
Qed.

Lemma send_all c ms timeout_us c' :
  send_n c ms timeout_us = Done (c', true) -> sent c' = sent c ++ concat ms.
Proof.
  revert c'. induction ms as [|m ms IH] using rev_ind; intros c'; [intros [= <-]; by rewrite app_nil_r|].
  unfold send_n in *. rewrite foldl_app. simpl. destruct (foldl _ _ ms) as [[c1 []]| |]; simpl; try done.
  destruct (send_exact c1 m timeout_us) as (c2 & ok & k & -> & Hs & Ht & _). intros [= -> ->].
  rewrite Hs, (Ht eq_refl), (IH c1 eq_refl), concat_app. simpl. by rewrite firstn_all, app_nil_r, app_assoc.
Qed.

(** C37: what one end sends, message by message, is what the other receives.  When
    the messages carry their length, are longer than their headers and fit into the
    receiver's buffer, every send of [async_spdm_send] reports success, and the bytes
    sent arrive, cut into chunks in any way, with no pause of thirty seconds but before
    or inside a header, then as many calls of [async_spdm_receive] give exactly the
    messages, in order, whatever the two timeouts, and nothing of what follows is
    taken.  (A message that is only a header leaves a timer running that may end the wait
    for the next one: see [header_only_arms_timer].) *)
Theorem messages_delivered ms a a' b data size t_send t_receive rest :
  Forall framed ms -> Forall (fun m => length m <= size) ms -> length data = size ->
  sent a = [] -> send_n a ms t_send = Done (a', true) ->
  timer b = None -> timely (in_header ms) 0 (arrivals b) -> flat (arrivals b) = sent a' ++ rest ->
  exists b', receive_n (length ms) b data size t_receive = Done (b', ms) /\ flat (arrivals b') = rest.
Proof.
  intros Hf Hsz Hd Ha Hs%send_all Hb Ht Hfl. rewrite Hs, Ha in Hfl. by apply messages_received.
Qed.

(** *** The buffer *)

Lemma read_length c n timeout c' ec got : read c n timeout = Done (c', (ec, got)) -> length got <= n.
Proof.
  unfold read, async_read_some. destruct (arrivals _) as [|[d [bs|]] l].
  - destruct (timer _); simpl; [|done]. intros [= <- <- <-]. simpl. lia.
  - destruct (fires _ _); simpl; intros [= <- <- <-]; [simpl; lia|]. rewrite length_take. lia.
  - destruct (fires _ _); simpl; intros [= <- <- <-]; simpl; lia.
Qed.

Lemma read_no_overrun c n timeout : read c n timeout <> Overrun.
Proof.
  unfold read, async_read_some. destruct (arrivals _) as [|[d [bs|]] l];
    [by destruct (timer _)|by destruct (fires _ _)|by destruct (fires _ _)].
Qed.

(** Of a buffer that is long enough nothing outside of [n] bytes is written. *)
Lemma read_loop_bounds fuel c buf base total n timeout :
  base + n <= length buf ->
  match read_loop fuel c buf base total n timeout with
  | Done (_, (buf', _)) => length buf' = length buf /\ take base buf' = take base buf /\ drop (base + n) buf' = drop (base + n) buf
  | Waiting => True
  | Overrun => False
  end.
Proof.
  revert c buf total. induction fuel as [|fuel IH]; intros c buf total Hn; simpl; (destruct (Nat.leb_spec n total); [done|]); [done|].
  destruct (read c (n - total) timeout) as [[c1 [ec got]]| |] eqn:Hr; simpl; [|done|by apply read_no_overrun in Hr].
  apply read_length in Hr. rewrite store_ok by lia.
  set (buf1 := take (base + total) buf ++ got ++ drop (base + total + length got) buf).
  assert (Hl1 : length buf1 = length buf) by (unfold buf1; rewrite !length_app, length_take, length_drop; lia).
  assert (Ht1 : take base buf1 = take base buf).
  { unfold buf1. rewrite take_app_le by (rewrite length_take; lia). rewrite take_take. f_equal. lia. }
  assert (Hd1 : drop (base + n) buf1 = drop (base + n) buf).
  { unfold buf1. rewrite drop_app_ge by (rewrite length_take; lia). rewrite drop_app_ge by (rewrite length_take; lia).
    rewrite drop_drop. f_equal. rewrite length_take. lia. }
  destruct ec; [done|]. destruct (_ =? 0); [done|]. specialize (IH c1 buf1 (total + length got)). rewrite Hl1 in IH.
  specialize (IH Hn). destruct (read_loop _ _ _ _ _ _ _) as [[c2 [b2 ok]]| |]; [|done|done].
  destruct IH as (H1 & H2 & H3). split_and!; congruence.
Qed.

(** [async_spdm_receive] stays inside a buffer of the size it is given, whatever
    arrives, where that is at least the four bytes of a header; it takes no message
    for received that does not fit. *)
Theorem receive_bounds c data timeout_us :
  4 <= length data ->
  match async_spdm_receive c data (length data) timeout_us with
  | Done (_, (buf, ok)) => length buf = length data /\ (ok = true -> 4 <= total_size buf <= length buf)
  | Waiting => True
  | Overrun => False
  end.
Proof.
  intros H4. unfold async_spdm_receive, streamer_read_exact.
  pose proof (read_loop_bounds 4 c data 0 0 4 false H4) as Hb.
  destruct (read_loop 4 _ _ _ _ _ _) as [[c1 [buf []]]| |]; cbn [obind negb] in *; try done; [|by destruct Hb].
  destruct Hb as (Hl & _).
  destruct (Nat.ltb_spec (total_size buf) 4); [by rewrite Hl|]. destruct (Nat.ltb_spec (length data) (total_size buf)); [by rewrite Hl|].
  pose proof (read_loop_bounds (total_size buf - 4) (setTimeout c1 (to_seconds timeout_us)) buf 4 0 (total_size buf - 4) true) as Hb.
  destruct (read_loop _ _ _ _ _ _ _) as [[c2 [buf2 ok]]| |]; [|done|apply Hb; lia].
  destruct Hb as (Hl2 & Ht2 & _); [lia|]. split; [lia|]. intros _.
  assert (total_size buf2 = total_size buf); [|lia].
  rewrite <- (take_drop 4 buf2), <- (take_drop 4 buf), !total_size_prefix by (rewrite length_take; lia). by rewrite Ht2.
Qed.

(** *** The timeouts *)

(** An outcome but for the time left on the timer. *)
Definition shown {A} (o : outcome (conn * A)) : outcome (conn * A) :=
  match o with Done (c, a) => Done (set_timer c None, a) | Waiting => Waiting | Overrun => Overrun end.

(** The timeout that the caller asks for changes nothing: every operation of the
    streamer sets its own of thirty seconds before it starts. *)
Theorem timeout_ignored c data size t1 t2 :
  shown (async_spdm_send c data size t1) = shown (async_spdm_send c data size t2) /\
  shown (async_spdm_receive c data size t1) = shown (async_spdm_receive c data size t2).
Proof.
  assert (Hw : forall fuel c s1 s2 buf total n, shown (write_loop fuel (setTimeout c s1) buf total n) = shown (write_loop fuel (setTimeout c s2) buf total n)).
  { intros fuel c' s1 s2 buf total n. destruct fuel; simpl; by destruct (_ <=? _). }
  assert (Hr : forall fuel c s1 s2 buf base total n,
    shown (read_loop fuel (setTimeout c s1) buf base total n true) = shown (read_loop fuel (setTimeout c s2) buf base total n true)).
  { intros fuel c' s1 s2 buf base total n. destruct fuel; simpl; by destruct (_ <=? _). }
  split.
  - unfold async_spdm_send. destruct (_ =? 0); [done|]. apply Hw.
  - unfold async_spdm_receive. destruct (streamer_read_exact c data 0 4 false) as [[c1 [buf []]]| |]; cbn [obind negb]; [|done..].
    destruct (_ <? 4); [done|]. destruct (_ <? _); [done|]. apply Hr.
Qed.

(** Once the header is there, [async_spdm_receive] returns, whatever the peer does
    or does not: a message that stops coming is a failure and not a wait. *)
Lemma read_loop_returns fuel c buf base total n :
  n - total <= fuel -> read_loop fuel c buf base total n true <> Waiting.
Proof.
  revert c buf total. induction fuel as [|fuel IH]; intros c buf total Hf; simpl; destruct (Nat.leb_spec n total); [done|lia|done|].
  destruct (read c (n - total) true) as [[c1 [ec got]]| |] eqn:Hr; simpl; [|exfalso|done].
  - destruct (store _ _ _); [|done]. destruct ec; [done|]. destruct (Nat.eqb_spec (length got) 0); [done|]. apply IH. lia.
  - revert Hr. unfold read, async_read_some. destruct (arrivals _) as [|[d [bs|]] l]; [done|..]; by destruct (fires _ _).
Qed.

Theorem receive_returns c data size timeout_us c1 buf ok :
  streamer_read_exact c data 0 4 false = Done (c1, (buf, ok)) -> async_spdm_receive c data size timeout_us <> Waiting.
Proof.
  intros Hh. unfold async_spdm_receive. rewrite Hh. cbn [obind]. destruct ok; [|done]. cbn [negb].
  destruct (_ <? 4); [done|]. destruct (_ <? _); [done|]. apply read_loop_returns. lia.
Qed.

(** On a closed connection nothing is sent or received, and nothing is waited for. *)
Theorem closed_fails io data size timeout_us :
  is_open io = true -> 4 <= length data -> timer (io_conn io) = None ->
  (exists io', io_receive (io_close io) data size timeout_us = Done (io', (data, false))) /\
  (exists io', io_send (io_close io) data (length data) timeout_us = Done (io', false) /\ sent (io_conn io') = sent (io_conn io)).
Proof.
  intros Ho Hd Ht. unfold io_close. rewrite Ho. destruct io as [c o]. simpl in *. split.
  - unfold io_receive, async_spdm_receive, streamer_read_exact. simpl. unfold read, async_read_some, fires. simpl. rewrite Ht. simpl.
    unfold store. simpl. rewrite drop_0. by eexists.
  - unfold io_send, async_spdm_send, streamer_write_exact. simpl. destruct data; [simpl in Hd; lia|]. simpl. by eexists.
Qed.

(** ** The blocking transport *)

(** The bytes of a list of events until the connection breaks. *)
Fixpoint flat_events (l : list event) : bytes :=
  match l with
  | Chunk bs :: l => bs ++ flat_events l
  | _ => []
  end.

(** The timeout is split into seconds and microseconds without loss. *)
Lemma timeout_split s timeout_ms :
  (0 <= timeout_ms)%Z ->
  exists sec usec, so_rcvtimeo (configure_socket_timeout true true s timeout_ms) = Some (sec, usec) /\
    (sec * 1000000 + usec = timeout_ms * 1000)%Z /\ (0 <= usec < 1000000)%Z.
Proof.
  intros H. eexists _, _. split; [done|]. pose proof (Z.div_mod timeout_ms 1000). pose proof (Z.mod_pos_bound timeout_ms 1000). lia.
Qed.

(** A session takes what is there: the bytes received are a message exactly where
    the next chunk, cut to the size of the buffer, is that message, alone and
    whole. *)
Theorem blocking_receive_iff s kept buf timeout m rest bs l :
  incoming s = Chunk bs :: l -> bs <> [] -> flat_events (incoming s) = m ++ rest -> m <> [] -> length m <= length buf ->
  exists s' got, device_receive_message s kept buf (length buf) timeout = Done (s', (got, true), got) /\
    got = take (length buf) bs /\ (got = m <-> length (take (length buf) bs) = length m).
Proof.
  intros Hi Hbs Hf Hm Hlen. unfold device_receive_message, read_all_with_timeout.
  assert (0 < length m) by (destruct m; [done|simpl; lia]). destruct (Nat.eqb_spec (length buf) 0); [lia|]. cbn [negb].
  unfold read_with_timeout.
  assert (Hinc : incoming (if (0 <? timeout)%Z then configure_socket_timeout true true s timeout else s) = Chunk bs :: l) by by destruct (0 <? timeout)%Z.
  rewrite Hinc, store_ok by (rewrite length_take; lia). cbn [obind take app].
  assert (Htk : take (length buf `min` length bs) (take 0 buf ++ take (length buf) bs ++ drop (0 + length (take (length buf) bs)) buf) = take (length buf) bs).
  { simpl. apply take_app_length'. by rewrite length_take. }
  rewrite Htk. assert (0 < length bs) by (destruct bs; [done|simpl; lia]).
  rewrite (proj2 (Nat.ltb_lt 0 _)) by lia. simpl. eexists _, _. split; [done|]. split; [done|].
  split; [by intros ->|]. intros Hl. rewrite Hi in Hf. simpl in Hf.
  apply (f_equal (take (length m))) in Hf. rewrite take_app_length in Hf. rewrite <- Hf, <- Hl, length_take.
  rewrite take_app_le by lia. destruct (Nat.le_ge_cases (length buf) (length bs)); [by rewrite Nat.min_l|by rewrite Nat.min_r, !take_ge by lia].
Qed.

(** What the blocking transport sends begins with the message; it is the message
    exactly where no room is left behind it. *)
Theorem blocking_send_iff spare s data :
  let '(s', ok, n) := write_with_timeout spare None s data in
  ok = true /\ outgoing s' = outgoing s ++ data ++ take (length data) spare /\
  (outgoing s' = outgoing s ++ data <-> data = [] \/ spare = []).
Proof.
  simpl. split; [done|]. split; [done|]. split.
  - intros H. rewrite app_assoc in H. rewrite <- (app_nil_r (outgoing s ++ data)) in H at 2. apply app_inv_head in H.
    destruct data; [by left|]. destruct spare; [by right|done].
  - intros [->| ->]; [done|]. by rewrite take_nil, app_nil_r.
Qed.

(** ** The servers *)

(** With a handler set the two servers take every connection alike. *)
Lemma servers_agree n s h : SpdmTcpServer_step true n s h = AsyncSpdmTcpServer_step n s h.
Proof. destruct h as [[]| | |]; done. Qed.

(** The sessions that some happenings start, from number [id] on, and that are not
    over by a return. *)
Definition returned (hs : list happening) : gset nat :=
  list_to_set (omap (fun h => match h with Returned id => Some id | _ => None end) hs).

Definition server_ok (n : nat) (s : server) (hs : list happening) : Prop :=
  size (activeSessions s) <= n /\ forall id, id ∈ activeSessions s <-> id < next_id s /\ id ∉ returned hs.

Lemma returned_snoc hs h : returned (hs ++ [h]) = returned hs ∪ match h with Returned id => {[id]} | _ => ∅ end.
Proof. unfold returned. rewrite omap_app, list_to_set_app_L. f_equal. destruct h; simpl; set_solver. Qed.

Lemma server_step n s hs h s' :
  (forall id, id ∈ returned hs -> id < next_id s) ->
  server_ok n s hs -> AsyncSpdmTcpServer_step n s h = Some s' ->
  server_ok n s' (hs ++ [h]) /\ (forall id, id ∈ returned (hs ++ [h]) -> id < next_id s').
Proof.
  intros Hret [Hsz Hact] Hstep. unfold server_ok. rewrite returned_snoc.
  assert (Hsame : next_id s' = next_id s -> activeSessions s' = activeSessions s -> (forall id, h <> Returned id) ->
    (size (activeSessions s') <= n /\ forall id, id ∈ activeSessions s' <-> id < next_id s' /\
       id ∉ returned hs ∪ match h with Returned id => {[id]} | _ => ∅ end) /\
    (forall id, id ∈ returned hs ∪ match h with Returned id => {[id]} | _ => ∅ end -> id < next_id s')).
  { intros -> -> Hh. destruct h as [| |id|]; [..|by destruct (Hh id)|]; rewrite (union_empty_r_L (returned hs)); auto. }
  destruct h as [init| |id|id]; simpl in Hstep.
  - destruct (accepting s); simpl in Hstep; [|done]. destruct (Nat.leb_spec n (size (activeSessions s))); [injection Hstep as <-; auto|].
    destruct init; injection Hstep as <-; [|auto]. simpl. assert (next_id s ∉ activeSessions s) by (rewrite Hact; lia).
    rewrite size_union, size_singleton by set_solver. split; [split; [lia|]|set_solver by eauto with lia].
    intros id. rewrite elem_of_union, elem_of_singleton, Hact, (union_empty_r_L (returned hs)). split; [|intros [? ?]; destruct (decide (id = next_id s)); [by left|right; split; [lia|done]]].
    intros [->|[? ?]]; [|split; [lia|done]]. split; [lia|]. intros Hr%Hret. lia.
  - destruct (accepting s); [|done]. injection Hstep as <-. auto.
  - destruct (decide _) as [Hin|]; [|done]. injection Hstep as <-. simpl. split; [split|].
    + pose proof (subseteq_size (activeSessions s ∖ {[id]}) (activeSessions s)). set_solver by lia.
    + intros i. rewrite elem_of_difference, Hact. set_solver.
    + intros i [Hi|Hi]%elem_of_union; [by apply Hret|]. apply elem_of_singleton in Hi as ->. by apply Hact in Hin as [? _].
  - destruct (decide _); [|done]. injection Hstep as <-. auto.
Qed.

(** The sessions that a server counts are those that it started and that have not
    returned, and there are never more than the limit; a connection that comes while
    it accepts gets a session exactly where fewer are counted. *)
Theorem server_bounded n hs s :
  serve (AsyncSpdmTcpServer_step n) new_server hs = Some s ->
  size (activeSessions s) <= n /\
  (forall id, id ∈ activeSessions s <-> id < next_id s /\ id ∉ returned hs) /\
  (accepting s = true -> exists s', AsyncSpdmTcpServer_step n s (Connected true) = Some s' /\
     (next_id s' = S (next_id s) <-> size (activeSessions s) < n)).
Proof.
  intros Hrun.
  assert (Hgen : forall hs s0 pre, serve (AsyncSpdmTcpServer_step n) s0 hs = Some s -> server_ok n s0 pre ->
    (forall id, id ∈ returned pre -> id < next_id s0) -> server_ok n s (pre ++ hs)).
  { clear. induction hs as [|h hs IH]; intros s0 pre Hrun Hok Hret; simpl in Hrun; [injection Hrun as <-; by rewrite app_nil_r|].
    destruct (AsyncSpdmTcpServer_step n s0 h) as [s1|] eqn:Hs; [|done].
    destruct (server_step n s0 pre h s1 Hret Hok Hs) as [Hok1 Hret1]. replace (pre ++ h :: hs) with ((pre ++ [h]) ++ hs) by by rewrite <- app_assoc.
    by apply (IH s1). }
  destruct (Hgen hs new_server [] Hrun) as [Hsz Hact]; [split; [apply Nat.le_0_l|simpl; set_solver by lia]|set_solver|].
  split; [done|]. split; [done|]. intros Hacc. simpl. rewrite Hacc. simpl.
  destruct (Nat.leb_spec n (size (activeSessions s))); eexists; (split; [done|]); simpl; lia.
Qed.

(** ** The asynchronous responder *)

Section responder.

Context {X509 ASN1_TIME : Type} (d2i pem : bytes -> option X509) (before after : X509 -> option ASN1_TIME).
Context (cmp : ASN1_TIME -> Z -> Z) (now : Z) (can_read : bytes -> bool).

Local Notation handlers := (handlers d2i pem before after cmp now can_read).
Local Notation startDispatch := (startDispatch d2i pem before after cmp now can_read).
Local Notation dispatch_turn := (dispatch_turn d2i pem before after cmp now can_read).

Lemma turn_agrees send s m st :
  st <> UNSUPPORTED_CAP ->
  exists s', dispatch_turn send s (m, st) = Some (s', (run_turn (dispatchRetryCount_ s) st).2) /\
    dispatchRetryCount_ s' = (run_turn (dispatchRetryCount_ s) st).1.
Proof.
  intros Hst. unfold dispatch_turn. cbn [fst snd].
  assert (Hc : dispatchRetryCount_ (cacheLastMessage s m) = dispatchRetryCount_ s) by by destruct m as [[]|].
  destruct st; try done; eexists; (split; [unfold checkRetryLimit; rewrite ?Hc; reflexivity|]); simpl; congruence.
Qed.

(** The loop of the asynchronous responder mirrors that of a session: on the same
    statuses, where the library leaves no message to the session, both go on for as
    long and count the same retries. *)
Theorem asyncRun_mirrors send es s :
  Forall (fun e => e.2 <> UNSUPPORTED_CAP) es ->
  exists s', startDispatch send s es = Some (s', (asyncRun (dispatchRetryCount_ s) (map snd es)).2) /\
    dispatchRetryCount_ s' = (asyncRun (dispatchRetryCount_ s) (map snd es)).1.
Proof.
  intros Hes. revert s. induction Hes as [|[m st] es Hst _ IH]; intros s; [by exists s|].
  destruct (turn_agrees send s m st Hst) as (s1 & Ht & Hn). cbn [CertExchange.startDispatch map snd asyncRun]. rewrite Ht.
  destruct (run_turn (dispatchRetryCount_ s) st) as [n []]; simpl in *; [|by exists s1]. destruct (IH s1) as (s2 & -> & Hn2).
  subst n. by exists s2.
Qed.

(** A vendor's message gets the same response from both responders, and leaves them
    in the same state, where libspdm's buffer has the room; where it has not, the
    message has been acted on and the peer gets no response to it. *)
Theorem get_response_agrees send s req rsp_size s' ok :
  lastReceivedMessage s = req -> handleCustomMessage d2i pem before after cmp now can_read send s = Some (s', ok) ->
  exists st response, get_response handlers (s_responder s) req rsp_size = Some (s_responder s', (st, response)) /\
    (st = UNSUPPORTED_CAP -> s_sent s' = s_sent s) /\
    (st = SUCCESS -> s_sent s' = s_sent s ++ [response] /\ length response <= rsp_size) /\
    (st = OTHER -> exists r, s_sent s' = s_sent s ++ [r] /\ rsp_size < length r).
Proof.
  intros Hreq. unfold handleCustomMessage, get_response. rewrite Hreq.
  destruct (dispatchToHandler _ _ _) as [[r response]|]; [|done]. case_decide as Hr; intros [= <- <-]; [by eexists _, _|].
  destruct (Nat.ltb_spec rsp_size (length response)); eexists _, _; (split; [done|]); simpl; naive_solver.
Qed.

End responder.

(** ** Witnesses and limits *)

Module Transport.

(** A message of [n] bytes after the header, all [b]. *)
Definition message (n : nat) (b : byte) : bytes := [of_u8 (Z.of_nat n + 2); x00; x01; x05] ++ repeat b n.

Definition link (l : list (Z * event)) : conn := {| arrivals := l; drains := []; sent := []; timer := None |}.

(** The sender's peer takes three bytes at a time. *)
Definition sender : conn := {| arrivals := []; drains := repeat (1%Z, Some 3) 10; sent := []; timer := None |}.

Definition two : list bytes := [message 3 x61; message 2 x62].

(** The two messages arrive in three chunks, the first after an hour, the last with
    the end of the first and all of the second. *)
Definition pieces : list (Z * event) :=
  [(seconds 3600, Chunk (take 2 (concat two))); (seconds 60, Chunk (take 3 (drop 2 (concat two)))); (5%Z, Chunk (drop 5 (concat two)))].

Lemma messages_delivered_witness :
  exists b', receive_n 2 (link pieces) (repeat x00 64) 64 0 = Done (b', two) /\ flat (arrivals b') = [].
Proof.
  eapply (messages_delivered two sender _ (link pieces) (repeat x00 64) 64 0 0 []); try reflexivity.
  - by repeat (constructor; [split; [apply Nat.ltb_lt; reflexivity|reflexivity]|]).
  - by repeat (constructor; [apply Nat.leb_le; reflexivity|]).
  - repeat split; try done; (left; reflexivity) || (right; reflexivity).
Defined.

Lemma receive_bounds_witness :
  4 <= length (repeat x00 8) /\ async_spdm_receive (link pieces) (repeat x00 8) 8 0 <> Overrun.
Proof.
  split; [apply Nat.leb_le; reflexivity|]. pose proof (receive_bounds (link pieces) (repeat x00 8) 0) as H.
  change (length (repeat x00 8)) with 8 in H. intros E. rewrite E in H. apply H. lia.
Defined.

(** A capacity smaller than a header is written past before it is looked at. *)
Example header_overrun : async_spdm_receive (link [(0%Z, Chunk (message 3 x61))]) [x00; x00] 2 0 = Overrun.
Proof. reflexivity. Qed.

(** A header alone leaves the timer of the payload running, which then ends the wait
    for the next header: a second message that comes within the second that the
    caller allows is received, and one that comes later is not. *)
Example header_only_arms_timer :
  let l d := link [(0%Z, Chunk (message 0 x00)); (d, Chunk (message 1 x61))] in
  let second d := match async_spdm_receive (l d) (repeat x00 8) 8 1000000 with
                  | Done (c, (buf, true)) => match async_spdm_receive c buf 8 1000000 with Done (_, (_, ok)) => Some ok | _ => None end
                  | _ => None
                  end in
  second 999999%Z = Some true /\ second 1000000%Z = Some false.
Proof. split; reflexivity. Qed.

(** A peer that sends a byte every 29 seconds is waited for, for as long as that
    takes. *)
Example trickle :
  match async_spdm_receive (link ((0%Z, Chunk (take 4 (message 3 x61))) :: repeat (seconds 29, Chunk [x61]) 3)) (repeat x00 8) 8 1000000 with
  | Done (_, (buf, ok)) => ok = true /\ take 7 buf = message 3 x61
  | _ => False
  end.
Proof. split; reflexivity. Qed.

Definition plain (l : list event) : tcp_socket :=
  {| incoming := l; outgoing := []; so_rcvtimeo := None; so_sndtimeo := None; open := true |}.

Lemma blocking_receive_iff_witness :
  exists s' got, device_receive_message (plain [Chunk (message 3 x61)]) [] (repeat x00 16) 16 0 = Done (s', (got, true), got) /\
    got = message 3 x61.
Proof.
  destruct (blocking_receive_iff (plain [Chunk (message 3 x61)]) [] (repeat x00 16) 0 (message 3 x61) [] (message 3 x61) [])
    as (s' & got & Hr & Hg & Hiff); try done; [simpl; lia|].
  exists s', got. split; [exact Hr|]. by apply Hiff.
Defined.

(** A message in two segments is taken for its first part, and two messages in one
    segment for one. *)
Example blocking_cuts :
  let got l := match device_receive_message (plain l) [] (repeat x00 32) 32 0 with Done (_, (m, true), _) => Some m | _ => None end in
  got [Chunk (take 5 (message 3 x61)); Chunk (drop 5 (message 3 x61))] = Some (take 5 (message 3 x61)) /\
  got [Chunk (concat two)] = Some (concat two).
Proof. split; reflexivity. Qed.

(** A response of eight bytes written into a stream buffer that has room for 128 is
    sent with eight bytes more. *)
Example blocking_padding :
  let '(s, _, n) := write_with_timeout (repeat x00 120) None (plain []) (message 4 x61) in
  n = 16 /\ outgoing s = message 4 x61 ++ repeat x00 8.
Proof. split; reflexivity. Qed.

Lemma server_bounded_witness :
  exists s, serve (AsyncSpdmTcpServer_step 1) new_server [Connected true; Connected true; Returned 0; Connected true] = Some s /\
    size (activeSessions s) <= 1.
Proof.
  eexists. split; [reflexivity|].
  eapply (server_bounded 1 [Connected true; Connected true; Returned 0; Connected true]). reflexivity.
Defined.

(** A session that ends by an exception is counted for good, and one that cannot be
    set up ends the accepting of connections. *)
Example sessions_lost :
  (exists s, serve (AsyncSpdmTcpServer_step 1) new_server [Connected true; Thrown 0; Connected true] = Some s /\ next_id s = 1) /\
  serve (AsyncSpdmTcpServer_step 1) new_server [Connected false; Connected true] = None.
Proof. split; [eexists; split; reflexivity|reflexivity]. Qed.

Lemma asyncRun_mirrors_witness :
  exists s', startDispatch Sample.der Sample.pem Sample.date Sample.date Sample.cmp 0%Z Sample.yes Sample.yes Sample.the_session
    [(None, OTHER); (None, RECEIVE_FAIL)] = Some (s', false) /\ dispatchRetryCount_ s' = 1.
Proof.
  apply (asyncRun_mirrors Sample.der Sample.pem Sample.date Sample.date Sample.cmp 0%Z Sample.yes Sample.yes
    [(None, OTHER); (None, RECEIVE_FAIL)] Sample.the_session). by repeat constructor.
Defined.

Lemma closed_fails_witness :
  is_open (makeAsyncSpdmIO sender) = true /\
  exists io', io_receive (io_close (makeAsyncSpdmIO sender)) (repeat x00 8) 8 0 = Done (io', (repeat x00 8, false)).
Proof. split; [reflexivity|]. apply (closed_fails (makeAsyncSpdmIO sender)); [reflexivity|apply Nat.leb_le; reflexivity|reflexivity]. Defined.

End Transport.
