(* ===== verification/RedfishProxy.v ===== *)
(** * The Redfish proxy: [examples/redfishproxy/redfish_proxy.cpp]

    The handlers of the proxy are coroutines on one thread that share [proxyState].
    A handler runs until it waits for the target, and goes on when the target has
    answered; in between others run, and one of them may destroy the client that the
    operation belongs to.  What the target answers is part of the event, and so is how
    the renewal of a token ends, on which the requests of one client may wait together
    (see [RedfishClient.v]).  The router is that of [Http.v] and the requests are those
    of [WebClient.v]. *)

From S2P Require Import Prelude Http WebClient.

(** ** Requests and responses *)

(** A field's name is compared without regard to case. *)
Definition lower (s : bytes) : bytes :=
  (fun b => if ((65 <=? u8 b) && (u8 b <=? 90))%Z then of_u8 (u8 b + 32) else b) <$> s.

Abbreviation fields_t := (list (bytes * bytes)).

(** [basic_fields::set]: the fields of that name are replaced by one. *)
Definition set_field (fs : fields_t) (name value : bytes) : fields_t :=
  filter (fun f => lower f.1 <> lower name) fs ++ [(name, value)].

(** [basic_fields::operator[]]: the first field of that name. *)
Definition get_field (fs : fields_t) (name : bytes) : option bytes :=
  snd <$> head (filter (fun f => lower f.1 = lower name) fs).

(** A response with its body; [prepare_payload] sets the length. *)
Record reply := mkReply { r_status : Z; r_fields : fields_t; r_body : bytes }.

Definition prepare_payload (length_of : bytes -> bytes) (r : reply) : reply :=
  mkReply (r_status r) (set_field (r_fields r) (str "Content-Length") (length_of (r_body r))) (r_body r).

(** [RedfishClient::Request]. *)
Record redfish_request := mkRR { rr_method : verb; rr_target : bytes; rr_body : bytes; rr_headers : gmap bytes bytes }.

(** A request to the proxy. *)
Record request_in := mkIn { in_method : verb; in_target : bytes; in_body : bytes; in_fields : fields_t }.

(** The fields that the proxy leaves out. *)
Definition skipped (name : bytes) : bool :=
  bool_decide (name ∈ [str "host"; str "Host"; str "authorization"; str "Authorization"; str "X-Auth-Token"]).

Definition copied_headers (fs : fields_t) : gmap bytes bytes :=
  foldl (fun m f => if skipped f.1 then m else <[f.1 := f.2]> m) ∅ fs.

Definition clientReq (req : request_in) : redfish_request :=
  mkRR (in_method req) (in_target req) (in_body req) (copied_headers (in_fields req)).

(** What [RedfishClient] is told by a configuration. *)
Record target := mkTarget { t_host : bytes; t_port : bytes; t_protocol : bytes; t_user : bytes; t_pass : bytes }.

(** The request that [RedfishClient::execute] makes of one, with a token; the list
    of headers is a map, in the order of its keys. *)
Definition execute_request (t : target) (token : bytes) (r : redfish_request) : WebClient :=
  withHeaders
    (withKeepAlive (withBody (withTarget (withMethod (withPort (withHost tcpClient (t_host t)) (t_port t)) (rr_method r)) (rr_target r)) (rr_body r)) true)
    [(str "Content-Type", str "application/json"); (str "X-Auth-Token", token)].

(** ** The state *)

(** The client is known by its number; [made] are the targets of those made so far,
    [token] is that of the client there is. *)
Record ProxyState := mkProxy { client : option nat; configured : bool; token : bytes; made : list target }.

Definition reset (s : ProxyState) : ProxyState := mkProxy None false [] (made s).

(** Where a handler is: in the first [refreshToken], in the [k]-th request of
    [execute], in the [refreshToken] after it, or at its end. *)
Inductive task :=
  | Authenticating (c : nat)
  | Forwarding (c : nat) (r : redfish_request) (k : nat)
  | Renewing (c : nat) (r : redfish_request) (k : nat)
  | Replied (r : reply).

(** [sent] has the requests to targets, each with its handler and its endpoint. *)
Record proxy := mkSys { state : ProxyState; tasks : gmap nat task; sent : list (nat * (bytes * bytes) * BeastRequest) }.

Definition proxy_init : proxy := mkSys (mkProxy None false [] []) ∅ [].

(** A member of a JSON body, as [value] finds it. *)
Inductive member := Absent | Text (s : bytes) | NotText.

(** How [refreshToken] and a request end. *)
Inductive ended (A : Type) := Ok (a : A) | Error (message : bytes) | Threw (what : bytes).
Arguments Ok {A} a.
Arguments Error {A} message.
Arguments Threw {A} what.

Inductive event :=
  | Configure (i : nat) (body : bytes) (setup : option bytes)   (* what setting up throws *)
  | GotToken (i : nat) (r : ended bytes)
  | Request (i : nat) (req : request_in)
  | Answered (i : nat) (r : ended reply)
  | Renewed (i : nat) (r : ended bytes)
  | Connects (i : nat).   (* the pool makes another connection for the handler *)

(** After an event: the proxy, or undefined behaviour. *)
Inductive world := Running (p : proxy) | Undefined.

Section proxy.

(** JSON: a body is a function from keys to members, or not JSON; an object of
    strings is written; the decimal of a length; and the text of [timed_out]. *)
Context (parse : bytes -> option (bytes -> member)) (what : bytes -> bytes) (dump : fields_t -> bytes) (length_of : bytes -> bytes).
Context (timed_out : bytes).

Definition value (j : bytes -> member) (key def : bytes) : option bytes :=
  match j key with Absent => Some def | Text s => Some s | NotText => None end.

Definition json_reply (st : Z) (body : fields_t) : reply :=
  prepare_payload length_of (mkReply st [(str "Content-Type", str "application/json")] (dump body)).

Definition put (p : proxy) (s : ProxyState) (i : nat) (t : task) : proxy := mkSys s (<[i := t]> (tasks p)) (sent p).

Definition target_of (l : list target) (c : nat) : target := default (mkTarget [] [] [] [] []) (l !! c).

(** The values of the body, or the exception of [json]. *)
Definition config_of (body : bytes) : option target :=
  match parse body with
  | None => None
  | Some j =>
      match value j (str "host") [], value j (str "port") (str "443"), value j (str "protocol") (str "https"),
            value j (str "username") [], value j (str "password") [] with
      | Some h, Some p, Some pr, Some u, Some pw => Some (mkTarget h p pr u pw)
      | _, _, _, _, _ => None
      end
  end.

Definition missing (t : target) : bool :=
  bool_decide (t_host t = []) || bool_decide (t_user t = []) || bool_decide (t_pass t = []).

(** [handleConfigEndpoint] up to its wait. *)
Definition handleConfig (p : proxy) (i : nat) (body : bytes) (setup : option bytes) : proxy :=
  match config_of body with
  | None => put p (reset (state p)) i
              (Replied (json_reply 400 [(str "error", str "Invalid JSON format"); (str "details", what body)]))
  | Some t =>
      if missing t then
        put p (state p) i (Replied (json_reply 400 [(str "error", str "Missing required fields: host, username, password")]))
      else
        let s := reset (state p) in
        match setup with
        | Some w => put p s i (Replied (json_reply 500 [(str "error", str "Configuration failed"); (str "details", w)]))
        | None => put p (mkProxy (Some (length (made s))) false [] (made s ++ [t])) i (Authenticating (length (made s)))
        end
  end.

Definition target_url (t : target) : bytes := t_protocol t ++ str "://" ++ t_host t ++ str ":" ++ t_port t.

(** The rest of it, when the token is there or not. *)
Definition gotToken (p : proxy) (i c : nat) (r : ended bytes) : proxy :=
  match r with
  | Error m => put p (reset (state p)) i
                 (Replied (json_reply 401 [(str "error", str "Failed to authenticate with target server"); (str "details", m)]))
  | Threw w => put p (reset (state p)) i
                 (Replied (json_reply 500 [(str "error", str "Configuration failed"); (str "details", w)]))
  | Ok token =>
      let t := target_of (made (state p)) c in
      put p (mkProxy (client (state p)) true token (made (state p))) i
        (Replied (prepare_payload length_of
           (mkReply 201 (set_field [(str "Content-Type", str "application/json")] (str "X-Auth-Token") token)
              (dump [(str "status", str "configured"); (str "target", target_url t);
                     (str "message", str "Authentication successful. Client will create fresh connections per request with automatic token refresh.")]))))
  end.

(** The body of the loop of [execute] up to its wait, the [k]-th time. *)
Definition send (p : proxy) (i c : nat) (r : redfish_request) (k : nat) : proxy :=
  let w := execute_request (target_of (made (state p)) c) (token (state p)) r in
  mkSys (state p) (<[i := Forwarding c r k]> (tasks p)) (sent p ++ [(i, getEndpoint w, buildRequest w)]).

(** [handleProxyRequest] up to its wait. *)
Definition handleProxy (p : proxy) (i : nat) (req : request_in) : proxy :=
  match configured (state p), client (state p) with
  | true, Some c => send p i c (clientReq req) 1
  | _, _ => put p (state p) i
              (Replied (json_reply 503 [(str "error", str "Proxy not configured");
                                        (str "message", str "Please configure the proxy using POST /redfish/v1/proxy/config")]))
  end.

(** The response of the target, passed on. *)
Definition passed_on (res : reply) : reply :=
  prepare_payload length_of
    (mkReply (r_status res) (foldl (fun fs f => set_field fs f.1 f.2) [(str "Content-Type", str "application/json")] (r_fields res)) (r_body res)).

(** The end of [handleProxyRequest], when [execute] has returned. *)
Definition executed (p : proxy) (i : nat) (r : ended reply) : proxy :=
  put p (state p) i
    (Replied match r with
             | Ok res => passed_on res
             | Error m => json_reply 502 [(str "error", str "Failed to communicate with target server"); (str "details", m)]
             | Threw w => json_reply 500 [(str "error", str "Internal proxy error"); (str "details", w)]
             end).

Definition unauthorized : Z := 401.

(** [execute] when the target has answered: it renews the token, or returns. *)
Definition answered (p : proxy) (i c : nat) (q : redfish_request) (k : nat) (r : ended reply) : proxy :=
  match r with
  | Ok res => if decide (r_status res = unauthorized) then put p (state p) i (Renewing c q k) else executed p i r
  | _ => executed p i r
  end.

(** [execute] when the token is renewed or not: there are three requests at most. *)
Definition renewed (p : proxy) (i c : nat) (q : redfish_request) (k : nat) (r : ended bytes) : proxy :=
  match r with
  | Ok tok =>
      let p := mkSys (mkProxy (client (state p)) (configured (state p)) tok (made (state p))) (tasks p) (sent p) in
      if k <? 3 then send p i c q (S k) else executed p i (Error timed_out)
  | Error m => executed p i (Error m)
  | Threw w => executed p i (Threw w)
  end.

(** [this] of a coroutine is the client there is. *)
Definition alive (p : proxy) (c : nat) : bool := bool_decide (client (state p) = Some c).

Definition guarded (b : bool) (p : proxy) : option world := Some (if b then Running p else Undefined).

(** A client that has been destroyed is gone, and its SSL context with it: another
    connection needs the one, and [refreshToken] the other, before and after its wait;
    a request that has its answer needs neither. *)
Definition step (p : proxy) (e : event) : option world :=
  match e with
  | Configure i body setup => match tasks p !! i with None => Some (Running (handleConfig p i body setup)) | _ => None end
  | Request i req => match tasks p !! i with None => Some (Running (handleProxy p i req)) | _ => None end
  | GotToken i r =>
      match tasks p !! i with Some (Authenticating c) => guarded (alive p c) (gotToken p i c r) | _ => None end
  | Answered i r =>
      match tasks p !! i with
      | Some (Forwarding c q k) =>
          guarded (alive p c || match r with Ok res => negb (bool_decide (r_status res = unauthorized)) | _ => true end)
            (answered p i c q k r)
      | _ => None
      end
  | Renewed i r =>
      match tasks p !! i with Some (Renewing c q k) => guarded (alive p c) (renewed p i c q k r) | _ => None end
  | Connects i =>
      match tasks p !! i with
      | Some (Authenticating c) | Some (Forwarding c _ _) | Some (Renewing c _ _) => guarded (alive p c) p
      | _ => None
      end
  end.

Fixpoint run (p : proxy) (es : list event) : option world :=
  match es with
  | [] => Some (Running p)
  | e :: es => match step p e with
               | Some (Running p) => run p es
               | Some Undefined => Some Undefined
               | None => None
               end
  end.

(** ** Fields *)

(** The last value of a field, by its name in small letters. *)
Definition last_field (fs : fields_t) (name : bytes) : option bytes :=
  snd <$> last (filter (fun f => lower f.1 = name) fs).

Lemma get_set_field fs n v name :
  get_field (set_field fs n v) name = if decide (lower n = lower name) then Some v else get_field fs name.
Proof.
  unfold get_field, set_field. rewrite filter_app. destruct (decide (lower n = lower name)) as [Heq|Hne].
  - assert (Hnil : filter (fun f => lower f.1 = lower name) (filter (fun f => lower f.1 <> lower n) fs) = []).
    { clear -Heq. induction fs as [|f fs IH]; [done|]. rewrite filter_cons. case_decide as H; [|done]. rewrite filter_cons_False by congruence. done. }
    rewrite Hnil. simpl. by rewrite filter_cons_True.
  - rewrite (filter_cons_False _ (n, v) []), filter_nil, app_nil_r by done. f_equal. f_equal.
    clear -Hne. induction fs as [|f fs IH]; [done|]. rewrite (filter_cons (fun f => lower f.1 <> lower n)). case_decide as H.
    + rewrite !filter_cons. case_decide; by rewrite IH.
    + rewrite (filter_cons_False _ f fs) by congruence. exact IH.
Qed.

Lemma get_set_fields fs acc name :
  get_field (foldl (fun fs f => set_field fs f.1 f.2) acc fs) name =
  match last_field fs (lower name) with Some v => Some v | None => get_field acc name end.
Proof.
  unfold last_field. induction fs as [|f fs IH] using rev_ind; [done|]. rewrite foldl_app, filter_app. simpl.
  rewrite get_set_field, IH, filter_cons, filter_nil. destruct (decide (lower f.1 = lower name)); [by rewrite last_snoc|by rewrite app_nil_r].
Qed.

(** ** Refinement *)

(** The contract, without clients.  A request is known by its method, its target and
    its body. *)
Abbreviation asked := (verb * bytes * bytes)%type.

Inductive waits :=
  | ForToken (t : target)
  | ForTarget (t : target) (q : asked) (k : nat)
  | ForRenewal (t : target) (q : asked) (k : nat)
  | Nothing (r : reply).

(** The target in use, with its token; what each request waits for; and the requests
    to targets so far. *)
Record spec := mkSpec { in_use : option (target * bytes); work : gmap nat waits; outs : list (nat * (bytes * bytes) * BeastRequest) }.

(** [r] has that status, that body and, besides the length, those fields. *)
Definition reply_is (st : Z) (body : bytes) (field : bytes -> option bytes) (r : reply) : Prop :=
  r_status r = st /\ r_body r = body /\
  forall name, get_field (r_fields r) name =
    if decide (lower name = str "content-length") then Some (length_of body) else field (lower name).

Definition json_fields (name : bytes) : option bytes :=
  if decide (name = str "content-type") then Some (str "application/json") else None.

Definition says (st : Z) (texts : fields_t) : reply -> Prop := reply_is st (dump texts) json_fields.

Definition fails (st : Z) (error details : bytes) : reply -> Prop := says st [(str "error", error); (str "details", details)].

(** The member of an object, or a default. *)
Definition reads_as (j : bytes -> member) (key def v : bytes) : Prop := j key = Text v \/ (j key = Absent /\ v = def).

Definition reads (body : bytes) (t : target) : Prop :=
  exists j, parse body = Some j /\
    reads_as j (str "host") [] (t_host t) /\ reads_as j (str "port") (str "443") (t_port t) /\
    reads_as j (str "protocol") (str "https") (t_protocol t) /\
    reads_as j (str "username") [] (t_user t) /\ reads_as j (str "password") [] (t_pass t).

Definition unreadable (body : bytes) : Prop :=
  match parse body with
  | None => True
  | Some j => exists key, key ∈ [str "host"; str "port"; str "protocol"; str "username"; str "password"] /\ j key = NotText
  end.

Definition complete (t : target) : Prop := t_host t <> [] /\ t_user t <> [] /\ t_pass t <> [].

(** The request that goes to a target with a token. *)
Definition goes (t : target) (tok : bytes) (q : asked) (i : nat) (o : nat * (bytes * bytes) * BeastRequest) : Prop :=
  o.1 = (i, (t_host t, t_port t)) /\ bmethod o.2 = q.1.1 /\ btarget o.2 = q.1.2 /\ bbody o.2 = q.2 /\
  get_field (fields o.2) (str "X-Auth-Token") = Some tok /\ get_field (fields o.2) (str "Host") = Some (t_host t).

Definition ends (s : spec) (u : option (target * bytes)) (i : nat) (r : reply) : spec := mkSpec u (<[i := Nothing r]> (work s)) (outs s).

Inductive spec_step (s : spec) : event -> spec -> Prop :=
  (* an attempt to configure: unless it only lacks a value, the target in use is given up *)
  | configure_unreadable i body setup r :
      work s !! i = None -> unreadable body -> fails 400 (str "Invalid JSON format") (what body) r ->
      spec_step s (Configure i body setup) (ends s None i r)
  | configure_incomplete i body setup t r :
      work s !! i = None -> reads body t -> ~ complete t ->
      says 400 [(str "error", str "Missing required fields: host, username, password")] r ->
      spec_step s (Configure i body setup) (ends s (in_use s) i r)
  | configure_failed i body w t r :
      work s !! i = None -> reads body t -> complete t -> fails 500 (str "Configuration failed") w r ->
      spec_step s (Configure i body (Some w)) (ends s None i r)
  | configure_starts i body t :
      work s !! i = None -> reads body t -> complete t ->
      spec_step s (Configure i body None) (mkSpec None (<[i := ForToken t]> (work s)) (outs s))
  (* its target is in use from the token on *)
  | token_there i tok t r :
      work s !! i = Some (ForToken t) ->
      reply_is 201 (dump [(str "status", str "configured"); (str "target", t_protocol t ++ str "://" ++ t_host t ++ str ":" ++ t_port t);
                          (str "message", str "Authentication successful. Client will create fresh connections per request with automatic token refresh.")])
        (fun name => if decide (name = str "x-auth-token") then Some tok else json_fields name) r ->
      spec_step s (GotToken i (Ok tok)) (ends s (Some (t, tok)) i r)
  | token_refused i m t r :
      work s !! i = Some (ForToken t) -> fails 401 (str "Failed to authenticate with target server") m r ->
      spec_step s (GotToken i (Error m)) (ends s None i r)
  | token_threw i w t r :
      work s !! i = Some (ForToken t) -> fails 500 (str "Configuration failed") w r ->
      spec_step s (GotToken i (Threw w)) (ends s None i r)
  (* any other request *)
  | request_refused i req r :
      work s !! i = None -> in_use s = None ->
      says 503 [(str "error", str "Proxy not configured");
                (str "message", str "Please configure the proxy using POST /redfish/v1/proxy/config")] r ->
      spec_step s (Request i req) (ends s None i r)
  | request_goes i req t tok o :
      work s !! i = None -> in_use s = Some (t, tok) -> goes t tok (in_method req, in_target req, in_body req) i o ->
      spec_step s (Request i req)
        (mkSpec (in_use s) (<[i := ForTarget t (in_method req, in_target req, in_body req) 1]> (work s)) (outs s ++ [o]))
  | answer_passed_on i t q k res r :
      work s !! i = Some (ForTarget t q k) -> r_status res <> unauthorized ->
      reply_is (r_status res) (r_body res)
        (fun name => match last_field (r_fields res) name with Some v => Some v | None => json_fields name end) r ->
      spec_step s (Answered i (Ok res)) (ends s (in_use s) i r)
  | answer_unauthorized i t q k res :
      work s !! i = Some (ForTarget t q k) -> r_status res = unauthorized ->
      spec_step s (Answered i (Ok res)) (mkSpec (in_use s) (<[i := ForRenewal t q k]> (work s)) (outs s))
  | answer_failed i t q k m r :
      work s !! i = Some (ForTarget t q k) -> fails 502 (str "Failed to communicate with target server") m r ->
      spec_step s (Answered i (Error m)) (ends s (in_use s) i r)
  | answer_threw i t q k w r :
      work s !! i = Some (ForTarget t q k) -> fails 500 (str "Internal proxy error") w r ->
      spec_step s (Answered i (Threw w)) (ends s (in_use s) i r)
  (* the request is made again with a new token, three times at most *)
  | renewal_goes i t q k tok o :
      work s !! i = Some (ForRenewal t q k) -> k < 3 -> goes t tok q i o ->
      spec_step s (Renewed i (Ok tok))
        (mkSpec ((fun u => (u.1, tok)) <$> in_use s) (<[i := ForTarget t q (S k)]> (work s)) (outs s ++ [o]))
  | renewal_late i t q k tok r :
      work s !! i = Some (ForRenewal t q k) -> 3 <= k -> fails 502 (str "Failed to communicate with target server") timed_out r ->
      spec_step s (Renewed i (Ok tok)) (ends s ((fun u => (u.1, tok)) <$> in_use s) i r)
  | renewal_failed i t q k m r :
      work s !! i = Some (ForRenewal t q k) -> fails 502 (str "Failed to communicate with target server") m r ->
      spec_step s (Renewed i (Error m)) (ends s (in_use s) i r)
  | renewal_threw i t q k w r :
      work s !! i = Some (ForRenewal t q k) -> fails 500 (str "Internal proxy error") w r ->
      spec_step s (Renewed i (Threw w)) (ends s (in_use s) i r)
  | connection i : spec_step s (Connects i) s.

Inductive spec_run : spec -> list event -> spec -> Prop :=
  | spec_done s : spec_run s [] s
  | spec_more s e s1 es s2 : spec_step s e s1 -> spec_run s1 es s2 -> spec_run s (e :: es) s2.

Definition asked_of (r : redfish_request) : asked := (rr_method r, rr_target r, rr_body r).

Definition abs_task (l : list target) (t : task) : waits :=
  match t with
  | Authenticating c => ForToken (target_of l c)
  | Forwarding c r k => ForTarget (target_of l c) (asked_of r) k
  | Renewing c r k => ForRenewal (target_of l c) (asked_of r) k
  | Replied r => Nothing r
  end.

Definition abs (p : proxy) : spec :=
  mkSpec (if configured (state p) then (fun c => (target_of (made (state p)) c, token (state p))) <$> client (state p) else None)
         (abs_task (made (state p)) <$> tasks p) (sent p).

(** Clients in use have been made. *)
Definition task_client (t : task) : option nat :=
  match t with Authenticating c | Forwarding c _ _ | Renewing c _ _ => Some c | Replied _ => None end.

Record proxy_ok (p : proxy) : Prop := {
  ok_client : forall c, client (state p) = Some c -> c < length (made (state p));
  ok_tasks : forall i t c, tasks p !! i = Some t -> task_client t = Some c -> c < length (made (state p)) }.

Lemma target_of_app l t c : c < length l -> target_of (l ++ [t]) c = target_of l c.
Proof. intros H. unfold target_of. by rewrite lookup_app_l. Qed.

Lemma target_of_last l t : target_of (l ++ [t]) (length l) = t.
Proof. unfold target_of. by rewrite lookup_app_r, Nat.sub_diag. Qed.

Lemma abs_put p s i t :
  made s = made (state p) ->
  abs (put p s i t) = mkSpec (if configured s then (fun c => (target_of (made s) c, token s)) <$> client s else None)
                             (<[i := abs_task (made s) t]> (work (abs p))) (sent p).
Proof. intros Hm. unfold abs, put. simpl. by rewrite fmap_insert, Hm. Qed.

Lemma ok_insert p s i t out :
  proxy_ok p -> made s = made (state p) -> (forall c, client s = Some c -> client (state p) = Some c) ->
  (forall c, task_client t = Some c -> c < length (made s)) -> proxy_ok (mkSys s (<[i := t]> (tasks p)) out).
Proof.
  intros [Hc Ht] Hm Hs Htc. split; simpl; rewrite Hm.
  - intros c H%Hs. by apply Hc.
  - intros j t' c [[<- <-]|[_ Hj]]%lookup_insert_Some; [rewrite <- Hm; by apply Htc|by apply (Ht j t')].
Qed.

Lemma abs_lookup p i : work (abs p) !! i = abs_task (made (state p)) <$> tasks p !! i.
Proof. apply lookup_fmap. Qed.

(** *** Replies *)

Lemma prepared_is st fs body field :
  (forall name, get_field fs name = field (lower name)) -> reply_is st body field (prepare_payload length_of (mkReply st fs body)).
Proof.
  intros Hf. split; [done|]. split; [done|]. intros name. cbn [prepare_payload r_fields r_body r_status].
  rewrite get_set_field, Hf. change (lower (str "Content-Length")) with (str "content-length").
  by destruct (decide (str "content-length" = lower name)), (decide (lower name = str "content-length")).
Qed.

Lemma get_json name : get_field [(str "Content-Type", str "application/json")] name = json_fields (lower name).
Proof.
  unfold get_field, json_fields. rewrite filter_cons. change (lower (str "Content-Type", str "application/json").1) with (str "content-type").
  by destruct (decide (str "content-type" = lower name)), (decide (lower name = str "content-type")).
Qed.

Lemma json_reply_says st body : says st body (json_reply st body).
Proof. apply prepared_is, get_json. Qed.

Lemma passed_on_is res :
  reply_is (r_status res) (r_body res)
    (fun name => match last_field (r_fields res) name with Some v => Some v | None => json_fields name end) (passed_on res).
Proof. apply prepared_is. intros name. by rewrite get_set_fields, get_json. Qed.

Lemma token_reply_is body tok :
  reply_is 201 body (fun name => if decide (name = str "x-auth-token") then Some tok else json_fields name)
    (prepare_payload length_of (mkReply 201 (set_field [(str "Content-Type", str "application/json")] (str "X-Auth-Token") tok) body)).
Proof.
  apply prepared_is. intros name. rewrite get_set_field, get_json. change (lower (str "X-Auth-Token")) with (str "x-auth-token").
  by destruct (decide (str "x-auth-token" = lower name)), (decide (lower name = str "x-auth-token")).
Qed.

(** *** Requests *)

Lemma value_reads j key def : match value j key def with Some v => reads_as j key def v | None => j key = NotText end.
Proof. unfold value, reads_as. destruct (j key); auto. Qed.

Lemma config_of_reads body : match config_of body with Some t => reads body t | None => unreadable body end.
Proof.
  unfold config_of, unreadable, reads. destruct (parse body) as [j|]; [|done].
  pose proof (value_reads j (str "host") []) as H1. pose proof (value_reads j (str "port") (str "443")) as H2.
  pose proof (value_reads j (str "protocol") (str "https")) as H3. pose proof (value_reads j (str "username") []) as H4.
  pose proof (value_reads j (str "password") []) as H5.
  destruct (value j (str "host") []) as [h|]; [|exists (str "host"); split; [set_solver|done]].
  destruct (value j (str "port") _) as [pt|]; [|exists (str "port"); split; [set_solver|done]].
  destruct (value j (str "protocol") _) as [pr|]; [|exists (str "protocol"); split; [set_solver|done]].
  destruct (value j (str "username") []) as [u|]; [|exists (str "username"); split; [set_solver|done]].
  destruct (value j (str "password") []) as [w|]; [|exists (str "password"); split; [set_solver|done]].
  exists j. done.
Qed.

Lemma missing_complete t : if missing t then ~ complete t else complete t.
Proof. unfold missing, complete. repeat case_bool_decide; simpl; naive_solver. Qed.

Lemma execute_goes t tok r i :
  let w := execute_request t tok r in goes t tok (asked_of r) i (i, getEndpoint w, buildRequest w).
Proof. split_and!; try reflexivity. cbn. by rewrite app_nil_r. Qed.

Lemma asked_clientReq req : asked_of (clientReq req) = (in_method req, in_target req, in_body req).
Proof. done. Qed.

Lemma configure_refines p i body setup :
  proxy_ok p -> tasks p !! i = None ->
  spec_step (abs p) (Configure i body setup) (abs (handleConfig p i body setup)) /\ proxy_ok (handleConfig p i body setup).
Proof.
  intros Hok Hi. assert (Hw : work (abs p) !! i = None) by (by rewrite abs_lookup, Hi). unfold handleConfig.
  pose proof (config_of_reads body) as Hr. destruct (config_of body) as [t|].
  2:{ split; [rewrite abs_put by done; by apply configure_unreadable; [..|apply json_reply_says]|by apply ok_insert]. }
  pose proof (missing_complete t) as Hm. destruct (missing t).
  { split; [rewrite abs_put by done; by eapply configure_incomplete; [..|apply json_reply_says]|by apply ok_insert]. }
  destruct setup as [w|].
  { split; [rewrite abs_put by done; by eapply configure_failed; [..|apply json_reply_says]|by apply ok_insert]. }
  destruct Hok as [Hc Ht]. split.
  - assert (He : abs (put p (mkProxy (Some (length (made (state p)))) false [] (made (state p) ++ [t])) i (Authenticating (length (made (state p))))) =
      mkSpec None (<[i := ForToken t]> (work (abs p))) (outs (abs p))).
    { unfold abs, put. simpl. f_equal. rewrite fmap_insert. simpl. rewrite target_of_last. f_equal.
      apply map_fmap_ext. intros j x Hx. destruct x; simpl; rewrite ?target_of_app; try done; by eapply Ht. }
    simpl. rewrite He. by apply configure_starts.
  - split; simpl; rewrite length_app; simpl; [intros c [= <-]; lia|].
    intros j x c [[<- <-]|[_ Hj]]%lookup_insert_Some; simpl; [intros [= <-]; lia|]. intros Hx. specialize (Ht j x c Hj Hx). lia.
Qed.

Lemma token_refines p i c r :
  proxy_ok p -> tasks p !! i = Some (Authenticating c) -> client (state p) = Some c ->
  spec_step (abs p) (GotToken i r) (abs (gotToken p i c r)) /\ proxy_ok (gotToken p i c r).
Proof.
  intros Hok Hi Hc. assert (Hw : work (abs p) !! i = Some (ForToken (target_of (made (state p)) c))) by (by rewrite abs_lookup, Hi).
  unfold gotToken. destruct r as [tok|m|w]; (split; [rewrite abs_put by done|by apply ok_insert]); simpl; rewrite ?Hc.
  - eapply token_there; [done|]. apply token_reply_is.
  - eapply token_refused; [done|]. apply json_reply_says.
  - eapply token_threw; [done|]. apply json_reply_says.
Qed.

Lemma request_refines p i req :
  proxy_ok p -> tasks p !! i = None -> spec_step (abs p) (Request i req) (abs (handleProxy p i req)) /\ proxy_ok (handleProxy p i req).
Proof.
  intros Hok Hi. assert (Hw : work (abs p) !! i = None) by (by rewrite abs_lookup, Hi). unfold handleProxy.
  destruct (configured (state p)) eqn:Hcf, (client (state p)) as [c|] eqn:Hc.
  - split; [|apply ok_insert; try done; intros c' [= <-]; by apply (ok_client p)].
    unfold abs at 2, send. simpl. rewrite fmap_insert. simpl.
    assert (Hu : in_use (abs p) = Some (target_of (made (state p)) c, token (state p))) by (unfold abs; simpl; by rewrite Hcf, Hc).
    rewrite Hcf, Hc. pose proof (request_goes (abs p) i req _ _ _ Hw Hu (execute_goes _ _ (clientReq req) i)) as H.
    rewrite Hu in H. exact H.
  - split; [|by apply ok_insert]. rewrite abs_put by done. rewrite Hcf, Hc. apply request_refused; [done| |apply json_reply_says].
    unfold abs. simpl. by rewrite Hcf, Hc.
  - split; [|by apply ok_insert]. rewrite abs_put by done. rewrite Hcf. apply request_refused; [done| |apply json_reply_says].
    unfold abs. simpl. by rewrite Hcf.
  - split; [|by apply ok_insert]. rewrite abs_put by done. rewrite Hcf. apply request_refused; [done| |apply json_reply_says].
    unfold abs. simpl. by rewrite Hcf.
Qed.

Lemma answer_refines p i c q k r :
  proxy_ok p -> tasks p !! i = Some (Forwarding c q k) ->
  spec_step (abs p) (Answered i r) (abs (answered p i c q k r)) /\ proxy_ok (answered p i c q k r).
Proof.
  intros Hok Hi. assert (Hw : work (abs p) !! i = Some (ForTarget (target_of (made (state p)) c) (asked_of q) k)) by (by rewrite abs_lookup, Hi).
  assert (Hlt : c < length (made (state p))) by (by apply (ok_tasks p Hok i _ c Hi)).
  unfold answered. destruct r as [res|m|w]; [destruct (decide (r_status res = unauthorized))|..];
    (split; [unfold executed; rewrite abs_put by done|apply ok_insert; try done; by intros c' [= <-]]).
  - by eapply answer_unauthorized.
  - eapply answer_passed_on; [done..|apply passed_on_is].
  - eapply answer_failed; [done|apply json_reply_says].
  - eapply answer_threw; [done|apply json_reply_says].
Qed.

Lemma renewal_refines p i c q k r :
  proxy_ok p -> tasks p !! i = Some (Renewing c q k) ->
  spec_step (abs p) (Renewed i r) (abs (renewed p i c q k r)) /\ proxy_ok (renewed p i c q k r).
Proof.
  intros Hok Hi. assert (Hw : work (abs p) !! i = Some (ForRenewal (target_of (made (state p)) c) (asked_of q) k)) by (by rewrite abs_lookup, Hi).
  assert (Hlt : c < length (made (state p))) by (by apply (ok_tasks p Hok i _ c Hi)).
  unfold renewed. destruct r as [tok|m|w].
  - assert (Hu : forall x : bytes, (fun u => (u.1, x)) <$> in_use (abs p) =
      if configured (state p) then (fun c => (target_of (made (state p)) c, x)) <$> client (state p) else None).
    { intros x. unfold abs. simpl. destruct (configured (state p)), (client (state p)); done. }
    destruct (Nat.ltb_spec k 3) as [Hk|Hk].
    + split; [|apply (ok_insert p); try done; by intros c' [= <-]]. unfold abs at 2, send. simpl. rewrite fmap_insert, <- Hu. simpl.
      apply (renewal_goes (abs p) i _ _ k tok); [done|done|]. apply execute_goes.
    + split; [|by apply (ok_insert p)]. unfold abs at 2, executed, put. simpl. rewrite fmap_insert, <- Hu. simpl.
      eapply (renewal_late (abs p)); [done|done|apply json_reply_says].
  - split; [unfold executed; rewrite abs_put by done|by apply (ok_insert p)]. eapply renewal_failed; [done|apply json_reply_says].
  - split; [unfold executed; rewrite abs_put by done|by apply (ok_insert p)]. eapply renewal_threw; [done|apply json_reply_says].
Qed.

Lemma step_refines p e p' : proxy_ok p -> step p e = Some (Running p') -> spec_step (abs p) e (abs p') /\ proxy_ok p'.
Proof.
  intros Hok. destruct e as [i body setup|i r|i req|i r|i r|i]; cbn [step]; destruct (tasks p !! i) as [t|] eqn:Hi; try done.
  - intros [= <-]. by apply configure_refines.
  - destruct t as [c| | |]; try done. unfold guarded, alive. case_bool_decide; [|done]. intros [= <-]. by apply token_refines.
  - intros [= <-]. by apply request_refines.
  - destruct t as [|c q k| |]; try done. unfold guarded. destruct (_ || _); [|done]. intros [= <-]. by apply answer_refines.
  - destruct t as [| |c q k|]; try done. unfold guarded. destruct (alive p c); [|done]. intros [= <-]. by apply renewal_refines.
  - destruct t as [c|c q k|c q k|]; try done; (unfold guarded; destruct (alive p c); [|done]); intros [= <-]; (split; [constructor|done]).
Qed.

Lemma run_refines es p p' : proxy_ok p -> run p es = Some (Running p') -> spec_run (abs p) es (abs p').
Proof.
  revert p. induction es as [|e es IH]; intros p Hok; simpl; [intros [= <-]; constructor|].
  destruct (step p e) as [[p1|]|] eqn:Hs; try done. intros Hr. destruct (step_refines p e p1 Hok Hs) as [Hs1 Hok1].
  eapply spec_more; [done|by apply IH].
Qed.

Lemma init_ok : proxy_ok proxy_init.
Proof. split; simpl; [done|]. intros i t c. by rewrite lookup_empty. Qed.


(** ** Safety *)

(** No request waits for a target. *)
Definition idle (p : proxy) : Prop := map_Forall (fun _ t => task_client t = None) (tasks p).

(** The events of a run in which attempts to configure come while nothing waits. *)
Fixpoint calm (p : proxy) (es : list event) : Prop :=
  match es with
  | [] => True
  | e :: es => (match e with Configure _ _ _ => idle p | _ => True end) /\
               match step p e with Some (Running p) => calm p es | _ => True end
  end.

(** What waits, waits for the client there is; one that waits for a token is alone,
    and the proxy is not configured. *)
Record attended (p : proxy) : Prop := {
  at_client : forall i t c, tasks p !! i = Some t -> task_client t = Some c -> client (state p) = Some c;
  at_token : forall i c, tasks p !! i = Some (Authenticating c) ->
    configured (state p) = false /\ forall j t, tasks p !! j = Some t -> j <> i -> task_client t = None }.

Lemma attended_idle p s i t :
  idle p -> (forall c, task_client t = Some c -> client s = Some c) -> (forall c, t = Authenticating c -> configured s = false) ->
  attended (put p s i t).
Proof.
  intros Hidle Ht Ha. split; simpl.
  - intros j x c [[<- <-]|[_ Hj]]%lookup_insert_Some; [apply Ht|]. rewrite (Hidle j x Hj). done.
  - intros j c Hj. assert (Hji : j = i).
    { destruct (decide (j = i)); [done|]. rewrite lookup_insert_ne in Hj by done. by apply Hidle in Hj. }
    subst j. rewrite lookup_insert_eq in Hj. injection Hj as Hj. split; [by apply (Ha c)|].
    intros k x Hk Hne. rewrite lookup_insert_ne in Hk by done. by apply (Hidle k).
Qed.

(** Where one waits for a token, nothing else waits; to end it leaves the proxy idle. *)
Lemma attended_last p i c s r :
  attended p -> tasks p !! i = Some (Authenticating c) -> attended (put p s i (Replied r)).
Proof.
  intros Hat Hi. destruct (at_token p Hat i c Hi) as [_ Hothers].
  assert (Hnone : forall j x, tasks (put p s i (Replied r)) !! j = Some x -> task_client x = None).
  { simpl. intros j x [[_ <-]|[Hne Hj]]%lookup_insert_Some; [done|]. by apply (Hothers j x Hj). }
  split; [intros j x c' Hj Hx; by rewrite (Hnone j x Hj) in Hx|intros j c' Hj; by specialize (Hnone j _ Hj)].
Qed.

Lemma attended_end p i r : attended p -> attended (put p (state p) i (Replied r)).
Proof.
  intros Hat. split; simpl.
  - intros j x c [[_ <-]|[_ Hj]]%lookup_insert_Some Hx; [done|]. by apply (at_client p Hat j x).
  - intros j c [[_ ?]|[_ Hj]]%lookup_insert_Some; [done|]. destruct (at_token p Hat j c Hj) as [Hcf Ho]. split; [done|].
    intros k x [[_ <-]|[_ Hk]]%lookup_insert_Some Hne; [done|]. by apply (Ho k).
Qed.

Lemma attended_sent p i c q k out :
  attended p -> configured (state p) = true -> client (state p) = Some c ->
  attended (mkSys (state p) (<[i := Forwarding c q k]> (tasks p)) out).
Proof.
  intros Hat Hcf Hc. split; simpl.
  - intros j x c' [[_ <-]|[_ Hj]]%lookup_insert_Some; simpl; [by intros [= <-]|]. by apply (at_client p Hat j x).
  - intros j c' [[_ ?]|[_ Hj]]%lookup_insert_Some; [done|]. destruct (at_token p Hat j c' Hj). congruence.
Qed.

(** What goes on with the same client. *)
Lemma attended_same p i t c s out :
  attended p -> tasks p !! i = Some t -> task_client t = Some c -> (forall c, t <> Authenticating c) ->
  client s = client (state p) -> configured s = configured (state p) -> forall t',
  task_client t' = None \/ (task_client t' = Some c /\ forall c, t' <> Authenticating c) ->
  attended (mkSys s (<[i := t']> (tasks p)) out).
Proof.
  intros Hat Hi Ht Hna Hc Hcf t' Ht'. split; simpl; rewrite ?Hc, ?Hcf.
  - intros j x c' [[_ <-]|[_ Hj]]%lookup_insert_Some Hx; [|by apply (at_client p Hat j x)].
    apply (at_client p Hat i t); [done|]. destruct Ht' as [Ht'|[Ht' _]]; congruence.
  - intros j c' [[_ ->]|[Hne Hj]]%lookup_insert_Some; [destruct Ht' as [Ht'|[_ Ht']]; [done|by destruct (Ht' c')]|].
    destruct (at_token p Hat j c' Hj) as [Hcf' Ho]. split; [done|]. exfalso.
    specialize (Ho i t Hi). rewrite Ht in Ho. by specialize (Ho Hne).
Qed.

Lemma attended_step p e p' :
  attended p -> (match e with Configure _ _ _ => idle p | _ => True end) -> step p e = Some (Running p') -> attended p'.
Proof.
  intros Hat Hcalm. destruct e as [i body setup|i r|i req|i r|i r|i]; cbn [step].
  - destruct (tasks p !! i); [done|]. intros [= <-]. unfold handleConfig.
    destruct (config_of body) as [t|]; [destruct (missing t); [|destruct setup as [w|]]|]; apply attended_idle; simpl; try done; naive_solver.
  - destruct (tasks p !! i) as [[c| | |]|] eqn:Hi; try done. unfold guarded. destruct (alive p c); [|done]. intros [= <-]. unfold gotToken.
    destruct r; by apply (attended_last p i c).
  - destruct (tasks p !! i) eqn:Hi; [done|]. intros [= <-]. unfold handleProxy.
    destruct (configured (state p)) eqn:Hcf; [|by apply attended_end]. destruct (client (state p)) as [c|] eqn:Hc; [|by apply attended_end].
    by apply attended_sent.
  - destruct (tasks p !! i) as [[|c q k| |]|] eqn:Hi; try done. unfold guarded. destruct (_ || _); [|done]. intros [= <-]. unfold answered.
    destruct r as [res|m|w]; [destruct (decide _)|..]; (eapply (attended_same p i); [done|exact Hi|done|done|done|done|]); simpl; auto.
  - destruct (tasks p !! i) as [[| |c q k|]|] eqn:Hi; try done. unfold guarded. destruct (alive p c); [|done]. intros [= <-]. unfold renewed.
    destruct r as [tok|m|w]; [destruct (k <? 3)|..]; (eapply (attended_same p i); [done|exact Hi|done|done|done|done|]); simpl; auto.
  - destruct (tasks p !! i) as [[c|c q k|c q k|]|]; try done; (unfold guarded; destruct (alive p c); [|done]); by intros [= <-].
Qed.

(** A proxy that is configured only while no request waits for a target never goes on
    in a client that it has destroyed. *)
Theorem proxy_safe es : calm proxy_init es -> run proxy_init es <> Some Undefined.
Proof.
  assert (Hgen : forall es p, attended p -> calm p es -> run p es <> Some Undefined).
  { clear es. induction es as [|e es IH]; intros p Hat; simpl; [done|]. intros [Hc Hes].
    destruct (step p e) as [[p1|]|] eqn:Hs; [apply IH; [by apply (attended_step p e)|done]| |done].
    exfalso. assert (Ha : forall i t c, tasks p !! i = Some t -> task_client t = Some c -> alive p c = true)
      by (intros i t c Hi Ht; apply bool_decide_eq_true; by apply (at_client p Hat i t c)).
    destruct e as [i body setup|i r|i req|i r|i r|i]; cbn [step] in Hs; destruct (tasks p !! i) as [[c|c q k|c q k|]|] eqn:Hi; try done;
      by rewrite (Ha i _ c Hi eq_refl) in Hs. }
  apply Hgen. split; simpl; intros i *; by rewrite lookup_empty.
Qed.

End proxy.

(** The fields of a request do not reach the target: the client has no use for
    them. *)
Theorem headers_dropped t token req fs :
  buildRequest (execute_request t token (clientReq req)) =
  buildRequest (execute_request t token (clientReq (mkIn (in_method req) (in_target req) (in_body req) fs))).
Proof. done. Qed.

(** ** Routing *)

Definition config_path : list bytes := [str "redfish"; str "v1"; str "proxy"; str "config"].

Section routes.

Context {E B S : Type} (handleConfigEndpoint handleProxyRequest : handler E B).

(** The router that [main] sets up. *)
Definition proxy_router : option (HttpRouter E B S) :=
  r ← add_post_handler router_init (str "/redfish/v1/proxy/config") handleConfigEndpoint;
  Some (set_fallback_handler r handleProxyRequest).

Lemma proxy_router_eq :
  proxy_router = Some (mkRouter (Some handleProxyRequest) [] [entry (config_path, verb_post, handleConfigEndpoint)] [] [] ∅).
Proof. reflexivity. Qed.

Lemma config_route : wf_route config_path.
Proof. apply (bool_decide_unpack (config_path <> [] /\ Forall (fun p => p <> [] /\ slash ∉ p) config_path)). vm_compute. exact I. Qed.

Lemma config_match qs : match_segs config_path qs = bool_decide (qs = config_path).
Proof.
  destruct (bool_decide_reflect (qs = config_path)) as [->|Hne]; [reflexivity|].
  apply not_true_is_false. intros H. apply Hne. revert H. clear.
  destruct qs as [|a [|b [|c [|d [|e qs]]]]]; try done. unfold match_segs, seg_matchb, is_template. simpl.
  rewrite !orb_false_r, !andb_true_r. rewrite !andb_true_iff, !bool_decide_eq_true. by intros (<- & <- & <- & <-).
Qed.

Lemma find_config qs m :
  find_if (route_matches qs m) [(config_path, verb_post, handleConfigEndpoint)] =
  if decide (m = verb_post /\ qs = config_path) then Some (0, (config_path, verb_post, handleConfigEndpoint)) else None.
Proof.
  cbn [find_if]. unfold route_matches. cbn [fst snd]. rewrite config_match.
  destruct (decide (m = verb_post /\ qs = config_path)) as [[-> ->]|Hne]; [by rewrite !bool_decide_true|].
  destruct (bool_decide_reflect (verb_post = m)) as [<-|]; [|done]. by rewrite bool_decide_false by naive_solver.
Qed.

(** A POST to the path of the configuration is a configuration, and every other
    request is for the target, also any other method on that path. *)
Theorem proxy_routes r req ep qs :
  proxy_router = Some r -> wf_path qs -> _name (parse_function (endpoint := E) (req_target req)) = join qs slash ->
  exists f, process_request r req ep =
    Some ((if decide (req_method req = verb_post /\ qs = config_path) then handleConfigEndpoint else handleProxyRequest) req f).
Proof.
  rewrite proxy_router_eq. intros [= <-] Hq Hname. unfold process_request.
  assert (Hn : _name (setEndpoint (parse_function (endpoint := E) (req_target req)) ep) = join qs slash) by done. rewrite Hn. clear Hn.
  assert (Hfb : handler_for_verb (mkRouter (Some handleProxyRequest) [] [entry (config_path, verb_post, handleConfigEndpoint)] [] [] ∅ : HttpRouter E B S) (req_method req) =
    entry <$> match req_method req with verb_put | verb_post => [(config_path, verb_post, handleConfigEndpoint)] | _ => [] end) by by destruct (req_method req).
  rewrite Hfb, flat_find_routes; [|destruct (req_method req); (apply Forall_nil_2 || apply Forall_singleton, config_route)|done].
  assert (Hfind : find_if (route_matches qs (req_method req)) match req_method req with verb_put | verb_post => [(config_path, verb_post, handleConfigEndpoint)] | _ => [] end =
    if decide (req_method req = verb_post /\ qs = config_path) then Some (0, (config_path, verb_post, handleConfigEndpoint)) else None).
  { destruct (req_method req); try apply find_config; by rewrite decide_False by naive_solver. }
  rewrite Hfind. destruct (decide _) as [[_ ->]|]; [|by eexists]. cbn [fmap option_fmap option_map prod_map mbind option_bind snd path entry fst].
  rewrite extract_params_route; [by eexists|apply config_route|apply wf_route_path, config_route|done].
Qed.

End routes.

(** ** Witnesses and limits *)

Module ProxySample.

Definition no_text (_ : bytes) : bytes := [].
Definition no_dump (_ : fields_t) : bytes := [].

(** A body is JSON when it is not empty; its text is the host, the user and the
    password. *)
Definition parse (body : bytes) : option (bytes -> member) :=
  if decide (body = []) then None
  else Some (fun k => if decide (k ∈ [str "host"; str "username"; str "password"]) then Text body else Absent).

Definition prun := run parse no_text no_dump no_text [].

Definition get (t : bytes) : request_in := mkIn verb_get t [] [].
Definition page : reply := mkReply 200 [(str "Set-Cookie", str "a"); (str "set-cookie", str "b")] (str "x").
Definition denied : reply := mkReply 401 [] [].

(** A request whose token has run out. *)
Definition ordinary : list event :=
  [Configure 0 (str "h") None; GotToken 0 (Ok (str "t")); Request 1 (get (str "/a")); Answered 1 (Ok denied);
   Renewed 1 (Ok (str "u")); Answered 1 (Ok page)].

(** The status of the response to a request. *)
Definition status_of (w : option world) (i : nat) : option Z :=
  match w with
  | Some (Running p) => match tasks p !! i with Some (Replied r) => Some (r_status r) | _ => None end
  | _ => None
  end.


Lemma proxy_safe_witness : prun proxy_init ordinary <> Some Undefined.
Proof.
  apply proxy_safe. split; [by intros ? ? ?|]. cbn. by repeat split.
Defined.

(** A second configuration while a request waits destroys the client under it: the
    request goes on in freed memory when it must renew its token or connect again, and
    ends well when it only has to pass the answer on. *)
Definition reconfigured : list event :=
  [Configure 0 (str "h") None; GotToken 0 (Ok []); Request 1 (get (str "/a")); Configure 2 (str "k") None].

Example used_after_free :
  prun proxy_init (reconfigured ++ [Answered 1 (Ok denied)]) = Some Undefined /\
  prun proxy_init (reconfigured ++ [Connects 1]) = Some Undefined /\
  status_of (prun proxy_init (reconfigured ++ [Answered 1 (Ok page)])) 1 = Some 200%Z.
Proof. repeat split; reflexivity. Qed.

(** So does a text that is not JSON. *)
Example freed_by_garbage :
  prun proxy_init [Configure 0 (str "h") None; GotToken 0 (Ok []); Request 1 (get (str "/a")); Configure 2 [] None; Answered 1 (Ok denied)]
  = Some Undefined.
Proof. reflexivity. Qed.

(** A configuration that fails leaves the proxy without the target it had. *)
Example old_target_lost :
  status_of (prun proxy_init [Configure 0 (str "h") None; GotToken 0 (Ok []); Configure 1 (str "k") None; GotToken 1 (Error []); Request 2 (get (str "/a"))]) 2
  = Some 503%Z.
Proof. reflexivity. Qed.

(** Of a field that is repeated only the last value is passed on. *)
Example cookies_lost :
  filter (fun f => lower f.1 = str "set-cookie") (r_fields (passed_on no_text page)) = [(str "set-cookie", str "b")].
Proof. reflexivity. Qed.

(** The filter of the fields looks at case. *)
Example token_copied : copied_headers [(str "x-auth-token", str "mine")] !! str "x-auth-token" = Some (str "mine").
Proof. reflexivity. Qed.

End ProxySample.
