(* ===== verification/Uart.v ===== *)
(** * Serial lines: [include/uart_server.hpp]

    The settings of a line are the words of [struct termios], changed bit by bit as
    the code does; the constants are those of Linux, and [cfmakeraw] is as its manual
    page says.  The speeds are kept in fields of their own.  The system calls and the
    file system are parameters. *)

From S2P Require Import Prelude.

(** ** [UartConfig] and [termios] *)

Definition B115200 : Z := 4098.

Record UartConfig := {
  device : bytes;
  baudRate : Z;
  rawMode : bool;
  enableParity : bool;
  evenParity : bool;
  stopBits : Z;
  dataBits : Z;
  hardwareFlowControl : bool }.

Definition default_config : UartConfig :=
  {| device := str "/dev/ttyS0"; baudRate := B115200; rawMode := true; enableParity := false; evenParity := false;
     stopBits := 1; dataBits := 8; hardwareFlowControl := false |}.

Record termios := mkTermios { c_iflag : Z; c_oflag : Z; c_cflag : Z; c_lflag : Z; ispeed : Z; ospeed : Z }.

Definition CSIZE : Z := 48.
Definition CS5 : Z := 0.
Definition CS6 : Z := 16.
Definition CS7 : Z := 32.
Definition CS8 : Z := 48.
Definition CSTOPB : Z := 64.
Definition CREAD : Z := 128.
Definition PARENB : Z := 256.
Definition PARODD : Z := 512.
Definition CLOCAL : Z := 2048.
Definition CRTSCTS : Z := 2147483648.

Definition raise (w mask : Z) : Z := Z.lor w mask.
Definition clear (w mask : Z) : Z := Z.land w (Z.lnot mask).

Definition cfmakeraw (t : termios) : termios :=
  mkTermios
    (clear (c_iflag t) 1515)    (* IGNBRK | BRKINT | PARMRK | ISTRIP | INLCR | IGNCR | ICRNL | IXON *)
    (clear (c_oflag t) 1)       (* OPOST *)
    (raise (clear (c_cflag t) (Z.lor CSIZE PARENB)) CS8)
    (clear (c_lflag t) 32843)   (* ECHO | ECHONL | ICANON | ISIG | IEXTEN *)
    (ispeed t) (ospeed t).

(** *** The control word, as [open] computes it *)

Definition data_bits (cfg : UartConfig) (w : Z) : Z :=
  let w := clear w CSIZE in
  if (dataBits cfg =? 5)%Z then raise w CS5
  else if (dataBits cfg =? 6)%Z then raise w CS6
  else if (dataBits cfg =? 7)%Z then raise w CS7
  else raise w CS8.

Definition stop_bits (cfg : UartConfig) (w : Z) : Z :=
  if (stopBits cfg =? 2)%Z then raise w CSTOPB else clear w CSTOPB.

Definition parity_bits (cfg : UartConfig) (w : Z) : Z :=
  if enableParity cfg then
    let w := raise w PARENB in
    if evenParity cfg then clear w PARODD else raise w PARODD
  else clear w PARENB.

Definition flow_bits (cfg : UartConfig) (w : Z) : Z :=
  if hardwareFlowControl cfg then raise w CRTSCTS else clear w CRTSCTS.

Definition settings (cfg : UartConfig) (t : termios) : termios :=
  let w := raise (flow_bits cfg (parity_bits cfg (stop_bits cfg (data_bits cfg (c_cflag t))))) (Z.lor CLOCAL CREAD) in
  let t := mkTermios (c_iflag t) (c_oflag t) w (c_lflag t) (baudRate cfg) (baudRate cfg) in
  if rawMode cfg then cfmakeraw t else t.

(** ** The device *)

(** What the operating system does for one process: the descriptors that are open
    and the settings of the line. *)
Record world := mkWorld { fds : gset Z; line : termios }.

(** The device: its stream holds the descriptor it was assigned, if any. *)
Record UartDevice := mkUart { fd_ : Z; stream_ : option Z }.

Definition new_uart : UartDevice := mkUart (-1) None.

(** How the calls of one [open] go: the new descriptor or an error; whether the
    settings can be read and written. *)
Record answers := { a_open : Z + Z; a_get : option Z; a_set : option Z }.

(** [open]: an error code, or zero; [None] is the exception of [assign] on a stream
    that is open. *)
Definition open (cfg : UartConfig) (a : answers) (w : world) (u : UartDevice) : world * UartDevice * option Z :=
  match a_open a with
  | inr errno => (w, mkUart (-1) (stream_ u), Some errno)
  | inl fd =>
      let w := mkWorld ({[fd]} ∪ fds w) (line w) in
      let failed errno := (mkWorld (fds w ∖ {[fd]}) (line w), mkUart (-1) (stream_ u), Some errno) in
      match a_get a with
      | Some errno => failed errno
      | None =>
          match a_set a with
          | Some errno => failed errno
          | None =>
              let w := mkWorld (fds w) (settings cfg (line w)) in
              match stream_ u with
              | Some _ => (w, mkUart fd (stream_ u), None)
              | None => (w, mkUart fd (Some fd), Some 0%Z)
              end
          end
      end
  end.

Definition close (w : world) (u : UartDevice) : world * UartDevice :=
  if (fd_ u =? -1)%Z then (w, u) else (mkWorld (fds w ∖ {[fd_ u]}) (line w), mkUart (-1) None).

Definition isOpen (u : UartDevice) : bool := negb (fd_ u =? -1)%Z && bool_decide (is_Some (stream_ u)).

(** [read] and [write] pass on what the stream says. *)
Definition uart_io (u : UartDevice) (EBADF : Z) (r : Z * nat) : Z * nat := match stream_ u with Some _ => r | None => (EBADF, 0) end.

(** ** The file system *)

Section sysfs.

Context (canonical : bytes -> option bytes) (exists_ : bytes -> bool) (filename : bytes -> bytes).

(** [std::filesystem::path::operator/] for a relative right side. *)
Definition path_div (a b : bytes) : bytes := if decide (last a = Some x2f) then a ++ b else a ++ [x2f] ++ b.

Definition relDirs : list bytes := [str "../../../../"; str "../../"].

(** The loop over the two directories. *)
Fixpoint find_node (classPath : bytes) (dirs : list bytes) : bytes :=
  match dirs with
  | [] => []
  | relDir :: dirs =>
      match canonical (path_div classPath relDir) with
      | None => find_node classPath dirs
      | Some deviceNode => if exists_ (path_div deviceNode (str "lpc_address")) then deviceNode else find_node classPath dirs
      end
  end.

Definition deviceName (cfg : UartConfig) : bytes :=
  match canonical (device cfg) with Some p => filename p | None => filename (device cfg) end.

Definition findSysfsDeviceNode (cfg : UartConfig) : bytes :=
  match canonical (str "/sys/class/tty/" ++ deviceName cfg) with
  | None => []
  | Some classPath => find_node classPath relDirs
  end.

(** [std::hex] of a number of 16 bits. *)
Definition hex_digit (z : Z) : byte := if (z <? 10)%Z then of_u8 (48 + z) else of_u8 (87 + z).

Fixpoint to_hex (fuel : nat) (z : Z) : bytes :=
  match fuel with
  | 0 => []
  | S fuel => (if (z <? 16)%Z then [] else to_hex fuel (z / 16)) ++ [hex_digit (z mod 16)]
  end.

(** What is written to which attribute, when the file opens and is written; the
    error code. *)
Definition configureSysfsAttribute (cfg : UartConfig) (open_file : bytes -> option Z) (written : bytes -> option Z) (attrName : bytes) (value : Z) : option (bytes * bytes) * Z :=
  let sysfsPath := findSysfsDeviceNode cfg in
  if decide (sysfsPath = []) then (None, 0%Z)
  else
    let attrPath := sysfsPath ++ str "/" ++ attrName in
    match open_file attrPath with
    | Some errno => (None, errno)
    | None => (Some (attrPath, str "0x" ++ to_hex 4 value), default 0%Z (written attrPath))
    end.

End sysfs.

(** [getBaudRateString]: the constants of Linux and their names. *)
Definition baud_names : list (Z * Z) :=
  [(1, 50); (2, 75); (3, 110); (4, 134); (5, 150); (6, 200); (7, 300); (8, 600); (9, 1200); (10, 1800); (11, 2400); (12, 4800);
   (13, 9600); (14, 19200); (15, 38400); (4097, 57600); (4098, 115200); (4099, 230400)]%Z.

Definition getBaudRateString (baud : Z) : bytes :=
  match find_if (fun e => bool_decide (e.1 = baud)) baud_names with
  | Some (_, (_, r)) => to_dec 10 r
  | None => str "unknown"
  end.

(** ** [UartServer] *)

(** [start]: whether the coroutine that runs the router is spawned, and the error. *)
Definition start (cfg : UartConfig) (a : answers) (w : world) (u : UartDevice) : world * UartDevice * option (bool * Z) :=
  let '(w, u, ec) := open cfg a w u in
  (w, u, (fun ec => ((ec =? 0)%Z, ec)) <$> ec).

Definition stop (w : world) (u : UartDevice) : world * UartDevice := close w u.

(** ** The line that results *)

(** What the control word says of the line: data bits, two stop bits, odd or even
    parity if any, flow control, and that the receiver is on and the modem ignored. *)
Record line_mode := mkLine { l_data : Z; l_two_stop : bool; l_parity : option bool; l_flow : bool; l_on : bool }.

Definition line_of (w : Z) : line_mode :=
  mkLine (5 + 2 * Z.b2z (Z.testbit w 5) + Z.b2z (Z.testbit w 4)) (Z.testbit w 6)
    (if Z.testbit w 8 then Some (negb (Z.testbit w 9)) else None) (Z.testbit w 31) (Z.testbit w 7 && Z.testbit w 11).

(** What a configuration asks for. *)
Definition requested (cfg : UartConfig) : line_mode :=
  mkLine (if bool_decide (dataBits cfg ∈ [5; 6; 7]%Z) then dataBits cfg else 8) (bool_decide (stopBits cfg = 2%Z))
    (if enableParity cfg then Some (evenParity cfg) else None) (hardwareFlowControl cfg) true.

(** The bits of the control word that [open] is about. *)
Definition uart_bits : list Z := [4; 5; 6; 7; 8; 9; 11; 31]%Z.

Lemma testbit_raise w m n : Z.testbit (raise w m) n = Z.testbit w n || Z.testbit m n.
Proof. apply Z.lor_spec. Qed.

Lemma testbit_clear w m n : (0 <= n)%Z -> Z.testbit (clear w m) n = Z.testbit w n && negb (Z.testbit m n).
Proof. intros Hn. unfold clear. by rewrite Z.land_spec, Z.lnot_spec. Qed.

(** The bits of a power of two. *)
Lemma testbit_mask m k n : m = (2 ^ k)%Z -> (0 <= k)%Z -> Z.testbit m n = bool_decide (n = k).
Proof. intros -> Hk. case_bool_decide as H; [subst; by apply Z.pow2_bits_true|]. by apply Z.pow2_bits_false. Qed.

Lemma bool_decide_eq_Z (n k : Z) : bool_decide (n = k) = (n =? k)%Z.
Proof. destruct (Z.eqb_spec n k); by case_bool_decide. Qed.

Ltac bits := rewrite ?testbit_raise, ?testbit_clear by lia; cbn [Z.testbit].

Lemma data_bit cfg w n : (0 <= n)%Z ->
  Z.testbit (data_bits cfg w) n =
  if (n =? 4)%Z then negb (dataBits cfg =? 5)%Z && negb (dataBits cfg =? 7)%Z
  else if (n =? 5)%Z then negb (dataBits cfg =? 5)%Z && negb (dataBits cfg =? 6)%Z
  else Z.testbit w n.
Proof.
  intros Hn. unfold data_bits.
  assert (H48 : Z.testbit 48 n = (n =? 4)%Z || (n =? 5)%Z).
  { change 48%Z with (Z.lor (2 ^ 4) (2 ^ 5)). rewrite Z.lor_spec, (testbit_mask _ 4), (testbit_mask _ 5) by (done || lia).
    by rewrite !bool_decide_eq_Z. }
  assert (H16 : Z.testbit 16 n = (n =? 4)%Z) by (rewrite (testbit_mask _ 4) by (done || lia); apply bool_decide_eq_Z).
  assert (H32 : Z.testbit 32 n = (n =? 5)%Z) by (rewrite (testbit_mask _ 5) by (done || lia); apply bool_decide_eq_Z).
  destruct (Z.eqb_spec (dataBits cfg) 5), (Z.eqb_spec (dataBits cfg) 6), (Z.eqb_spec (dataBits cfg) 7); try lia;
    bits; unfold CSIZE, CS5, CS6, CS7, CS8; rewrite ?H48, ?H16, ?H32, ?Z.bits_0;
    destruct (Z.eqb_spec n 4), (Z.eqb_spec n 5); try lia; simpl; rewrite ?andb_false_r, ?andb_true_r, ?orb_false_r; done.
Qed.

Lemma one_bit (b : bool) w m k n : m = (2 ^ k)%Z -> (0 <= k)%Z -> (0 <= n)%Z ->
  Z.testbit (if b then raise w m else clear w m) n = if (n =? k)%Z then b else Z.testbit w n.
Proof.
  intros Hm Hk Hn. destruct b; bits; rewrite (testbit_mask m k n Hm Hk), bool_decide_eq_Z; destruct (n =? k)%Z; simpl;
    by rewrite ?orb_true_r, ?orb_false_r, ?andb_false_r, ?andb_true_r.
Qed.

Lemma parity_bit cfg w n : (0 <= n)%Z ->
  Z.testbit (parity_bits cfg w) n =
  if (n =? 8)%Z then enableParity cfg else if (n =? 9)%Z && enableParity cfg then negb (evenParity cfg) else Z.testbit w n.
Proof.
  intros Hn. unfold parity_bits. destruct (enableParity cfg).
  - assert (H : (if evenParity cfg then clear (raise w PARENB) PARODD else raise (raise w PARENB) PARODD) =
      (if negb (evenParity cfg) then raise (raise w PARENB) PARODD else clear (raise w PARENB) PARODD)) by by destruct (evenParity cfg).
    cbv zeta. rewrite H, (one_bit _ _ _ 9), (one_bit true w PARENB 8) by (done || lia).
    destruct (Z.eqb_spec n 8), (Z.eqb_spec n 9); try lia; done.
  - rewrite (one_bit false w PARENB 8) by (done || lia). rewrite andb_false_r. done.
Qed.

(** The bits of the word before raw mode. *)
Definition cooked (cfg : UartConfig) (w : Z) : Z :=
  raise (flow_bits cfg (parity_bits cfg (stop_bits cfg (data_bits cfg w)))) (Z.lor CLOCAL CREAD).

Lemma cooked_bit cfg w n : (0 <= n)%Z ->
  Z.testbit (cooked cfg w) n =
  if bool_decide (n = 7 \/ n = 11)%Z then true
  else if (n =? 31)%Z then hardwareFlowControl cfg else
  if (n =? 8)%Z then enableParity cfg else if (n =? 9)%Z && enableParity cfg then negb (evenParity cfg)
  else if (n =? 6)%Z then (stopBits cfg =? 2)%Z
  else Z.testbit (data_bits cfg w) n.
Proof.
  intros Hn. unfold cooked. rewrite testbit_raise, Z.lor_spec.
  rewrite (testbit_mask CLOCAL 11), (testbit_mask CREAD 7) by (done || lia).
  unfold flow_bits. rewrite (one_bit _ _ _ 31), parity_bit by (done || lia). unfold stop_bits. rewrite (one_bit _ _ _ 6) by (done || lia).
  destruct (bool_decide_reflect (n = 11)%Z) as [->|H11]; [by rewrite orb_true_r|].
  destruct (bool_decide_reflect (n = 7)%Z) as [->|H7]; [by rewrite orb_true_r|].
  rewrite (bool_decide_false (n = 7 \/ n = 11)%Z) by tauto. by rewrite orb_false_r.
Qed.

Lemma raw_bit w n : (0 <= n)%Z ->
  Z.testbit (raise (clear w (Z.lor CSIZE PARENB)) CS8) n =
  if bool_decide (n = 4 \/ n = 5)%Z then true else if (n =? 8)%Z then false else Z.testbit w n.
Proof.
  intros Hn. bits. rewrite Z.lor_spec, (testbit_mask PARENB 8) by (done || lia).
  assert (H48 : Z.testbit 48 n = bool_decide (n = 4 \/ n = 5)%Z).
  { change 48%Z with (Z.lor (2 ^ 4) (2 ^ 5)). rewrite Z.lor_spec, (testbit_mask _ 4), (testbit_mask _ 5) by (done || lia).
    repeat case_bool_decide; simpl; tauto || lia. }
  unfold CSIZE, CS8. rewrite H48, bool_decide_eq_Z. destruct (bool_decide _); simpl; [by rewrite orb_true_r|].
  rewrite orb_false_r. destruct (n =? 8)%Z; simpl; by rewrite ?andb_false_r, ?andb_true_r.
Qed.

(** The line is set up as the configuration asks, but for raw mode, which comes last
    and leaves eight data bits and no parity whatever was asked for. *)
Theorem uart_line cfg t :
  line_of (c_cflag (settings cfg t)) =
  let r := requested cfg in
  if rawMode cfg then mkLine 8 (l_two_stop r) None (l_flow r) true else r.
Proof.
  unfold settings. fold (cooked cfg (c_cflag t)). unfold line_of, requested. cbv zeta. cbn [l_two_stop l_flow].
  assert (Hs : (stopBits cfg =? 2)%Z = bool_decide (stopBits cfg = 2%Z)) by (symmetry; apply bool_decide_eq_Z).
  destruct (rawMode cfg); cbn [c_cflag cfmakeraw].
  - rewrite !raw_bit, !cooked_bit by lia. simpl. by rewrite Hs.
  - rewrite !cooked_bit, !data_bit by lia. simpl. rewrite Hs. f_equal.
    + destruct (Z.eqb_spec (dataBits cfg) 5) as [->|]; [done|]. destruct (Z.eqb_spec (dataBits cfg) 6) as [->|]; [done|].
      destruct (Z.eqb_spec (dataBits cfg) 7) as [->|]; [done|]. rewrite bool_decide_false; [done|]. set_solver.
    + destruct (enableParity cfg); [|done]. simpl. by rewrite negb_involutive.
Qed.

(** So the line is the one asked for exactly where raw mode is off, or eight data
    bits and no parity are asked for. *)
Theorem uart_line_iff cfg t :
  line_of (c_cflag (settings cfg t)) = requested cfg <->
  rawMode cfg = false \/ enableParity cfg = false /\ dataBits cfg ∉ [5; 6; 7]%Z.
Proof.
  rewrite uart_line. cbv zeta. destruct (rawMode cfg); [|by split; auto]. unfold requested. cbn [l_two_stop l_flow]. split.
  - intros [= Hd Hp]. right. destruct (enableParity cfg); [done|]. split; [done|]. case_bool_decide as Hin; [|done].
    rewrite <- Hd in Hin. set_solver.
  - intros [|[-> Hd]]; [done|]. by rewrite (bool_decide_false (dataBits cfg ∈ _)) by done.
Qed.

(** No other bit of the control word changes. *)
Theorem uart_other_bits cfg t n :
  (0 <= n)%Z -> n ∉ uart_bits -> Z.testbit (c_cflag (settings cfg t)) n = Z.testbit (c_cflag t) n.
Proof.
  intros Hn Hnot. unfold uart_bits in Hnot. rewrite !not_elem_of_cons in Hnot. destruct Hnot as (H4 & H5 & H6 & H7 & H8 & H9 & H11 & H31 & _).
  assert (Hc : Z.testbit (cooked cfg (c_cflag t)) n = Z.testbit (c_cflag t) n).
  { rewrite cooked_bit, data_bit by done. rewrite bool_decide_false by tauto.
    by rewrite !(proj2 (Z.eqb_neq _ _)) by done. }
  unfold settings. fold (cooked cfg (c_cflag t)). destruct (rawMode cfg); cbn [c_cflag cfmakeraw]; [|done].
  rewrite raw_bit, bool_decide_false, (proj2 (Z.eqb_neq _ _)) by (tauto || done). done.
Qed.

(** ** The descriptor *)

(** A device is closed, or holds a descriptor that is open in its stream. *)
Definition uart_ok (w : world) (u : UartDevice) : Prop :=
  (fd_ u = -1 /\ stream_ u = None)%Z \/ (stream_ u = Some (fd_ u) /\ fd_ u <> -1 /\ fd_ u ∈ fds w)%Z.

(** Opening a closed device either fails and leaves every descriptor as it was, or
    opens it with the settings of its configuration, and closing it then gives the
    descriptor back. *)
Theorem open_close cfg a w u :
  fd_ u = (-1)%Z -> stream_ u = None -> (forall fd, a_open a = inl fd -> (0 <= fd)%Z /\ fd ∉ fds w) ->
  (forall e, a_open a = inr e \/ a_get a = Some e \/ a_set a = Some e -> e <> 0%Z) ->
  let '(w', u', ec) := open cfg a w u in
  uart_ok w' u' /\ exists e, ec = Some e /\ isOpen u' = (e =? 0)%Z /\ fds (close w' u').1 = fds w /\
    line w' = if (e =? 0)%Z then settings cfg (line w) else line w.
Proof.
  intros Hfd Hst Hnew Herr. unfold open. destruct (a_open a) as [fd|e] eqn:Ho.
  - destruct (Hnew fd eq_refl) as [Hpos Hfresh]. assert (Hback : ({[fd]} ∪ fds w) ∖ {[fd]} = fds w) by set_solver.
    destruct (a_get a) as [e|] eqn:Hg; [|destruct (a_set a) as [e|] eqn:Hs].
    1, 2: rewrite Hst; split; [by left|]; exists e; (split; [done|]); rewrite (proj2 (Z.eqb_neq e 0)) by (apply Herr; auto); done.
    rewrite Hst. split; [right; simpl; split; [done|]; split; [lia|set_solver]|]. exists 0%Z. split; [done|].
    unfold isOpen, close. simpl. by rewrite (proj2 (Z.eqb_neq fd (-1))) by lia.
  - rewrite Hst. split; [by left|]. exists e. split; [done|]. rewrite (proj2 (Z.eqb_neq e 0)) by (apply Herr; auto). done.
Qed.

(** ** Attributes *)

(** The directory found is the first of the two that exists and has the attribute of
    a virtual UART. *)
Theorem find_node_first canonical exists_ classPath dirs :
  find_node canonical exists_ classPath dirs =
  default [] (head (filter (fun d => exists_ (path_div d (str "lpc_address")) = true) (omap (fun r => canonical (path_div classPath r)) dirs))).
Proof.
  induction dirs as [|r dirs IH]; [done|]. cbn [find_node omap list_omap]. destruct (canonical _) as [d|]; [|exact IH].
  rewrite filter_cons. destruct (exists_ _) eqn:He; [by rewrite decide_True by done|]. rewrite decide_False by congruence. exact IH.
Qed.

(** Reading a number in base sixteen. *)
Definition hex_value (b : byte) : Z := if (u8 b <? 58)%Z then (u8 b - 48)%Z else (u8 b - 87)%Z.

Definition of_hex (s : bytes) : Z := foldl (fun z b => 16 * z + hex_value b)%Z 0%Z s.

Lemma hex_digit_value z : (0 <= z < 16)%Z -> hex_value (hex_digit z) = z.
Proof.
  intros H. unfold hex_digit, hex_value. destruct (Z.ltb_spec z 10); rewrite u8_of_u8, Z.mod_small by lia;
    [rewrite (proj2 (Z.ltb_lt _ _)) by lia|rewrite (proj2 (Z.ltb_ge _ _)) by lia]; lia.
Qed.

Lemma of_to_hex fuel z : (0 <= z < 16 ^ Z.of_nat fuel)%Z -> of_hex (to_hex fuel z) = z.
Proof.
  revert z. induction fuel as [|fuel IH]; intros z Hz; [unfold of_hex; simpl in *; lia|].
  pose proof (Z.mod_pos_bound z 16). cbn [to_hex]. unfold of_hex. rewrite foldl_app. cbn [foldl].
  rewrite hex_digit_value by lia. fold (of_hex (if (z <? 16)%Z then [] else to_hex fuel (z / 16))).
  destruct (Z.ltb_spec z 16).
  - cbn [of_hex foldl]. rewrite Z.mod_small by lia. unfold of_hex. simpl. lia.
  - rewrite IH; [pose proof (Z.div_mod z 16 ltac:(done)); lia|]. split; [apply Z.div_pos; lia|]. apply Z.div_lt_upper_bound; [lia|].
    rewrite Nat2Z.inj_succ, Z.pow_succ_r in Hz by lia. lia.
Qed.

(** An attribute is given the number, of sixteen bits, in base sixteen, in the
    directory of the device; where there is none nothing is written and that is no
    error. *)
Theorem attribute_written canonical exists_ filename cfg open_file written attrName value :
  is_uint 16 value ->
  let node := findSysfsDeviceNode canonical exists_ filename cfg in
  match configureSysfsAttribute canonical exists_ filename cfg open_file written attrName value with
  | (None, ec) => if decide (node = []) then ec = 0%Z else open_file (node ++ str "/" ++ attrName) = Some ec
  | (Some (p, text), ec) => node <> [] /\ p = node ++ str "/" ++ attrName /\
                            exists digits, text = str "0x" ++ digits /\ of_hex digits = value /\ ec = default 0%Z (written p)
  end.
Proof.
  intros Hv node. unfold configureSysfsAttribute. fold node. destruct (decide (node = [])) as [Hn|Hn]; [done|].
  destruct (open_file _) as [e|] eqn:Ho; [done|]. split; [done|]. split; [done|]. eexists. split; [done|]. split; [|done].
  apply of_to_hex. exact Hv.
Qed.

(** ** Witnesses and limits *)

Module UartSample.

Definition blank : termios := mkTermios 0 0 0 0 0 0.
Definition idle_world : world := mkWorld {[0; 1; 2]}%Z blank.
Definition fine (fd : Z) : answers := {| a_open := inl fd; a_get := None; a_set := None |}.

Definition seven_even : UartConfig :=
  {| device := str "/dev/ttyS1"; baudRate := 13; rawMode := true; enableParity := true; evenParity := true;
     stopBits := 1; dataBits := 7; hardwareFlowControl := false |}.

Lemma uart_other_bits_witness : Z.testbit (c_cflag (settings seven_even (mkTermios 0 0 1024 0 0 0))) 10 = true.
Proof. rewrite uart_other_bits; [reflexivity|lia|apply (bool_decide_unpack _); vm_compute; exact I]. Defined.

Lemma open_close_witness :
  exists w' u', open default_config (fine 3) idle_world new_uart = (w', u', Some 0%Z) /\ isOpen u' = true /\ fds (close w' u').1 = fds idle_world.
Proof.
  pose proof (open_close default_config (fine 3) idle_world new_uart) as H. eexists _, _. split; [reflexivity|].
  destruct H as (_ & e & [= <-] & Ho & Hc & _); [done|done| |by intros e [|[|]]|done].
  intros fd [= <-]. split; [lia|]. apply (bool_decide_unpack _). vm_compute. exact I.
Defined.

Definition found : bytes := findSysfsDeviceNode Some (fun _ => true) (fun p => p) default_config.

Lemma attribute_written_witness :
  exists digits, of_hex digits = 0x3f8%Z /\
    configureSysfsAttribute Some (fun _ => true) (fun p => p) default_config (fun _ => None) (fun _ => None) (str "lpc_address") 0x3f8%Z =
    (Some (found ++ str "/lpc_address", str "0x" ++ digits), 0%Z).
Proof.
  destruct (attribute_written Some (fun _ => true) (fun p => p) default_config (fun _ => None) (fun _ => None) (str "lpc_address") 0x3f8)
    as (_ & _ & digits & Ht & Hd & _); [unfold is_uint; lia|]. exists (str "3f8"). split; [|reflexivity].
  apply app_inv_head in Ht. rewrite <- Ht in Hd. exact Hd.
Defined.

(** Seven bits with even parity, in the mode that is the default, is eight bits with
    none. *)
Example raw_overrides :
  requested seven_even = mkLine 7 false (Some true) false true /\
  line_of (c_cflag (settings seven_even blank)) = mkLine 8 false None false true.
Proof. split; reflexivity. Qed.

(** A device that is opened again keeps reading from its first descriptor, and
    closing it closes the second and forgets the first. *)
Example reopened :
  let '(w1, u1, _) := open default_config (fine 3) idle_world new_uart in
  let '(w2, u2, ec) := open default_config (fine 4) w1 u1 in
  ec = None /\ stream_ u2 = Some 3%Z /\ 3%Z ∈ fds (close w2 u2).1.
Proof. split; [reflexivity|]. split; [reflexivity|]. apply (bool_decide_unpack _). vm_compute. exact I. Qed.

End UartSample.
