(* ===== verification/JournalServer.v ===== *)
(** * The journal server: [examples/journalserver/journal_server.cpp]

    Lines of the journal are put into the queue of every subscriber, and each
    subscriber's handler takes them out and writes them as events.  Everything runs on
    one thread: a step of [step] is what happens between two suspensions.  The last
    part puts the client of [WebClient.v] at the other end of a subscriber's
    connection. *)

From S2P Require Import Prelude Http Stream WebClient.

Definition maxQueuedLines : nat := 1000.

(** ** Subscribers *)

(** Where the handler of a subscriber is: about to look at its queue, waiting for the
    signal, or writing a line. *)
Inductive place := Looking | Suspended | Writing (line : bytes).

(** [written] is what has been written; [published] and [lost] are the history: the
    lines pushed since it subscribed, and how many of them were dropped. *)
Record Subscriber := mkSub { lines : list bytes; at_ : place; written : list bytes; published : list bytes; lost : nat }.

Definition new_subscriber : Subscriber := mkSub [] Looking [] [] 0.

(** [push]: the oldest line is dropped from a full queue; cancelling the timer wakes
    the handler, if it waits. *)
Definition push (s : Subscriber) (line : bytes) : Subscriber :=
  let full := maxQueuedLines <=? length (lines s) in
  mkSub ((if full then drop 1 (lines s) else lines s) ++ [line])
        (match at_ s with Suspended => Looking | p => p end) (written s) (published s ++ [line])
        (if full then S (lost s) else lost s).

(** [next], from where it looks at the queue. *)
Definition next (s : Subscriber) : Subscriber :=
  match lines s with
  | [] => mkSub [] Suspended (written s) (published s) (lost s)
  | line :: rest => mkSub rest (Writing line) (written s) (published s) (lost s)
  end.

(** ** The server *)

Inductive monitor := NotStarted | Monitoring | Over.

Record server := mkServer { subscribers : gmap nat Subscriber; journalRunning : bool; journal : monitor }.

Definition init : server := mkServer ∅ false NotStarted.

Definition notifySubscribers (m : gmap nat Subscriber) (line : bytes) : gmap nat Subscriber := (fun s => push s line) <$> m.

Definition startJournalMonitor (s : server) : server :=
  if journalRunning s then s else mkServer (subscribers s) true Monitoring.

Inductive event :=
  | Subscribed (i : nat)
  | Looks (i : nat)
  | Wrote (i : nat) (ok : bool)
  | GotLine (line : bytes)
  | JournalEnded.

Definition step (s : server) (e : event) : option server :=
  match e with
  | Subscribed i =>
      match subscribers s !! i with
      | None => Some (startJournalMonitor (mkServer (<[i := new_subscriber]> (subscribers s)) (journalRunning s) (journal s)))
      | Some _ => None
      end
  | Looks i =>
      match subscribers s !! i with
      | Some (mkSub l Looking w p n) => Some (mkServer (<[i := next (mkSub l Looking w p n)]> (subscribers s)) (journalRunning s) (journal s))
      | _ => None
      end
  | Wrote i ok =>
      match subscribers s !! i with
      | Some (mkSub l (Writing line) w p n) =>
          (* the guard removes a subscriber whose connection fails *)
          Some (mkServer (if ok : bool then <[i := mkSub l Looking (w ++ [line]) p n]> (subscribers s) else delete i (subscribers s))
                  (journalRunning s) (journal s))
      | _ => None
      end
  | GotLine line =>
      match journal s with
      | Monitoring => Some (mkServer (if decide (line = []) then subscribers s else notifySubscribers (subscribers s) line)
                              (journalRunning s) (journal s))
      | _ => None
      end
  | JournalEnded => match journal s with Monitoring => Some (mkServer (subscribers s) (journalRunning s) Over) | _ => None end
  end.

Fixpoint run (s : server) (es : list event) : option server :=
  match es with
  | [] => Some s
  | e :: es => match step s e with Some s => run s es | None => None end
  end.

(** [monitorJournal] on the chunks that the process writes: the lines it reads,
    without their ends.  [running n] is what [c.running()] says before round [n]. *)
Fixpoint monitorJournal (aru : bytes -> list bytes -> option (bytes * nat * list bytes)) (running : nat -> bool) (round fuel : nat)
  (buf : bytes) (cs : list bytes) : list bytes :=
  match fuel with
  | 0 => []
  | S fuel =>
      if running round then
        match aru [x0a] (buf :: cs) with
        | None => []
        | Some (data, size, rest) => take (size - 1) data :: monitorJournal aru running (S round) fuel (drop size data) rest
        end
      else []
  end.

(** ** What a subscriber gets *)

Definition in_hand (s : Subscriber) : list bytes := match at_ s with Writing line => [line] | _ => [] end.

Definition all_lines (s : Subscriber) : list bytes := written s ++ in_hand s ++ lines s.

Record sub_ok (s : Subscriber) : Prop := {
  ok_bounded : length (lines s) <= maxQueuedLines;
  ok_awake : at_ s = Suspended -> lines s = [];
  ok_recent : lines s `suffix_of` published s;
  ok_order : sublist (all_lines s) (published s);
  ok_count : length (all_lines s) + lost s = length (published s) }.

Lemma new_ok : sub_ok new_subscriber.
Proof. split; simpl; [lia|done|done|constructor|done]. Qed.

Lemma suffix_drop {A} (l : list A) n : drop n l `suffix_of` l.
Proof. exists (take n l). by rewrite take_drop. Qed.

Lemma suffix_snoc_both {A} (l k : list A) x : l `suffix_of` k -> l ++ [x] `suffix_of` k ++ [x].
Proof. intros [p ->]. exists p. by rewrite app_assoc. Qed.

Lemma hand_awake s :
  match match at_ s with Suspended => Looking | q => q end with Writing line => [line] | _ => [] end = in_hand s.
Proof. unfold in_hand. by destruct (at_ s). Qed.

Lemma push_ok s line : sub_ok s -> sub_ok (push s line).
Proof.
  intros [Hb Ha Hr Ho Hc]. unfold push, all_lines in *.
  destruct (Nat.leb_spec maxQueuedLines (length (lines s))) as [Hf|Hf]; split; unfold all_lines, in_hand; cbn [lines at_ written published lost];
    rewrite ?hand_awake.
  - rewrite length_app, length_drop. simpl. unfold maxQueuedLines in *. lia.
  - by destruct (at_ s).
  - apply suffix_snoc_both. trans (lines s); [apply suffix_drop|done].
  - rewrite !app_assoc. apply sublist_app; [|done]. etrans; [|exact Ho]. rewrite <- !app_assoc.
    do 2 (apply sublist_app; [done|]). apply sublist_drop.
  - rewrite !length_app, length_drop in *. simpl. unfold maxQueuedLines in *. lia.
  - rewrite length_app. simpl. lia.
  - by destruct (at_ s).
  - by apply suffix_snoc_both.
  - rewrite !app_assoc. apply sublist_app; [|done]. by rewrite <- !app_assoc.
  - rewrite !length_app in *. simpl. lia.
Qed.

Lemma next_ok s : sub_ok s -> at_ s = Looking -> sub_ok (next s).
Proof.
  intros [Hb Ha Hr Ho Hc] Hl. unfold next. unfold all_lines, in_hand in *. rewrite Hl in Ho, Hc.
  destruct (lines s) as [|line rest] eqn:El; split; unfold all_lines, in_hand; cbn [lines at_ written published lost length app] in *; try done; try lia.
  destruct Hr as [k ->]. exists (k ++ [line]). by rewrite <- app_assoc.
Qed.

Lemma wrote_ok l line w p n : sub_ok (mkSub l (Writing line) w p n) -> sub_ok (mkSub l Looking (w ++ [line]) p n).
Proof.
  intros [Hb Ha Hr Ho Hc]. unfold all_lines, in_hand in *. simpl in *.
  split; unfold all_lines, in_hand; simpl; [done|done|done| |]; by rewrite <- app_assoc.
Qed.

(** The lines that a subscriber is due, from the events. *)
Definition due_step (i : nat) (acc : option (list bytes)) (e : event) : option (list bytes) :=
  match e with
  | Subscribed j => if decide (j = i) then Some [] else acc
  | Wrote j false => if decide (j = i) then None else acc
  | GotLine line => if decide (line = []) then acc else (fun l => l ++ [line]) <$> acc
  | _ => acc
  end.

Definition due (i : nat) (es : list event) : option (list bytes) := foldl (due_step i) None es.

Definition served (s : server) (acc : nat -> option (list bytes)) : Prop :=
  forall i, published <$> subscribers s !! i = acc i /\ forall sub, subscribers s !! i = Some sub -> sub_ok sub.

Lemma served_insert s i sub acc b j :
  served s acc -> sub_ok sub -> Some (published sub) = acc i -> served (mkServer (<[i := sub]> (subscribers s)) b j) acc.
Proof.
  intros Hs Hok Hp k. simpl. destruct (decide (k = i)) as [->|Hne].
  - rewrite lookup_insert_eq. split; [done|]. by intros ? [= <-].
  - rewrite lookup_insert_ne by done. apply Hs.
Qed.

Lemma step_served s e s' acc :
  served s acc -> step s e = Some s' -> served s' (fun i => due_step i (acc i) e).
Proof.
  intros Hs. destruct e as [i|i|i ok|line|]; simpl.
  - destruct (subscribers s !! i) eqn:Hi; [done|]. intros [= <-].
    assert (Hnew : served (mkServer (<[i := new_subscriber]> (subscribers s)) (journalRunning s) (journal s))
      (fun k => if decide (i = k) then Some [] else acc k)).
    { intros k. simpl. destruct (decide (i = k)) as [->|Hne].
      - rewrite lookup_insert_eq. split; [done|]. intros ? [= <-]. apply new_ok.
      - rewrite lookup_insert_ne by done. apply Hs. }
    unfold startJournalMonitor. cbn [journalRunning]. by destruct (journalRunning s).
  - destruct (subscribers s !! i) as [[l [| |line] w p n]|] eqn:Hi; try done. intros [= <-].
    destruct (Hs i) as [Hp Hok]. rewrite Hi in Hp. apply served_insert; [done|by apply next_ok; [apply Hok|]|].
    rewrite <- Hp. unfold next. simpl. by destruct l.
  - destruct (subscribers s !! i) as [[l [| |line] w p n]|] eqn:Hi; try done. intros [= <-].
    destruct (Hs i) as [Hp Hok]. rewrite Hi in Hp. destruct ok.
    + apply served_insert; [done|by apply wrote_ok, Hok|by rewrite <- Hp].
    + intros k. simpl. destruct (decide (i = k)) as [->|Hne]; [by rewrite lookup_delete_eq|]. rewrite lookup_delete_ne by done. apply Hs.
  - destruct (journal s); try done. intros [= <-]. destruct (decide (line = [])); [done|]. intros k. simpl.
    unfold notifySubscribers. rewrite lookup_fmap. destruct (Hs k) as [Hp Hok]. rewrite <- Hp.
    destruct (subscribers s !! k) as [sub|]; simpl; [|done]. split; [done|]. intros ? [= <-]. by apply push_ok, Hok.
  - destruct (journal s); try done. by intros [= <-].
Qed.

Lemma run_served es s s' acc :
  served s acc -> run s es = Some s' -> served s' (fun i => foldl (due_step i) (acc i) es).
Proof.
  revert s acc. induction es as [|e es IH]; intros s acc Hs; simpl; [by intros [= <-]|].
  destruct (step s e) as [s1|] eqn:He; [|done]. apply IH. by apply (step_served s e).
Qed.

Lemma sublist_eq {A} (l k : list A) : sublist l k -> length l = length k -> l = k.
Proof.
  induction 1 as [|x l k H IH|x l k H IH]; simpl; [done|intros [= Hl]; f_equal; by apply IH|].
  intros Hl. apply sublist_length in H. lia.
Qed.

Lemma served_ok es s i sub :
  run init es = Some s -> subscribers s !! i = Some sub -> due i es = Some (published sub) /\ sub_ok sub.
Proof.
  intros Hrun Hi. assert (Hs : served s (fun i => due i es)).
  { apply (run_served es init s (fun _ => None)); [|done]. intros k. simpl. by rewrite lookup_empty. }
  destruct (Hs i) as [Hp Hok]. rewrite Hi in Hp. split; [done|by apply Hok].
Qed.

Lemma lossless sub : sub_ok sub -> lost sub = 0 -> all_lines sub = published sub.
Proof. intros [Hb Ha Hr Ho Hc] H0. apply sublist_eq; [done|lia]. Qed.

Lemma at_rest sub : sub_ok sub -> at_ sub = Suspended -> lost sub = 0 -> written sub = published sub.
Proof.
  intros Hok Hat H0. rewrite <- (lossless sub) by done. unfold all_lines, in_hand. rewrite Hat, (ok_awake sub Hok Hat). by rewrite !app_nil_r.
Qed.

(** What a subscriber has written to its connection, is writing and has queued
    is, in order, what was read from the journal since it subscribed, less the lines
    that were dropped from a full queue; the queue holds the newest lines and at most
    a thousand; and a handler that waits for the signal has nothing to write, so that
    then, if nothing was dropped, everything has been written. *)
Theorem journal_delivered es s i sub :
  run init es = Some s -> subscribers s !! i = Some sub ->
  due i es = Some (published sub) /\ sublist (all_lines sub) (published sub) /\
  length (all_lines sub) + lost sub = length (published sub) /\
  lines sub `suffix_of` published sub /\ length (lines sub) <= maxQueuedLines /\
  (lost sub = 0 -> all_lines sub = published sub) /\
  (at_ sub = Suspended -> lost sub = 0 -> written sub = published sub).
Proof.
  intros Hrun Hi. destruct (served_ok es s i sub Hrun Hi) as [Hdue Hok]. pose proof Hok as [Hb Ha Hr Ho Hc].
  repeat (split; [done|]). split; [by apply lossless|by apply at_rest].
Qed.

(** ** From the journal to a client *)

(** Lines as the process writes them. *)
Definition text_of (ls : list bytes) : bytes := concat ((fun l => l ++ [x0a]) <$> ls).

Section client.

Context {aru} `{ReadUntil aru}.

Lemma find_newline l tl : x0a ∉ l -> find_sub [x0a] (l ++ x0a :: tl) = Some (length l).
Proof.
  induction l as [|b l IH]; intros Hl; [done|]. apply not_elem_of_cons in Hl as [Hb Hl]. cbn [app find_sub length].
  rewrite bool_decide_false by (intros [k [= Hk _]]; congruence). by rewrite (IH Hl).
Qed.

(** The rounds, of [m] from number [k] on, before one that finds that the process has
    ended. *)
Fixpoint rounds (running : nat -> bool) (k m : nat) : nat :=
  match m with 0 => 0 | S m => if running k then S (rounds running (S k) m) else 0 end.

Lemma rounds_spec running k m :
  rounds running k m <= m /\ (forall j, j < rounds running k m -> running (k + j) = true) /\
  (rounds running k m = m \/ running (k + rounds running k m) = false).
Proof.
  revert k. induction m as [|m IH]; intros k; simpl; [split; [lia|split; [lia|by left]]|].
  destruct (running k) eqn:Hk; [|rewrite Nat.add_0_r; split; [lia|split; [lia|by right]]].
  destruct (IH (S k)) as (Hle & Hbelow & Hend). split; [lia|]. split.
  - intros [|j] Hj; [by rewrite Nat.add_0_r|]. rewrite <- Nat.add_succ_comm. apply Hbelow. lia.
  - rewrite <- Nat.add_succ_comm. destruct Hend as [Hend|Hend]; [left; lia|by right].
Qed.

(** However the output of the process is cut into chunks, the lines read are its
    lines, up to the round that finds that it has ended. *)
Lemma monitor_lines running k ls rest buf cs :
  Forall (fun l => x0a ∉ l) ls -> x0a ∉ rest -> buf ++ concat cs = text_of ls ++ rest ->
  monitorJournal aru running k (S (length ls)) buf cs = take (rounds running k (length ls)) ls.
Proof.
  intros Hls Hrest. revert k buf cs. induction Hls as [|l ls Hl Hls IH]; intros k buf cs Hcs.
  - cbn. replace (aru [x0a] (buf :: cs)) with (None (A := bytes * nat * list bytes)); [by destruct (running k)|]. symmetry. apply read_until_eof. cbn.
    rewrite Hcs. simpl. apply find_sub_None. intros j Hj. apply Hrest. destruct Hj as [t Hk].
    rewrite <- (take_drop j rest), Hk. apply elem_of_app. right. by left.
  - cbn [length monitorJournal rounds]. destruct (running k); [|done]. unfold text_of in Hcs. rewrite fmap_cons in Hcs. cbn [concat] in Hcs. rewrite <- !app_assoc in Hcs.
    fold (text_of ls) in Hcs. destruct (aru [x0a] (buf :: cs)) as [[[data n] rest']|] eqn:E.
    + apply read_until_found in E as (i & pre & Hpre & -> & Hi & -> & _).
      assert (Htot : concat pre ++ concat rest' = l ++ x0a :: text_of ls ++ rest) by (rewrite <- concat_app, <- Hpre; exact Hcs).
      pose proof (find_sub_app _ _ (concat rest') _ Hi) as H1. rewrite Htot, find_newline in H1 by done. injection H1 as <-.
      cbn [length take]. rewrite Nat.add_sub.
      assert (Hlen : length l + 1 <= length (concat pre)) by (destruct (find_sub_fits _ _ _ Hi) as [Hf|]; [exact Hf|done]).
      f_equal.
      * rewrite <- (take_app_le _ (concat rest')) by lia. by rewrite Htot, take_app_length.
      * apply IH. rewrite <- drop_app_le by lia. rewrite Htot. by rewrite cons_middle, app_assoc, drop_app_length' by (rewrite length_app; simpl; lia).
    + apply read_until_eof in E. cbn in E. rewrite Hcs in E. simpl in E. by rewrite find_newline in E.
Qed.

(** The lines that the server has read. *)
Definition got (es : list event) : list bytes := omap (fun e => match e with GotLine l => Some l | _ => None end) es.

Lemma due_lines i es acc :
  (forall e, e ∈ es -> e <> Subscribed i /\ e <> Wrote i false) ->
  foldl (due_step i) (Some acc) es = Some (acc ++ filter (fun l => l <> []) (got es)).
Proof.
  intros Hes. unfold got. revert acc. induction es as [|e es IH]; intros acc; simpl; [by rewrite app_nil_r|].
  assert (Hes' : forall e, e ∈ es -> e <> Subscribed i /\ e <> Wrote i false) by (intros; apply Hes; by right).
  destruct (Hes e) as [Hne1 Hne2]; [by left|]. specialize (IH Hes').
  destruct e as [j|j|j ok|line|]; simpl; try apply IH.
  - rewrite decide_False by congruence. apply IH.
  - destruct ok; [apply IH|]. rewrite decide_False by congruence. apply IH.
  - destruct (decide (line = [])) as [->|Hne]; simpl; rewrite IH.
    + by rewrite filter_cons_False by auto.
    + rewrite filter_cons_True by done. by rewrite <- app_assoc.
Qed.

Lemma prefix_of_take {A} (l k : list A) n : l `prefix_of` take n k -> l = take (length l) k /\ length l <= n.
Proof.
  intros [t Ht]. assert (Hl : length l <= length (take n k)) by (rewrite Ht, length_app; lia).
  rewrite length_take in Hl. split; [|lia]. rewrite <- (take_app_length l t), <- Ht at 1. rewrite take_take. f_equal. lia.
Qed.


End client.

(** ** Witnesses and limits *)

Module JournalSample.

Definition ordinary : list event :=
  [Looks 0; GotLine (str "a"); GotLine []; Looks 0; GotLine (str "b"); Wrote 0 true; Looks 0; Wrote 0 true; Looks 0].

Definition the_end : server := default init (run init (Subscribed 0 :: ordinary)).

Definition the_sub : Subscriber := mkSub [] Suspended [str "a"; str "b"] [str "a"; str "b"] 0.

Lemma journal_delivered_witness :
  run init (Subscribed 0 :: ordinary) = Some the_end /\ all_lines the_sub = published the_sub.
Proof.
  split; [reflexivity|].
  eapply (journal_delivered (Subscribed 0 :: ordinary) the_end 0 the_sub); reflexivity.
Defined.

(** A second client, which comes after the first line; the process ends before the
    last line is read. *)
Definition second : list event := [Looks 1; GotLine []; GotLine (str "b"); Looks 1; Wrote 1 true; Looks 1; JournalEnded].

Definition second_end : server := default init (run init ([Subscribed 0; GotLine (str "a")] ++ Subscribed 1 :: second)).

Definition second_sub : Subscriber := mkSub [] Suspended [str "b"] [str "b"] 0.


(** What the process has written when it ends is left unread: here the last line. *)
Example unread_at_end :
  monitorJournal read_until_ref (fun n => n <? 1) 0 3 [] [text_of [str "a"; str "b"]] = [str "a"].
Proof. reflexivity. Qed.

(** When the process ends, no subscriber that comes later starts another one, and
    there is no step by which a line could still come. *)
Example never_restarted :
  exists s, run init [Subscribed 0; JournalEnded; Subscribed 1] = Some s /\ journal s = Over /\
    forall line, step s (GotLine line) = None.
Proof. eexists. split; [reflexivity|]. split; [reflexivity|]. done. Qed.

(** A subscriber whose connection is gone keeps its place until there is a line to
    write. *)
Example gone_unnoticed :
  exists s sub, run init [Subscribed 0; Looks 0] = Some s /\ subscribers s !! 0 = Some sub /\ step s (Looks 0) = None /\ step s (Wrote 0 false) = None.
Proof. eexists _, _. split; [reflexivity|]. split; [reflexivity|]. done. Qed.

End JournalSample.
