(* ===== verification/ConsoleClient.v ===== *)
(** * The console client: [examples/obmc_console/console_client.cpp] and the Unix
      socket it uses, [include/unix_client.hpp]

    The bytes typed pass an automaton that keeps them until the end of a line and
    watches for the sequence that ends the session.  The two loops of the client share
    one timer, through the socket, and end each other.  What the socket and the
    terminal do is part of the events. *)

From S2P Require Import Prelude Uart.

(** ** [InputProcessor] *)

Definition cr : byte := x0d.
Definition nl : byte := x0a.
Definition tilde : byte := x7e.
Definition dot : byte := x2e.

Inductive Result := Continue | SendBuffer | Escape.

Inductive State := Normal | AfterNewline | AfterTilde.

Record InputProcessor := mkIP { state_ : State; buffer_ : bytes }.

Definition new_processor : InputProcessor := mkIP Normal [].

Definition process (p : InputProcessor) (c : byte) : InputProcessor * Result :=
  match state_ p with
  | Normal =>
      if decide (c = cr \/ c = nl) then (mkIP AfterNewline (buffer_ p ++ [c]), SendBuffer)
      else (mkIP Normal (buffer_ p ++ [c]), Continue)
  | AfterNewline =>
      if decide (c = tilde) then (mkIP AfterTilde (buffer_ p), Continue)
      else (mkIP Normal (buffer_ p ++ [c]), Continue)
  | AfterTilde =>
      if decide (c = dot) then (p, Escape)
      else (mkIP Normal (buffer_ p ++ [tilde; c]), Continue)
  end.

Definition clearBuffer (p : InputProcessor) : InputProcessor := mkIP (state_ p) [].

(** ** [TerminalManager] *)

(** The flags of [c_lflag]: ECHO, ECHOE and ECHOK; ICANON; ISIG. *)
Definition canonical_mode (t : termios) : termios :=
  mkTermios (c_iflag t) (c_oflag t) (c_cflag t) (clear (raise (raise (c_lflag t) 56) 2) 1) (ispeed t) (ospeed t).

Record TerminalManager := mkTM { origTermios_ : option termios }.

(** [setRawMode], where [set] says whether the terminal takes the settings. *)
Definition setRawMode (set : bool) (m : TerminalManager) (tty : termios) : termios * bool :=
  match origTermios_ m with
  | None => (tty, false)
  | Some t => if set then (canonical_mode t, true) else (tty, false)
  end.

Definition restore (m : TerminalManager) (tty : termios) : termios := default tty (origTermios_ m).

(** ** [UnixClientPlain::connect] *)

(** The address that is filled in: [sun_path] has 108 bytes; copying past its end is
    undefined. *)
Definition sun_path_size : nat := 108.

Inductive address := Abstract (sun_path : bytes) (addrlen : nat) | Path (p : bytes) | Overflow.

Definition connect_address (path : bytes) : address :=
  match path with
  | [] => Path path
  | c :: _ =>
      if decide (c = x2f) then Path path
      else if sun_path_size <? 1 + length path then Overflow
      else Abstract ([x00] ++ path ++ repeat x00 (sun_path_size - 1 - length path)) (2 + 1 + length path)
  end.

(** ** From the keyboard to the socket *)

(** What the input loop has done: the bytes that the socket took, and whether it asked
    to stop. *)
Record typing := mkTyping { proc : InputProcessor; sent : bytes; stopped : bool }.

Section typing.

(** [client_.write] of a buffer: how many bytes are taken, or an error. *)
Context (write : bytes -> option nat).

(** One byte of the inner loop, and whether the loop is left. *)
Definition key (t : typing) (c : byte) : typing * bool :=
  let '(p, r) := process (proc t) c in
  match r with
  | Escape => (mkTyping p (sent t) true, true)
  | Continue => (mkTyping p (sent t) (stopped t), false)
  | SendBuffer =>
      if decide (buffer_ p = []) then (mkTyping (clearBuffer p) (sent t) (stopped t), false)
      else match write (buffer_ p) with
           | None => (mkTyping p (sent t) true, true)
           | Some k => (mkTyping (clearBuffer p) (sent t ++ take k (buffer_ p)) (stopped t), false)
           end
  end.

Fixpoint keys (t : typing) (cs : bytes) : typing :=
  match cs with
  | [] => t
  | c :: cs => let '(t, leave) := key t c in if leave then t else keys t cs
  end.

(** [readFromStdin] over what is typed, read by read. *)
Fixpoint readFromStdin (t : typing) (reads : list bytes) : typing :=
  match reads with
  | [] => t
  | cs :: reads => let t := keys t cs in if stopped t then t else readFromStdin t reads
  end.

End typing.

(** ** The two loops *)

(** The client as a whole: whether each loop runs, the socket is open, stopping was
    requested and the timer of the socket runs; the terminal; what was shown. *)
Record client := mkClient {
  in_runs : bool; out_runs : bool; sock_open : bool; stop : bool; armed : bool; tty : termios; shown : bytes }.

(** What happens: output arrives and is written to the terminal or not; the socket
    fails; thirty seconds pass; a line has been sent; the input loop ends, by the
    keys, by an error or since it was cancelled; a cancelled loop goes on. *)
Inductive happens := Output (data : bytes) (ok : bool) | SocketFails | Silence | LineSent | InputEnds | OutputCancelled.

(** [readFromSocket] has ended: it cancels the input. *)
Definition out_ends (c : client) : client :=
  mkClient (in_runs c) false (sock_open c) true false (tty c) (shown c).

Definition client_step (m : TerminalManager) (c : client) (h : happens) : option client :=
  match h with
  | Output data ok =>
      if out_runs c && sock_open c then
        if ok : bool then
          (* the loop reads on, unless it is to stop, which arms the timer *)
          if stop c then Some (out_ends (mkClient (in_runs c) true (sock_open c) (stop c) false (tty c) (shown c ++ data)))
          else Some (mkClient (in_runs c) true (sock_open c) (stop c) true (tty c) (shown c ++ data))
        else Some (out_ends c)
      else None
  | SocketFails => if out_runs c then Some (out_ends c) else None
  | Silence => if out_runs c && armed c then Some (out_ends c) else Some c
  | LineSent => if in_runs c && sock_open c then Some (mkClient (in_runs c) (out_runs c) (sock_open c) (stop c) false (tty c) (shown c)) else None
  | InputEnds =>
      (* the loop closes the socket, and run() cleans up *)
      if in_runs c then Some (mkClient false (out_runs c) false true (armed c) (restore m (tty c)) (shown c)) else None
  | OutputCancelled => if out_runs c && negb (sock_open c) then Some (out_ends c) else None
  end.

Fixpoint client_run (m : TerminalManager) (c : client) (hs : list happens) : option client :=
  match hs with
  | [] => Some c
  | h :: hs => match client_step m c h with Some c => client_run m c hs | None => None end
  end.

(** [run]: a connected client with a terminal that has taken its settings; the first
    read arms the timer. *)
Definition started (m : TerminalManager) (t : termios) : client :=
  mkClient true true true false true (setRawMode true m t).1 [].

(** ** What is typed *)

(** The bytes that the processor holds back. *)
Definition held (p : InputProcessor) : bytes := buffer_ p ++ (if state_ p is AfterTilde then [tilde] else []).

(** After a newline, and after the tilde, nothing is in the buffer. *)
Definition ip_ok (p : InputProcessor) : Prop := state_ p <> Normal -> buffer_ p = [].

(** A socket that takes everything it is given. *)
Definition whole (buf : bytes) : option nat := Some (length buf).

(** The last line was sent with its end. *)
Definition line_sent (t : typing) : Prop := state_ (proc t) <> Normal -> exists l c, sent t = l ++ [c] /\ (c = cr \/ c = nl).

Lemma key_ok t c :
  stopped t = false -> ip_ok (proc t) -> line_sent t ->
  let '(t', leave) := key whole t c in
  stopped t' = leave /\
  if leave then sent t' = sent t /\ state_ (proc t) = AfterTilde /\ c = dot
  else ip_ok (proc t') /\ line_sent t' /\ sent t' ++ held (proc t') = sent t ++ held (proc t) ++ [c].
Proof.
  intros Hs Hip Hl. unfold key, process. destruct t as [[st buf] sent stp]. simpl in *. subst stp.
  unfold ip_ok, line_sent, held in *. simpl in *. destruct st; simpl in *.
  - destruct (decide (c = cr \/ c = nl)) as [Hc|Hc]; simpl.
    + destruct (decide (buf ++ [c] = [])) as [He|_]; [by destruct buf|]. simpl. split; [done|]. split; [done|].
      rewrite firstn_all. split; [intros _; exists (sent ++ buf), c; by rewrite <- app_assoc|]. by rewrite !app_nil_r.
    + split; [done|]. split; [done|]. split; [done|]. by rewrite !app_nil_r.
  - rewrite (Hip ltac:(done)) in *. destruct (decide (c = tilde)) as [->|]; simpl; by repeat split; auto.
  - rewrite (Hip ltac:(done)) in *. destruct (decide (c = dot)) as [->|]; simpl; by repeat split; auto.
Qed.

Lemma keys_ok t cs :
  stopped t = false -> ip_ok (proc t) -> line_sent t ->
  let t' := keys whole t cs in
  if stopped t' then
    exists l e rest, sent t ++ held (proc t) ++ cs = (l ++ [e]) ++ [tilde; dot] ++ rest /\ (e = cr \/ e = nl) /\ sent t' = l ++ [e]
  else ip_ok (proc t') /\ line_sent t' /\ sent t' ++ held (proc t') = sent t ++ held (proc t) ++ cs.
Proof.
  revert t. induction cs as [|c cs IH]; intros t Hs Hip Hl; cbn [keys]; cbv zeta.
  { rewrite Hs, app_nil_r. done. }
  pose proof (key_ok t c Hs Hip Hl) as Hk. destruct (key whole t c) as [t1 leave]. destruct Hk as [Hst Hk]. destruct leave.
  - rewrite Hst. destruct Hk as (Hsent & Hat & ->). destruct (Hl ltac:(by rewrite Hat)) as (l & e & Hle & He).
    exists l, e, cs. unfold held. rewrite Hat, (Hip ltac:(by rewrite Hat)), Hsent, Hle. by rewrite <- !app_assoc.
  - destruct Hk as (Hip1 & Hl1 & Heq). specialize (IH t1 Hst Hip1 Hl1). cbv zeta in IH.
    assert (Heq' : sent t1 ++ held (proc t1) ++ cs = sent t ++ held (proc t) ++ c :: cs).
    { rewrite app_assoc, Heq, <- !app_assoc. done. }
    rewrite Heq' in IH. exact IH.
Qed.

Lemma readFromStdin_ok reads t :
  stopped t = false -> ip_ok (proc t) -> line_sent t ->
  let t' := readFromStdin whole t reads in
  if stopped t' then
    exists l e rest, sent t ++ held (proc t) ++ concat reads = (l ++ [e]) ++ [tilde; dot] ++ rest /\ (e = cr \/ e = nl) /\ sent t' = l ++ [e]
  else sent t' ++ held (proc t') = sent t ++ held (proc t) ++ concat reads.
Proof.
  revert t. induction reads as [|cs reads IH]; intros t Hs Hip Hl; cbn [readFromStdin concat]; cbv zeta.
  { by rewrite Hs, app_nil_r. }
  pose proof (keys_ok t cs Hs Hip Hl) as Hk. cbv zeta in Hk. destruct (stopped (keys whole t cs)) eqn:Hst.
  - rewrite Hst. destruct Hk as (l & e & rest & Heq & He & Hsent). exists l, e, (rest ++ concat reads). split; [|done].
    rewrite !app_assoc in *. rewrite Heq. by rewrite <- !app_assoc.
  - destruct Hk as (Hip1 & Hl1 & Heq). specialize (IH _ Hst Hip1 Hl1). cbv zeta in IH. rewrite app_assoc, Heq, <- !app_assoc in IH. exact IH.
Qed.

Definition fresh : typing := mkTyping new_processor [] false.

(** However the keys are cut into reads, with a socket that takes whole buffers:
    as long as the session is not left, what was sent and what is held back is what
    was typed, in order; and it is left only at a tilde and a dot that follow the end
    of a line, when all before them, and nothing else, has been sent. *)
Theorem typed_conserved reads :
  let t := readFromStdin whole fresh reads in
  if stopped t then
    exists l e rest, concat reads = (l ++ [e]) ++ [tilde; dot] ++ rest /\ (e = cr \/ e = nl) /\ sent t = l ++ [e]
  else sent t ++ held (proc t) = concat reads.
Proof. apply (readFromStdin_ok reads fresh); [done|by intros ?|by intros ?]. Qed.

(** *** Lines *)

(** A line that begins with something else than a tilde or the end of a line. *)
Definition plain_line (l : bytes) : Prop :=
  Forall (fun c => c <> cr /\ c <> nl) l /\ exists c l', l = c :: l' /\ c <> tilde.

Lemma keys_app write t cs ds : stopped (keys write t cs) = false -> stopped t = false -> (forall b, write b <> None) ->
  keys write t (cs ++ ds) = keys write (keys write t cs) ds.
Proof.
  intros Hk Hs Hw. revert t Hk Hs. induction cs as [|c cs IH]; intros t Hk Hs; [done|]. cbn [app keys] in *.
  destruct (key write t c) as [t1 leave] eqn:E. destruct leave.
  - exfalso. revert E Hk. unfold key. destruct (process (proc t) c) as [p []]; [done| |by intros [= <-]].
    destruct (decide _); [done|]. destruct (write _) eqn:Ew; [done|]. by apply Hw in Ew.
  - apply IH; [done|]. revert E. unfold key. destruct (process (proc t) c) as [p []]; [by intros [= <-]| |done].
    destruct (decide _); [by intros [= <-]|]. destruct (write _); [by intros [= <-]|done].
Qed.

Lemma whole_some b : whole b <> None.
Proof. by unfold whole. Qed.

Lemma keys_body buf st s l :
  Forall (fun c => c <> cr /\ c <> nl) l ->
  keys whole (mkTyping (mkIP Normal buf) s st) l = mkTyping (mkIP Normal (buf ++ l)) s st.
Proof.
  intros Hl. revert buf. induction Hl as [|c l [Hc1 Hc2] _ IH]; intros buf; [by rewrite app_nil_r|].
  cbn [keys]. unfold key, process. cbn [state_ proc buffer_]. rewrite decide_False by tauto. rewrite IH. by rewrite <- app_assoc.
Qed.

(** A plain line and its end are sent at once, and leave nothing behind. *)
Lemma keys_line st s l :
  st = Normal \/ st = AfterNewline -> plain_line l ->
  keys whole (mkTyping (mkIP st []) s false) (l ++ [nl]) = mkTyping (mkIP AfterNewline []) (s ++ l ++ [nl]) false.
Proof.
  intros Hst [Hl (c & l' & -> & Hc)]. inversion_clear Hl as [|?? [Hc1 Hc2] Hl'].
  assert (Hfirst : key whole (mkTyping (mkIP st []) s false) c = (mkTyping (mkIP Normal [c]) s false, false)).
  { unfold key, process. cbn [state_ proc buffer_]. destruct Hst as [-> | ->]; by rewrite decide_False by tauto. }
  cbn [app keys]. rewrite Hfirst. rewrite keys_app by (apply whole_some || done || by rewrite keys_body).
  rewrite keys_body by done. cbn [keys]. unfold key, process. cbn [state_ proc buffer_]. rewrite decide_True by (by right).
  cbn [buffer_ state_]. rewrite decide_False by (by destruct l'). unfold whole. cbn. rewrite firstn_all. reflexivity.
Qed.

(** Plain lines are sent as they are typed, each at its end; a tilde and a dot then
    leave the session. *)
Theorem lines_then_escape ls :
  Forall plain_line ls ->
  let text := concat ((fun l => l ++ [nl]) <$> ls) in
  let t := keys whole fresh text in
  sent t = text /\ held (proc t) = [] /\ stopped t = false /\
  (ls <> [] -> stopped (keys whole t [tilde; dot]) = true /\ sent (keys whole t [tilde; dot]) = text).
Proof.
  intros Hls.
  assert (Hgen : forall st s, st = Normal \/ st = AfterNewline ->
    keys whole (mkTyping (mkIP st []) s false) (concat ((fun l => l ++ [nl]) <$> ls)) =
    mkTyping (mkIP (if decide (ls = []) then st else AfterNewline) []) (s ++ concat ((fun l => l ++ [nl]) <$> ls)) false).
  { induction Hls as [|l ls Hl Hls IH]; intros st s Hst; [by rewrite app_nil_r|]. rewrite fmap_cons. cbn [concat].
    rewrite keys_app; [|by rewrite keys_line|done|apply whole_some]. rewrite keys_line, IH by auto. rewrite (decide_False (P := l :: ls = [])) by done.
    rewrite <- app_assoc. by destruct (decide (ls = [])). }
  cbv zeta. unfold fresh, new_processor. rewrite Hgen by by left. simpl. split; [done|].
  destruct ls; [done|]. simpl. done.
Qed.

(** ** The address *)

(** A name that is not a path is put after a zero byte, and fits exactly where it is
    shorter than the field; the length passed on counts the family, the zero and the
    name. *)
Theorem connect_fits path :
  match connect_address path with
  | Path p => p = path /\ (path = [] \/ head path = Some x2f)
  | Abstract sun len => length sun = sun_path_size /\ take (1 + length path) sun = x00 :: path /\ len = 3 + length path
  | Overflow => 107 < length path /\ head path <> Some x2f
  end.
Proof.
  unfold connect_address, sun_path_size. destruct path as [|c path]; [by split; [|left]|].
  destruct (decide (c = x2f)) as [->|Hc]; [by split; [|right]|].
  destruct (Nat.ltb_spec 108 (1 + length (c :: path))).
  - split; [simpl in *; lia|]. simpl. congruence.
  - split; [rewrite !length_app, repeat_length; cbn [length] in *; lia|]. split; [|done].
    apply (take_app_length (x00 :: c :: path)).
Qed.

(** ** The end of a session *)

(** In every state that is reached: once the input loop has ended the socket is closed,
    stopping was requested and the terminal is as it was found; and while it runs the
    socket is open. *)
Record client_ok (t : termios) (c : client) : Prop := {
  ok_ended : in_runs c = false -> sock_open c = false /\ stop c = true /\ tty c = t;
  ok_runs : in_runs c = true -> sock_open c = true;
  ok_out : out_runs c = false -> stop c = true /\ armed c = false }.

Lemma session_step_ok t c h c' :
  client_ok t c -> client_step (mkTM (Some t)) c h = Some c' -> client_ok t c'.
Proof.
  intros [He Hr Ho]. destruct h as [data ok| | | | |]; simpl.
  - destruct (out_runs c) eqn:Hout, (sock_open c) eqn:Hso; try done. simpl. destruct ok; [destruct (stop c) eqn:Hst|]; intros [= <-]; split; simpl; naive_solver.
  - destruct (out_runs c) eqn:Hout; [|done]. intros [= <-]. split; simpl; naive_solver.
  - destruct (out_runs c && armed c) eqn:Hb; intros [= <-]; [|done]. split; simpl; naive_solver.
  - destruct (in_runs c && sock_open c) eqn:Hb; [|done]. apply andb_true_iff in Hb as [Hi Hso]. intros [= <-]. split; simpl; naive_solver.
  - destruct (in_runs c) eqn:Hi; [|done]. intros [= <-]. split; simpl; naive_solver.
  - destruct (out_runs c && negb (sock_open c)) eqn:Hb; [|done]. apply andb_true_iff in Hb as [Hout Hso]. intros [= <-]. split; simpl; naive_solver.
Qed.

(** However a session ends, the terminal gets back the settings it had, and each loop
    ends the other: with the output gone a stop is requested, and with the input gone
    the socket is closed, which the output loop can only end by. *)
Theorem session_ends t t0 hs c :
  client_run (mkTM (Some t)) (started (mkTM (Some t)) t0) hs = Some c ->
  (in_runs c = false -> tty c = t /\ sock_open c = false /\
     (out_runs c = true -> exists c', client_step (mkTM (Some t)) c OutputCancelled = Some c' /\ out_runs c' = false /\
        forall data ok, client_step (mkTM (Some t)) c (Output data ok) = None)) /\
  (out_runs c = false -> stop c = true).
Proof.
  assert (Hgen : forall hs c0, client_ok t c0 -> client_run (mkTM (Some t)) c0 hs = Some c -> client_ok t c).
  { clear hs. induction hs as [|h hs IH]; intros c0 Hok; simpl; [by intros [= <-]|].
    destruct (client_step _ c0 h) as [c1|] eqn:Hs; [|done]. apply IH. by apply (session_step_ok t c0 h). }
  intros Hrun. apply Hgen in Hrun as [He Hr Ho]; [|by split].
  split; [|naive_solver]. intros Hi. destruct (He Hi) as (Hso & _ & Ht). split; [done|]. split; [done|]. intros Hout.
  simpl. rewrite Hout, Hso. simpl. by eexists.
Qed.

(** ** Witnesses and limits *)

Module ClientSample.

Lemma lines_then_escape_witness :
  sent (keys whole fresh (str "ls" ++ [nl])) = str "ls" ++ [nl].
Proof.
  destruct (lines_then_escape [str "ls"]) as [H _]; [|exact H].
  constructor; [|constructor]. split; [by repeat constructor|]. by exists x6c, [x73].
Defined.

Definition blank : termios := mkTermios 0 0 0 0 0 0.

Lemma session_ends_witness :
  exists c, client_run (mkTM (Some blank)) (started (mkTM (Some blank)) blank) [Output (str "a") true; SocketFails; InputEnds] = Some c /\ tty c = blank.
Proof.
  eexists. split; [reflexivity|].
  eapply (session_ends blank blank [Output (str "a") true; SocketFails; InputEnds]); reflexivity.
Defined.

(** An empty line is held back until the next line has ended, and the second byte of
    a line end of two as well. *)
Example blank_line_held :
  sent (keys whole fresh (str "a" ++ [nl; nl])) = str "a" ++ [nl] /\
  sent (keys whole fresh (str "a" ++ [cr; nl])) = str "a" ++ [cr].
Proof. split; reflexivity. Qed.

(** After an empty line the sequence is not seen, nor at the start of a session. *)
Example escape_missed :
  stopped (keys whole fresh (str "a" ++ [nl; nl; tilde; dot])) = false /\ stopped (keys whole fresh [tilde; dot]) = false.
Proof. split; reflexivity. Qed.

(** What a short write leaves is dropped. *)
Example short_write : sent (keys (fun _ => Some 2) fresh (str "abcd" ++ [nl])) = str "ab".
Proof. reflexivity. Qed.

(** A console that is silent for thirty seconds ends the session; sending a line stops
    the timer, until the next output starts it. *)
Example idle_console :
  let run hs := stop <$> client_run (mkTM (Some blank)) (started (mkTM (Some blank)) blank) hs in
  run [Silence] = Some true /\ run [LineSent; Silence] = Some false /\ run [LineSent; Output (str "a") true; Silence] = Some true.
Proof. repeat split. Qed.

End ClientSample.
