(* ===== verification/ComponentIntegrity.v ===== *)
(** * Component integrity: [component_integrity.hpp], [spdm_tcp_client.hpp] and the
      facade [spdm_requester.hpp] of [examples/spdm/spdm_requester/src/]

    A device is set up by an attempt that runs on a worker thread and ends with an
    object, or with nothing and perhaps another attempt.  What the network and libspdm
    do to an attempt is part of the event that ends it. *)

From S2P Require Import Prelude SpdmMessages TrustStore CertExchange.

(** ** Devices *)

Inductive DeviceInfo := Monostate | TcpDeviceInfo (host : bytes) (port : Z).

(** [std::to_string] of an [int]. *)
Definition to_string (z : Z) : bytes := if (z <? 0)%Z then x2d :: to_dec 11 (- z) else to_dec 11 z.

Definition id (d : DeviceInfo) : bytes :=
  match d with
  | Monostate => str "null"
  | TcpDeviceInfo host port => ((fun c => if decide (c = x2e) then x5f else c) <$> host) ++ str "_" ++ to_string port
  end.

Definition CompIntegrityPath (i : bytes) : bytes := str "/xyz/openbmc_project/ComponentIntegrity/" ++ i.

Definition path_of (d : DeviceInfo) : bytes := CompIntegrityPath (id d).

(** The reasons why [SpdmTcpClient] calls back. *)
Inductive CloseReason := SendFailed | ReceiveFailed | ConnectionLost.

(** ** [SpdmTcpClient] *)

(** [send] and [receive]: the result of the socket function, and the callback, if one
    is set, on failure. *)
Definition client_io (callback : bool) (reason : CloseReason) (result : bool) : bool * list CloseReason :=
  (result, if negb result && callback then [reason] else []).

Definition client_send (callback result : bool) := client_io callback SendFailed result.
Definition client_receive (callback result : bool) := client_io callback ReceiveFailed result.

(** [connectInternal]: an open socket is closed first; the error of resolving or
    connecting; the timeout that is then set. *)
Definition connectInternal (open_ : bool) (resolve connect : option Z) (timeout_ms : Z) : bool * option Z * option Z :=
  match resolve with
  | Some ec => (false, Some ec, None)
  | None => match connect with
            | Some ec => (false, Some ec, None)
            | None => (true, None, Some timeout_ms)
            end
  end.

(** ** Attempts *)

Definition MAXTRY : nat := 3.

(** How the task of an attempt goes: the connection fails; a step of the greeting or
    of the negotiation fails, after some failed sends or receives; it ends with an
    exception; or the object is made. *)
Inductive task_end := NotConnected | NotInitialized (failures : list CloseReason) | TaskThrew | Created.

Record attempt := mkAttempt { a_device : DeviceInfo; a_retry : nat }.

(** The state: the objects by path, each with a number; the attempts that run. *)
Record world := mkWorld { spdmDevices : gmap bytes nat; attempts : gmap nat attempt; fresh : nat }.

Definition spawn (w : world) (d : DeviceInfo) (retry : nat) : world :=
  mkWorld (spdmDevices w) (<[fresh w := mkAttempt d retry]> (attempts w)) (S (fresh w)).

(** [addComponentIntegrity]: one more attempt. *)
Definition addComponentIntegrity (w : world) (d : DeviceInfo) (retry : nat) : world := spawn w d retry.

Definition removeComponentIntegrity (w : world) (deviceId : bytes) : world :=
  mkWorld (delete (CompIntegrityPath deviceId) (spdmDevices w)) (attempts w) (fresh w).

Definition handleConnectionError (w : world) (d : DeviceInfo) (reason : CloseReason) : world :=
  addComponentIntegrity (removeComponentIntegrity w (id d)) d 0.

(** The callbacks of the client of a device, in order. *)
Definition callbacks (w : world) (d : DeviceInfo) (rs : list CloseReason) : world :=
  foldl (fun w r => handleConnectionError w d r) w rs.

(** The end of an attempt: the failures of its client have called back by then; a
    task without an object is tried again. *)
Definition end_attempt (w : world) (i : nat) (a : attempt) (e : task_end) : world :=
  let w := mkWorld (spdmDevices w) (delete i (attempts w)) (fresh w) in
  let again w := if a_retry a <? MAXTRY then addComponentIntegrity w (a_device a) (S (a_retry a)) else w in
  match e with
  | NotConnected | TaskThrew => again w
  | NotInitialized rs => again (callbacks w (a_device a) rs)
  | Created => mkWorld (<[path_of (a_device a) := i]> (spdmDevices w)) (attempts w) (fresh w)
  end.

Inductive event := Discovered (d : DeviceInfo) | Ended (i : nat) (e : task_end) | LinkFailed (d : DeviceInfo) (r : CloseReason).

Definition step (w : world) (e : event) : option world :=
  match e with
  | Discovered d => Some (addComponentIntegrity w d 0)
  | Ended i e => match attempts w !! i with Some a => Some (end_attempt w i a e) | None => None end
  | LinkFailed d r => match spdmDevices w !! path_of d with Some _ => Some (handleConnectionError w d r) | None => None end
  end.

Fixpoint run (w : world) (es : list event) : option world :=
  match es with
  | [] => Some w
  | e :: es => match step w e with Some w => run w es | None => None end
  end.

Definition init : world := mkWorld ∅ ∅ 0.

(** ** The methods *)

Section methods.

(** What the requester does: the exchange of certificates with the path it gives, the
    setting of the provisioned state, the parts of a report; each leaves the peer in
    some state. *)
Context {peer : Type} (exchangeCertificates : peer -> bytes -> peer * (bool * bytes)) (setProvisioned : peer -> bool -> peer * bool).
Context (getCertificateDigests : peer -> peer * bool) (getCertificate : peer -> Z -> peer * (bool * bytes))
        (getSignedMeasurementsImpl : peer -> list Z -> bytes -> Z -> peer * option bytes) (hashAlgo signAlgo : peer -> bytes).

(** A call on the worker pool: [None] where [asyncCall] reports an error. *)
Definition asyncCall {A} (ok : bool) (r : peer * option A) : peer * option A := if ok then r else (r.1, None).

Definition exchangeCertificatesHelper (p : peer) : peer * option bytes :=
  let '(p, (val, path)) := exchangeCertificates p (str "/etc/ssl/certs/self_ca.pem") in
  (p, if val : bool then Some path else None).

(** The methods: a result, or the error [Unavailable]. *)
Definition exchange_certificate (ok : bool) (p : peer) : peer * option (bool * bytes) :=
  let '(p, r) := asyncCall ok (exchangeCertificatesHelper p) in
  (p, (fun path => (true, path)) <$> r).

Definition set_provisioned (ok : bool) (p : peer) (provisioned : bool) : peer * option bool :=
  asyncCall ok (let '(p, r) := setProvisioned p provisioned in (p, if r : bool then Some true else None)).

Definition exchange_app_data (ok : bool) (p : peer) : peer * option unit :=
  let '(p, r) :=
    asyncCall ok
      (let '(p, r) := exchangeCertificatesHelper p in
       match r with
       | None => (p, None)
       | Some _ => let '(p, r) := setProvisioned p true in (p, if r : bool then Some true else None)
       end) in
  (p, (fun _ => tt) <$> r).

(** [SpdmRequester::getSignedMeasurements]; the results of the digests and of the
    certificate are not looked at. *)
Definition getSignedMeasurements (p : peer) (indices : list Z) (nonce : bytes) (slotId : Z) : peer * option (bytes * bytes * bytes * bytes * bytes) :=
  let '(p, success) := getCertificateDigests p in
  let '(p, (success1, certPem)) := getCertificate p slotId in
  let '(p, signedMeas) := getSignedMeasurementsImpl p indices nonce slotId in
  (p, (fun m => (hashAlgo p, certPem, m, signAlgo p, str "1.1")) <$> signedMeas).

(** [spdm_get_signed_measurements]: with a path that is always the same. *)
Definition spdm_get_signed_measurements (ok : bool) (p : peer) (indices : list Z) (nonce : bytes) (slotId : Z)
    : peer * option (bytes * (bytes * bytes * bytes * bytes * bytes)) :=
  asyncCall ok (let '(p, r) := getSignedMeasurements p indices nonce slotId in (p, (fun m => (str "/some/path", m)) <$> r)).

End methods.

(** ** Names *)

Lemma split_at_last (c : byte) a b a' b' : c ∉ b -> c ∉ b' -> a ++ c :: b = a' ++ c :: b' -> a = a' /\ b = b'.
Proof.
  intros Hb Hb' Heq. apply (f_equal reverse) in Heq. rewrite !reverse_app, !reverse_cons, <- !app_assoc in Heq.
  assert (Hr : forall x y x' y' : bytes, c ∉ x -> c ∉ x' -> x ++ [c] ++ y = x' ++ [c] ++ y' -> x = x' /\ y = y').
  { clear. induction x as [|h x IH]; intros y x' y' Hx Hx' Heq; destruct x' as [|h' x']; simpl in *.
    - by injection Heq as ->.
    - injection Heq as -> _. set_solver.
    - injection Heq as -> _. set_solver.
    - injection Heq as -> Heq. destruct (IH y x' y') as [-> ->]; set_solver. }
  apply Hr in Heq as [H1 H2]; [|by rewrite elem_of_reverse..]. split; by apply (inj reverse).
Qed.

Lemma to_dec_clean z : (0 <= z)%Z -> x5f ∉ to_dec 11 z.
Proof. intros Hz Hin. pose proof (to_dec_digits 11 z Hz) as Hd. rewrite Forall_forall in Hd. by specialize (Hd _ Hin). Qed.

Lemma undot_inj (h h' : bytes) :
  x5f ∉ h -> x5f ∉ h' ->
  (fun c => if decide (c = x2e) then x5f else c) <$> h = (fun c => if decide (c = x2e) then x5f else c) <$> h' -> h = h'.
Proof.
  revert h'. induction h as [|c h IH]; intros [|c' h'] Hh Hh'; try done. rewrite !fmap_cons. intros [= Hc Heq].
  apply not_elem_of_cons in Hh as [Hc1 Hh], Hh' as [Hc2 Hh']. f_equal; [|by apply IH].
  destruct (decide (c = x2e)), (decide (c' = x2e)); congruence.
Qed.

Definition wf_device (d : DeviceInfo) : Prop :=
  match d with Monostate => True | TcpDeviceInfo host port => x5f ∉ host /\ (0 <= port < 2 ^ 31)%Z end.

(** Devices whose hosts have no underscore in their names have objects of their own:
    the path tells the host and the port. *)
Theorem path_of_inj d d' : wf_device d -> wf_device d' -> path_of d = path_of d' -> d = d'.
Proof.
  unfold path_of, CompIntegrityPath. intros Hd Hd' Heq%app_inv_head. revert Hd Hd' Heq.
  assert (Hnull : forall host port, wf_device (TcpDeviceInfo host port) -> id (TcpDeviceInfo host port) <> str "null").
  { intros host port _ Heq. assert (Hin : x5f ∈ id (TcpDeviceInfo host port)) by (simpl; set_solver).
    rewrite Heq in Hin. revert Hin. apply (bool_decide_unpack _). vm_compute. exact I. }
  destruct d as [|h p], d' as [|h' p']; [done|by intros _ H Heq; destruct (Hnull h' p' H)|by intros H _ Heq; destruct (Hnull h p H)|].
  intros [Hh Hp] [Hh' Hp'] Heq. unfold id, to_string in Heq.
  rewrite (proj2 (Z.ltb_ge p 0)), (proj2 (Z.ltb_ge p' 0)) in Heq by lia.
  change (str "_") with [x5f] in Heq. cbn [app] in Heq.
  apply split_at_last in Heq as [H1 H2]; [|apply to_dec_clean; lia..]. apply undot_inj in H1; [|done..]. subst h'.
  apply (f_equal of_dec) in H2. rewrite !of_to_dec in H2 by (cbn; lia). by subst p'.
Qed.

(** ** Attempts *)

(** The tries that an attempt still stands for. *)
Definition tries_left (a : attempt) : nat := S (MAXTRY - a_retry a).

Definition work (w : world) : nat := map_sum tries_left (attempts w).

Definition fresh_ok (w : world) : Prop := forall i, is_Some (attempts w !! i) -> i < fresh w.

Lemma fresh_none w : fresh_ok w -> attempts w !! fresh w = None.
Proof. intros Hf. destruct (attempts w !! fresh w) eqn:E; [|done]. specialize (Hf (fresh w) ltac:(by rewrite E)). lia. Qed.

Lemma spawn_fresh w d k : fresh_ok w -> fresh_ok (spawn w d k).
Proof.
  intros Hf i [a Ha]. cbn [spawn attempts fresh] in *. apply lookup_insert_Some in Ha as [[<- _]|[_ Hi]]; [lia|].
  specialize (Hf i ltac:(by eexists)). lia.
Qed.

Lemma delete_fresh w m i : fresh_ok w -> fresh_ok (mkWorld m (delete i (attempts w)) (fresh w)).
Proof. intros Hf j [x Hj]. cbn [attempts fresh] in *. apply lookup_delete_Some in Hj as [_ Hj]. apply Hf. by eexists. Qed.

Lemma spawn_work w d k : fresh_ok w -> work (spawn w d k) = S (MAXTRY - k) + work w.
Proof. intros Hf. unfold work, spawn. simpl. rewrite map_sum_insert_fresh by by apply fresh_none. done. Qed.

Lemma remove_work w i a n :
  attempts w !! i = Some a -> work w = tries_left a + work (mkWorld (spdmDevices w) (delete i (attempts w)) n).
Proof.
  intros Hi. unfold work. simpl. rewrite <- (insert_delete_id (attempts w) i a Hi) at 1.
  by rewrite map_sum_insert_fresh by apply lookup_delete_eq.
Qed.

Lemma spawn_size w d k : fresh_ok w -> size (attempts (spawn w d k)) = S (size (attempts w)).
Proof. intros Hf. cbn [spawn attempts]. by rewrite map_size_insert_None by by apply fresh_none. Qed.

(** Events in which no link fails. *)
Definition quiet (e : event) : Prop :=
  match e with LinkFailed _ _ => False | Ended _ (NotInitialized rs) => rs = [] | _ => True end.

Definition is_discovered (e : event) : bool := match e with Discovered _ => true | _ => false end.

Lemma quiet_step w e w' :
  fresh_ok w -> quiet e -> step w e = Some w' ->
  fresh_ok w' /\ if is_discovered e then work w' = 4 + work w else S (work w') <= work w.
Proof.
  intros Hf Hq. destruct e as [d|i e|d r]; simpl in *; [|destruct (attempts w !! i) as [a|] eqn:Hi; [|done]|done].
  { intros [= <-]. split; [by apply spawn_fresh|]. unfold addComponentIntegrity. by rewrite spawn_work. }
  intros [= <-]. pose proof (remove_work w i a (fresh w) Hi) as Hw.
  set (w1 := mkWorld (spdmDevices w) (delete i (attempts w)) (fresh w)) in *.
  assert (Hf1 : fresh_ok w1) by by apply delete_fresh.
  assert (Hagain : forall w2, w2 = (if a_retry a <? MAXTRY then addComponentIntegrity w1 (a_device a) (S (a_retry a)) else w1) ->
    fresh_ok w2 /\ S (work w2) <= work w).
  { intros w2 ->. unfold tries_left, MAXTRY in *. destruct (Nat.ltb_spec (a_retry a) 3); unfold addComponentIntegrity.
    - split; [by apply spawn_fresh|]. rewrite spawn_work by done. unfold MAXTRY. lia.
    - split; [done|]. lia. }
  destruct e as [|rs| |]; unfold end_attempt; fold w1.
  - by apply Hagain.
  - subst rs. by apply Hagain.
  - by apply Hagain.
  - split; [exact Hf1|]. change (work (mkWorld _ (attempts w1) (fresh w1))) with (work w1). unfold tries_left in Hw. lia.
Qed.

(** As long as no link fails in the middle of an exchange, the tries come to an
    end: a device that is discovered is tried four times at most, whatever the order
    in which attempts end, and the tries that are left, counted in [work], go down
    with every one of them. *)
Theorem attempts_bounded es w :
  Forall quiet es -> run init es = Some w ->
  length (filter (fun e => is_discovered e = false) es) + work w <= 4 * length (filter (fun e => is_discovered e = true) es).
Proof.
  intros Hq.
  assert (Hgen : forall es w0, Forall quiet es -> fresh_ok w0 -> run w0 es = Some w ->
    length (filter (fun e => is_discovered e = false) es) + work w <= work w0 + 4 * length (filter (fun e => is_discovered e = true) es)).
  { clear. induction es as [|e es IH]; intros w0 Hq Hf; [simpl; intros [= <-]; lia|]. inversion_clear Hq as [|?? He Hes]. cbn [run].
    destruct (step w0 e) as [w1|] eqn:Hs; [|done]. intros Hrun. destruct (quiet_step w0 e w1 Hf He Hs) as [Hf1 Hw].
    specialize (IH w1 Hes Hf1 Hrun). rewrite !filter_cons. destruct (is_discovered e); simpl in *; lia. }
  intros Hrun. apply (Hgen es init) in Hrun; [|done|]; [|intros i; simpl; rewrite lookup_empty; by intros []].
  assert (H0 : work init = 0) by reflexivity. lia.
Qed.

(** A link that fails while a device is set up starts a new attempt from the callback
    besides the one that is tried again: there is no bound on the attempts that then
    run at once for one device. *)
Theorem attempts_unbounded d n :
  exists es w, run init (Discovered d :: es) = Some w /\ size (attempts w) = S n /\
    Forall (fun e => exists i, e = Ended i (NotInitialized [ReceiveFailed])) es.
Proof.
  enough (H : exists es w, run init (Discovered d :: es) = Some w /\ size (attempts w) = S n /\ fresh_ok w /\
    (exists i, attempts w !! i = Some (mkAttempt d 0)) /\ Forall (fun e => exists i, e = Ended i (NotInitialized [ReceiveFailed])) es) by naive_solver.
  induction n as [|n (es & w & Hrun & Hsz & Hf & (i & Hi) & Hes)].
  - exists [], (spawn init d 0). split; [done|]. split; [done|]. split; [|split; [by exists 0|constructor]].
    apply spawn_fresh. intros j. simpl. rewrite lookup_empty. by intros [].
  - exists (es ++ [Ended i (NotInitialized [ReceiveFailed])]). eexists.
    assert (Hsnoc : forall es w0 e, run w0 (es ++ [e]) = match run w0 es with Some w => run w [e] | None => None end).
    { clear. induction es as [|e0 es IH]; intros w0 e; [done|]. cbn [app run]. destruct (step w0 e0); [apply IH|done]. }
    change (Discovered d :: es ++ ?l) with ((Discovered d :: es) ++ l). rewrite Hsnoc, Hrun. cbn [run step]. rewrite Hi. cbn [run].
    split; [reflexivity|]. unfold end_attempt, callbacks. cbn [a_retry a_device foldl].
    unfold handleConnectionError, addComponentIntegrity, removeComponentIntegrity. cbn [spdmDevices attempts fresh].
    set (w1 := mkWorld (delete (CompIntegrityPath (id d)) (spdmDevices w)) (delete i (attempts w)) (fresh w)).
    assert (Hf1 : fresh_ok w1) by by apply delete_fresh.
    change (0 <? MAXTRY) with true.
    set (w2 := spawn w1 d 0). assert (Hf2 : fresh_ok w2) by by apply spawn_fresh.
    split; [|split; [by apply spawn_fresh|]].
    + rewrite spawn_size by done. unfold w2. rewrite spawn_size by done. unfold w1. cbn [attempts]. rewrite map_size_delete_Some by (by rewrite Hi). lia.
    + split; [|apply Forall_app; split; [done|]; constructor; [by eexists|constructor]].
      exists (fresh w1). unfold w2. cbn [spawn attempts fresh]. rewrite lookup_insert_ne by lia. apply lookup_insert_eq.
Qed.

(** ** The methods *)

Section methods_facts.

Context {peer : Type} (exchangeCertificates : peer -> bytes -> peer * (bool * bytes)) (setProvisioned : peer -> bool -> peer * bool).

(** Application data counts as exchanged exactly where the worker reports no error,
    the certificates were exchanged and then the responder was set provisioned; the
    responder is not set provisioned where the exchange failed. *)
Theorem exchange_app_data_iff ok p p' r :
  exchange_app_data exchangeCertificates setProvisioned ok p = (p', r) ->
  let '(p1, (val, path)) := exchangeCertificates p (str "/etc/ssl/certs/self_ca.pem") in
  (r = Some tt <-> ok = true /\ val = true /\ (setProvisioned p1 true).2 = true) /\
  p' = if val then (setProvisioned p1 true).1 else p1.
Proof.
  unfold exchange_app_data, exchangeCertificatesHelper. destruct (exchangeCertificates _ _) as [p1 [[] path]].
  - destruct (setProvisioned p1 true) as [p2 b] eqn:Hs. destruct ok, b; simpl; intros [= <- <-]; naive_solver.
  - destruct ok; simpl; intros [= <- <-]; naive_solver.
Qed.

End methods_facts.

(** ** Witnesses and limits *)

Module IntegritySample.

Definition bmc (port : Z) : DeviceInfo := TcpDeviceInfo (str "10.0.0.1") port.

Lemma path_of_inj_witness : path_of (bmc 2323) <> path_of (bmc 2324).
Proof.
  intros H. assert (Hwf : forall p, (0 <= p < 2 ^ 31)%Z -> wf_device (bmc p)).
  { intros p Hp. split; [|done]. apply (bool_decide_unpack _). vm_compute. exact I. }
  apply path_of_inj in H; [discriminate|apply Hwf; lia..].
Defined.

Lemma attempts_bounded_witness :
  exists w, run init [Discovered (bmc 1); Ended 0 NotConnected; Ended 1 TaskThrew; Ended 2 Created] = Some w /\ 3 + work w <= 4.
Proof.
  eexists. split; [reflexivity|].
  apply (attempts_bounded [Discovered (bmc 1); Ended 0 NotConnected; Ended 1 TaskThrew; Ended 2 Created]); [by repeat constructor|reflexivity].
Defined.

Lemma exchange_app_data_iff_witness :
  (exchange_app_data (fun p _ => (S p, (true, str "c"))) (fun p b => (S p, b)) true 0).2 = Some tt.
Proof.
  pose proof (exchange_app_data_iff (fun p _ => (S p, (true, str "c"))) (fun p b => (S p, b)) true 0 2 (Some tt) eq_refl) as [H _].
  apply H. by repeat split.
Defined.

(** Two hosts whose names differ in a dot and an underscore share an object. *)
Example path_shared : path_of (TcpDeviceInfo (str "a.b") 1) = path_of (TcpDeviceInfo (str "a_b") 1).
Proof. reflexivity. Qed.

(** A late failure of one attempt removes the object that another has made. *)
Example made_object_removed :
  exists w, run init [Discovered (bmc 1); Discovered (bmc 1); Ended 0 Created; Ended 1 (NotInitialized [ReceiveFailed])] = Some w /\
    spdmDevices w !! path_of (bmc 1) = None /\ size (attempts w) = 2.
Proof. eexists. split; [reflexivity|]. split; reflexivity. Qed.

(** Measurements are reported, without a certificate, where the certificate could not
    be read. *)
Example no_certificate :
  (getSignedMeasurements (fun p => (p, false)) (fun p _ => (p, (false, []))) (fun p _ _ _ => (p, Some (str "m"))) (fun _ => str "h") (fun _ => str "s")
     tt [] [] 0).2 = Some (str "h", [], str "m", str "s", str "1.1").
Proof. reflexivity. Qed.

End IntegritySample.
