(* ===== verification/ConsoleServer.v ===== *)
(** * The consoles of a server: [ConsoleInstance] and [MultiConsoleServer] of
      [examples/obmc_console/console_server_multi.cpp]

    Composes the configuration of [ConsoleConfig.v], the serial lines of [Uart.v] and
    the router of [ConsoleRouter.v]: a console opens its device, reads from it until
    that fails or a stop is requested, and is then removed by its name.  What the
    operating system answers is part of the events.  The router's token is taken to be
    the one of the console's stop source. *)

From S2P Require Import Prelude IbmiConsole ConsoleRouter.
From S2P Require ConsoleConfig Uart.

Abbreviation DeviceConfig := ConsoleConfig.DeviceConfig.

Definition getName (d : DeviceConfig) : bytes := ConsoleConfig.name (ConsoleConfig.base d).

(** ** Speeds *)

(** The speeds that are supported, and their constants. *)
Definition speeds : list (Z * Z) :=
  [(9600, 13); (19200, 14); (38400, 15); (57600, 4097); (115200, 4098); (230400, 4099)]%Z.

Definition parseBaudRate (baud : Z) : Z :=
  match find_if (fun e => bool_decide (e.1 = baud)) speeds with Some (_, e) => e.2 | None => Uart.B115200 end.

Definition baudRateToInt (baud : Z) : Z :=
  match find_if (fun e => bool_decide (e.2 = baud)) speeds with Some (_, e) => e.1 | None => 115200%Z end.

(** ** Opening *)

(** The configuration of the line in [initUartDevice]. *)
Definition uart_config (d : DeviceConfig) : Uart.UartConfig :=
  {| Uart.device := ConsoleConfig.device (ConsoleConfig.base d); Uart.baudRate := parseBaudRate (ConsoleConfig.baudRate (ConsoleConfig.base d));
     Uart.rawMode := true; Uart.enableParity := false; Uart.evenParity := Uart.evenParity Uart.default_config;
     Uart.stopBits := 1; Uart.dataBits := 8;
     Uart.hardwareFlowControl := false |}.

(** [std::stoul(text, nullptr, 0)]: spaces, a sign, the base by its prefix. *)
Definition hex_digit_of (b : byte) : option Z :=
  let u := u8 b in
  if ((48 <=? u) && (u <=? 57))%Z then Some (u - 48)%Z
  else if ((97 <=? u) && (u <=? 102))%Z then Some (u - 87)%Z
  else if ((65 <=? u) && (u <=? 70))%Z then Some (u - 55)%Z
  else None.

Definition digit_in (base : Z) (b : byte) : bool :=
  match hex_digit_of b with Some v => (v <? base)%Z | None => false end.

Definition digits_value (base : Z) (s : bytes) : Z := foldl (fun z b => base * z + default 0 (hex_digit_of b))%Z 0%Z s.

Definition based (s : bytes) : Z * bytes :=
  match s with
  | x30 :: x :: c :: rest => if bool_decide (x = x78 \/ x = x58) && digit_in 16 c then (16%Z, c :: rest) else (8%Z, s)
  | x30 :: _ => (8%Z, s)
  | _ => (10%Z, s)
  end.

Definition stoul (text : bytes) : ConsoleConfig.result Z :=
  let '(negative, s) := ConsoleConfig.sign (ConsoleConfig.skip ConsoleConfig.isspace text) in
  let '(base, s) := based s in
  let ds := (ConsoleConfig.span (digit_in base) s).1 in
  let v := digits_value base ds in
  if decide (ds = []) then inr ConsoleConfig.invalid_argument
  else if (2 ^ 64 <=? v)%Z then inr ConsoleConfig.out_of_range
  else inl (if negative : bool then wrapu 64 (- v) else v).

Section sysfs.

Context (canonical : bytes -> option bytes) (exists_ : bytes -> bool) (filename : bytes -> bytes).
Context (open_file written : bytes -> option Z).

Definition attribute (d : DeviceConfig) (attrName : bytes) (value : Z) : list (bytes * bytes) :=
  match (Uart.configureSysfsAttribute canonical exists_ filename (uart_config d) open_file written attrName value).1 with
  | Some w => [w]
  | None => []
  end.

(** [configureVuartSysfs]: what is written where. *)
Definition configureVuartSysfs (d : DeviceConfig) : list (bytes * bytes) :=
  match ConsoleConfig.specific d with
  | ConsoleConfig.ConsoleVuartConfig lpcAddress sirq =>
      (if decide (lpcAddress = []) then []
       else match stoul lpcAddress with
            | inl v => attribute d (str "lpc_address") (wrapu 16 v)
            | inr _ => []
            end) ++
      (if (0 <? sirq)%Z then attribute d (str "sirq") (wrapu 16 sirq) else [])
  | _ => []
  end.

End sysfs.

(** ** A console *)

(** The router and its device, the line, whether the coroutine of [start] still runs,
    and whether what it waits for has been cancelled. *)
Record instance := mkInstance {
  i_config : DeviceConfig;
  i_console : console;
  i_world : Uart.world;
  i_uart : Uart.UartDevice;
  i_running : bool;
  i_aborted : bool }.

Definition stopping (i : instance) : bool := stop_requested (i_console i).
Definition emulated (i : instance) : bool := match dev (i_console i) with Emulated _ => true | _ => false end.

(** How the device opens: a line by its calls; a terminal or an SSH session well or
    not; the emulator always. *)
Inductive opening := LineOpens (a : Uart.answers) | OtherOpens (ok : bool).

(** The device is there and the loop is entered unless a stop was requested. *)
Definition opened (i : instance) (w : Uart.world) (u : Uart.UartDevice) (ok : bool) : instance :=
  mkInstance (i_config i) (if ok then set_dev (i_console i) (Opened []) else i_console i) w u (ok && negb (stopping i)) false.

(** [handleDevice] up to its first read; [None] is an opening of another kind.  What
    [configureVuartSysfs] writes when a virtual line is open changes nothing here. *)
Definition handleDevice (i : instance) (o : opening) (accepted : nat -> option nat) : option instance :=
  match ConsoleConfig.specific (i_config i), o with
  | (ConsoleConfig.ConsoleUartConfig | ConsoleConfig.ConsoleVuartConfig _ _), LineOpens a =>
      let '(w, u, ec) := Uart.open (uart_config (i_config i)) a (i_world i) (i_uart i) in
      Some (opened i w u (bool_decide (ec = Some 0%Z)))
  | (ConsoleConfig.ConsolePtyConfig _ _ | ConsoleConfig.SshPty _), OtherOpens ok => Some (opened i (i_world i) (i_uart i) ok)
  | ConsoleConfig.ConsoleIbmiEmulatorConfig, OtherOpens _ =>
      Some (mkInstance (i_config i) (publish (set_dev (i_console i) (Emulated emulatorInit)) accepted (makeDisplay emulatorInit))
              (i_world i) (i_uart i) true false)
  | _, _ => None
  end.

Definition with_console (i : instance) (c : console) (running : bool) : instance :=
  mkInstance (i_config i) c (i_world i) (i_uart i) running (i_aborted i).

(** A round of [deviceReadLoop]: the bytes that were read, [None] for an error. *)
Definition deviceReadLoop (i : instance) (r : option bytes) (accepted : nat -> option nat) : instance :=
  match r with
  | None => with_console i (disconnectAllClients (set_stop (i_console i))) false
  | Some data =>
      with_console i (if decide (data = []) then i_console i else publish (i_console i) accepted data) (negb (stopping i))
  end.

(** [requestStop]: it cancels the timer on which the emulator waits. *)
Definition requestStop (i : instance) : instance :=
  mkInstance (i_config i) (set_stop (i_console i)) (i_world i) (i_uart i) (i_running i) (i_aborted i || emulated i).

(** [stop]. *)
Definition stop (i : instance) : instance :=
  let '(w, u) := Uart.close (i_world i) (i_uart i) in
  mkInstance (i_config i) (set_stop (i_console i)) w u (i_running i) true.

(** [setBaud] of the D-Bus interface: the line is closed and opened again with the
    configuration that it has.  Closing it cancels the read, if it is pending. *)
Definition setBaud (i : instance) (baud : Z) (pending : bool) (a : Uart.answers) : instance :=
  if Uart.isOpen (i_uart i) then
    let '(w, u) := Uart.close (i_world i) (i_uart i) in
    let '(w, u, _) := Uart.open (uart_config (i_config i)) a w u in
    mkInstance (i_config i) (i_console i) w u (i_running i) (i_aborted i || pending)
  else i.

(** ** The D-Bus interface: [console_dbus.hpp] *)

Definition busName (consoleId : bytes) : bytes := str "xyz.openbmc_project.Console." ++ consoleId.
Definition objectPath (consoleId : bytes) : bytes := str "/xyz/openbmc_project/console/" ++ consoleId.

Definition baudToInt (baud : Z) : Z := baudRateToInt baud.

(** Zero, which is [B0], for a speed that is not supported. *)
Definition intToBaud (value : Z) : Z :=
  match find_if (fun e => bool_decide (e.1 = value)) speeds with Some (_, e) => e.2 | None => 0%Z end.

Definition handleGetBaud (i : instance) : Z := baudToInt (parseBaudRate (ConsoleConfig.baudRate (ConsoleConfig.base (i_config i)))).

(** Whether the property was set, and the old value. *)
Definition handleSetBaud (i : instance) (value : Z) (pending : bool) (a : Uart.answers) : option Z * instance :=
  let baud := intToBaud value in
  if (baud =? 0)%Z then (None, i) else (Some (handleGetBaud i), setBaud i baud pending a).

(** The two descriptors, or an error; whether the first can be assigned.  The end of
    the client, and the descriptors that stay open. *)
Definition createSocketPair (pair : option (Z * Z)) (assigned : bool) : option Z * list Z :=
  match pair with
  | None => (None, [])
  | Some (ours, client) => if assigned then (Some client, [ours; client]) else (None, [])
  end.

(** The descriptor that is returned, and the event of the router; [None] is an
    exception. *)
Definition handleConnect (pair : option (Z * Z)) (assigned : bool) (client : nat) (accepted : option nat) : option (Z * ConsoleRouter.event) :=
  match (createSocketPair pair assigned).1 with
  | Some clientFd => if (clientFd <? 0)%Z then None else Some (clientFd, Connects client (Some clientFd) accepted)
  | None => None
  end.

(** ** The server *)

(** The instances in their order, and the names whose removal has been posted. *)
Record server := mkServer { instances_ : list instance; posted : list bytes }.

Definition no_line : Uart.world := Uart.mkWorld ∅ (Uart.mkTermios 0 0 0 0 0 0).

Definition new_instance (d : DeviceConfig) : instance := mkInstance d (consoleInit NoDevice) no_line Uart.new_uart true false.

(** [MultiConsoleServer::start]. *)
Definition start (ds : list DeviceConfig) : server := mkServer (new_instance <$> ds) [].

Fixpoint removeInstance (l : list instance) (n : bytes) : list instance :=
  match l with
  | [] => []
  | i :: l => if decide (getName (i_config i) = n) then l else i :: removeInstance l n
  end.

Definition requestStopAll (s : server) : server := mkServer (requestStop <$> instances_ s) (posted s).

(** [MultiConsoleServer::stop]: the instances as they are before they are destroyed. *)
Definition stop_all (s : server) : list instance * server := (stop <$> instances_ s, mkServer [] (posted s)).

(** What happens to the instance of a position; the posted removal that is first. *)
Inductive happening :=
  | Opens (k : nat) (o : opening) (accepted : nat -> option nat)
  | DeviceReturns (k : nat) (r : option bytes) (accepted : nat -> option nat)
  | TimerEnds (k : nat)
  | ClientEvent (k : nat) (e : ConsoleRouter.event)
  | SetBaud (k : nat) (value : Z) (pending : bool) (a : Uart.answers)
  | StopAll
  | Removal.

Definition has_device (i : instance) : bool := match dev (i_console i) with Opened _ => true | _ => false end.
Definition no_device (i : instance) : bool := match dev (i_console i) with NoDevice => true | _ => false end.

(** The device is a line, and could not be opened again. *)
Definition line_closed (i : instance) : bool :=
  match ConsoleConfig.specific (i_config i) with
  | ConsoleConfig.ConsoleUartConfig | ConsoleConfig.ConsoleVuartConfig _ _ => has_device i && negb (Uart.isOpen (i_uart i))
  | _ => false
  end.

(** An event of the clients of a console; what they write to a line that is closed
    goes nowhere. *)
Definition client_event (i : instance) (e : ConsoleRouter.event) : option instance :=
  match e with
  | Connects _ _ _ | ClientReads _ _ _ | ClientFails _ _ =>
      let c := i_console i in
      if line_closed i then
        match ConsoleRouter.step (set_dev c NoDevice) e with Some c' => Some (with_console i (set_dev c' (dev c)) (i_running i)) | None => None end
      else match ConsoleRouter.step c e with Some c' => Some (with_console i c' (i_running i)) | None => None end
  | _ => None
  end.

(** What happens to an instance, [None] where it cannot. *)
Definition instance_step (i : instance) (h : happening) : option instance :=
  match h with
  | Opens _ o acc => if i_running i && no_device i then handleDevice i o acc else None
  | DeviceReturns _ r acc =>
      if i_running i && has_device i && (negb (i_aborted i) || bool_decide (r = None)) then Some (deviceReadLoop i r acc) else None
  | TimerEnds _ => if i_running i && emulated i && i_aborted i then Some (with_console i (i_console i) false) else None
  | ClientEvent _ e => client_event i e
  | SetBaud _ value pending a => Some (handleSetBaud i value pending a).2
  | StopAll | Removal => None
  end.

(** The change of an instance: a coroutine that has ended posts the removal. *)
Definition put (s : server) (k : nat) (i i' : instance) : server :=
  mkServer (<[k := i']> (instances_ s))
    (if i_running i && negb (i_running i') then posted s ++ [getName (i_config i)] else posted s).

Definition at_instance (s : server) (k : nat) (h : happening) : option server :=
  match instances_ s !! k with
  | Some i => match instance_step i h with Some i' => Some (put s k i i') | None => None end
  | None => None
  end.

Definition server_step (s : server) (h : happening) : option server :=
  match h with
  | Opens k _ _ | DeviceReturns k _ _ | TimerEnds k | ClientEvent k _ | SetBaud k _ _ _ => at_instance s k h
  | StopAll => Some (requestStopAll s)
  | Removal =>
      match posted s with
      | [] => None
      | n :: ns => Some (mkServer (removeInstance (instances_ s) n) ns)
      end
  end.

Fixpoint server_run (s : server) (hs : list happening) : option server :=
  match hs with
  | [] => Some s
  | h :: hs => match server_step s h with Some s => server_run s hs | None => None end
  end.

(** ** The names *)

Lemma load_names l ds :
  ConsoleConfig.load_sections l = inl ds -> getName <$> ds = omap ConsoleConfig.console_name (l.*1).
Proof.
  revert ds. induction l as [|[s v] l IH]; intros ds; [by intros [= <-]|]. cbn [ConsoleConfig.load_sections fmap list_fmap omap list_omap fst].
  destruct (ConsoleConfig.console_name s) as [n|] eqn:Hs; [|apply IH].
  unfold ConsoleConfig.section_device, ConsoleConfig.rbind. intros H. repeat (case_match; try discriminate). injection H as <-.
  rewrite fmap_cons. f_equal; [|by apply IH].
  match goal with H : _ = inl ?d |- getName ?d = _ => revert H end. repeat (case_match; try discriminate). by intros [= <-].
Qed.

Lemma names_nodup (l : list bytes) : NoDup l -> NoDup (omap ConsoleConfig.console_name l).
Proof.
  induction 1 as [|s l Hs Hl IH]; cbn [omap list_omap]; [constructor|]. destruct (ConsoleConfig.console_name s) as [n|] eqn:Hn; [|done].
  constructor; [|done]. rewrite list_elem_of_omap. intros (s' & Hs' & Hn'). apply ConsoleConfig.console_name_Some in Hn, Hn'. congruence.
Qed.

(** The devices of a configuration have different names. *)
Lemma config_names walk file c :
  (forall m, walk m ≡ₚ map_to_list m) -> ConsoleConfig.loadFromFile walk file = inl (Some c) -> NoDup (getName <$> ConsoleConfig.devices c).
Proof.
  intros Hwalk. destruct file as [text|]; [|done]. unfold ConsoleConfig.loadFromFile, ConsoleConfig.rbind.
  case_decide as Hsec.
  - destruct (ConsoleConfig.simple_device _) as [d|]; [|done]. intros [= <-]. apply NoDup_singleton.
  - destruct (ConsoleConfig.load_sections _) as [ds|] eqn:Hl; [|done]. intros [= <-]. cbn [ConsoleConfig.devices].
    rewrite (load_names _ _ Hl). apply names_nodup. rewrite Hwalk. apply NoDup_fst_map_to_list.
Qed.

(** ** Removal *)

Definition iname (i : instance) : bytes := getName (i_config i).

(** A coroutine that has ended is waiting to be removed. *)
Record srv_ok (s : server) : Prop := {
  ok_names : NoDup (iname <$> instances_ s);
  ok_posted : NoDup (posted s);
  ok_known : forall n, n ∈ posted s -> n ∈ iname <$> instances_ s;
  ok_ended : forall k i, instances_ s !! k = Some i -> i_running i = false <-> iname i ∈ posted s }.

Definition evolves (i i' : instance) : Prop := i_config i' = i_config i /\ (i_running i' = true -> i_running i = true).

Lemma step_evolves i h i' : instance_step i h = Some i' -> evolves i i'.
Proof.
  destruct h; cbn [instance_step]; try done.
  - destruct (i_running i) eqn:Hr; [|done]. destruct (no_device i); [|done]. unfold handleDevice.
    destruct (ConsoleConfig.specific (i_config i)), o; try done.
    1, 2: destruct (Uart.open _ _ _ _) as [[w u] ec].
    all: intros [= <-]; by split.
  - destruct (i_running i) eqn:Hr; [|done]. simpl. case_match; [|done]. intros [= <-]. destruct r; by split.
  - destruct (i_running i) eqn:Hr; [|done]. simpl. case_match; [|done]. intros [= <-]. by split.
  - unfold client_event. destruct e; try done; destruct (line_closed i); destruct (ConsoleRouter.step _ _); try done; intros [= <-]; by split.
  - intros [= <-]. unfold handleSetBaud. case_match; [by split|]. cbn [snd]. unfold setBaud. destruct (Uart.isOpen _); [|by split]. destruct (Uart.close _ _) as [w u].
    destruct (Uart.open _ _ _ _) as [[w' u'] ec]. by split.
Qed.

Lemma name_unique s k j i i' :
  srv_ok s -> instances_ s !! k = Some i -> instances_ s !! j = Some i' -> iname i = iname i' -> k = j.
Proof.
  intros Hok Hk Hj Hn. apply (NoDup_lookup (iname <$> instances_ s) k j (iname i)); [by apply ok_names| |];
    rewrite list_lookup_fmap; [by rewrite Hk|by rewrite Hj, Hn].
Qed.

Lemma put_ok s k i i' :
  srv_ok s -> instances_ s !! k = Some i -> evolves i i' ->
  srv_ok (put s k i i') /\ iname <$> instances_ (put s k i i') = iname <$> instances_ s.
Proof.
  intros Hok Hk [Hcfg Hrun]. unfold put. cbn [instances_ posted].
  assert (Hn : iname i' = iname i) by (unfold iname; by rewrite Hcfg).
  assert (Hnames : iname <$> <[k := i']> (instances_ s) = iname <$> instances_ s).
  { rewrite list_fmap_insert, Hn. apply list_insert_id. by rewrite list_lookup_fmap, Hk. }
  split; [|done]. fold (iname i).
  assert (Hlk : forall j x, <[k := i']> (instances_ s) !! j = Some x -> j = k /\ x = i' \/ j <> k /\ instances_ s !! j = Some x).
  { intros j x. destruct (decide (j = k)) as [->|Hne].
    - rewrite list_lookup_insert_eq by (by eapply lookup_lt_Some). intros [= <-]. by left.
    - rewrite list_lookup_insert_ne by done. by right. }
  destruct (i_running i) eqn:Hr; simpl; [destruct (i_running i') eqn:Hr'; simpl|].
  - split; cbn [instances_ posted]; rewrite ?Hnames; [by apply ok_names|by apply ok_posted|by apply ok_known|].
    intros j x [[-> ->]|[Hne Hj]]%Hlk; [|by apply (ok_ended s Hok j)]. rewrite Hn, <- (ok_ended s Hok k i Hk), Hr, Hr'. done.
  - assert (Hnew : iname i ∉ posted s) by (rewrite <- (ok_ended s Hok k i Hk), Hr; done).
    split; cbn [instances_ posted]; rewrite ?Hnames; [by apply ok_names| | |].
    + apply NoDup_app. split; [by apply ok_posted|]. split; [|apply NoDup_singleton]. intros x Hx ->%list_elem_of_singleton. done.
    + intros n [Hp| ->%list_elem_of_singleton]%elem_of_app; [by apply ok_known|]. apply list_elem_of_fmap. exists i. split; [done|].
      by apply list_elem_of_lookup_2 in Hk.
    + intros j x [[-> ->]|[Hne Hj]]%Hlk; [rewrite Hn; set_solver|]. rewrite elem_of_app, list_elem_of_singleton, (ok_ended s Hok j x Hj).
      split; [by left|]. intros [?|Heq]; [done|]. exfalso. apply Hne. by apply (name_unique s j k x i).
  - assert (Hr' : i_running i' = false) by (destruct (i_running i'); [by specialize (Hrun eq_refl)|done]).
    split; cbn [instances_ posted]; rewrite ?Hnames; [by apply ok_names|by apply ok_posted|by apply ok_known|].
    intros j x [[-> ->]|[Hne Hj]]%Hlk; [|by apply (ok_ended s Hok j)]. rewrite Hn, <- (ok_ended s Hok k i Hk), Hr, Hr'. done.
Qed.

(** Of instances with different names, the one of a name is removed. *)
Lemma removeInstance_spec l n i :
  NoDup (iname <$> l) -> i ∈ removeInstance l n <-> i ∈ l /\ iname i <> n.
Proof.
  induction l as [|j l IH]; intros Hnd; cbn [removeInstance]; [set_solver|]. rewrite fmap_cons, NoDup_cons in Hnd. destruct Hnd as [Hj Hnd].
  fold (iname j). destruct (decide (iname j = n)) as [<-|Hne].
  - rewrite elem_of_cons. split; [|set_solver]. intros Hi. split; [by right|]. intros Heq. apply Hj. rewrite <- Heq. apply list_elem_of_fmap. by exists i.
  - rewrite !elem_of_cons, (IH Hnd). naive_solver.
Qed.

Lemma removeInstance_sublist l n : sublist (removeInstance l n) l.
Proof. induction l as [|j l IH]; cbn [removeInstance]; [done|]. case_decide; by constructor. Qed.

Lemma removal_ok s n ns s' :
  srv_ok s -> posted s = n :: ns -> s' = mkServer (removeInstance (instances_ s) n) ns -> srv_ok s'.
Proof.
  intros Hok Hp ->. pose proof (ok_posted s Hok) as Hnd. rewrite Hp, NoDup_cons in Hnd. destruct Hnd as [Hn Hns].
  assert (Hin : forall i, i ∈ removeInstance (instances_ s) n <-> i ∈ instances_ s /\ iname i <> n) by (intros; apply removeInstance_spec; by apply ok_names).
  split; cbn [instances_ posted]; [|done| |].
  - eapply sublist_NoDup; [by apply ok_names|]. apply fmap_sublist, removeInstance_sublist.
  - intros m Hm. assert (Hk : m ∈ iname <$> instances_ s) by (apply ok_known; [done|]; rewrite Hp; by right).
    apply list_elem_of_fmap in Hk as (i & -> & Hi). apply list_elem_of_fmap. exists i. split; [done|]. apply Hin. split; [done|]. congruence.
  - intros k i Hk. apply list_elem_of_lookup_2, Hin in Hk as [Hi Hne]. apply list_elem_of_lookup in Hi as [j Hj].
    rewrite (ok_ended s Hok j i Hj), Hp, elem_of_cons. naive_solver.
Qed.

Lemma start_ok ds : NoDup (getName <$> ds) -> srv_ok (start ds).
Proof.
  intros Hnd. split; cbn [start instances_ posted].
  - rewrite <- list_fmap_compose. exact Hnd.
  - constructor.
  - intros n []%not_elem_of_nil.
  - intros k i Hk. rewrite list_lookup_fmap in Hk. destruct (ds !! k); [|done]. injection Hk as <-. cbn. set_solver.
Qed.

Lemma requestStopAll_ok s :
  srv_ok s -> srv_ok (requestStopAll s) /\ iname <$> instances_ (requestStopAll s) = iname <$> instances_ s.
Proof.
  intros Hok. assert (Hn : iname <$> instances_ (requestStopAll s) = iname <$> instances_ s) by (cbn; by rewrite <- list_fmap_compose).
  split; [|done]. split; rewrite ?Hn; try by apply Hok. intros k i Hk. cbn in *. rewrite list_lookup_fmap in Hk.
  destruct (instances_ s !! k) as [j|] eqn:Hj; [|done]. injection Hk as <-. exact (ok_ended s Hok k j Hj).
Qed.

Definition is_removal (h : happening) : bool := match h with Removal => true | _ => false end.

Lemma at_instance_ok s k h s' :
  srv_ok s -> at_instance s k h = Some s' -> srv_ok s' /\ iname <$> instances_ s' = iname <$> instances_ s.
Proof.
  intros Hok. unfold at_instance. destruct (instances_ s !! k) as [i|] eqn:Hk; [|done]. destruct (instance_step i h) as [i'|] eqn:Hi; [|done].
  intros [= <-]. apply put_ok; [done|done|]. by eapply step_evolves.
Qed.

Lemma server_step_ok s h s' :
  srv_ok s -> server_step s h = Some s' -> srv_ok s' /\ (is_removal h = false -> iname <$> instances_ s' = iname <$> instances_ s).
Proof.
  intros Hok. destruct h; cbn [server_step]; try (by intros [??]%at_instance_ok).
  - intros [= <-]. destruct (requestStopAll_ok s Hok) as [??]. done.
  - destruct (posted s) as [|n ns] eqn:Hp; [done|]. intros [= <-]. split; [by eapply removal_ok|done].
Qed.

Lemma server_run_ok s hs s' : srv_ok s -> server_run s hs = Some s' -> srv_ok s'.
Proof.
  revert s. induction hs as [|h hs IH]; intros s Hok; cbn [server_run]; [by intros [= <-]|].
  destruct (server_step s h) as [s1|] eqn:Hs; [|done]. apply IH. by eapply server_step_ok.
Qed.

Lemma removeInstance_split l n :
  n ∈ iname <$> l -> exists l1 i l2, l = l1 ++ i :: l2 /\ iname i = n /\ removeInstance l n = l1 ++ l2.
Proof.
  induction l as [|j l IH]; cbn [removeInstance]; [by intros []%not_elem_of_nil|]. rewrite fmap_cons, elem_of_cons. fold (iname j).
  destruct (decide (iname j = n)) as [<-|Hne]; [intros _; by exists [], j, l|]. intros [?|Hn]; [congruence|].
  destruct (IH Hn) as (l1 & i & l2 & -> & Hi & ->). by exists (j :: l1), i, l2.
Qed.

Section serving.

Context (walk : gmap bytes ConsoleConfig.values -> list (bytes * ConsoleConfig.values)).
Hypothesis walk_all : forall m, walk m ≡ₚ map_to_list m.

Lemma consoles_ok file c hs s :
  ConsoleConfig.loadFromFile walk file = inl (Some c) -> server_run (start (ConsoleConfig.devices c)) hs = Some s -> srv_ok s.
Proof. intros Hl. apply server_run_ok, start_ok. by eapply config_names. Qed.

(** A server with the consoles of a configuration file, whatever its devices,
    clients and D-Bus do: an instance is destroyed only by a removal, a removal destroys
    one instance, whose coroutine has ended, and an instance waits for its removal
    exactly when its coroutine has ended. *)
Theorem instances_removed file c hs s h s' :
  ConsoleConfig.loadFromFile walk file = inl (Some c) ->
  server_run (start (ConsoleConfig.devices c)) hs = Some s -> server_step s h = Some s' ->
  (forall i, i ∈ instances_ s -> i_running i = false <-> iname i ∈ posted s) /\
  if is_removal h
  then exists l1 i l2, instances_ s = l1 ++ i :: l2 /\ instances_ s' = l1 ++ l2 /\ i_running i = false
  else iname <$> instances_ s' = iname <$> instances_ s.
Proof.
  intros Hl Hrun Hstep. pose proof (consoles_ok _ _ _ _ Hl Hrun) as Hok. split.
  { intros i [k Hk]%list_elem_of_lookup. by apply (ok_ended s Hok k). }
  destruct (server_step_ok s h s' Hok Hstep) as [_ Hnames]. destruct h; cbn [is_removal] in *; try by apply Hnames.
  cbn [server_step] in Hstep. destruct (posted s) as [|n ns] eqn:Hp; [done|]. injection Hstep as <-. cbn [instances_].
  destruct (removeInstance_split (instances_ s) n) as (l1 & i & l2 & Hs & Hi & Hr).
  { apply (ok_known s Hok). rewrite Hp. by left. }
  exists l1, i, l2. split; [done|]. split; [done|]. apply (ok_ended s Hok (length l1) i).
  - rewrite Hs. by apply list_lookup_middle.
  - rewrite Hi, Hp. by left.
Qed.

End serving.

Lemma removeInstance_running l n :
  (forall i, i ∈ l -> iname i = n -> i_running i = false) ->
  List.filter i_running (removeInstance l n) = List.filter i_running l.
Proof.
  induction l as [|j l IH]; intros Hn; [done|]. cbn [removeInstance List.filter]. fold (iname j). destruct (decide (iname j = n)) as [He|He].
  - by rewrite (Hn j) by (by left || done).
  - cbn [List.filter]. rewrite IH; [done|]. intros i Hi. apply Hn. by right.
Qed.

(** When the posted removals have run, the instances are those that were running. *)
Lemma removals_drain s :
  srv_ok s -> server_run s (replicate (length (posted s)) Removal) = Some (mkServer (List.filter i_running (instances_ s)) []).
Proof.
  remember (posted s) as ns eqn:Hns. revert s Hns. induction ns as [|n ns IH]; intros s Hp Hok; cbn [length replicate server_run].
  - f_equal. destruct s as [l ns]. cbn in *. subst ns. f_equal. symmetry. apply forallb_filter_id, forallb_forall. intros i Hi%list_elem_of_In.
    apply list_elem_of_lookup in Hi as [k Hk]. destruct (i_running i) eqn:Hr; [done|]. apply (ok_ended _ Hok k i Hk) in Hr.
    by apply not_elem_of_nil in Hr.
  - cbn [server_step]. rewrite <- Hp. rewrite IH; [|done|by eapply removal_ok]. cbn [instances_]. f_equal. f_equal.
    apply removeInstance_running. intros i [k Hk]%list_elem_of_lookup Hi. apply (ok_ended s Hok k i Hk). rewrite Hi, <- Hp. by left.
Qed.

(** ** Speeds *)

(** The speed of a line that is reported is the one that is configured, where it is
    supported. *)
Theorem baud_roundtrip b :
  baudRateToInt (parseBaudRate b) = if decide (b ∈ speeds.*1) then b else 115200%Z.
Proof.
  case_decide as Hb.
  - cbn in Hb. repeat (apply elem_of_cons in Hb as [->|Hb]; [reflexivity|]). by apply not_elem_of_nil in Hb.
  - unfold parseBaudRate. rewrite (proj2 (find_if_None _ _)); [reflexivity|]. apply Forall_forall. intros [x y] Hx.
    apply bool_decide_false. intros <-. apply Hb, list_elem_of_fmap. by exists (x, y).
Qed.

(** A console's line: eight data bits, no parity, one stop bit, at its speed. *)
Theorem console_line d t :
  Uart.line_of (Uart.c_cflag (Uart.settings (uart_config d) t)) = Uart.mkLine 8 false None false true.
Proof. by rewrite Uart.uart_line. Qed.

(** A change of the speed, whatever it is: the line is as its configuration says. *)
Theorem setBaud_line i baud pending a :
  Uart.isOpen (i_uart i) = true ->
  let i' := setBaud i baud pending a in
  Uart.line (i_world i') = Uart.line (i_world i) \/
  Uart.line (i_world i') = Uart.settings (uart_config (i_config i)) (Uart.line (i_world i)).
Proof.
  intros Ho. unfold setBaud. rewrite Ho. unfold Uart.close.
  assert (Hfd : (Uart.fd_ (i_uart i) =? -1)%Z = false) by (unfold Uart.isOpen in Ho; by destruct (_ =? _)%Z).
  rewrite Hfd. unfold Uart.open. repeat case_match; simplify_eq/=; auto.
Qed.

(** The property can be set to the speeds that are supported, and keeps its value. *)
Theorem baud_property i value pending a :
  let '(set, i') := handleSetBaud i value pending a in
  (is_Some set <-> value ∈ speeds.*1) /\ handleGetBaud i' = handleGetBaud i /\
  (value ∉ speeds.*1 -> i' = i) /\ forall old, set = Some old -> old = handleGetBaud i.
Proof.
  unfold handleSetBaud. assert (Hv : (intToBaud value =? 0)%Z = bool_decide (value ∉ speeds.*1)).
  { case_bool_decide as Hv.
    - unfold intToBaud. rewrite (proj2 (find_if_None _ _)); [done|]. apply Forall_forall. intros [x y] Hx.
      apply bool_decide_false. intros <-. apply Hv, list_elem_of_fmap. by exists (x, y).
    - cbn in Hv. repeat (apply elem_of_cons in Hv as [->|Hv]; [reflexivity|]). by apply not_elem_of_nil in Hv. }
  rewrite Hv. case_bool_decide as Hn.
  - split; [|by split_and!]. split; [by intros []|done].
  - split; [done|]. split; [|split; [done|by intros old [= <-]]].
    unfold handleGetBaud. f_equal. f_equal. f_equal. f_equal. unfold setBaud. destruct (Uart.isOpen _); [|done].
    destruct (Uart.close _ _) as [w u]. by destruct (Uart.open _ _ _ _) as [[w' u'] ec].
Qed.

(** A client that connects through D-Bus is a client of the router; the descriptor that
    it is given is closed here with the next output of the device, and not before. *)
Theorem connect_fd pair assigned c s s' acc fd ev data :
  handleConnect pair assigned c None = Some (fd, ev) -> stop_requested s = false -> ConsoleRouter.step s ev = Some s' ->
  c ∈ clients_ s' /\ (fd ∉ drop (length (closedFds s)) (closedFds s')) /\ fd ∈ closedFds (publish s' acc data).
Proof.
  unfold handleConnect. destruct (createSocketPair _ _) as [[z|] l]; [|done]. cbn [fst]. destruct (Z.ltb_spec z 0) as [|Hz]; [done|].
  intros [= <- <-] Hs. cbn [ConsoleRouter.step]. destruct (isOpen s !! c); [done|]. unfold loop_test. cbn [connect stop_requested]. rewrite Hs.
  intros [= <-]. cbn. rewrite (proj2 (Z.leb_le 0 z)) by lia. split; [set_solver|]. split; [rewrite drop_all; apply not_elem_of_nil|].
  apply elem_of_app. right. rewrite list_elem_of_In, filter_In, <- list_elem_of_In. split; [set_solver|]. by apply Z.leb_le.
Qed.

(** ** A cancelled read *)

Lemma step_opened c e c' :
  ConsoleRouter.step c e = Some c' -> (exists w, dev c = Opened w) -> exists w, dev c' = Opened w.
Proof.
  intros Hs [w Hd]. destruct e; cbn [ConsoleRouter.step] in Hs; unfold client_data in Hs; rewrite ?Hd in Hs;
    repeat case_match; simplify_eq; unfold loop_test; repeat case_match; cbn; eauto.
Qed.

Lemma has_device_eq i : has_device i = true <-> exists w, dev (i_console i) = Opened w.
Proof. unfold has_device. split; [|by intros [w ->]]. destruct (dev _); try done. eauto. Qed.

Definition doomed (i : instance) : Prop := i_running i = true /\ has_device i = true /\ i_aborted i = true.

(** A console whose line is open and whose read is pending, when the speed is
    changed through D-Bus: whatever happens next, it either still waits for the end of
    the read, or has ended, with every client disconnected. *)
Theorem baud_change_ends i baud a h i' :
  i_running i = true -> has_device i = true -> Uart.isOpen (i_uart i) = true ->
  doomed (setBaud i baud true a) /\
  forall j, doomed j -> instance_step j h = Some i' ->
    doomed i' \/ i_running i' = false /\ stopping i' = true /\ clients_ (i_console i') = [].
Proof.
  intros Hr Hd Ho. split.
  { unfold setBaud. rewrite Ho. destruct (Uart.close _ _) as [w u]. destruct (Uart.open _ _ _ _) as [[w' u'] ec].
    split; [done|]. split; [done|]. apply orb_true_r. }
  intros j (Hjr & Hjd & Hja). pose proof (proj1 (has_device_eq j) Hjd) as [w Hw]. destruct h; cbn [instance_step]; try done.
  - unfold no_device. by rewrite Hw, andb_false_r.
  - rewrite Hjr, Hjd, Hja. cbn [andb negb orb]. case_bool_decide as Hn; [|done]. subst r. intros [= <-]. by right.
  - unfold emulated. by rewrite Hw, andb_false_r.
  - intros He. left. unfold client_event in He.
    destruct e; try done; destruct (line_closed j); destruct (ConsoleRouter.step _ _) as [c|] eqn:Hc; try done; injection He as <-;
      (split; [done|]); (split; [|done]); apply has_device_eq; try (by exists w); eapply step_opened; eauto.
  - intros [= <-]. left. unfold handleSetBaud. case_match; [done|]. cbn [snd]. unfold setBaud. case_match; [|done]. destruct (Uart.close _ _) as [w1 u]. destruct (Uart.open _ _ _ _) as [[w' u'] ec].
    split; [done|]. split; [done|]. cbn. by rewrite Hja.
Qed.

(** [stop] leaves no line open, and every coroutine told to stop. *)
Theorem stop_all_closed s i : i ∈ (stop_all s).1 -> Uart.isOpen (i_uart i) = false /\ stopping i = true.
Proof.
  intros (j & -> & _)%list_elem_of_fmap. unfold stop, Uart.close, Uart.isOpen. destruct (Uart.fd_ (i_uart j) =? -1)%Z eqn:He; cbn; [|done].
  by rewrite He.
Qed.

(** ** Attributes of a virtual line *)

Lemma hex_digit_of_digit z : (0 <= z < 16)%Z -> hex_digit_of (Uart.hex_digit z) = Some z.
Proof.
  intros H. assert (Hz : z ∈ seqZ 0 16) by (apply elem_of_seqZ; lia). cbn in Hz.
  repeat (apply elem_of_cons in Hz as [->|Hz]; [reflexivity|]). by apply not_elem_of_nil in Hz.
Qed.

Lemma to_hex_digits fuel z :
  (0 <= z < 16 ^ Z.of_nat fuel)%Z ->
  Forall (fun b => digit_in 16 b = true) (Uart.to_hex fuel z) /\ digits_value 16 (Uart.to_hex fuel z) = z.
Proof.
  revert z. induction fuel as [|fuel IH]; intros z Hz; [split; [constructor|]; cbn in *; lia|].
  pose proof (Z.mod_pos_bound z 16 ltac:(done)) as Hm. pose proof (Z.div_mod z 16 ltac:(done)) as Hdm. cbn [Uart.to_hex].
  unfold digits_value. rewrite foldl_app. cbn [foldl]. rewrite hex_digit_of_digit by lia. cbn [default]. rewrite Forall_app, Forall_singleton.
  assert (Hlast : digit_in 16 (Uart.hex_digit (z mod 16)) = true) by (unfold digit_in; rewrite hex_digit_of_digit by lia; apply Z.ltb_lt; lia).
  fold (digits_value 16 (if (z <? 16)%Z then [] else Uart.to_hex fuel (z / 16))). destruct (Z.ltb_spec z 16).
  - split; [by repeat constructor|]. cbn. lia.
  - destruct (IH (z / 16)%Z) as [Hd Hv]; [|rewrite Hv; split; [done|cbn; lia]].
    rewrite Nat2Z.inj_succ, Z.pow_succ_r in Hz by lia. split; [apply Z.div_pos; lia|]. apply Z.div_lt_upper_bound; lia.
Qed.

Lemma span_digits {A} (p : A -> bool) (l : list A) : Forall (fun x => p x = true) l -> ConsoleConfig.span p l = (l, []).
Proof. induction 1 as [|x l Hx _ IH]; [done|]. cbn [ConsoleConfig.span]. by rewrite Hx, IH. Qed.

(** An address in the form in which attributes are written is read back. *)
Theorem stoul_hex v : is_uint 16 v -> stoul (str "0x" ++ Uart.to_hex 4 v) = inl v.
Proof.
  intros Hv. destruct (to_hex_digits 4 v Hv) as [Hd Hval]. unfold stoul.
  destruct (Uart.to_hex 4 v) as [|c ds] eqn:Hs.
  { exfalso. apply (f_equal length) in Hs. cbn [Uart.to_hex] in Hs. rewrite length_app in Hs. cbn in Hs. lia. }
  pose proof (Forall_inv Hd) as Hc.
  change (ConsoleConfig.sign (ConsoleConfig.skip ConsoleConfig.isspace (str "0x" ++ c :: ds))) with (false, str "0x" ++ c :: ds).
  cbv beta iota.
  change (based (str "0x" ++ c :: ds)) with (if digit_in 16 c then (16%Z, c :: ds) else (8%Z, str "0x" ++ c :: ds)). rewrite Hc.
  cbv beta iota.
  rewrite (span_digits _ _ Hd). cbn [fst]. rewrite Hval. rewrite decide_False by done.
  unfold is_uint in Hv. rewrite (proj2 (Z.leb_gt _ _)) by lia. done.
Qed.

(** The address of a virtual line in that form is what its attribute is given. *)
Theorem lpc_address_written canonical exists_ filename open_file written d v sirq p text :
  ConsoleConfig.specific d = ConsoleConfig.ConsoleVuartConfig (str "0x" ++ Uart.to_hex 4 v) sirq -> is_uint 16 v -> (sirq <= 0)%Z ->
  (p, text) ∈ configureVuartSysfs canonical exists_ filename open_file written d ->
  p = Uart.findSysfsDeviceNode canonical exists_ filename (uart_config d) ++ str "/lpc_address" /\
  text = str "0x" ++ Uart.to_hex 4 v.
Proof.
  intros Hd Hv Hs. unfold configureVuartSysfs. rewrite Hd, decide_False by done. rewrite stoul_hex by done.
  rewrite (proj2 (Z.ltb_ge _ _)) by lia. rewrite app_nil_r. unfold attribute, Uart.configureSysfsAttribute.
  replace (wrapu 16 v) with v by (symmetry; apply Z.mod_small; exact Hv).
  case_decide; [by intros []%not_elem_of_nil|]. destruct (open_file _); [by intros []%not_elem_of_nil|]. cbn [fst].
  intros [= -> ->]%list_elem_of_singleton. done.
Qed.

(** ** Witnesses and limits *)

Module ConsoleServerSample.

Definition text : bytes :=
  str "[console.host]" ++ [x0a] ++ str "device=/dev/ttyS0" ++ [x0a] ++ str "[console.sol]" ++ [x0a] ++ str "device=/dev/ttyS1".

Definition sample_devices : list DeviceConfig :=
  match ConsoleConfig.loadFromFile map_to_list (Some text) with inl (Some c) => ConsoleConfig.devices c | _ => [] end.

Definition fine (fd : Z) : Uart.answers := {| Uart.a_open := inl fd; Uart.a_get := None; Uart.a_set := None |}.
Definition took : nat -> option nat := fun _ => None.

(** Two consoles, the first of which cannot be opened; the second has a client. *)
Definition sample_events : list happening :=
  [Opens 0 (LineOpens {| Uart.a_open := inr 2%Z; Uart.a_get := None; Uart.a_set := None |}) took; Opens 1 (LineOpens (fine 5)) took;
   ClientEvent 1 (Connects 0 None None); DeviceReturns 1 (Some (str "login")) took].

Definition view (s : option server) : option (list (bytes * bool * list nat) * list bytes) :=
  (fun s => ((fun i => (iname i, i_running i, clients_ (i_console i))) <$> instances_ s, posted s)) <$> s.

Example one_fails :
  view (server_run (start sample_devices) sample_events) = Some ([(str "host", false, []); (str "sol", true, [0])], [str "host"]).
Proof. vm_compute. reflexivity. Qed.

(** A change of the speed through D-Bus ends a console that works, and disconnects its
    client. *)
Example baud_change_kills :
  view (server_run (start sample_devices) (sample_events ++ [Removal; SetBaud 0 9600 true (fine 6); DeviceReturns 0 None took])) =
  Some ([(str "sol", false, [])], [str "sol"]).
Proof. vm_compute. reflexivity. Qed.

(** The removal that [instances_removed] allows happens. *)
Example instances_removed_sample :
  exists s s', server_run (start sample_devices) sample_events = Some s /\ server_step s Removal = Some s' /\
    exists l1 i l2, instances_ s = l1 ++ i :: l2 /\ instances_ s' = l1 ++ l2 /\ i_running i = false.
Proof.
  destruct (server_run (start sample_devices) sample_events) as [s|] eqn:Hs; [|by vm_compute in Hs].
  destruct (server_step s Removal) as [s'|] eqn:Hs'.
  - exists s, s'. split; [done|]. split; [done|].
    destruct (ConsoleConfig.loadFromFile map_to_list (Some text)) as [[c|]|] eqn:Hl; [|by vm_compute in Hl..].
    eapply (instances_removed map_to_list ltac:(done) (Some text) c sample_events s Removal s' Hl); [|done].
    unfold sample_devices in Hs. by rewrite Hl in Hs.
  - exfalso. assert (Hp : posted <$> Some s = Some [str "host"]) by (rewrite <- Hs; vm_compute; reflexivity).
    injection Hp as Hp. cbn [server_step] in Hs'. by rewrite Hp in Hs'.
Qed.

Definition virtual (lpc : string) : DeviceConfig :=
  let d := ConsoleConfig.mkDevice (ConsoleConfig.mkBase (str "host") (str "/dev/ttyVUART0") [] 115200%Z 0%Z []) in
  d (ConsoleConfig.ConsoleVuartConfig (str lpc) 0%Z) (ConsoleConfig.mkMux false 0%Z []).

Definition written_to (lpc : string) : list bytes :=
  (configureVuartSysfs Some (fun _ => true) (fun p => p) (fun _ => None) (fun _ => None) (virtual lpc)).*2.

(** An address is cut to sixteen bits; an address without prefix is read in base ten,
    or eight. *)
Example lpc_addresses :
  written_to "0x3f8" = [str "0x3f8"] /\ written_to "0x103f8" = [str "0x3f8"] /\ written_to "760" = [str "0x2f8"] /\
  written_to "-1" = [str "0xffff"] /\ written_to "3f8" = [str "0x3"] /\ written_to "COM1" = [].
Proof. repeat split; vm_compute; reflexivity. Qed.

End ConsoleServerSample.
